(* ===== verification/_CoqProject ===== *)
-Q . S2P
Prelude.v
CoreTypes.v
SlotMap.v
OrderBook.v
BookSpec.v
BookMarket.v
BookRep.v
BookInv.v
BookRefine.v
BookTheorems.v
RefBook.v
RingBuffer.v
SpmcConc.v
Fifo.v
Seqlock.v
Risk.v
Metrics.v
Engine.v
EngineTheorems.v
EngineSpec.v
Sequencer.v
Pipeline.v
Sim.v
SimRisk.v
SimCanon.v
SimInit.v
SimBooks.v
SimSpec.v
SimRun.v
SimTheorems.v
SimScenarios.v
RiskLoop.v
Bytes.v
Utf8.v
Latency.v
Logger.v
Prometheus.v
Snapshot.v
Wal.v
Failover.v
LogEntry.v
DualLog.v
Sorter.v
SecondEngine.v
Escalation.v
EscalationOrder.v
Codec.v
Session.v
MarketData.v
Server.v
Accept.v
Dpdk.v
Pmem.v
TestKit.v
ConformTrading.v
ConformOps.v
ConformStorage.v
ConformEscalation.v
ConformGateway.v
ConformBook.v
ConformEndToEnd.v
