(* ===== verification/Prelude.v ===== *)
(** * Match-Risk-Engine: a shallow embedding in Rocq

    The repository is an exchange core in Rust (crates/).  A gateway accepts
    client connections, cuts their bytes into frames and pushes the decoded
    commands into single-producer single-consumer rings; the sequencer polls
    them, gives every command a number, a time stamp and a fencing term, logs
    it and routes it to the matching engine of its symbol; an engine checks
    risk limits, applies the command to its order book, and fans the events out
    to the risk shards, the write-ahead log and the outbound ring, from which
    the gateway sends each client its reports; the risk shards keep positions
    and margins and publish them in seqlock cells that the engines read; the
    log and the snapshots are what a standby recovers from, and leadership is a
    lease on a file.  Beside this path a dual log writes commands to two files
    and a ring of pending entries; a sorter escalates the entries nobody has
    claimed in time to the worker pool of a second engine.  A simulation
    harness runs books and risk shards in one thread, tick by tick, and replays
    its log; a kernel-bypass receive path feeds a ring from packets; a logger
    and a metrics aggregator report what happens.

    ** Files

    Each file models the part of the source it names; definitions keep the
    source's names, structs are records, enums are inductive types, and every
    operation is an executable function.

    - Prelude.v (this file): machine integers, outcomes of calls, the control
      of loops, Rust's [Result]; shared lemmas and hints.
    - CoreTypes.v: crates/core-types: Side, Price, Qty, ids, commands, events,
      order status, with the conversion of wire commands.
    - SlotMap.v: the arena the book keeps its orders in (the slotmap crate), as
      the interface [SlotMapApi] with its documented laws and an instance.
    - OrderBook.v: crates/order-book (order.rs, level.rs, book.rs, apply.rs):
      price levels as doubly linked lists in the arena, the price ladder, the
      cached best prices, the client-id and account indexes, matching,
      fill-or-kill look-ahead, cancelling.
    - BookSpec.v, BookMarket.v: the abstract specification of the book: two
      lists of orders in price-time priority and [spec_apply]; what the
      reference promises about trades, priority and conservation.
    - BookRep.v, BookInv.v, BookRefine.v: the representation of levels, the
      representation invariant [rep] of the whole book, and the simulation of
      every operation of OrderBook.v by the reference.
    - BookTheorems.v: the properties of reachable books (C1, C3 to C8); RefBook.v:
      the naive matcher, generator and comparison of the differential test in
      order-book/src/tests/diff_fuzz.rs (C9).
    - RingBuffer.v: crates/ring-buffer: the SPSC ring (Module Spsc) and the
      broadcast ring (Module Spmc); the SPSC calls also access by access as a
      step relation over the two threads (C10).
    - SpmcConc.v: the broadcast ring access by access, with any number of
      consumers interleaved (C11).
    - Fifo.v: the bounded queue as an interface ([Fifo], by history of pushes
      and pops), its SPSC instance, and pushing in a spin loop.
    - Seqlock.v: crates/seqlock: the cell of one account, as whole calls and
      access by access with a concurrent writer, and the table (C12).
    - Risk.v: crates/risk-engine: limits, the gateway's Tier-0 check, positions,
      margin and the event handler of a shard (C13, C14).
    - Metrics.v: crates/matching-engine/src/metrics.rs and
      crates/metrics/src/aggregator.rs: latency histograms, percentiles,
      counters, and their aggregation over shards (C37).
    - Engine.v, EngineTheorems.v: crates/matching-engine: the hot-path Tier-0
      check, the event mapping, the command handler and a turn of its loop, with
      the log as the interface [WalWriter] (C16, C17).
    - EngineSpec.v: the abstract engine: a book of lists, the reference prices,
      the frozen accounts and the events owed ([engine_spec]), and the
      simulation of the command handler by it.
    - Sequencer.v: crates/sequencer: polling, numbering, routing, markers, and
      the threads around the sequencer as the step relation [sys_step] (C18 to
      C20).
    - Pipeline.v: gateways, sequencer, engines, output consumers and risk
      shards composed at the granularity of ring operations, as the step
      relation [pl_step], and its invariant (C2).
    - Sim.v: crates/sim (harness.rs, replay.rs, chaos.rs): a tick as
      sequencing, one command per engine and all events through the shards, over
      OrderBook.v and Risk.v; replay, verification, fault injection.
    - SimRisk.v, SimCanon.v, SimInit.v, SimBooks.v: what a run needs of its
      parts: positions and their ranges, margins that do not depend on the order
      of a hash map, the initial shards, the books and queues of the engines.
    - SimSpec.v, SimRun.v, SimTheorems.v: the specification of a run as a fold
      over its log, the invariant of the harness for every sequence of calls,
      and the theorems (C21 to C23); SimScenarios.v: the scenarios of the source
      as programs, run on the concrete arena.
    - RiskLoop.v: [run_risk_shard], the thread of a shard between the broadcast
      ring and the command ring (C15).
    - Bytes.v: little-endian fields, slices and file regions; Utf8.v: text as
      bytes, and the standard library's UTF-8 validation.
    - Latency.v: order-book/examples/latency_report.rs: the recording loops and
      the report, over the interface [Histogram] (the hdrhistogram crate).
    - Logger.v: crates/logger: records, the channel and the writer thread as the
      step relation [log_step] (C40).
    - Prometheus.v: the text rendering of metrics/src/aggregator.rs and the
      percentiles of the engine's metrics, with the rounding of [f64].
    - Snapshot.v: crates/wal/src/snapshot.rs.
    - Wal.v: crates/wal/src/log.rs and recovery.rs; the file log is shown to be
      a [WalWriter] (C24, C25).
    - Failover.v: crates/sequencer/src/failover.rs and standby.rs: the election
      as a step relation over processes, the standby (C26, C27).
    - LogEntry.v: crates/core-types/src/log_entry.rs and
      crates/dual-log/src/pending_ring.rs: the shared entry with its status
      word, a heap of shared entries ([Arc]), the pending ring over the
      interface [SkipMapApi] (crossbeam's ordered map) with an instance.
    - DualLog.v: crates/dual-log/src/dual_log.rs over the writers of Wal.v (C28).
    - Sorter.v: crates/sorter: the load monitor, the leadership token, the scan
      and the adaptive timeout.
    - SecondEngine.v: crates/second-engine: a worker's books and what it does
      with an escalated entry, over the books of OrderBook.v.
    - Escalation.v, EscalationOrder.v: dual log, sorters, workers and primary
      engines access by access as one step relation [sys_step]; the invariant
      of the system (C29, C30) and the order of escalation (C31).
    - Codec.v, Session.v: crates/gateway/src/codec.rs and session.rs: frames,
      the payloads of every message both ways, the session (C32, C33).
    - MarketData.v: crates/gateway/src/market_data.rs: the hub over the
      interface [Broadcast] (tokio's broadcast channel) with an instance, and
      the subscription registry.
    - Server.v: crates/gateway/src/server.rs: the handshake, the loop of a
      connection, and the tasks that forward reports and market data (C34,
      C36); Accept.v: the server, its accept loops and sessions (C35), and the
      acceptor of tls.rs.
    - Dpdk.v: crates/dpdk-gateway: the receive loop, the packet filter and the
      bring-up of the device (C39); crates/matching-engine/src/affinity.rs.
    - Pmem.v: crates/wal/src/pmem.rs over a memory with a cache in front of it
      (C38).
    - TestKit.v, ConformTrading.v, ConformOps.v, ConformStorage.v,
      ConformEscalation.v, ConformGateway.v, ConformBook.v: the unit tests of the
      repository, assertion by assertion, as programs over the definitions
      above, and the lemmas that every one of them passes; ConformEndToEnd.v:
      the integration test of crates/sim/tests, over all components.

    ** What the theorems show

    The whole path: however gateways, sequencer, engines, output consumers and
    risk shards interleave, there is one gap-free log that merges what the
    gateways sent, every engine is in the state of the abstract engine after a
    prefix of its part of that log, with exactly the events owed in its
    write-ahead log, and no order is open in two engines (C2).
    The book: [apply] never panics on a reachable book and implements the
    price-time priority reference exactly (C1), hence sound trades without
    self-trading and with exact remaining quantities on both sides (C3), priority
    (C4), conservation of quantity (C5), all or nothing fill-or-kill (C6), cancel
    on every branch, which takes the order out of the id map, the arena and its
    level and leaves everything else (C7), and exact best prices (C8); depth, the account index and immediate orders that never rest are
    proved beside them.  The repository's own naive matcher fills the same
    quantities on every stream it is made for (C9), so its differential test
    passes for every random generator ([differential_fuzz_passes]).  The ring:
    FIFO without loss or duplication under interleaving (C10), with race freedom
    and whole calls across cursor wrap-around beside it; the broadcast ring
    gives every consumer every item although the producer loads their cursors
    one by one (C11).  The seqlock: no torn reads (C12).  Risk: positions on
    every branch of a fill, with the realised profit exact where it fits in 64
    bits ([position_profit_truncated] shows where the cast loses it) (C13),
    freezing and liquidating exactly on a breach for every trade, whichever of
    its accounts the shard owns, self-trades included (C14), a thread
    that loses no event and no liquidation (C15); exact margins and zero-sum
    trades are proved beside them. The engine: nothing published before it is
    logged (C16), a liquidation that cancels every order of its account (C17);
    [engine_new_order] says what a new order does on every branch and
    [tier0_check_exact] states the limits; two lemmas state behaviours the source does not intend: the term
    fence never closes ([engine_fence_inactive]) and successful cancels are not
    logged ([engine_cancel_silent]).  The sequencer: one total order delivered
    without loss to every engine (C18), spin loops that end when consumers drain
    (C19), no starvation of a gateway (C20).  The simulation: every sequence of
    calls within its configuration and bounds returns and the market is closed
    (C21), the log determines the books
    (C22), and replay reproduces the accounts where it can (C23);
    [replay_forgets_marks] and [full_replay_rejects_all] state where it cannot,
    and [chaos_returns] that fault injection never panics. The log: what
    the writer has promised survives a crash that keeps only what [msync] has put
    on the disk: with [sync_on_write] every acknowledged record, without it
    those before the last flush (C24); recovery is exact (C25);
    [snapshot_latest_newest]: the newest valid snapshot is found although writes
    fail.  Failover: at most one leader and strictly increasing terms (C26), a
    standby that polls a growing log and resumes exactly after the last command
    its last good poll could see (C27).  Escalation: an acknowledged command is
    in both logs, each of which keeps it across a crash as its configuration
    promises, and in the ring (C28); for the whole
    system, under every interleaving, no entry is claimed twice (C29) or lost
    (C30), and one sorter escalates in sequence order, so that the workers'
    books never panic (C31); [sorter_scan_exact], [second_engine_handles_once]
    and [escalation_fill_final] state what the parts do.  The gateway: frames do
    not depend on how the stream is cut (C32), a session does exactly what the
    protocol says (C33), a connection takes one frame per turn and
    enqueues exactly the commands of the frames taken, up to the end of the
    stream or the first frame it must refuse (C34), sessions do not mix and are
    typed (C35), and a client is sent the reports of its own account and no
    others, a resting order's fill with the aggressor's data (C36);
    [connection_burst_dropped] and [md_forwarder_lag] state two losses the
    source does not intend.  Metrics: totals are those of
    one histogram of all samples (C37); [percentile_bounds]: a percentile is
    within a factor of two; [prometheus_lines]: the rendered text splits into
    exactly the metrics. Persistent memory: what is acknowledged is durable at
    every point of a later append (C38).  The receive core: no packet makes it
    read outside its buffer (C39), though its filter reads the bytes before the
    frame ([rx_filter_reads_headroom]); [init_port_sequence]: the device comes
    up in order and stops at the first error.  The logger: what is written is
    what was sent, in order, and all of it at the end (C40); [log_record_text]
    says what a truncated message becomes.  The latency report:
    [latency_report_times] says what its phases time, which for the matching
    phases is not what the source intends: refusals of prices above the ladder.
    The conformance lemmas ([matching_tests_pass], [engine_tests_pass],
    [wal_tests_pass], [gateway_tests_pass] and so on) run the tests of the
    sources on the model; where a test leaves something to chance (threads, a
    clock, the cut of a stream) the lemma covers every outcome.
    [end_to_end_report_is_a_reject] says that the integration test passes on the
    rejection of its order, and [end_to_end_accepted] that an order on the
    ladder comes back accepted.

    ** Conventions and bounds

    Integers are [Z] with their width written out; the release profile of
    Cargo.toml has no overflow checks, so [+], [-] and [*] wrap and
    [debug_assert!] does nothing.  A Rust panic is [Panic]; the theorems that
    say a call returns show it is not reached.  Loops carry fuel where they are
    not structural: matching has one iteration per resting order plus two
    ([match_fuel]), the scans of a log one per byte of the file ([scan_fuel]),
    the scans and flushes of the persistent log and the frames of a buffer one
    per byte, and all are proved to suffice for every input; a spin loop has
    the number of attempts as a parameter and ends within it when the consumer
    drains.  A socket is the list of results its reads return, and a connection
    ends with it.  Concurrency is the interleaving of atomic accesses: the
    acquire and release orderings of the source order each slot or field access
    with its cursor, counter or status.

    A memory-mapped log file has two sides: the map, which the process and a
    standby on the same machine read, and the disk, of which the writer knows
    the bytes that a successful [msync] has covered since they were last written
    ([disk]); a crash may leave anything in the others ([crash_leaves]).  An
    [msync] covers whole pages down from its offset, so the first synced record
    takes the file header with it.

    Parameters, with the documented behaviour relied on as the laws of a class
    or as hypotheses: the slotmap crate, crossbeam's skip map, tokio's broadcast
    channel, the iteration order of HashMap, the standard hasher, CRC-32,
    bincode, the clocks and elapsed times, [flock], what [msync] and file
    operations answer, the DPDK functions and [sched_setaffinity], the bounded
    channel of crossbeam (any [Fifo]), the rand crate, TLS handshakes, and what
    the threads at the other end of a ring do.  The theorems on percentiles hold
    for any function that computes the rank; Prometheus.v has the one of the
    source.

    ** Not modelled

    What rustls does with certificates and handshakes, the scheduling of tokio's
    tasks, creating and joining threads, the allocation of rings and cells
    (padding to cache lines, uninitialised slots, which are [None] here), the
    kernel's and the driver's side of system calls, [RxWorker::new], which does
    not compile, the text forms (Display) of types and errors, trivial
    accessors, and the benchmarks.  Of the tests, those under loom are left to
    the interleaving theorems. *)

From Stdlib Require Export ZArith Lia Bool Sorted.
From stdpp Require Export prelude gmap.

#[export] Set Warnings "-clear-no-such-hyp".
#[local] Open Scope Z_scope.

(** ** Machine integers

    A w-bit integer is a [Z]; every operation that can leave the width says
    what happens there.  The arithmetic operators follow the release profile
    of the workspace (Cargo.toml, [profile.release]: no overflow checks), in
    which [+], [-] and [*] wrap. *)

Definition two64 : Z := 18446744073709551616.
Definition two63 : Z := 9223372036854775808.
Definition two32 : Z := 4294967296.
Definition two127 : Z := 170141183460469231731687303715884105728.
Definition two128 : Z := 340282366920938463463374607431768211456.

Definition u64_max : Z := two64 - 1.
Definition u32_max : Z := two32 - 1.
Definition i64_max : Z := two63 - 1.
Definition i64_min : Z := - two63.

Definition in_u64 (z : Z) : Prop := 0 <= z < two64.
Definition in_u32 (z : Z) : Prop := 0 <= z < two32.
Definition in_i64 (z : Z) : Prop := - two63 <= z < two63.
Definition in_i128 (z : Z) : Prop := - two127 <= z < two127.

#[export] Instance in_u64_dec z : Decision (in_u64 z).
Proof. unfold in_u64; apply _. Defined.
#[export] Instance in_u32_dec z : Decision (in_u32 z).
Proof. unfold in_u32; apply _. Defined.
#[export] Instance in_i64_dec z : Decision (in_i64 z).
Proof. unfold in_i64; apply _. Defined.

(** [wrap_*] is the value a w-bit register keeps; it is also the numeric cast
    [as u64], [as i64], [as u32] from any wider or equally wide integer. *)
Definition wrap_u64 (z : Z) : Z := z mod two64.
Definition wrap_u32 (z : Z) : Z := z mod two32.
Definition wrap_i64 (z : Z) : Z := (z + two63) mod two64 - two63.
Definition wrap_i128 (z : Z) : Z := (z + two127) mod two128 - two127.

Definition clamp_i64 (z : Z) : Z := Z.max i64_min (Z.min i64_max z).

(** The methods of the standard library's integers that the source calls. *)
Definition checked_sub_i64 (a b : Z) : option Z :=
  if decide (in_i64 (a - b)) then Some (a - b) else None.
Definition checked_add_i64 (a b : Z) : option Z :=
  if decide (in_i64 (a + b)) then Some (a + b) else None.
Definition checked_sub_u64 (a b : Z) : option Z :=
  if decide (in_u64 (a - b)) then Some (a - b) else None.
Definition checked_add_u64 (a b : Z) : option Z :=
  if decide (in_u64 (a + b)) then Some (a + b) else None.
Definition saturating_sub_u64 (a b : Z) : Z := Z.max 0 (a - b).
Definition saturating_add_i64 (a b : Z) : Z := clamp_i64 (a + b).
Definition saturating_sub_i64 (a b : Z) : Z := clamp_i64 (a - b).
Definition saturating_mul_i64 (a b : Z) : Z := clamp_i64 (a * b).
Definition saturating_mul_i128 (a b : Z) : Z :=
  Z.max (- two127) (Z.min (two127 - 1) (a * b)).

(** [lia] with every width unfolded. *)
Ltac unfold_ints :=
  unfold in_u64, in_u32, in_i64, in_i128, saturating_sub_u64, saturating_add_i64,
    saturating_sub_i64, saturating_mul_i64, saturating_mul_i128, clamp_i64,
    u64_max, u32_max, i64_max, i64_min, two64, two63, two32, two127, two128 in *.
Ltac ilia := unfold_ints; lia.

Create HintDb ints.
Create Rewrite HintDb ints.

Lemma wrap_u64_range z : in_u64 (wrap_u64 z).
Proof. unfold wrap_u64, in_u64, two64. apply Z.mod_pos_bound. lia. Qed.

Lemma wrap_i64_range z : in_i64 (wrap_i64 z).
Proof.
  unfold wrap_i64, in_i64, two64, two63.
  pose proof (Z.mod_pos_bound (z + 9223372036854775808) 18446744073709551616).
  lia.
Qed.

Lemma wrap_u64_id z : in_u64 z -> wrap_u64 z = z.
Proof. apply Z.mod_small. Qed.

Lemma wrap_i64_id z : in_i64 z -> wrap_i64 z = z.
Proof.
  unfold wrap_i64, in_i64. intros ?. rewrite Z.mod_small; ilia.
Qed.

Lemma wrap_u64_wrap z : wrap_u64 (wrap_u64 z) = wrap_u64 z.
Proof. apply wrap_u64_id, wrap_u64_range. Qed.

Lemma wrap_u64_add_l a b : wrap_u64 (wrap_u64 a + b) = wrap_u64 (a + b).
Proof. unfold wrap_u64. apply Z.add_mod_idemp_l. unfold two64. lia. Qed.

Lemma wrap_u64_add_r a b : wrap_u64 (a + wrap_u64 b) = wrap_u64 (a + b).
Proof. unfold wrap_u64. apply Z.add_mod_idemp_r. unfold two64. lia. Qed.

Lemma wrap_u64_sub_l a b : wrap_u64 (wrap_u64 a - b) = wrap_u64 (a - b).
Proof. unfold wrap_u64. apply Zminus_mod_idemp_l. Qed.

#[export] Hint Resolve wrap_u64_range wrap_i64_range : ints.
#[export] Hint Rewrite wrap_u64_add_l wrap_u64_add_r wrap_u64_sub_l
  wrap_u64_wrap : ints.

(** ** Outcomes of a call

    [Val a] is a normal return.  [Panic] is a Rust panic (an index out of
    bounds, a stale arena key, an [expect] on [None]); the release profile
    aborts the process there.  [OutOfFuel] is the bound of the model's loops
    being reached, which the theorems show never happens. *)
Inductive Exec (A : Type) : Type :=
| Val (a : A)
| Panic
| OutOfFuel.
Arguments Val {A} _.
Arguments Panic {A}.
Arguments OutOfFuel {A}.

Definition ebind {A B} (m : Exec A) (f : A -> Exec B) : Exec B :=
  match m with
  | Val a => f a
  | Panic => Panic
  | OutOfFuel => OutOfFuel
  end.

Declare Scope exec_scope.
Delimit Scope exec_scope with exec.
Notation "'let!' x := m 'in' k" := (ebind m (fun x => k))
  (at level 10, x name, m at level 200, k at level 200,
   format "'[v' 'let!'  x  :=  m  'in' '/' k ']'") : exec_scope.
Notation "'let!' ' p := m 'in' k" := (ebind m (fun x => match x with p => k end))
  (at level 10, p strict pattern, m at level 200, k at level 200,
   format "'[v' 'let!'  ' p  :=  m  'in' '/' k ']'") : exec_scope.
Open Scope exec_scope.

(** Rust's [Option::expect] / [unwrap] and slice indexing. *)
Definition expect {A} (o : option A) : Exec A :=
  match o with Some a => Val a | None => Panic end.

Definition index_list {A} (l : list A) (i : nat) : Exec A := expect (l !! i).

(** The control of one iteration of a [loop] or [while]: leave it, or go on. *)
Inductive LoopCtl (S : Type) : Type :=
| Break (s : S)
| Continue (s : S).
Arguments Break {S} _.
Arguments Continue {S} _.

(** [loop { body }] with a bound on the number of iterations. *)
Fixpoint loop_fuel {S} (fuel : nat) (body : S -> Exec (LoopCtl S)) (s : S) : Exec S :=
  match fuel with
  | O => OutOfFuel
  | Datatypes.S fuel' =>
      match body s with
      | Val (Break s') => Val s'
      | Val (Continue s') => loop_fuel fuel' body s'
      | Panic => Panic
      | OutOfFuel => OutOfFuel
      end
  end.

(** Rust's [Result]. *)
Inductive Result (T E : Type) : Type :=
| Ok (t : T)
| Err (e : E).
Arguments Ok {T E} _.
Arguments Err {T E} _.

Definition is_ok {T E} (r : Result T E) : bool :=
  match r with Ok _ => true | Err _ => false end.

#[export] Instance result_eq_dec {T E} `{EqDecision T, EqDecision E} :
  EqDecision (Result T E).
Proof. solve_decision. Defined.

Lemma Ok_inj {T E} (a b : T) : Ok (E := E) a = Ok b -> a = b.
Proof. congruence. Qed.

Lemma ebind_val_inv {A B} (m : Exec A) (f : A -> Exec B) b :
  ebind m f = Val b -> exists a, m = Val a /\ f a = Val b.
Proof. destruct m; simpl; intros; try discriminate. eauto. Qed.

Lemma index_list_lt {A} (l : list A) i a :
  l !! i = Some a -> index_list l i = Val a.
Proof. unfold index_list. intros ->. reflexivity. Qed.

(** ** Lists *)

Lemma last_snoc_cons {A} (l : list A) x y : last (x :: l ++ [y]) = Some y.
Proof. rewrite app_comm_cons. apply last_snoc. Qed.


(** Sum of a list of integers. *)
Fixpoint sumZ (l : list Z) : Z :=
  match l with [] => 0 | x :: r => x + sumZ r end.

Lemma sumZ_app l1 l2 : sumZ (l1 ++ l2) = sumZ l1 + sumZ l2.
Proof. induction l1; simpl; lia. Qed.

Lemma sumZ_nonneg l : Forall (fun x => 0 <= x) l -> 0 <= sumZ l.
Proof. induction 1; simpl; lia. Qed.

Lemma filter_none {A} (f : A -> bool) (l : list A) :
  (forall x, x ∈ l -> f x = false) -> List.filter f l = [].
Proof.
  induction l as [|x l IH]; intros H; [done|]. simpl. rewrite H by left. apply IH.
  intros ??. apply H. by right.
Qed.
Lemma filter_all {A} (f : A -> bool) (l : list A) :
  (forall x, x ∈ l -> f x = true) -> List.filter f l = l.
Proof.
  induction l as [|x l IH]; intros H; [done|]. simpl. rewrite H by left. f_equal. apply IH.
  intros ??. apply H. by right.
Qed.
