(* ===== verification/CoreTypes.v ===== *)
(** * CoreTypes: the domain types of crates/core-types

    The newtypes over one integer ([Price(i64)], [Qty(u64)], [OrderId(u64)],
    [AccountId(u64)], [InstrumentId(u64)], [ClientOrderId(u64)],
    [Symbol(u16)]) are the integer itself, a [Z]; their methods are the
    functions of the modules [Price], [Qty], [Symbol] and [SequenceNo] below.
    Enums keep the source's constructors, prefixed where two enums share one;
    structs are records.  The file also holds the conversion of a wire command
    into an engine command and the accessors of commands and events. *)

From S2P Require Import Prelude.
#[local] Open Scope Z_scope.

(** ** side.rs *)

Inductive Side := Buy | Sell.
#[export] Instance Side_eq_dec : EqDecision Side.
Proof. solve_decision. Defined.

Definition opposite (s : Side) : Side :=
  match s with Buy => Sell | Sell => Buy end.

Definition sign (s : Side) : Z :=
  match s with Buy => 1 | Sell => -1 end.

Definition is_buy (s : Side) : bool := match s with Buy => true | Sell => false end.
Definition is_sell (s : Side) : bool := match s with Sell => true | Buy => false end.

(** ** price.rs *)

Module Price.
Definition ZERO : Z := 0.
Definition MIN : Z := i64_min.
Definition MAX : Z := i64_max.
Definition checked_add (a b : Z) : option Z := checked_add_i64 a b.
Definition checked_sub (a b : Z) : option Z := checked_sub_i64 a b.
Definition is_positive (a : Z) : bool := 0 <? a.
Definition add (a b : Z) : Z := wrap_i64 (a + b).
Definition sub (a b : Z) : Z := wrap_i64 (a - b).
Definition neg (a : Z) : Z := wrap_i64 (- a).
End Price.

(** ** qty.rs *)

Module Qty.
Definition ZERO : Z := 0.
Definition MAX : Z := u64_max.
Definition is_zero (a : Z) : bool := a =? 0.
Definition saturating_sub (a b : Z) : Z := saturating_sub_u64 a b.
Definition checked_sub (a b : Z) : option Z := checked_sub_u64 a b.
Definition checked_add (a b : Z) : option Z := checked_add_u64 a b.
Definition min (a b : Z) : Z := if a <? b then a else b.
Definition add (a b : Z) : Z := wrap_u64 (a + b).
Definition sub (a b : Z) : Z := wrap_u64 (a - b).
(** [+=] and [-=]: the new value of the left-hand side. *)
Definition add_assign (a b : Z) : Z := wrap_u64 (a + b).
Definition sub_assign (a b : Z) : Z := wrap_u64 (a - b).
End Qty.

(** ** ids.rs *)

(** The macro [id_type!]: [OrderId], [AccountId], [InstrumentId] and
    [ClientOrderId] wrap a [u64]. *)
Module Id.
Definition new (v : Z) : Z := v.
Definition get (id : Z) : Z := id.
Definition from (v : Z) : Z := new v.
End Id.

(** [SymbolRangeError(pub InstrumentId)]. *)
Inductive SymbolRangeError := mkSymbolRangeError (id : Z).
#[export] Instance SymbolRangeError_eq_dec : EqDecision SymbolRangeError.
Proof. solve_decision. Defined.

Module Symbol.
(** [u16::try_from(id.0)]. *)
Definition try_from (id : Z) : Result Z SymbolRangeError :=
  if id <=? 65535 then Ok id else Err (mkSymbolRangeError id).
End Symbol.

Module SequenceNo.
(** [SequenceNo(NonZeroU64)]: the integer, never zero. *)
Definition FIRST : Z := 1.
Definition new (v : Z) : option Z := if v =? 0 then None else Some v.
Definition get (s : Z) : Z := s.
(** [NonZeroU64::new(self.0.get() + 1).expect(..)]: the sum wraps to 0 at
    [u64::MAX], where the [expect] panics. *)
Definition next (s : Z) : Exec Z := expect (new (wrap_u64 (s + 1))).
End SequenceNo.

(** ** commands.rs *)

Inductive TimeInForce := Gtc | Ioc | Fok.
#[export] Instance TimeInForce_eq_dec : EqDecision TimeInForce.
Proof. solve_decision. Defined.

Inductive OrderType := Limit | Market.
#[export] Instance OrderType_eq_dec : EqDecision OrderType.
Proof. solve_decision. Defined.

Record NewOrder := mkNewOrder {
  no_account_id : Z;
  no_instrument_id : Z;
  no_client_order_id : Z;
  no_side : Side;
  no_price : Z;
  no_order_type : OrderType;
  no_qty : Z;
  no_time_in_force : TimeInForce
}.

Record CancelOrder := mkCancelOrder {
  co_account_id : Z;
  co_instrument_id : Z;
  co_order_id : Z
}.

Record ModifyOrder := mkModifyOrder {
  mo_account_id : Z;
  mo_instrument_id : Z;
  mo_order_id : Z;
  mo_new_qty : Z;
  mo_new_price : option Z
}.
#[export] Instance NewOrder_eq_dec : EqDecision NewOrder.
Proof. solve_decision. Defined.
#[export] Instance CancelOrder_eq_dec : EqDecision CancelOrder.
Proof. solve_decision. Defined.
#[export] Instance ModifyOrder_eq_dec : EqDecision ModifyOrder.
Proof. solve_decision. Defined.

(** [enum Command]: the wire-protocol command. *)
Inductive Command :=
| Command_New (n : NewOrder)
| Command_Cancel (c : CancelOrder)
| Command_Modify (m : ModifyOrder)
| Command_Halt (instrument_id : Z)
| Command_Resume (instrument_id : Z).
#[export] Instance Command_eq_dec : EqDecision Command.
Proof. solve_decision. Defined.

Definition command_instrument_id (c : Command) : option Z :=
  match c with
  | Command_New n => Some (no_instrument_id n)
  | Command_Cancel c => Some (co_instrument_id c)
  | Command_Modify m => Some (mo_instrument_id m)
  | Command_Halt i => Some i
  | Command_Resume i => Some i
  end.

Definition command_account_id (c : Command) : option Z :=
  match c with
  | Command_New n => Some (no_account_id n)
  | Command_Cancel c => Some (co_account_id c)
  | Command_Modify m => Some (mo_account_id m)
  | Command_Halt _ | Command_Resume _ => None
  end.

(** [enum InboundCommand]: the engine-internal command. *)
Inductive InboundCommand :=
| Inbound_NewOrder (account client_order_id symbol : Z) (side : Side)
    (price qty : Z) (order_type : OrderType) (time_in_force : TimeInForce)
| Inbound_Cancel (account order_id : Z)
| Inbound_Liquidate (symbol account : Z)
| Inbound_FreezeAccount (account : Z).
#[export] Instance InboundCommand_eq_dec : EqDecision InboundCommand.
Proof. solve_decision. Defined.

Inductive CommandConversionError :=
| ModifyNotSupported
| AdminCommandNotQueued
| SymbolOutOfRange (e : SymbolRangeError).
#[export] Instance CommandConversionError_eq_dec : EqDecision CommandConversionError.
Proof. solve_decision. Defined.

(** [impl TryFrom<Command> for InboundCommand]. *)
Definition inbound_try_from (cmd : Command) : Result InboundCommand CommandConversionError :=
  match cmd with
  | Command_New n =>
      match Symbol.try_from (no_instrument_id n) with
      | Err e => Err (SymbolOutOfRange e)
      | Ok symbol =>
          Ok (Inbound_NewOrder (no_account_id n) (no_client_order_id n) symbol
                (no_side n) (no_price n) (no_qty n) (no_order_type n)
                (no_time_in_force n))
      end
  | Command_Cancel c => Ok (Inbound_Cancel (co_account_id c) (co_order_id c))
  | Command_Modify _ => Err ModifyNotSupported
  | Command_Halt _ | Command_Resume _ => Err AdminCommandNotQueued
  end.

Record SequencedCommand := mkSC {
  sc_term : Z;
  sc_seq : Z;
  sc_ts_ns : Z;
  sc_cmd : InboundCommand
}.
#[export] Instance SequencedCommand_eq_dec : EqDecision SequencedCommand.
Proof. solve_decision. Defined.

Definition order_key (sc : SequencedCommand) : Z * Z := (sc_term sc, sc_seq sc).

(** ** events.rs *)

Inductive CancelReason :=
| CR_UserRequested | CR_TimeInForceExpired | CR_RiskLimitBreach | CR_InstrumentHalted.
#[export] Instance CancelReason_eq_dec : EqDecision CancelReason.
Proof. solve_decision. Defined.

Inductive RejectReason :=
| RR_RiskLimitBreach | RR_InstrumentHalted | RR_InvalidPrice | RR_InvalidQuantity
| RR_InvalidQty | RR_UnknownInstrument | RR_UnknownOrder | RR_PriceOutOfRange
| RR_IocNoMatch | RR_ArenaFull | RR_OrderNotFound | RR_WrongAccount
| RR_FokNotFullyFillable | RR_UnsupportedOrderType.
#[export] Instance RejectReason_eq_dec : EqDecision RejectReason.
Proof. solve_decision. Defined.

Record Fill := mkFill {
  f_instrument_id : Z;
  f_aggressor_order_id : Z;
  f_aggressor_account_id : Z;
  f_aggressor_side : Side;
  f_resting_order_id : Z;
  f_resting_account_id : Z;
  f_price : Z;
  f_qty : Z;
  f_resting_remaining_qty : Z;
  f_aggressor_remaining_qty : Z
}.
#[export] Instance Fill_eq_dec : EqDecision Fill.
Proof. solve_decision. Defined.

(** [enum Event]: the wire-protocol event. *)
Inductive Event :=
| Event_Accepted (seq instrument_id order_id account_id client_order_id : Z)
    (side : Side) (price qty : Z)
| Event_Filled (seq : Z) (fill : Fill)
| Event_Canceled (seq instrument_id order_id account_id : Z)
    (reason : CancelReason) (remaining_qty : Z)
| Event_Rejected (seq account_id client_order_id : Z) (reason : RejectReason)
| Event_Modified (seq instrument_id order_id account_id new_qty : Z)
    (new_price : option Z)
| Event_InstrumentHalted (seq instrument_id : Z)
| Event_InstrumentResumed (seq instrument_id : Z).
#[export] Instance Event_eq_dec : EqDecision Event.
Proof. solve_decision. Defined.

Definition event_seq (ev : Event) : Z :=
  match ev with
  | Event_Accepted seq _ _ _ _ _ _ _
  | Event_Filled seq _
  | Event_Canceled seq _ _ _ _ _
  | Event_Rejected seq _ _ _
  | Event_Modified seq _ _ _ _ _
  | Event_InstrumentHalted seq _
  | Event_InstrumentResumed seq _ => seq
  end.

(** [enum EngineEvent]: what the order book emits. *)
Inductive EngineEvent :=
| Trade (seq ts_ns symbol price qty : Z)
    (maker_order taker_order maker_order_id taker_order_id : Z)
    (maker_acct taker_acct : Z) (maker_side : Side)
    (maker_remaining_qty taker_remaining_qty : Z)
| Accepted (seq order_id ts_ns symbol account_id client_order_id : Z)
    (side : Side) (price qty : Z)
| Rejected (seq order_id account_id client_order_id : Z) (reason : RejectReason)
| Cancelled (seq order_id : Z)
| BookTop (seq symbol : Z) (bid ask : option Z)
| OrderAcknowledged (order_id account_id seq : Z)
| OrderCancelled (order_id account_id seq symbol : Z)
| OrderRejected (order_id account_id : Z) (reason : RejectReason) (seq symbol : Z)
| SnapshotMarker (seq : Z).
#[export] Instance EngineEvent_eq_dec : EqDecision EngineEvent.
Proof. solve_decision. Defined.

(** ** order_status.rs *)

Inductive OrderStatus := Pending | Addressed | Unaddressed | FinallyHandled.
#[export] Instance OrderStatus_eq_dec : EqDecision OrderStatus.
Proof. solve_decision. Defined.

(** [impl From<OrderStatus> for u8]: the [repr(u8)] discriminant. *)
Definition status_to_u8 (s : OrderStatus) : Z :=
  match s with Pending => 0 | Addressed => 1 | Unaddressed => 2 | FinallyHandled => 3 end.

Definition status_from_u8 (v : Z) : option OrderStatus :=
  if v =? 0 then Some Pending
  else if v =? 1 then Some Addressed
  else if v =? 2 then Some Unaddressed
  else if v =? 3 then Some FinallyHandled
  else None.

Definition is_terminal (s : OrderStatus) : bool :=
  match s with Addressed | FinallyHandled => true | _ => false end.

Definition is_pending (s : OrderStatus) : bool :=
  match s with Pending => true | _ => false end.

(** ** Facts shared by the components *)

Lemma opposite_involutive s : opposite (opposite s) = s.
Proof. by destruct s. Qed.

Lemma opposite_ne s : opposite s <> s.
Proof. by destruct s. Qed.

Lemma status_roundtrip s : status_from_u8 (status_to_u8 s) = Some s.
Proof. by destruct s. Qed.

Lemma status_to_u8_inj s1 s2 : status_to_u8 s1 = status_to_u8 s2 -> s1 = s2.
Proof. by destruct s1, s2. Qed.
