(* ===== verification/SlotMap.v ===== *)
(** * SlotMap: the interface of the slotmap crate the order book uses

    The order book keeps its resting orders in a [slotmap::SlotMap], a
    third-party generational arena.  It is a parameter of the model:
    [SlotMapApi] lists the calls the order book makes, [SlotMapLaws] what the
    crate documents about them, and the book's theorems hold for every
    implementation of the two.  [GmapSlotMap] is a concrete implementation,
    with never-reused keys, on which the model can be run. *)

From S2P Require Import Prelude.
#[local] Open Scope nat_scope.

(** [new_key_type! { struct OrderKey; }] and the calls
    [with_capacity_and_key], [get]/[Index], assignment through [IndexMut],
    [insert], [remove], [keys], [values], [len], [capacity]. *)
Class SlotMapApi := {
  OrderKey : Type;
  OrderKey_eq_dec :: EqDecision OrderKey;
  OrderKey_countable :: Countable OrderKey;
  sm_t : Type -> Type;
  sm_with_capacity {V} : nat -> sm_t V;
  sm_get {V} : sm_t V -> OrderKey -> option V;
  sm_set {V} : sm_t V -> OrderKey -> V -> sm_t V;
  sm_insert {V} : sm_t V -> V -> OrderKey * sm_t V;
  sm_remove {V} : sm_t V -> OrderKey -> option V * sm_t V;
  sm_keys {V} : sm_t V -> list OrderKey;
  sm_values {V} : sm_t V -> list V;
  sm_len {V} : sm_t V -> nat;
  sm_capacity {V} : sm_t V -> nat
}.

Class SlotMapLaws (S : SlotMapApi) : Prop := {
  sm_keys_nodup {V} (m : sm_t V) : NoDup (sm_keys m);
  sm_keys_spec {V} (m : sm_t V) k : k ∈ sm_keys m <-> is_Some (sm_get m k);
  sm_values_spec {V} (m : sm_t V) : sm_values m ≡ₚ omap (sm_get m) (sm_keys m);
  sm_len_spec {V} (m : sm_t V) : sm_len m = length (sm_keys m);
  sm_get_empty {V} n k : sm_get (sm_with_capacity n : sm_t V) k = None;
  sm_get_set {V} (m : sm_t V) k k' v :
    is_Some (sm_get m k) ->
    sm_get (sm_set m k v) k' = if decide (k = k') then Some v else sm_get m k';
  sm_insert_fresh {V} (m : sm_t V) v : sm_get m (sm_insert m v).1 = None;
  sm_get_insert {V} (m : sm_t V) v k' :
    sm_get (sm_insert m v).2 k' =
      if decide ((sm_insert m v).1 = k') then Some v else sm_get m k';
  sm_remove_result {V} (m : sm_t V) k : (sm_remove m k).1 = sm_get m k;
  sm_get_remove {V} (m : sm_t V) k k' :
    sm_get (sm_remove m k).2 k' = if decide (k = k') then None else sm_get m k';
  sm_capacity_with {V} n : n <= sm_capacity (sm_with_capacity n : sm_t V);
  sm_capacity_set {V} (m : sm_t V) k v : sm_capacity (sm_set m k v) = sm_capacity m;
  sm_capacity_remove {V} (m : sm_t V) k : sm_capacity (sm_remove m k).2 = sm_capacity m;
  sm_capacity_insert {V} (m : sm_t V) v :
    sm_len m < sm_capacity m -> sm_capacity (sm_insert m v).2 = sm_capacity m
}.

(** ** The view of an arena as a finite map *)

Section View.
Context `{SM : SlotMapApi}.

Definition sm_view {V} (m : sm_t V) : gmap OrderKey V :=
  list_to_map (omap (fun k => pair k <$> sm_get m k) (sm_keys m)).

Context {SML : SlotMapLaws SM}.

Lemma sm_view_lookup {V} (m : sm_t V) k : sm_view m !! k = sm_get m k.
Proof.
  unfold sm_view.
  set (l := omap (fun k => pair k <$> sm_get m k) (sm_keys m)).
  assert (Hel : forall k v, (k, v) ∈ l <-> sm_get m k = Some v).
  { intros k' v. unfold l. rewrite list_elem_of_omap. split.
    - intros (x & _ & Hx). destruct (sm_get m x) eqn:E; by simplify_eq/=.
    - intros Hg. exists k'. rewrite Hg. split; [|done].
      apply sm_keys_spec. by rewrite Hg. }
  assert (Hnd : NoDup l.*1).
  { subst l. clear Hel. generalize (sm_keys_nodup m). induction (sm_keys m) as [|x xs IH]; intros Hnd.
    - constructor.
    - inversion Hnd as [|?? Hx Hxs]; subst. simpl.
      destruct (sm_get m x); simpl; [|by apply IH].
      constructor; [|by apply IH].
      intros ([k' v'] & -> & Hin)%list_elem_of_fmap.
      apply list_elem_of_omap in Hin as (y & Hy & Hy').
      destruct (sm_get m y); by simplify_eq/=. }
  destruct (sm_get m k) as [v|] eqn:E.
  - apply elem_of_list_to_map_1; [done|]. by apply Hel.
  - apply not_elem_of_list_to_map_1.
    intros ([k' v] & Heq & Hin)%list_elem_of_fmap. simplify_eq/=.
    apply Hel in Hin. congruence.
Qed.

Lemma sm_view_empty {V} n : sm_view (sm_with_capacity n : sm_t V) = ∅.
Proof. apply map_eq; intros k. by rewrite sm_view_lookup, sm_get_empty, lookup_empty. Qed.

Lemma sm_view_set {V} (m : sm_t V) k v :
  is_Some (sm_view m !! k) -> sm_view (sm_set m k v) = <[k:=v]> (sm_view m).
Proof.
  rewrite sm_view_lookup. intros Hk. apply map_eq; intros k'.
  by rewrite sm_view_lookup, sm_get_set, lookup_insert, sm_view_lookup.
Qed.

Lemma sm_view_insert_fresh {V} (m : sm_t V) v :
  sm_view m !! (sm_insert m v).1 = None.
Proof. rewrite sm_view_lookup. apply sm_insert_fresh. Qed.

Lemma sm_view_insert {V} (m : sm_t V) v :
  sm_view (sm_insert m v).2 = <[(sm_insert m v).1:=v]> (sm_view m).
Proof.
  apply map_eq; intros k'.
  by rewrite sm_view_lookup, sm_get_insert, lookup_insert, sm_view_lookup.
Qed.

Lemma sm_view_remove {V} (m : sm_t V) k :
  sm_view (sm_remove m k).2 = delete k (sm_view m).
Proof.
  apply map_eq; intros k'.
  by rewrite sm_view_lookup, sm_get_remove, lookup_delete, sm_view_lookup.
Qed.

(** [len] is the number of live entries. *)
Lemma sm_len_keys {V} (m : sm_t V) (ks : list OrderKey) :
  NoDup ks -> (forall k, k ∈ ks <-> is_Some (sm_view m !! k)) -> sm_len m = length ks.
Proof.
  intros Hnd Hks. rewrite sm_len_spec. apply Permutation_length, NoDup_Permutation;
    [apply sm_keys_nodup|done|].
  intros k. rewrite Hks, sm_keys_spec, sm_view_lookup. done.
Qed.

Lemma sm_elem_of_values {V} (m : sm_t V) v :
  v ∈ sm_values m <-> exists k, sm_view m !! k = Some v.
Proof.
  rewrite sm_values_spec, list_elem_of_omap. setoid_rewrite sm_view_lookup.
  split.
  - intros (k & _ & Hk). by exists k.
  - intros (k & Hk). exists k. split; [|done]. apply sm_keys_spec. by rewrite Hk.
Qed.
End View.

(** ** A concrete arena *)

Module GmapSlotMap.
Record t (V : Type) := mk { entries : gmap positive V; next_key : positive; cap : nat }.
Arguments mk {V} _ _ _.
Arguments entries {V} _.
Arguments next_key {V} _.
Arguments cap {V} _.

Definition above {V} (m : gmap positive V) : positive :=
  map_fold (fun k _ acc => Pos.max (Pos.succ k) acc) 1%positive m.

Definition fresh_key {V} (m : t V) : positive := Pos.max (next_key m) (above (entries m)).

Lemma above_gt {V} (m : gmap positive V) k :
  is_Some (m !! k) -> (k < above m)%positive.
Proof.
  unfold above. revert k.
  apply (map_fold_weak_ind (fun r m => forall k, is_Some (m !! k) -> (k < r)%positive)).
  - intros k [? Hk]. by rewrite lookup_empty in Hk.
  - intros k x m' r Hk IH k' Hk'. rewrite lookup_insert in Hk'. case_decide; subst.
    + lia.
    + apply IH in Hk'. lia.
Qed.

Lemma fresh_key_None {V} (m : t V) : entries m !! fresh_key m = None.
Proof.
  destruct (entries m !! fresh_key m) eqn:E; [|done].
  assert (fresh_key m < above (entries m))%positive by (apply above_gt; by rewrite E).
  unfold fresh_key in *. lia.
Qed.

#[export] Instance api : SlotMapApi := {|
  OrderKey := positive;
  sm_t := t;
  sm_with_capacity V n := mk ∅ 1%positive n;
  sm_get V m k := entries m !! k;
  sm_set V m k v := mk (<[k:=v]> (entries m)) (next_key m) (cap m);
  sm_insert V m v :=
    let k := fresh_key m in
    (k, mk (<[k:=v]> (entries m)) (Pos.succ k) (cap m));
  sm_remove V m k := (entries m !! k, mk (delete k (entries m)) (next_key m) (cap m));
  sm_keys V m := (map_to_list (entries m)).*1;
  sm_values V m := (map_to_list (entries m)).*2;
  sm_len V m := length (map_to_list (entries m));
  sm_capacity V m := cap m
|}.

Lemma values_of_keys {V} (m : gmap positive V) (l : list (positive * V)) :
  (forall k v, (k, v) ∈ l -> m !! k = Some v) -> omap (fun k => m !! k) l.*1 = l.*2.
Proof.
  induction l as [|[k v] l IH]; intros Hl; [done|]. simpl.
  rewrite (Hl k v) by left. f_equal. apply IH. intros; apply Hl; by right.
Qed.

#[export] Instance laws : SlotMapLaws api.
Proof.
  split; simpl; intros.
  - apply NoDup_fst_map_to_list.
  - rewrite list_elem_of_fmap. split.
    + intros ([k' v] & -> & Hin). apply elem_of_map_to_list in Hin. by eexists.
    + intros [v Hv]. exists (k, v). split; [done|]. by apply elem_of_map_to_list.
  - rewrite values_of_keys; [done|]. intros k v. apply elem_of_map_to_list.
  - by rewrite length_fmap.
  - apply lookup_empty.
  - apply lookup_insert.
  - apply fresh_key_None.
  - apply lookup_insert.
  - done.
  - apply lookup_delete.
  - done.
  - done.
  - done.
  - done.
Qed.
End GmapSlotMap.
