(* ===== verification/OrderBook.v ===== *)
(** * OrderBook: crates/order-book

    The array price ladder with its slot-map arena: [RestingOrder]
    (order.rs), [PriceLevel] and its intrusive FIFO list (level.rs), the book
    with its best-price pointers (book.rs) and the state transition [apply]
    (apply.rs).  [&mut self] methods take the book and return the new one; a
    method that can panic returns in [Exec].  The arena is the [SlotMapApi]
    of SlotMap.v; [HashMap<OrderId, OrderKey>] is a [gmap]. *)

From S2P Require Import Prelude CoreTypes SlotMap.
#[local] Open Scope Z_scope.

Section OrderBook.
Context {SM : SlotMapApi}.

(** ** order.rs *)

Record RestingOrder := mkRestingOrder {
  ro_id : Z;
  ro_account : Z;
  ro_qty_remaining : Z;
  ro_side : Side;
  ro_price : Z;
  ro_seq : Z;
  ro_next : option OrderKey;
  ro_prev : option OrderKey
}.

Definition RestingOrder_new (id account qty : Z) (side : Side) (price seq : Z) : RestingOrder :=
  mkRestingOrder id account qty side price seq None None.

Definition ro_set_next (n : option OrderKey) (o : RestingOrder) : RestingOrder :=
  mkRestingOrder (ro_id o) (ro_account o) (ro_qty_remaining o) (ro_side o)
    (ro_price o) (ro_seq o) n (ro_prev o).
Definition ro_set_prev (p : option OrderKey) (o : RestingOrder) : RestingOrder :=
  mkRestingOrder (ro_id o) (ro_account o) (ro_qty_remaining o) (ro_side o)
    (ro_price o) (ro_seq o) (ro_next o) p.
Definition ro_set_qty (q : Z) (o : RestingOrder) : RestingOrder :=
  mkRestingOrder (ro_id o) (ro_account o) q (ro_side o)
    (ro_price o) (ro_seq o) (ro_next o) (ro_prev o).

(** [arena[key]] and [arena[key].field = v]: both panic on a dead key. *)
Definition arena_index (arena : sm_t RestingOrder) (key : OrderKey) : Exec RestingOrder :=
  expect (sm_get arena key).
Definition arena_update (arena : sm_t RestingOrder) (key : OrderKey)
    (f : RestingOrder -> RestingOrder) : Exec (sm_t RestingOrder) :=
  let! o := arena_index arena key in Val (sm_set arena key (f o)).

(** ** level.rs *)

Record PriceLevel := mkPriceLevel {
  pl_price : Z;
  pl_head : option OrderKey;
  pl_tail : option OrderKey;
  pl_total_qty : Z
}.

Definition PriceLevel_new (price : Z) : PriceLevel := mkPriceLevel price None None 0.

Definition push_back (l : PriceLevel) (key : OrderKey) (arena : sm_t RestingOrder) :
    Exec (PriceLevel * sm_t RestingOrder) :=
  let! order := arena_index arena key in
  let qty := ro_qty_remaining order in
  let! '(l, arena) :=
    match pl_tail l with
    | None =>
        Val (mkPriceLevel (pl_price l) (Some key) (Some key) (pl_total_qty l), arena)
    | Some prev_tail =>
        let! arena := arena_update arena prev_tail (ro_set_next (Some key)) in
        let! arena := arena_update arena key (ro_set_prev (Some prev_tail)) in
        Val (mkPriceLevel (pl_price l) (pl_head l) (Some key) (pl_total_qty l), arena)
    end in
  Val (mkPriceLevel (pl_price l) (pl_head l) (pl_tail l) (wrap_u64 (pl_total_qty l + qty)),
       arena).

Definition level_remove (l : PriceLevel) (key : OrderKey) (arena : sm_t RestingOrder) :
    Exec (option RestingOrder * PriceLevel * sm_t RestingOrder) :=
  match sm_get arena key with
  | None => Val (None, l, arena)
  | Some order =>
      let prev := ro_prev order in
      let next := ro_next order in
      let qty := ro_qty_remaining order in
      let! '(l, arena) :=
        match prev with
        | Some p =>
            let! arena := arena_update arena p (ro_set_next next) in
            Val (l, arena)
        | None => Val (mkPriceLevel (pl_price l) next (pl_tail l) (pl_total_qty l), arena)
        end in
      let! '(l, arena) :=
        match next with
        | Some n =>
            let! arena := arena_update arena n (ro_set_prev prev) in
            Val (l, arena)
        | None => Val (mkPriceLevel (pl_price l) (pl_head l) prev (pl_total_qty l), arena)
        end in
      let l := mkPriceLevel (pl_price l) (pl_head l) (pl_tail l)
                 (wrap_u64 (pl_total_qty l - qty)) in
      let '(removed, arena) := sm_remove arena key in
      Val (removed, l, arena)
  end.

Definition peek_head (l : PriceLevel) : option OrderKey := pl_head l.

Definition fill_head (l : PriceLevel) (fill_qty : Z) (arena : sm_t RestingOrder) :
    Exec (bool * PriceLevel * sm_t RestingOrder) :=
  match pl_head l with
  | None => Val (false, l, arena)
  | Some head_key =>
      let! arena := arena_update arena head_key
                (fun o => ro_set_qty (wrap_u64 (ro_qty_remaining o - fill_qty)) o) in
      let l := mkPriceLevel (pl_price l) (pl_head l) (pl_tail l)
                 (wrap_u64 (pl_total_qty l - fill_qty)) in
      let! order := arena_index arena head_key in
      if ro_qty_remaining order =? 0 then
        let next := ro_next order in
        let! arena := match next with
                | Some n => arena_update arena n (ro_set_prev None)
                | None => Val arena
                end in
        let tail := match next with None => None | Some _ => pl_tail l end in
        let l := mkPriceLevel (pl_price l) next tail (pl_total_qty l) in
        let '(_, arena) := sm_remove arena head_key in
        Val (true, l, arena)
      else Val (false, l, arena)
  end.

Definition level_is_empty (l : PriceLevel) : bool :=
  match pl_head l with None => true | Some _ => false end.

(** ** book.rs *)

Record BookConfig := mkBookConfig {
  cfg_symbol : Z;
  cfg_tick_floor : Z;
  cfg_num_ticks : nat;
  cfg_arena_capacity : nat
}.

Record OrderBook := mkOrderBook {
  ob_symbol : Z;
  ob_arena : sm_t RestingOrder;
  ob_bids : list (option PriceLevel);
  ob_asks : list (option PriceLevel);
  ob_best_bid_idx : option nat;
  ob_best_ask_idx : option nat;
  ob_tick_floor : Z;
  ob_id_to_key : gmap Z OrderKey
}.

Definition ob_set_arena (a : sm_t RestingOrder) (b : OrderBook) : OrderBook :=
  mkOrderBook (ob_symbol b) a (ob_bids b) (ob_asks b) (ob_best_bid_idx b)
    (ob_best_ask_idx b) (ob_tick_floor b) (ob_id_to_key b).
Definition ob_set_ids (m : gmap Z OrderKey) (b : OrderBook) : OrderBook :=
  mkOrderBook (ob_symbol b) (ob_arena b) (ob_bids b) (ob_asks b) (ob_best_bid_idx b)
    (ob_best_ask_idx b) (ob_tick_floor b) m.
Definition ob_set_best_bid (i : option nat) (b : OrderBook) : OrderBook :=
  mkOrderBook (ob_symbol b) (ob_arena b) (ob_bids b) (ob_asks b) i
    (ob_best_ask_idx b) (ob_tick_floor b) (ob_id_to_key b).
Definition ob_set_best_ask (i : option nat) (b : OrderBook) : OrderBook :=
  mkOrderBook (ob_symbol b) (ob_arena b) (ob_bids b) (ob_asks b) (ob_best_bid_idx b)
    i (ob_tick_floor b) (ob_id_to_key b).

(** [match side { Side::Buy => &mut self.bids, Side::Sell => &mut self.asks }]. *)
Definition ob_ladder (b : OrderBook) (s : Side) : list (option PriceLevel) :=
  match s with Buy => ob_bids b | Sell => ob_asks b end.
Definition ob_set_ladder (s : Side) (l : list (option PriceLevel)) (b : OrderBook) : OrderBook :=
  match s with
  | Buy => mkOrderBook (ob_symbol b) (ob_arena b) l (ob_asks b) (ob_best_bid_idx b)
             (ob_best_ask_idx b) (ob_tick_floor b) (ob_id_to_key b)
  | Sell => mkOrderBook (ob_symbol b) (ob_arena b) (ob_bids b) l (ob_best_bid_idx b)
              (ob_best_ask_idx b) (ob_tick_floor b) (ob_id_to_key b)
  end.
Definition ob_best (b : OrderBook) (s : Side) : option nat :=
  match s with Buy => ob_best_bid_idx b | Sell => ob_best_ask_idx b end.

(** Write level [l] back at [idx]: the slot borrowed by [&mut ladder[idx]]. *)
Definition ob_put_level (s : Side) (idx : nat) (l : PriceLevel) (b : OrderBook) : OrderBook :=
  ob_set_ladder s (<[idx := Some l]> (ob_ladder b s)) b.

Definition OrderBook_new (cfg : BookConfig) : OrderBook :=
  let arena := sm_with_capacity (cfg_arena_capacity cfg) in
  let '(k, arena) := sm_insert arena
                       (RestingOrder_new 0 0 0 Buy (cfg_tick_floor cfg) 0) in
  let '(_, arena) := sm_remove arena k in
  mkOrderBook (cfg_symbol cfg) arena
    (replicate (cfg_num_ticks cfg) None) (replicate (cfg_num_ticks cfg) None)
    None None (cfg_tick_floor cfg) ∅.

Definition open_order_ids_for_account (b : OrderBook) (account : Z) : list Z :=
  map ro_id (List.filter (fun o => ro_account o =? account) (sm_values (ob_arena b))).

Definition price_to_idx (b : OrderBook) (price : Z) : option nat :=
  match Price.checked_sub price (ob_tick_floor b) with
  | None => None
  | Some offset =>
      if offset <? 0 then None
      else
        if Z.of_nat (length (ob_bids b)) <=? offset then None else Some (Z.to_nat offset)
  end.

Definition idx_to_price (b : OrderBook) (idx : nat) : Z :=
  wrap_i64 (ob_tick_floor b + Z.of_nat idx).

Definition level_mut (b : OrderBook) (side : Side) (idx : nat) : Exec (PriceLevel * OrderBook) :=
  let price := idx_to_price b idx in
  let! slot := index_list (ob_ladder b side) idx in
  let l := match slot with Some l => l | None => PriceLevel_new price end in
  Val (l, ob_put_level side idx l b).

Definition refresh_best_bid_up (b : OrderBook) (hint : nat) : OrderBook :=
  match ob_best_bid_idx b with
  | None => ob_set_best_bid (Some hint) b
  | Some cur => if (cur <? hint)%nat then ob_set_best_bid (Some hint) b else b
  end.

Definition refresh_best_ask_down (b : OrderBook) (hint : nat) : OrderBook :=
  match ob_best_ask_idx b with
  | None => ob_set_best_ask (Some hint) b
  | Some cur => if (hint <? cur)%nat then ob_set_best_ask (Some hint) b else b
  end.

Definition slot_occupied (slot : option PriceLevel) : bool :=
  match slot with Some l => negb (level_is_empty l) | None => false end.

(** [for idx in (0..=start).rev()]. *)
Fixpoint scan_down (ladder : list (option PriceLevel)) (idx : nat) : Exec (option nat) :=
  let! slot := index_list ladder idx in
  if slot_occupied slot then Val (Some idx)
  else match idx with O => Val None | S idx' => scan_down ladder idx' end.

(** [for idx in start..self.asks.len()], [count] indices left to visit. *)
Fixpoint scan_up (ladder : list (option PriceLevel)) (idx count : nat) : Exec (option nat) :=
  match count with
  | O => Val None
  | S count' =>
      let! slot := index_list ladder idx in
      if slot_occupied slot then Val (Some idx) else scan_up ladder (S idx) count'
  end.

Definition scan_best_bid_down (b : OrderBook) : Exec OrderBook :=
  match ob_best_bid_idx b with
  | None => Val b
  | Some start => let! r := scan_down (ob_bids b) start in Val (ob_set_best_bid r b)
  end.

Definition scan_best_ask_up (b : OrderBook) : Exec OrderBook :=
  match ob_best_ask_idx b with
  | None => Val b
  | Some start =>
      let! r := scan_up (ob_asks b) start (length (ob_asks b) - start) in
      Val (ob_set_best_ask r b)
  end.

(** The common shape of [best_bid] and [best_ask]. *)
Definition best_price (best : option nat) (ladder : list (option PriceLevel)) : Exec (option Z) :=
  match best with
  | None => Val None
  | Some i =>
      let! slot := index_list ladder i in
      Val (match slot with
           | Some l => if level_is_empty l then None else Some (pl_price l)
           | None => None
           end)
  end.
Definition best_bid (b : OrderBook) : Exec (option Z) :=
  best_price (ob_best_bid_idx b) (ob_bids b).
Definition best_ask (b : OrderBook) : Exec (option Z) :=
  best_price (ob_best_ask_idx b) (ob_asks b).

Definition qty_at (b : OrderBook) (ladder : list (option PriceLevel)) (price : Z) : Exec Z :=
  match price_to_idx b price with
  | None => Val 0
  | Some i =>
      let! slot := index_list ladder i in
      Val (match slot with Some l => pl_total_qty l | None => 0 end)
  end.
Definition bid_qty_at (b : OrderBook) (price : Z) : Exec Z := qty_at b (ob_bids b) price.
Definition ask_qty_at (b : OrderBook) (price : Z) : Exec Z := qty_at b (ob_asks b) price.

Definition open_order_count (b : OrderBook) : nat := sm_len (ob_arena b).

Definition get_order (b : OrderBook) (id : Z) : option RestingOrder :=
  match ob_id_to_key b !! id with
  | None => None
  | Some k => sm_get (ob_arena b) k
  end.

(** ** apply.rs: internal helpers *)

Definition book_top_event (b : OrderBook) (seq symbol : Z) : Exec EngineEvent :=
  let! bid := best_bid b in
  let! ask := best_ask b in
  Val (BookTop seq symbol bid ask).

Definition get_level (b : OrderBook) (side : Side) (idx : nat) : Exec (option PriceLevel) :=
  index_list (ob_ladder b side) idx.

Definition fill_level_head (b : OrderBook) (side : Side) (idx : nat) (fill_qty : Z) :
    Exec (bool * OrderBook) :=
  let! slot := get_level b side idx in
  match slot with
  | Some l =>
      let! '(full, l, arena) := fill_head l fill_qty (ob_arena b) in
      Val (full, ob_put_level side idx l (ob_set_arena arena b))
  | None => Val (false, b)
  end.

Definition cancel_resting_head (b : OrderBook) (side : Side) (idx : nat) :
    Exec (option Z * OrderBook) :=
  let! slot := get_level b side idx in
  match slot with
  | None => Val (None, b)
  | Some l =>
      match peek_head l with
      | None => Val (None, b)
      | Some head_key =>
          let! '(removed, l, arena) := level_remove l head_key (ob_arena b) in
          Val (option_map ro_id removed, ob_put_level side idx l (ob_set_arena arena b))
      end
  end.

Definition is_level_empty (b : OrderBook) (side : Side) (idx : nat) : Exec bool :=
  let! slot := get_level b side idx in
  Val (match slot with Some l => level_is_empty l | None => true end).

Definition clear_empty_best (b : OrderBook) (side : Side) (idx : nat) : Exec OrderBook :=
  match side with
  | Buy => if decide (ob_best_bid_idx b = Some idx) then scan_best_bid_down b else Val b
  | Sell => if decide (ob_best_ask_idx b = Some idx) then scan_best_ask_up b else Val b
  end.

Definition remove_id (id : Z) (b : OrderBook) : OrderBook :=
  ob_set_ids (delete id (ob_id_to_key b)) b.

(** ** apply.rs: the matching loop *)

(** [order_type == Market || aggressor_price >= / <= level price]. *)
Definition crosses (side : Side) (order_type : OrderType) (price level_price : Z) : bool :=
  bool_decide (order_type = Market)
  || match side with Buy => level_price <=? price | Sell => price <=? level_price end.

Section Matching.
Context (seq ts_ns symbol : Z) (aggressor_side : Side) (aggressor_price : Z)
  (aggressor_order_id aggressor_account : Z) (order_type : OrderType).

(** One iteration of the [loop]; the state is the book, the aggressor's
    remaining quantity and the events pushed so far. *)
Definition match_body (st : OrderBook * Z * list EngineEvent) :
    Exec (LoopCtl (OrderBook * Z * list EngineEvent)) :=
  let '(b, qty_remaining, events) := st in
  if qty_remaining =? 0 then Val (Break st)
  else
    let maker_side := opposite aggressor_side in
    match ob_best b maker_side with
    | None => Val (Break st)
    | Some best_idx =>
        if negb (crosses aggressor_side order_type aggressor_price (idx_to_price b best_idx))
        then Val (Break st)
        else
          let! slot := get_level b maker_side best_idx in
          match slot with
          | None => Val (Break st)
          | Some level =>
              match peek_head level with
              | None =>
                  let! b := clear_empty_best b maker_side best_idx in
                  Val (Continue (b, qty_remaining, events))
              | Some maker_key =>
                  let! maker := arena_index (ob_arena b) maker_key in
                  let maker_order_id := ro_id maker in
                  let maker_account := ro_account maker in
                  let maker_price := ro_price maker in
                  if maker_account =? aggressor_account then
                    let! '(cancelled, b) := cancel_resting_head b maker_side best_idx in
                    let '(b, events) :=
                      match cancelled with
                      | Some cancelled_id =>
                          (remove_id cancelled_id b, events ++ [Cancelled seq cancelled_id])
                      | None => (b, events)
                      end in
                    let! empty := is_level_empty b maker_side best_idx in
                    let! b := (if empty : bool then clear_empty_best b maker_side best_idx else Val b) in
                    Val (Continue (b, qty_remaining, events))
                  else
                    let maker_qty := ro_qty_remaining maker in
                    let fill_qty :=
                      if qty_remaining <? maker_qty then qty_remaining else maker_qty in
                    let! '(maker_fully_filled, b) := fill_level_head b maker_side best_idx fill_qty in
                    let qty_remaining := wrap_u64 (qty_remaining - fill_qty) in
                    let maker_remaining := wrap_u64 (maker_qty - fill_qty) in
                    let events := events ++
                      [Trade seq ts_ns symbol maker_price fill_qty maker_order_id
                         aggressor_order_id maker_order_id aggressor_order_id
                         maker_account aggressor_account maker_side
                         maker_remaining qty_remaining] in
                    let! b := (if maker_fully_filled : bool then
                           let b := remove_id maker_order_id b in
                           let! empty := is_level_empty b maker_side best_idx in
                           if empty : bool then clear_empty_best b maker_side best_idx
                           else Val b
                         else Val b) in
                    Val (Continue (b, qty_remaining, events))
              end
          end
    end.

(** The loop consumes a resting order in every iteration but the last two. *)
Definition match_fuel (b : OrderBook) : nat := S (S (sm_len (ob_arena b))).

Definition match_against_book (b : OrderBook) (qty_remaining : Z) (events : list EngineEvent) :
    Exec (OrderBook * Z * list EngineEvent) :=
  loop_fuel (match_fuel b) match_body (b, qty_remaining, events).
End Matching.

(** ** apply.rs: the FOK probe *)

(** [while let Some(key) = cursor]: the walk of one level's queue. *)
Fixpoint fill_walk (fuel : nat) (arena : sm_t RestingOrder) (account : Z)
    (cursor : option OrderKey) (remaining : Z) : Exec Z :=
  match cursor with
  | None => Val remaining
  | Some key =>
      match fuel with
      | O => OutOfFuel
      | S fuel' =>
          let! order := arena_index arena key in
          if negb (ro_account order =? account) then
            let remaining := saturating_sub_u64 remaining (ro_qty_remaining order) in
            if remaining =? 0 then Val remaining
            else fill_walk fuel' arena account (ro_next order) remaining
          else fill_walk fuel' arena account (ro_next order) remaining
      end
  end.

(** [for step in 0..n] over the indices in scan order. *)
Fixpoint fill_scan (b : OrderBook) (side : Side) (price account : Z) (order_type : OrderType)
    (idxs : list nat) (remaining : Z) : Exec Z :=
  match idxs with
  | [] => Val remaining
  | idx :: idxs' =>
      if remaining =? 0 then Val remaining
      else if negb (crosses side order_type price (idx_to_price b idx)) then Val remaining
      else
        let! slot := index_list (ob_ladder b (opposite side)) idx in
        match slot with
        | None => fill_scan b side price account order_type idxs' remaining
        | Some level =>
            let! remaining := fill_walk (S (sm_len (ob_arena b))) (ob_arena b) account
                          (peek_head level) remaining in
            fill_scan b side price account order_type idxs' remaining
        end
  end.

(** Asks are scanned from index 0 up, bids from [n - 1] down. *)
Definition scan_order (ladder_side : Side) (n : nat) : list nat :=
  match ladder_side with Sell => seq 0 n | Buy => reverse (seq 0 n) end.

Definition can_fully_fill (b : OrderBook) (side : Side) (price qty account : Z)
    (order_type : OrderType) : Exec bool :=
  let n := length (ob_ladder b (opposite side)) in
  let! remaining := fill_scan b side price account order_type (scan_order (opposite side) n) qty in
  Val (remaining =? 0).

(** ** apply.rs: the commands *)

Definition apply_new_order (b : OrderBook) (seq ts_ns account client_order_id symbol : Z)
    (side : Side) (price qty : Z) (order_type : OrderType) (time_in_force : TimeInForce) :
    Exec (OrderBook * list EngineEvent) :=
  let order_id := seq in
  let reject reason := Rejected seq order_id account client_order_id reason in
  if qty <=? 0 then Val (b, [reject RR_InvalidQty])
  else
    match (if bool_decide (order_type = Limit) then price_to_idx b price else Some 0%nat) with
    | None => Val (b, [reject RR_PriceOutOfRange])
    | Some price_idx =>
        let! fok_ok := (if bool_decide (time_in_force = Fok)
                  then can_fully_fill b side price qty account order_type
                  else Val true) in
        if negb fok_ok then Val (b, [reject RR_FokNotFullyFillable])
        else
          let! '(b, qty_remaining, events) :=
            match_against_book seq ts_ns symbol side price order_id account order_type b qty [] in
          if qty_remaining =? 0 then
            let! top := book_top_event b seq symbol in
            Val (b, events ++ [top])
          else if bool_decide (time_in_force = Ioc) || bool_decide (time_in_force = Fok)
                  || bool_decide (order_type = Market) then
            let events := if qty_remaining <? qty then events
                          else events ++ [reject RR_IocNoMatch] in
            let events := if qty_remaining <? qty then events ++ [Cancelled seq order_id]
                          else events in
            let! top := book_top_event b seq symbol in
            Val (b, events ++ [top])
          else if (sm_capacity (ob_arena b) <=? sm_len (ob_arena b))%nat then
            Val (b, events ++ [reject RR_ArenaFull])
          else
            let resting := RestingOrder_new order_id account qty_remaining side price seq in
            let '(key, arena) := sm_insert (ob_arena b) resting in
            let b := ob_set_ids (<[order_id := key]> (ob_id_to_key b)) (ob_set_arena arena b) in
            let! slot := get_level b side price_idx in
            let pl := match slot with Some l => l | None => PriceLevel_new price end in
            let! '(pl, arena) := push_back pl key (ob_arena b) in
            let b := ob_put_level side price_idx pl (ob_set_arena arena b) in
            let b := match side with
                     | Buy => refresh_best_bid_up b price_idx
                     | Sell => refresh_best_ask_down b price_idx
                     end in
            let! top := book_top_event b seq symbol in
            Val (b, events ++
                   [Accepted seq order_id ts_ns symbol account client_order_id side price
                      qty_remaining; top])
    end.

Definition apply_cancel (b : OrderBook) (seq account order_id : Z) :
    Exec (OrderBook * list EngineEvent) :=
  match ob_id_to_key b !! order_id with
  | None => Val (b, [Rejected seq order_id account 0 RR_OrderNotFound])
  | Some key =>
      let b := remove_id order_id b in
      let! order := arena_index (ob_arena b) key in
      if negb (ro_account order =? account) then
        Val (ob_set_ids (<[order_id := key]> (ob_id_to_key b)) b,
             [Rejected seq order_id account 0 RR_WrongAccount])
      else
        match price_to_idx b (ro_price order) with
        | None => Val (b, [])
        | Some price_idx =>
            let! slot := get_level b (ro_side order) price_idx in
            let! b := match slot with
                | None => Val b
                | Some level =>
                    let! '(_, level, arena) := level_remove level key (ob_arena b) in
                    let b := ob_put_level (ro_side order) price_idx level
                               (ob_set_arena arena b) in
                    if level_is_empty level then clear_empty_best b (ro_side order) price_idx
                    else Val b
                end in
            Val (b, [Cancelled seq order_id])
        end
  end.

Definition apply (b : OrderBook) (cmd : SequencedCommand) : Exec (OrderBook * list EngineEvent) :=
  match sc_cmd cmd with
  | Inbound_NewOrder account client_order_id symbol side price qty order_type time_in_force =>
      apply_new_order b (sc_seq cmd) (sc_ts_ns cmd) account client_order_id symbol side price
        qty order_type time_in_force
  | Inbound_Cancel account order_id => apply_cancel b (sc_seq cmd) account order_id
  | Inbound_Liquidate _ _ | Inbound_FreezeAccount _ => Val (b, [])
  end.

End OrderBook.
