(* ===== verification/BookSpec.v ===== *)
(** * BookSpec: the reference matcher

    What the order book promises, without ladder, arena or pointers: a book
    is two lists of orders in priority order (asks by rising price, bids by
    falling price, equal prices by arrival), matching walks the opposite list
    from its head, and a resting order is inserted behind every order of an
    equal or better price.  BookRefine.v proves that the code of
    crates/order-book computes exactly this; the lemmas here are the market
    properties of the reference, which carry over. *)

From S2P Require Import Prelude CoreTypes SlotMap OrderBook.
#[local] Open Scope Z_scope.

(** ** Abstract state *)

Record aorder := mkAOrder {
  a_id : Z;
  a_account : Z;
  a_qty : Z;
  a_side : Side;
  a_price : Z;
  a_seq : Z
}.

Definition a_set_qty (q : Z) (o : aorder) : aorder :=
  mkAOrder (a_id o) (a_account o) q (a_side o) (a_price o) (a_seq o).

(** The book, with the ladder's price range and the arena's capacity. *)
Record abook := mkABook {
  ab_bids : list aorder;
  ab_asks : list aorder;
  ab_floor : Z;
  ab_ticks : nat;
  ab_capacity : nat
}.

Definition ab_orders (A : abook) (s : Side) : list aorder :=
  match s with Buy => ab_bids A | Sell => ab_asks A end.
Definition ab_set_orders (s : Side) (l : list aorder) (A : abook) : abook :=
  match s with
  | Buy => mkABook l (ab_asks A) (ab_floor A) (ab_ticks A) (ab_capacity A)
  | Sell => mkABook (ab_bids A) l (ab_floor A) (ab_ticks A) (ab_capacity A)
  end.
Definition ab_all (A : abook) : list aorder := ab_bids A ++ ab_asks A.

(** [prio s p1 p2]: on side [s], price [p1] has at least the priority of [p2]. *)
Definition prio (s : Side) (p1 p2 : Z) : bool :=
  match s with Sell => p1 <=? p2 | Buy => p2 <=? p1 end.

(** [before s x y]: order [x] has price-time priority over [y]. *)
Definition before (s : Side) (x y : aorder) : Prop :=
  match s with Sell => a_price x < a_price y | Buy => a_price y < a_price x end
  \/ (a_price x = a_price y /\ a_seq x < a_seq y).

Definition aorder_ok (s : Side) (floor : Z) (n : nat) (o : aorder) : Prop :=
  a_side o = s /\ 0 < a_qty o < two64 /\ floor <= a_price o < floor + Z.of_nat n
  /\ a_id o = a_seq o.

(** The invariant of a market: priority order on each side, no crossed prices. *)
Record abook_ok (A : abook) : Prop := {
  ok_orders s : Forall (aorder_ok s (ab_floor A) (ab_ticks A)) (ab_orders A s);
  ok_sorted s : StronglySorted (before s) (ab_orders A s);
  ok_uncrossed x y : x ∈ ab_bids A -> y ∈ ab_asks A -> a_price x < a_price y;
  ok_ids : NoDup (a_id <$> ab_all A)
}.

(** [seq] is above every sequence number already in the book. *)
Definition seq_fresh (A : abook) (seq : Z) : Prop :=
  Forall (fun o => a_seq o < seq) (ab_all A).

(** ** Reference transition *)

Section SpecMatch.
Context (seq ts_ns symbol : Z) (side : Side) (price oid acct : Z) (ot : OrderType).

Definition spec_trade (m : aorder) (fill mrem trem : Z) : EngineEvent :=
  Trade seq ts_ns symbol (a_price m) fill (a_id m) oid (a_id m) oid (a_account m) acct
    (opposite side) mrem trem.

Fixpoint spec_match (makers : list aorder) (q : Z) : list aorder * Z * list EngineEvent :=
  match makers with
  | [] => ([], q, [])
  | m :: rest =>
      if q =? 0 then (makers, q, [])
      else if negb (crosses side ot price (a_price m)) then (makers, q, [])
      else if a_account m =? acct then
        let '(r, q', ev) := spec_match rest q in (r, q', Cancelled seq (a_id m) :: ev)
      else if q <? a_qty m then
        (a_set_qty (a_qty m - q) m :: rest, 0, [spec_trade m q (a_qty m - q) 0])
      else
        let '(r, q', ev) := spec_match rest (q - a_qty m) in
        (r, q', spec_trade m (a_qty m) 0 (q - a_qty m) :: ev)
  end.

(** The quantity an aggressor can take: every crossing order of another account. *)
Definition eligible (m : aorder) : bool :=
  crosses side ot price (a_price m) && negb (a_account m =? acct).
Definition available (makers : list aorder) : Z :=
  sumZ (map a_qty (List.filter eligible makers)).
End SpecMatch.

Definition spec_top (A : abook) (seq symbol : Z) : EngineEvent :=
  BookTop seq symbol (a_price <$> head (ab_bids A)) (a_price <$> head (ab_asks A)).

Fixpoint spec_insert (s : Side) (o : aorder) (l : list aorder) : list aorder :=
  match l with
  | [] => [o]
  | x :: r => if prio s (a_price x) (a_price o) then x :: spec_insert s o r else o :: l
  end.

Definition in_range (A : abook) (price : Z) : bool :=
  (ab_floor A <=? price) && (price <? ab_floor A + Z.of_nat (ab_ticks A)).

Definition spec_new_order (A : abook) (seq ts_ns account client_order_id symbol : Z)
    (side : Side) (price qty : Z) (ot : OrderType) (tif : TimeInForce) :
    abook * list EngineEvent :=
  let reject reason := Rejected seq seq account client_order_id reason in
  let makers := ab_orders A (opposite side) in
  if qty =? 0 then (A, [reject RR_InvalidQty])
  else if bool_decide (ot = Limit) && negb (in_range A price)
  then (A, [reject RR_PriceOutOfRange])
  else if bool_decide (tif = Fok) && (available side price account ot makers <? qty)
  then (A, [reject RR_FokNotFullyFillable])
  else
    let '(makers', q, ev) := spec_match seq ts_ns symbol side price seq account ot makers qty in
    let A1 := ab_set_orders (opposite side) makers' A in
    if q =? 0 then (A1, ev ++ [spec_top A1 seq symbol])
    else if bool_decide (tif = Ioc) || bool_decide (tif = Fok) || bool_decide (ot = Market) then
      (A1, ev ++ [if q <? qty then Cancelled seq seq else reject RR_IocNoMatch]
             ++ [spec_top A1 seq symbol])
    else if (ab_capacity A <=? length (ab_all A1))%nat then (A1, ev ++ [reject RR_ArenaFull])
    else
      let A2 := ab_set_orders side
                  (spec_insert side (mkAOrder seq account q side price seq) (ab_orders A1 side))
                  A1 in
      (A2, ev ++ [Accepted seq seq ts_ns symbol account client_order_id side price q;
                  spec_top A2 seq symbol]).

Definition spec_cancel (A : abook) (seq account oid : Z) : abook * list EngineEvent :=
  match List.find (fun o => a_id o =? oid) (ab_all A) with
  | None => (A, [Rejected seq oid account 0 RR_OrderNotFound])
  | Some o =>
      if negb (a_account o =? account)
      then (A, [Rejected seq oid account 0 RR_WrongAccount])
      else
        let drop := List.filter (fun o => negb (a_id o =? oid)) in
        (mkABook (drop (ab_bids A)) (drop (ab_asks A)) (ab_floor A) (ab_ticks A)
           (ab_capacity A), [Cancelled seq oid])
  end.

Definition spec_apply (A : abook) (cmd : SequencedCommand) : abook * list EngineEvent :=
  match sc_cmd cmd with
  | Inbound_NewOrder account client_order_id symbol side price qty ot tif =>
      spec_new_order A (sc_seq cmd) (sc_ts_ns cmd) account client_order_id symbol side price
        qty ot tif
  | Inbound_Cancel account oid => spec_cancel A (sc_seq cmd) account oid
  | Inbound_Liquidate _ _ | Inbound_FreezeAccount _ => (A, [])
  end.

(** ** Trades of an event list *)

Definition ev_trade_qty (ev : EngineEvent) : Z :=
  match ev with Trade _ _ _ _ q _ _ _ _ _ _ _ _ _ => q | _ => 0 end.
Definition traded (evs : list EngineEvent) : Z := sumZ (map ev_trade_qty evs).

Lemma traded_app e1 e2 : traded (e1 ++ e2) = traded e1 + traded e2.
Proof. unfold traded. by rewrite map_app, sumZ_app. Qed.

(** ** Properties of the reference matching loop *)

Section SpecMatchFacts.
Context (seq ts_ns symbol : Z) (side : Side) (price oid acct : Z) (ot : OrderType).
#[local] Abbreviation smatch := (spec_match seq ts_ns symbol side price oid acct ot).
#[local] Abbreviation avail := (available side price acct ot).
#[local] Abbreviation crossing := (crosses side ot price).
#[local] Abbreviation strade := (spec_trade seq ts_ns symbol side oid acct).

(** The graph of [spec_match], one rule per way an iteration can go. *)
Inductive match_run : list aorder -> Z -> list aorder -> Z -> list EngineEvent -> Prop :=
| run_nil q : match_run [] q [] q []
| run_done makers : match_run makers 0 makers 0 []
| run_away m rest q :
    crossing (a_price m) = false -> match_run (m :: rest) q (m :: rest) q []
| run_self m rest q r q' ev :
    q <> 0 -> crossing (a_price m) = true -> a_account m = acct ->
    match_run rest q r q' ev ->
    match_run (m :: rest) q r q' (Cancelled seq (a_id m) :: ev)
| run_partial m rest q :
    q <> 0 -> crossing (a_price m) = true -> a_account m <> acct -> q < a_qty m ->
    match_run (m :: rest) q (a_set_qty (a_qty m - q) m :: rest) 0
      [strade m q (a_qty m - q) 0]
| run_full m rest q r q' ev :
    q <> 0 -> crossing (a_price m) = true -> a_account m <> acct -> a_qty m <= q ->
    match_run rest (q - a_qty m) r q' ev ->
    match_run (m :: rest) q r q' (strade m (a_qty m) 0 (q - a_qty m) :: ev).

Lemma spec_match_run makers q r q' ev :
  smatch makers q = (r, q', ev) -> match_run makers q r q' ev.
Proof.
  revert q r q' ev. induction makers as [|m rest IH]; intros q r q' ev; simpl.
  - intros [= <- <- <-]. constructor.
  - destruct (Z.eqb_spec q 0) as [->|Hq]; [intros [= <- <- <-]; constructor|].
    destruct (crossing (a_price m)) eqn:Hc; simpl;
      [|intros [= <- <- <-]; by constructor].
    destruct (Z.eqb_spec (a_account m) acct) as [Ha|Ha].
    { destruct (smatch rest q) as [[r0 q0] ev0] eqn:E. intros [= <- <- <-].
      constructor; auto. }
    destruct (Z.ltb_spec q (a_qty m)) as [Hlt|Hge].
    { intros [= <- <- <-]. by constructor. }
    destruct (smatch rest (q - a_qty m)) as [[r0 q0] ev0] eqn:E. intros [= <- <- <-].
    constructor; auto.
Qed.

(** Every unit the aggressor loses is in a trade. *)
Lemma run_conserves makers q r q' ev :
  match_run makers q r q' ev -> q = traded ev + q'.
Proof. induction 1; unfold traded in *; simpl in *; lia. Qed.

Lemma run_range makers q r q' ev :
  match_run makers q r q' ev -> 0 <= q -> Forall (fun m => 0 < a_qty m) makers -> 0 <= q' <= q.
Proof.
  induction 1; intros Hq Hm; try lia;
    apply Forall_cons in Hm as [? ?]; try (apply IHmatch_run; auto; lia).
  enough (0 <= q' <= q - a_qty m) by lia. apply IHmatch_run; auto; lia.
Qed.

(** On a side in priority order, orders behind a non-crossing one do not cross. *)
Lemma crossing_mono x y :
  before (opposite side) x y -> crossing (a_price y) = true -> crossing (a_price x) = true.
Proof.
  unfold crosses, before. destruct (bool_decide (ot = Market)); simpl; [done|].
  destruct side; simpl; rewrite !Z.leb_le; lia.
Qed.

Lemma available_cons m rest :
  avail (m :: rest) =
    (if eligible side price acct ot m then a_qty m else 0) + avail rest.
Proof. unfold available. simpl. destruct (eligible _ _ _ _ m); simpl; lia. Qed.

Lemma available_none makers :
  Forall (fun m => crossing (a_price m) = false) makers -> avail makers = 0.
Proof.
  induction 1 as [|m rest Hm _ IH]; [done|].
  rewrite available_cons, IH. unfold eligible. by rewrite Hm.
Qed.

Lemma available_nonneg makers :
  Forall (fun m => 0 < a_qty m) makers -> 0 <= avail makers.
Proof.
  induction 1 as [|m rest Hm _ IH]; [done|].
  rewrite available_cons. destruct (eligible _ _ _ _ m); lia.
Qed.

Lemma away_all m rest :
  StronglySorted (before (opposite side)) (m :: rest) -> crossing (a_price m) = false ->
  Forall (fun m => crossing (a_price m) = false) (m :: rest).
Proof.
  intros Hs Hm. inversion Hs as [|?? _ Hall]; subst. constructor; [done|].
  eapply Forall_impl; [exact Hall|]. intros y Hy.
  destruct (crossing (a_price y)) eqn:E; [|done].
  rewrite (crossing_mono _ _ Hy E) in Hm. done.
Qed.

(** The unfilled quantity is what the available quantity could not cover. *)
Lemma run_remaining makers q r q' ev :
  match_run makers q r q' ev -> 0 <= q ->
  Forall (fun m => 0 < a_qty m) makers ->
  StronglySorted (before (opposite side)) makers ->
  q' = Z.max 0 (q - avail makers).
Proof.
  induction 1; intros Hq Hpos Hs.
  - unfold available. simpl. lia.
  - pose proof (available_nonneg _ Hpos). lia.
  - rewrite (available_none (m :: rest)) by (by apply away_all). lia.
  - apply Forall_cons in Hpos as [? ?]. inversion Hs; subst.
    rewrite available_cons, IHmatch_run by (auto; lia). unfold eligible.
    rewrite (proj2 (Z.eqb_eq _ _) H1), andb_false_r. lia.
  - apply Forall_cons in Hpos as [? Hr]. pose proof (available_nonneg _ Hr).
    rewrite available_cons. unfold eligible.
    rewrite H0, (proj2 (Z.eqb_neq _ _) H1). simpl. lia.
  - apply Forall_cons in Hpos as [? ?]. inversion Hs; subst.
    rewrite available_cons, IHmatch_run by (auto; lia). unfold eligible.
    rewrite H0, (proj2 (Z.eqb_neq _ _) H1). simpl. lia.
Qed.

(** When quantity is left over, nothing left on the other side crosses. *)
Lemma run_leftover makers q r q' ev :
  match_run makers q r q' ev -> q' <> 0 ->
  StronglySorted (before (opposite side)) makers ->
  Forall (fun m => crossing (a_price m) = false) r.
Proof.
  induction 1; intros Hq Hs; try done; try (inversion Hs; subst; auto; fail).
  by apply away_all.
Qed.

(** What is left of the makers is the list behind a consumed prefix, its head
    possibly reduced by a partial fill. *)
Lemma run_shape makers q r q' ev :
  match_run makers q r q' ev ->
  exists pre, Forall (fun m => crossing (a_price m) = true) pre /\
    (makers = pre ++ r
     \/ exists m rest d, makers = pre ++ m :: rest /\ r = a_set_qty (a_qty m - d) m :: rest
          /\ d <> 0 /\ d < a_qty m /\ crossing (a_price m) = true /\ a_account m <> acct).
Proof.
  assert (Hcons : forall m pre, crossing (a_price m) = true ->
    Forall (fun m => crossing (a_price m) = true) pre ->
    Forall (fun m => crossing (a_price m) = true) (m :: pre)) by (by constructor).
  induction 1; try (exists []; split; [constructor|by left]; fail).
  - destruct IHmatch_run as (pre & Hp & [->|(m' & rest' & d & -> & -> & ?)]);
      exists (m :: pre); (split; [by auto|]); [by left|right; exists m', rest', d; destruct_and!; by split_and!].
  - exists []. split; [constructor|]. right. exists m, rest, q. naive_solver.
  - destruct IHmatch_run as (pre & Hp & [->|(m' & rest' & d & -> & -> & ?)]);
      exists (m :: pre); (split; [by auto|]); [by left|right; exists m', rest', d; destruct_and!; by split_and!].
Qed.

(** Each event of a run is a trade against, or the cancel of, one maker that
    crosses: trades are at the maker's own price and never within an account;
    cancels are of the aggressor's own account. *)
Definition run_event_ok (makers : list aorder) (ev : EngineEvent) : Prop :=
  exists m, m ∈ makers /\ crossing (a_price m) = true /\
    ((exists fill mrem trem,
        ev = strade m fill mrem trem /\ a_account m <> acct
        /\ 0 < fill /\ 0 <= trem /\ fill + mrem = a_qty m)
     \/ (ev = Cancelled seq (a_id m) /\ a_account m = acct)).

Lemma run_event_ok_mono m rest ev : run_event_ok rest ev -> run_event_ok (m :: rest) ev.
Proof. intros (x & Hx & ?). exists x. split; [by right|done]. Qed.

Lemma run_events makers q r q' ev :
  match_run makers q r q' ev -> 0 <= q -> Forall (fun m => 0 < a_qty m) makers ->
  Forall (run_event_ok makers) ev.
Proof.
  induction 1; intros Hq Hpos; try done; apply Forall_cons in Hpos as [Hm Hr].
  - constructor.
    + exists m. split; [left|]. split; [done|]. by right.
    + eapply Forall_impl; [by apply IHmatch_run|]. apply run_event_ok_mono.
  - constructor; [|done]. exists m. split; [left|]. split; [done|]. left.
    exists q, (a_qty m - q), 0. repeat split; auto; lia.
  - constructor.
    + exists m. split; [left|]. split; [done|]. left.
      exists (a_qty m), 0, (q - a_qty m). repeat split; auto; lia.
    + eapply Forall_impl; [apply IHmatch_run; auto; lia|]. apply run_event_ok_mono.
Qed.
End SpecMatchFacts.

(** ** The market invariant is preserved *)

(** An order without its quantity: what a partial fill leaves unchanged. *)
Definition strip (o : aorder) : aorder := a_set_qty 0 o.

Lemma before_strip s x x' y y' :
  strip x = strip x' -> strip y = strip y' -> before s x y -> before s x' y'.
Proof.
  destruct x, x', y, y'. unfold strip, a_set_qty. intros; simplify_eq/=. done.
Qed.

Lemma strip_Forall2 (l1 l2 : list aorder) :
  strip <$> l1 = strip <$> l2 -> Forall2 (fun x y => strip x = strip y) l1 l2.
Proof. intros Heq. apply Forall2_fmap. rewrite Heq. by apply Forall_Forall2_diag, Forall_true. Qed.

Lemma sorted_strip s l1 l2 :
  strip <$> l1 = strip <$> l2 -> StronglySorted (before s) l1 -> StronglySorted (before s) l2.
Proof.
  intros Heq%strip_Forall2 Hs. induction Heq as [|x y l1 l2 Hxy Hl IH]; [constructor|].
  apply StronglySorted_inv in Hs as [Hs1 Hall]. constructor; [by apply IH|].
  clear IH Hs1. induction Hl; [constructor|].
  apply Forall_cons in Hall as [Hz Hall]. constructor; [|by auto].
  by eapply before_strip.
Qed.

Lemma sorted_suffix s l1 l2 :
  StronglySorted (before s) (l1 ++ l2) -> StronglySorted (before s) l2.
Proof. induction l1; [done|]. inversion 1; auto. Qed.

Lemma strip_elem (l1 l2 : list aorder) x :
  strip <$> l1 = strip <$> l2 -> x ∈ l1 -> exists y, y ∈ l2 /\ strip x = strip y.
Proof.
  intros Heq Hx. assert (Hin : strip x ∈ strip <$> l2).
  { rewrite <- Heq. by apply list_elem_of_fmap_2. }
  apply list_elem_of_fmap in Hin as (y & ? & ?). eauto.
Qed.

Lemma strip_ids (l1 l2 : list aorder) : strip <$> l1 = strip <$> l2 -> a_id <$> l1 = a_id <$> l2.
Proof.
  intros Heq. assert (H : forall l : list aorder, a_id <$> l = a_id <$> (strip <$> l)).
  { intros l. rewrite <- list_fmap_compose. by apply list_fmap_ext. }
  by rewrite (H l1), Heq, <- H.
Qed.

(** The makers left by a run: a suffix, up to the quantity of its head. *)
Lemma run_suffix seq ts_ns symbol side price oid acct ot makers q r q' ev :
  match_run seq ts_ns symbol side price oid acct ot makers q r q' ev -> 0 <= q ->
  exists pre s, makers = pre ++ s /\ strip <$> r = strip <$> s /\
    (Forall (fun o => 0 < a_qty o < two64) makers -> Forall (fun o => 0 < a_qty o < two64) r).
Proof.
  intros Hrun. induction Hrun; intros Hq0.
  1-3: by eexists [], _.
  - destruct IHHrun as (pre & s & -> & Hs & Hp); [done|]. exists (m :: pre), s.
    split_and!; [done..|]. intros Hf. inversion Hf; auto.
  - exists [], (m :: rest). split_and!; [done..|].
    intros Hf. inversion Hf as [|?? Hm Hr]; subst. constructor; [|done]. simpl. lia.
  - destruct IHHrun as (pre & s & -> & Hs & Hp); [lia|]. exists (m :: pre), s.
    split_and!; [done..|]. intros Hf. inversion Hf; auto.
Qed.

(** The structural part of [abook_ok] for one side. *)
Definition side_ok (A : abook) (s : Side) (l : list aorder) : Prop :=
  Forall (aorder_ok s (ab_floor A) (ab_ticks A)) l /\ StronglySorted (before s) l.

Lemma side_ok_strip A s (l r : list aorder) :
  side_ok A s l -> strip <$> r = strip <$> l ->
  Forall (fun o => 0 < a_qty o < two64) r -> side_ok A s r.
Proof.
  intros [Hf Hs] Heq Hq. split; [|by eapply sorted_strip].
  rewrite Forall_forall in *. intros x Hx.
  destruct (strip_elem _ _ _ Heq Hx) as (y & Hy & Hxy). specialize (Hf y Hy).
  specialize (Hq x Hx). destruct x, y. unfold strip, a_set_qty, aorder_ok in *. simplify_eq/=.
  destruct_and!. by split_and!.
Qed.

Lemma side_ok_suffix A s l1 l2 : side_ok A s (l1 ++ l2) -> side_ok A s l2.
Proof. intros [Hf Hs]. split; [by apply Forall_app in Hf as [? ?]|by eapply sorted_suffix]. Qed.

Lemma spec_insert_perm s o l : spec_insert s o l ≡ₚ o :: l.
Proof.
  induction l as [|x l IH]; simpl; [done|].
  destruct (prio _ _ _); [|done]. rewrite IH. apply Permutation_swap.
Qed.

Lemma spec_insert_sorted s o l :
  StronglySorted (before s) l -> Forall (fun x => a_seq x < a_seq o) l ->
  StronglySorted (before s) (spec_insert s o l).
Proof.
  induction 1 as [|x l Hs IH Hall]; intros Hseq; simpl; [by repeat constructor|].
  apply Forall_cons in Hseq as [Hx Hseq].
  destruct (prio s (a_price x) (a_price o)) eqn:Hp.
  - constructor; [by apply IH|]. rewrite spec_insert_perm. constructor; [|done].
    unfold prio, before in *. destruct s; apply Z.leb_le in Hp; lia.
  - constructor; [by constructor|].
    assert (Hox : before s o x).
    { unfold prio, before in *. destruct s; apply Z.leb_gt in Hp; lia. }
    constructor; [done|]. eapply Forall_impl; [exact Hall|].
    intros y Hy. unfold before in *. destruct s; lia.
Qed.

Lemma side_ok_insert A s o l :
  side_ok A s l -> aorder_ok s (ab_floor A) (ab_ticks A) o ->
  Forall (fun x => a_seq x < a_seq o) l -> side_ok A s (spec_insert s o l).
Proof.
  intros [Hf Hs] Ho Hseq. split; [|by apply spec_insert_sorted].
  rewrite spec_insert_perm. by constructor.
Qed.

(** [abook_ok] from its two sides. *)
Lemma abook_ok_sides A :
  side_ok A Buy (ab_bids A) -> side_ok A Sell (ab_asks A) ->
  (forall x y, x ∈ ab_bids A -> y ∈ ab_asks A -> a_price x < a_price y) ->
  NoDup (a_id <$> ab_all A) -> abook_ok A.
Proof. intros [] [] ??. split; [intros []|intros []| |]; done. Qed.

Lemma abook_ok_side A s : abook_ok A -> side_ok A s (ab_orders A s).
Proof. intros []. split; auto. Qed.

(** A command whose integers fit their types. *)
Definition cmd_ok (cmd : SequencedCommand) : Prop :=
  match sc_cmd cmd with
  | Inbound_NewOrder _ _ _ _ price qty _ _ => in_i64 price /\ in_u64 qty
  | _ => True
  end.

Lemma strip_fields x y :
  strip x = strip y ->
  a_id x = a_id y /\ a_price x = a_price y /\ a_seq x = a_seq y /\ a_side x = a_side y
  /\ a_account x = a_account y.
Proof. destruct x, y. unfold strip, a_set_qty. intros; by simplify_eq/=. Qed.

(** Replacing one side by a part of it, up to quantities, keeps the invariant. *)
Lemma abook_ok_shrink A s pre l (r : list aorder) :
  abook_ok A -> ab_orders A s = pre ++ l -> strip <$> r = strip <$> l ->
  Forall (fun o => 0 < a_qty o < two64) r -> abook_ok (ab_set_orders s r A).
Proof.
  intros HA Hl Heq Hq.
  assert (Hr : side_ok A s r).
  { eapply side_ok_strip; [|exact Heq|done].
    eapply side_ok_suffix. rewrite <- Hl. by apply abook_ok_side. }
  assert (Hp : forall x, x ∈ r -> exists y, y ∈ ab_orders A s /\ a_price x = a_price y).
  { intros x Hx. destruct (strip_elem _ _ _ Heq Hx) as (y & Hy & Hxy).
    exists y. rewrite Hl. apply strip_fields in Hxy as (_ & ? & _). set_solver. }
  pose proof (ok_ids A HA) as Hids. pose proof (ok_uncrossed A HA) as Hu.
  pose proof (abook_ok_side A (opposite s) HA) as Ho.
  destruct s; simpl in *; apply abook_ok_sides; simpl; try done.
  - intros x y Hx Hy. destruct (Hp x Hx) as (x' & ? & ->). auto.
  - unfold ab_all in *. simpl. rewrite Hl in Hids.
    rewrite fmap_app in *. rewrite (strip_ids _ _ Heq).
    rewrite fmap_app, <- app_assoc in Hids. by apply NoDup_app in Hids as (_ & _ & ?).
  - intros x y Hx Hy. destruct (Hp y Hy) as (y' & ? & ->). auto.
  - unfold ab_all in *. simpl. rewrite Hl in Hids.
    rewrite fmap_app in *. rewrite (strip_ids _ _ Heq).
    rewrite fmap_app in Hids.
    apply NoDup_app in Hids as (Hb & Hd & Hps%NoDup_app). apply NoDup_app.
    split_and!; [done| |by destruct_and!]. set_solver.
Qed.

Lemma seq_fresh_shrink A s pre l (r : list aorder) seq :
  seq_fresh A seq -> ab_orders A s = pre ++ l -> strip <$> r = strip <$> l ->
  seq_fresh (ab_set_orders s r A) seq.
Proof.
  unfold seq_fresh, ab_all. rewrite !Forall_app. intros Hf Hl Heq.
  assert (Hr : Forall (fun o => a_seq o < seq) r).
  { apply Forall_forall. intros x Hx. destruct (strip_elem _ _ _ Heq Hx) as (y & Hy & Hxy).
    apply strip_fields in Hxy as (_ & _ & -> & _).
    assert (Hall : Forall (fun o => a_seq o < seq) (pre ++ l)).
    { rewrite <- Hl. by destruct s, Hf. }
    apply Forall_app in Hall as [_ Hall]. rewrite Forall_forall in Hall. by apply Hall. }
  destruct s; simpl in *; naive_solver.
Qed.

(** Resting an order that crosses nothing keeps the invariant. *)
Lemma abook_ok_rest A s o :
  abook_ok A -> aorder_ok s (ab_floor A) (ab_ticks A) o -> seq_fresh A (a_seq o) ->
  Forall (fun m => crosses s Limit (a_price o) (a_price m) = false) (ab_orders A (opposite s)) ->
  abook_ok (ab_set_orders s (spec_insert s o (ab_orders A s)) A).
Proof.
  intros HA Ho Hfresh Hx.
  assert (Hside : side_ok A s (spec_insert s o (ab_orders A s))).
  { apply side_ok_insert; [by apply abook_ok_side|done|].
    unfold seq_fresh, ab_all in Hfresh. apply Forall_app in Hfresh as [? ?]. by destruct s. }
  assert (Hid : a_id o ∉ a_id <$> ab_all A).
  { intros (x & Hxo & Hin)%list_elem_of_fmap.
    unfold seq_fresh in Hfresh. rewrite Forall_forall in Hfresh. specialize (Hfresh x Hin).
    destruct Ho as (_ & _ & _ & Hoid).
    assert (a_id x = a_seq x); [|lia].
    unfold ab_all in Hin. apply elem_of_app in Hin as [Hin|Hin];
      [pose proof (ok_orders A HA Buy) as Hf|pose proof (ok_orders A HA Sell) as Hf];
      simpl in Hf; rewrite Forall_forall in Hf; by destruct (Hf x Hin) as (_ & _ & _ & ?). }
  pose proof (ok_ids A HA) as Hids. pose proof (ok_uncrossed A HA) as Hu.
  pose proof (abook_ok_side A (opposite s) HA) as Hop.
  rewrite Forall_forall in Hx. unfold crosses in Hx.
  destruct s; simpl in *; apply abook_ok_sides; simpl; try done.
  - intros x y. rewrite spec_insert_perm. intros [->|?]%elem_of_cons Hy; [|by auto].
    specialize (Hx y Hy). simpl in Hx. lia.
  - unfold ab_all in *; simpl. rewrite spec_insert_perm. simpl. by constructor.
  - intros x y Hxx. rewrite spec_insert_perm. intros [->|?]%elem_of_cons; [|by auto].
    specialize (Hx x Hxx). simpl in Hx. lia.
  - unfold ab_all in *; simpl. rewrite spec_insert_perm, <- Permutation_middle. simpl.
    by constructor.
Qed.

Lemma abook_ok_filter A (P : aorder -> bool) :
  abook_ok A ->
  abook_ok (mkABook (List.filter P (ab_bids A)) (List.filter P (ab_asks A))
              (ab_floor A) (ab_ticks A) (ab_capacity A)).
Proof.
  assert (Hin : forall l x, x ∈ List.filter P l -> x ∈ l).
  { intros l x. rewrite !list_elem_of_In, filter_In. naive_solver. }
  assert (Hs : forall s l, side_ok A s l -> side_ok A s (List.filter P l)).
  { intros s l [Hf Hs]. split.
    - rewrite Forall_forall in *. eauto.
    - induction Hs as [|x l Hs IH Hall]; simpl; [constructor|].
      apply Forall_cons in Hf as [? ?]. destruct (P x); [|by auto]. constructor; [by auto|].
      rewrite Forall_forall in *. eauto. }
  intros HA. apply abook_ok_sides; simpl.
  - apply Hs. by apply (abook_ok_side A Buy).
  - apply Hs. by apply (abook_ok_side A Sell).
  - intros x y Hx%Hin Hy%Hin. by apply (ok_uncrossed A HA).
  - pose proof (ok_ids A HA) as Hids. unfold ab_all in *. simpl.
    rewrite <- List.filter_app. revert Hids. generalize (ab_bids A ++ ab_asks A) as l.
    induction l as [|x l IH]; simpl; [done|]. intros Hnd. inversion Hnd as [|?? Hx Hl]; subst.
    destruct (P x); [|by auto]. simpl. constructor; [|by auto].
    intros (y & ? & Hy%Hin)%list_elem_of_fmap. apply Hx, list_elem_of_fmap. eauto.
Qed.

Lemma ab_floor_set s l A : ab_floor (ab_set_orders s l A) = ab_floor A.
Proof. by destruct s. Qed.
Lemma ab_ticks_set s l A : ab_ticks (ab_set_orders s l A) = ab_ticks A.
Proof. by destruct s. Qed.
Lemma ab_capacity_set s l A : ab_capacity (ab_set_orders s l A) = ab_capacity A.
Proof. by destruct s. Qed.
Lemma ab_orders_set s l A : ab_orders (ab_set_orders s l A) s = l.
Proof. by destruct s. Qed.
Lemma ab_orders_set_opp s l A :
  ab_orders (ab_set_orders (opposite s) l A) s = ab_orders A s.
Proof. by destruct s. Qed.
Create Rewrite HintDb abook.
#[export] Hint Rewrite ab_floor_set ab_ticks_set ab_capacity_set ab_orders_set
  ab_orders_set_opp : abook.

Lemma qty_pos_of_ok A s : abook_ok A -> Forall (fun o => 0 < a_qty o < two64) (ab_orders A s).
Proof.
  intros HA. eapply Forall_impl; [apply (ok_orders A HA s)|]. by intros x (_ & ? & _).
Qed.

Lemma qty_pos_of_ok' A s : abook_ok A -> Forall (fun o => 0 < a_qty o) (ab_orders A s).
Proof. intros HA. eapply Forall_impl; [by apply qty_pos_of_ok|]. simpl. lia. Qed.

Lemma spec_apply_ok A cmd :
  abook_ok A -> seq_fresh A (sc_seq cmd) -> cmd_ok cmd -> abook_ok (spec_apply A cmd).1.
Proof.
  destruct cmd as [term seq ts_ns [account coid symbol side price qty ot tif|account oid| |]];
    unfold cmd_ok, spec_apply; simpl; intros HA Hfresh Hcmd; try done.
  2:{ unfold spec_cancel. destruct (List.find _ _); [|done].
      destruct (negb _); [done|]. simpl. by apply abook_ok_filter. }
  unfold spec_new_order.
  destruct (qty =? 0) eqn:Hq0; [done|].
  destruct (bool_decide (ot = Limit) && negb (in_range A price)) eqn:Hrange; [done|].
  destruct (bool_decide (tif = Fok) && _) eqn:Hfok; [done|].
  destruct (spec_match _ _ _ _ _ _ _ _ _ _) as [[r q] ev] eqn:Hm.
  apply spec_match_run in Hm. destruct Hcmd as [Hprice Hqty].
  assert (0 <= qty) as Hnn by (unfold in_u64 in Hqty; lia).
  destruct (run_suffix _ _ _ _ _ _ _ _ _ _ _ _ _ Hm Hnn) as (pre & s & Hl & Heq & Hpos).
  specialize (Hpos (qty_pos_of_ok A _ HA)).
  assert (HA1 : abook_ok (ab_set_orders (opposite side) r A)) by by eapply abook_ok_shrink.
  destruct (q =? 0) eqn:Hq'; [done|].
  destruct (bool_decide (tif = Ioc) || _ || _) eqn:Htif; [done|].
  destruct (_ <=? _)%nat; [done|]. simpl.
  assert (ot = Limit) as -> by (destruct ot; [done|]; by rewrite orb_true_r in Htif).
  apply abook_ok_rest; [done| | |].
  - simpl. autorewrite with abook. apply negb_false_iff, andb_true_iff in Hrange as [??].
    pose proof (run_range _ _ _ _ _ _ _ _ _ _ _ _ _ Hm Hnn (qty_pos_of_ok' A _ HA)).
    unfold in_u64 in *. repeat split; simpl; lia.
  - simpl. by eapply seq_fresh_shrink.
  - rewrite ab_orders_set. simpl.
    eapply run_leftover; [exact Hm|lia|apply (ok_sorted A HA)].
Qed.
