(* ===== verification/BookMarket.v ===== *)
(** * BookMarket: conservation, priority and time-in-force in the reference

    Market-level consequences of the reference matcher of BookSpec.v: the
    ways a new order can end, the quantity balance of the book, and that no
    order trades past one with priority over it. *)

From S2P Require Import Prelude CoreTypes SlotMap OrderBook BookSpec.
#[local] Open Scope Z_scope.

(** ** Quantities carried by events *)

Definition ev_rested_qty (ev : EngineEvent) : Z :=
  match ev with Accepted _ _ _ _ _ _ _ _ q => q | _ => 0 end.
Definition rested (evs : list EngineEvent) : Z := sumZ (map ev_rested_qty evs).

(** The quantity a cancel takes out of a book whose orders [look] finds. *)
Definition ev_cancel_qty (look : Z -> option aorder) (ev : EngineEvent) : Z :=
  match ev with
  | Cancelled _ id => match look id with Some a => a_qty a | None => 0 end
  | _ => 0
  end.
Definition cancelled (look : Z -> option aorder) (evs : list EngineEvent) : Z :=
  sumZ (map (ev_cancel_qty look) evs).

Definition ev_maker (ev : EngineEvent) : option Z :=
  match ev with Trade _ _ _ _ _ _ _ maker_order_id _ _ _ _ _ _ => Some maker_order_id | _ => None end.

Definition total (l : list aorder) : Z := sumZ (map a_qty l).

Lemma rested_app e1 e2 : rested (e1 ++ e2) = rested e1 + rested e2.
Proof. unfold rested. by rewrite map_app, sumZ_app. Qed.
Lemma cancelled_app look e1 e2 :
  cancelled look (e1 ++ e2) = cancelled look e1 + cancelled look e2.
Proof. unfold cancelled. by rewrite map_app, sumZ_app. Qed.
Lemma total_app l1 l2 : total (l1 ++ l2) = total l1 + total l2.
Proof. unfold total. by rewrite map_app, sumZ_app. Qed.
Lemma total_perm l1 l2 : l1 ≡ₚ l2 -> total l1 = total l2.
Proof. unfold total. induction 1; simpl; lia. Qed.
Lemma total_set A s l :
  total (ab_all (ab_set_orders s l A)) = total (ab_all A) - total (ab_orders A s) + total l.
Proof. unfold ab_all. destruct s; simpl; rewrite !total_app; lia. Qed.

(** ** The ways a new order can end *)

Section NewOrder.
Context (A : abook) (seq ts_ns account coid symbol : Z) (side : Side) (price qty : Z)
  (ot : OrderType) (tif : TimeInForce).
#[local] Abbreviation run :=
  (match_run seq ts_ns symbol side price seq account ot (ab_orders A (opposite side)) qty).
#[local] Abbreviation reject := (fun reason => Rejected seq seq account coid reason).
#[local] Abbreviation after r := (ab_set_orders (opposite side) r A).

Inductive new_order_out : abook -> list EngineEvent -> Prop :=
| out_refused reason :
    qty = 0 /\ reason = RR_InvalidQty
    \/ qty <> 0 /\ ot = Limit /\ in_range A price = false /\ reason = RR_PriceOutOfRange
    \/ qty <> 0 /\ tif = Fok /\ available side price account ot (ab_orders A (opposite side)) < qty
       /\ reason = RR_FokNotFullyFillable ->
    new_order_out A [reject reason]
| out_filled r ev :
    qty <> 0 -> run r 0 ev -> new_order_out (after r) (ev ++ [spec_top (after r) seq symbol])
| out_dropped r q ev last :
    qty <> 0 -> run r q ev -> q <> 0 -> tif = Ioc \/ tif = Fok \/ ot = Market ->
    (tif = Fok -> qty <= available side price account ot (ab_orders A (opposite side))) ->
    last = (if q <? qty then Cancelled seq seq else reject RR_IocNoMatch) ->
    new_order_out (after r) (ev ++ [last] ++ [spec_top (after r) seq symbol])
| out_full r q ev :
    qty <> 0 -> run r q ev -> q <> 0 -> tif = Gtc -> ot = Limit ->
    (ab_capacity A <= length (ab_all (after r)))%nat ->
    new_order_out (after r) (ev ++ [reject RR_ArenaFull])
| out_rested r q ev A2 :
    qty <> 0 -> run r q ev -> q <> 0 -> tif = Gtc -> ot = Limit -> in_range A price = true ->
    A2 = ab_set_orders side
           (spec_insert side (mkAOrder seq account q side price seq) (ab_orders (after r) side))
           (after r) ->
    new_order_out A2 (ev ++ [Accepted seq seq ts_ns symbol account coid side price q;
                             spec_top A2 seq symbol]).

Lemma spec_new_order_out A' evs :
  spec_new_order A seq ts_ns account coid symbol side price qty ot tif = (A', evs) ->
  new_order_out A' evs.
Proof.
  unfold spec_new_order.
  destruct (Z.eqb_spec qty 0) as [->|Hq]; [intros [= <- <-]; apply out_refused; by left|].
  destruct (bool_decide (ot = Limit) && negb (in_range A price)) eqn:Hr.
  { intros [= <- <-]. apply out_refused. right; left.
    apply andb_true_iff in Hr as [Hl%bool_decide_eq_true ?%negb_true_iff]. done. }
  destruct (bool_decide (tif = Fok) && _) eqn:Hf.
  { intros [= <- <-]. apply out_refused. right; right.
    apply andb_true_iff in Hf as [?%bool_decide_eq_true ?%Z.ltb_lt]. done. }
  destruct (spec_match _ _ _ _ _ _ _ _ _ _) as [[r q] ev] eqn:Hm. apply spec_match_run in Hm.
  destruct (Z.eqb_spec q 0) as [->|Hq0]; [intros [= <- <-]; by apply out_filled|].
  destruct (bool_decide (tif = Ioc) || _ || _) eqn:Htif.
  { intros [= <- <-]. eapply out_dropped; eauto.
    - rewrite !orb_true_iff, !bool_decide_eq_true in Htif. tauto.
    - intros ->. simpl in Hf. lia. }
  rewrite !orb_false_iff, !bool_decide_eq_false in Htif. destruct Htif as [[? ?] ?].
  assert (tif = Gtc) as Htg by by destruct tif. assert (ot = Limit) as Hl by by destruct ot.
  destruct (Nat.leb_spec (ab_capacity A) (length (ab_all (after r)))).
  - intros [= <- <-]. by eapply out_full.
  - intros [= <- <-]. eapply out_rested; eauto. rewrite Hl in Hr. simpl in Hr.
    by apply negb_false_iff in Hr.
Qed.
End NewOrder.

(** ** Facts of a run used below *)

Section RunFacts.
Context (seq ts_ns symbol : Z) (side : Side) (price oid acct : Z) (ot : OrderType).
#[local] Abbreviation run := (match_run seq ts_ns symbol side price oid acct ot).

Lemma run_total look makers q r q' ev :
  run makers q r q' ev -> (forall m, m ∈ makers -> look (a_id m) = Some m) ->
  total makers = total r + traded ev + cancelled look ev.
Proof.
  induction 1; intros Hlook; unfold total, traded, cancelled in *; simpl in *; try lia.
  - rewrite (Hlook m) by left. specialize (IHmatch_run ltac:(set_solver)). lia.
  - specialize (IHmatch_run ltac:(set_solver)). lia.
Qed.

Lemma run_rested makers q r q' ev : run makers q r q' ev -> rested ev = 0.
Proof. induction 1; unfold rested in *; simpl; lia. Qed.

Lemma run_event_bounds makers q r q' ev :
  run makers q r q' ev -> 0 <= q -> Forall (fun m => 0 < a_qty m) makers ->
  Forall (fun e => match e with
                   | Trade _ _ _ _ _ _ _ _ _ _ _ _ mrem _ => 0 <= mrem
                   | _ => True
                   end) ev.
Proof.
  induction 1; intros Hq Hpos; try done; apply Forall_cons in Hpos as [? ?];
    constructor; simpl; auto; try lia. apply IHmatch_run; [lia|done].
Qed.

(** A trade reports what the aggressor has left after it and all trades before it. *)
Lemma run_taker_rem makers q r q' ev :
  run makers q r q' ev ->
  forall pre post s1 t1 y1 px fill mo tor mid tid macct tacct mside mrem trem,
  ev = pre ++ Trade s1 t1 y1 px fill mo tor mid tid macct tacct mside mrem trem :: post ->
  trem = q - traded pre - fill.
Proof.
  induction 1 as [q|makers|m rest q Hc|m rest q r q' ev Hq Hc Ha _ IH|m rest q Hq Hc Ha Hlt
      |m rest q r q' ev Hq Hc Ha Hle _ IH];
    intros [|e pre] post s1 t1 y1 px fill mo tor mid tid macct tacct mside mrem trem Heq;
    unfold spec_trade in *; simplify_eq/=; unfold traded in *; simpl.
  - rewrite (IH _ _ _ _ _ _ _ _ _ _ _ _ _ _ _ _ eq_refl). lia.
  - injection H as. lia.
  - by destruct pre.
  - injection H as. lia.
  - rewrite (IH _ _ _ _ _ _ _ _ _ _ _ _ _ _ _ _ eq_refl). lia.
Qed.

(** An order is consumed by the events: filled for all it had, or cancelled. *)
Definition consumed (o : aorder) (evs : list EngineEvent) : Prop :=
  if decide (a_account o = acct) then Cancelled seq (a_id o) ∈ evs
  else exists ev, ev ∈ evs /\ ev_maker ev = Some (a_id o) /\ ev_trade_qty ev = a_qty o.

Lemma consumed_mono o ev evs : consumed o evs -> consumed o (ev :: evs).
Proof.
  unfold consumed. case_decide; [by right|]. intros (e & ? & ? & ?). exists e.
  split_and!; [by right|done|done].
Qed.

Lemma run_maker_in makers q r q' ev e id :
  run makers q r q' ev -> e ∈ ev -> ev_maker e = Some id -> exists m, m ∈ makers /\ a_id m = id.
Proof.
  induction 1; intros He Hid; try (by apply elem_of_nil in He);
    apply elem_of_cons in He as [->|He]; simpl in *; simplify_eq.
  - destruct (IHmatch_run He Hid) as (x & ? & ?). exists x. split; [by right|done].
  - exists m. split; [left|done].
  - by apply elem_of_nil in He.
  - exists m. split; [left|done].
  - destruct (IHmatch_run He Hid) as (x & ? & ?). exists x. split; [by right|done].
Qed.

Lemma before_irrefl_trans s x y : before s x y -> ~ before s y x.
Proof. unfold before. destruct s; lia. Qed.

(** No maker trades while an order with priority over it is left. *)
Lemma run_priority makers q r q' ev m o e :
  run makers q r q' ev -> StronglySorted (before (opposite side)) makers ->
  NoDup (a_id <$> makers) ->
  e ∈ ev -> ev_maker e = Some (a_id m) -> m ∈ makers -> o ∈ makers ->
  before (opposite side) o m -> consumed o ev.
Proof.
  assert (Hhead : forall x rest, StronglySorted (before (opposite side)) (x :: rest) ->
    o ∈ x :: rest -> before (opposite side) o x -> False).
  { intros x rest Hs Ho Hb. inversion Hs as [|?? _ Hall]; subst. rewrite Forall_forall in Hall.
    apply elem_of_cons in Ho as [->|Ho]; [by eapply before_irrefl_trans|].
    by eapply before_irrefl_trans; [apply Hb|apply Hall]. }
  induction 1 as [| | |x rest q r q' ev Hq Hc Ha Hrun IH|x rest q Hq Hc Ha Hlt
      |x rest q r q' ev Hq Hc Ha Hle Hrun IH];
    intros Hs Hnd He Hid Hm Ho Hb; try (by apply elem_of_nil in He).
  - apply elem_of_cons in He as [->|He]; [done|]. inversion Hs; subst.
    apply NoDup_cons in Hnd as [Hx Hnd].
    destruct (run_maker_in _ _ _ _ _ _ _ Hrun He Hid) as (m' & Hm' & Heq).
    apply elem_of_cons in Hm as [->|Hm].
    { exfalso. apply Hx. rewrite <- Heq. by apply list_elem_of_fmap_2. }
    apply elem_of_cons in Ho as [->|Ho].
    + unfold consumed. rewrite decide_True by done. left.
    + apply consumed_mono. by apply IH.
  - apply list_elem_of_singleton in He as ->. simpl in Hid. apply NoDup_cons in Hnd as [Hx Hnd].
    apply elem_of_cons in Hm as [->|Hm]; [by eapply Hhead in Hs|].
    exfalso. apply Hx. injection Hid as ->. by apply list_elem_of_fmap_2.
  - apply NoDup_cons in Hnd as [Hx Hnd]. apply elem_of_cons in He as [->|He].
    { simpl in Hid. apply elem_of_cons in Hm as [->|Hm]; [by eapply Hhead in Hs|].
      exfalso. apply Hx. injection Hid as ->. by apply list_elem_of_fmap_2. }
    destruct (run_maker_in _ _ _ _ _ _ _ Hrun He Hid) as (m' & Hm' & Heq).
    inversion Hs; subst. apply elem_of_cons in Hm as [->|Hm].
    { exfalso. apply Hx. rewrite <- Heq. by apply list_elem_of_fmap_2. }
    apply elem_of_cons in Ho as [->|Ho].
    + unfold consumed. rewrite decide_False by done. eexists. split; [left|]. done.
    + apply consumed_mono. by apply IH.
Qed.
End RunFacts.

(** ** The balance of a new order *)

Lemma new_order_balance A seq ts_ns account coid symbol side price qty ot tif A' evs look :
  new_order_out A seq ts_ns account coid symbol side price qty ot tif A' evs ->
  (forall m, m ∈ ab_all A -> look (a_id m) = Some m) -> look seq = None ->
  total (ab_all A') = total (ab_all A) - traded evs - cancelled look evs + rested evs.
Proof.
  intros Hout Hlook Hseq.
  assert (Hl : forall m, m ∈ ab_orders A (opposite side) -> look (a_id m) = Some m).
  { intros m Hm. apply Hlook. unfold ab_all. destruct side; set_solver. }
  destruct Hout as [reason _|r ev _ Hrun|r q ev last _ Hrun _ _ _ ->|r q ev _ Hrun _ _ _ _
    |r q ev A2 _ Hrun _ _ _ _ ->];
    [unfold traded, cancelled, rested; simpl; lia|..];
    pose proof (run_total _ _ _ _ _ _ _ _ look _ _ _ _ _ Hrun Hl) as Ht;
    pose proof (run_rested _ _ _ _ _ _ _ _ _ _ _ _ _ Hrun) as Hr;
    rewrite ?traded_app, ?cancelled_app, ?rested_app, ?total_set; rewrite Hr.
  - unfold traded, cancelled, rested in *; simpl; lia.
  - destruct (q <? qty); unfold traded, cancelled, rested in *; simpl; rewrite ?Hseq; lia.
  - unfold traded, cancelled, rested in *; simpl; lia.
  - rewrite (total_perm (spec_insert _ _ _) _ (spec_insert_perm _ _ _)), ab_orders_set_opp.
    unfold traded, cancelled, rested, total in *; simpl; lia.
Qed.

(** The aggressor's quantity: traded, rested, or dropped. *)
Lemma new_order_split A seq ts_ns account coid symbol side price qty ot tif A' evs :
  new_order_out A seq ts_ns account coid symbol side price qty ot tif A' evs ->
  abook_ok A -> 0 <= qty ->
  0 <= traded evs + rested evs <= qty
  /\ ((exists id, Accepted seq id ts_ns symbol account coid side price (rested evs) ∈ evs) ->
      traded evs + rested evs = qty).
Proof.
  intros Hout HA Hq. pose proof (qty_pos_of_ok' A (opposite side) HA) as Hpos.
  destruct Hout as [reason _|r ev _ Hrun|r q ev last _ Hrun Hq0 _ _ ->|r q ev _ Hrun Hq0 _ _ _
    |r q ev A2 _ Hrun Hq0 _ _ _ ->].
  1:{ unfold traded, rested; simpl. split; [lia|]. intros (id & Hin). set_solver. }
  all: pose proof (run_conserves _ _ _ _ _ _ _ _ _ _ _ _ _ Hrun) as Hc;
    pose proof (run_rested _ _ _ _ _ _ _ _ _ _ _ _ _ Hrun) as Hr;
    pose proof (run_range _ _ _ _ _ _ _ _ _ _ _ _ _ Hrun Hq Hpos) as Hrg;
    rewrite ?traded_app, ?rested_app, Hr.
  - unfold traded, rested in *; simpl. split; [lia|]. lia.
  - assert (Hx : traded [if q <? qty then Cancelled seq seq else Rejected seq seq account coid RR_IocNoMatch] = 0
      /\ rested [if q <? qty then Cancelled seq seq else Rejected seq seq account coid RR_IocNoMatch] = 0)
      by by destruct (q <? qty).
    destruct Hx as [-> ->]. unfold traded, rested in *; simpl. split; [lia|].
    intros (id & Hin). exfalso.
    assert (Hev := run_events _ _ _ _ _ _ _ _ _ _ _ _ _ Hrun Hq Hpos).
    rewrite Forall_forall in Hev. apply elem_of_app in Hin as [Hin|Hin].
    + apply Hev in Hin as (m & _ & _ & [(? & ? & ? & [=] & _)|([=] & _)]).
    + destruct (q <? qty); set_solver.
  - unfold traded, rested in *; simpl. split; [lia|].
    intros (id & Hin). exfalso.
    assert (Hev := run_events _ _ _ _ _ _ _ _ _ _ _ _ _ Hrun Hq Hpos).
    rewrite Forall_forall in Hev. apply elem_of_app in Hin as [Hin|Hin].
    + apply Hev in Hin as (m & _ & _ & [(? & ? & ? & [=] & _)|([=] & _)]).
    + set_solver.
  - unfold traded, rested in *; simpl. split; [lia|]. lia.
Qed.

Lemma run_seq_fresh A seq ts_ns account symbol side price qty ot r q ev :
  match_run seq ts_ns symbol side price seq account ot (ab_orders A (opposite side)) qty r q ev ->
  0 <= qty -> seq_fresh A seq -> seq_fresh (ab_set_orders (opposite side) r A) seq.
Proof.
  intros Hrun Hq Hf. destruct (run_suffix _ _ _ _ _ _ _ _ _ _ _ _ _ Hrun Hq) as (pre & s & Hl & Heq & _).
  by eapply seq_fresh_shrink.
Qed.
