(* ===== verification/BookRep.v ===== *)
(** * BookRep: the representation invariant of the order book

    Relates the concrete book (ladder slots, intrusive doubly-linked lists in
    the arena, best-price pointers, id index) to the abstract book of
    BookSpec.v.  The ghost state is one queue of keys per side and ladder
    index; [core_rep] ties the slots and the list links to it, [ids_rep] the
    id index, [best_ok] the best pointers.  The file proves the effect of each
    list operation of level.rs and the lemma that replaces one level. *)

From S2P Require Import Prelude CoreTypes SlotMap OrderBook BookSpec.
#[local] Open Scope Z_scope.

Section BookRep.
Context {SM : SlotMapApi} {SML : SlotMapLaws SM}.

#[local] Abbreviation amap := (gmap OrderKey RestingOrder).
Implicit Types (m : amap) (k : OrderKey) (ks : list OrderKey) (o : RestingOrder)
  (arena : sm_t RestingOrder) (s : Side).

(** ** Orders of a list of keys *)

Definition to_a (o : RestingOrder) : aorder :=
  mkAOrder (ro_id o) (ro_account o) (ro_qty_remaining o) (ro_side o) (ro_price o) (ro_seq o).

Definition pay (m : amap) (k : OrderKey) : option aorder := option_map to_a (m !! k).

Fixpoint level_orders (m : amap) (ks : list OrderKey) : list aorder :=
  match ks with
  | [] => []
  | k :: ks' =>
      match pay m k with Some a => a :: level_orders m ks' | None => level_orders m ks' end
  end.

Lemma level_orders_app m ks1 ks2 :
  level_orders m (ks1 ++ ks2) = level_orders m ks1 ++ level_orders m ks2.
Proof.
  induction ks1 as [|k ks1 IH]; simpl; [done|]. destruct (pay m k); by rewrite IH.
Qed.

Lemma level_orders_ext m m' ks :
  (forall k, k ∈ ks -> pay m' k = pay m k) -> level_orders m' ks = level_orders m ks.
Proof.
  induction ks as [|k ks IH]; intros H; simpl; [done|].
  rewrite H by left. rewrite IH; [done|]. intros k' ?. apply H. by right.
Qed.

Lemma level_orders_length m ks :
  (forall k, k ∈ ks -> is_Some (pay m k)) -> length (level_orders m ks) = length ks.
Proof.
  induction ks as [|k ks IH]; intros H; simpl; [done|].
  destruct (H k) as [a ->]; [left|]. simpl. rewrite IH; [done|]. intros ??. apply H. by right.
Qed.

Lemma elem_of_level_orders m ks a :
  a ∈ level_orders m ks -> exists k, k ∈ ks /\ pay m k = Some a.
Proof.
  induction ks as [|k ks IH]; simpl; [by rewrite elem_of_nil|].
  destruct (pay m k) eqn:E.
  - intros [->|Ha]%elem_of_cons; [exists k; by split; [left|]|].
    destruct (IH Ha) as (k' & ? & ?). exists k'. split; [by right|done].
  - intros Ha. destruct (IH Ha) as (k' & ? & ?). exists k'. split; [by right|done].
Qed.

(** ** Intrusive list segments *)

Definition first_or ks (d : option OrderKey) : option OrderKey :=
  match ks with [] => d | k :: _ => Some k end.
Definition last_or ks (d : option OrderKey) : option OrderKey :=
  match last ks with Some k => Some k | None => d end.

(** [seg m p ks n]: in [m], the keys [ks] are chained by [next]/[prev], the
    first's [prev] is [p] and the last's [next] is [n]. *)
Fixpoint seg (m : amap) (p : option OrderKey) ks (n : option OrderKey) : Prop :=
  match ks with
  | [] => True
  | k :: ks' =>
      (exists o, m !! k = Some o /\ ro_prev o = p /\ ro_next o = first_or ks' n)
      /\ seg m (Some k) ks' n
  end.

Lemma last_or_cons k ks d : last_or (k :: ks) d = last_or ks (Some k).
Proof. unfold last_or. rewrite last_cons. by destruct (last ks). Qed.

Lemma last_or_snoc ks k d : last_or (ks ++ [k]) d = Some k.
Proof. unfold last_or. by rewrite last_snoc. Qed.

Lemma first_or_app ks1 ks2 d : first_or (ks1 ++ ks2) d = first_or ks1 (first_or ks2 d).
Proof. by destruct ks1. Qed.

Lemma seg_app m p ks1 ks2 n :
  seg m p (ks1 ++ ks2) n <->
  seg m p ks1 (first_or ks2 n) /\ seg m (last_or ks1 p) ks2 n.
Proof.
  revert p. induction ks1 as [|k ks1 IH]; intros p; simpl.
  - unfold last_or. simpl. tauto.
  - rewrite IH, last_or_cons, first_or_app. tauto.
Qed.

Lemma seg_frame m m' p ks n :
  (forall k, k ∈ ks -> m' !! k = m !! k) -> seg m p ks n -> seg m' p ks n.
Proof.
  revert p. induction ks as [|k ks IH]; intros p Hf; simpl; [done|].
  intros [(o & Ho & Hp & Hn) Hs]. split.
  - exists o. rewrite Hf by left. done.
  - apply IH; [|done]. intros ??. apply Hf. by right.
Qed.

Lemma seg_insert m p ks n k o :
  k ∉ ks -> seg m p ks n -> seg (<[k := o]> m) p ks n.
Proof.
  intros Hk. apply seg_frame. intros k' Hk'. rewrite lookup_insert_ne; [done|]. set_solver.
Qed.

Lemma seg_delete m p ks n k :
  k ∉ ks -> seg m p ks n -> seg (delete k m) p ks n.
Proof.
  intros Hk. apply seg_frame. intros k' Hk'. rewrite lookup_delete_ne; [done|]. set_solver.
Qed.

Lemma seg_set_next m p ks x n n' o :
  NoDup (ks ++ [x]) -> m !! x = Some o ->
  seg m p (ks ++ [x]) n -> seg (<[x := ro_set_next n' o]> m) p (ks ++ [x]) n'.
Proof.
  rewrite NoDup_app. intros (_ & Hx & _) Ho. rewrite !seg_app. simpl.
  intros (Hs & (o' & Ho' & Hp & _) & _). split.
  - apply seg_insert; [|done]. set_solver.
  - split; [|done]. exists (ro_set_next n' o). rewrite lookup_insert_eq. naive_solver.
Qed.

Lemma seg_set_prev m p p' x ks n o :
  x ∉ ks -> m !! x = Some o ->
  seg m p (x :: ks) n -> seg (<[x := ro_set_prev p' o]> m) p' (x :: ks) n.
Proof.
  intros Hx Ho. simpl. intros [(o' & Ho' & Hp & Hn) Hs]. split.
  - exists (ro_set_prev p' o). rewrite lookup_insert_eq. naive_solver.
  - by apply seg_insert.
Qed.

Lemma seg_some m p ks n k : seg m p ks n -> k ∈ ks -> is_Some (m !! k).
Proof.
  revert p. induction ks as [|k' ks IH]; intros p; simpl; [by rewrite elem_of_nil|].
  intros [(o & Ho & _) Hs] [->|Hk]%elem_of_cons; [by rewrite Ho|by eapply IH].
Qed.

Lemma seg_last m p ks x n :
  seg m p (ks ++ [x]) n -> exists o, m !! x = Some o.
Proof. intros Hs. apply (seg_some _ _ _ _ x Hs). set_solver. Qed.

(** ** Arena updates *)

Lemma pay_insert m k o k' :
  pay (<[k := o]> m) k' = if decide (k = k') then Some (to_a o) else pay m k'.
Proof. unfold pay. rewrite lookup_insert. by case_decide. Qed.

Lemma pay_insert_link m k o o' k' :
  m !! k = Some o -> to_a o' = to_a o -> pay (<[k := o']> m) k' = pay m k'.
Proof.
  intros Hk Ho. rewrite pay_insert. case_decide; [subst|done].
  unfold pay. rewrite Hk. simpl. by rewrite Ho.
Qed.

Lemma pay_delete_ne m k k' : k <> k' -> pay (delete k m) k' = pay m k'.
Proof. intros ?. unfold pay. by rewrite lookup_delete_ne. Qed.

Lemma to_a_set_next (n : option OrderKey) o : to_a (ro_set_next n o) = to_a o.
Proof. done. Qed.
Lemma to_a_set_prev (p : option OrderKey) o : to_a (ro_set_prev p o) = to_a o.
Proof. done. Qed.

Lemma arena_index_ok arena k o :
  sm_view arena !! k = Some o -> arena_index arena k = Val o.
Proof. unfold arena_index. rewrite sm_view_lookup. by intros ->. Qed.

Lemma arena_update_ok arena k o f :
  sm_view arena !! k = Some o ->
  exists arena', arena_update arena k f = Val arena'
    /\ sm_view arena' = <[k := f o]> (sm_view arena)
    /\ sm_capacity arena' = sm_capacity arena.
Proof.
  intros Hk. exists (sm_set arena k (f o)). unfold arena_update.
  rewrite (arena_index_ok _ _ _ Hk). simpl. split_and!; [done| |apply sm_capacity_set].
  apply sm_view_set. by rewrite Hk.
Qed.

(** ** Levels *)

(** [m'] differs from [m] only in the links of the keys [ks]. *)
Definition relinked (m m' : amap) ks : Prop :=
  (forall k, pay m' k = pay m k) /\ (forall k, k ∉ ks -> m' !! k = m !! k).

Lemma relinked_refl m ks : relinked m m ks.
Proof. done. Qed.

Lemma relinked_trans m1 m2 m3 ks1 ks2 ks :
  relinked m1 m2 ks1 -> relinked m2 m3 ks2 -> ks1 ⊆ ks -> ks2 ⊆ ks -> relinked m1 m3 ks.
Proof.
  intros [Hp1 Hf1] [Hp2 Hf2] ??. split; intros k'; [by rewrite Hp2|].
  intros ?. rewrite Hf2, Hf1; set_solver.
Qed.

Lemma relinked_insert m k o o' ks :
  m !! k = Some o -> to_a o' = to_a o -> k ∈ ks -> relinked m (<[k := o']> m) ks.
Proof.
  intros Hk Ho Hin. split; intros k'; [by eapply pay_insert_link|].
  intros ?. rewrite lookup_insert_ne; set_solver.
Qed.

Definition level_qty (m : amap) ks : Z := sumZ (map a_qty (level_orders m ks)).

(** The slot of a ladder holds the queue [ks] at price [px]. *)
Definition level_rep (m : amap) (px : Z) (slot : option PriceLevel) ks : Prop :=
  match slot with
  | None => ks = []
  | Some l =>
      pl_price l = px /\ pl_head l = head ks /\ pl_tail l = last ks
      /\ pl_total_qty l = wrap_u64 (level_qty m ks)
  end.

Lemma first_or_None ks : first_or ks None = head ks.
Proof. by destruct ks. Qed.
Lemma last_or_None ks : last_or ks None = last ks.
Proof. unfold last_or. by destruct (last ks). Qed.

Lemma level_qty_app m ks1 ks2 : level_qty m (ks1 ++ ks2) = level_qty m ks1 + level_qty m ks2.
Proof. unfold level_qty. by rewrite level_orders_app, map_app, sumZ_app. Qed.

Lemma level_qty_cons m k ks o :
  m !! k = Some o -> level_qty m (k :: ks) = ro_qty_remaining o + level_qty m ks.
Proof. intros Hk. unfold level_qty. simpl. unfold pay. by rewrite Hk. Qed.

Lemma level_qty_ext m m' ks :
  (forall k, k ∈ ks -> pay m' k = pay m k) -> level_qty m' ks = level_qty m ks.
Proof. intros H. unfold level_qty. by rewrite (level_orders_ext _ _ _ H). Qed.

(** A list operation took the queue of one level from [ks] to [ks']: the
    keys outside both are untouched. *)
Definition level_step (arena arena' : sm_t RestingOrder) (px : Z) (l' : PriceLevel) ks ks' : Prop :=
  level_rep (sm_view arena') px (Some l') ks'
  /\ seg (sm_view arena') None ks' None
  /\ (forall k, k ∉ ks -> k ∉ ks' -> sm_view arena' !! k = sm_view arena !! k)
  /\ sm_capacity arena' = sm_capacity arena.

(** The two link updates of an unlink. *)
Lemma unlink_prev_ok arena ks1 k nx :
  NoDup ks1 -> seg (sm_view arena) None ks1 (Some k) ->
  exists arena', (match last ks1 with
                  | Some p => arena_update arena p (ro_set_next nx)
                  | None => Val arena
                  end) = Val arena'
    /\ relinked (sm_view arena) (sm_view arena') ks1
    /\ seg (sm_view arena') None ks1 nx
    /\ sm_capacity arena' = sm_capacity arena.
Proof.
  destruct ks1 as [|p ks1 _] using rev_ind; intros Hnd Hs; [by exists arena|].
  rewrite last_snoc. destruct (seg_last _ _ _ _ _ Hs) as [o Ho].
  destruct (arena_update_ok arena p o (ro_set_next nx) Ho) as (arena' & Hu & Hv & Hc).
  exists arena'. rewrite Hv. split_and!; [done| |by eapply seg_set_next|done].
  apply (relinked_insert _ _ o); [done|done|set_solver].
Qed.

Lemma unlink_next_ok arena ks2 pv pv' :
  NoDup ks2 -> seg (sm_view arena) pv ks2 None ->
  exists arena', (match head ks2 with
                  | Some n => arena_update arena n (ro_set_prev pv')
                  | None => Val arena
                  end) = Val arena'
    /\ relinked (sm_view arena) (sm_view arena') ks2
    /\ seg (sm_view arena') pv' ks2 None
    /\ sm_capacity arena' = sm_capacity arena.
Proof.
  destruct ks2 as [|n ks2]; intros Hnd Hs; [by exists arena|]. simpl.
  destruct (seg_some _ _ _ _ n Hs) as [o Ho]; [left|].
  destruct (arena_update_ok arena n o (ro_set_prev pv') Ho) as (arena' & Hu & Hv & Hc).
  apply NoDup_cons in Hnd as [? ?]. exists arena'. rewrite Hv.
  split; [done|]. split; [|split; [by eapply seg_set_prev|done]].
  apply (relinked_insert _ _ o); [done|done|set_solver].
Qed.

Lemma level_remove_ok arena px l ks1 k ks2 o :
  level_rep (sm_view arena) px (Some l) (ks1 ++ k :: ks2) ->
  seg (sm_view arena) None (ks1 ++ k :: ks2) None -> NoDup (ks1 ++ k :: ks2) ->
  sm_view arena !! k = Some o ->
  exists l' arena', level_remove l k arena = Val (Some o, l', arena')
    /\ level_step arena arena' px l' (ks1 ++ k :: ks2) (ks1 ++ ks2)
    /\ sm_view arena' !! k = None
    /\ (forall k', k' <> k -> pay (sm_view arena') k' = pay (sm_view arena) k').
Proof.
  intros (Hpx & Hh & Ht & Hq) Hs Hnd Ho.
  pose proof Hs as [Hs1 [(o' & Ho' & Hprev & Hnext) Hs2]]%seg_app.
  assert (o' = o) as -> by congruence.
  pose proof Hnd as (Hnd1 & Hdis & [Hk2 Hnd2]%NoDup_cons)%NoDup_app.
  assert (Hk1 : k ∉ ks1) by set_solver.
  rewrite last_or_None in Hprev. rewrite first_or_None in Hnext. simpl in Hs1.
  destruct (unlink_prev_ok arena ks1 k (head ks2) Hnd1 Hs1) as (a1 & H1 & [Hp1 Hf1] & Hs1' & Hc1).
  assert (Hs2' : seg (sm_view a1) (Some k) ks2 None).
  { eapply seg_frame; [|exact Hs2]. intros k' ?. apply Hf1. set_solver. }
  destruct (unlink_next_ok a1 ks2 (Some k) (last ks1) Hnd2 Hs2')
    as (a2 & H2 & [Hp2 Hf2] & Hs2'' & Hc2).
  assert (Hk : sm_view a2 !! k = Some o) by by rewrite Hf2, Hf1.
  exists (mkPriceLevel px (head (ks1 ++ ks2)) (last (ks1 ++ ks2))
           (wrap_u64 (pl_total_qty l - ro_qty_remaining o))), (sm_remove a2 k).2.
  assert (Hview : sm_view (sm_remove a2 k).2 = delete k (sm_view a2)) by apply sm_view_remove.
  assert (Hpay : forall k', k' <> k -> pay (delete k (sm_view a2)) k' = pay (sm_view arena) k').
  { intros k' ?. rewrite pay_delete_ne by done. by rewrite Hp2, Hp1. }
  split; [|split; [|split]].
  - unfold level_remove. rewrite <- sm_view_lookup, Ho, Hprev, Hnext.
    assert (Hrem : sm_remove a2 k = (Some o, (sm_remove a2 k).2)).
    { rewrite <- Hk, sm_view_lookup, <- sm_remove_result. by destruct (sm_remove a2 k). }
    destruct l as [? ? ? ?]; simpl in *; subst.
    destruct ks1 as [|p ks1 _] using rev_ind; destruct ks2 as [|n ks2];
      rewrite ?last_snoc in *; simpl in *; simplify_eq; rewrite ?H1, ?H2; simpl;
      rewrite ?H2; simpl; rewrite Hrem; do 4 f_equal;
      rewrite ?app_nil_r, ?last_snoc, ?last_app, ?last_cons, ?head_app; simpl; try done.
    all: destruct ks1; simpl; try done; destruct (last ks2); done.
  - unfold level_step. rewrite Hview. split; [|split; [|split]].
    + simpl. split_and!; [done..|].
      rewrite (level_qty_ext (sm_view arena)) by (intros; apply Hpay; set_solver).
      rewrite Hq, wrap_u64_sub_l, !level_qty_app, (level_qty_cons _ _ _ _ Ho). f_equal. lia.
    + apply seg_delete; [set_solver|]. rewrite seg_app, first_or_None, last_or_None.
      split; [|done]. eapply seg_frame; [|exact Hs1']. intros k' ?. apply Hf2.
      intros ?. apply (Hdis k'); set_solver.
    + intros k' ??. rewrite lookup_delete_ne, Hf2, Hf1; set_solver.
    + rewrite sm_capacity_remove. congruence.
  - by rewrite Hview, lookup_delete_eq.
  - rewrite Hview. exact Hpay.
Qed.

(** A fill smaller than the head order reduces it in place. *)
Lemma fill_head_partial_ok arena px l k ks o d :
  level_rep (sm_view arena) px (Some l) (k :: ks) ->
  seg (sm_view arena) None (k :: ks) None -> NoDup (k :: ks) ->
  sm_view arena !! k = Some o -> 0 < d < ro_qty_remaining o -> in_u64 (ro_qty_remaining o) ->
  exists l' arena', fill_head l d arena = Val (false, l', arena')
    /\ level_step arena arena' px l' (k :: ks) (k :: ks)
    /\ pay (sm_view arena') k = Some (a_set_qty (ro_qty_remaining o - d) (to_a o))
    /\ (forall k', k' <> k -> pay (sm_view arena') k' = pay (sm_view arena) k').
Proof.
  intros (Hpx & Hh & Ht & Hq) Hs [Hk Hnd]%NoDup_cons Ho Hd Hr.
  set (f := fun o => ro_set_qty (wrap_u64 (ro_qty_remaining o - d)) o).
  destruct (arena_update_ok arena k o f Ho) as (a1 & H1 & Hv & Hc).
  assert (Hw : wrap_u64 (ro_qty_remaining o - d) = ro_qty_remaining o - d).
  { apply wrap_u64_id. unfold in_u64 in *. lia. }
  assert (Hpay : forall k', k' <> k -> pay (sm_view a1) k' = pay (sm_view arena) k').
  { intros k' ?. rewrite Hv, pay_insert. by case_decide. }
  assert (Hk1 : sm_view a1 !! k = Some (f o)) by by rewrite Hv, lookup_insert_eq.
  exists (mkPriceLevel px (Some k) (last (k :: ks)) (wrap_u64 (pl_total_qty l - d))), a1.
  split; [|split; [|split; [|done]]].
  - unfold fill_head. rewrite Hh. simpl. fold f. rewrite H1. simpl.
    rewrite (arena_index_ok _ _ _ Hk1). unfold f. simpl. rewrite Hw.
    destruct (Z.eqb_spec (ro_qty_remaining o - d) 0); [lia|].
    destruct l; simpl in *; by subst.
  - split; [|split; [|split; [|done]]].
    + split_and!; [done..|]. rewrite (level_qty_cons _ _ _ _ Hk1).
      rewrite (level_qty_ext (sm_view arena)) by (intros; apply Hpay; set_solver).
      unfold f. cbn [pl_total_qty ro_qty_remaining ro_set_qty].
      rewrite Hq, wrap_u64_sub_l, (level_qty_cons _ _ _ _ Ho), Hw. f_equal. lia.
    + destruct Hs as [(o' & Ho' & ? & ?) Hs]. assert (o' = o) as -> by congruence.
      rewrite Hv. split; [|by apply seg_insert]. exists (f o). by rewrite lookup_insert_eq.
    + intros k' ??. rewrite Hv, lookup_insert_ne; set_solver.
  - unfold pay. rewrite Hk1. unfold f. simpl. by rewrite Hw.
Qed.

(** A fill of the whole head order unlinks it. *)
Lemma fill_head_full_ok arena px l k ks o :
  level_rep (sm_view arena) px (Some l) (k :: ks) ->
  seg (sm_view arena) None (k :: ks) None -> NoDup (k :: ks) ->
  sm_view arena !! k = Some o ->
  exists l' arena', fill_head l (ro_qty_remaining o) arena = Val (true, l', arena')
    /\ level_step arena arena' px l' (k :: ks) ks
    /\ sm_view arena' !! k = None
    /\ (forall k', k' <> k -> pay (sm_view arena') k' = pay (sm_view arena) k').
Proof.
  intros (Hpx & Hh & Ht & Hq) Hs [Hk Hnd]%NoDup_cons Ho.
  set (f := fun o' => ro_set_qty (wrap_u64 (ro_qty_remaining o' - ro_qty_remaining o)) o').
  destruct (arena_update_ok arena k o f Ho) as (a1 & H1 & Hv & Hc).
  destruct Hs as [(o' & Ho' & Hprev & Hnext) Hs]. assert (o' = o) as -> by congruence.
  rewrite first_or_None in Hnext.
  assert (Hk1 : sm_view a1 !! k = Some (f o)) by by rewrite Hv, lookup_insert_eq.
  assert (Hs1 : seg (sm_view a1) (Some k) ks None) by (rewrite Hv; by apply seg_insert).
  destruct (unlink_next_ok a1 ks (Some k) None Hnd Hs1) as (a2 & H2 & [Hp2 Hf2] & Hs2 & Hc2).
  assert (Hview : sm_view (sm_remove a2 k).2 = delete k (sm_view a2)) by apply sm_view_remove.
  assert (Hpay : forall k', k' <> k -> pay (delete k (sm_view a2)) k' = pay (sm_view arena) k').
  { intros k' ?. rewrite pay_delete_ne by done. rewrite Hp2, Hv, pay_insert. by case_decide. }
  exists (mkPriceLevel px (head ks) (last ks)
            (wrap_u64 (pl_total_qty l - ro_qty_remaining o))), (sm_remove a2 k).2.
  split; [|split; [|split]].
  - unfold fill_head. rewrite Hh. simpl. fold f. rewrite H1. simpl.
    rewrite (arena_index_ok _ _ _ Hk1). unfold f. simpl. rewrite Z.sub_diag. simpl. rewrite Hnext.
    destruct l; simpl in *; subst.
    destruct ks as [|n ks]; simpl in *; simplify_eq; rewrite ?H2; simpl;
      destruct (sm_remove _ k); simpl; [done|].
    done.
  - unfold level_step. rewrite Hview. split; [|split; [|split]].
    + split_and!; [done..|]. simpl.
      rewrite (level_qty_ext (sm_view arena)) by (intros; apply Hpay; set_solver).
      rewrite Hq, wrap_u64_sub_l, (level_qty_cons _ _ _ _ Ho). f_equal. lia.
    + by apply seg_delete.
    + intros k' ??. rewrite lookup_delete_ne, Hf2, Hv, lookup_insert_ne; set_solver.
    + rewrite sm_capacity_remove. congruence.
  - by rewrite Hview, lookup_delete_eq.
  - rewrite Hview. exact Hpay.
Qed.

Lemma push_back_ok arena px slot ks k o :
  level_rep (sm_view arena) px slot ks -> seg (sm_view arena) None ks None ->
  NoDup ks -> k ∉ ks -> sm_view arena !! k = Some o -> ro_next o = None -> ro_prev o = None ->
  exists l' arena',
    push_back (match slot with Some l => l | None => PriceLevel_new px end) k arena
      = Val (l', arena')
    /\ level_step arena arena' px l' (ks ++ [k]) (ks ++ [k])
    /\ (forall k', pay (sm_view arena') k' = pay (sm_view arena) k').
Proof.
  set (l := match slot with Some l => l | None => PriceLevel_new px end).
  intros Hslot Hs Hnd Hk Ho Hnext Hprev.
  assert (Hl : level_rep (sm_view arena) px (Some l) ks).
  { destruct slot; [done|]. simpl in Hslot. by subst. }
  destruct Hl as (Hpx & Hh & Ht & Hq).
  set (total := wrap_u64 (pl_total_qty l + ro_qty_remaining o)).
  assert (Htot : forall m, (forall k', pay m k' = pay (sm_view arena) k') ->
    total = wrap_u64 (level_qty m (ks ++ [k]))).
  { intros m Hm. rewrite (level_qty_ext (sm_view arena)) by auto. unfold total.
    rewrite Hq, level_qty_app, (level_qty_cons _ _ _ _ Ho), wrap_u64_add_l.
    f_equal. unfold level_qty. simpl. lia. }
  unfold push_back. rewrite (arena_index_ok _ _ _ Ho). simpl. rewrite Ht.
  destruct ks as [|p ks _] using rev_ind.
  - simpl. eexists _, arena. split; [done|]. split; [|done].
    split; [|split; [|done]]; [|by split; [exists o|]].
    split_and!; [done..|]. simpl. by apply Htot.
  - rewrite last_snoc.
    destruct (seg_last _ _ _ _ _ Hs) as [op Hop].
    destruct (arena_update_ok arena p op (ro_set_next (Some k)) Hop) as (a1 & H1 & Hv1 & Hc1).
    assert (Hpk : p <> k) by set_solver.
    assert (Ho1 : sm_view a1 !! k = Some o) by by rewrite Hv1, lookup_insert_ne.
    destruct (arena_update_ok a1 k o (ro_set_prev (Some p)) Ho1) as (a2 & H2 & Hv2 & Hc2).
    assert (Hpay : forall k', pay (sm_view a2) k' = pay (sm_view arena) k').
    { intros k'. rewrite Hv2, (pay_insert_link _ _ o), Hv1, (pay_insert_link _ _ op); done. }
    rewrite H1. simpl. rewrite H2. simpl. eexists _, a2. split; [done|]. split; [|done].
    split; [|split; [|split; [|congruence]]].
    + split_and!; [done| |by rewrite last_snoc|by apply Htot].
      simpl. rewrite Hh. by destruct ks.
    + rewrite seg_app, last_or_snoc. simpl. split.
      * rewrite Hv2. apply seg_insert; [done|]. rewrite Hv1. by eapply seg_set_next.
      * split; [|done]. exists (ro_set_prev (Some p) o). by rewrite Hv2, lookup_insert_eq.
    + intros k' ??. rewrite Hv2, Hv1, !lookup_insert_ne; set_solver.
Qed.
End BookRep.
