(* ===== verification/BookInv.v ===== *)
(** * BookInv: the representation relation between book and reference

    [core_rep] ties ladder slots and list links to one ghost queue of keys
    per side and index, [ids_rep] the id index, [best_ok] the best pointers,
    and [rep b A] states that the concrete book [b] represents the abstract
    book [A] of BookSpec.v.  The file proves what an operation on one level
    does to the relation and that clearing an emptied best level restores the
    best pointer. *)

From S2P Require Import Prelude CoreTypes SlotMap OrderBook BookSpec BookRep.
#[local] Open Scope Z_scope.

Section BookInv.
Context {SM : SlotMapApi} {SML : SlotMapLaws SM}.

#[local] Abbreviation amap := (gmap OrderKey RestingOrder).
#[local] Abbreviation queues := (Side -> nat -> list OrderKey).
Implicit Types (m : amap) (k : OrderKey) (ks : list OrderKey) (o : RestingOrder)
  (s : Side) (i j : nat) (b : OrderBook) (Q : queues) (A : abook).

(** ** Definitions *)

Definition view b : amap := sm_view (ob_arena b).
Definition ticks b : nat := length (ob_bids b).

Definition order_at s (px : Z) o : Prop :=
  ro_side o = s /\ ro_price o = px /\ 0 < ro_qty_remaining o < two64.

Record core_rep b Q : Prop := {
  cr_len s : length (ob_ladder b s) = ticks b;
  cr_floor : in_i64 (ob_tick_floor b);
  cr_ceil : ob_tick_floor b + Z.of_nat (ticks b) <= two63;
  cr_size : Z.of_nat (ticks b) < two63;
  cr_level s i slot : ob_ladder b s !! i = Some slot ->
    level_rep (view b) (ob_tick_floor b + Z.of_nat i) slot (Q s i);
  cr_seg s i : seg (view b) None (Q s i) None;
  cr_nodup s i : NoDup (Q s i);
  cr_key s i k : k ∈ Q s i -> (i < ticks b)%nat /\
    exists o, view b !! k = Some o /\ order_at s (ob_tick_floor b + Z.of_nat i) o;
  cr_cover k o : view b !! k = Some o -> exists s i, k ∈ Q s i
}.

(** The id index holds exactly the live orders. *)
Definition ids_rep (ids : gmap Z OrderKey) m : Prop :=
  forall id k, ids !! id = Some k <-> exists a, pay m k = Some a /\ a_id a = id.

(** [closer s i j]: on side [s], index [i] is strictly better than [j]. *)
Definition closer s i j : Prop := match s with Sell => (i < j)%nat | Buy => (j < i)%nat end.

Definition best_ok s (best : option nat) (q : nat -> list OrderKey) : Prop :=
  match best with
  | None => forall j, q j = []
  | Some i => q i <> [] /\ forall j, closer s j i -> q j = []
  end.

Definition ob_set_best s (best : option nat) b : OrderBook :=
  match s with Buy => ob_set_best_bid best b | Sell => ob_set_best_ask best b end.

(** The orders of a side, level by level in priority order. *)
Definition side_view m Q s (n : nat) : list aorder :=
  scan_order s n ≫= fun i => level_orders m (Q s i).

Definition upd Q s i ks : queues :=
  fun s' j => if decide (s' = s /\ j = i) then ks else Q s' j.

Record rep_with b Q A : Prop := {
  rep_core : core_rep b Q;
  rep_ids : ids_rep (ob_id_to_key b) (view b);
  rep_best s : best_ok s (ob_best b s) (Q s);
  rep_orders s : ab_orders A s = side_view (view b) Q s (ticks b);
  rep_floor : ab_floor A = ob_tick_floor b;
  rep_ticks : ab_ticks A = ticks b;
  rep_capacity : ab_capacity A = sm_capacity (ob_arena b)
}.

(** The concrete book [b] represents the abstract book [A]. *)
Definition rep b A : Prop := exists Q, rep_with b Q A.

(** ** Queues and views *)

Lemma elem_of_scan s n i : i ∈ scan_order s n <-> (i < n)%nat.
Proof. destruct s; simpl; rewrite ?elem_of_reverse, elem_of_seq; lia. Qed.

Lemma scan_split s n i :
  (i < n)%nat ->
  exists l1 l2, scan_order s n = l1 ++ i :: l2
    /\ (forall j, j ∈ l1 -> closer s j i) /\ (forall j, j ∈ l2 -> closer s i j).
Proof.
  intros Hi.
  assert (Hseq : seq 0 n = seq 0 i ++ i :: seq (S i) (n - S i)).
  { replace n with (i + S (n - S i))%nat at 1 by lia. by rewrite seq_app. }
  destruct s; simpl; rewrite Hseq.
  - rewrite reverse_app, reverse_cons, <- app_assoc. simpl. do 2 eexists. split; [done|].
    split; intros j; rewrite elem_of_reverse, elem_of_seq; lia.
  - do 2 eexists. split; [done|]. split; intros j; rewrite elem_of_seq; lia.
Qed.

Lemma closer_irrefl s i : ~ closer s i i.
Proof. destruct s; simpl; lia. Qed.

Lemma upd_eq Q s i ks : upd Q s i ks s i = ks.
Proof. unfold upd. by rewrite decide_True. Qed.
Lemma upd_ne Q s i ks s' j : (s', j) <> (s, i) -> upd Q s i ks s' j = Q s' j.
Proof. intros ?. unfold upd. rewrite decide_False; [done|]. naive_solver. Qed.

Lemma upd_cases Q s i ks s' j k :
  k ∈ upd Q s i ks s' j -> (s' = s /\ j = i /\ k ∈ ks) \/ ((s', j) <> (s, i) /\ k ∈ Q s' j).
Proof.
  destruct (decide ((s', j) = (s, i))) as [[= -> ->]|Hne].
  - rewrite upd_eq. by left.
  - rewrite upd_ne by done. by right.
Qed.

Lemma side_view_ext m m' Q Q' s n :
  (forall j, (j < n)%nat -> Q' s j = Q s j) ->
  (forall j k, k ∈ Q s j -> pay m' k = pay m k) ->
  side_view m' Q' s n = side_view m Q s n.
Proof.
  intros HQ Hp. unfold side_view.
  assert (H : forall l, (forall j, j ∈ l -> (j < n)%nat) ->
    (l ≫= fun i => level_orders m' (Q' s i)) = (l ≫= fun i => level_orders m (Q s i))).
  { induction l as [|j l IH]; intros Hl; [done|]. rewrite !bind_cons, IH by set_solver.
    f_equal. rewrite HQ by set_solver. apply level_orders_ext. eauto. }
  apply H. intros j. apply elem_of_scan.
Qed.

(** A side around one of its levels, before and after a change of it. *)
Lemma side_view_at m Q s n i :
  (i < n)%nat ->
  exists pre post, side_view m Q s n = pre ++ level_orders m (Q s i) ++ post
    /\ (forall m' ks, (forall j k, j <> i -> k ∈ Q s j -> pay m' k = pay m k) ->
          side_view m' (upd Q s i ks) s n = pre ++ level_orders m' ks ++ post)
    /\ (forall a, a ∈ pre -> exists j k, closer s j i /\ k ∈ Q s j /\ pay m k = Some a)
    /\ (forall a, a ∈ post -> exists j k, closer s i j /\ k ∈ Q s j /\ pay m k = Some a).
Proof.
  intros Hi. destruct (scan_split s n i Hi) as (l1 & l2 & Hl & H1 & H2).
  set (f := fun i => level_orders m (Q s i)).
  exists (l1 ≫= f), (l2 ≫= f). unfold side_view. rewrite Hl.
  assert (Hside : forall l a, a ∈ l ≫= f ->
    exists j k, j ∈ l /\ k ∈ Q s j /\ pay m k = Some a).
  { intros l a (j & Ha & Hj)%list_elem_of_bind.
    apply elem_of_level_orders in Ha as (k & ? & ?). eauto. }
  split_and!.
  - by rewrite bind_app, bind_cons.
  - intros m' ks Hm. rewrite bind_app, bind_cons, upd_eq.
    assert (Hext : forall l, i ∉ l ->
      (l ≫= fun j => level_orders m' (upd Q s i ks s j)) = l ≫= f).
    { induction l as [|j l IH]; intros Hl'; [done|]. rewrite !bind_cons, IH by set_solver.
      f_equal. rewrite upd_ne by set_solver. apply level_orders_ext. intros k. apply Hm.
      set_solver. }
    rewrite !Hext; [done|..]; intros Hc; by apply (closer_irrefl s i); auto.
  - intros a (j & k & ? & ? & ?)%Hside. eauto 6.
  - intros a (j & k & ? & ? & ?)%Hside. eauto 6.
Qed.

(** ** Facts of [core_rep] *)

Lemma core_disjoint b Q s i s' j k :
  core_rep b Q -> k ∈ Q s i -> k ∈ Q s' j -> (s', j) = (s, i).
Proof.
  intros H H1 H2. destruct (cr_key b Q H _ _ _ H1) as (_ & o & Ho & Hs0 & Hp & _).
  destruct (cr_key b Q H _ _ _ H2) as (_ & o' & Ho' & Hs & Hp' & _).
  assert (o' = o) as -> by congruence. f_equal; [congruence|lia].
Qed.

Lemma core_out b Q s i : core_rep b Q -> (ticks b <= i)%nat -> Q s i = [].
Proof.
  intros H Hi. destruct (Q s i) as [|k ks] eqn:E; [done|].
  destruct (cr_key b Q H s i k) as [? _]; [rewrite E; left|lia].
Qed.

Lemma core_slot b Q s i :
  core_rep b Q -> (i < ticks b)%nat ->
  exists slot, ob_ladder b s !! i = Some slot
    /\ index_list (ob_ladder b s) i = Val slot
    /\ level_rep (view b) (ob_tick_floor b + Z.of_nat i) slot (Q s i).
Proof.
  intros H Hi. destruct (lookup_lt_is_Some_2 (ob_ladder b s) i) as [slot Hs].
  { by rewrite (cr_len b Q H). }
  exists slot. split_and!; [done|by apply index_list_lt|by apply (cr_level b Q H)].
Qed.

Lemma core_idx_price b Q i :
  core_rep b Q -> (i < ticks b)%nat -> idx_to_price b i = ob_tick_floor b + Z.of_nat i.
Proof.
  intros H Hi. pose proof (cr_floor b Q H). pose proof (cr_ceil b Q H).
  unfold idx_to_price. apply wrap_i64_id. unfold in_i64 in *. lia.
Qed.

Lemma core_head_key b Q s i k ks :
  core_rep b Q -> Q s i = k :: ks ->
  exists l o, index_list (ob_ladder b s) i = Val (Some l) /\ pl_head l = Some k
    /\ view b !! k = Some o /\ order_at s (ob_tick_floor b + Z.of_nat i) o
    /\ level_rep (view b) (ob_tick_floor b + Z.of_nat i) (Some l) (k :: ks)
    /\ (i < ticks b)%nat.
Proof.
  intros H E. destruct (cr_key b Q H s i k) as (Hi & o & Ho & Hat); [rewrite E; left|].
  destruct (core_slot b Q s i H Hi) as (slot & _ & Hidx & Hrep). rewrite E in Hrep.
  destruct slot as [l|]; [|done]. exists l, o. split_and!; try done.
  by destruct Hrep as (_ & ? & _).
Qed.

Lemma slot_occupied_rep m px slot ks :
  level_rep m px slot ks -> slot_occupied slot = negb (bool_decide (ks = [])).
Proof.
  destruct slot as [l|]; simpl; [|by intros ->].
  intros (_ & Hh & _). unfold level_is_empty. rewrite Hh. by destruct ks.
Qed.

(** ** Replacing the queue of one level *)

(** [arena'] and [l'] hold the queue [ks'] for level [i] of side [s]; the
    other levels are as in [b]. *)
Record level_put b Q s i (arena' : sm_t RestingOrder) (l' : PriceLevel) (ks' : list OrderKey) :
    Prop := {
  lp_idx : (i < ticks b)%nat;
  lp_level : level_rep (sm_view arena') (ob_tick_floor b + Z.of_nat i) (Some l') ks';
  lp_seg : seg (sm_view arena') None ks' None;
  lp_frame k : k ∉ Q s i -> k ∉ ks' -> sm_view arena' !! k = view b !! k;
  lp_nodup : NoDup ks';
  lp_at k : k ∈ ks' -> exists o, sm_view arena' !! k = Some o
    /\ order_at s (ob_tick_floor b + Z.of_nat i) o;
  lp_new k s' j : k ∈ ks' -> k ∈ Q s' j -> (s', j) = (s, i);
  lp_gone k o : k ∈ Q s i -> sm_view arena' !! k = Some o -> k ∈ ks'
}.

Section Update.
Context b Q (arena' : sm_t RestingOrder) s i (l' : PriceLevel) (ks' : list OrderKey).
Hypothesis Hcore : core_rep b Q.
Hypothesis Hput : level_put b Q s i arena' l' ks'.
#[local] Abbreviation m' := (sm_view arena').
#[local] Abbreviation b' := (ob_put_level s i l' (ob_set_arena arena' b)).

Lemma put_ticks : ticks b' = ticks b.
Proof. unfold ticks. destruct s; simpl; [by rewrite length_insert|done]. Qed.

Lemma put_frame s' j k : (s', j) <> (s, i) -> k ∈ Q s' j -> m' !! k = view b !! k.
Proof.
  intros Hne Hk. apply (lp_frame _ _ _ _ _ _ _ Hput); intros Hk'; apply Hne; [|by eapply (lp_new _ _ _ _ _ _ _ Hput)].
  by eapply core_disjoint.
Qed.

Lemma put_view : view b' = m'.
Proof. by destruct s. Qed.
Lemma put_floor : ob_tick_floor b' = ob_tick_floor b.
Proof. by destruct s. Qed.

Lemma put_ladder s' j slot :
  ob_ladder b' s' !! j = Some slot ->
  (s' = s /\ j = i /\ slot = Some l') \/ ((s', j) <> (s, i) /\ ob_ladder b s' !! j = Some slot).
Proof.
  destruct (decide ((s', j) = (s, i))) as [[= -> ->]|Hne].
  - intros Hl. left. split_and!; try done. destruct s; simpl in Hl;
      rewrite list_lookup_insert_eq in Hl; try congruence;
      eapply Nat.lt_le_trans; try apply (lp_idx _ _ _ _ _ _ _ Hput); apply Nat.eq_le_incl; symmetry.
    + by apply (cr_len b Q Hcore Buy).
    + by apply (cr_len b Q Hcore Sell).
  - intros Hl. right. split; [done|]. destruct s, s'; simpl in *; try done;
      rewrite list_lookup_insert_ne in Hl; try done; congruence.
Qed.

Lemma core_update : core_rep b' (upd Q s i ks').
Proof.
  pose proof put_frame as Hf. destruct Hput as [Hi Hlevel Hseg Hframe Hnodup Hat Hnew Hgone].
  split; rewrite ?put_ticks, ?put_view, ?put_floor.
  - intros s'. rewrite <- (cr_len b Q Hcore s').
    destruct s, s'; simpl; by rewrite ?length_insert.
  - apply (cr_floor b Q Hcore).
  - apply (cr_ceil b Q Hcore).
  - apply (cr_size b Q Hcore).
  - intros s' j slot [(-> & -> & ->)|(Hne & Hl)]%put_ladder; [by rewrite upd_eq|].
    rewrite upd_ne by done. apply (cr_level b Q Hcore) in Hl. destruct slot as [l|]; [|done].
    destruct Hl as (?&?&?&Hq). split_and!; try done. rewrite Hq. f_equal. symmetry.
    apply level_qty_ext. intros k Hk. unfold pay. by rewrite (Hf s' j).
  - intros s' j. destruct (decide ((s', j) = (s, i))) as [[= -> ->]|Hne];
      [by rewrite upd_eq|].
    rewrite upd_ne by done. eapply seg_frame; [|apply (cr_seg b Q Hcore)]. eauto.
  - intros s' j. destruct (decide ((s', j) = (s, i))) as [[= -> ->]|Hne];
      [by rewrite upd_eq|].
    rewrite upd_ne by done. apply (cr_nodup b Q Hcore).
  - intros s' j k [(-> & -> & Hk)|(Hne & Hk)]%upd_cases; [by auto|].
    rewrite (Hf s' j k) by done. by apply (cr_key b Q Hcore).
  - intros k o Ho. destruct (decide (k ∈ ks')) as [?|Hk'].
    { exists s, i. by rewrite upd_eq. }
    destruct (decide (k ∈ Q s i)) as [Hk|Hk]; [by eapply Hgone in Hk|].
    rewrite Hframe in Ho by done. destruct (cr_cover b Q Hcore k o Ho) as (s' & j & Hin).
    exists s', j. rewrite upd_ne; [done|]. intros [= -> ->]. done.
Qed.

Lemma put_side_opp A :
  (forall s, ab_orders A s = side_view (view b) Q s (ticks b)) ->
  ab_orders A (opposite s) = side_view m' (upd Q s i ks') (opposite s) (ticks b).
Proof.
  intros HA. rewrite HA. symmetry. apply side_view_ext.
  - intros j _. rewrite upd_ne; [done|]. by destruct s.
  - intros j k Hk. unfold pay. rewrite (put_frame (opposite s) j k); [done| |done]. by destruct s.
Qed.

Lemma put_side :
  exists pre post, side_view (view b) Q s (ticks b) = pre ++ level_orders (view b) (Q s i) ++ post
    /\ side_view m' (upd Q s i ks') s (ticks b) = pre ++ level_orders m' ks' ++ post
    /\ (forall a, a ∈ pre -> exists j k, closer s j i /\ k ∈ Q s j /\ pay (view b) k = Some a)
    /\ (forall a, a ∈ post -> exists j k, closer s i j /\ k ∈ Q s j /\ pay (view b) k = Some a).
Proof.
  destruct (side_view_at (view b) Q s (ticks b) i (lp_idx _ _ _ _ _ _ _ Hput)) as (pre & post & H1 & H2 & H3 & H4).
  exists pre, post. split_and!; try done. apply H2. intros j k Hj Hk. unfold pay.
  rewrite (put_frame s j k); [done|congruence|done].
Qed.
End Update.

(** ** The id index *)

Lemma ids_rep_same ids m m' :
  ids_rep ids m -> (forall k, option_map a_id (pay m' k) = option_map a_id (pay m k)) ->
  ids_rep ids m'.
Proof.
  intros H Hp id k. rewrite (H id k). specialize (Hp k).
  destruct (pay m k), (pay m' k); simplify_eq/=; naive_solver.
Qed.

Lemma ids_rep_remove ids m m' k a :
  ids_rep ids m -> pay m k = Some a -> m' !! k = None ->
  (forall k', k' <> k -> pay m' k' = pay m k') -> ids_rep (delete (a_id a) ids) m'.
Proof.
  intros H Hk Hn Hp id k'. rewrite lookup_delete_Some, (H id k').
  destruct (decide (k' = k)) as [->|Hne].
  - unfold pay at 2. rewrite Hn. simpl. rewrite Hk. naive_solver.
  - rewrite Hp by done. split; [naive_solver|]. intros (a' & Ha & <-). split; [|eauto].
    intros Heq. apply Hne. assert (H1 : ids !! a_id a = Some k) by (apply H; eauto).
    assert (H2 : ids !! a_id a' = Some k') by (apply H; eauto). congruence.
Qed.

Lemma ids_rep_insert ids m m' k a :
  ids_rep ids m -> pay m k = None -> ids !! a_id a = None ->
  pay m' k = Some a -> (forall k', k' <> k -> pay m' k' = pay m k') ->
  ids_rep (<[a_id a := k]> ids) m'.
Proof.
  intros H Hk Hid Hk' Hp id k'. rewrite lookup_insert_Some, (H id k').
  destruct (decide (k' = k)) as [->|Hne].
  - rewrite Hk, Hk'. naive_solver.
  - rewrite Hp by done. split; [naive_solver|]. intros (a' & Ha & <-). right. split; [|eauto].
    intros Heq. assert (H2 : ids !! a_id a' = Some k') by (apply H; eauto). congruence.
Qed.

(** ** Best pointers *)

Lemma core_set_best b Q s best : core_rep b Q -> core_rep (ob_set_best s best b) Q.
Proof. intros []. destruct s; split; done. Qed.
Lemma core_set_ids b Q ids : core_rep b Q -> core_rep (ob_set_ids ids b) Q.
Proof. intros []. split; done. Qed.

Lemma best_self b s : b = ob_set_best s (ob_best b s) b.
Proof. by destruct b, s. Qed.

Lemma slot_occupied_core b Q s i :
  core_rep b Q -> (i < ticks b)%nat ->
  exists slot, index_list (ob_ladder b s) i = Val slot
    /\ slot_occupied slot = negb (bool_decide (Q s i = [])).
Proof.
  intros H Hi. destruct (core_slot b Q s i H Hi) as (slot & _ & Hs & Hr).
  exists slot. split; [done|]. by eapply slot_occupied_rep.
Qed.

Lemma scan_down_ok b Q idx :
  core_rep b Q -> (idx < ticks b)%nat -> (forall j, (idx < j)%nat -> Q Buy j = []) ->
  exists r, scan_down (ob_bids b) idx = Val r /\ best_ok Buy r (Q Buy).
Proof.
  intros H. induction idx as [|idx IH]; intros Hi Hc; cbn [scan_down];
    destruct (slot_occupied_core b Q Buy _ H Hi) as (slot & Hs & Ho);
    change (ob_ladder b Buy) with (ob_bids b) in Hs; rewrite Hs; cbn [ebind];
    rewrite Ho; case_bool_decide as He; simpl.
  - exists None. split; [done|]. intros [|j]; [done|]. apply Hc. lia.
  - exists (Some 0%nat). split; [done|]. split; [done|]. intros j ?. apply Hc. simpl in *. lia.
  - apply IH; [lia|]. intros j ?. destruct (decide (j = S idx)) as [->|]; [done|].
    apply Hc. lia.
  - exists (Some (S idx)). split; [done|]. split; [done|]. intros j ?. apply Hc. simpl in *. lia.
Qed.

Lemma scan_up_ok b Q count idx :
  core_rep b Q -> (idx + count = ticks b)%nat -> (forall j, (j < idx)%nat -> Q Sell j = []) ->
  exists r, scan_up (ob_asks b) idx count = Val r /\ best_ok Sell r (Q Sell).
Proof.
  intros H. revert idx. induction count as [|count IH]; intros idx Hi Hc; cbn [scan_up].
  { exists None. split; [done|]. intros j. destruct (decide (j < idx)%nat); [by apply Hc|].
    apply (core_out b); [done|lia]. }
  destruct (slot_occupied_core b Q Sell idx H) as (slot & Hs & Ho); [lia|].
  change (ob_ladder b Sell) with (ob_asks b) in Hs. rewrite Hs. cbn [ebind]. rewrite Ho.
  case_bool_decide as He; simpl.
  - apply IH; [lia|]. intros j ?. destruct (decide (j = idx)) as [->|]; [done|].
    apply Hc. lia.
  - exists (Some idx). split; [done|]. split; [done|]. intros j ?. by apply Hc.
Qed.

(** The best pointer after level [i] was emptied or not. *)
Definition best_weak s i (best : option nat) (q : nat -> list OrderKey) : Prop :=
  best_ok s best q
  \/ (best = Some i /\ q i = [] /\ forall j, closer s j i -> q j = []).

Lemma clear_empty_best_ok b Q s i :
  core_rep b Q -> (i < ticks b)%nat -> Q s i = [] -> best_weak s i (ob_best b s) (Q s) ->
  exists best, clear_empty_best b s i = Val (ob_set_best s best b) /\ best_ok s best (Q s).
Proof.
  intros H Hi He Hw.
  destruct (decide (ob_best b s = Some i)) as [Hb|Hb].
  - assert (Hc : forall j, closer s j i -> Q s j = []).
    { destruct Hw as [Hok|(_ & _ & Hc)]; [|done]. rewrite Hb in Hok. by destruct Hok. }
    destruct s; simpl in *; rewrite decide_True by done.
    + unfold scan_best_bid_down. rewrite Hb.
      destruct (scan_down_ok b Q i H Hi Hc) as (r & -> & Hr). by exists r.
    + unfold scan_best_ask_up. rewrite Hb.
      assert (Hlen : length (ob_asks b) = ticks b) by apply (cr_len b Q H Sell).
      destruct (scan_up_ok b Q (length (ob_asks b) - i) i H) as (r & -> & Hr);
        [lia|done|]. by exists r.
  - exists (ob_best b s). destruct Hw as [Hok|(? & _)]; [|done]. split; [|done].
    rewrite <- best_self. destruct s; simpl in *; by rewrite decide_False.
Qed.

Lemma is_level_empty_ok b Q s i :
  core_rep b Q -> (i < ticks b)%nat -> is_level_empty b s i = Val (bool_decide (Q s i = [])).
Proof.
  intros H Hi. destruct (core_slot b Q s i H Hi) as (slot & _ & Hs & Hr).
  unfold is_level_empty, get_level. rewrite Hs. simpl. f_equal.
  apply slot_occupied_rep in Hr. destruct slot as [l|]; simpl in *.
  - destruct (level_is_empty l), (bool_decide (Q s i = [])); done.
  - by destruct (bool_decide (Q s i = [])).
Qed.

(** [if self.is_level_empty(..) { self.clear_empty_best(..) }]. *)
Lemma finish_level_ok b Q s i :
  core_rep b Q -> (i < ticks b)%nat -> best_weak s i (ob_best b s) (Q s) ->
  exists best,
    (let! empty := is_level_empty b s i in
     if empty : bool then clear_empty_best b s i else Val b) = Val (ob_set_best s best b)
    /\ best_ok s best (Q s).
Proof.
  intros H Hi Hw. rewrite (is_level_empty_ok b Q) by done. simpl.
  case_bool_decide as He; [by apply clear_empty_best_ok|].
  exists (ob_best b s). rewrite <- best_self. split; [done|].
  destruct Hw as [?|(_ & ? & _)]; done.
Qed.

(** ** Counting *)

Definition keys_view Q s (n : nat) : list OrderKey := scan_order s n ≫= Q s.

Lemma side_view_length b Q s :
  core_rep b Q -> length (side_view (view b) Q s (ticks b)) = length (keys_view Q s (ticks b)).
Proof.
  intros H. unfold side_view, keys_view. induction (scan_order s (ticks b)) as [|i l IH]; [done|].
  rewrite !bind_cons, !length_app, IH. f_equal. apply level_orders_length.
  intros k Hk. destruct (cr_key b Q H s i k Hk) as (_ & o & Ho & _). unfold pay. by rewrite Ho.
Qed.

Lemma scan_nodup s n : NoDup (scan_order s n).
Proof. destruct s; simpl; [rewrite reverse_Permutation|]; apply NoDup_seq. Qed.

Lemma keys_view_nodup b Q n :
  core_rep b Q -> NoDup (keys_view Q Buy n ++ keys_view Q Sell n).
Proof.
  intros H.
  assert (Hn : forall s, NoDup (keys_view Q s n)).
  { intros s. apply NoDup_bind; [|intros; apply (cr_nodup b Q H)|apply scan_nodup].
    intros i j k _ _ Hi Hj. by pose proof (core_disjoint b Q _ _ _ _ _ H Hj Hi) as [= ->]. }
  apply NoDup_app. split_and!; [done| |done].
  intros k (i & Hi & _)%list_elem_of_bind (j & Hj & _)%list_elem_of_bind.
  by pose proof (core_disjoint b Q _ _ _ _ _ H Hi Hj).
Qed.

Lemma keys_view_spec b Q k :
  core_rep b Q ->
  k ∈ keys_view Q Buy (ticks b) ++ keys_view Q Sell (ticks b) <-> is_Some (view b !! k).
Proof.
  intros H. rewrite elem_of_app. split.
  - intros [(i & Hi & _)%list_elem_of_bind|(i & Hi & _)%list_elem_of_bind];
      apply (cr_key b Q H) in Hi as (_ & o & -> & _); done.
  - intros [o Hk]. destruct (cr_cover b Q H k o Hk) as ([] & i & Hi);
      [left|right]; apply list_elem_of_bind; exists i; (split; [done|]);
      apply elem_of_scan; by apply (cr_key b Q H) in Hi as [? _].
Qed.

Lemma sm_len_rep b Q A : rep_with b Q A -> sm_len (ob_arena b) = length (ab_all A).
Proof.
  intros [H _ _ Ho _ _ _].
  rewrite (sm_len_keys _ (keys_view Q Buy (ticks b) ++ keys_view Q Sell (ticks b))).
  - unfold ab_all. rewrite !length_app. pose proof (Ho Buy) as Hb. pose proof (Ho Sell) as Hs.
    simpl in Hb, Hs. rewrite Hb, Hs. by rewrite !side_view_length by done.
  - by eapply keys_view_nodup.
  - intros k. by apply keys_view_spec.
Qed.

(** An order of a side is a live order of one of its levels. *)
Lemma elem_of_side b Q A s a :
  rep_with b Q A ->
  a ∈ ab_orders A s <-> exists i k, k ∈ Q s i /\ pay (view b) k = Some a.
Proof.
  intros H. rewrite (rep_orders _ _ _ H). unfold side_view. rewrite list_elem_of_bind. split.
  - intros (i & Ha & _). apply elem_of_level_orders in Ha as (k & ? & ?). eauto.
  - intros (i & k & Hk & Hp). exists i. split.
    + apply list_elem_of_split in Hk as (l1 & l2 & ->). rewrite level_orders_app. simpl.
      rewrite Hp. set_solver.
    + apply elem_of_scan. by apply (cr_key _ _ (rep_core _ _ _ H)) in Hk as [? _].
Qed.
End BookInv.
