(* ===== verification/BookRefine.v ===== *)
(** * BookRefine: the order book implements the reference matcher

    One simulation lemma per operation of crates/order-book/src/apply.rs:
    from a book that represents an abstract book, the operation returns (it
    neither panics nor runs out of fuel), with the events of the reference,
    and the book it returns represents the reference's result. *)

From S2P Require Import Prelude CoreTypes SlotMap OrderBook BookSpec BookRep BookInv.
#[local] Open Scope Z_scope.

Section BookRefine.
Context {SM : SlotMapApi} {SML : SlotMapLaws SM}.

#[local] Abbreviation amap := (gmap OrderKey RestingOrder).
#[local] Abbreviation queues := (Side -> nat -> list OrderKey).
Implicit Types (m : amap) (k : OrderKey) (ks : list OrderKey) (o : RestingOrder)
  (s : Side) (i j : nat) (b : OrderBook) (Q : queues) (A : abook).

(** ** One level changed *)

Lemma rep_put b Q A s i arena' l' ks' ids' best L :
  rep_with b Q A -> level_put b Q s i arena' l' ks' ->
  sm_capacity arena' = sm_capacity (ob_arena b) ->
  ids_rep ids' (sm_view arena') -> best_ok s best (upd Q s i ks' s) ->
  L = side_view (sm_view arena') (upd Q s i ks') s (ticks b) ->
  rep_with (ob_set_best s best (ob_set_ids ids' (ob_put_level s i l' (ob_set_arena arena' b))))
    (upd Q s i ks') (ab_set_orders s L A).
Proof.
  intros HR Hput Hcap Hids Hbest HL. pose proof (rep_core _ _ _ HR) as Hcore.
  assert (Hv : forall bb ids, view (ob_set_best s bb (ob_set_ids ids
    (ob_put_level s i l' (ob_set_arena arena' b)))) = sm_view arena') by by destruct s.
  assert (Htk : forall bb ids, ticks (ob_set_best s bb (ob_set_ids ids
    (ob_put_level s i l' (ob_set_arena arena' b)))) = ticks b).
  { intros. unfold ticks. destruct s; simpl; by rewrite ?length_insert. }
  split; rewrite ?Hv, ?Htk.
  - apply core_set_best, core_set_ids. by apply core_update.
  - by destruct s.
  - intros s'. destruct (decide (s' = s)) as [->|Hne]; [by destruct s|].
    assert (Hq : forall j, upd Q s i ks' s' j = Q s' j) by (intros; apply upd_ne; congruence).
    assert (Hb : ob_best (ob_set_best s best (ob_set_ids ids'
      (ob_put_level s i l' (ob_set_arena arena' b)))) s' = ob_best b s') by by destruct s, s'.
    rewrite Hb. pose proof (rep_best _ _ _ HR s') as Hok.
    destruct (ob_best b s') as [j|]; simpl in *.
    + rewrite Hq. destruct Hok as [? Hc]. split; [done|]. intros ??. rewrite Hq. by apply Hc.
    + intros j. rewrite Hq. apply Hok.
  - intros s'. destruct (decide (s' = s)) as [->|Hne]; [by rewrite ab_orders_set|].
    assert (s = opposite s') as -> by (by destruct s, s').
    rewrite ab_orders_set_opp.
    pose proof (put_side_opp b Q arena' (opposite s') i l' ks' Hcore Hput A (rep_orders _ _ _ HR)) as E.
    by destruct s'.
  - rewrite ab_floor_set, (rep_floor _ _ _ HR). by destruct s.
  - rewrite ab_ticks_set. by rewrite (rep_ticks _ _ _ HR).
  - rewrite ab_capacity_set, (rep_capacity _ _ _ HR), <- Hcap. by destruct s.
Qed.

(** The orders of the levels that are closer than the best level. *)
Lemma pre_empty b Q A s i (pre : list aorder) :
  rep_with b Q A -> ob_best b s = Some i ->
  (forall a, a ∈ pre -> exists j k, closer s j i /\ k ∈ Q s j /\ pay (view b) k = Some a) ->
  pre = [].
Proof.
  intros HR Hb Hpre. pose proof (rep_best _ _ _ HR s) as Hok. rewrite Hb in Hok.
  destruct Hok as [_ Hc]. destruct pre as [|a pre]; [done|].
  destruct (Hpre a) as (j & k & Hj & Hk & _); [left|]. rewrite (Hc j Hj) in Hk.
  by apply elem_of_nil in Hk.
Qed.

Lemma best_weak_upd b Q A s i ks1 k ks2 :
  rep_with b Q A -> Q s i = ks1 ++ k :: ks2 ->
  best_weak s i (ob_best b s) (upd Q s i (ks1 ++ ks2) s).
Proof.
  intros HR HQ. pose proof (rep_best _ _ _ HR s) as Hok.
  assert (Hne : Q s i <> []) by (rewrite HQ; by destruct ks1).
  destruct (ob_best b s) as [j|] eqn:Hb; [|by rewrite (Hok i) in Hne].
  destruct Hok as [Hj Hc].
  assert (Hup : forall x, closer s x j -> upd Q s i (ks1 ++ ks2) s x = []).
  { intros x Hx. rewrite upd_ne; [by apply Hc|]. intros [= ->]. by rewrite (Hc i Hx) in Hne. }
  destruct (decide (j = i)) as [->|Hji].
  - destruct (ks1 ++ ks2) as [|k' ks'] eqn:E.
    + right. rewrite upd_eq. by split_and!.
    + left. split; [by rewrite upd_eq|done].
  - left. split; [|done]. by rewrite upd_ne by congruence.
Qed.

Lemma pay_order_at m m' k s px o :
  m !! k = Some o -> order_at s px o -> pay m' k = pay m k ->
  exists o', m' !! k = Some o' /\ order_at s px o'.
Proof.
  unfold pay. intros -> Hat Hp. destruct (m' !! k) as [o'|] eqn:E; simplify_eq/=.
  exists o'. split; [done|]. unfold order_at in *. destruct o', o; by simplify_eq/=.
Qed.

Lemma level_put_remove b Q s i ks1 k ks2 l' arena' :
  core_rep b Q -> Q s i = ks1 ++ k :: ks2 ->
  level_step (ob_arena b) arena' (ob_tick_floor b + Z.of_nat i) l' (ks1 ++ k :: ks2) (ks1 ++ ks2) ->
  sm_view arena' !! k = None ->
  (forall k', k' <> k -> pay (sm_view arena') k' = pay (view b) k') ->
  level_put b Q s i arena' l' (ks1 ++ ks2).
Proof.
  intros Hcore HQ (Hlev & Hseg & Hframe & Hcap) Hgone Hpay.
  assert (Hnd := cr_nodup _ _ Hcore s i). rewrite HQ in Hnd.
  pose proof Hnd as (? & Hd & [? ?]%NoDup_cons)%NoDup_app.
  assert (Hin : forall k', k' ∈ ks1 ++ ks2 -> k' ∈ Q s i) by (rewrite HQ; set_solver).
  split; try done.
  - apply (cr_key _ _ Hcore s i k). rewrite HQ. set_solver.
  - intros k'. rewrite HQ. apply Hframe.
  - apply NoDup_app. set_solver.
  - intros k' Hk'. destruct (cr_key _ _ Hcore s i k' (Hin k' Hk')) as (_ & o' & Ho' & Hat).
    eapply pay_order_at; [exact Ho'|done|]. apply Hpay. set_solver.
  - intros k' s' j Hk' Hj. eapply core_disjoint; eauto.
  - intros k' o' Hk' Ho'. rewrite HQ in Hk'. assert (k' <> k) by congruence. set_solver.
Qed.

(** The book after an order left the queue of its level, and the test that
    follows in the code. *)
Lemma rep_remove b Q A s i ks1 k ks2 o l' arena' :
  rep_with b Q A -> Q s i = ks1 ++ k :: ks2 -> view b !! k = Some o ->
  level_step (ob_arena b) arena' (ob_tick_floor b + Z.of_nat i) l' (ks1 ++ k :: ks2) (ks1 ++ ks2) ->
  sm_view arena' !! k = None ->
  (forall k', k' <> k -> pay (sm_view arena') k' = pay (view b) k') ->
  let b1 := remove_id (ro_id o) (ob_put_level s i l' (ob_set_arena arena' b)) in
  exists b' L1 L2,
    (if level_is_empty l' then clear_empty_best b1 s i else Val b1) = Val b'
    /\ is_level_empty b1 s i = Val (level_is_empty l')
    /\ ab_orders A s = L1 ++ to_a o :: L2
    /\ (ks1 = [] -> ob_best b s = Some i -> L1 = [])
    /\ rep b' (ab_set_orders s (L1 ++ L2) A).
Proof.
  intros HR HQ Ho Hstep Hgone Hpay b1. pose proof Hstep as (Hlev & _ & _ & Hcap).
  pose proof (rep_core _ _ _ HR) as Hcore.
  assert (Hnd := cr_nodup _ _ Hcore s i). rewrite HQ in Hnd.
  assert (Hk12 : k ∉ ks1 ++ ks2).
  { apply NoDup_app in Hnd as (_ & Hd & [? _]%NoDup_cons). set_solver. }
  assert (Hput : level_put b Q s i arena' l' (ks1 ++ ks2)) by by eapply level_put_remove.
  destruct (put_side b Q arena' s i l' _ Hcore Hput) as (pre & post & Hv & Hv' & Hpre & Hpost).
  assert (Hcore1 : core_rep b1 (upd Q s i (ks1 ++ ks2))) by by apply core_set_ids, core_update.
  assert (Hlo : forall ks, k ∉ ks -> level_orders (sm_view arena') ks = level_orders (view b) ks).
  { intros ks Hks. apply level_orders_ext. intros ??. apply Hpay. set_solver. }
  assert (Hw : best_weak s i (ob_best b1 s) (upd Q s i (ks1 ++ ks2) s)).
  { replace (ob_best b1 s) with (ob_best b s) by by destruct s. by eapply best_weak_upd. }
  assert (Hi1 : (i < ticks b1)%nat).
  { pose proof (lp_idx _ _ _ _ _ _ _ Hput). unfold ticks in *. unfold b1.
    destruct s; simpl; by rewrite ?length_insert. }
  assert (Hemp : is_level_empty b1 s i = Val (level_is_empty l')).
  { rewrite (is_level_empty_ok _ _ _ _ Hcore1 Hi1), upd_eq. destruct Hlev as (_ & Hh & _).
    unfold level_is_empty. rewrite Hh. by destruct (ks1 ++ ks2). }
  destruct (finish_level_ok b1 _ s i Hcore1 Hi1 Hw) as (best & Hfin & Hbest).
  rewrite Hemp in Hfin. simpl in Hfin.
  exists (ob_set_best s best b1), (pre ++ level_orders (view b) ks1),
    (level_orders (view b) ks2 ++ post).
  split_and!; [done|done| | |].
  - rewrite (rep_orders _ _ _ HR), Hv, HQ, level_orders_app. simpl.
    unfold pay. rewrite Ho. simpl. by rewrite <- !app_assoc.
  - intros -> Hb. rewrite (pre_empty b Q A s i pre) by done. done.
  - exists (upd Q s i (ks1 ++ ks2)). unfold b1.
    replace (remove_id (ro_id o) (ob_put_level s i l' (ob_set_arena arena' b)))
      with (ob_set_ids (delete (ro_id o) (ob_id_to_key b)) (ob_put_level s i l' (ob_set_arena arena' b)))
      by by destruct s.
    eapply rep_put; eauto.
    + change (ro_id o) with (a_id (to_a o)).
      eapply ids_rep_remove; [apply (rep_ids _ _ _ HR)| |done|done]. unfold pay. by rewrite Ho.
    + rewrite Hv', level_orders_app, !Hlo by set_solver. by rewrite <- !app_assoc.
Qed.

(** The book after a partial fill of the head of the best level. *)
Lemma rep_partial b Q A s i k ks o l' arena' q L2 :
  rep_with b Q A -> ob_best b s = Some i -> Q s i = k :: ks -> view b !! k = Some o ->
  0 < q < two64 -> ab_orders A s = to_a o :: L2 ->
  level_step (ob_arena b) arena' (ob_tick_floor b + Z.of_nat i) l' (k :: ks) (k :: ks) ->
  pay (sm_view arena') k = Some (a_set_qty q (to_a o)) ->
  (forall k', k' <> k -> pay (sm_view arena') k' = pay (view b) k') ->
  rep (ob_put_level s i l' (ob_set_arena arena' b))
    (ab_set_orders s (a_set_qty q (to_a o) :: L2) A).
Proof.
  intros HR Hb HQ Ho Hq HA (Hlev & Hseg & Hframe & Hcap) Hk Hpay.
  pose proof (rep_core _ _ _ HR) as Hcore.
  assert (Hnd := cr_nodup _ _ Hcore s i). rewrite HQ in Hnd. pose proof Hnd as [Hkn _]%NoDup_cons.
  destruct (cr_key _ _ Hcore s i k) as (Hi & ok & Hok & Hat); [rewrite HQ; left|].
  assert (ok = o) as -> by (unfold view in *; congruence).
  assert (Hput : level_put b Q s i arena' l' (k :: ks)).
  { split; try done; rewrite <- ?HQ; try done.
    - intros k'. rewrite HQ. apply Hframe.
    - intros k' Hk'. destruct (decide (k' = k)) as [->|Hne].
      + unfold pay in Hk. destruct (sm_view arena' !! k) as [o2|]; simplify_eq/=.
        exists o2. split; [done|]. unfold order_at in *. destruct o2, o; simpl in *.
        injection Hk as -> -> -> -> -> ->. destruct Hat as (? & ? & _). done.
      + destruct (cr_key _ _ Hcore s i k' Hk') as (_ & o' & Ho' & Hat').
        eapply pay_order_at; [exact Ho'|done|by apply Hpay].
    - intros k' s' j Hk' Hj. eapply core_disjoint; eauto. }
  destruct (put_side b Q arena' s i l' _ Hcore Hput) as (pre & post & Hv & Hv' & Hpre & Hpost).
  assert (pre = []) as -> by by eapply pre_empty.
  exists (upd Q s i (k :: ks)).
  replace (ob_put_level s i l' (ob_set_arena arena' b)) with
    (ob_set_best s (ob_best b s) (ob_set_ids (ob_id_to_key b)
       (ob_put_level s i l' (ob_set_arena arena' b)))) by by destruct s.
  eapply rep_put; eauto.
  - eapply ids_rep_same; [apply (rep_ids _ _ _ HR)|]. intros k'.
    destruct (decide (k' = k)) as [->|]; [|by rewrite Hpay]. rewrite Hk. unfold pay. by rewrite Ho.
  - pose proof (rep_best _ _ _ HR s) as Hok'. rewrite Hb in *. destruct Hok' as [? Hc].
    split; [by rewrite upd_eq|]. intros j Hj. rewrite upd_ne; [by apply Hc|].
    intros [= ->]. by apply closer_irrefl in Hj.
  - rewrite Hv'. rewrite (rep_orders _ _ _ HR), Hv, HQ in HA. simpl in HA |- *.
    rewrite Hk. unfold pay in HA at 1. rewrite Ho in HA. simplify_eq/=. f_equal. f_equal.
    symmetry. apply level_orders_ext. intros k' ?. apply Hpay. set_solver.
Qed.

(** ** The matching loop *)

(** The best pointer and the head of the abstract side. *)
Lemma rep_head b Q A s :
  rep_with b Q A ->
  match ob_best b s with
  | None => ab_orders A s = []
  | Some i => exists k ks l o rest,
      Q s i = k :: ks /\ get_level b s i = Val (Some l) /\ pl_head l = Some k
      /\ view b !! k = Some o /\ order_at s (ob_tick_floor b + Z.of_nat i) o
      /\ level_rep (view b) (ob_tick_floor b + Z.of_nat i) (Some l) (k :: ks)
      /\ (i < ticks b)%nat /\ idx_to_price b i = ro_price o
      /\ ab_orders A s = to_a o :: rest
  end.
Proof.
  intros HR. pose proof (rep_best _ _ _ HR s) as Hok. pose proof (rep_core _ _ _ HR) as Hcore.
  pose proof (rep_orders _ _ _ HR s) as Ho.
  destruct (ob_best b s) as [i|] eqn:Hb; simpl in Hok.
  - destruct Hok as [Hne Hc]. destruct (Q s i) as [|k ks] eqn:HQ; [done|].
    destruct (core_head_key b Q s i k ks Hcore HQ) as (l & o & Hl & Hh & Hk & Hat & Hrep & Hi).
    destruct (side_view_at (view b) Q s (ticks b) i Hi) as (pre & post & Hv & _ & Hpre & _).
    rewrite (pre_empty b Q A s i pre) in Hv by done.
    exists k, ks, l, o. eexists. split_and!; try done.
    + rewrite (core_idx_price b Q i) by done. by destruct Hat as (_ & -> & _).
    + rewrite Ho, Hv, HQ. simpl. unfold pay at 1. by rewrite Hk.
  - rewrite Ho. unfold side_view. induction (scan_order s (ticks b)) as [|j l IH]; [done|].
    rewrite bind_cons, Hok. simpl. apply IH.
Qed.

Section Matching.
Context (seq ts_ns symbol : Z) (side : Side) (price oid acct : Z) (ot : OrderType).
#[local] Abbreviation body := (match_body seq ts_ns symbol side price oid acct ot).
#[local] Abbreviation smatch := (spec_match seq ts_ns symbol side price oid acct ot).
#[local] Abbreviation strade := (spec_trade seq ts_ns symbol side oid acct).
#[local] Abbreviation ms := (opposite side).

(** One iteration that stops. *)
Lemma body_stop b A q evs :
  rep b A ->
  q = 0 \/ ab_orders A ms = []
    \/ (exists a rest, ab_orders A ms = a :: rest /\ crosses side ot price (a_price a) = false) ->
  body (b, q, evs) = Val (Break (b, q, evs)).
Proof.
  intros [Q HR] Hstop. unfold match_body.
  destruct (Z.eqb_spec q 0) as [|Hq]; [done|]. destruct Hstop as [?|Hstop]; [done|].
  pose proof (rep_head b Q A ms HR) as Hh. destruct (ob_best b ms) as [i|]; [|done].
  destruct Hh as (k & ks & l & o & rest & _ & _ & _ & _ & _ & _ & _ & -> & HA).
  rewrite HA in Hstop. destruct Hstop as [|(a & r & [= <- <-] & Hc)]; [done|].
  simpl in Hc. by rewrite Hc.
Qed.

(** Runs [match_body] up to the account test, on a head order that crosses. *)
Ltac run_to_maker HR HA Hq Hc :=
  unfold match_body; rewrite (proj2 (Z.eqb_neq _ 0) Hq);
  pose proof (rep_head _ _ _ ms HR) as Hh;
  destruct (ob_best _ ms) as [i|] eqn:Hb; [|by rewrite Hh in HA];
  destruct Hh as (k & ks & l & o & rest' & HQ & Hl & Hhd & Hk & Hat & Hrep & Hi & Hp & HA');
  rewrite HA in HA'; injection HA' as -> <-;
  simpl in Hc; rewrite Hp, Hc; simpl; rewrite Hl; simpl; unfold peek_head; rewrite Hhd;
  rewrite (arena_index_ok _ _ _ Hk); simpl;
  pose proof (rep_core _ _ _ HR) as Hcore;
  assert (Hs := cr_seg _ _ Hcore ms i); assert (Hnd := cr_nodup _ _ Hcore ms i);
  rewrite HQ in Hs, Hnd.

(** An iteration that consumes the head of the other side: an order of the
    aggressor's own account is cancelled, *)
Lemma body_self b A a rest q evs :
  rep b A -> ab_orders A ms = a :: rest -> q <> 0 ->
  crosses side ot price (a_price a) = true -> a_account a = acct ->
  exists b', body (b, q, evs) = Val (Continue (b', q, evs ++ [Cancelled seq (a_id a)]))
    /\ rep b' (ab_set_orders ms rest A).
Proof.
  intros [Q HR] HA Hq Hc Hacct. run_to_maker HR HA Hq Hc.
  simpl in Hacct. rewrite Hacct, Z.eqb_refl.
  unfold cancel_resting_head. rewrite Hl. simpl. unfold peek_head. rewrite Hhd.
  destruct (level_remove_ok (ob_arena b) _ l [] k ks o Hrep Hs Hnd Hk)
    as (l' & arena' & Hrm & Hstep & Hgone & Hpay).
  rewrite Hrm. simpl.
  destruct (rep_remove b Q A ms i [] k ks o l' arena' HR HQ Hk Hstep Hgone Hpay)
    as (b' & L1 & L2 & Hfin & Hemp & HL & HL1 & Hrep').
  rewrite Hemp. simpl. rewrite Hfin. simpl. exists b'. split; [done|].
  rewrite (HL1 eq_refl Hb) in *. simpl in *. by assert (L2 = rest) as <- by congruence.
Qed.

(** another account's order is filled for all it has, *)
Lemma body_full b A a rest q evs :
  rep b A -> ab_orders A ms = a :: rest -> q <> 0 -> in_u64 q ->
  crosses side ot price (a_price a) = true -> a_account a <> acct -> a_qty a <= q ->
  exists b', body (b, q, evs)
      = Val (Continue (b', q - a_qty a, evs ++ [strade a (a_qty a) 0 (q - a_qty a)]))
    /\ rep b' (ab_set_orders ms rest A) /\ 0 < a_qty a.
Proof.
  intros [Q HR] HA Hq Hu Hc Hacct Hle. run_to_maker HR HA Hq Hc.
  simpl in Hacct, Hle |- *. rewrite (proj2 (Z.eqb_neq _ _) Hacct).
  assert ((q <? ro_qty_remaining o) = false) as -> by lia.
  unfold fill_level_head. rewrite Hl. simpl.
  destruct (fill_head_full_ok (ob_arena b) _ l k ks o Hrep Hs Hnd Hk)
    as (l' & arena' & Hrm & Hstep & Hgone & Hpay).
  rewrite Hrm. simpl.
  destruct (rep_remove b Q A ms i [] k ks o l' arena' HR HQ Hk Hstep Hgone Hpay)
    as (b' & L1 & L2 & Hfin & Hemp & HL & HL1 & Hrep').
  rewrite Hemp. simpl. rewrite Hfin. simpl. exists b'.
  destruct Hat as (_ & _ & Hqty). rewrite Z.sub_diag, !wrap_u64_id by (unfold in_u64 in *; lia).
  split_and!; [done| |lia].
  rewrite (HL1 eq_refl Hb) in *. simpl in *. by assert (L2 = rest) as <- by congruence.
Qed.

(** or for all the aggressor has left. *)
Lemma body_partial b A a rest q evs :
  rep b A -> ab_orders A ms = a :: rest -> q <> 0 -> in_u64 q ->
  crosses side ot price (a_price a) = true -> a_account a <> acct -> q < a_qty a ->
  exists b', body (b, q, evs) = Val (Continue (b', 0, evs ++ [strade a q (a_qty a - q) 0]))
    /\ rep b' (ab_set_orders ms (a_set_qty (a_qty a - q) a :: rest) A).
Proof.
  intros [Q HR] HA Hq Hu Hc Hacct Hlt. run_to_maker HR HA Hq Hc.
  simpl in Hacct, Hlt |- *. rewrite (proj2 (Z.eqb_neq _ _) Hacct).
  assert ((q <? ro_qty_remaining o) = true) as -> by lia.
  destruct Hat as (_ & _ & Hqty). unfold in_u64 in Hu.
  unfold fill_level_head. rewrite Hl. simpl.
  destruct (fill_head_partial_ok (ob_arena b) _ l k ks o q Hrep Hs Hnd Hk)
    as (l' & arena' & Hrm & Hstep & Hpk & Hpay); [lia|unfold in_u64; lia|].
  rewrite Hrm. simpl. rewrite Z.sub_diag, !wrap_u64_id by (unfold in_u64; lia).
  eexists. split; [done|].
  eapply (rep_partial b Q A ms i k ks o); try done. lia.
Qed.

(** The loop computes the reference match, in at most one iteration per order
    on the other side and two more. *)
Lemma match_loop_ok fuel b A q evs r q' ev :
  rep b A -> in_u64 q -> smatch (ab_orders A ms) q = (r, q', ev) ->
  ((if decide (q = 0%Z) then 0 else length (ab_orders A ms)) < fuel)%nat ->
  exists b', loop_fuel fuel body (b, q, evs) = Val (b', q', evs ++ ev)
    /\ rep b' (ab_set_orders ms r A).
Proof.
  intros HR Hu Hm. remember (ab_orders A ms) as makers eqn:HA.
  revert fuel b A q evs r q' ev HR Hu Hm HA.
  induction makers as [|a rest IH]; intros fuel b A q evs r q' ev HR Hu Hm HA Hf;
    (destruct fuel as [|fuel]; [lia|]); cbn [loop_fuel]; simpl in Hm.
  { injection Hm as <- <- <-. rewrite (body_stop b A) by auto. exists b. rewrite app_nil_r. split; [done|].
    rewrite HA. by destruct A, side. }
  assert (Hself : ab_set_orders ms (a :: rest) A = A) by (rewrite HA; by destruct A, side).
  destruct (Z.eqb_spec q 0) as [->|Hq].
  { injection Hm as <- <- <-. rewrite (body_stop b A) by auto. exists b. by rewrite app_nil_r, Hself. }
  rewrite decide_False in Hf by done. simpl in Hf.
  destruct (crosses side ot price (a_price a)) eqn:Hc; simpl in Hm.
  2:{ injection Hm as <- <- <-. rewrite (body_stop b A) by eauto 8. exists b. by rewrite app_nil_r, Hself. }
  assert (Hset : forall l l', ab_set_orders ms l (ab_set_orders ms l' A) = ab_set_orders ms l A)
    by (by destruct side).
  destruct (Z.eqb_spec (a_account a) acct) as [Hacct|Hacct].
  - destruct (smatch rest q) as [[r0 q0] ev0] eqn:E. injection Hm as <- <- <-.
    destruct (body_self b A a rest q evs) as (b1 & -> & HR1); try done.
    destruct (IH fuel b1 _ q (evs ++ [Cancelled seq (a_id a)]) _ _ _ HR1 Hu E) as (b' & -> & Hb');
      [by rewrite ab_orders_set|case_decide; lia|].
    exists b'. rewrite <- app_assoc, Hset in *. done.
  - destruct (Z.ltb_spec q (a_qty a)) as [Hlt|Hge].
    + injection Hm as <- <- <-. destruct (body_partial b A a rest q evs) as (b1 & -> & HR1); try done.
      destruct fuel as [|fuel]; [lia|]. cbn [loop_fuel]. rewrite (body_stop b1 _ 0) by eauto.
      by exists b1.
    + destruct (smatch rest (q - a_qty a)) as [[r0 q0] ev0] eqn:E. injection Hm as <- <- <-.
      destruct (body_full b A a rest q evs) as (b1 & -> & HR1 & Hpos); try done.
      destruct (IH fuel b1 _ (q - a_qty a) (evs ++ [strade a (a_qty a) 0 (q - a_qty a)])
        r0 q0 ev0 HR1) as (b' & -> & Hb');
        [unfold in_u64 in *; lia|done|by rewrite ab_orders_set|case_decide; lia|].
      exists b'. rewrite <- app_assoc, Hset in *. done.
Qed.

Lemma match_against_book_ok b A q r q' ev :
  rep b A -> in_u64 q -> smatch (ab_orders A ms) q = (r, q', ev) ->
  exists b', match_against_book seq ts_ns symbol side price oid acct ot b q [] = Val (b', q', ev)
    /\ rep b' (ab_set_orders ms r A).
Proof.
  intros HR Hu Hm. unfold match_against_book, match_fuel.
  apply (match_loop_ok _ b A q [] r q' ev HR Hu Hm). destruct HR as [Q HR].
  rewrite (sm_len_rep b Q A HR). unfold ab_all. rewrite length_app.
  destruct side; simpl; case_decide; lia.
Qed.
End Matching.

(** ** Queries *)

Lemma best_price_ok b Q A s :
  rep_with b Q A ->
  best_price (ob_best b s) (ob_ladder b s) = Val (a_price <$> head (ab_orders A s)).
Proof.
  intros HR. pose proof (rep_head b Q A s HR) as Hh. unfold best_price.
  destruct (ob_best b s) as [i|]; [|by rewrite Hh].
  destruct Hh as (k & ks & l & o & rest & _ & Hl & Hhd & _ & (_ & Hp & _) & (Hpx & _) & _ & _ & ->).
  unfold get_level in Hl. rewrite Hl. simpl. unfold level_is_empty. rewrite Hhd. simpl. congruence.
Qed.

Lemma best_bid_ok b A : rep b A -> best_bid b = Val (a_price <$> head (ab_bids A)).
Proof. intros [Q HR]. exact (best_price_ok b Q A Buy HR). Qed.
Lemma best_ask_ok b A : rep b A -> best_ask b = Val (a_price <$> head (ab_asks A)).
Proof. intros [Q HR]. exact (best_price_ok b Q A Sell HR). Qed.

Lemma book_top_event_ok b A seq symbol :
  rep b A -> book_top_event b seq symbol = Val (spec_top A seq symbol).
Proof. intros HR. unfold book_top_event. by rewrite (best_bid_ok b A HR), (best_ask_ok b A HR). Qed.

Lemma price_to_idx_ok b A price :
  rep b A -> in_i64 price ->
  price_to_idx b price =
    if in_range A price then Some (Z.to_nat (price - ob_tick_floor b)) else None.
Proof.
  intros [Q HR] Hp. pose proof (rep_core _ _ _ HR) as Hcore.
  pose proof (cr_floor _ _ Hcore) as Hf. pose proof (cr_ceil _ _ Hcore) as Hc.
  pose proof (cr_size _ _ Hcore) as Hs.
  unfold price_to_idx, in_range, Price.checked_sub, checked_sub_i64.
  rewrite (rep_floor _ _ _ HR), (rep_ticks _ _ _ HR). unfold ticks in *. unfold_ints. cbv zeta.
  case_decide; repeat case_match; try done; exfalso; rewrite ?Nat.leb_le, ?Nat.leb_gt in *; lia.
Qed.

(** ** The FOK probe *)

Section Fok.
Context (side : Side) (price acct : Z) (ot : OrderType).
#[local] Abbreviation avail := (available side price acct ot).
#[local] Abbreviation ms := (opposite side).

Lemma avail_app l1 l2 : avail (l1 ++ l2) = avail l1 + avail l2.
Proof. unfold available. by rewrite List.filter_app, map_app, sumZ_app. Qed.

Lemma fill_walk_ok arena px p ks fuel rem :
  crosses side ot price px = true ->
  seg (sm_view arena) p ks None ->
  (forall k, k ∈ ks -> exists o, sm_view arena !! k = Some o /\ order_at ms px o) ->
  0 <= rem -> (length ks < fuel)%nat ->
  fill_walk fuel arena acct (head ks) rem
    = Val (Z.max 0 (rem - avail (level_orders (sm_view arena) ks))).
Proof.
  intros Hc. revert p fuel rem. induction ks as [|k ks IH]; intros p fuel rem Hs Hk Hr Hf.
  { destruct fuel; simpl; f_equal; unfold available; simpl; lia. }
  destruct fuel as [|fuel]; [simpl in Hf; lia|].
  destruct Hs as [(o & Ho & _ & Hn) Hs]. rewrite first_or_None in Hn.
  destruct (Hk k) as (o' & Ho' & _ & Hp & Hq); [left|]. assert (o' = o) as -> by congruence.
  simpl in Hf |- *. rewrite (arena_index_ok _ _ _ Ho). simpl. unfold pay. rewrite Ho. simpl.
  rewrite available_cons. unfold eligible. simpl. rewrite Hp, Hc. simpl.
  assert (Hpos : 0 <= avail (level_orders (sm_view arena) ks)).
  { apply available_nonneg, Forall_forall. intros a (k' & Hk' & Ha)%elem_of_level_orders.
    destruct (Hk k') as (o2 & Ho2 & _ & _ & ?); [by right|].
    unfold pay in Ha. rewrite Ho2 in Ha. simplify_eq/=. lia. }
  assert (Hk' : forall k', k' ∈ ks -> exists o, sm_view arena !! k' = Some o /\ order_at ms px o).
  { intros k' ?. apply Hk. by right. }
  rewrite Hn. unfold saturating_sub_u64.
  destruct (ro_account o =? acct); simpl.
  - rewrite (IH (Some k)) by (auto; lia). done.
  - destruct (Z.eqb_spec (Z.max 0 (rem - ro_qty_remaining o)) 0); [f_equal; lia|].
    rewrite (IH (Some k)) by (auto; lia). f_equal. lia.
Qed.

Lemma crosses_further px px' :
  match side with Buy => px <= px' | Sell => px' <= px end ->
  crosses side ot price px = false -> crosses side ot price px' = false.
Proof. unfold crosses. destruct (bool_decide (ot = Market)), side; simpl; try done; lia. Qed.

Lemma fill_scan_ok b Q A idxs rem :
  rep_with b Q A -> StronglySorted (closer ms) idxs -> Forall (fun i => (i < ticks b)%nat) idxs ->
  0 <= rem ->
  fill_scan b side price acct ot idxs rem
    = Val (Z.max 0 (rem - avail (idxs ≫= fun i => level_orders (view b) (Q ms i)))).
Proof.
  intros HR. pose proof (rep_core _ _ _ HR) as Hcore.
  assert (Hat : forall i a, a ∈ level_orders (view b) (Q ms i) ->
    a_price a = ob_tick_floor b + Z.of_nat i /\ 0 < a_qty a).
  { intros i a (k & Hk & Ha)%elem_of_level_orders.
    destruct (cr_key _ _ Hcore _ _ _ Hk) as (_ & o & Ho & _ & ? & ?).
    unfold pay in Ha. rewrite Ho in Ha. simplify_eq/=. lia. }
  assert (Hpos : forall l, 0 <= avail (l ≫= fun i => level_orders (view b) (Q ms i))).
  { intros l. apply available_nonneg, Forall_forall.
    intros a (i & Ha & _)%list_elem_of_bind. by apply Hat in Ha as [? ?]. }
  intros Hs. revert rem. induction Hs as [|i idxs Hs IH Hall]; intros rem Hi Hr; cbn [fill_scan].
  { f_equal. unfold available. simpl. lia. }
  apply Forall_cons in Hi as [Hi His].
  destruct (Z.eqb_spec rem 0) as [->|Hne]; [f_equal; pose proof (Hpos (i :: idxs)) as H1; lia|].
  rewrite (core_idx_price b Q i) by done.
  destruct (crosses side ot price (ob_tick_floor b + Z.of_nat i)) eqn:Hc; cbn [negb].
  - destruct (core_slot b Q ms i Hcore Hi) as (slot & _ & Hsl & Hrep). rewrite Hsl. cbn [ebind].
    rewrite bind_cons, avail_app. destruct slot as [l|].
    + destruct Hrep as (_ & Hh & _). unfold peek_head. rewrite Hh.
      assert (Hfuel : (length (Q ms i) <= sm_len (ob_arena b))%nat).
      { rewrite sm_len_spec. apply submseteq_length, NoDup_submseteq; [apply (cr_nodup _ _ Hcore)|].
        intros k Hk. apply sm_keys_spec. destruct (cr_key _ _ Hcore _ _ _ Hk) as (_ & o & Ho & _).
        unfold view in Ho. rewrite sm_view_lookup in Ho. by rewrite Ho. }
      rewrite (fill_walk_ok _ (ob_tick_floor b + Z.of_nat i) None);
        [|done|apply (cr_seg _ _ Hcore)|intros k Hk; by apply (cr_key _ _ Hcore) in Hk as [_ ?]|lia|lia].
      cbn [ebind]. rewrite IH by (done || lia). f_equal.
      pose proof (Hpos idxs). pose proof (Hpos [i]) as H1. rewrite bind_cons, app_nil_r in H1.
      unfold view in *. lia.
    + rewrite Hrep. simpl. rewrite IH by done. f_equal.
  - f_equal. rewrite available_none; [lia|]. apply Forall_forall.
    intros a (j & Ha & Hj)%list_elem_of_bind. apply Hat in Ha as [-> _].
    eapply crosses_further; [|exact Hc]. apply elem_of_cons in Hj as [->|Hj].
    + destruct side; lia.
    + rewrite Forall_forall in Hall. specialize (Hall j Hj). destruct side; simpl in *; lia.
Qed.

Lemma scan_order_sorted s n : StronglySorted (closer s) (scan_order s n).
Proof.
  destruct s; simpl.
  - induction n as [|n IH]; [constructor|].
    rewrite seq_S, reverse_app. simpl. constructor; [done|].
    apply Forall_forall. intros j. rewrite elem_of_reverse, elem_of_seq. simpl. lia.
  - generalize 0%nat. induction n as [|n IH]; intros i; [constructor|]. simpl. constructor; [done|].
    apply Forall_forall. intros j. rewrite elem_of_seq. simpl. lia.
Qed.

Lemma can_fully_fill_ok b A qty :
  rep b A -> 0 <= qty ->
  can_fully_fill b side price qty acct ot = Val (qty <=? avail (ab_orders A ms)).
Proof.
  intros [Q HR] Hq. unfold can_fully_fill.
  pose proof (rep_core _ _ _ HR) as Hcore. rewrite (cr_len _ _ Hcore).
  rewrite (fill_scan_ok b Q A); [|done|apply scan_order_sorted| |done].
  - simpl. rewrite (rep_orders _ _ _ HR). f_equal. unfold side_view.
    set (x := avail _). lia.
  - apply Forall_forall. intros i. apply elem_of_scan.
Qed.
End Fok.

(** ** Resting an order *)

Lemma spec_insert_at s a l1 l2 :
  (forall x, x ∈ l1 -> prio s (a_price x) (a_price a) = true) ->
  (forall x, x ∈ l2 -> prio s (a_price x) (a_price a) = false) ->
  spec_insert s a (l1 ++ l2) = l1 ++ a :: l2.
Proof.
  intros H1 H2. induction l1 as [|x l1 IH]; simpl.
  - destruct l2 as [|y l2]; simpl; [done|]. by rewrite H2 by left.
  - rewrite H1 by left. f_equal. apply IH. intros ??. apply H1. by right.
Qed.

#[local] Instance closer_dec s i j : Decision (closer s i j).
Proof. destruct s; simpl; apply _. Defined.

Definition refreshed s (best : option nat) i : option nat :=
  match best with
  | None => Some i
  | Some cur => if decide (closer s i cur) then Some i else Some cur
  end.

Lemma refresh_eq s b i :
  match s with Buy => refresh_best_bid_up b i | Sell => refresh_best_ask_down b i end
  = ob_set_best s (refreshed s (ob_best b s) i) b.
Proof.
  destruct s; unfold refresh_best_bid_up, refresh_best_ask_down, refreshed; simpl.
  - destruct (ob_best_bid_idx b) as [cur|] eqn:E; [|done].
    destruct (Nat.ltb_spec cur i); case_decide; simpl in *; try done; try lia.
    destruct b; simpl in *; by subst.
  - destruct (ob_best_ask_idx b) as [cur|] eqn:E; [|done].
    destruct (Nat.ltb_spec i cur); case_decide; simpl in *; try done; try lia.
    destruct b; simpl in *; by subst.
Qed.

Lemma refreshed_ok s best Q i ks :
  best_ok s best (Q s) -> ks <> [] -> best_ok s (refreshed s best i) (upd Q s i ks s).
Proof.
  intros Hok Hks. destruct best as [cur|]; simpl in *.
  - destruct Hok as [Hne Hc]. case_decide as Hd.
    + split; [by rewrite upd_eq|]. intros j Hj. rewrite upd_ne.
      * apply Hc. destruct s; simpl in *; lia.
      * intros [= ->]. by apply closer_irrefl in Hj.
    + split.
      * destruct (decide (cur = i)) as [->|]; [by rewrite upd_eq|]. by rewrite upd_ne by congruence.
      * intros j Hj. rewrite upd_ne; [by apply Hc|]. intros [= ->]. done.
  - split; [by rewrite upd_eq|]. intros j Hj. rewrite upd_ne; [apply Hok|].
    intros [= ->]. by apply closer_irrefl in Hj.
Qed.

Lemma ids_rep_absent b Q A id :
  rep_with b Q A -> (forall a, a ∈ ab_all A -> a_id a <> id) -> ob_id_to_key b !! id = None.
Proof.
  intros HR Hid. destruct (ob_id_to_key b !! id) as [k|] eqn:E; [|done].
  apply (rep_ids _ _ _ HR) in E as (a & Ha & Heq).
  assert (Hk : is_Some (view b !! k)) by (unfold pay in Ha; by destruct (view b !! k)).
  destruct Hk as [o Ho]. destruct (cr_cover _ _ (rep_core _ _ _ HR) k o Ho) as (s & i & Hi).
  exfalso. apply (Hid a); [|done]. unfold ab_all. apply elem_of_app.
  assert (a ∈ ab_orders A s) by (apply (elem_of_side b Q A s a HR); eauto).
  destruct s; auto.
Qed.

(** The level of the new order after [push_back]. *)
Lemma level_put_push b Q s i k o arena1 arena' l' :
  core_rep b Q -> (i < ticks b)%nat -> view b !! k = None ->
  sm_view arena1 = <[k := o]> (view b) -> order_at s (ob_tick_floor b + Z.of_nat i) o ->
  level_step arena1 arena' (ob_tick_floor b + Z.of_nat i) l' (Q s i ++ [k]) (Q s i ++ [k]) ->
  (forall k', pay (sm_view arena') k' = pay (sm_view arena1) k') ->
  level_put b Q s i arena' l' (Q s i ++ [k]).
Proof.
  intros Hcore Hi Hk Hv Ho (Hlev & Hseg & Hframe & _) Hpay.
  assert (Hnew : forall s' j, k ∉ Q s' j).
  { intros s' j Hj. destruct (cr_key _ _ Hcore _ _ _ Hj) as (_ & o' & Ho' & _). congruence. }
  split; try done.
  - intros k' ??. rewrite Hframe by done. rewrite Hv, lookup_insert_ne; set_solver.
  - apply NoDup_app. split_and!; [apply (cr_nodup _ _ Hcore)| |apply NoDup_singleton].
    intros k' Hk' ->%list_elem_of_singleton. by apply Hnew in Hk'.
  - intros k' [Hk'| ->%list_elem_of_singleton]%elem_of_app.
    + destruct (cr_key _ _ Hcore _ _ _ Hk') as (_ & o' & Ho' & Hat).
      apply (pay_order_at (view b) _ _ _ _ o'); [done|done|].
      rewrite Hpay, Hv, pay_insert. case_decide; [congruence|done].
    + apply (pay_order_at (sm_view arena1) _ _ _ _ o); [|done|apply Hpay].
      by rewrite Hv, lookup_insert_eq.
  - intros k' s' j [Hk'| ->%list_elem_of_singleton]%elem_of_app Hj; [|by apply Hnew in Hj].
    eapply core_disjoint; eauto.
  - intros. set_solver.
Qed.

(** Inserting a new order into the arena and pushing it on its level. *)
Lemma push_new_ok b Q s i o arena1 key :
  core_rep b Q -> (i < ticks b)%nat -> (sm_len (ob_arena b) < sm_capacity (ob_arena b))%nat ->
  sm_insert (ob_arena b) o = (key, arena1) ->
  order_at s (ob_tick_floor b + Z.of_nat i) o -> ro_next o = None -> ro_prev o = None ->
  exists slot l' arena', get_level b s i = Val slot
    /\ push_back (match slot with
                  | Some l => l
                  | None => PriceLevel_new (ob_tick_floor b + Z.of_nat i)
                  end) key arena1 = Val (l', arena')
    /\ level_put b Q s i arena' l' (Q s i ++ [key])
    /\ sm_capacity arena' = sm_capacity (ob_arena b)
    /\ view b !! key = None /\ (key ∉ Q s i)
    /\ pay (sm_view arena') key = Some (to_a o)
    /\ (forall k', k' <> key -> pay (sm_view arena') k' = pay (view b) k').
Proof.
  intros Hcore Hi Hcap Hins Hat Hnext Hprev.
  assert (Hk : view b !! key = None).
  { pose proof (sm_view_insert_fresh (ob_arena b) o) as H. by rewrite Hins in H. }
  assert (Hv : sm_view arena1 = <[key := o]> (view b)).
  { pose proof (sm_view_insert (ob_arena b) o) as H. by rewrite Hins in H. }
  assert (Hc1 : sm_capacity arena1 = sm_capacity (ob_arena b)).
  { pose proof (sm_capacity_insert (ob_arena b) o Hcap) as H. by rewrite Hins in H. }
  destruct (core_slot b Q s i Hcore Hi) as (slot & _ & Hsl & Hrep).
  assert (Hnk : key ∉ Q s i).
  { intros Hj. destruct (cr_key _ _ Hcore _ _ _ Hj) as (_ & o' & Ho' & _). congruence. }
  destruct (push_back_ok arena1 (ob_tick_floor b + Z.of_nat i) slot (Q s i) key o)
    as (l' & arena' & Hpush & Hstep & Hpay); try done.
  { destruct slot as [l|]; [|done]. destruct Hrep as (?&?&?&Ht). split_and!; try done.
    rewrite Ht. f_equal. symmetry. apply level_qty_ext. intros k' ?. rewrite Hv, pay_insert.
    case_decide; [congruence|done]. }
  { rewrite Hv. apply seg_insert; [done|apply (cr_seg _ _ Hcore)]. }
  { apply (cr_nodup _ _ Hcore). }
  { by rewrite Hv, lookup_insert_eq. }
  exists slot, l', arena'. split_and!; [done|done| | |done|done| |].
  - by eapply level_put_push.
  - destruct Hstep as (_ & _ & _ & ->). done.
  - rewrite Hpay, Hv, pay_insert. by case_decide.
  - intros k' ?. rewrite Hpay, Hv, pay_insert. by case_decide.
Qed.

(** The position of the new order behind its level is the reference's. *)
Lemma insert_position b Q s i (pre post : list aorder) a :
  core_rep b Q -> a_price a = ob_tick_floor b + Z.of_nat i ->
  (forall x, x ∈ pre -> exists j k, closer s j i /\ k ∈ Q s j /\ pay (view b) k = Some x) ->
  (forall x, x ∈ post -> exists j k, closer s i j /\ k ∈ Q s j /\ pay (view b) k = Some x) ->
  spec_insert s a (pre ++ level_orders (view b) (Q s i) ++ post)
    = pre ++ (level_orders (view b) (Q s i) ++ [a]) ++ post.
Proof.
  intros Hcore Hpx Hpre Hpost.
  assert (Hside : forall j k x, k ∈ Q s j -> pay (view b) k = Some x ->
    a_price x = ob_tick_floor b + Z.of_nat j).
  { intros j k x Hj Ha. destruct (cr_key _ _ Hcore _ _ _ Hj) as (_ & o' & Ho' & _ & ? & _).
    unfold pay in Ha. rewrite Ho' in Ha. by simplify_eq/=. }
  rewrite app_assoc, spec_insert_at; [by rewrite <- !app_assoc|..]; rewrite Hpx.
  - intros x [(j & k & Hj & Hin & Ha)%Hpre|(k & Hin & Ha)%elem_of_level_orders]%elem_of_app;
      rewrite (Hside _ _ _ Hin Ha); unfold prio; destruct s; simpl in *; lia.
  - intros x (j & k & Hj & Hin & Ha)%Hpost.
    rewrite (Hside _ _ _ Hin Ha); unfold prio; destruct s; simpl in *; lia.
Qed.

Lemma rep_rest b A s seq acct price q arena1 key :
  rep b A -> in_range A price = true -> 0 < q < two64 ->
  (forall a, a ∈ ab_all A -> a_id a <> seq) ->
  (sm_len (ob_arena b) < sm_capacity (ob_arena b))%nat ->
  sm_insert (ob_arena b) (RestingOrder_new seq acct q s price seq) = (key, arena1) ->
  let i := Z.to_nat (price - ob_tick_floor b) in
  let b1 := ob_set_ids (<[seq := key]> (ob_id_to_key b)) (ob_set_arena arena1 b) in
  exists slot l' arena', get_level b1 s i = Val slot
    /\ push_back (match slot with Some l => l | None => PriceLevel_new price end) key arena1
         = Val (l', arena')
    /\ rep (let b2 := ob_put_level s i l' (ob_set_arena arena' b1) in
            match s with Buy => refresh_best_bid_up b2 i | Sell => refresh_best_ask_down b2 i end)
         (ab_set_orders s (spec_insert s (mkAOrder seq acct q s price seq) (ab_orders A s)) A).
Proof.
  intros [Q HR] Hrange Hq Hid Hcap Hins i b1. pose proof (rep_core _ _ _ HR) as Hcore.
  set (a := mkAOrder seq acct q s price seq).
  unfold in_range in Hrange. rewrite (rep_floor _ _ _ HR), (rep_ticks _ _ _ HR) in Hrange.
  assert (Hi : (i < ticks b)%nat) by lia.
  assert (Hpx : ob_tick_floor b + Z.of_nat i = price) by lia.
  destruct (push_new_ok b Q s i _ _ _ Hcore Hi Hcap Hins)
    as (slot & l' & arena' & Hsl & Hpush & Hput & Hc & Hk & Hnk & Hkey & Hpay); try done.
  rewrite Hpx in Hpush. exists slot, l', arena'. split_and!; [by destruct s|done|].
  destruct (put_side b Q arena' s i l' _ Hcore Hput) as (pre & post & Hv0 & Hv' & Hpre & Hpost).
  rewrite refresh_eq. exists (upd Q s i (Q s i ++ [key])).
  replace (ob_put_level s i l' (ob_set_arena arena' b1)) with
    (ob_set_ids (<[seq := key]> (ob_id_to_key b)) (ob_put_level s i l' (ob_set_arena arena' b)))
    by by destruct s.
  apply rep_put; [done|done|done| | |].
  - apply (ids_rep_insert _ (view b) _ _ a); [apply (rep_ids _ _ _ HR)| | |done|done].
    + unfold pay. by rewrite Hk.
    + by eapply ids_rep_absent.
  - replace (ob_best _ s) with (ob_best b s) by by destruct s.
    apply refreshed_ok; [apply (rep_best _ _ _ HR)|by destruct (Q s i)].
  - rewrite Hv', (rep_orders _ _ _ HR), Hv0, (insert_position b Q) by done.
    rewrite level_orders_app. simpl. rewrite Hkey.
    by rewrite (level_orders_ext (view b) (sm_view arena')) by (intros; apply Hpay; congruence).
Qed.

(** ** Cancelling *)

Lemma rep_lookup b Q A id k :
  rep_with b Q A -> ob_id_to_key b !! id = Some k ->
  exists o i ks1 ks2, view b !! k = Some o /\ ro_id o = id
    /\ Q (ro_side o) i = ks1 ++ k :: ks2 /\ (i < ticks b)%nat
    /\ ro_price o = ob_tick_floor b + Z.of_nat i /\ to_a o ∈ ab_orders A (ro_side o).
Proof.
  intros HR Hid. pose proof (rep_core _ _ _ HR) as Hcore.
  apply (rep_ids _ _ _ HR) in Hid as (a & Ha & Heq). unfold pay in Ha.
  destruct (view b !! k) as [o|] eqn:Ho; [|done]. simplify_eq/=.
  destruct (cr_cover _ _ Hcore k o Ho) as (s & i & Hi).
  destruct (cr_key _ _ Hcore _ _ _ Hi) as (Hlt & o' & Ho' & Hs & Hp & _).
  assert (o' = o) as -> by congruence. subst s.
  pose proof Hi as (ks1 & ks2 & HQ)%list_elem_of_split.
  exists o, i, ks1, ks2. split_and!; try done.
  apply (elem_of_side b Q A _ _ HR). exists i, k. unfold pay. by rewrite Ho.
Qed.

Lemma find_id_None b Q A id :
  rep_with b Q A -> ob_id_to_key b !! id = None ->
  List.find (fun o : aorder => a_id o =? id) (ab_all A) = None.
Proof.
  intros HR Hid. destruct (List.find _ _) as [a|] eqn:E; [|done].
  apply find_some in E as [Hin Heq%Z.eqb_eq]. rewrite <- list_elem_of_In in Hin.
  unfold ab_all in Hin.
  assert (exists s, a ∈ ab_orders A s) as [s Hs].
  { apply elem_of_app in Hin as [?|?]; [by exists Buy|by exists Sell]. }
  apply (elem_of_side b Q A s a HR) in Hs as (i & k & Hk & Ha).
  assert (ob_id_to_key b !! id = Some k) by (apply (rep_ids _ _ _ HR); eauto). congruence.
Qed.

Lemma find_nodup (l : list aorder) a :
  NoDup (a_id <$> l) -> a ∈ l -> List.find (fun o : aorder => a_id o =? a_id a) l = Some a.
Proof.
  induction l as [|x l IH]; intros Hnd Ha; [by apply elem_of_nil in Ha|]. simpl in *.
  apply NoDup_cons in Hnd as [Hx Hnd]. apply elem_of_cons in Ha as [->|Ha];
    [by rewrite Z.eqb_refl|].
  destruct (Z.eqb_spec (a_id x) (a_id a)) as [Heq|]; [|by apply IH].
  exfalso. apply Hx. rewrite Heq. by apply list_elem_of_fmap_2.
Qed.

Lemma filter_absent (l : list aorder) id :
  (forall x, x ∈ l -> a_id x <> id) -> List.filter (fun o : aorder => negb (a_id o =? id)) l = l.
Proof.
  induction l as [|x l IH]; intros H; [done|]. simpl.
  rewrite (proj2 (Z.eqb_neq _ _)) by (apply H; left). simpl. f_equal. apply IH.
  intros ??. apply H. by right.
Qed.

Lemma filter_middle l1 a l2 :
  NoDup (a_id <$> l1 ++ a :: l2) ->
  List.filter (fun o : aorder => negb (a_id o =? a_id a)) (l1 ++ a :: l2) = l1 ++ l2.
Proof.
  rewrite fmap_app, fmap_cons, NoDup_app. intros (_ & Hd & [Ha _]%NoDup_cons).
  rewrite List.filter_app. simpl. rewrite Z.eqb_refl. simpl.
  rewrite !filter_absent; [done|..].
  - intros x Hx Heq. apply Ha. rewrite <- Heq. by apply list_elem_of_fmap_2.
  - intros x Hx Heq. apply (Hd (a_id x)); [by apply list_elem_of_fmap_2|]. rewrite Heq. left.
Qed.

(** Dropping an order by its id changes its side only. *)
Lemma drop_id A s a L1 L2 :
  NoDup (a_id <$> ab_all A) -> ab_orders A s = L1 ++ a :: L2 ->
  let drop := List.filter (fun o : aorder => negb (a_id o =? a_id a)) in
  mkABook (drop (ab_bids A)) (drop (ab_asks A)) (ab_floor A) (ab_ticks A) (ab_capacity A)
    = ab_set_orders s (L1 ++ L2) A.
Proof.
  intros Hnd HA drop. unfold ab_all, drop in *. clear drop.
  rewrite fmap_app, NoDup_app in Hnd. destruct Hnd as (Hb & Hd & Ha).
  destruct s; simpl in *; rewrite HA in *; rewrite filter_middle by done; f_equal;
    apply filter_absent; intros x Hx Heq; apply (Hd (a_id a)).
  - rewrite fmap_app. set_solver.
  - rewrite <- Heq. by apply list_elem_of_fmap_2.
  - rewrite <- Heq. by apply list_elem_of_fmap_2.
  - rewrite fmap_app. set_solver.
Qed.

Lemma apply_cancel_ok b A seq account id A' evs :
  rep b A -> abook_ok A -> spec_cancel A seq account id = (A', evs) ->
  exists b', apply_cancel b seq account id = Val (b', evs) /\ rep b' A'.
Proof.
  intros [Q HR] HA Hspec. pose proof (rep_core _ _ _ HR) as Hcore.
  unfold apply_cancel, spec_cancel in *.
  destruct (ob_id_to_key b !! id) as [k|] eqn:Hid.
  2:{ rewrite (find_id_None b Q A) in Hspec by done. simplify_eq. exists b. split; [done|]. by exists Q. }
  destruct (rep_lookup b Q A id k HR Hid) as (o & i & ks1 & ks2 & Ho & <- & HQ & Hi & Hp & Hin).
  rewrite (find_nodup _ (to_a o)) in Hspec; [|apply (ok_ids A HA)|].
  2:{ unfold ab_all. apply elem_of_app. destruct (ro_side o); auto. }
  simpl in Hspec |- *. rewrite (arena_index_ok _ _ _ Ho). simpl.
  destruct (ro_account o =? account); simpl in *.
  2:{ simplify_eq. exists b. split; [|by exists Q]. rewrite insert_delete_eq, insert_id by done.
      by destruct b. }
  pose proof (cr_level _ _ Hcore (ro_side o) i) as Hlev. rewrite HQ in Hlev.
  destruct (core_slot b Q (ro_side o) i Hcore Hi) as (slot & Hsl & Hidx & Hrep).
  rewrite HQ in Hrep. destruct slot as [l|]; [|by destruct ks1].
  assert (Hs := cr_seg _ _ Hcore (ro_side o) i). assert (Hnd := cr_nodup _ _ Hcore (ro_side o) i).
  rewrite HQ in Hs, Hnd.
  destruct (level_remove_ok (ob_arena b) _ l ks1 k ks2 o Hrep Hs Hnd Ho)
    as (l' & arena' & Hrm & Hstep & Hgone & Hpay).
  destruct (rep_remove b Q A (ro_side o) i ks1 k ks2 o l' arena' HR HQ Ho Hstep Hgone Hpay)
    as (b' & L1 & L2 & Hfin & _ & HL & _ & Hrep').
  pose proof (drop_id A (ro_side o) (to_a o) L1 L2 (ok_ids A HA) HL) as Hdrop.
  simpl in Hdrop. rewrite Hdrop in Hspec. injection Hspec as <- <-.
  exists b'. split; [|done].
  assert (Hpi : price_to_idx (remove_id (ro_id o) b) (ro_price o) = Some i).
  { change (price_to_idx b (ro_price o) = Some i).
    pose proof (cr_floor _ _ Hcore). pose proof (cr_ceil _ _ Hcore).
    rewrite (price_to_idx_ok b A); [|by exists Q|unfold_ints; lia]. unfold in_range.
    rewrite (rep_floor _ _ _ HR), (rep_ticks _ _ _ HR), Hp.
    rewrite (proj2 (andb_true_iff _ _)) by lia. f_equal. lia. }
  rewrite Hpi. unfold get_level.
  replace (ob_ladder (remove_id (ro_id o) b) (ro_side o)) with (ob_ladder b (ro_side o))
    by by destruct (ro_side o).
  rewrite Hidx. simpl. rewrite Hrm. simpl.
  replace (ob_put_level (ro_side o) i l' (ob_set_arena arena' (remove_id (ro_id o) b))) with
    (remove_id (ro_id o) (ob_put_level (ro_side o) i l' (ob_set_arena arena' b)))
    by by destruct (ro_side o).
  by rewrite Hfin.
Qed.

(** ** The commands *)

Lemma fresh_id A seq a : abook_ok A -> seq_fresh A seq -> a ∈ ab_all A -> a_id a <> seq.
Proof.
  intros HA Hf Hin. unfold seq_fresh in Hf. rewrite Forall_forall in Hf. specialize (Hf a Hin).
  unfold ab_all in Hin.
  assert (exists s, a ∈ ab_orders A s) as [s Hs].
  { apply elem_of_app in Hin as [?|?]; [by exists Buy|by exists Sell]. }
  pose proof (ok_orders A HA s) as Hok. rewrite Forall_forall in Hok.
  destruct (Hok a Hs) as (_ & _ & _ & ?). lia.
Qed.

(** The tail of [apply_new_order] once quantity is left to rest. *)
Lemma rest_tail_ok b A seq ts_ns account coid symbol side price q evs :
  rep b A -> abook_ok A -> seq_fresh A seq -> in_range A price = true -> 0 < q < two64 ->
  let reject reason := Rejected seq seq account coid reason in
  let price_idx := Z.to_nat (price - ob_tick_floor b) in
  let A2 := ab_set_orders side
              (spec_insert side (mkAOrder seq account q side price seq) (ab_orders A side)) A in
  exists b', (if (sm_capacity (ob_arena b) <=? sm_len (ob_arena b))%nat then
            Val (b, evs ++ [reject RR_ArenaFull])
          else
            let resting := RestingOrder_new seq account q side price seq in
            let '(key, arena) := sm_insert (ob_arena b) resting in
            let b := ob_set_ids (<[seq := key]> (ob_id_to_key b)) (ob_set_arena arena b) in
            let! slot := get_level b side price_idx in
            let pl := match slot with Some l => l | None => PriceLevel_new price end in
            let! '(pl, arena) := push_back pl key (ob_arena b) in
            let b := ob_put_level side price_idx pl (ob_set_arena arena b) in
            let b := match side with
                     | Buy => refresh_best_bid_up b price_idx
                     | Sell => refresh_best_ask_down b price_idx
                     end in
            let! top := book_top_event b seq symbol in
            Val (b, evs ++
                   [Accepted seq seq ts_ns symbol account coid side price q; top]))
    = Val (b', if (ab_capacity A <=? length (ab_all A))%nat then evs ++ [reject RR_ArenaFull]
               else evs ++ [Accepted seq seq ts_ns symbol account coid side price q;
                            spec_top A2 seq symbol])
    /\ rep b' (if (ab_capacity A <=? length (ab_all A))%nat then A else A2).
Proof.
  intros HR HA Hfresh Hrange Hq reject price_idx A2.
  assert (Hcap : ab_capacity A = sm_capacity (ob_arena b) /\ sm_len (ob_arena b) = length (ab_all A)).
  { destruct HR as [Q HR]. split; [apply (rep_capacity _ _ _ HR)|by eapply sm_len_rep]. }
  destruct Hcap as [Hcap Hlen]. rewrite Hcap, <- Hlen.
  destruct (Nat.leb_spec (sm_capacity (ob_arena b)) (sm_len (ob_arena b))) as [Hfull|Hroom];
    [by exists b|].
  cbv zeta. destruct (sm_insert (ob_arena b) _) as [key arena1] eqn:Hins.
  destruct (rep_rest b A side seq account price q arena1 key HR Hrange Hq) as
    (slot & l' & arena' & Hsl & Hpush & Hrep'); try done.
  { intros a Ha. by eapply fresh_id. }
  eexists. unfold price_idx. rewrite Hsl. cbn [ebind]. cbn [ob_arena ob_set_ids ob_set_arena].
  rewrite Hpush. cbn [ebind]. rewrite (book_top_event_ok _ A2) by done. by split.
Qed.

(** The range check and the fill-or-kill check of [apply_new_order]. *)
Lemma range_check_ok b A ot price :
  rep b A -> in_i64 price ->
  (if bool_decide (ot = Limit) then price_to_idx b price else Some 0%nat)
  = if bool_decide (ot = Limit) && negb (in_range A price) then None
    else Some (if bool_decide (ot = Limit) then Z.to_nat (price - ob_tick_floor b) else 0%nat).
Proof. intros. rewrite (price_to_idx_ok b A) by done. case_bool_decide; [|done]. by destruct (in_range A price). Qed.

Lemma fok_check_ok b A side price qty account ot tif :
  rep b A -> 0 <= qty ->
  (if bool_decide (tif = Fok) then can_fully_fill b side price qty account ot else Val true)
  = Val (negb (bool_decide (tif = Fok) && (available side price account ot (ab_orders A (opposite side)) <? qty))).
Proof.
  intros. rewrite (can_fully_fill_ok side price account ot b A) by (done || lia).
  destruct (bool_decide (tif = Fok)); [|done]. simpl. f_equal. lia.
Qed.

Lemma apply_new_order_ok b A seq ts_ns account coid symbol side price qty ot tif A' evs :
  rep b A -> abook_ok A -> seq_fresh A seq -> in_i64 price -> in_u64 qty ->
  spec_new_order A seq ts_ns account coid symbol side price qty ot tif = (A', evs) ->
  exists b', apply_new_order b seq ts_ns account coid symbol side price qty ot tif = Val (b', evs)
    /\ rep b' A'.
Proof.
  intros HR HA Hfresh Hprice Hqty Hspec.
  unfold apply_new_order, spec_new_order in *. unfold in_u64 in Hqty.
  destruct (Z.eqb_spec qty 0) as [->|Hq0].
  { simplify_eq. by exists b. }
  assert ((qty <=? 0) = false) as -> by lia.
  rewrite (range_check_ok b A) by done. destruct (bool_decide (ot = Limit) && negb (in_range A price)) eqn:Hr.
  { simplify_eq. by exists b. }
  rewrite (fok_check_ok b A) by (done || lia). simpl. rewrite negb_involutive.
  destruct (bool_decide (tif = Fok) && _) eqn:Hf; [simplify_eq; by exists b|].
  destruct (spec_match _ _ _ _ _ _ _ _ _ _) as [[r q] ev] eqn:Hm.
  destruct (match_against_book_ok seq ts_ns symbol side price seq account ot b A qty r q ev HR)
    as (b1 & Hrun & HR1); [done|done|].
  rewrite Hrun. cbn [ebind]. apply spec_match_run in Hm.
  assert (Hnn : 0 <= qty) by lia.
  pose proof (run_range _ _ _ _ _ _ _ _ _ _ _ _ _ Hm Hnn (qty_pos_of_ok' A _ HA)) as Hq'.
  destruct (run_suffix _ _ _ _ _ _ _ _ _ _ _ _ _ Hm Hnn) as (pre & suf & Hl & Heq & Hpos).
  specialize (Hpos (qty_pos_of_ok A _ HA)).
  assert (HA1 : abook_ok (ab_set_orders (opposite side) r A)) by by eapply abook_ok_shrink.
  assert (Hfresh1 : seq_fresh (ab_set_orders (opposite side) r A) seq) by by eapply seq_fresh_shrink.
  destruct (Z.eqb_spec q 0) as [->|Hqn].
  { simplify_eq. exists b1. by rewrite (book_top_event_ok b1 _ seq symbol HR1). }
  destruct (bool_decide (tif = Ioc) || _ || _) eqn:Htif.
  { injection Hspec as <- <-. exists b1. rewrite (book_top_event_ok b1 _ seq symbol HR1). simpl.
    destruct (q <? qty); by rewrite <- ?app_assoc. }
  assert (ot = Limit) as -> by (destruct ot; [done|]; by rewrite orb_true_r in Htif).
  simpl in Hr. apply negb_false_iff in Hr.
  assert (Hrange1 : in_range (ab_set_orders (opposite side) r A) price = true)
    by (unfold in_range in *; by autorewrite with abook).
  destruct (rest_tail_ok b1 _ seq ts_ns account coid symbol side price q ev HR1 HA1 Hfresh1 Hrange1)
    as (b2 & Hb2 & HR2); [lia|].
  rewrite ab_capacity_set in *. exists b2.
  assert (Hfl : ob_tick_floor b1 = ob_tick_floor b).
  { destruct HR as [Q HR], HR1 as [Q1 HR1].
    rewrite <- (rep_floor _ _ _ HR), <- (rep_floor _ _ _ HR1). by rewrite ab_floor_set. }
  rewrite Hfl in Hb2. destruct (ab_capacity A <=? _)%nat; simplify_eq; by split.
Qed.

(** [apply] computes the reference transition: it returns, with the same
    events, a book that represents the reference's result. *)
Lemma apply_ok b A cmd :
  rep b A -> abook_ok A -> seq_fresh A (sc_seq cmd) -> cmd_ok cmd ->
  exists b', apply b cmd = Val (b', (spec_apply A cmd).2) /\ rep b' (spec_apply A cmd).1.
Proof.
  destruct cmd as [term seq ts_ns [account coid symbol side price qty ot tif|account oid| |]];
    unfold cmd_ok, apply, spec_apply; simpl; intros HR HA Hfresh Hcmd.
  - destruct (spec_new_order _ _ _ _ _ _ _ _ _ _ _) as [A' evs] eqn:E. destruct Hcmd.
    by apply (apply_new_order_ok b A _ _ _ _ _ _ _ _ _ _ A' evs).
  - destruct (spec_cancel _ _ _ _) as [A' evs] eqn:E.
    by apply (apply_cancel_ok b A _ _ _ A' evs).
  - by exists b.
  - by exists b.
Qed.

(** ** A new book *)

Definition new_abook (cfg : BookConfig) : abook :=
  mkABook [] [] (cfg_tick_floor cfg) (cfg_num_ticks cfg)
    (sm_capacity (ob_arena (OrderBook_new cfg))).

(** The configurations the constructor is called with: a representable floor
    and a ladder whose prices are representable. *)
Definition cfg_ok (cfg : BookConfig) : Prop :=
  in_i64 (cfg_tick_floor cfg) /\ cfg_tick_floor cfg + Z.of_nat (cfg_num_ticks cfg) <= two63
  /\ Z.of_nat (cfg_num_ticks cfg) < two63.

Lemma new_abook_ok cfg : abook_ok (new_abook cfg).
Proof. split; [by intros []|intros []; constructor|set_solver|constructor]. Qed.

Lemma OrderBook_new_rep cfg : cfg_ok cfg -> rep (OrderBook_new cfg) (new_abook cfg).
Proof.
  intros (Hf & Hc & Hs). exists (fun _ _ => []).
  assert (Hv : view (OrderBook_new cfg) = ∅).
  { unfold OrderBook_new, view. set (a := sm_with_capacity _). set (o := RestingOrder_new _ _ _ _ _ _).
    pose proof (sm_view_insert a o) as H1. pose proof (sm_view_insert_fresh a o) as H2.
    destruct (sm_insert a o) as [k a1]. simpl in *.
    pose proof (sm_view_remove a1 k) as H3. destruct (sm_remove a1 k) as [? a2]. simpl in *.
    rewrite H3, H1, delete_insert_id by done. apply sm_view_empty. }
  assert (Hl : forall s, ob_ladder (OrderBook_new cfg) s = replicate (cfg_num_ticks cfg) None).
  { intros s. unfold OrderBook_new. repeat case_match. by destruct s. }
  assert (Ht : ticks (OrderBook_new cfg) = cfg_num_ticks cfg).
  { change (ticks (OrderBook_new cfg)) with (length (ob_ladder (OrderBook_new cfg) Buy)).
    by rewrite Hl, length_replicate. }
  assert (Hfl : ob_tick_floor (OrderBook_new cfg) = cfg_tick_floor cfg).
  { unfold OrderBook_new. by repeat case_match. }
  split.
  - split; rewrite ?Hfl, ?Ht; try done.
    + intros s. by rewrite Hl, length_replicate.
    + intros s i slot. rewrite Hl. intros [-> _]%lookup_replicate. done.
    + constructor.
    + intros s i k Hk. by apply elem_of_nil in Hk.
    + intros k o. by rewrite Hv, lookup_empty.
  - rewrite Hv. assert (Hid : ob_id_to_key (OrderBook_new cfg) = ∅).
    { unfold OrderBook_new. by repeat case_match. }
    intros id k. rewrite Hid, lookup_empty. unfold pay. rewrite lookup_empty. naive_solver.
  - intros s. assert (ob_best (OrderBook_new cfg) s = None) as ->; [|done].
    unfold OrderBook_new. repeat case_match. by destruct s.
  - intros s. unfold side_view. simpl. induction (scan_order s _); by destruct s.
  - done.
  - done.
  - done.
Qed.
End BookRefine.
