(* ===== verification/BookTheorems.v ===== *)
(** * BookTheorems: what the order book guarantees

    Theorems about [apply] (OrderBook.v) on every book reachable from
    [OrderBook_new] by commands with rising sequence numbers, for every
    implementation of the arena.  They are read off the refinement of
    BookRefine.v; the statements speak of the concrete book only (orders found
    by [get_order], the events, the best prices). *)

From S2P Require Import Prelude CoreTypes SlotMap OrderBook.
From S2P Require Import BookSpec BookMarket BookRep BookInv BookRefine.
#[local] Open Scope Z_scope.

Section Reach.
Context {SM : SlotMapApi}.

(** [book_reach cfg b last]: [b] is reached from the new book by commands
    whose sequence numbers rise, the last one being [last]. *)
Inductive book_reach (cfg : BookConfig) : OrderBook -> Z -> Prop :=
| reach_new last : cfg_ok cfg -> book_reach cfg (OrderBook_new cfg) last
| reach_step b last cmd b' evs :
    book_reach cfg b last -> last < sc_seq cmd -> cmd_ok cmd ->
    apply b cmd = Val (b', evs) -> book_reach cfg b' (sc_seq cmd).

(** The order with this id as a client sees it, without its list links. *)
Definition client_order (b : OrderBook) (id : Z) : option aorder :=
  option_map to_a (get_order b id).

Definition open_orders (b : OrderBook) : list aorder := map to_a (sm_values (ob_arena b)).

Context {SML : SlotMapLaws SM}.
Implicit Types (b : OrderBook) (A : abook) (cmd : SequencedCommand).

(** ** The invariant of reachable books *)

Definition book_inv (cfg : BookConfig) b (last : Z) : Prop :=
  exists A, rep b A /\ abook_ok A /\ Forall (fun o => a_seq o <= last) (ab_all A)
    /\ ab_floor A = cfg_tick_floor cfg /\ ab_ticks A = cfg_num_ticks cfg.

Lemma seqs_fresh A last seq :
  Forall (fun o => a_seq o <= last) (ab_all A) -> last < seq -> seq_fresh A seq.
Proof. intros Hf Hlt. eapply Forall_impl; [exact Hf|]. simpl. lia. Qed.

Lemma spec_apply_frame A cmd :
  ab_floor (spec_apply A cmd).1 = ab_floor A /\ ab_ticks (spec_apply A cmd).1 = ab_ticks A.
Proof.
  unfold spec_apply, spec_new_order, spec_cancel.
  repeat case_match; simplify_eq/=; autorewrite with abook; done.
Qed.

(** A property of orders that does not depend on their quantity. *)
Definition qty_free (P : aorder -> Prop) : Prop := forall x y, strip x = strip y -> P y -> P x.

Lemma spec_match_orders seq ts_ns symbol side price oid acct ot makers q r q' ev (P : aorder -> Prop) :
  match_run seq ts_ns symbol side price oid acct ot makers q r q' ev -> 0 <= q -> qty_free P ->
  Forall P makers -> Forall P r.
Proof.
  intros Hm Hq HP Hf. destruct (run_suffix _ _ _ _ _ _ _ _ _ _ _ _ _ Hm Hq) as (pre & s & -> & Heq & _).
  apply Forall_app in Hf as [_ Hf]. rewrite Forall_forall in *. intros x Hx.
  destruct (strip_elem _ _ _ Heq Hx) as (y & Hy & Hxy). eauto.
Qed.

Lemma Forall_sides (P : aorder -> Prop) A s l :
  Forall P (ab_all A) -> Forall P l -> Forall P (ab_all (ab_set_orders s l A)).
Proof. unfold ab_all. rewrite !Forall_app. intros [? ?] ?. by destruct s. Qed.

Lemma Forall_side (P : aorder -> Prop) A s : Forall P (ab_all A) -> Forall P (ab_orders A s).
Proof. unfold ab_all. rewrite Forall_app. intros [? ?]. by destruct s. Qed.

(** What holds of every open order and of the new one holds afterwards. *)
Lemma spec_apply_orders (P : aorder -> Prop) A cmd :
  cmd_ok cmd -> qty_free P -> Forall P (ab_all A) ->
  (forall account coid symbol side price qty ot tif q,
     sc_cmd cmd = Inbound_NewOrder account coid symbol side price qty ot tif ->
     P (mkAOrder (sc_seq cmd) account q side price (sc_seq cmd))) ->
  Forall P (ab_all (spec_apply A cmd).1).
Proof.
  destruct cmd as [term seq ts_ns [account coid symbol side price qty ot tif|account oid| |]];
    unfold cmd_ok, spec_apply; simpl; intros Hcmd HP Hf Hnew; try done.
  - unfold spec_new_order.
    destruct (qty =? 0); [done|]. destruct (_ && _); [done|]. destruct (_ && _); [done|].
    destruct (spec_match _ _ _ _ _ _ _ _ _ _) as [[r q] ev] eqn:Hm.
    apply spec_match_run in Hm. destruct Hcmd as [_ Hqty].
    assert (Hr : Forall P r).
    { eapply (spec_match_orders _ _ _ _ _ _ _ _ _ _ _ _ _ P Hm); [unfold in_u64 in Hqty; lia|done|by apply Forall_side]. }
    repeat case_match; simpl; repeat apply Forall_sides; try done.
    rewrite spec_insert_perm. constructor; [by eapply Hnew|]. by apply Forall_side, Forall_sides.
  - unfold spec_cancel. repeat case_match; simpl; try done.
    unfold ab_all in *. simpl. rewrite <- List.filter_app. rewrite Forall_forall in *.
    intros x. rewrite list_elem_of_In, filter_In, <- list_elem_of_In. naive_solver.
Qed.

Lemma spec_apply_seqs A cmd last :
  cmd_ok cmd -> Forall (fun o => a_seq o <= last) (ab_all A) -> last < sc_seq cmd ->
  Forall (fun o => a_seq o <= sc_seq cmd) (ab_all (spec_apply A cmd).1).
Proof.
  intros Hcmd Hf Hlt. apply spec_apply_orders; [done| | |].
  - intros x y (_ & _ & -> & _)%strip_fields. done.
  - eapply Forall_impl; [exact Hf|]. simpl. lia.
  - intros. simpl. lia.
Qed.

Lemma inv_step cfg b last cmd :
  book_inv cfg b last -> last < sc_seq cmd -> cmd_ok cmd ->
  exists A b', rep b A /\ abook_ok A /\ seq_fresh A (sc_seq cmd)
    /\ apply b cmd = Val (b', (spec_apply A cmd).2) /\ rep b' (spec_apply A cmd).1
    /\ abook_ok (spec_apply A cmd).1 /\ book_inv cfg b' (sc_seq cmd).
Proof.
  intros (A & HR & HA & Hs & Hfl & Ht) Hlt Hcmd.
  assert (Hfresh : seq_fresh A (sc_seq cmd)) by by eapply seqs_fresh.
  destruct (apply_ok b A cmd HR HA Hfresh Hcmd) as (b' & Hb & HR').
  assert (HA' : abook_ok (spec_apply A cmd).1) by by apply spec_apply_ok.
  destruct (spec_apply_frame A cmd) as [Hf1 Hf2].
  exists A, b'. split_and!; try done. exists (spec_apply A cmd).1.
  split_and!; try done; try congruence. by eapply spec_apply_seqs.
Qed.

Lemma reach_inv cfg b last : book_reach cfg b last -> book_inv cfg b last.
Proof.
  induction 1 as [last Hcfg|b last cmd b' evs _ IH Hlt Hcmd Hap].
  - exists (new_abook cfg). split_and!; [by apply OrderBook_new_rep|apply new_abook_ok|constructor|done|done].
  - destruct (inv_step cfg b last cmd IH Hlt Hcmd) as (A & b2 & _ & _ & _ & Hap' & _ & _ & ?).
    rewrite Hap in Hap'. injection Hap' as -> _. done.
Qed.

(** ** Orders of the concrete book *)

Lemma client_order_rep b A id a :
  rep b A -> client_order b id = Some a <-> a ∈ ab_all A /\ a_id a = id.
Proof.
  intros [Q HR]. unfold client_order, get_order, ab_all.
  assert (Hall : a ∈ ab_bids A ++ ab_asks A <-> exists k, pay (view b) k = Some a).
  { rewrite elem_of_app.
    pose proof (elem_of_side b Q A Buy a HR) as HB. pose proof (elem_of_side b Q A Sell a HR) as HS.
    simpl in HB, HS. rewrite HB, HS. split; [naive_solver|]. intros (k & Hk).
    assert (Ho : is_Some (view b !! k)) by (unfold pay in Hk; by destruct (view b !! k)).
    destruct Ho as [o Ho]. destruct (cr_cover _ _ (rep_core _ _ _ HR) k o Ho) as ([] & i & ?); eauto. }
  rewrite Hall. split.
  - destruct (ob_id_to_key b !! id) as [k|] eqn:Hid; [|done]. rewrite <- sm_view_lookup.
    intros Ha. split; [by exists k|].
    apply (rep_ids _ _ _ HR) in Hid as (a' & Ha' & <-). unfold pay, view in Ha'. congruence.
  - intros [(k & Hk) Hid]. assert (ob_id_to_key b !! id = Some k) as ->
      by (apply (rep_ids _ _ _ HR); eauto).
    by rewrite <- sm_view_lookup.
Qed.

Lemma open_orders_rep b Q A : rep_with b Q A -> open_orders b ≡ₚ ab_all A.
Proof.
  intros HR. pose proof (rep_core _ _ _ HR) as Hcore.
  assert (Hk : sm_keys (ob_arena b) ≡ₚ keys_view Q Buy (ticks b) ++ keys_view Q Sell (ticks b)).
  { apply NoDup_Permutation; [apply sm_keys_nodup|by eapply keys_view_nodup|].
    intros k. rewrite sm_keys_spec, <- sm_view_lookup. symmetry. by apply keys_view_spec. }
  assert (Hv : forall s, ab_orders A s = omap (pay (view b)) (keys_view Q s (ticks b))).
  { intros s. rewrite (rep_orders _ _ _ HR). unfold side_view, keys_view.
    induction (scan_order s (ticks b)) as [|i l IH]; [done|].
    rewrite !bind_cons, omap_app, IH. f_equal.
    induction (Q s i) as [|k ks IHk]; [done|]. simpl.
    destruct (pay (view b) k); [f_equal|]; apply IHk. }
  unfold open_orders, ab_all. rewrite sm_values_spec.
  pose proof (Hv Buy) as HB. pose proof (Hv Sell) as HS. simpl in HB, HS.
  rewrite HB, HS, <- omap_app, <- Hk. clear Hk.
  induction (sm_keys (ob_arena b)) as [|k ks IH]; [done|]. simpl. unfold pay, view.
  rewrite sm_view_lookup. destruct (sm_get (ob_arena b) k); simpl; [constructor|]; apply IH.
Qed.

(** A reachable book and one more command. *)
Lemma reach_apply cfg b last cmd :
  book_reach cfg b last -> last < sc_seq cmd -> cmd_ok cmd ->
  exists A b', rep b A /\ abook_ok A /\ seq_fresh A (sc_seq cmd)
    /\ apply b cmd = Val (b', (spec_apply A cmd).2) /\ rep b' (spec_apply A cmd).1
    /\ abook_ok (spec_apply A cmd).1.
Proof.
  intros Hr%reach_inv Hlt Hcmd.
  destruct (inv_step cfg b last cmd Hr Hlt Hcmd) as (A & b' & ? & ? & ? & ? & ? & ? & _).
  by exists A, b'.
Qed.

(** The same for a new order whose result is known. *)
Lemma reach_new_order cfg b last term seq ts_ns account coid symbol side price qty ot tif b' evs :
  book_reach cfg b last -> last < seq -> in_i64 price -> in_u64 qty ->
  apply b (mkSC term seq ts_ns (Inbound_NewOrder account coid symbol side price qty ot tif))
    = Val (b', evs) ->
  exists A A', rep b A /\ abook_ok A /\ seq_fresh A seq /\ rep b' A' /\ abook_ok A'
    /\ new_order_out A seq ts_ns account coid symbol side price qty ot tif A' evs.
Proof.
  intros Hr Hlt Hp Hq Hap.
  destruct (reach_apply cfg b last
    (mkSC term seq ts_ns (Inbound_NewOrder account coid symbol side price qty ot tif))
    Hr Hlt (conj Hp Hq)) as (A & b2 & HR & HA & Hf & Hap2 & HR2 & HA2).
  rewrite Hap in Hap2. injection Hap2 as <- ->. eexists A, _. split_and!; try done.
  apply spec_new_order_out, surjective_pairing.
Qed.

Lemma client_order_in b A id a : rep b A -> a ∈ ab_all A -> a_id a = id -> client_order b id = Some a.
Proof. intros HR ??. by apply (client_order_rep b A). Qed.

Lemma client_order_None b A id :
  rep b A -> (forall a, a ∈ ab_all A -> a_id a <> id) -> client_order b id = None.
Proof.
  intros HR H. destruct (client_order b id) as [a|] eqn:E; [|done].
  apply (client_order_rep b A) in E as [Ha Hid]; [|done]. by apply H in Ha.
Qed.

Lemma elem_of_sides A a s : abook_ok A -> a ∈ ab_all A -> a_side a = s -> a ∈ ab_orders A s.
Proof.
  intros HA Ha Hs. unfold ab_all in Ha. apply elem_of_app in Ha as [Ha|Ha].
  - pose proof (ok_orders A HA Buy) as H. rewrite Forall_forall in H.
    destruct (H a Ha) as [Hb _]. by rewrite <- Hs, Hb.
  - pose proof (ok_orders A HA Sell) as H. rewrite Forall_forall in H.
    destruct (H a Ha) as [Hb _]. by rewrite <- Hs, Hb.
Qed.

Lemma sides_elem_of A a s : a ∈ ab_orders A s -> a ∈ ab_all A.
Proof. unfold ab_all. destruct s; set_solver. Qed.

Lemma side_of A a s : abook_ok A -> a ∈ ab_orders A s -> a_side a = s.
Proof.
  intros HA Ha. pose proof (ok_orders A HA s) as H. rewrite Forall_forall in H.
  by destruct (H a Ha).
Qed.

Lemma ids_of_side A s : abook_ok A -> NoDup (a_id <$> ab_orders A s).
Proof.
  intros HA. pose proof (ok_ids A HA) as H. unfold ab_all in H.
  rewrite fmap_app, NoDup_app in H. destruct H as (? & _ & ?). by destruct s.
Qed.

(** The events of the matching loop are all but the closing ones. *)
Lemma out_trade A seq ts_ns account coid symbol side price qty ot tif A' evs e mid :
  new_order_out A seq ts_ns account coid symbol side price qty ot tif A' evs ->
  e ∈ evs -> ev_maker e = Some mid ->
  exists r q ev tl,
    match_run seq ts_ns symbol side price seq account ot (ab_orders A (opposite side)) qty r q ev
    /\ e ∈ ev /\ evs = ev ++ tl /\ forall x, x ∈ tl -> ev_maker x <> None -> False.
Proof.
  intros Hout He Hm.
  destruct Hout as [reason _|r ev _ Hrun|r q ev last _ Hrun _ _ _ ->|r q ev _ Hrun _ _ _ _
    |r q ev A2 _ Hrun _ _ _ _ ->];
    [apply list_elem_of_singleton in He as ->; done|..];
    apply elem_of_app in He as [He|He];
    try (do 4 eexists; split_and!; [done|done|done|]; intros x Hx; try destruct (q <? qty); set_solver);
    exfalso; try destruct (q <? qty); set_solver.
Qed.

Lemma run_evs_ok A seq ts_ns account symbol side price qty ot r q ev e :
  abook_ok A -> 0 <= qty ->
  match_run seq ts_ns symbol side price seq account ot (ab_orders A (opposite side)) qty r q ev ->
  e ∈ ev -> run_event_ok seq ts_ns symbol side price seq account ot (ab_orders A (opposite side)) e.
Proof.
  intros HA Hq Hrun He.
  assert (Hev := run_events _ _ _ _ _ _ _ _ _ _ _ _ _ Hrun Hq (qty_pos_of_ok' A _ HA)).
  rewrite Forall_forall in Hev. by apply Hev.
Qed.

(** What a cancel does to the orders a client sees. *)
Definition cancel_effect b b' (seq account oid : Z) (evs : list EngineEvent) : Prop :=
  match client_order b oid with
  | None => evs = [Rejected seq oid account 0 RR_OrderNotFound]
            /\ forall id, client_order b' id = client_order b id
  | Some o =>
      if decide (a_account o = account) then
        evs = [Cancelled seq oid] /\ client_order b' oid = None
        /\ forall id, id <> oid -> client_order b' id = client_order b id
      else evs = [Rejected seq oid account 0 RR_WrongAccount]
           /\ forall id, client_order b' id = client_order b id
  end.

Lemma cancel_drop_elem A oid x :
  x ∈ ab_all (mkABook
        (List.filter (fun o => negb (a_id o =? oid)) (ab_bids A))
        (List.filter (fun o => negb (a_id o =? oid)) (ab_asks A))
        (ab_floor A) (ab_ticks A) (ab_capacity A)) <-> x ∈ ab_all A /\ a_id x <> oid.
Proof.
  unfold ab_all. simpl. rewrite <- List.filter_app.
  by rewrite !list_elem_of_In, filter_In, negb_true_iff, Z.eqb_neq.
Qed.

Lemma spec_cancel_inv cfg A b' last seq account oid :
  abook_ok A -> Forall (fun o => a_seq o <= last) (ab_all A) ->
  ab_floor A = cfg_tick_floor cfg -> ab_ticks A = cfg_num_ticks cfg ->
  rep b' (spec_cancel A seq account oid).1 -> book_inv cfg b' last.
Proof.
  intros HA Hs Hfl Ht HR. unfold spec_cancel in HR.
  destruct (List.find _ _); [|by exists A]. destruct (negb _); [by exists A|].
  eexists. split; [exact HR|]. simpl. split_and!; try done; [by apply abook_ok_filter|].
  rewrite Forall_forall in *. intros x [Hx _]%cancel_drop_elem. by apply Hs.
Qed.

(** A cancel, whatever its sequence number: its effect, and the invariant. *)
Lemma cancel_inv cfg b last seq account oid :
  book_inv cfg b last ->
  exists b' evs, apply_cancel b seq account oid = Val (b', evs)
    /\ cancel_effect b b' seq account oid evs /\ book_inv cfg b' last.
Proof.
  intros (A & HR & HA & Hs & Hfl & Ht).
  destruct (spec_cancel A seq account oid) as [A' evs] eqn:Hspec.
  destruct (apply_cancel_ok b A seq account oid A' evs HR HA Hspec) as (b' & Hap & HR').
  exists b', evs. split; [done|].
  split; [|eapply (spec_cancel_inv cfg A b' last seq account oid); eauto; by rewrite Hspec].
  assert (Hsame : A' = A -> forall id, client_order b' id = client_order b id).
  { intros -> id. apply option_eq. intros a.
    by rewrite (client_order_rep b A id a HR), (client_order_rep b' A id a HR'). }
  unfold cancel_effect, spec_cancel in *.
  destruct (List.find (fun o => a_id o =? oid) (ab_all A)) as [a|] eqn:Hfind.
  - apply find_some in Hfind as [Hin Heq%Z.eqb_eq]. rewrite <- list_elem_of_In in Hin.
    rewrite (client_order_in b A oid a) by done.
    destruct (Z.eqb_spec (a_account a) account); simpl in *; injection Hspec as <- <-.
    + rewrite decide_True by done. split; [done|]. split.
      * eapply client_order_None; [exact HR'|]. intros x [_ ?]%cancel_drop_elem. done.
      * intros id Hne. apply option_eq. intros x.
        rewrite (client_order_rep b A id x HR), (client_order_rep b' _ id x HR'), cancel_drop_elem.
        naive_solver.
    + rewrite decide_False by done. split; [done|]. by apply Hsame.
  - injection Hspec as <- <-. rewrite (client_order_None b A oid); [|done|].
    + split; [done|]. by apply Hsame.
    + intros a Ha Heq. apply (find_none _ _) with (x := a) in Hfind; [lia|]. by apply list_elem_of_In.
Qed.

(** ** The theorems *)

(** C1. Refinement: on every reachable book, [apply] returns without a panic
    and within the loop bounds, emits exactly the events of the price-time
    priority reference [spec_apply], and the book it returns represents the
    reference's next state, which is again well formed (sides sorted by
    price and arrival, uncrossed, ids unique, quantities positive). *)
Theorem book_apply_refines cfg b last cmd :
  book_reach cfg b last -> last < sc_seq cmd -> cmd_ok cmd ->
  exists A b', rep b A /\ abook_ok A
    /\ apply b cmd = Val (b', (spec_apply A cmd).2)
    /\ rep b' (spec_apply A cmd).1 /\ abook_ok (spec_apply A cmd).1.
Proof.
  intros Hr Hlt Hcmd.
  destruct (reach_apply cfg b last cmd Hr Hlt Hcmd) as (A & b' & ? & ? & _ & ? & ? & ?).
  by exists A, b'.
Qed.

(** C3. Every trade of a new order is against an order that rested in the book
    before it, on the other side, of another account (self-trade
    prevention), at that order's price, which the aggressor's limit accepts;
    it takes at most what that order had, and reports exactly what it leaves of
    both: of the resting order, and of the aggressor's quantity after this trade
    and every trade before it. *)
Theorem book_trades_ok cfg b last term seq ts_ns account coid symbol side price qty ot tif b' evs
    pre post s1 t1 y1 px fill mo tor mid tid macct tacct mside mrem trem :
  book_reach cfg b last -> last < seq -> in_i64 price -> in_u64 qty ->
  apply b (mkSC term seq ts_ns (Inbound_NewOrder account coid symbol side price qty ot tif))
    = Val (b', evs) ->
  evs = pre ++ Trade s1 t1 y1 px fill mo tor mid tid macct tacct mside mrem trem :: post ->
  exists m, client_order b mid = Some m
    /\ a_side m = opposite side /\ mside = opposite side /\ mo = mid
    /\ a_account m = macct /\ macct <> account /\ tacct = account /\ tid = seq /\ tor = seq
    /\ s1 = seq /\ t1 = ts_ns /\ y1 = symbol
    /\ a_price m = px /\ crosses side ot price px = true
    /\ 0 < fill <= a_qty m /\ mrem = a_qty m - fill
    /\ trem = qty - traded pre - fill /\ 0 <= trem.
Proof.
  intros Hr Hlt Hp Hq Hap ->. set (e := Trade _ _ _ _ _ _ _ _ _ _ _ _ _ _) in *.
  assert (He : e ∈ pre ++ e :: post) by (apply elem_of_app; right; left).
  destruct (reach_new_order _ _ _ _ _ _ _ _ _ _ _ _ _ _ _ _ Hr Hlt Hp Hq Hap)
    as (A & A' & HR & HA & Hf & _ & _ & Hout).
  destruct (out_trade _ _ _ _ _ _ _ _ _ _ _ _ _ _ mid Hout He eq_refl)
    as (r & q & ev & tl & Hrun & Hin & Hsplit & Htl).
  assert (Hnn : 0 <= qty) by (unfold in_u64 in Hq; lia).
  assert (Hev : exists post', ev = pre ++ e :: post').
  { apply app_eq_inv in Hsplit as [(k & -> & Hk)|(k & -> & Hk)].
    - exfalso. apply (Htl e); [|done]. rewrite Hk. apply elem_of_app. right. left.
    - destruct k as [|x k]; [|injection Hk as <- _; by exists k]. exfalso. simpl in Hk.
      apply (Htl e); [rewrite <- Hk; left|done]. }
  destruct Hev as [post' Hev].
  pose proof (run_taker_rem _ _ _ _ _ _ _ _ _ _ _ _ _ Hrun _ _ _ _ _ _ _ _ _ _ _ _ _ _ _ _ Hev)
    as Htrem.
  destruct (run_evs_ok A _ _ _ _ _ _ _ _ _ _ _ _ HA Hnn Hrun Hin)
    as (m & Hm & Hc & [(fill' & mrem' & trem' & Heq & Hacc & Hfill & Htr & Hsum)|([=] & _)]).
  unfold spec_trade in Heq. subst e. injection Heq as -> -> -> -> -> -> -> -> -> -> -> -> -> ->. exists m.
  pose proof (run_event_bounds _ _ _ _ _ _ _ _ _ _ _ _ _ Hrun Hnn (qty_pos_of_ok' A _ HA)) as Hb.
  rewrite Forall_forall in Hb. specialize (Hb _ Hin). simpl in Hb.
  split_and!; try done; try lia.
  - apply (client_order_in b A); [done| |done]. by eapply sides_elem_of.
  - by eapply side_of.
Qed.

(** C4. Price-time priority: when a new order trades with an order [m], every
    open order [o] of [m]'s side with priority over it (a better price, or
    the same price and an earlier arrival) has been consumed by the same
    command: filled for all its quantity, or cancelled by self-trade
    prevention if it belongs to the aggressor's account. *)
Theorem book_price_time_priority cfg b last term seq ts_ns account coid symbol side price qty ot tif
    b' evs e m o :
  book_reach cfg b last -> last < seq -> in_i64 price -> in_u64 qty ->
  apply b (mkSC term seq ts_ns (Inbound_NewOrder account coid symbol side price qty ot tif))
    = Val (b', evs) ->
  e ∈ evs -> ev_maker e = Some (a_id m) ->
  client_order b (a_id m) = Some m -> client_order b (a_id o) = Some o ->
  a_side m = opposite side -> a_side o = opposite side -> before (opposite side) o m ->
  consumed seq account o evs.
Proof.
  intros Hr Hlt Hp Hq Hap He Hmk Hm Ho Hms Hos Hb.
  destruct (reach_new_order _ _ _ _ _ _ _ _ _ _ _ _ _ _ _ _ Hr Hlt Hp Hq Hap)
    as (A & A' & HR & HA & Hf & _ & _ & Hout).
  apply (client_order_rep b A) in Hm as [Hm _]; [|done].
  apply (client_order_rep b A) in Ho as [Ho _]; [|done].
  destruct (out_trade _ _ _ _ _ _ _ _ _ _ _ _ _ _ _ Hout He Hmk) as (r & q & ev & tl & Hrun & Hin & -> & _).
  assert (Hc : consumed seq account o ev).
  { eapply run_priority; [exact Hrun|apply (ok_sorted A HA)|by apply ids_of_side|exact Hin|exact Hmk
      |by apply elem_of_sides|by apply elem_of_sides|done]. }
  clear -Hc. unfold consumed in *. case_decide; [set_solver|].
  destruct Hc as (x & ? & ?). exists x. split; [set_solver|done].
Qed.

(** C5. Conservation: a new order's quantity goes into trades and at most one
    resting order, and when it rests nothing of it is lost; the open
    quantity of the book changes by exactly the trades, the self-trade
    cancels and the quantity rested. *)
Theorem book_conserves_quantity cfg b last term seq ts_ns account coid symbol side price qty ot tif
    b' evs :
  book_reach cfg b last -> last < seq -> in_i64 price -> in_u64 qty ->
  apply b (mkSC term seq ts_ns (Inbound_NewOrder account coid symbol side price qty ot tif))
    = Val (b', evs) ->
  total (open_orders b') =
    total (open_orders b) - traded evs - cancelled (client_order b) evs + rested evs
  /\ 0 <= traded evs + rested evs <= qty
  /\ (Accepted seq seq ts_ns symbol account coid side price (rested evs) ∈ evs ->
      traded evs + rested evs = qty).
Proof.
  intros Hr Hlt Hp Hq Hap.
  destruct (reach_new_order _ _ _ _ _ _ _ _ _ _ _ _ _ _ _ _ Hr Hlt Hp Hq Hap)
    as (A & A' & HR & HA & Hf & HR' & _ & Hout).
  assert (Hnn : 0 <= qty) by (unfold in_u64 in Hq; lia).
  destruct (new_order_split _ _ _ _ _ _ _ _ _ _ _ _ _ Hout HA Hnn) as [Hs Ha].
  split_and!; [|lia|lia|eauto].
  destruct HR as [Q HR], HR' as [Q' HR'].
  rewrite (total_perm _ _ (open_orders_rep b Q A HR)), (total_perm _ _ (open_orders_rep b' Q' A' HR')).
  eapply new_order_balance; [exact Hout| |].
  - intros m Hm. by apply (client_order_in b A); [exists Q| |].
  - apply (client_order_None b A); [by exists Q|]. intros a Hin. by eapply fresh_id.
Qed.

(** C6. Fill-or-kill is all or nothing: the command either trades exactly its
    quantity, or trades nothing, is rejected and leaves the book unchanged. *)
Theorem book_fok_all_or_nothing cfg b last term seq ts_ns account coid symbol side price qty ot
    b' evs :
  book_reach cfg b last -> last < seq -> in_i64 price -> in_u64 qty ->
  apply b (mkSC term seq ts_ns (Inbound_NewOrder account coid symbol side price qty ot Fok))
    = Val (b', evs) ->
  (traded evs = qty /\ qty <> 0)
  \/ (open_orders b' ≡ₚ open_orders b
      /\ exists reason, evs = [Rejected seq seq account coid reason]).
Proof.
  intros Hr Hlt Hp Hq Hap.
  destruct (reach_new_order _ _ _ _ _ _ _ _ _ _ _ _ _ _ _ _ Hr Hlt Hp Hq Hap)
    as (A & A' & [Q HR] & HA & Hf & [Q' HR'] & _ & Hout).
  assert (Hnn : 0 <= qty) by (unfold in_u64 in Hq; lia).
  inversion Hout as [reason _|r ev Hq0 Hrun|r q ev last' Hq0 Hrun Hqn _ Hav|?|?]; subst; try done.
  - right. split; [|by eexists].
    by rewrite (open_orders_rep b Q _ HR), (open_orders_rep b' Q' _ HR').
  - left. pose proof (run_conserves _ _ _ _ _ _ _ _ _ _ _ _ _ Hrun).
    rewrite traded_app. unfold traded in *; simpl. lia.
  - exfalso. pose proof (run_remaining _ _ _ _ _ _ _ _ _ _ _ _ _ Hrun Hnn
      (qty_pos_of_ok' A _ HA) (ok_sorted A HA _)). specialize (Hav eq_refl). lia.
Qed.

(** An immediate-or-cancel order, a fill-or-kill order and a market order
    never rest: no acceptance is emitted and no order with the command's id
    is open afterwards. *)
Theorem book_immediate_never_rests cfg b last term seq ts_ns account coid symbol side price qty ot tif
    b' evs :
  book_reach cfg b last -> last < seq -> in_i64 price -> in_u64 qty ->
  apply b (mkSC term seq ts_ns (Inbound_NewOrder account coid symbol side price qty ot tif))
    = Val (b', evs) ->
  tif = Ioc \/ tif = Fok \/ ot = Market ->
  client_order b' seq = None /\ rested evs = 0.
Proof.
  intros Hr Hlt Hp Hq Hap Himm.
  destruct (reach_new_order _ _ _ _ _ _ _ _ _ _ _ _ _ _ _ _ Hr Hlt Hp Hq Hap)
    as (A & A' & HR & HA & Hf & HR' & HA' & Hout).
  assert (Hnn : 0 <= qty) by (unfold in_u64 in Hq; lia).
  assert (Hfr : seq_fresh A' seq /\ rested evs = 0).
  { destruct Hout as [reason _|r ev _ Hrun|r q ev last' _ Hrun _ _ _ ->|r q ev _ Hrun _ -> -> _
      |r q ev A2 _ Hrun _ -> -> _ _]; try (by destruct Himm as [|[|]]);
      (split; [by eapply run_seq_fresh|]);
      rewrite rested_app, (run_rested _ _ _ _ _ _ _ _ _ _ _ _ _ Hrun);
      try destruct (q <? qty); done. }
  destruct Hfr as [Hfr ?]. split; [|done].
  apply (client_order_None b' A'); [done|]. intros a Ha. by eapply fresh_id.
Qed.

(** C8. Best prices: on every reachable book [best_bid] is the highest price of
    an open buy and [best_ask] the lowest of an open sell, each [None] exactly
    when the side is empty, and the book is never crossed or locked. *)
Theorem book_best_prices cfg b last :
  book_reach cfg b last ->
  exists bid ask, best_bid b = Val bid /\ best_ask b = Val ask
    /\ (forall id o, client_order b id = Some o ->
          match a_side o with
          | Buy => exists p, bid = Some p /\ a_price o <= p
          | Sell => exists p, ask = Some p /\ p <= a_price o
          end)
    /\ (forall p, bid = Some p -> exists id o, client_order b id = Some o /\ a_side o = Buy /\ a_price o = p)
    /\ (forall p, ask = Some p -> exists id o, client_order b id = Some o /\ a_side o = Sell /\ a_price o = p)
    /\ (forall p p', bid = Some p -> ask = Some p' -> p < p').
Proof.
  intros (A & HR & HA & _)%reach_inv. do 2 eexists.
  split; [by apply best_bid_ok|]. split; [by apply best_ask_ok|].
  assert (Hhead : forall s p, a_price <$> head (ab_orders A s) = Some p ->
    exists o, o ∈ ab_orders A s /\ a_price o = p).
  { intros s p. destruct (ab_orders A s) as [|x l]; simpl; [done|]. intros [= <-].
    exists x. split; [left|done]. }
  split_and!.
  - intros id o Ho. apply (client_order_rep b A) in Ho as [Hin _]; [|done].
    assert (Hs := elem_of_sides A o _ HA Hin eq_refl).
    pose proof (ok_sorted A HA (a_side o)) as Hsort.
    destruct (a_side o); simpl in *;
      (destruct (ab_bids A) as [|x l]; destruct (ab_asks A) as [|y l']);
      simpl in *; try (by apply elem_of_nil in Hs);
      inversion Hsort as [|?? _ Hall]; subst; rewrite Forall_forall in Hall;
      eexists; (split; [done|]); apply elem_of_cons in Hs as [->|Hs]; try lia;
      specialize (Hall _ Hs); unfold before in Hall; lia.
  - intros p (o & Ho & Hp)%(Hhead Buy). exists (a_id o), o.
    split_and!; [|by eapply side_of|done]. apply (client_order_in b A); [done| |done].
    by eapply (sides_elem_of A o Buy).
  - intros p (o & Ho & Hp)%(Hhead Sell). exists (a_id o), o.
    split_and!; [|by eapply side_of|done]. apply (client_order_in b A); [done| |done].
    by eapply (sides_elem_of A o Sell).
  - intros p p' (x & Hx & <-)%(Hhead Buy) (y & Hy & <-)%(Hhead Sell).
    by apply (ok_uncrossed A HA).
Qed.

Definition at_price (s : Side) (p : Z) (o : aorder) : bool :=
  bool_decide (a_side o = s) && (a_price o =? p).

Lemma total_filter_perm f l1 l2 : l1 ≡ₚ l2 -> total (List.filter f l1) = total (List.filter f l2).
Proof.
  unfold total. induction 1 as [|x l1 l2 _ IH|x y l|l1 l2 l3 _ IH1 _ IH2]; simpl; try lia.
  - destruct (f x); simpl; lia.
  - destruct (f x), (f y); simpl; lia.
Qed.

(** The orders at one price are the level at its index. *)
Lemma level_at_price b Q A s i :
  rep_with b Q A -> abook_ok A -> (i < ticks b)%nat ->
  total (List.filter (at_price s (ob_tick_floor b + Z.of_nat i)) (ab_all A))
    = level_qty (view b) (Q s i).
Proof.
  intros HR HA Hi. set (p := ob_tick_floor b + Z.of_nat i).
  assert (Hlev : forall j k x, k ∈ Q s j -> pay (view b) k = Some x ->
    a_side x = s /\ a_price x = ob_tick_floor b + Z.of_nat j).
  { intros j k x Hk Hx. destruct (cr_key _ _ (rep_core _ _ _ HR) _ _ _ Hk) as (_ & o & Ho & Hs & Hpr & _).
    unfold pay in Hx. rewrite Ho in Hx. by simplify_eq/=. }
  assert (Hside : total (List.filter (at_price s p) (ab_orders A s)) = level_qty (view b) (Q s i)).
  { rewrite (rep_orders _ _ _ HR).
    destruct (side_view_at (view b) Q s (ticks b) i Hi) as (pre & post & -> & _ & Hpre & Hpost).
    rewrite !List.filter_app, (filter_none _ pre), (filter_none _ post), filter_all, app_nil_r.
    - done.
    - intros x (k & Hk & Hx)%elem_of_level_orders. destruct (Hlev _ _ _ Hk Hx) as [Hs Hp].
      unfold at_price. rewrite Hp, bool_decide_true by done. unfold p. simpl. lia.
    - intros x (j & k & Hj & Hk & Hx)%Hpost. destruct (Hlev _ _ _ Hk Hx) as [Hs Hp].
      unfold at_price. rewrite Hp. apply andb_false_iff. right. unfold p.
      destruct s; simpl in Hj; lia.
    - intros x (j & k & Hj & Hk & Hx)%Hpre. destruct (Hlev _ _ _ Hk Hx) as [Hs Hp].
      unfold at_price. rewrite Hp. apply andb_false_iff. right. unfold p.
      destruct s; simpl in Hj; lia. }
  assert (Hopp : List.filter (at_price s p) (ab_orders A (opposite s)) = []).
  { apply filter_none. intros x Hx. unfold at_price. rewrite (side_of A x (opposite s)) by done.
    by destruct s. }
  unfold ab_all. rewrite List.filter_app, total_app.
  destruct s; simpl in *; rewrite Hopp, Hside; unfold total; simpl; lia.
Qed.

Lemma qty_at_inv cfg b last s p :
  book_inv cfg b last -> in_i64 p ->
  qty_at b (ob_ladder b s) p = Val (wrap_u64 (total (List.filter (at_price s p) (open_orders b)))).
Proof.
  intros (A & [Q HR] & HA & _) Hp.
  rewrite (total_filter_perm _ _ _ (open_orders_rep b Q A HR)).
  unfold qty_at. rewrite (price_to_idx_ok b A) by (done || by exists Q).
  unfold in_range. rewrite (rep_floor _ _ _ HR), (rep_ticks _ _ _ HR).
  destruct ((ob_tick_floor b <=? p) && _) eqn:Hr.
  - set (i := Z.to_nat (p - ob_tick_floor b)). assert (Hi : (i < ticks b)%nat) by lia.
    destruct (core_slot b Q s i (rep_core _ _ _ HR) Hi) as (slot & _ & -> & Hrep). simpl.
    pose proof (level_at_price b Q A s i HR HA Hi) as Hl.
    replace (ob_tick_floor b + Z.of_nat i) with p in Hl by lia. rewrite Hl.
    destruct slot as [l|]; [by destruct Hrep as (_ & _ & _ & ->)|]. simpl in Hrep. by rewrite Hrep.
  - rewrite filter_none; [done|]. intros x Hx. unfold at_price.
    destruct (Z.eqb_spec (a_price x) p) as [<-|]; [|by rewrite andb_false_r].
    exfalso. assert (Hs := elem_of_sides A x _ HA Hx eq_refl).
    pose proof (ok_orders A HA (a_side x)) as Hok. rewrite Forall_forall in Hok.
    destruct (Hok x Hs) as (_ & _ & Hpr & _).
    rewrite (rep_floor _ _ _ HR), (rep_ticks _ _ _ HR) in Hpr. lia.
Qed.

(** Depth: [bid_qty_at] and [ask_qty_at] return the sum of the open
    quantities of the orders of that side and price (as the u64 the level
    keeps), for every price, in or out of the ladder. *)
Theorem book_depth_exact cfg b last p :
  book_reach cfg b last -> in_i64 p ->
  bid_qty_at b p = Val (wrap_u64 (total (List.filter (at_price Buy p) (open_orders b))))
  /\ ask_qty_at b p = Val (wrap_u64 (total (List.filter (at_price Sell p) (open_orders b)))).
Proof.
  intros Hr%reach_inv Hp. split; [exact (qty_at_inv cfg b last Buy p Hr Hp)
    |exact (qty_at_inv cfg b last Sell p Hr Hp)].
Qed.

(** A book without one order. *)
Definition ab_without (oid : Z) (A : abook) : abook :=
  let drop := List.filter (fun o => negb (a_id o =? oid)) in
  mkABook (drop (ab_bids A)) (drop (ab_asks A)) (ab_floor A) (ab_ticks A) (ab_capacity A).

(** The book [b'] is the book [b] without the order [oid]: in the id map, in
    the arena, in its price level and in the best prices (what [rep] relates),
    and so in the depth each side reports. *)
Definition removes b b' (oid : Z) (o : aorder) : Prop :=
  client_order b' oid = None
  /\ (forall id, id <> oid -> client_order b' id = client_order b id)
  /\ open_orders b ≡ₚ o :: open_orders b'
  /\ (exists A, rep b A /\ abook_ok A /\ rep b' (ab_without oid A))
  /\ forall s p, in_i64 p ->
       qty_at b' (ob_ladder b' s) p
       = Val (wrap_u64 (total (List.filter (at_price s p) (open_orders b')))).

Lemma filter_id_perm (l : list aorder) o :
  NoDup (a_id <$> l) -> o ∈ l ->
  l ≡ₚ o :: List.filter (fun x => negb (a_id x =? a_id o)) l.
Proof.
  induction l as [|x l IH]; intros Hnd Ho; [by apply elem_of_nil in Ho|].
  rewrite fmap_cons in Hnd. apply NoDup_cons in Hnd as [Hx Hnd]. simpl.
  apply elem_of_cons in Ho as [->|Ho].
  - rewrite Z.eqb_refl. simpl. f_equiv.
    rewrite forallb_filter_id; [done|]. apply forallb_forall.
    intros y Hy%list_elem_of_In. apply negb_true_iff, Z.eqb_neq. intros Heq. apply Hx.
    rewrite <- Heq. by apply list_elem_of_fmap_2.
  - destruct (Z.eqb_spec (a_id x) (a_id o)) as [Heq|_].
    + exfalso. apply Hx. rewrite Heq. by apply list_elem_of_fmap_2.
    + simpl. rewrite (IH Hnd Ho) at 1. by rewrite Permutation_swap.
Qed.

Lemma without_all oid A :
  ab_all (ab_without oid A) = List.filter (fun o => negb (a_id o =? oid)) (ab_all A).
Proof. unfold ab_all. simpl. by rewrite List.filter_app. Qed.

(** A refused cancel returns the book it was given. *)
Lemma cancel_rejected_same b b' seq account oid s' oid' a' c' r' :
  apply_cancel b seq account oid = Val (b', [Rejected s' oid' a' c' r']) -> b' = b.
Proof.
  unfold apply_cancel. destruct (ob_id_to_key b !! oid) as [k|] eqn:Hk; [|by intros [= <-]].
  destruct (arena_index _ k) as [order| |]; simpl; try done.
  destruct (negb _).
  - intros [= <- _ _ _ _ _]. destruct b. unfold remove_id, ob_set_ids; simpl in *. f_equal.
    rewrite insert_delete_eq. by apply insert_id.
  - destruct (price_to_idx _ _) as [i|]; [|done].
    destruct (get_level _ _ _) as [slot| |]; simpl; try done.
    by match goal with |- (ebind ?x _ = _) -> _ => destruct x as [?| |] end.
Qed.

Lemma cancel_own_rep b A b' seq account oid o evs :
  rep b A -> abook_ok A -> o ∈ ab_all A -> a_id o = oid -> a_account o = account ->
  apply_cancel b seq account oid = Val (b', evs) -> rep b' (ab_without oid A).
Proof.
  intros HR HA Hin Hid Hacc Hap.
  destruct (spec_cancel A seq account oid) as [A' evs'] eqn:Hspec.
  destruct (apply_cancel_ok b A seq account oid A' evs' HR HA Hspec) as (b2 & Hap2 & HR2).
  rewrite Hap in Hap2. injection Hap2 as <- <-. unfold spec_cancel in Hspec.
  destruct (List.find _ _) as [x|] eqn:Hf.
  - apply find_some in Hf as [Hx Heq%Z.eqb_eq]. rewrite <- list_elem_of_In in Hx.
    assert (x = o) as ->.
    { pose proof (client_order_in b A oid x HR Hx Heq) as H1.
      pose proof (client_order_in b A oid o HR Hin Hid) as H2. congruence. }
    rewrite (proj2 (Z.eqb_eq _ _) Hacc) in Hspec. simpl in Hspec. by injection Hspec as <- _.
  - apply (find_none _ _) with (x := o) in Hf; [lia|]. by apply list_elem_of_In.
Qed.

(** C7. Cancel, on every reachable book and for every caller and id. An open
    order of the calling account is removed, and it alone: from the id map,
    the arena, its price level and the best prices, so that the open orders
    are the earlier ones less this one and the depth of every price is the
    sum of what is left. For an unknown id, or an id of another account, the
    call is answered with the matching reject and returns the book it was
    given. *)
Theorem book_cancel_ok cfg b last term seq ts_ns account oid :
  book_reach cfg b last ->
  exists b' evs,
    apply b (mkSC term seq ts_ns (Inbound_Cancel account oid)) = Val (b', evs)
    /\ match client_order b oid with
       | None => evs = [Rejected seq oid account 0 RR_OrderNotFound] /\ b' = b
       | Some o =>
           if decide (a_account o = account)
           then evs = [Cancelled seq oid] /\ removes b b' oid o
           else evs = [Rejected seq oid account 0 RR_WrongAccount] /\ b' = b
       end.
Proof.
  intros Hr%reach_inv. destruct (cancel_inv cfg b last seq account oid Hr) as (b' & evs & Hap & Heff & Hi).
  exists b', evs. split; [done|]. unfold cancel_effect in Heff.
  destruct (client_order b oid) as [o|] eqn:Ho;
    [|destruct Heff as [-> _]; split; [done|]; by eapply cancel_rejected_same].
  case_decide as Hacc; [|destruct Heff as [-> _]; split; [done|]; by eapply cancel_rejected_same].
  destruct Heff as (-> & Hnone & Hother). split; [done|].
  destruct Hr as (A & HR & HA & _).
  pose proof Ho as [Hin Hid]%(client_order_rep b A); [|done].
  assert (HR' : rep b' (ab_without oid A)) by by eapply cancel_own_rep.
  split_and!; [done|done| |by exists A|intros s p Hp; by eapply qty_at_inv].
  destruct HR as [Q HR], HR' as [Q' HR'].
  rewrite (open_orders_rep b Q A HR), (open_orders_rep b' Q' _ HR'), without_all, <- Hid.
  apply filter_id_perm; [apply (ok_ids A HA)|done].
Qed.

Lemma account_orders_rep b A account :
  rep b A -> abook_ok A ->
  NoDup (open_order_ids_for_account b account)
  /\ (forall id, id ∈ open_order_ids_for_account b account <->
        exists o, client_order b id = Some o /\ a_account o = account)
  /\ open_order_count b = length (open_orders b).
Proof.
  intros [Q HR] HA.
  assert (Hids : open_order_ids_for_account b account
    = map a_id (List.filter (fun o => a_account o =? account) (open_orders b))).
  { unfold open_order_ids_for_account, open_orders.
    induction (sm_values (ob_arena b)) as [|o l IH]; [done|]. simpl.
    destruct (ro_account o =? account); simpl; by rewrite IH. }
  pose proof (open_orders_rep b Q A HR) as Hp.
  assert (Hnd : NoDup (a_id <$> open_orders b)) by (rewrite Hp; apply (ok_ids A HA)).
  rewrite Hids. split_and!.
  - revert Hnd. clear. induction (open_orders b) as [|x l IH]; simpl; [done|].
    intros [Hx Hnd]%NoDup_cons. destruct (_ =? _); [|by auto]. simpl. constructor; [|by auto].
    rewrite list_elem_of_In, in_map_iff. intros (y & Heq & [Hy _]%filter_In).
    apply Hx. rewrite <- Heq. apply list_elem_of_fmap_2. by apply list_elem_of_In.
  - intros id. rewrite list_elem_of_In, in_map_iff. setoid_rewrite filter_In.
    setoid_rewrite Z.eqb_eq. setoid_rewrite <- list_elem_of_In.
    setoid_rewrite (client_order_rep b A id _ (ex_intro _ Q HR)). setoid_rewrite Hp. naive_solver.
  - unfold open_order_count. rewrite (sm_len_rep b Q A HR). by rewrite Hp.
Qed.

Lemma account_orders_inv cfg b last account :
  book_inv cfg b last ->
  NoDup (open_order_ids_for_account b account)
  /\ (forall id, id ∈ open_order_ids_for_account b account <->
        exists o, client_order b id = Some o /\ a_account o = account)
  /\ open_order_count b = length (open_orders b).
Proof. intros (A & HR & HA & _). by apply (account_orders_rep b A). Qed.
(** The account index: [open_order_ids_for_account] lists, once each,
    exactly the ids of the account's open orders, and [open_order_count] is
    the number of open orders. *)
Theorem book_account_orders cfg b last account :
  book_reach cfg b last ->
  NoDup (open_order_ids_for_account b account)
  /\ (forall id, id ∈ open_order_ids_for_account b account <->
        exists o, client_order b id = Some o /\ a_account o = account)
  /\ open_order_count b = length (open_orders b).
Proof. intros Hr. by eapply account_orders_inv, reach_inv. Qed.
End Reach.

(** ** Witnesses: a book with three sells and one buy, on the concrete arena *)

Module BookDemo.
Import GmapSlotMap.

Definition cfg : BookConfig := mkBookConfig 1 100 10 16.
Definition order (seq account : Z) (side : Side) (price qty : Z) : SequencedCommand :=
  mkSC 1 seq 0 (Inbound_NewOrder account seq 1 side price qty Limit Gtc).
Definition cmds : list SequencedCommand :=
  [order 1 11 Sell 103 5; order 2 12 Sell 102 4; order 3 13 Sell 102 3; order 4 14 Buy 101 2].
Definition run1 (b : OrderBook) (cmd : SequencedCommand) : OrderBook :=
  match apply b cmd with Val (b', _) => b' | _ => b end.
Definition book : OrderBook := foldl run1 (OrderBook_new cfg) cmds.

(** A buy of 6 at 103 by account 12: cancels its own order 2, takes 3 from
    order 3 and 3 from order 1. *)
Definition take : SequencedCommand :=
  mkSC 1 5 0 (Inbound_NewOrder 12 5 1 Buy 103 6 Limit Gtc).
Definition fok : SequencedCommand :=
  mkSC 1 5 0 (Inbound_NewOrder 15 5 1 Buy 103 60 Limit Fok).
Definition result (cmd : SequencedCommand) : OrderBook * list EngineEvent :=
  match apply book cmd with Val r => r | _ => (book, []) end.

Lemma cfg_ok_demo : cfg_ok cfg.
Proof. unfold cfg_ok, in_i64, two63. simpl. lia. Qed.

Lemma cmd_ok_order seq account side price qty :
  in_i64 price -> in_u64 qty -> cmd_ok (order seq account side price qty).
Proof. by split. Qed.

Definition returns (b : OrderBook) (cmd : SequencedCommand) : bool :=
  match apply b cmd with Val _ => true | _ => false end.

Lemma reach_run1 b last cmd :
  book_reach cfg b last -> last < sc_seq cmd -> cmd_ok cmd -> returns b cmd = true ->
  book_reach cfg (run1 b cmd) (sc_seq cmd).
Proof.
  intros Hr Hlt Hc. unfold returns, run1. destruct (apply b cmd) as [[b' evs]| |] eqn:E; try done.
  intros _. by eapply reach_step.
Qed.

Lemma book_reached : book_reach cfg book 4.
Proof.
  assert (H0 := reach_new cfg 0 cfg_ok_demo).
  assert (Hc : forall q p a s n, 0 <= q < 10 -> 0 <= p < 200 -> cmd_ok (order n a s p q)).
  { intros. apply cmd_ok_order; [unfold in_i64, two63|unfold in_u64, two64]; lia. }
  assert (H1 := reach_run1 _ _ (order 1 11 Sell 103 5) H0 ltac:(simpl; lia) ltac:(apply Hc; lia)
    ltac:(vm_compute; reflexivity)).
  assert (H2 := reach_run1 _ _ (order 2 12 Sell 102 4) H1 ltac:(simpl; lia) ltac:(apply Hc; lia)
    ltac:(vm_compute; reflexivity)).
  assert (H3 := reach_run1 _ _ (order 3 13 Sell 102 3) H2 ltac:(simpl; lia) ltac:(apply Hc; lia)
    ltac:(vm_compute; reflexivity)).
  exact (reach_run1 _ _ (order 4 14 Buy 101 2) H3 ltac:(simpl; lia) ltac:(apply Hc; lia)
    ltac:(vm_compute; reflexivity)).
Qed.

Lemma take_ok : cmd_ok take.
Proof. split; vm_compute; split; congruence. Qed.
Lemma price103 : in_i64 103.
Proof. split; vm_compute; congruence. Qed.
Lemma qty6 : in_u64 6.
Proof. split; vm_compute; congruence. Qed.
Lemma qty60 : in_u64 60.
Proof. split; vm_compute; congruence. Qed.
Lemma returns_result cmd :
  returns book cmd = true -> apply book cmd = Val ((result cmd).1, (result cmd).2).
Proof. unfold returns, result. destruct (apply book cmd) as [[b' evs]| |]; done. Qed.
Lemma take_result : apply book take = Val ((result take).1, (result take).2).
Proof. apply returns_result. vm_compute. reflexivity. Qed.
Lemma fok_result : apply book fok = Val ((result fok).1, (result fok).2).
Proof. apply returns_result. vm_compute. reflexivity. Qed.

(** The two trades of the demo command, as computed. *)
Example take_events :
  (result take).2 =
    [Cancelled 5 2;
     Trade 5 0 1 102 3 3 5 3 5 13 12 Sell 0 3;
     Trade 5 0 1 103 3 1 5 1 5 11 12 Sell 2 0;
     BookTop 5 1 (Some 101) (Some 103)].
Proof. vm_compute. reflexivity. Qed.

Example fok_events : (result fok).2 = [Rejected 5 5 15 5 RR_FokNotFullyFillable].
Proof. vm_compute. reflexivity. Qed.

Definition sell1 : aorder := mkAOrder 1 11 5 Sell 103 1.
Definition sell3 : aorder := mkAOrder 3 13 3 Sell 102 3.
Lemma sell1_open : client_order book 1 = Some sell1.
Proof. vm_compute. reflexivity. Qed.
Lemma sell3_open : client_order book 3 = Some sell3.
Proof. vm_compute. reflexivity. Qed.

#[local] Opaque book result.

Lemma book_apply_refines_witness :
  exists A b', rep book A /\ abook_ok A /\ apply book take = Val (b', (spec_apply A take).2)
    /\ rep b' (spec_apply A take).1 /\ abook_ok (spec_apply A take).1.
Proof.
  exact (book_apply_refines cfg book 4 take book_reached ltac:(simpl; lia) take_ok).
Defined.

Lemma book_trades_ok_witness :
  exists m, client_order book 1 = Some m /\ a_side m = Sell /\ a_account m <> 12
    /\ 2 = a_qty m - 3 /\ 0 = 6 - 3 - 3.
Proof.
  destruct (book_trades_ok cfg book 4 1 5 0 12 5 1 Buy 103 6 Limit Gtc (result take).1 (result take).2
    [Cancelled 5 2; Trade 5 0 1 102 3 3 5 3 5 13 12 Sell 0 3] (drop 3 (result take).2)
    5 0 1 103 3 1 5 1 5 11 12 Sell 2 0
    book_reached ltac:(lia) price103 qty6 take_result ltac:(rewrite take_events; reflexivity))
    as (m & H1 & H2 & _ & _ & H3 & H4 & _ & _ & _ & _ & _ & _ & _ & _ & _ & H5 & H6 & _).
  exists m. rewrite H3. exact (conj H1 (conj H2 (conj H4 (conj H5 H6)))).
Defined.

Lemma book_price_time_priority_witness : consumed 5 12 sell3 (result take).2.
Proof.
  assert (Hin : Trade 5 0 1 103 3 1 5 1 5 11 12 Sell 2 0 ∈ (result take).2)
    by (rewrite take_events; right; right; left).
  exact (book_price_time_priority cfg book 4 1 5 0 12 5 1 Buy 103 6 Limit Gtc (result take).1
    (result take).2 _ sell1 sell3 book_reached ltac:(lia) price103 qty6 take_result Hin eq_refl
    sell1_open sell3_open eq_refl eq_refl ltac:(left; simpl; lia)).
Defined.

Lemma book_conserves_quantity_witness :
  0 <= traded (result take).2 + rested (result take).2 <= 6.
Proof.
  exact (proj1 (proj2 (book_conserves_quantity cfg book 4 1 5 0 12 5 1 Buy 103 6 Limit Gtc
    (result take).1 (result take).2 book_reached ltac:(lia) price103 qty6 take_result))).
Defined.

Lemma book_fok_all_or_nothing_witness : open_orders (result fok).1 ≡ₚ open_orders book.
Proof.
  destruct (book_fok_all_or_nothing cfg book 4 1 5 0 15 5 1 Buy 103 60 Limit (result fok).1
    (result fok).2 book_reached ltac:(lia) price103 qty60 fok_result) as [[H _]|[H _]].
  - rewrite fok_events in H. vm_compute in H. discriminate H.
  - exact H.
Defined.

Lemma book_immediate_never_rests_witness : client_order (result fok).1 5 = None.
Proof.
  exact (proj1 (book_immediate_never_rests cfg book 4 1 5 0 15 5 1 Buy 103 60 Limit Fok
    (result fok).1 (result fok).2 book_reached ltac:(lia) price103 qty60 fok_result
    (or_intror (or_introl eq_refl)))).
Defined.

Lemma book_cancel_ok_witness :
  exists b', apply book (mkSC 1 5 0 (Inbound_Cancel 11 1)) = Val (b', [Cancelled 5 1])
    /\ removes book b' 1 sell1
    /\ ask_qty_at b' 103 = Val (wrap_u64 (total (List.filter (at_price Sell 103) (open_orders b')))).
Proof.
  destruct (book_cancel_ok cfg book 4 1 5 0 11 1 book_reached) as (b' & evs & Hap & H).
  rewrite sell1_open in H. rewrite decide_True in H by reflexivity.
  destruct H as (-> & H). exists b'.
  exact (conj Hap (conj H (proj2 (proj2 (proj2 (proj2 H))) Sell 103 price103))).
Defined.

Lemma book_best_prices_witness : exists p, best_ask book = Val (Some p) /\ p <= 103.
Proof.
  destruct (book_best_prices cfg book 4 book_reached) as (bid & ask & _ & Ha & Ho & _).
  destruct (Ho 1 sell1 sell1_open) as (p & -> & Hp). exists p. exact (conj Ha Hp).
Defined.

Lemma book_depth_exact_witness :
  ask_qty_at book 103
    = Val (wrap_u64 (total (List.filter (at_price Sell 103) (open_orders book)))).
Proof. exact (proj2 (book_depth_exact cfg book 4 103 book_reached price103)). Defined.

Lemma book_account_orders_witness : 1 ∈ open_order_ids_for_account book 11.
Proof.
  apply (proj2 (proj1 (proj2 (book_account_orders cfg book 4 11 book_reached)) 1)).
  exists sell1. exact (conj sell1_open eq_refl).
Defined.
End BookDemo.
