(* ===== verification/RefBook.v ===== *)
(** * RefBook: the book against the naive matcher of the repository

    crates/order-book/src/tests/diff_fuzz.rs checks the order book against a
    naive reference: two ordered maps keyed by price and arrival.  Both get the
    same random commands and must fill the same quantities.  The reference, the
    generator and the comparison are modelled as they are written; the theorems
    say that the comparison succeeds, for every stream of limit orders and
    cancels by their owners and so for every random generator.

    A [BTreeMap] is a finite map whose iteration is in the order of its keys;
    the generator of the rand crate is the interface [RngApi]. *)

From stdpp Require Import sorting fin_maps.
From S2P Require Import Prelude CoreTypes SlotMap OrderBook BookSpec BookMarket BookRep BookInv BookRefine BookTheorems.
#[local] Open Scope Z_scope.

(** ** Ordered maps *)

(** Price and sequence number, compared in this order. *)
Definition key : Type := Z * Z.
Definition key_le (a b : key) : Prop := a.1 < b.1 \/ a.1 = b.1 /\ a.2 <= b.2.
#[export] Instance key_le_dec : RelDecision key_le.
Proof. intros a b. unfold key_le. apply _. Defined.

(** Order id, account and remaining quantity. *)
Definition entry : Type := Z * Z * Z.

(** The keys in the order of iteration; [iter().next()], [iter().next_back()]
    and [range(lo..=hi).next()]. *)
Definition keys (m : gmap key entry) : list key := merge_sort key_le (map_to_list m).*1.
Definition first_key (m : gmap key entry) : option key := head (keys m).
Definition last_key (m : gmap key entry) : option key := last (keys m).
Definition range_first (lo hi : key) (m : gmap key entry) : option key :=
  head (filter (fun k => key_le lo k /\ key_le k hi) (keys m)).

(** ** The naive reference *)

Record RefBook := mkRef { rb_bids : gmap key entry; rb_asks : gmap key entry; rb_index : gmap Z (Side * key) }.

Definition RefBook_new : RefBook := mkRef ∅ ∅ ∅.

(** The map the aggressor of a side matches against. *)
Definition maker_map (side : Side) (rb : RefBook) : gmap key entry :=
  match side with Buy => rb_asks rb | Sell => rb_bids rb end.
Definition set_makers (side : Side) (m : gmap key entry) (index : gmap Z (Side * key)) (rb : RefBook) : RefBook :=
  match side with Buy => mkRef (rb_bids rb) m index | Sell => mkRef m (rb_asks rb) index end.

(** [(crosses, maker_key)]: the best opposing order. *)
Definition best_maker (side : Side) (price : Z) (rb : RefBook) : bool * option key :=
  match side with
  | Buy =>
      match first_key (rb_asks rb) with
      | Some k => if k.1 <=? price then (true, Some k) else (false, None)
      | None => (false, None)
      end
  | Sell =>
      match last_key (rb_bids rb) with
      | Some k => if price <=? k.1 then (true, range_first (k.1, 0) (k.1, u64_max) (rb_bids rb)) else (false, None)
      | None => (false, None)
      end
  end.

(** The loop of [ref_new_order]: the book, [qty_rem] and [total_filled]. *)
Fixpoint ref_loop (fuel : nat) (side : Side) (price account : Z) (rb : RefBook) (qty_rem total : Z) : Exec (RefBook * Z * Z) :=
  match fuel with
  | O => OutOfFuel
  | S fuel =>
      if qty_rem =? 0 then Val (rb, qty_rem, total)
      else
        let '(crosses, maker_key) := best_maker side price rb in
        if negb crosses then Val (rb, qty_rem, total)
        else
          let! k := expect maker_key in
          let! '(maker_oid, maker_account, maker_qty) := expect (maker_map side rb !! k) in
          if maker_account =? account then
            ref_loop fuel side price account (set_makers side (delete k (maker_map side rb)) (delete maker_oid (rb_index rb)) rb)
              qty_rem total
          else
            let fill := Z.min qty_rem maker_qty in
            let left := wrap_u64 (maker_qty - fill) in
            let rb :=
              if left =? 0 then set_makers side (delete k (maker_map side rb)) (delete maker_oid (rb_index rb)) rb
              else set_makers side (<[k := (maker_oid, maker_account, left)]> (maker_map side rb)) (rb_index rb) rb in
            ref_loop fuel side price account rb (wrap_u64 (qty_rem - fill)) (wrap_u64 (total + fill))
  end.

(** Every iteration but the last removes a maker or uses up the quantity. *)
Definition ref_fuel (side : Side) (rb : RefBook) : nat := 2 + size (maker_map side rb).

(** Rest the remainder under its key. *)
Definition ref_rest (side : Side) (k : key) (e : entry) (seq : Z) (rb : RefBook) : RefBook :=
  let index := <[seq := (side, k)]> (rb_index rb) in
  match side with
  | Buy => mkRef (<[k := e]> (rb_bids rb)) (rb_asks rb) index
  | Sell => mkRef (rb_bids rb) (<[k := e]> (rb_asks rb)) index
  end.

Definition ref_new_order (rb : RefBook) (seq : Z) (side : Side) (price qty account : Z) (ot : OrderType) (tif : TimeInForce) :
    Exec (RefBook * Z) :=
  let! '(rb, qty_rem, total) := ref_loop (ref_fuel side rb) side price account rb qty 0 in
  if (0 <? qty_rem) && bool_decide (ot = Limit) && bool_decide (tif = Gtc) then
    Val (ref_rest side (price, seq) (seq, account, qty_rem) seq rb, total)
  else Val (rb, total).

Definition ref_cancel (rb : RefBook) (order_id : Z) : RefBook :=
  match rb_index rb !! order_id with
  | None => rb
  | Some (side, k) =>
      let index := delete order_id (rb_index rb) in
      match side with
      | Buy => mkRef (delete k (rb_bids rb)) (rb_asks rb) index
      | Sell => mkRef (rb_bids rb) (delete k (rb_asks rb)) index
      end
  end.

Definition ref_apply (rb : RefBook) (cmd : SequencedCommand) : Exec (RefBook * Z) :=
  match sc_cmd cmd with
  | Inbound_NewOrder account _ _ side price qty ot tif => ref_new_order rb (sc_seq cmd) side price qty account ot tif
  | Inbound_Cancel _ order_id => Val (ref_cancel rb order_id, 0)
  | _ => Val (rb, 0)
  end.

(** ** The harness *)

Definition SYM : Z := 0.
Definition TICK_FLOOR : Z := 10000.
Definition NUM_TICKS : nat := 200.
Definition ARENA_CAP : nat := 512.

Definition fuzz_config : BookConfig := mkBookConfig SYM TICK_FLOOR NUM_TICKS ARENA_CAP.

(** The rand crate: a range [lo..hi] excludes its end; [gen_bool] gets its
    probability in per cent. *)
Class RngApi := {
  Rng : Type;
  seed_from_u64 : Z -> Rng;
  gen_range : Z -> Z -> Rng -> Z * Rng;
  gen_bool : Z -> Rng -> bool * Rng
}.
Class RngLaws (R : RngApi) : Prop := {
  gen_range_in lo hi r : lo < hi -> lo <= (gen_range lo hi r).1 < hi
}.

(** [Vec::swap_remove]: the last element takes the place of the one removed. *)
Definition swap_remove {A} (i : nat) (l : list A) : Exec (A * list A) :=
  let! x := index_list l i in
  match last l with
  | None => Panic
  | Some y => Val (x, take (length l - 1) (<[i := y]> l))
  end.

Section Gen.
Context {RA : RngApi}.

(** One iteration of the loop in [gen_commands]. *)
Definition gen_command (seq : Z) (rng : Rng) (live_orders : list (Z * Z)) : Exec (SequencedCommand * Rng * list (Z * Z)) :=
  let '(action, rng) := gen_range 0 4 rng in
  let '(ix, rng) := gen_range 0 3 rng in
  let! account := index_list [1; 2; 3] (Z.to_nat ix) in
  let! '(cmd, rng, live_orders) :=
    if (action <? 2) || (length live_orders =? 0)%nat then
      let '(b, rng) := gen_bool 50 rng in
      let side := if b : bool then Buy else Sell in
      let '(dp, rng) := gen_range 0 (Z.of_nat NUM_TICKS) rng in
      let price := TICK_FLOOR + dp in
      let '(qty, rng) := gen_range 1 21 rng in
      let '(b, rng) := gen_bool 20 rng in
      let tif := if b : bool then Ioc else Gtc in
      Val (Inbound_NewOrder account 0 SYM side price qty Limit tif, rng, live_orders ++ [(seq, account)])
    else
      let '(idx, rng) := gen_range 0 (Z.of_nat (length live_orders)) rng in
      let! '((oid, acct), live_orders) := swap_remove (Z.to_nat idx) live_orders in
      Val (Inbound_Cancel acct oid, rng, live_orders) in
  Val (mkSC 1 seq (wrap_u64 (seq * 1000)) cmd, rng, live_orders).

Fixpoint gen_from (n : nat) (seq : Z) (rng : Rng) (live_orders : list (Z * Z)) : Exec (list SequencedCommand) :=
  match n with
  | O => Val []
  | S n =>
      let! '(cmd, rng, live_orders) := gen_command seq rng live_orders in
      let! cmds := gen_from n (seq + 1) rng live_orders in
      Val (cmd :: cmds)
  end.

Definition gen_commands (rng : Rng) (n : nat) : Exec (list SequencedCommand) := gen_from n 1 rng [].
End Gen.

Definition total_filled (events : list EngineEvent) : Z :=
  foldl (fun s e => wrap_u64 (s + match e with Trade _ _ _ _ qty _ _ _ _ _ _ _ _ _ => qty | _ => 0 end)) 0 events.

Section Trial.
Context {SM : SlotMapApi}.

Definition make_book : OrderBook := OrderBook_new fuzz_config.

(** The loop of [run_one_trial]; [assert_eq!] panics. *)
Fixpoint trial_loop (cmds : list SequencedCommand) (book : OrderBook) (reference : RefBook) : Exec unit :=
  match cmds with
  | [] => Val tt
  | cmd :: cmds =>
      let! '(book, events) := apply book cmd in
      let book_filled := total_filled events in
      let! '(reference, ref_filled) := ref_apply reference cmd in
      if negb (book_filled =? ref_filled) then Panic else trial_loop cmds book reference
  end.

Definition run_one_trial {RA : RngApi} (seed : Z) (n_cmds : nat) : Exec unit :=
  let! cmds := gen_commands (seed_from_u64 seed) n_cmds in
  trial_loop cmds make_book RefBook_new.

Fixpoint run_trials {RA : RngApi} (seeds : list Z) (n_cmds : nat) : Exec unit :=
  match seeds with
  | [] => Val tt
  | seed :: seeds => let! _ := run_one_trial seed n_cmds in run_trials seeds n_cmds
  end.

Definition differential_fuzz_fixed_seeds {RA : RngApi} : Exec unit :=
  run_trials [0; 1; 42; 1337; 3735928559; 999999; u64_max / 3] 500.
End Trial.

(** ** Iteration of an ordered map *)

#[export] Instance key_le_total : Total key_le.
Proof. intros a b. unfold key_le. lia. Qed.
#[export] Instance key_le_trans : Transitive key_le.
Proof. intros a b c. unfold key_le. lia. Qed.

Lemma key_le_antisym a b : key_le a b -> key_le b a -> a = b.
Proof. destruct a, b. unfold key_le. simpl. intros ??. f_equal; lia. Qed.

Lemma keys_sorted m : StronglySorted key_le (keys m).
Proof. apply StronglySorted_merge_sort; apply _. Qed.

Lemma sorted_head_min ks k :
  StronglySorted key_le ks -> k ∈ ks -> (forall x, x ∈ ks -> key_le k x) -> head ks = Some k.
Proof.
  intros Hs Hk Hmin. destruct ks as [|x ks]; [by apply elem_of_nil in Hk|]. simpl. f_equal.
  apply elem_of_cons in Hk as [->|Hk]; [done|]. apply StronglySorted_inv in Hs as [_ Hall].
  rewrite Forall_forall in Hall. apply key_le_antisym; [by apply Hall|]. apply Hmin. by left.
Qed.

Lemma sorted_last_max ks : StronglySorted key_le ks -> ks <> [] -> exists k, last ks = Some k /\ k ∈ ks /\ forall x, x ∈ ks -> key_le x k.
Proof.
  induction 1 as [|y ks Hs IH Hall]; intros Hne; [done|]. destruct (decide (ks = [])) as [->|Hks].
  - exists y. split; [done|]. split; [by left|]. intros x ->%list_elem_of_singleton. unfold key_le. lia.
  - destruct (IH Hks) as (k & Hl & Hk & Hmax). exists k. rewrite last_cons, Hl. split; [done|]. split; [by right|].
    intros x [->|Hx]%elem_of_cons; [|by auto]. rewrite Forall_forall in Hall. by apply Hall.
Qed.

(** ** The reference and the abstract book *)

Definition key_of (o : aorder) : key := (a_price o, a_seq o).
Definition entry_of (o : aorder) : key * entry := (key_of o, (a_id o, a_account o, a_qty o)).
Definition index_of (o : aorder) : Z * (Side * key) := (a_id o, (a_side o, key_of o)).

Definition entries (l : list aorder) : gmap key entry := list_to_map (entry_of <$> l).
Definition index (l : list aorder) : gmap Z (Side * key) := list_to_map (index_of <$> l).

(** Orders whose ids are their sequence numbers, all different. *)
Definition distinct (l : list aorder) : Prop := NoDup (a_id <$> l) /\ Forall (fun o => a_id o = a_seq o /\ in_u64 (a_seq o)) l.

Lemma distinct_keys l : distinct l -> NoDup (key_of <$> l).
Proof.
  intros [Hnd Hid]. induction l as [|o l IH]; [constructor|]. apply Forall_cons in Hid as [Ho Hid].
  apply NoDup_cons in Hnd as [Hn Hnd]. apply NoDup_cons. split; [|by apply IH].
  intros (x & Hx & Hin)%list_elem_of_fmap. apply Hn. rewrite Forall_forall in Hid. destruct (Hid x Hin) as [Hxid _].
  apply list_elem_of_fmap. exists x. split; [|done]. unfold key_of in Hx. injection Hx as _ Hseq. destruct Ho. congruence.
Qed.

Lemma distinct_entries l : distinct l -> NoDup (entry_of <$> l).*1.
Proof. intros H. rewrite <- list_fmap_compose. by apply distinct_keys. Qed.
Lemma index_fst l : (index_of <$> l).*1 = a_id <$> l.
Proof. by rewrite <- list_fmap_compose. Qed.

Lemma distinct_cons o l : distinct (o :: l) -> distinct l /\ (a_id o ∉ (a_id <$> l)) /\ (key_of o ∉ (key_of <$> l)).
Proof.
  intros H. pose proof (distinct_keys _ H) as Hk. destruct H as [Hn Hf]. apply NoDup_cons in Hn as [? ?], Hk as [? _].
  apply Forall_cons in Hf as [_ ?]. by repeat split.
Qed.

Lemma entries_perm l1 l2 : distinct l1 -> l1 ≡ₚ l2 -> entries l1 = entries l2.
Proof. intros H Hp. unfold entries. apply list_to_map_proper; [by apply distinct_entries|by rewrite Hp]. Qed.
Lemma index_perm l1 l2 : NoDup (a_id <$> l1) -> l1 ≡ₚ l2 -> index l1 = index l2.
Proof. intros H Hp. unfold index. apply list_to_map_proper; [by rewrite index_fst|by rewrite Hp]. Qed.

Lemma entries_lookup o l : entries (o :: l) !! key_of o = Some (a_id o, a_account o, a_qty o).
Proof. apply lookup_insert_eq. Qed.
Lemma entries_none k l : k ∉ (key_of <$> l) -> entries l !! k = None.
Proof. intros H. apply not_elem_of_list_to_map. by rewrite <- list_fmap_compose. Qed.
Lemma index_none id l : id ∉ (a_id <$> l) -> index l !! id = None.
Proof. intros H. apply not_elem_of_list_to_map. by rewrite index_fst. Qed.

Lemma ref_entries_delete o l : distinct (o :: l) -> delete (key_of o) (entries (o :: l)) = entries l.
Proof. intros (_ & _ & Hk)%distinct_cons. apply delete_insert_id. by apply entries_none. Qed.
Lemma index_delete o l : NoDup (a_id <$> (o :: l)) -> delete (a_id o) (index (o :: l)) = index l.
Proof. intros [Hn _]%NoDup_cons. apply delete_insert_id. by apply index_none. Qed.
Lemma entries_update o q l : entries (a_set_qty q o :: l) = <[key_of o := (a_id o, a_account o, q)]> (entries (o :: l)).
Proof. symmetry. apply insert_insert_eq. Qed.

Lemma entries_size l : distinct l -> size (entries l) = length l.
Proof.
  intros H. induction l as [|o l IH]; [apply map_size_empty|]. apply distinct_cons in H as (Hd & _ & Hk).
  unfold entries. simpl. rewrite map_size_insert_None by by apply entries_none. f_equal. by apply IH.
Qed.

Lemma keys_entries l : distinct l -> keys (entries l) ≡ₚ key_of <$> l.
Proof.
  intros H. unfold keys. rewrite merge_sort_Permutation. unfold entries. rewrite map_to_list_to_map by by apply distinct_entries.
  by rewrite <- list_fmap_compose.
Qed.

(** ** The best maker *)

Lemma elem_keys l k : distinct l -> k ∈ keys (entries l) <-> exists o, o ∈ l /\ k = key_of o.
Proof. intros H. rewrite (keys_entries l H), list_elem_of_fmap. naive_solver. Qed.

Lemma sorted_filter (P : key -> Prop) `{!forall k, Decision (P k)} ks : StronglySorted key_le ks -> StronglySorted key_le (filter P ks).
Proof.
  induction 1 as [|k ks Hs IH Hall]; [constructor|]. rewrite filter_cons. destruct (decide (P k)); [|done]. constructor; [done|].
  rewrite Forall_forall in *. intros x [_ Hx]%list_elem_of_filter. by apply Hall.
Qed.

(** Behind the head of a side nothing has a better price, and at its price
    nothing is older. *)
Lemma sorted_head_before s m l o : StronglySorted (before s) (m :: l) -> o ∈ m :: l -> o = m \/ before s m o.
Proof.
  intros [_ Hall]%StronglySorted_inv [->|Ho]%elem_of_cons; [by left|right]. rewrite Forall_forall in Hall. by apply Hall.
Qed.

Lemma first_ask m l :
  distinct (m :: l) -> StronglySorted (before Sell) (m :: l) -> first_key (entries (m :: l)) = Some (key_of m).
Proof.
  intros Hd Hs. apply sorted_head_min; [apply keys_sorted| |].
  - apply elem_keys; [done|]. exists m. split; [by left|done].
  - intros x (o & Ho & ->)%(elem_keys _ _ Hd). apply (sorted_head_before _ _ _ _ Hs) in Ho as [->|Hb]; unfold key_le, before in *; simpl in *; lia.
Qed.

Lemma first_bid m l :
  distinct (m :: l) -> StronglySorted (before Buy) (m :: l) ->
  exists s, last_key (entries (m :: l)) = Some (a_price m, s)
    /\ range_first (a_price m, 0) (a_price m, u64_max) (entries (m :: l)) = Some (key_of m).
Proof.
  intros Hd Hs. destruct (sorted_last_max (keys (entries (m :: l)))) as (k & Hl & Hk & Hmax); [apply keys_sorted| |].
  { intros E. assert (key_of m ∈ keys (entries (m :: l))) as H by (apply elem_keys; [done|]; exists m; split; [by left|done]).
    rewrite E in H. by apply elem_of_nil in H. }
  assert (Hkm : key_le (key_of m) k) by (apply Hmax, elem_keys; [done|]; exists m; split; [by left|done]).
  apply (elem_keys _ _ Hd) in Hk as (o & Ho & ->).
  assert (Hp : a_price o = a_price m).
  { apply (sorted_head_before _ _ _ _ Hs) in Ho as [->|Hb]; [done|]. unfold key_le, before, key_of in *. simpl in *. lia. }
  exists (a_seq o). split; [rewrite <- Hp; exact Hl|].
  assert (Hu : forall x, x ∈ m :: l -> in_u64 (a_seq x)).
  { intros x Hx. destruct Hd as [_ Hf]. rewrite Forall_forall in Hf. by apply Hf. }
  apply sorted_head_min; [apply sorted_filter, keys_sorted| |].
  - apply list_elem_of_filter. pose proof (Hu m (list_elem_of_here _ _)) as Hm. split; [unfold key_le, key_of, in_u64, u64_max in *; simpl; lia|].
    apply elem_keys; [done|]. exists m. split; [by left|done].
  - intros x [[Hlo Hhi] Hx]%list_elem_of_filter. apply (elem_keys _ _ Hd) in Hx as (y & Hy & ->).
    apply (sorted_head_before _ _ _ _ Hs) in Hy as [->|Hb]; unfold key_le, before, key_of in *; simpl in *; lia.
Qed.

Lemma best_maker_ok side price rb m l :
  maker_map side rb = entries (m :: l) -> distinct (m :: l) -> StronglySorted (before (opposite side)) (m :: l) ->
  best_maker side price rb = if crosses side Limit price (a_price m) then (true, Some (key_of m)) else (false, None).
Proof.
  unfold best_maker, crosses. destruct side; simpl; intros -> Hd Hs.
  - by rewrite (first_ask _ _ Hd Hs).
  - destruct (first_bid _ _ Hd Hs) as (s & -> & Hr). simpl. by rewrite Hr.
Qed.

Lemma best_maker_nil side price rb : maker_map side rb = entries [] -> best_maker side price rb = (false, None).
Proof. unfold best_maker. by destruct side; simpl; intros ->. Qed.

(** ** The matching loop *)

Lemma maker_map_set side m i rb : maker_map side (set_makers side m i rb) = m.
Proof. by destruct side. Qed.
Lemma rb_index_set side m i rb : rb_index (set_makers side m i rb) = i.
Proof. by destruct side. Qed.
Lemma set_makers_set side m i m' i' rb : set_makers side m i (set_makers side m' i' rb) = set_makers side m i rb.
Proof. by destruct side. Qed.
Lemma set_makers_id side rb : set_makers side (maker_map side rb) (rb_index rb) rb = rb.
Proof. by destruct side, rb. Qed.

Lemma distinct_app_l l1 l2 : distinct (l1 ++ l2) -> distinct l1.
Proof.
  intros [Hn Hf]. rewrite fmap_app in Hn. apply NoDup_app in Hn as (? & _ & _). apply Forall_app in Hf as [? _]. by split.
Qed.

Lemma index_set_qty q o l : index (a_set_qty q o :: l) = index (o :: l).
Proof. done. Qed.

(** The state of the loop: the makers in the map, the other side's orders in
    the index beside them. *)
Record loop_rep (side : Side) (rb : RefBook) (makers others : list aorder) : Prop := {
  lr_map : maker_map side rb = entries makers;
  lr_index : rb_index rb = index (makers ++ others);
  lr_distinct : distinct (makers ++ others);
  lr_sorted : StronglySorted (before (opposite side)) makers;
  lr_qty : Forall (fun o => 0 < a_qty o < two64) makers
}.

Lemma loop_rep_step side rb m rest others :
  loop_rep side rb (m :: rest) others ->
  loop_rep side (set_makers side (delete (key_of m) (maker_map side rb)) (delete (a_id m) (rb_index rb)) rb) rest others.
Proof.
  intros [Hm Hi Hd Hs Hq]. pose proof (distinct_app_l (m :: rest) _ Hd) as Hdm. destruct (distinct_cons m (rest ++ others) Hd) as (Hd' & _ & _).
  split; rewrite ?maker_map_set, ?rb_index_set; [| |done| |].
  - rewrite Hm. by apply ref_entries_delete.
  - rewrite Hi. apply index_delete. apply Hd.
  - by apply StronglySorted_inv in Hs as [? _].
  - by apply Forall_cons in Hq as [_ ?].
Qed.

Lemma ref_loop_ok seq ts_ns symbol side price oid acct makers q r q' ev :
  match_run seq ts_ns symbol side price oid acct Limit makers q r q' ev ->
  forall rb others total fuel, loop_rep side rb makers others -> 0 <= q -> 0 <= total -> total + q < two64 ->
  (length makers + 2 <= fuel)%nat ->
  ref_loop fuel side price acct rb q total = Val (set_makers side (entries r) (index (r ++ others)) rb, q', total + (q - q')).
Proof.
  induction 1 as [q|makers|m rest q Hc|m rest q r q' ev Hq0 Hc Ha Hrun IH|m rest q Hq0 Hc Ha Hlt|m rest q r q' ev Hq0 Hc Ha Hge Hrun IH];
    intros rb others total [|fuel] HR Hq Ht Hb Hf; try (simpl in Hf; lia); pose proof HR as [Hm Hi Hd Hs Hqs]; cbn [ref_loop];
    try (rewrite (proj2 (Z.eqb_neq q 0)) by done);
    try (rewrite (best_maker_ok side price rb m rest Hm (distinct_app_l (m :: rest) _ Hd) Hs), Hc; cbn [negb]);
    cbn [expect ebind]; rewrite ?Hm, ?entries_lookup; cbn [expect ebind].
  - rewrite (best_maker_nil _ _ _ Hm). cbn [negb]. rewrite <- Hm, <- Hi, set_makers_id, Z.sub_diag, Z.add_0_r. by destruct (q =? 0).
  - rewrite <- Hm, <- Hi, set_makers_id. f_equal. f_equal. lia.
  - rewrite <- Hm, <- Hi, set_makers_id, Z.sub_diag, Z.add_0_r. by destruct (q =? 0).
  - rewrite (proj2 (Z.eqb_eq _ _) Ha). rewrite <- Hm.
    rewrite (IH _ others); [by rewrite set_makers_set|by apply loop_rep_step|done|done|done|simpl in Hf; lia].
  - rewrite (proj2 (Z.eqb_neq _ _) Ha). apply Forall_cons in Hqs as [Hqm _]. rewrite Z.min_l by lia.
    rewrite !wrap_u64_id by (unfold in_u64; lia). rewrite (proj2 (Z.eqb_neq _ _)) by lia. rewrite Z.sub_diag.
    destruct fuel as [|fuel]; [simpl in Hf; lia|]. simpl. rewrite <- entries_update, Hi, Z.sub_0_r. by rewrite <- app_comm_cons, index_set_qty.
  - rewrite (proj2 (Z.eqb_neq _ _) Ha). apply Forall_cons in Hqs as [Hqm _]. rewrite Z.min_r by lia.
    rewrite !wrap_u64_id by (unfold in_u64; lia). rewrite Z.sub_diag. simpl. rewrite <- Hm.
    rewrite (IH _ others); [|by apply loop_rep_step|lia|lia|lia|simpl in Hf; lia]. rewrite set_makers_set. f_equal. f_equal. lia.
Qed.

(** ** One command *)

Record ref_rep (rb : RefBook) (A : abook) : Prop := {
  rr_bids : rb_bids rb = entries (ab_bids A);
  rr_asks : rb_asks rb = entries (ab_asks A);
  rr_index : rb_index rb = index (ab_all A)
}.

Definition seqs_u64 (A : abook) : Prop := Forall (fun o => in_u64 (a_seq o)) (ab_all A).

Lemma abook_distinct A : abook_ok A -> seqs_u64 A -> distinct (ab_all A).
Proof.
  intros HA Hs. split; [apply (ok_ids A HA)|]. unfold seqs_u64 in Hs. rewrite Forall_forall in *. intros o Ho. split; [|by apply Hs].
  pose proof (ok_orders A HA Buy) as HB. pose proof (ok_orders A HA Sell) as HS. rewrite Forall_forall in HB, HS.
  apply elem_of_app in Ho as [Ho|Ho]; [apply (HB o) in Ho|apply (HS o) in Ho]; by destruct Ho as (_ & _ & _ & ?).
Qed.

Lemma sides_perm A side : ab_orders A (opposite side) ++ ab_orders A side ≡ₚ ab_all A.
Proof. unfold ab_all. destruct side; simpl; [apply Permutation_app_comm|done]. Qed.

Lemma distinct_perm l1 l2 : l1 ≡ₚ l2 -> distinct l1 -> distinct l2.
Proof. intros Hp [Hn Hf]. split; [by rewrite <- Hp|by rewrite <- Hp]. Qed.

Lemma ref_loop_rep rb A side : ref_rep rb A -> abook_ok A -> seqs_u64 A ->
  loop_rep side rb (ab_orders A (opposite side)) (ab_orders A side).
Proof.
  intros [Hb Ha Hi] HA Hs. pose proof (abook_distinct A HA Hs) as Hd. pose proof (sides_perm A side) as Hp.
  assert (Hd' : distinct (ab_orders A (opposite side) ++ ab_orders A side)) by (by apply (distinct_perm (ab_all A))).
  split; [by destruct side| |done|apply (ok_sorted A HA)|by apply qty_pos_of_ok].
  rewrite Hi. symmetry. apply index_perm; [apply Hd'|done].
Qed.

(** The reference after the loop represents the book with the makers left. *)
Lemma ref_rep_makers rb A side r : ref_rep rb A -> abook_ok (ab_set_orders (opposite side) r A) ->
  ref_rep (set_makers side (entries r) (index (r ++ ab_orders A side)) rb) (ab_set_orders (opposite side) r A).
Proof.
  intros [Hb Ha Hi] HA. pose proof (ok_ids _ HA) as Hn.
  destruct side; split; simpl in *; try done. apply index_perm; [|apply Permutation_app_comm]. by rewrite Permutation_app_comm.
Qed.

Lemma ref_rep_rest rb A side o : ref_rep rb A -> a_side o = side -> a_id o = a_seq o ->
  distinct (ab_all (ab_set_orders side (spec_insert side o (ab_orders A side)) A)) ->
  ref_rep (ref_rest side (key_of o) (a_id o, a_account o, a_qty o) (a_seq o) rb)
    (ab_set_orders side (spec_insert side o (ab_orders A side)) A).
Proof.
  intros [Hb Ha Hi] Hside Hid Hd. set (A2 := ab_set_orders side _ A) in *.
  assert (Hp : ab_all A2 ≡ₚ o :: ab_all A).
  { unfold A2, ab_all. destruct side; simpl; rewrite spec_insert_perm; [done|]. by rewrite <- Permutation_middle. }
  assert (Hix : <[a_seq o := (side, key_of o)]> (index (ab_all A)) = index (ab_all A2)).
  { rewrite (index_perm _ _ (proj1 Hd) Hp). by rewrite <- Hside, <- Hid. }
  assert (Hent : forall l, l ≡ₚ o :: ab_orders A side -> distinct l ->
    <[key_of o := (a_id o, a_account o, a_qty o)]> (entries (ab_orders A side)) = entries l).
  { intros l Hl Hdl. symmetry. by apply (entries_perm l (o :: ab_orders A side)). }
  unfold ref_rest. rewrite Hi, Hix. unfold A2, ab_all in *. destruct side; simpl in *; split; simpl; try done.
  - rewrite Hb. apply Hent; [apply spec_insert_perm|]. by eapply distinct_app_l.
  - rewrite Ha. apply Hent; [apply spec_insert_perm|]. eapply distinct_app_l, distinct_perm; [apply Permutation_app_comm|done].
Qed.

(** The commands the reference is made for: limit orders that are not
    fill-or-kill, and cancels by the owner. *)
Definition plain_cmd (A : abook) (cmd : SequencedCommand) : Prop :=
  match sc_cmd cmd with
  | Inbound_NewOrder account _ _ side price qty ot tif => ot = Limit /\ tif <> Fok /\ in_range A price = true /\ 0 < qty < two64
  | Inbound_Cancel account oid => forall o, o ∈ ab_all A -> a_id o = oid -> a_account o = account
  | _ => True
  end.

Definition no_trade (e : EngineEvent) : Prop := ev_trade_qty e = 0.
Lemma traded_tail ev tail : Forall no_trade tail -> traded (ev ++ tail) = traded ev.
Proof. intros H. rewrite traded_app. enough (traded tail = 0) by lia. unfold traded. induction H; simpl; [done|]. unfold no_trade in *. lia. Qed.

Lemma after_ok A side price acct seq ts_ns symbol oid qty r q ev :
  abook_ok A -> 0 <= qty ->
  match_run seq ts_ns symbol side price oid acct Limit (ab_orders A (opposite side)) qty r q ev ->
  abook_ok (ab_set_orders (opposite side) r A) /\ (length r <= length (ab_orders A (opposite side)))%nat.
Proof.
  intros HA Hq Hrun. destruct (run_suffix _ _ _ _ _ _ _ _ _ _ _ _ _ Hrun Hq) as (pre & s & Heq & Hs & Hf). split.
  - eapply abook_ok_shrink; [done|exact Heq|done|]. by apply Hf, qty_pos_of_ok.
  - rewrite Heq, length_app. apply (f_equal length) in Hs. rewrite !length_fmap in Hs. lia.
Qed.

Lemma ref_new_order_ok A rb seq ts_ns account coid symbol side price qty tif :
  ref_rep rb A -> abook_ok A -> seqs_u64 A -> seq_fresh A seq -> tif <> Fok -> in_range A price = true -> 0 < qty < two64 ->
  (length (ab_all A) < ab_capacity A)%nat ->
  seqs_u64 (spec_new_order A seq ts_ns account coid symbol side price qty Limit tif).1 ->
  abook_ok (spec_new_order A seq ts_ns account coid symbol side price qty Limit tif).1 ->
  exists rb', ref_new_order rb seq side price qty account Limit tif
      = Val (rb', traded (spec_new_order A seq ts_ns account coid symbol side price qty Limit tif).2)
    /\ ref_rep rb' (spec_new_order A seq ts_ns account coid symbol side price qty Limit tif).1.
Proof.
  intros HR HA Hs Hfresh Htif Hrange Hqty Hcap. destruct (spec_new_order _ _ _ _ _ _ _ _ _ _ _) as [A' evs] eqn:Hspec. simpl. intros Hs' HA'.
  apply spec_new_order_out in Hspec. unfold ref_new_order.
  assert (Hloop : forall r q ev, match_run seq ts_ns symbol side price seq account Limit (ab_orders A (opposite side)) qty r q ev ->
    ref_loop (ref_fuel side rb) side price account rb qty 0
    = Val (set_makers side (entries r) (index (r ++ ab_orders A side)) rb, q, traded ev)).
  { intros r q ev Hrun. pose proof (ref_loop_rep rb A side HR HA Hs) as HL. pose proof (run_conserves _ _ _ _ _ _ _ _ _ _ _ _ _ Hrun).
    rewrite (ref_loop_ok _ _ _ _ _ _ _ _ _ _ _ _ Hrun rb (ab_orders A side)); [f_equal; f_equal; lia|done|lia|lia|lia|].
    unfold ref_fuel. rewrite (lr_map _ _ _ _ HL), entries_size; [lia|]. eapply distinct_app_l, HL. }
  inversion Hspec as [reason Hbad|r ev _ Hrun|r q ev last _ Hrun Hq Hk _ Hlast|r q ev _ Hrun _ _ _ Hfull|r q ev A2 _ Hrun Hq -> _ _ HA2]; subst.
  - exfalso. destruct Hbad as [[? _]|[(_ & _ & ? & _)|(_ & ? & _)]]; [lia|congruence|done].
  - rewrite (Hloop _ _ _ Hrun). simpl. rewrite traded_tail by (by repeat constructor). eexists. split; [done|]. by apply ref_rep_makers.
  - rewrite (Hloop _ _ _ Hrun). simpl. rewrite traded_tail by (repeat constructor; by destruct (q <? qty)).
    assert (Hg : bool_decide (tif = Gtc) = false) by (apply bool_decide_eq_false; naive_solver). rewrite Hg, andb_false_r.
    eexists. split; [done|]. by apply ref_rep_makers.
  - exfalso. destruct (after_ok _ _ _ _ _ _ _ _ _ _ _ _ HA (Z.lt_le_incl _ _ (proj1 Hqty)) Hrun) as [_ Hlen].
    assert (Hall : forall l B, length (ab_all (ab_set_orders (opposite side) l B)) = (length l + length (ab_orders B side))%nat).
    { intros l B. rewrite <- (sides_perm _ side), length_app. f_equal; by destruct side. }
    rewrite Hall in Hfull. rewrite <- (sides_perm A side), length_app in Hcap. lia.
  - rewrite (Hloop _ _ _ Hrun). simpl. rewrite traded_tail by (by repeat constructor).
    destruct (after_ok _ _ _ _ _ _ _ _ _ _ _ _ HA (Z.lt_le_incl _ _ (proj1 Hqty)) Hrun) as [HA1 _].
    pose proof (run_range _ _ _ _ _ _ _ _ _ _ _ _ _ Hrun (Z.lt_le_incl _ _ (proj1 Hqty)) (qty_pos_of_ok' A _ HA)) as Hrem.
    rewrite (proj2 (Z.ltb_lt 0 q)) by lia. simpl. eexists. split; [done|].
    apply (ref_rep_rest _ _ side (mkAOrder seq account q side price seq)); [by apply ref_rep_makers|done|done|by apply abook_distinct].
Qed.

Lemma filter_id (oid : Z) l : oid ∉ (a_id <$> l) -> List.filter (fun o => negb (a_id o =? oid)) l = l.
Proof.
  induction l as [|o l IH]; [done|]. rewrite fmap_cons, not_elem_of_cons. intros [Hne Hl]. simpl.
  rewrite (proj2 (Z.eqb_neq _ _)) by congruence. simpl. by rewrite IH.
Qed.

Definition without (oid : Z) (l : list aorder) : list aorder := List.filter (fun o => negb (a_id o =? oid)) l.

Lemma without_perm o l : NoDup (a_id <$> l) -> o ∈ l -> l ≡ₚ o :: without (a_id o) l.
Proof.
  induction l as [|x l IH]; intros Hn Ho; [by apply elem_of_nil in Ho|]. rewrite fmap_cons in Hn. apply NoDup_cons in Hn as [Hx Hn].
  unfold without. simpl. apply elem_of_cons in Ho as [->|Ho].
  - rewrite Z.eqb_refl. simpl. by rewrite filter_id.
  - rewrite (proj2 (Z.eqb_neq _ _)); [simpl|].
    + rewrite Permutation_swap. constructor. by apply IH.
    + intros E. apply Hx. rewrite E. by apply list_elem_of_fmap_2.
Qed.

Lemma entries_without o l : distinct l -> o ∈ l -> delete (key_of o) (entries l) = entries (without (a_id o) l).
Proof.
  intros Hd Ho. pose proof (without_perm o l (proj1 Hd) Ho) as Hp. rewrite (entries_perm _ _ Hd Hp). apply ref_entries_delete. by eapply distinct_perm.
Qed.
Lemma index_without o l : NoDup (a_id <$> l) -> o ∈ l -> delete (a_id o) (index l) = index (without (a_id o) l).
Proof.
  intros Hd Ho. pose proof (without_perm o l Hd Ho) as Hp. rewrite (index_perm _ _ Hd Hp). apply index_delete. by rewrite <- Hp.
Qed.
Lemma index_lookup o l : NoDup (a_id <$> l) -> o ∈ l -> index l !! a_id o = Some (a_side o, key_of o).
Proof.
  intros Hn Ho. apply elem_of_list_to_map; [by rewrite index_fst|]. apply list_elem_of_fmap. by exists o.
Qed.

Lemma without_app oid l1 l2 : without oid (l1 ++ l2) = without oid l1 ++ without oid l2.
Proof. apply List.filter_app. Qed.

Lemma without_other o l l' : o ∈ l -> NoDup (a_id <$> (l ++ l')) -> without (a_id o) l' = l'.
Proof.
  intros Ho Hn. rewrite fmap_app in Hn. apply NoDup_app in Hn as (_ & Hdis & _). apply filter_id. apply Hdis. by apply list_elem_of_fmap_2.
Qed.

Lemma ref_cancel_ok A rb seq account oid :
  ref_rep rb A -> abook_ok A -> seqs_u64 A -> (forall o, o ∈ ab_all A -> a_id o = oid -> a_account o = account) ->
  ref_rep (ref_cancel rb oid) (spec_cancel A seq account oid).1 /\ traded (spec_cancel A seq account oid).2 = 0.
Proof.
  intros HR HA Hs Hown. pose proof (abook_distinct A HA Hs) as Hd. destruct HR as [Hb Ha Hi]. unfold ref_cancel, spec_cancel.
  destruct (List.find _ (ab_all A)) as [o|] eqn:Hfind.
  - apply find_some in Hfind as [Hin Hid%Z.eqb_eq]. apply list_elem_of_In in Hin. subst oid.
    rewrite (Hown o Hin eq_refl), Z.eqb_refl. simpl. split; [|done].
    rewrite Hi, (index_lookup o _ (proj1 Hd) Hin), (index_without o _ (proj1 Hd) Hin). unfold ab_all in *. rewrite without_app.
    pose proof (ok_orders A HA Buy) as HB. pose proof (ok_orders A HA Sell) as HS. simpl in HB, HS. rewrite Forall_forall in HB, HS.
    pose proof (distinct_perm _ _ (Permutation_app_comm _ _) Hd) as Hd'. apply elem_of_app in Hin as [Hin|Hin].
    + destruct (HB o Hin) as (-> & _). split; simpl; [| |done].
      * rewrite Hb. apply entries_without; [|done]. by eapply distinct_app_l.
      * rewrite Ha. f_equal. symmetry. by apply (without_other o (ab_bids A)), Hd.
    + destruct (HS o Hin) as (-> & _). split; simpl; [| |done].
      * rewrite Hb. f_equal. symmetry. by apply (without_other o (ab_asks A)), Hd'.
      * rewrite Ha. apply entries_without; [|done]. by eapply distinct_app_l.
  - rewrite Hi, index_none; [simpl; by split|]. intros (o & -> & Ho)%list_elem_of_fmap.
    apply (find_none _ _) with (x := o) in Hfind; [by rewrite Z.eqb_refl in Hfind|by apply list_elem_of_In].
Qed.

(** The reference follows the specification of the book and fills the same
    quantity. *)
Lemma ref_apply_ok A rb cmd :
  ref_rep rb A -> abook_ok A -> seqs_u64 A -> seq_fresh A (sc_seq cmd) -> plain_cmd A cmd -> (length (ab_all A) < ab_capacity A)%nat ->
  seqs_u64 (spec_apply A cmd).1 -> abook_ok (spec_apply A cmd).1 ->
  exists rb', ref_apply rb cmd = Val (rb', traded (spec_apply A cmd).2) /\ ref_rep rb' (spec_apply A cmd).1.
Proof.
  destruct cmd as [term seq ts_ns [account coid symbol side price qty ot tif|account oid|symbol account|account]];
    unfold plain_cmd, spec_apply, ref_apply; simpl; intros HR HA Hs Hfresh Hp Hcap Hs' HA'; [|..|by exists rb|by exists rb].
  - destruct Hp as (-> & Hf & Hr & Hq). by apply ref_new_order_ok.
  - destruct (ref_cancel_ok A rb seq account oid HR HA Hs Hp) as [? ->]. eauto.
Qed.

(** ** A whole trial *)

Lemma total_filled_from s evs : foldl (fun s e => wrap_u64 (s + ev_trade_qty e)) (wrap_u64 s) evs = wrap_u64 (s + traded evs).
Proof.
  revert s. induction evs as [|e evs IH]; intros s; simpl; [unfold traded; simpl; by rewrite Z.add_0_r|].
  rewrite wrap_u64_add_l, IH. f_equal. unfold traded. simpl. lia.
Qed.
Lemma total_filled_traded evs : in_u64 (traded evs) -> total_filled evs = traded evs.
Proof. intros H. rewrite <- (wrap_u64_id _ H). apply (total_filled_from 0 evs). Qed.

Lemma all_length A side l :
  length (ab_all (ab_set_orders side l A)) = (length l + length (ab_orders A (opposite side)))%nat.
Proof. unfold ab_all. rewrite length_app. destruct side; simpl; lia. Qed.

(** What a plain command trades fits a u64, and it rests at most one order. *)
Lemma spec_apply_bounds A cmd :
  abook_ok A -> plain_cmd A cmd ->
  in_u64 (traded (spec_apply A cmd).2) /\ (length (ab_all (spec_apply A cmd).1) <= S (length (ab_all A)))%nat
  /\ ab_capacity (spec_apply A cmd).1 = ab_capacity A.
Proof.
  assert (H0 : in_u64 0) by done.
  destruct cmd as [term seq ts_ns [account coid symbol side price qty ot tif|account oid|symbol account|account]];
    unfold plain_cmd, spec_apply; simpl; intros HA Hp; [|..|by split_and!; [|lia|]|by split_and!; [|lia|]].
  - destruct Hp as (-> & Hf & Hr & Hq). destruct (spec_new_order _ _ _ _ _ _ _ _ _ _ _) as [A' evs] eqn:Hspec. simpl.
    apply spec_new_order_out in Hspec.
    assert (Hrun : forall r q ev, match_run seq ts_ns symbol side price seq account Limit (ab_orders A (opposite side)) qty r q ev ->
      in_u64 (traded ev) /\ (length (ab_all (ab_set_orders (opposite side) r A)) <= length (ab_all A))%nat).
    { intros r q ev Hrun. pose proof (run_conserves _ _ _ _ _ _ _ _ _ _ _ _ _ Hrun).
      pose proof (run_range _ _ _ _ _ _ _ _ _ _ _ _ _ Hrun (Z.lt_le_incl _ _ (proj1 Hq)) (qty_pos_of_ok' A _ HA)).
      destruct (after_ok _ _ _ _ _ _ _ _ _ _ _ _ HA (Z.lt_le_incl _ _ (proj1 Hq)) Hrun) as [_ Hlen]. split; [unfold in_u64; lia|].
      rewrite all_length, <- (sides_perm A side), length_app. destruct side; simpl in *; lia. }
    inversion Hspec as [reason Hbad|r ev _ Hr'|r q ev last _ Hr' Hq0 Hk _ Hlast|r q ev _ Hr' _ _ _ Hfull|r q ev A2 _ Hr' Hq0 Htif _ _ HA2]; subst;
      try (destruct (Hrun _ _ _ Hr') as [? ?]); autorewrite with abook; rewrite ?traded_tail by (repeat constructor; by case_match);
      (split_and!; [done| |done]); try lia.
    rewrite all_length. etransitivity; [|apply le_n_S; eassumption]. rewrite spec_insert_perm. simpl.
    rewrite <- (sides_perm _ side), length_app. destruct side; simpl; lia.
  - unfold spec_cancel. repeat case_match; simpl; split_and!; try done; try lia.
    unfold ab_all. simpl. rewrite !length_app. pose proof (List.filter_length_le (fun o => negb (a_id o =? oid)) (ab_bids A)).
    pose proof (List.filter_length_le (fun o => negb (a_id o =? oid)) (ab_asks A)). lia.
Qed.

(** The account of a new order. *)
Definition order_account (c : InboundCommand) : option Z :=
  match c with Inbound_NewOrder account _ _ _ _ _ _ _ => Some account | _ => None end.

Definition stream_cmd (cfg : BookConfig) (cmd : SequencedCommand) : Prop :=
  in_u64 (sc_seq cmd) /\
  match sc_cmd cmd with
  | Inbound_NewOrder _ _ _ _ price qty ot tif =>
      ot = Limit /\ tif <> Fok /\ 0 < qty < two64
      /\ cfg_tick_floor cfg <= price < cfg_tick_floor cfg + Z.of_nat (cfg_num_ticks cfg)
  | _ => True
  end.

(** Commands with rising numbers: limit orders inside the ladder, not
    fill-or-kill, and cancels that name the account of the order. *)
Record stream_ok (cfg : BookConfig) (cmds : list SequencedCommand) : Prop := {
  so_rising : StronglySorted (fun c d => sc_seq c < sc_seq d) cmds;
  so_cmds : Forall (stream_cmd cfg) cmds;
  so_owner c d account oid account' : c ∈ cmds -> d ∈ cmds -> sc_cmd c = Inbound_Cancel account oid ->
    sc_seq d = oid -> order_account (sc_cmd d) = Some account' -> account' = account
}.

(** An open order was entered by a command of the stream. *)
Definition entered (cmds : list SequencedCommand) (o : aorder) : Prop :=
  in_u64 (a_seq o) /\ exists d, d ∈ cmds /\ sc_seq d = a_id o /\ order_account (sc_cmd d) = Some (a_account o).

Section TrialOk.
Context {SM : SlotMapApi} {SML : SlotMapLaws SM}.

Record trial_inv (cfg : BookConfig) (all todo : list SequencedCommand) (b : OrderBook) (rb : RefBook) (A : abook) : Prop := {
  ti_rep : rep b A;
  ti_ok : abook_ok A;
  ti_ref : ref_rep rb A;
  ti_entered : Forall (entered all) (ab_all A);
  ti_fresh : Forall (fun c => seq_fresh A (sc_seq c)) todo;
  ti_floor : ab_floor A = cfg_tick_floor cfg;
  ti_ticks : ab_ticks A = cfg_num_ticks cfg;
  ti_room : (length (ab_all A) + length todo <= ab_capacity A)%nat
}.

Lemma entered_seqs all A : Forall (entered all) (ab_all A) -> seqs_u64 A.
Proof. intros H. eapply Forall_impl; [exact H|]. by intros o [? _]. Qed.

Lemma stream_cmd_plain cfg all A cmd :
  cfg_ok cfg -> stream_ok cfg all -> cmd ∈ all -> Forall (entered all) (ab_all A) -> ab_floor A = cfg_tick_floor cfg -> ab_ticks A = cfg_num_ticks cfg ->
  plain_cmd A cmd /\ cmd_ok cmd.
Proof.
  intros (Hfl & Htop & _) [_ Hcmds Hown] Hin Hent Hf Ht. rewrite Forall_forall in Hcmds. rewrite Forall_forall in Hent. destruct (Hcmds cmd Hin) as [Hseq Hc].
  unfold plain_cmd, cmd_ok, in_range. rewrite Hf, Ht. destruct (sc_cmd cmd) as [account coid symbol side price qty ot tif|account oid| |] eqn:E; try done.
  - destruct Hc as (-> & ? & ? & ?). unfold in_i64, in_u64 in *. split_and!; try done; lia.
  - split; [|done]. intros o Ho <-. destruct (Hent o Ho) as (_ & d & Hd & Hid & Hacc). exact (Hown cmd d _ _ _ Hin Hd E Hid Hacc).
Qed.

Lemma trial_step cfg all cmd todo b rb A :
  cfg_ok cfg -> stream_ok cfg all -> cmd ∈ all -> Forall (fun c => sc_seq cmd < sc_seq c) todo -> trial_inv cfg all (cmd :: todo) b rb A ->
  exists b' rb' evs n, apply b cmd = Val (b', evs) /\ ref_apply rb cmd = Val (rb', n) /\ total_filled evs = n
    /\ trial_inv cfg all todo b' rb' (spec_apply A cmd).1.
Proof.
  intros Hcfg Hst Hin Hlater [HR HA Href Hent Hfresh Hf Ht Hroom].
  destruct (stream_cmd_plain cfg all A cmd Hcfg Hst Hin Hent Hf Ht) as [Hp Hcmd]. apply Forall_cons in Hfresh as [Hfr Hfresh].
  destruct (apply_ok b A cmd HR HA Hfr Hcmd) as (b' & Hb & HR'). pose proof (spec_apply_ok A cmd HA Hfr Hcmd) as HA'.
  destruct (spec_apply_bounds A cmd HA Hp) as (Htr & Hlen & Hcap). simpl in Hroom.
  assert (Hent' : Forall (entered all) (ab_all (spec_apply A cmd).1)).
  { apply spec_apply_orders; [done| |done|].
    - intros x y (Hid & _ & Hseq & _ & Hac)%strip_fields. unfold entered. by rewrite Hid, Hseq, Hac.
    - intros account coid symbol side price qty ot tif q E. pose proof (so_cmds _ _ Hst) as Hcs. rewrite Forall_forall in Hcs.
      split; simpl; [by apply Hcs|]. exists cmd. split_and!; [done..|]. by rewrite E. }
  destruct (ref_apply_ok A rb cmd Href HA (entered_seqs _ _ Hent) Hfr Hp) as (rb' & Hrb & Href'); [lia|by eapply entered_seqs|done|].
  exists b', rb', (spec_apply A cmd).2, (traded (spec_apply A cmd).2). split_and!; [done|done|by apply total_filled_traded|].
  destruct (spec_apply_frame A cmd) as [Hf1 Hf2]. split; try done; [|congruence|congruence|lia].
  rewrite Forall_forall in *. intros c Hc. apply (seqs_fresh _ (sc_seq cmd)); [|by apply Hlater].
  apply (spec_apply_seqs A cmd (sc_seq cmd - 1)); [done| |lia]. eapply Forall_impl; [exact Hfr|]. simpl. lia.
Qed.

Lemma trial_loop_ok cfg all todo b rb A :
  cfg_ok cfg -> stream_ok cfg all -> (forall c, c ∈ todo -> c ∈ all) -> StronglySorted (fun c d => sc_seq c < sc_seq d) todo ->
  trial_inv cfg all todo b rb A -> trial_loop todo b rb = Val tt.
Proof.
  intros Hcfg Hst. revert b rb A. induction todo as [|cmd todo IH]; intros b rb A Hsub Hs Hinv; [done|].
  apply StronglySorted_inv in Hs as [Hs Hlater].
  destruct (trial_step cfg all cmd todo b rb A) as (b' & rb' & evs & n & Hb & Hrb & Hn & Hinv'); [done|done|apply Hsub; by left|done|done|].
  simpl. rewrite Hb. simpl. rewrite Hrb. simpl. rewrite Hn, Z.eqb_refl. simpl. eapply IH; [|done|done]. intros c Hc. apply Hsub. by right.
Qed.

(** Warming the arena up leaves at least the capacity asked for. *)
Lemma new_capacity cfg : (cfg_arena_capacity cfg <= sm_capacity (ob_arena (OrderBook_new cfg)))%nat.
Proof.
  unfold OrderBook_new. set (a := sm_with_capacity _). set (o := RestingOrder_new _ _ _ _ _ _).
  assert (Hlen : sm_len a = 0%nat).
  { rewrite sm_len_spec. destruct (sm_keys a) as [|k ks] eqn:E; [done|]. exfalso.
    assert (H : k ∈ sm_keys a) by (rewrite E; by left). apply sm_keys_spec in H. unfold a in H. rewrite sm_get_empty in H. by destruct H. }
  pose proof (sm_capacity_insert a o) as Hins. destruct (sm_insert a o) as [k a1]. pose proof (sm_capacity_remove a1 k) as Hrem.
  destruct (sm_remove a1 k) as [x a2]. simpl in *. pose proof (sm_capacity_with (V := RestingOrder) (cfg_arena_capacity cfg)) as Hcap. fold a in Hcap.
  destruct (cfg_arena_capacity cfg) as [|n] eqn:En; [lia|]. rewrite Hrem, Hins by lia. done.
Qed.

Lemma trial_agrees cfg cmds :
  cfg_ok cfg -> stream_ok cfg cmds -> (length cmds <= cfg_arena_capacity cfg)%nat ->
  trial_loop cmds (OrderBook_new cfg) RefBook_new = Val tt.
Proof.
  intros Hcfg Hst Hlen. eapply (trial_loop_ok cfg cmds cmds _ _ (new_abook cfg)); [done|done|done|apply Hst|].
  split; [by apply OrderBook_new_rep|apply new_abook_ok|done|constructor| |done|done|].
  - apply Forall_forall. intros c _. constructor.
  - simpl. etransitivity; [exact Hlen|]. apply new_capacity.
Qed.
End TrialOk.

(** ** The generated streams *)

Lemma swap_remove_ok {A} (i : nat) (l : list A) : (i < length l)%nat ->
  exists x l', swap_remove i l = Val (x, l') /\ x ∈ l /\ forall y, y ∈ l' -> y ∈ l.
Proof.
  intros Hi. unfold swap_remove, index_list. destruct (lookup_lt_is_Some_2 l i Hi) as [x Hx]. rewrite Hx. simpl.
  destruct (last l) as [z|] eqn:Hz; [|apply last_None in Hz; subst; simpl in Hi; lia].
  eexists _, _. split; [done|]. split; [by eapply list_elem_of_lookup_2|]. intros y Hy.
  apply elem_of_take in Hy as (j & Hj & _). apply list_lookup_insert_Some in Hj as [(_ & <- & _)|[_ Hj]].
  - apply last_Some in Hz as [l1 ->]. set_solver.
  - by eapply list_elem_of_lookup_2.
Qed.

Section GenOk.
Context {RA : RngApi} {RL : RngLaws RA}.

Ltac draw lo hi :=
  match goal with
  | |- context [gen_range lo hi ?r] => pose proof (gen_range_in lo hi r); destruct (gen_range lo hi r); simpl in *
  end.

Lemma gen_command_ok seq rng live : in_u64 seq ->
  exists cmd rng' live', gen_command seq rng live = Val (cmd, rng', live') /\ sc_seq cmd = seq /\ stream_cmd fuzz_config cmd
    /\ (forall x, x ∈ live' -> x ∈ live \/ x.1 = seq /\ order_account (sc_cmd cmd) = Some x.2)
    /\ (forall account oid, sc_cmd cmd = Inbound_Cancel account oid -> (oid, account) ∈ live).
Proof.
  intros Hseq. unfold gen_command. draw 0 4. draw 0 3.
  assert (exists a, index_list [1; 2; 3] (Z.to_nat z0) = Val a) as [account ->].
  { unfold index_list. destruct (lookup_lt_is_Some_2 [1; 2; 3] (Z.to_nat z0)) as [a ->]; [simpl; lia|by exists a]. }
  cbn [ebind]. destruct ((z <? 2) || (length live =? 0)%nat) eqn:Hact.
  - destruct (gen_bool 50 r0) as [sd r1]. draw 0 (Z.of_nat NUM_TICKS). draw 1 21. destruct (gen_bool 20 r3) as [io r4]. cbn [ebind].
    eexists _, _, _. split; [done|]. split_and!; [done| | |done].
    + split; [done|]. simpl. unfold fuzz_config, NUM_TICKS, two64 in *. simpl in *. by destruct io; split_and!; try done; lia.
    + intros x [Hx| ->%list_elem_of_singleton]%elem_of_app; [by left|by right].
  - apply orb_false_iff in Hact as [_ Hne%Nat.eqb_neq]. draw 0 (Z.of_nat (length live)).
    destruct (swap_remove_ok (Z.to_nat z1) live) as ([oid acct] & live' & -> & Hin & Hsub); [lia|]. cbn [ebind].
    eexists _, _, _. split; [done|]. split_and!; [done|by split| |].
    + intros x Hx. left. by apply Hsub.
    + by intros account' oid' [= <- <-].
Qed.

Lemma gen_from_ok n : forall seq rng live, 1 <= seq -> seq + Z.of_nat n <= two64 ->
  exists cmds, gen_from n seq rng live = Val cmds /\ sc_seq <$> cmds = seqZ seq (Z.of_nat n) /\ Forall (stream_cmd fuzz_config) cmds
    /\ forall c account oid, c ∈ cmds -> sc_cmd c = Inbound_Cancel account oid ->
         (oid, account) ∈ live \/ exists d, d ∈ cmds /\ sc_seq d = oid /\ order_account (sc_cmd d) = Some account.
Proof.
  induction n as [|n IH]; intros seq rng live H1 Hn.
  { exists []. split_and!; try done. intros c account oid Hc. by apply elem_of_nil in Hc. }
  cbn [gen_from]. destruct (gen_command_ok seq rng live) as (cmd & rng' & live' & -> & Hs & Hok & Hlive & Hcancel); [unfold in_u64; lia|].
  cbn [ebind]. destruct (IH (seq + 1) rng' live') as (cmds & -> & Hss & Hall & Hown); [lia|lia|]. cbn [ebind]. exists (cmd :: cmds).
  split; [done|]. split_and!; [rewrite fmap_cons, Hs, Hss; rewrite (seqZ_cons seq) by lia; do 2 f_equal; lia|by constructor|].
  intros c account oid [->|Hc]%elem_of_cons Hcmd; [left; by apply Hcancel|].
  destruct (Hown c account oid Hc Hcmd) as [Hin|(d & Hd & ?)].
  - apply Hlive in Hin as [?|[Hx Hacc]]; [by left|]. right. exists cmd. simpl in *. split_and!; [by left|congruence|done].
  - right. exists d. split; [by right|done].
Qed.

Lemma seqZ_rising n : forall (cmds : list SequencedCommand) s, sc_seq <$> cmds = seqZ s (Z.of_nat n) ->
  StronglySorted (fun c d => sc_seq c < sc_seq d) cmds.
Proof.
  induction n as [|n IH]; intros [|c cmds] s H; [constructor|done|constructor|]. rewrite seqZ_cons in H by lia. rewrite fmap_cons in H. injection H as Hc H.
  replace (Z.pred (Z.of_nat (S n))) with (Z.of_nat n) in H by lia. constructor; [by eapply IH|].
  apply Forall_forall. intros d Hd. assert (Hd' : sc_seq d ∈ sc_seq <$> cmds) by by apply list_elem_of_fmap_2.
  rewrite H in Hd'. apply elem_of_seqZ in Hd'. lia.
Qed.

Lemma gen_commands_ok rng n : Z.of_nat n < two64 -> exists cmds, gen_commands rng n = Val cmds /\ stream_ok fuzz_config cmds /\ length cmds = n.
Proof.
  intros Hn. destruct (gen_from_ok n 1 rng [] ltac:(lia) ltac:(lia)) as (cmds & Hg & Hs & Hall & Hown). exists cmds. split; [done|].
  pose proof (seqZ_rising n cmds 1 Hs) as Hr. split.
  - split; [done|done|]. intros c d account oid account' Hc Hd Hcan Hseq Hacc.
    destruct (Hown c account oid Hc Hcan) as [Hin|(d' & Hd' & Hseq' & Hacc')]; [by apply elem_of_nil in Hin|].
    assert (d = d') as ->; [|congruence]. clear -Hr Hd Hd' Hseq Hseq'. induction Hr as [|x l _ IH Hx]; [by apply elem_of_nil in Hd|].
    rewrite Forall_forall in Hx. apply elem_of_cons in Hd as [->|Hd], Hd' as [->|Hd']; [done| | |by apply IH];
      [specialize (Hx d' Hd')|specialize (Hx d Hd)]; lia.
  - apply (f_equal length) in Hs. rewrite length_fmap, length_seqZ in Hs. lia.
Qed.

Context {SM : SlotMapApi} {SML : SlotMapLaws SM}.

Lemma fuzz_config_ok : cfg_ok fuzz_config.
Proof. unfold cfg_ok, fuzz_config, in_i64. simpl. unfold NUM_TICKS, TICK_FLOOR, two63. lia. Qed.

Lemma run_one_trial_ok seed n : (n <= ARENA_CAP)%nat -> run_one_trial seed n = Val tt.
Proof.
  intros Hn. unfold run_one_trial. destruct (gen_commands_ok (seed_from_u64 seed) n) as (cmds & -> & Hst & Hlen).
  { unfold ARENA_CAP, two64 in *. lia. }
  cbn [ebind]. apply (trial_agrees fuzz_config); [apply fuzz_config_ok|done|]. by rewrite Hlen.
Qed.

(** The repository's differential test with its fixed seeds passes, whatever
    random numbers the generator draws. *)
Theorem differential_fuzz_passes : differential_fuzz_fixed_seeds = Val tt.
Proof.
  unfold differential_fuzz_fixed_seeds. generalize [0; 1; 42; 1337; 3735928559; 999999; u64_max / 3]. intros seeds.
  induction seeds as [|seed seeds IH]; [done|]. cbn [run_trials]. rewrite run_one_trial_ok by (unfold ARENA_CAP; lia). done.
Qed.
End GenOk.

(** ** The theorem *)

(** C9. The book and the naive matcher agree.  On every stream of commands with
    rising sequence numbers, limit orders inside the ladder that are not
    fill-or-kill and cancels by the order's own account, no longer than the
    arena's capacity, neither the book nor the reference panics, and after
    every single command both have filled the same quantity, so that the
    comparison of the differential test never fails. *)
Theorem book_matches_reference {SM : SlotMapApi} {SML : SlotMapLaws SM} cfg cmds :
  cfg_ok cfg -> stream_ok cfg cmds -> (length cmds <= cfg_arena_capacity cfg)%nat ->
  trial_loop cmds (OrderBook_new cfg) RefBook_new = Val tt.
Proof. apply trial_agrees. Qed.

Module RefDemo.
Import GmapSlotMap.
(** A linear congruential generator. *)
#[export] Instance demo_rng : RngApi := {|
  Rng := Z;
  seed_from_u64 s := s;
  gen_range lo hi r := (lo + (r / 8589934592) mod (hi - lo), wrap_u64 (r * 6364136223846793005 + 1442695040888963407));
  gen_bool p r := ((r / 8589934592) mod 100 <? p, wrap_u64 (r * 6364136223846793005 + 1442695040888963407))
|}.
#[export] Instance demo_rng_laws : RngLaws demo_rng.
Proof. split. intros lo hi r H. simpl. pose proof (Z.mod_pos_bound (r / 8589934592) (hi - lo)). lia. Qed.

Definition stream : list SequencedCommand :=
  match gen_commands (seed_from_u64 42) 40 with Val l => l | _ => [] end.

(** The stream trades: the quantities the reference fills. *)
Definition fills : list Z :=
  (fix go rb l := match l with
                  | [] => []
                  | c :: l => match ref_apply rb c with Val (rb, n) => n :: go rb l | _ => [] end
                  end) RefBook_new stream.
Lemma stream_trades : length stream = 40%nat /\ 0 < sumZ fills.
Proof. by vm_compute. Qed.

Lemma book_matches_reference_witness : trial_loop stream (OrderBook_new fuzz_config) RefBook_new = Val tt.
Proof.
  destruct (gen_commands_ok (seed_from_u64 42) 40) as (cmds & E & Hst & Hlen); [done|].
  assert (Hc : stream = cmds) by (unfold stream; by rewrite E).
  apply book_matches_reference; [apply fuzz_config_ok|by rewrite Hc|]. rewrite Hc, Hlen. apply Nat.leb_le. reflexivity.
Defined.
End RefDemo.
