(* ===== verification/RingBuffer.v ===== *)
(** * RingBuffer: crates/ring-buffer

    The lock-free single-producer single-consumer queue of spsc.rs and the
    broadcast queue of spmc.rs.  Cursors are 64-bit and wrap; a slot is
    [None] until it is first written.  [try_push] and [try_pop] are modelled
    twice: as one call (for the components that use the queue) and as the
    atomic accesses the call is made of, interleaved with the other thread's
    (a step relation); acquire/release orders the slot access with the cursor
    store, so the interleaving of accesses is the model of the two threads. *)

From S2P Require Import Prelude.
#[local] Open Scope Z_scope.

(** ** Cursors *)

(** [CAP]: a power of two, less than the range of [usize]. *)
Definition cap_ok (cap : nat) : Prop := exists k, 0 <= k < 64 /\ Z.of_nat cap = 2 ^ k.

Definition mask (cap : nat) (idx : Z) : nat := Z.to_nat (Z.land idx (Z.of_nat cap - 1)).

(** The cursor after [n] operations. *)
Definition cursor (n : nat) : Z := wrap_u64 (Z.of_nat n).

Lemma cap_pos cap : cap_ok cap -> (0 < cap)%nat.
Proof. intros (k & Hk & Hc). assert (0 < 2 ^ k) by (apply Z.pow_pos_nonneg; lia). lia. Qed.

Lemma cap_lt cap : cap_ok cap -> Z.of_nat cap < two64.
Proof.
  intros (k & Hk & ->). change two64 with (2 ^ 64). apply Z.pow_lt_mono_r; lia.
Qed.

(** The mask of a wrapped cursor is the operation count modulo the capacity. *)
Lemma mask_cursor cap n : cap_ok cap -> mask cap (cursor n) = (n mod cap)%nat.
Proof.
  intros Hcap. pose proof (cap_pos cap Hcap). destruct Hcap as (k & Hk & Hc). unfold mask, cursor, wrap_u64.
  rewrite Hc, Z.sub_1_r, <- Z.ones_equiv, Z.land_ones by lia.
  change two64 with (2 ^ 64).
  rewrite Z.mod_mod_divide.
  - rewrite <- Hc, <- Nat2Z.inj_mod. apply Nat2Z.id.
  - exists (2 ^ (64 - k)). rewrite <- Z.pow_add_r by lia. f_equal. lia.
Qed.

Lemma cursor_succ n : wrap_u64 (cursor n + 1) = cursor (S n).
Proof. unfold cursor. rewrite wrap_u64_add_l. f_equal. lia. Qed.

Lemma cursor_diff m n :
  (n <= m)%nat -> Z.of_nat m - Z.of_nat n < two64 ->
  wrap_u64 (cursor m - cursor n) = Z.of_nat m - Z.of_nat n.
Proof.
  intros Hle Hlt. unfold cursor. rewrite wrap_u64_sub_l.
  replace (wrap_u64 (Z.of_nat m - wrap_u64 (Z.of_nat n))) with (wrap_u64 (Z.of_nat m - Z.of_nat n)).
  - apply wrap_u64_id. unfold in_u64. lia.
  - unfold wrap_u64. by rewrite Zminus_mod_idemp_r.
Qed.

Lemma cursor_inj m n :
  (n <= m)%nat -> Z.of_nat m - Z.of_nat n < two64 -> cursor m = cursor n -> m = n.
Proof.
  intros Hle Hlt Heq. pose proof (cursor_diff m n Hle Hlt) as Hd.
  rewrite Heq, Z.sub_diag in Hd. unfold wrap_u64 in Hd. rewrite Z.mod_0_l in Hd; [lia|].
  unfold two64. lia.
Qed.

Lemma mod_window cap m n :
  (0 < cap)%nat -> (n <= m)%nat -> (m < n + cap)%nat -> (m mod cap = n mod cap)%nat -> m = n.
Proof.
  intros Hc Hle Hlt Heq.
  pose proof (Nat.div_mod_eq m cap). pose proof (Nat.div_mod_eq n cap).
  assert (m / cap = n / cap)%nat; [|nia].
  assert (n / cap <= m / cap)%nat by (apply Nat.Div0.div_le_mono; lia).
  destruct (Nat.eq_dec (m / cap)%nat (n / cap)%nat); [done|].
  assert (S (n / cap) <= m / cap)%nat by lia. nia.
Qed.

Module Spsc.
Section Spsc.
Context {T : Type} (cap : nat).

(** ** State *)

Record Shared := mkShared { head : Z; tail : Z; slots : list (option T) }.

Definition Shared_new : Shared := mkShared 0 0 (replicate cap None).

Definition set_head (h : Z) (s : Shared) : Shared := mkShared h (tail s) (slots s).
Definition set_tail (t : Z) (s : Shared) : Shared := mkShared (head s) t (slots s).
Definition write_slot (i : nat) (x : T) (s : Shared) : Shared :=
  mkShared (head s) (tail s) (<[i := Some x]> (slots s)).

(** One end of the queue: its cached cursor. *)
Record Queue := mkQueue { shared : Shared; cached_head : Z; cached_tail : Z }.

Definition spsc_queue : Queue := mkQueue Shared_new 0 0.

(** ** Whole calls *)

Definition try_push (item : T) (q : Queue) : Result unit T * Queue :=
  let h := cached_head q in
  let t := tail (shared q) in
  if wrap_u64 (h - t) =? Z.of_nat cap then (Err item, q)
  else
    let slot := mask cap h in
    let s := write_slot slot item (shared q) in
    let s := set_head (wrap_u64 (h + 1)) s in
    (Ok tt, mkQueue s (wrap_u64 (h + 1)) (cached_tail q)).

(** Reading a slot that was never written is [Panic] ([assume_init_read] of
    uninitialised memory). *)
Definition try_pop (q : Queue) : Exec (option T * Queue) :=
  let t := cached_tail q in
  let h := head (shared q) in
  if h =? t then Val (None, q)
  else
    let slot := mask cap t in
    let! cell := index_list (slots (shared q)) slot in
    let! item := expect cell in
    let s := set_tail (wrap_u64 (t + 1)) (shared q) in
    Val (Some item, mkQueue s (cached_head q) (wrap_u64 (t + 1))).

(** ** The two threads, access by access *)

(** Where the producer is in [try_push]: outside it; after the load of [tail];
    after the slot write, before the store of [head]. *)
Inductive ppc := PIdle | PCheck (item : T) (t : Z) | PPublish (item : T).
(** Where the consumer is in [try_pop]. *)
Inductive cpc := CIdle | CRead (h : Z) | CPublish (item : T).

Record Conf := mkConf {
  c_queue : Queue;
  c_ppc : ppc;
  c_cpc : cpc;
  c_pushed : list T;    (** items whose [try_push] returned [Ok] *)
  c_popped : list T     (** items [try_pop] returned *)
}.

Definition init_conf : Conf := mkConf spsc_queue PIdle CIdle [] [].

Inductive label :=
| PushBegin (item : T) | PushErr (item : T) | PushWrite | PushOk
| PopBegin | PopNone | PopRead | PopSome (item : T).

Inductive step : Conf -> label -> Conf -> Prop :=
| st_push_begin q c pu po item :
    step (mkConf q PIdle c pu po) (PushBegin item)
         (mkConf q (PCheck item (tail (shared q))) c pu po)
| st_push_err q c pu po item t :
    wrap_u64 (cached_head q - t) = Z.of_nat cap ->
    step (mkConf q (PCheck item t) c pu po) (PushErr item) (mkConf q PIdle c pu po)
| st_push_write q c pu po item t :
    wrap_u64 (cached_head q - t) <> Z.of_nat cap ->
    step (mkConf q (PCheck item t) c pu po) PushWrite
         (mkConf (mkQueue (write_slot (mask cap (cached_head q)) item (shared q))
                    (cached_head q) (cached_tail q)) (PPublish item) c pu po)
| st_push_ok q c pu po item :
    step (mkConf q (PPublish item) c pu po) PushOk
         (mkConf (mkQueue (set_head (wrap_u64 (cached_head q + 1)) (shared q))
                    (wrap_u64 (cached_head q + 1)) (cached_tail q)) PIdle c (pu ++ [item]) po)
| st_pop_begin q p pu po :
    step (mkConf q p CIdle pu po) PopBegin (mkConf q p (CRead (head (shared q))) pu po)
| st_pop_none q p pu po h :
    h = cached_tail q ->
    step (mkConf q p (CRead h) pu po) PopNone (mkConf q p CIdle pu po)
| st_pop_read q p pu po h item :
    h <> cached_tail q ->
    slots (shared q) !! mask cap (cached_tail q) = Some (Some item) ->
    step (mkConf q p (CRead h) pu po) PopRead (mkConf q p (CPublish item) pu po)
| st_pop_some q p pu po item :
    step (mkConf q p (CPublish item) pu po) (PopSome item)
         (mkConf (mkQueue (set_tail (wrap_u64 (cached_tail q + 1)) (shared q))
                    (cached_head q) (wrap_u64 (cached_tail q + 1))) p CIdle pu (po ++ [item])).

Inductive steps : Conf -> Prop :=
| steps_init : steps init_conf
| steps_step c l c' : steps c -> step c l c' -> steps c'.

(** ** The invariant *)

(** The queue after [hp] pushes and [tp] pops, with the items [pu] pushed. *)
Record queue_inv (q : Queue) (pu : list T) (tp : nat) : Prop := {
  qi_head : head (shared q) = cursor (length pu);
  qi_chead : cached_head q = cursor (length pu);
  qi_tail : tail (shared q) = cursor tp;
  qi_ctail : cached_tail q = cursor tp;
  qi_le : (tp <= length pu)%nat;
  qi_room : (length pu <= tp + cap)%nat;
  qi_len : length (slots q.(shared)) = cap;
  qi_slots n x : (tp <= n)%nat -> pu !! n = Some x ->
    slots (shared q) !! (n mod cap)%nat = Some (Some x)
}.

Definition ppc_inv (q : Queue) (pu : list T) (tp : nat) (p : ppc) : Prop :=
  match p with
  | PIdle => True
  | PCheck item t => exists tp0, t = cursor tp0 /\ (tp0 <= tp)%nat /\ (length pu <= tp0 + cap)%nat
  | PPublish item => (length pu < tp + cap)%nat
      /\ slots (shared q) !! (length pu mod cap)%nat = Some (Some item)
  end.

Definition cpc_inv (pu : list T) (tp : nat) (c : cpc) : Prop :=
  match c with
  | CIdle => True
  | CRead h => exists hp0, h = cursor hp0 /\ (tp <= hp0 <= length pu)%nat
  | CPublish item => pu !! tp = Some item
  end.

Definition conf_inv (c : Conf) : Prop :=
  queue_inv (c_queue c) (c_pushed c) (length (c_popped c))
  /\ ppc_inv (c_queue c) (c_pushed c) (length (c_popped c)) (c_ppc c)
  /\ cpc_inv (c_pushed c) (length (c_popped c)) (c_cpc c)
  /\ c_popped c = take (length (c_popped c)) (c_pushed c).

Hypothesis Hcap : cap_ok cap.

Lemma slot_write_inv q pu tp item :
  queue_inv q pu tp -> (length pu < tp + cap)%nat ->
  queue_inv (mkQueue (write_slot (mask cap (cached_head q)) item (shared q))
               (cached_head q) (cached_tail q)) pu tp
  /\ <[mask cap (cached_head q) := Some item]> (slots (shared q)) !! (length pu mod cap)%nat
       = Some (Some item).
Proof.
  intros [H1 H2 H3 H4 H5 H6 H7 H8] Hroom. pose proof (cap_pos cap Hcap) as Hpos.
  assert (Hm : mask cap (cached_head q) = (length pu mod cap)%nat) by (rewrite H2; by apply mask_cursor).
  assert (Hb : (length pu mod cap < cap)%nat) by (apply Nat.mod_upper_bound; lia).
  split.
  - split; simpl; try done; [by rewrite length_insert|].
    intros n x Hn Hx. rewrite Hm, list_lookup_insert_ne; [by apply H8|].
    intros Heq. assert (n < length pu)%nat by (by eapply lookup_lt_Some).
    assert (length pu = n) by (apply (mod_window cap); (done || lia)). lia.
  - rewrite Hm, list_lookup_insert_eq by lia. done.
Qed.

Lemma publish_inv q pu tp item :
  queue_inv q pu tp -> (length pu < tp + cap)%nat ->
  slots (shared q) !! (length pu mod cap)%nat = Some (Some item) ->
  queue_inv (mkQueue (set_head (wrap_u64 (cached_head q + 1)) (shared q))
               (wrap_u64 (cached_head q + 1)) (cached_tail q)) (pu ++ [item]) tp.
Proof.
  intros [H1 H2 H3 H4 H5 H6 H7 H8] Hroom Hs.
  split; simpl; rewrite ?length_app; simpl; try done; try lia.
  - rewrite H2, cursor_succ. f_equal. lia.
  - rewrite H2, cursor_succ. f_equal. lia.
  - intros n x Hn [Hx|[Hl Hx]]%lookup_app_Some; [by apply H8|].
    destruct (n - length pu)%nat as [|?] eqn:E; simpl in Hx; simplify_eq.
    by assert (n = length pu) as -> by lia.
Qed.

Lemma consume_inv q pu tp :
  queue_inv q pu tp -> (tp < length pu)%nat ->
  queue_inv (mkQueue (set_tail (wrap_u64 (cached_tail q + 1)) (shared q))
               (cached_head q) (wrap_u64 (cached_tail q + 1))) pu (S tp).
Proof.
  intros [H1 H2 H3 H4 H5 H6 H7 H8] Hlt. split; simpl; try done; try lia.
  - by rewrite H4, cursor_succ.
  - by rewrite H4, cursor_succ.
  - intros n x Hn Hx. apply H8; [lia|done].
Qed.

(** The slot at the tail holds the oldest item. *)
Lemma front_slot q pu tp x :
  queue_inv q pu tp -> pu !! tp = Some x ->
  slots (shared q) !! mask cap (cached_tail q) = Some (Some x).
Proof. intros H Hx. rewrite (qi_ctail _ _ _ H), mask_cursor by done. by apply (qi_slots _ _ _ H). Qed.

(** The capacity test of the producer against a tail read earlier. *)
Lemma full_test q pu tp tp0 :
  queue_inv q pu tp -> (tp0 <= tp)%nat -> (length pu <= tp0 + cap)%nat ->
  wrap_u64 (cached_head q - cursor tp0) = Z.of_nat (length pu) - Z.of_nat tp0.
Proof.
  intros H Hle Hr. pose proof (cap_lt cap Hcap). rewrite (qi_chead _ _ _ H).
  pose proof (qi_le _ _ _ H). apply cursor_diff; lia.
Qed.

Lemma init_inv : conf_inv init_conf.
Proof.
  split_and!; try done. split; simpl; try done; try lia. by rewrite length_replicate.
Qed.

Lemma step_inv c l c' : conf_inv c -> step c l c' -> conf_inv c'.
Proof.
  intros (Hq & Hp & Hc & Hpop) Hstep.
  destruct Hstep as [q c pu po item|q c pu po item t Hf|q c pu po item t Hf|q c pu po item
    |q p pu po|q p pu po h Hh|q p pu po h item Hh Hs|q p pu po item];
    unfold conf_inv in *; simpl in *.
  - split_and!; try done. exists (length po). rewrite (qi_tail _ _ _ Hq).
    pose proof (qi_room _ _ _ Hq). split_and!; [done|lia|lia].
  - by split_and!.
  - destruct Hp as (tp0 & -> & Hle & Hr). rewrite (full_test _ _ _ _ Hq Hle Hr) in Hf.
    assert (Hroom : (length pu < length po + cap)%nat) by lia.
    destruct (slot_write_inv q pu (length po) item Hq Hroom). by split_and!.
  - destruct Hp as [Hroom Hs]. split_and!; [by apply publish_inv|done| |].
    + destruct c as [|h|x]; simpl in *; [done| |by apply lookup_app_l_Some].
      destruct Hc as (hp0 & -> & ?). exists hp0. rewrite length_app. simpl. split; [done|lia].
    + rewrite take_app_le by apply (qi_le _ _ _ Hq). done.
  - split_and!; try done. exists (length pu). rewrite (qi_head _ _ _ Hq).
    pose proof (qi_le _ _ _ Hq). split; [done|lia].
  - by split_and!.
  - split_and!; try done. destruct Hc as (hp0 & -> & Hr). rewrite (qi_ctail _ _ _ Hq) in Hh.
    assert (Hlt : (length po < length pu)%nat).
    { destruct (decide (hp0 = length po)) as [->|]; [done|lia]. }
    destruct (lookup_lt_is_Some_2 pu (length po) Hlt) as [x Hx].
    rewrite (front_slot q pu _ x Hq Hx) in Hs. congruence.
  - assert (Hlt : (length po < length pu)%nat) by (by eapply lookup_lt_Some).
    rewrite length_app. simpl. rewrite Nat.add_1_r. split_and!; [by apply consume_inv| |done|].
    + destruct p as [|x t|x]; simpl in *; [done| |].
      * destruct Hp as (tp0 & ? & ? & ?). exists tp0. split_and!; [done|lia|lia].
      * destruct Hp. split; [lia|done].
    + by rewrite (take_S_r _ _ item Hc), <- Hpop.
Qed.

Lemma steps_inv c : steps c -> conf_inv c.
Proof. induction 1 as [|c l c' _ IH Hs]; [apply init_inv|by eapply step_inv]. Qed.

(** The queue holds the items [l], oldest first. *)
Definition holds (q : Queue) (l : list T) : Prop :=
  exists pu tp, queue_inv q pu tp /\ l = drop tp pu.

Lemma holds_new : holds spsc_queue [].
Proof. destruct init_inv as (H & _). by exists [], 0%nat. Qed.

(** The calls in terms of the history: the items pushed and the number popped. *)
Lemma try_push_hist q pu tp item :
  queue_inv q pu tp ->
  if decide (length pu = tp + cap)%nat then try_push item q = (Err item, q)
  else exists q', try_push item q = (Ok tt, q') /\ queue_inv q' (pu ++ [item]) tp.
Proof.
  intros H. unfold try_push.
  rewrite (qi_tail _ _ _ H), (full_test q pu tp tp H) by (done || apply (qi_room _ _ _ H)).
  pose proof (qi_le _ _ _ H) as Hle. pose proof (qi_room _ _ _ H) as Hr.
  destruct (Z.eqb_spec (Z.of_nat (length pu) - Z.of_nat tp) (Z.of_nat cap)); case_decide; try lia; [done|].
  eexists. split; [done|]. assert (Hroom : (length pu < tp + cap)%nat) by lia.
  destruct (slot_write_inv q pu tp item H Hroom) as [Hw Hs]. by apply (publish_inv _ _ _ _ Hw).
Qed.

Lemma try_pop_hist q pu tp :
  queue_inv q pu tp ->
  match pu !! tp with
  | None => try_pop q = Val (None, q)
  | Some x => exists q', try_pop q = Val (Some x, q') /\ queue_inv q' pu (S tp)
  end.
Proof.
  intros H. pose proof (qi_le _ _ _ H) as Hle. pose proof (qi_room _ _ _ H) as Hr.
  pose proof (cap_lt cap Hcap) as Hlt. unfold try_pop. rewrite (qi_head _ _ _ H), (qi_ctail _ _ _ H).
  destruct (pu !! tp) as [x|] eqn:Hx.
  - pose proof (lookup_lt_Some _ _ _ Hx). rewrite (proj2 (Z.eqb_neq _ _)).
    + rewrite <- (qi_ctail _ _ _ H), (index_list_lt _ _ _ (front_slot _ _ _ _ H Hx)). simpl.
      eexists. split; [done|]. apply consume_inv; [done|lia].
    + intros Heq%cursor_inj; lia.
  - apply lookup_ge_None in Hx. assert (tp = length pu) as <- by lia. by rewrite Z.eqb_refl.
Qed.

Lemma try_push_ok q l item :
  holds q l ->
  if decide (length l = cap) then try_push item q = (Err item, q)
  else exists q', try_push item q = (Ok tt, q') /\ holds q' (l ++ [item]).
Proof.
  intros (pu & tp & H & ->). rewrite length_drop.
  pose proof (qi_le _ _ _ H). pose proof (try_push_hist q pu tp item H) as Hp.
  do 2 case_decide; try lia; [done|]. destruct Hp as (q' & Hp & H'). exists q'. split; [done|].
  exists (pu ++ [item]), tp. by rewrite drop_app_le.
Qed.

Lemma try_pop_ok q l :
  holds q l ->
  match l with
  | [] => try_pop q = Val (None, q)
  | x :: l' => exists q', try_pop q = Val (Some x, q') /\ holds q' l'
  end.
Proof.
  intros (pu & tp & H & ->). pose proof (try_pop_hist q pu tp H) as Hp.
  destruct (pu !! tp) as [x|] eqn:Hx.
  - rewrite (drop_S _ x _ Hx). destruct Hp as (q' & Hp & H'). exists q'. split; [done|]. by exists pu, (S tp).
  - apply lookup_ge_None in Hx. by rewrite drop_ge.
Qed.

(** ** Theorems *)

(** C10. FIFO, no loss, no duplication: in every interleaving of one producer
    and one consumer, what the consumer has received is a prefix of what the
    producer has sent, at most [CAP] items are in flight, and the cursors are
    the operation counts modulo 2^64. *)
Theorem spsc_fifo c :
  steps c ->
  exists inflight, c_pushed c = c_popped c ++ inflight /\ (length inflight <= cap)%nat
    /\ head (shared (c_queue c)) = cursor (length (c_pushed c))
    /\ tail (shared (c_queue c)) = cursor (length (c_popped c)).
Proof.
  intros (Hq & _ & _ & Hpop)%steps_inv. exists (drop (length (c_popped c)) (c_pushed c)).
  split_and!; [|..|apply (qi_head _ _ _ Hq)|apply (qi_tail _ _ _ Hq)].
  - rewrite <- (take_drop (length (c_popped c)) (c_pushed c)) at 1. by rewrite <- Hpop.
  - rewrite length_drop. pose proof (qi_room _ _ _ Hq). lia.
Qed.

(** No data race and no uninitialised read: in every reachable state in
    which the consumer has seen a non-empty queue, the slot it reads is
    written with the next item, and a producer that has passed its capacity
    test is writing a different slot. *)
Theorem spsc_race_free c h :
  steps c -> c_cpc c = CRead h -> h <> cached_tail (c_queue c) ->
  (exists x, slots (shared (c_queue c)) !! mask cap (cached_tail (c_queue c)) = Some (Some x)
     /\ c_pushed c !! length (c_popped c) = Some x)
  /\ (forall item t, c_ppc c = PCheck item t ->
        wrap_u64 (cached_head (c_queue c) - t) <> Z.of_nat cap ->
        mask cap (cached_head (c_queue c)) <> mask cap (cached_tail (c_queue c))).
Proof.
  intros (Hq & Hp & Hc & _)%steps_inv Hcr Hne. rewrite Hcr in Hc. destruct Hc as (hp0 & -> & Hr).
  set (tp := length (c_popped c)) in *. set (pu := c_pushed c) in *.
  rewrite (qi_ctail _ _ _ Hq) in Hne |- *.
  assert (Hlt : (tp < length pu)%nat) by (destruct (decide (hp0 = tp)) as [->|]; [done|lia]).
  split.
  - destruct (lookup_lt_is_Some_2 pu tp Hlt) as [x Hx]. exists x. split; [|done].
    rewrite <- (qi_ctail _ _ _ Hq). by eapply front_slot.
  - intros item t Hpc Ht. rewrite Hpc in Hp. destruct Hp as (tp0 & -> & Hle & Hrm).
    rewrite (full_test _ _ _ _ Hq Hle Hrm) in Ht.
    rewrite (qi_chead _ _ _ Hq), !mask_cursor by done. intros Heq.
    pose proof (cap_pos cap Hcap). assert (length pu = tp) by (apply (mod_window cap); (done || lia)).
    lia.
Qed.

(** Called one at a time, [try_push] and [try_pop] are a bounded FIFO of
    capacity [CAP] across cursor wrap-around: a push fails exactly when [CAP]
    items are held and then hands the item back; a pop never reads an
    unwritten slot and returns the oldest item, or [None] exactly when empty. *)
Theorem spsc_sequential_fifo q l item :
  holds q l ->
  (if decide (length l = cap) then try_push item q = (Err item, q)
   else exists q', try_push item q = (Ok tt, q') /\ holds q' (l ++ [item]))
  /\ match l with
     | [] => try_pop q = Val (None, q)
     | x :: l' => exists q', try_pop q = Val (Some x, q') /\ holds q' l'
     end.
Proof. intros H. split; [by apply try_push_ok|by apply try_pop_ok]. Qed.
End Spsc.

(** ** Witnesses *)

Lemma cap4 : cap_ok 4.
Proof. exists 2. split; [lia|reflexivity]. Qed.

(** A queue of capacity 4 in the middle of a run: one item sent, the consumer
    about to read it while the producer has started a second push. *)
Definition demo_conf : Conf (T := Z) :=
  mkConf (mkQueue (mkShared 1 0 [Some 7; None; None; None]) 1 0) (PCheck 8 0) (CRead 1) [7] [].

Lemma demo_steps : steps 4 demo_conf.
Proof.
  unfold demo_conf.
  eapply steps_step; [|apply (st_push_begin 4 (mkQueue (mkShared 1 0 [Some 7; None; None; None]) 1 0))].
  eapply steps_step; [|apply (st_pop_begin 4 (mkQueue (mkShared 1 0 [Some 7; None; None; None]) 1 0))].
  eapply steps_step; [|apply (st_push_ok 4 (mkQueue (mkShared 0 0 [Some 7; None; None; None]) 0 0) CIdle [] [] 7)].
  eapply steps_step; [|apply (st_push_write 4 (spsc_queue 4) CIdle [] [] 7 0); vm_compute; discriminate].
  eapply steps_step; [apply steps_init|apply (st_push_begin 4 (spsc_queue 4))].
Qed.

Lemma spsc_fifo_witness :
  exists inflight, c_pushed demo_conf = c_popped demo_conf ++ inflight /\ (length inflight <= 4)%nat.
Proof.
  destruct (spsc_fifo 4 cap4 demo_conf demo_steps) as (l & H1 & H2 & _). exists l. exact (conj H1 H2).
Defined.

Lemma spsc_race_free_witness : mask 4 1 <> mask 4 0.
Proof.
  refine (proj2 (spsc_race_free 4 cap4 demo_conf 1 demo_steps eq_refl _) 8 0 eq_refl _);
    vm_compute; discriminate.
Defined.

Lemma spsc_sequential_fifo_witness :
  exists q', try_push 4 5 (spsc_queue 4) = (Ok tt, q') /\ holds 4 q' [5].
Proof. exact (proj1 (spsc_sequential_fifo 4 cap4 (spsc_queue 4) [] 5 (holds_new 4))). Defined.
End Spsc.

(** ** The broadcast queue *)

Module Spmc.
Section Spmc.
Context {T : Type} (cap : nat).

Record Shared := mkShared { head : Z; consumer_tails : list Z; slots : list (option T) }.

(** The producer's end and the cached cursor of each consumer. *)
Record Queue := mkQueue { shared : Shared; cached_head : Z; cached_tails : list Z }.

Definition spmc_queue (n_consumers : nat) : Queue :=
  mkQueue (mkShared 0 (replicate n_consumers 0) (replicate cap None)) 0 (replicate n_consumers 0).

(** [iter().map(load).min().unwrap_or(0)]: the numeric minimum. *)
Definition min_tail (s : Shared) : Z :=
  match consumer_tails s with [] => 0 | t :: ts => foldr Z.min t ts end.

Definition try_push (item : T) (q : Queue) : Result unit T * Queue :=
  let h := cached_head q in
  if wrap_u64 (h - min_tail (shared q)) =? Z.of_nat cap then (Err item, q)
  else
    let s := mkShared (wrap_u64 (h + 1)) (consumer_tails (shared q))
               (<[mask cap h := Some item]> (slots (shared q))) in
    (Ok tt, mkQueue s (wrap_u64 (h + 1)) (cached_tails q)).

(** [try_pop] of consumer [i]. *)
Definition try_pop (i : nat) (q : Queue) : Exec (option T * Queue) :=
  let! t := index_list (cached_tails q) i in
  let h := head (shared q) in
  if h =? t then Val (None, q)
  else
    let! cell := index_list (slots (shared q)) (mask cap t) in
    let! item := expect cell in
    let s := mkShared h (<[i := wrap_u64 (t + 1)]> (consumer_tails (shared q))) (slots (shared q)) in
    Val (Some item, mkQueue s (cached_head q) (<[i := wrap_u64 (t + 1)]> (cached_tails q))).

(** [pu] was published, consumer [i] has read [tps !! i] items of it; fewer
    than 2^64 - 1 items have been published. *)
Record queue_inv (q : Queue) (pu : list T) (tps : list nat) : Prop := {
  si_head : head (shared q) = Z.of_nat (length pu);
  si_chead : cached_head q = Z.of_nat (length pu);
  si_tails : consumer_tails (shared q) = map Z.of_nat tps;
  si_ctails : cached_tails q = map Z.of_nat tps;
  si_bound : Z.of_nat (length pu) < two64;
  si_window tp : tp ∈ tps -> (tp <= length pu <= tp + cap)%nat;
  si_len : length (slots (shared q)) = cap;
  si_slots n x tp : tp ∈ tps -> (tp <= n)%nat -> pu !! n = Some x ->
    slots (shared q) !! (n mod cap)%nat = Some (Some x)
}.

(** What is still to be read by each consumer, oldest first. *)
Definition pending (q : Queue) (ls : list (list T)) : Prop :=
  exists pu tps, queue_inv q pu tps /\ ls = map (fun tp => drop tp pu) tps.

Hypothesis Hcap : cap_ok cap.

Lemma cursor_small n : Z.of_nat n < two64 -> Z.of_nat n = cursor n.
Proof. intros ?. unfold cursor. rewrite wrap_u64_id; [done|]. unfold in_u64. lia. Qed.

Lemma min_tail_spec (tps : list nat) (s : Shared) :
  consumer_tails s = map Z.of_nat tps -> tps <> [] ->
  exists tp, tp ∈ tps /\ min_tail s = Z.of_nat tp /\ forall tp', tp' ∈ tps -> (tp <= tp')%nat.
Proof.
  intros Hs Hne. unfold min_tail. rewrite Hs. destruct tps as [|t ts]; [done|]. simpl. clear.
  induction ts as [|u ts IH]; simpl.
  - exists t. split_and!; [left|done|]. intros tp' ->%list_elem_of_singleton. lia.
  - destruct IH as (tp & Hin & Hmin & Hall). rewrite Hmin.
    destruct (decide (u < tp)%nat).
    + exists u. split_and!; [right; left|lia|]. intros tp' Hin'.
      rewrite !elem_of_cons in Hin'. destruct Hin' as [->|[->|Hin']]; [|lia|].
      * specialize (Hall t ltac:(left)). lia.
      * specialize (Hall tp' ltac:(by right)). lia.
    + exists tp. split_and!; [set_solver|lia|]. intros tp' Hin'.
      rewrite !elem_of_cons in Hin'. destruct Hin' as [->|[->|Hin']]; [|lia|].
      * apply Hall. left.
      * apply Hall. by right.
Qed.

Lemma broadcast_push_ok q ls item pu tps :
  queue_inv q pu tps -> ls = map (fun tp => drop tp pu) tps -> ls <> [] ->
  Z.of_nat (length pu) + 1 < two64 ->
  if decide (Exists (fun l => length l = cap) ls) then try_push item q = (Err item, q)
  else exists q', try_push item q = (Ok tt, q') /\ queue_inv q' (pu ++ [item]) tps.
Proof.
  intros H -> Hne Hb. assert (Hnt : tps <> []) by by destruct tps.
  destruct (min_tail_spec tps _ (si_tails _ _ _ H) Hnt) as (tp & Hin & Hmin & Hall).
  unfold try_push. rewrite (si_chead _ _ _ H), Hmin.
  pose proof (si_window _ _ _ H tp Hin) as Hw. pose proof (cap_lt cap Hcap).
  rewrite wrap_u64_id by (unfold in_u64; lia).
  assert (Hex : Exists (fun l => length l = cap) (map (fun tp => drop tp pu) tps)
    <-> length pu = (tp + cap)%nat).
  { rewrite Exists_exists. split.
    - intros (l & (tp' & -> & Hin')%list_elem_of_fmap & Hl). rewrite length_drop in Hl.
      pose proof (si_window _ _ _ H tp' Hin'). specialize (Hall tp' Hin'). lia.
    - intros Hl. exists (drop tp pu). split; [apply list_elem_of_fmap; by exists tp|].
      rewrite length_drop. lia. }
  destruct (Z.eqb_spec (Z.of_nat (length pu) - Z.of_nat tp) (Z.of_nat cap)) as [Hf|Hf];
    case_decide as Hd; try (exfalso; rewrite Hex in Hd; lia); [done|].
  eexists. split; [done|]. pose proof (cap_pos cap Hcap) as Hpos.
  assert (Hm : mask cap (Z.of_nat (length pu)) = (length pu mod cap)%nat)
    by (rewrite cursor_small by lia; by apply mask_cursor).
  assert (Hbm : (length pu mod cap < cap)%nat) by (apply Nat.mod_upper_bound; lia).
  pose proof (si_len _ _ _ H) as Hlen.
  split; simpl; rewrite ?length_app; simpl; try apply H.
  - rewrite wrap_u64_id; [lia|unfold in_u64; lia].
  - rewrite wrap_u64_id; [lia|unfold in_u64; lia].
  - lia.
  - intros tp' Hin'. pose proof (si_window _ _ _ H tp' Hin'). specialize (Hall tp' Hin'). lia.
  - by rewrite length_insert.
  - intros n x tp' Hin' Hn [Hx|[Hl Hx]]%lookup_app_Some; rewrite Hm.
    + assert (n < length pu)%nat by (by eapply lookup_lt_Some). specialize (Hall tp' Hin').
      rewrite list_lookup_insert_ne; [by eapply (si_slots _ _ _ H)|]. intros Heq.
      assert (length pu = n) by (apply (mod_window cap); (done || lia)). lia.
    + destruct (n - length pu)%nat as [|?] eqn:E; simpl in Hx; simplify_eq.
      assert (n = length pu) as -> by lia. rewrite list_lookup_insert_eq by lia. done.
Qed.

Lemma broadcast_pop_ok q pu tps i tp :
  queue_inv q pu tps -> tps !! i = Some tp ->
  match pu !! tp with
  | None => try_pop i q = Val (None, q)
  | Some x => exists q', try_pop i q = Val (Some x, q') /\ queue_inv q' pu (<[i := S tp]> tps)
  end.
Proof.
  intros H Hi. assert (Hin : tp ∈ tps) by (by eapply list_elem_of_lookup_2).
  pose proof (si_window _ _ _ H tp Hin) as Hw. pose proof (si_bound _ _ _ H) as Hb.
  unfold try_pop. rewrite (index_list_lt _ _ (Z.of_nat tp)).
  2:{ by rewrite (si_ctails _ _ _ H), list_lookup_fmap, Hi. }
  simpl. rewrite (si_head _ _ _ H).
  destruct (pu !! tp) as [x|] eqn:Hx.
  - assert (tp < length pu)%nat by (by eapply lookup_lt_Some).
    rewrite (proj2 (Z.eqb_neq _ _)) by lia.
    assert (Hs : slots (shared q) !! mask cap (Z.of_nat tp) = Some (Some x)).
    { rewrite cursor_small, mask_cursor by (done || lia). by eapply (si_slots _ _ _ H). }
    rewrite (index_list_lt _ _ _ Hs). simpl. eexists. split; [done|].
    assert (Hins : forall y, y ∈ <[i := S tp]> tps -> y = S tp \/ y ∈ tps).
    { intros y (j & Hj)%list_elem_of_lookup_1. destruct (decide (i = j)) as [->|].
      - rewrite list_lookup_insert_eq in Hj by (by eapply lookup_lt_Some). left. congruence.
      - rewrite list_lookup_insert_ne in Hj by done. right. by eapply list_elem_of_lookup_2. }
    split; simpl; try apply H; try done.
    + rewrite (si_tails _ _ _ H), list_fmap_insert. f_equal. rewrite wrap_u64_id; [lia|unfold in_u64; lia].
    + rewrite (si_ctails _ _ _ H), list_fmap_insert. f_equal. rewrite wrap_u64_id; [lia|unfold in_u64; lia].
    + intros y [->|Hy]%Hins; [lia|by apply (si_window _ _ _ H)].
    + intros n z y [->|Hy]%Hins Hn Hz; [|by eapply (si_slots _ _ _ H)].
      apply (si_slots _ _ _ H n z tp); [done|lia|done].
  - apply lookup_ge_None in Hx. assert (tp = length pu) as -> by lia. by rewrite Z.eqb_refl.
Qed.

Lemma pending_new n : pending (spmc_queue n) (replicate n []).
Proof.
  exists [], (replicate n 0%nat). split.
  - split; simpl; try done.
    + symmetry. apply fmap_replicate.
    + symmetry. apply fmap_replicate.
    + intros tp (-> & _)%elem_of_replicate. lia.
    + by rewrite length_replicate.
  - symmetry. apply (fmap_replicate (fun t => drop t ([] : list T)) n 0%nat).
Qed.

(** Broadcast: while fewer than 2^64 - 1 items have been published, a
    push reaches every consumer, and fails (handing the item back, nothing
    changed) exactly when some consumer has [CAP] items unread; a pop by
    consumer [i] returns its oldest unread item, reads no unwritten slot, and
    does not affect the other consumers. *)
Theorem spmc_broadcast q pu tps item i tp :
  queue_inv q pu tps -> Z.of_nat (length pu) + 1 < two64 -> tps !! i = Some tp ->
  (if decide (Exists (fun l => length l = cap) (map (fun t => drop t pu) tps))
   then try_push item q = (Err item, q)
   else exists q', try_push item q = (Ok tt, q') /\ queue_inv q' (pu ++ [item]) tps)
  /\ match pu !! tp with
     | None => try_pop i q = Val (None, q)
     | Some x => exists q', try_pop i q = Val (Some x, q') /\ queue_inv q' pu (<[i := S tp]> tps)
     end.
Proof.
  intros H Hb Hi. split; [|by apply broadcast_pop_ok].
  apply broadcast_push_ok; try done. by destruct tps.
Qed.
End Spmc.

Lemma spmc_broadcast_witness :
  exists q', try_push 4 9 (spmc_queue 4 2) = (Ok tt, q') /\ queue_inv 4 q' [9] [0; 0]%nat.
Proof.
  destruct (pending_new (T := Z) 4 2) as (pu & tps & Hinv & _).
  assert (pu = [] /\ tps = [0; 0]%nat) as [-> ->].
  { pose proof (si_head _ _ _ _ Hinv) as Hh. pose proof (si_tails _ _ _ _ Hinv) as Ht.
    simpl in Hh, Ht. destruct pu; [|simpl in Hh; lia].
    destruct tps as [|[|?] [|[|?] [|? ?]]]; simplify_eq/=; done. }
  exact (proj1 (spmc_broadcast 4 Spsc.cap4 (spmc_queue 4 2) [] [0; 0]%nat 9 0 0 Hinv
    ltac:(unfold two64; simpl; lia) eq_refl)).
Defined.
End Spmc.
