(* ===== verification/SpmcConc.v ===== *)
(** * SpmcConc: the broadcast queue with its threads interleaved

    crates/ring-buffer/src/spmc.rs, one access to shared memory per step: the
    producer loads the consumers' tails one after the other, writes the slot
    and then publishes it; each consumer loads the head, reads the slot and
    then publishes its own tail.  The steps of all threads interleave freely.
    RingBuffer.v has the same calls executed without interruption. *)

From S2P Require Import Prelude RingBuffer.
Import Spmc.
#[local] Open Scope Z_scope.

Section SpmcConc.
Context {T : Type} (cap : nat).

(** Where the producer is in [try_push]: outside; with [k] tails loaded and
    their minimum so far; after the slot write. *)
Inductive ppc := PIdle | PLoad (item : T) (k : nat) (m : option Z) | PPublish (item : T).
(** Where a consumer is in [try_pop]: outside; after the load of [head]; after
    the clone of the slot. *)
Inductive cpc := CIdle | CRead (h : Z) | CPublish (item : T).

Record Conf := mkConf {
  c_queue : Queue (T := T);
  c_ppc : ppc;
  c_cpcs : list cpc;
  c_pushed : list T;          (** items whose [try_push] returned [Ok] *)
  c_popped : list (list T)    (** items the [try_pop] of each consumer returned *)
}.

Definition init_conf (n_consumers : nat) : Conf :=
  mkConf (spmc_queue cap n_consumers) PIdle (replicate n_consumers CIdle) [] (replicate n_consumers []).

(** The minimum with one more tail, and the result of [unwrap_or(0)]. *)
Definition min_next (m : option Z) (t : Z) : option Z := Some (match m with None => t | Some m => Z.min m t end).
Definition min_final (m : option Z) : Z := default 0 m.

Definition write_slot (i : nat) (item : T) (q : Queue) : Queue :=
  mkQueue (mkShared (head (shared q)) (consumer_tails (shared q)) (<[i := Some item]> (slots (shared q)))) (cached_head q) (cached_tails q).
Definition publish_head (h : Z) (q : Queue (T := T)) : Queue :=
  mkQueue (mkShared h (consumer_tails (shared q)) (slots (shared q))) h (cached_tails q).
Definition publish_tail (i : nat) (t : Z) (q : Queue (T := T)) : Queue :=
  mkQueue (mkShared (head (shared q)) (<[i := t]> (consumer_tails (shared q))) (slots (shared q))) (cached_head q) (<[i := t]> (cached_tails q)).

Inductive step : Conf -> Conf -> Prop :=
| st_push_begin q cs pu po item :
    step (mkConf q PIdle cs pu po) (mkConf q (PLoad item 0 None) cs pu po)
| st_push_load q cs pu po item k m t :
    consumer_tails (shared q) !! k = Some t ->
    step (mkConf q (PLoad item k m) cs pu po) (mkConf q (PLoad item (S k) (min_next m t)) cs pu po)
| st_push_err q cs pu po item k m :
    k = length (consumer_tails (shared q)) -> wrap_u64 (cached_head q - min_final m) = Z.of_nat cap ->
    step (mkConf q (PLoad item k m) cs pu po) (mkConf q PIdle cs pu po)
| st_push_write q cs pu po item k m :
    k = length (consumer_tails (shared q)) -> wrap_u64 (cached_head q - min_final m) <> Z.of_nat cap ->
    step (mkConf q (PLoad item k m) cs pu po) (mkConf (write_slot (mask cap (cached_head q)) item q) (PPublish item) cs pu po)
| st_push_ok q cs pu po item :
    step (mkConf q (PPublish item) cs pu po)
         (mkConf (publish_head (wrap_u64 (cached_head q + 1)) q) PIdle cs (pu ++ [item]) po)
| st_pop_begin q p cs pu po i :
    cs !! i = Some CIdle -> step (mkConf q p cs pu po) (mkConf q p (<[i := CRead (head (shared q))]> cs) pu po)
| st_pop_none q p cs pu po i h :
    cs !! i = Some (CRead h) -> cached_tails q !! i = Some h ->
    step (mkConf q p cs pu po) (mkConf q p (<[i := CIdle]> cs) pu po)
| st_pop_read q p cs pu po i h t item :
    cs !! i = Some (CRead h) -> cached_tails q !! i = Some t -> h <> t ->
    slots (shared q) !! mask cap t = Some (Some item) ->
    step (mkConf q p cs pu po) (mkConf q p (<[i := CPublish item]> cs) pu po)
| st_pop_some q p cs pu po i t item l :
    cs !! i = Some (CPublish item) -> cached_tails q !! i = Some t -> po !! i = Some l ->
    step (mkConf q p cs pu po)
         (mkConf (publish_tail i (wrap_u64 (t + 1)) q) p (<[i := CIdle]> cs) pu (<[i := l ++ [item]]> po)).

Inductive steps (n_consumers : nat) : Conf -> Prop :=
| steps_init : steps n_consumers (init_conf n_consumers)
| steps_step c c' : steps n_consumers c -> step c c' -> steps n_consumers c'.

(** ** The invariant *)

Definition ppc_inv (q : Queue) (pu : list T) (tps : list nat) (p : ppc) : Prop :=
  match p with
  | PIdle => True
  | PLoad item k None => k = 0%nat
  | PLoad item k (Some m) => exists tp0, m = Z.of_nat tp0 /\ (length pu <= tp0 + cap)%nat
      /\ forall j tp, (j < k)%nat -> tps !! j = Some tp -> (tp0 <= tp)%nat
  | PPublish item => (forall tp, tp ∈ tps -> (length pu < tp + cap)%nat)
      /\ slots (shared q) !! (length pu mod cap)%nat = Some (Some item)
  end.

Definition cpc_inv (pu : list T) (tp : nat) (c : cpc) : Prop :=
  match c with
  | CIdle => True
  | CRead h => exists hp0, h = Z.of_nat hp0 /\ (tp <= hp0 <= length pu)%nat
  | CPublish item => pu !! tp = Some item
  end.

Definition tps_of (c : Conf) : list nat := map length (c_popped c).

Record conf_inv (c : Conf) : Prop := {
  ci_queue : queue_inv cap (c_queue c) (c_pushed c) (tps_of c);
  ci_ppc : ppc_inv (c_queue c) (c_pushed c) (tps_of c) (c_ppc c);
  ci_cpcs : length (c_cpcs c) = length (c_popped c);
  ci_cpc i tp pc : tps_of c !! i = Some tp -> c_cpcs c !! i = Some pc -> cpc_inv (c_pushed c) tp pc;
  ci_popped l : l ∈ c_popped c -> l = take (length l) (c_pushed c)
}.

Hypothesis Hcap : cap_ok cap.

Lemma mask_count n : Z.of_nat n < two64 -> mask cap (Z.of_nat n) = (n mod cap)%nat.
Proof. intros. rewrite cursor_small by done. by apply mask_cursor. Qed.

(** A slot beyond every window can be written. *)
Lemma write_slot_inv q pu tps item :
  queue_inv cap q pu tps -> (forall tp, tp ∈ tps -> (length pu < tp + cap)%nat) ->
  queue_inv cap (write_slot (mask cap (cached_head q)) item q) pu tps
  /\ slots (shared (write_slot (mask cap (cached_head q)) item q)) !! (length pu mod cap)%nat = Some (Some item).
Proof.
  intros [H1 H2 H3 H4 H5 H6 H7 H8] Hroom. pose proof (cap_pos cap Hcap).
  assert (Hb : (length pu mod cap < cap)%nat) by (apply Nat.mod_upper_bound; lia).
  rewrite H2, mask_count by done. split; [|simpl; by rewrite list_lookup_insert_eq by lia].
  split; simpl; try done; [by rewrite length_insert|].
  intros n x tp Hin Hn Hx. rewrite list_lookup_insert_ne; [by eapply H8|]. intros Heq.
  assert (n < length pu)%nat by (by eapply lookup_lt_Some). specialize (Hroom tp Hin).
  assert (length pu = n) by (apply (mod_window cap); (done || lia)). lia.
Qed.

Lemma publish_head_inv q pu tps item :
  queue_inv cap q pu tps -> (forall tp, tp ∈ tps -> (length pu < tp + cap)%nat) ->
  slots (shared q) !! (length pu mod cap)%nat = Some (Some item) -> Z.of_nat (length (pu ++ [item])) < two64 ->
  queue_inv cap (publish_head (wrap_u64 (cached_head q + 1)) q) (pu ++ [item]) tps.
Proof.
  intros [H1 H2 H3 H4 H5 H6 H7 H8] Hroom Hs. rewrite length_app. simpl. intros Hb.
  rewrite H2, wrap_u64_id by (unfold in_u64; lia).
  split; simpl; rewrite ?length_app; simpl; try done; try lia.
  - intros tp Hin. specialize (H6 tp Hin). specialize (Hroom tp Hin). lia.
  - intros n x tp Hin Hn [Hx|[Hl Hx]]%lookup_app_Some; [by eapply H8|].
    destruct (n - length pu)%nat as [|?] eqn:E; simpl in Hx; simplify_eq. by assert (n = length pu) as -> by lia.
Qed.

Lemma elem_insert (tps : list nat) i x y : y ∈ <[i := x]> tps -> y = x \/ y ∈ tps.
Proof.
  intros (j & Hj)%list_elem_of_lookup_1. apply list_lookup_insert_Some in Hj as [(? & ? & ?)|[? Hj]]; [by left|].
  right. by eapply list_elem_of_lookup_2.
Qed.

Lemma publish_tail_inv q pu tps i tp :
  queue_inv cap q pu tps -> tps !! i = Some tp -> (tp < length pu)%nat ->
  queue_inv cap (publish_tail i (wrap_u64 (Z.of_nat tp + 1)) q) pu (<[i := S tp]> tps).
Proof.
  intros [H1 H2 H3 H4 H5 H6 H7 H8] Hi Hlt. assert (Hin : tp ∈ tps) by by eapply list_elem_of_lookup_2.
  pose proof (H6 tp Hin). rewrite wrap_u64_id by (unfold in_u64; lia).
  split; simpl; try done.
  - rewrite H3, list_fmap_insert. f_equal. lia.
  - rewrite H4, list_fmap_insert. f_equal. lia.
  - intros y [->|Hy]%elem_insert; [lia|by apply H6].
  - intros n z y [->|Hy]%elem_insert Hn Hz; [|by eapply H8]. apply (H8 n z tp); [done|lia|done].
Qed.

(** Tails only rise: what the producer learnt from them stays true. *)
Lemma ppc_inv_pop q pu tps i tp t p :
  tps !! i = Some tp -> ppc_inv q pu tps p -> ppc_inv (publish_tail i t q) pu (<[i := S tp]> tps) p.
Proof.
  intros Hi. destruct p as [|item k [m|]|item]; simpl; try done.
  - intros (tp0 & -> & Hr & Hall). exists tp0. split_and!; try done. intros j y Hj Hy.
    apply list_lookup_insert_Some in Hy as [(-> & <- & ?)|[? Hy]]; [specialize (Hall j tp Hj Hi); lia|by eapply Hall].
  - intros [Hroom Hs]. split; [|done]. intros y [->|Hy]%elem_insert; [|by apply Hroom].
    specialize (Hroom tp ltac:(by eapply list_elem_of_lookup_2)). lia.
Qed.

Lemma load_inv q pu tps item k m t :
  queue_inv cap q pu tps -> ppc_inv q pu tps (PLoad item k m) -> consumer_tails (shared q) !! k = Some t ->
  ppc_inv q pu tps (PLoad item (S k) (min_next m t)).
Proof.
  intros [_ _ H3 _ _ H6 _ _] Hp Hk. rewrite H3, list_lookup_fmap in Hk. apply fmap_Some in Hk as (tp & Htp & ->).
  specialize (H6 tp ltac:(by eapply list_elem_of_lookup_2)).
  destruct m as [m|]; simpl in Hp |- *.
  - destruct Hp as (tp0 & -> & Hr & Hall). exists (tp0 `min` tp)%nat. split_and!; [lia|lia|].
    intros j y Hj Hy. destruct (decide (j = k)) as [-> |]; [|specialize (Hall j y ltac:(lia) Hy); lia].
    assert (y = tp) by congruence. lia.
  - subst k. exists tp. split_and!; [done|lia|]. intros j y Hj Hy. assert (j = 0%nat) as -> by lia.
    assert (y = tp) by congruence. lia.
Qed.

(** A producer that has passed the full test has room in every window. *)
Lemma write_room q pu tps item k m :
  queue_inv cap q pu tps -> ppc_inv q pu tps (PLoad item k m) -> k = length (consumer_tails (shared q)) ->
  wrap_u64 (cached_head q - min_final m) <> Z.of_nat cap -> forall tp, tp ∈ tps -> (length pu < tp + cap)%nat.
Proof.
  intros [_ H2 H3 _ H5 H6 _ _] Hp Hk Hf tp Hin. rewrite H3, length_map in Hk. pose proof (cap_lt cap Hcap).
  apply list_elem_of_lookup_1 in Hin as [j Hj]. assert (j < length tps)%nat by by eapply lookup_lt_Some.
  destruct m as [m|]; simpl in Hp; [|lia]. destruct Hp as (tp0 & -> & Hr & Hall).
  specialize (Hall j tp ltac:(lia) Hj). specialize (H6 tp ltac:(by eapply list_elem_of_lookup_2)).
  simpl in Hf. rewrite H2, wrap_u64_id in Hf by (unfold in_u64; lia). lia.
Qed.

Lemma bc_init_inv n : conf_inv (init_conf n).
Proof.
  assert (Ht : tps_of (init_conf n) = replicate n 0%nat) by apply fmap_replicate.
  split; rewrite ?Ht; simpl; try done.
  - split; simpl; try done; rewrite ?length_replicate; try done.
    + symmetry. apply fmap_replicate.
    + symmetry. apply fmap_replicate.
    + intros tp (-> & _)%elem_of_replicate. lia.
  - by rewrite !length_replicate.
  - intros i tp pc _ (-> & _)%lookup_replicate. done.
  - intros l (-> & _)%elem_of_replicate. done.
Qed.

(** A consumer moves: its own program counter only. *)
Lemma set_cpc_inv q p cs pu po i pc :
  conf_inv (mkConf q p cs pu po) ->
  (forall tp, map length po !! i = Some tp -> cpc_inv pu tp pc) -> conf_inv (mkConf q p (<[i := pc]> cs) pu po).
Proof.
  intros [Hq Hp Hl Hc Hpo] Hpc. split; simpl in *; try done; [by rewrite length_insert|].
  intros j tp pc' Htp Hj. apply list_lookup_insert_Some in Hj as [(-> & <- & _)|[_ Hj]]; [by apply Hpc|by eapply Hc].
Qed.

Lemma cached_tail_inv (q : Queue (T := T)) pu tps i t : queue_inv cap q pu tps -> cached_tails q !! i = Some t -> exists tp, tps !! i = Some tp /\ t = Z.of_nat tp.
Proof. intros H Hi. rewrite (si_ctails _ _ _ _ H), list_lookup_fmap in Hi. by apply fmap_Some in Hi. Qed.

(** The slot a consumer reads holds its next item. *)
Lemma read_inv q p cs pu po i h t :
  conf_inv (mkConf q p cs pu po) -> cs !! i = Some (CRead h) -> cached_tails q !! i = Some t -> h <> t ->
  exists tp x, map length po !! i = Some tp /\ t = Z.of_nat tp /\ pu !! tp = Some x
    /\ slots (shared q) !! mask cap t = Some (Some x).
Proof.
  intros [Hq _ _ Hc _] Hcs Ht Hne. simpl in *. destruct (cached_tail_inv _ _ _ _ _ Hq Ht) as (tp & Htp & ->).
  destruct (Hc i tp (CRead h) Htp Hcs) as (hp0 & -> & Hr).
  assert (Hlt : (tp < length pu)%nat) by (assert (hp0 <> tp) by congruence; lia).
  destruct (lookup_lt_is_Some_2 pu tp Hlt) as [x Hx]. exists tp, x. split_and!; try done.
  pose proof (si_bound _ _ _ _ Hq). rewrite mask_count by lia. eapply (si_slots _ _ _ _ Hq); [by eapply list_elem_of_lookup_2|done|done].
Qed.

Lemma pop_some_inv q p cs pu po i t item l :
  conf_inv (mkConf q p cs pu po) -> cs !! i = Some (CPublish item) -> cached_tails q !! i = Some t -> po !! i = Some l ->
  conf_inv (mkConf (publish_tail i (wrap_u64 (t + 1)) q) p (<[i := CIdle]> cs) pu (<[i := l ++ [item]]> po)).
Proof.
  intros [Hq Hp Hl Hc Hpo] Hcs Ht Hi. unfold tps_of in *. simpl in *.
  destruct (cached_tail_inv _ _ _ _ _ Hq Ht) as (tp & Htp & ->). assert (Hx := Hc i tp _ Htp Hcs). simpl in Hx.
  assert (tp = length l) as -> by (rewrite list_lookup_fmap, Hi in Htp; by injection Htp).
  assert (Hm : map length (<[i := l ++ [item]]> po) = <[i := S (length l)]> (map length po)).
  { rewrite (list_fmap_insert length). by rewrite length_app, Nat.add_1_r. }
  split; unfold tps_of; cbn [c_queue c_ppc c_cpcs c_pushed c_popped]; rewrite ?Hm.
  - apply publish_tail_inv; [done|done|by eapply lookup_lt_Some].
  - by apply ppc_inv_pop.
  - by rewrite !length_insert.
  - intros j y pc Hy Hj. apply list_lookup_insert_Some in Hj as [(-> & <- & _)|[Hne Hj]]; [done|].
    rewrite list_lookup_insert_ne in Hy by done. by eapply Hc.
  - intros l' (j & Hj)%list_elem_of_lookup_1. apply list_lookup_insert_Some in Hj as [(-> & <- & _)|[_ Hj]].
    + rewrite length_app, Nat.add_1_r, (take_S_r _ _ item) by done. f_equal. apply Hpo. by eapply list_elem_of_lookup_2.
    + apply Hpo. by eapply list_elem_of_lookup_2.
Qed.

Lemma bc_step_inv c c' : Z.of_nat (length (c_pushed c')) < two64 -> conf_inv c -> step c c' -> conf_inv c'.
Proof.
  intros Hb Hc Hstep. destruct Hstep as [q cs pu po item|q cs pu po item k m t Hk|q cs pu po item k m Hk Hf|q cs pu po item k m Hk Hf
    |q cs pu po item|q p cs pu po i Hi|q p cs pu po i h Hi Ht|q p cs pu po i h t item Hi Ht Hne Hs|q p cs pu po i t item l Hi Ht Hl].
  - destruct Hc; by split.
  - destruct Hc as [Hq Hp]. split; try done. by apply (load_inv q pu _ item k m t).
  - destruct Hc; by split.
  - destruct Hc as [Hq Hp Hl Hc Hpo]. simpl in *. assert (Hroom := write_room _ _ _ item _ _ Hq Hp Hk Hf).
    destruct (write_slot_inv q pu _ item Hq Hroom). by split.
  - destruct Hc as [Hq [Hroom Hs] Hl Hc Hpo]. simpl in *. split; simpl; try done.
    + by apply publish_head_inv.
    + intros i tp pc Htp Hpc. specialize (Hc i tp pc Htp Hpc). destruct pc as [|h|x]; simpl in *; [done| |by apply lookup_app_l_Some].
      destruct Hc as (hp0 & -> & ?). exists hp0. rewrite length_app. simpl. split; [done|lia].
    + intros l Hin. rewrite take_app_le; [by apply Hpo|]. specialize (Hpo l Hin). rewrite Hpo, length_take. lia.
  - apply set_cpc_inv; [done|]. destruct Hc as [Hq _ _ _ _]. simpl in *. intros tp Htp. exists (length pu). rewrite (si_head _ _ _ _ Hq).
    split; [done|]. pose proof (si_window _ _ _ _ Hq tp ltac:(by eapply list_elem_of_lookup_2)). lia.
  - by apply set_cpc_inv.
  - destruct (read_inv _ _ _ _ _ _ _ _ Hc Hi Ht Hne) as (tp & x & Htp & -> & Hx & Hs'). rewrite Hs in Hs'. injection Hs' as ->.
    apply set_cpc_inv; [done|]. intros tp' Htp'. rewrite Htp in Htp'. injection Htp' as <-. done.
  - by eapply pop_some_inv.
Qed.

Lemma step_grows c c' : step c c' -> (length (c_pushed c) <= length (c_pushed c'))%nat.
Proof. destruct 1; simpl; rewrite ?length_app; lia. Qed.

Lemma bc_steps_inv n c : steps n c -> Z.of_nat (length (c_pushed c)) < two64 -> conf_inv c.
Proof.
  induction 1 as [|c c' _ IH Hs]; intros Hb; [apply bc_init_inv|].
  apply (bc_step_inv c); try done. apply IH. pose proof (step_grows c c' Hs). lia.
Qed.

Lemma steps_consumers n c : steps n c -> length (c_popped c) = n.
Proof. induction 1 as [|c c' _ IH Hs]; simpl; [apply length_replicate|]. destruct Hs; simpl in *; rewrite ?length_insert; done. Qed.

(** C11. The broadcast queue under concurrency.  In every interleaving of the
    accesses of the producer and of its consumers, while fewer than 2^64 items
    have been published: what each consumer has received is a prefix of what
    the producer has published, in order and without gaps, at most [CAP] items
    behind it; a consumer that has seen a new head reads a slot that holds
    exactly its next item; and a producer that has passed its full test, having
    loaded the tails one at a time while they moved, writes a slot no consumer
    can be reading. *)
Theorem spmc_concurrent_broadcast n c :
  steps n c -> Z.of_nat (length (c_pushed c)) < two64 ->
  length (c_popped c) = n
  /\ (forall i l, c_popped c !! i = Some l -> exists behind, c_pushed c = l ++ behind /\ (length behind <= cap)%nat)
  /\ (forall i h t, c_cpcs c !! i = Some (CRead h) -> cached_tails (c_queue c) !! i = Some t -> h <> t ->
        exists x l, c_popped c !! i = Some l /\ c_pushed c !! length l = Some x
          /\ slots (shared (c_queue c)) !! mask cap t = Some (Some x)
          /\ forall item k m, c_ppc c = PLoad item k m -> k = length (consumer_tails (shared (c_queue c))) ->
               wrap_u64 (cached_head (c_queue c) - min_final m) <> Z.of_nat cap -> mask cap (cached_head (c_queue c)) <> mask cap t).
Proof.
  intros Hs Hb. split; [by apply steps_consumers|]. apply bc_steps_inv in Hs; [|done]. destruct c as [q p cs pu po]. cbn in *.
  assert (Hs' := Hs). destruct Hs' as [Hq Hp Hl Hc Hpo]. unfold tps_of in *. cbn in *. split.
  - intros i l Hi. assert (Hin : l ∈ po) by by eapply list_elem_of_lookup_2. exists (drop (length l) pu).
    split; [rewrite (Hpo l Hin) at 1; by rewrite take_drop|]. rewrite length_drop.
    pose proof (si_window _ _ _ _ Hq (length l) ltac:(apply list_elem_of_fmap; by exists l)). lia.
  - intros i h t Hi Ht Hne. destruct (read_inv _ _ _ _ _ _ _ _ Hs Hi Ht Hne) as (tp & x & Htp & -> & Hx & Hsl).
    rewrite list_lookup_fmap in Htp. apply fmap_Some in Htp as (l & Hl' & ->). exists x, l. split_and!; try done.
    intros item k m -> Hk Hf. assert (Hin : length l ∈ map length po) by (apply list_elem_of_fmap; exists l; split; [done|by eapply list_elem_of_lookup_2]).
    pose proof (write_room _ _ _ item _ _ Hq Hp Hk Hf (length l) Hin). pose proof (lookup_lt_Some _ _ _ Hx). pose proof (cap_pos cap Hcap).
    rewrite (si_chead _ _ _ _ Hq), !mask_count by lia. intros Heq.
    assert (length pu = length l) by (apply (mod_window cap); (done || lia)). lia.
Qed.
End SpmcConc.

(** ** Witness: two consumers, one about to read while the producer writes *)

Definition bc_demo_queue : Queue (T := Z) := mkQueue (mkShared 1 [0; 0] [Some 7; None; None; None]) 1 [0; 0].
Definition bc_demo_conf : Conf (T := Z) := mkConf bc_demo_queue (PLoad 8 2 (Some 0)) [CRead 1; CIdle] [7] [[]; []].

Lemma bc_demo_steps : steps 4 2 bc_demo_conf.
Proof.
  eapply steps_step; [|apply (st_push_load 4 bc_demo_queue [CRead 1; CIdle] [7] [[]; []] 8 1 (Some 0) 0); reflexivity].
  eapply steps_step; [|apply (st_push_load 4 bc_demo_queue [CRead 1; CIdle] [7] [[]; []] 8 0 None 0); reflexivity].
  eapply steps_step; [|apply (st_push_begin 4 bc_demo_queue [CRead 1; CIdle] [7] [[]; []] 8)].
  eapply steps_step; [|apply (st_pop_begin 4 bc_demo_queue PIdle [CIdle; CIdle] [7] [[]; []] 0); reflexivity].
  eapply steps_step; [|apply (st_push_ok 4 (mkQueue (mkShared 0 [0; 0] [Some 7; None; None; None]) 0 [0; 0]) [CIdle; CIdle] [] [[]; []] 7)].
  eapply steps_step; [|apply (st_push_write 4 (spmc_queue 4 2) [CIdle; CIdle] [] [[]; []] 7 2 (Some 0)); [reflexivity|vm_compute; discriminate]].
  eapply steps_step; [|apply (st_push_load 4 (spmc_queue 4 2) [CIdle; CIdle] [] [[]; []] 7 1 (Some 0) 0); reflexivity].
  eapply steps_step; [|apply (st_push_load 4 (spmc_queue 4 2) [CIdle; CIdle] [] [[]; []] 7 0 None 0); reflexivity].
  eapply steps_step; [apply steps_init|apply (st_push_begin 4 (spmc_queue 4 2))].
Qed.

Lemma spmc_concurrent_broadcast_witness : mask 4 1 <> mask 4 0.
Proof.
  destruct (spmc_concurrent_broadcast 4 Spsc.cap4 2 bc_demo_conf bc_demo_steps ltac:(vm_compute; reflexivity)) as (_ & _ & H).
  destruct (H 0%nat 1 0 eq_refl eq_refl ltac:(discriminate)) as (x & l & _ & _ & _ & Hw).
  exact (Hw 8 2%nat (Some 0) eq_refl eq_refl ltac:(vm_compute; discriminate)).
Defined.
