(* ===== verification/Fifo.v ===== *)
(** * Fifo: the bounded queue as its clients see it

    [Fifo] is the interface the sequencer is proved against: a queue is
    described by its history, the items ever pushed and how many of them were
    popped.  The instance is the ring of spsc.rs (RingBuffer.v).  The file
    also holds what a producer relies on while it spins on a full queue: the
    thread at the other end only pops ([consumes]), and pops at least once
    within a bound ([drains]). *)

From S2P Require Import Prelude RingBuffer.
#[local] Open Scope Z_scope.

Class Fifo (Q T : Type) (cap : nat) := {
  fifo_new : Q;
  fifo_push : T -> Q -> Result unit T * Q;
  fifo_pop : Q -> Exec (option T * Q);
  fifo_hist : Q -> list T -> nat -> Prop;
  fifo_new_hist : fifo_hist fifo_new [] 0;
  fifo_bound q pu n : fifo_hist q pu n -> (n <= length pu <= n + cap)%nat;
  fifo_push_hist q pu n item : fifo_hist q pu n ->
    if decide (length pu = n + cap)%nat then fifo_push item q = (Err item, q)
    else exists q', fifo_push item q = (Ok tt, q') /\ fifo_hist q' (pu ++ [item]) n;
  fifo_pop_hist q pu n : fifo_hist q pu n ->
    match pu !! n with
    | None => fifo_pop q = Val (None, q)
    | Some x => exists q', fifo_pop q = Val (Some x, q') /\ fifo_hist q' pu (S n)
    end
}.

(** The capacity of a ring is a power of two below the range of [usize]; the
    [const] assertion of spsc.rs. *)
Class CapOk (cap : nat) : Prop := cap_is_ok : cap_ok cap.

(** The single-producer single-consumer ring is such a queue. *)
#[export, program] Instance spsc_fifo_instance {T} cap `{!CapOk cap} :
    Fifo (Spsc.Queue (T := T)) T cap := {|
  fifo_new := Spsc.spsc_queue cap;
  fifo_push := Spsc.try_push cap;
  fifo_pop := Spsc.try_pop cap;
  fifo_hist := Spsc.queue_inv cap
|}.
Next Obligation. intros T cap ?. by destruct (Spsc.init_inv (T := T) cap) as (H & _). Qed.
Next Obligation. intros T cap ? q pu n H. split; apply H. Qed.
Next Obligation. intros T cap Hc q pu n item H. by apply Spsc.try_push_hist. Qed.
Next Obligation. intros T cap Hc q pu n H. by apply Spsc.try_pop_hist. Qed.

Section Clients.
Context {Q T : Type} {cap : nat} `{!Fifo Q T cap}.

(** The thread at the other end only pops. *)
Definition consumes (env : nat -> Q -> Q) : Prop :=
  forall i q pu n, fifo_hist q pu n -> exists k, fifo_hist (env i q) pu (n + k).

(** It pops at least once before the attempt [b]. *)
Definition drains (env : nat -> Q -> Q) (b : nat) : Prop :=
  exists i, (i < b)%nat /\
    forall q pu n, fifo_hist q pu n -> (n < length pu)%nat ->
      exists k, fifo_hist (env i q) pu (n + S k).

(** The thread at the other end only pushes. *)
Definition produces (env : Q -> Q) : Prop :=
  forall q pu n, fifo_hist q pu n -> exists more, fifo_hist (env q) (pu ++ more) n.

(** [loop { match q.try_push(item) { Ok(()) => break, Err(_) => spin_loop() } }],
    where [env i] is what the consumer does before the attempt number [i]. *)
Fixpoint spin_push (env : nat -> Q -> Q) (fuel i : nat) (item : T) (q : Q) : Exec Q :=
  match fuel with
  | O => OutOfFuel
  | S fuel' =>
      match fifo_push item (env i q) with
      | (Ok _, q') => Val q'
      | (Err _, q') => spin_push env fuel' (S i) item q'
      end
  end.

(** One attempt: the item is in, or the queue is full and nothing changed. *)
Lemma push_attempt q pu n item :
  fifo_hist q pu n ->
  (exists q', fifo_push item q = (Ok tt, q') /\ fifo_hist q' (pu ++ [item]) n)
  \/ (fifo_push item q = (Err item, q) /\ length pu = n + cap)%nat.
Proof.
  intros H. pose proof (fifo_push_hist q pu n item H) as Hp. case_decide; [by right|by left].
Qed.

(** If the loop leaves, the item was appended once and nothing else was. *)
Lemma spin_push_hist env fuel i item q pu n q' :
  consumes env -> fifo_hist q pu n -> spin_push env fuel i item q = Val q' ->
  exists k, fifo_hist q' (pu ++ [item]) (n + k).
Proof.
  intros Henv. revert i q n. induction fuel as [|fuel IH]; intros i q n Hq Hs; [done|].
  cbn [spin_push] in Hs. destruct (Henv i q pu n Hq) as [k Hk].
  destruct (push_attempt (env i q) pu (n + k) item Hk) as [(q1 & Hp & H1)|[Hp _]];
    rewrite Hp in Hs; simplify_eq; [by exists k|].
  destruct (IH _ _ _ Hk Hs) as [j Hj]. exists (k + j)%nat. by rewrite Nat.add_assoc.
Qed.

(** Once there is room the next attempt leaves the loop. *)
Lemma spin_push_room env fuel i item q pu n :
  consumes env -> fifo_hist q pu n -> (length pu < n + cap)%nat ->
  exists q', spin_push env (S fuel) i item q = Val q'.
Proof.
  intros Henv Hq Hr. cbn [spin_push]. destruct (Henv i q pu n Hq) as [k Hk].
  destruct (push_attempt (env i q) pu (n + k) item Hk) as [(q1 & Hp & H1)|[Hp Hf]];
    rewrite Hp; [by eexists|lia].
Qed.

(** The loop leaves within the bound of a draining consumer. *)
Lemma spin_push_leaves env b fuel item q pu n :
  (0 < cap)%nat -> consumes env -> drains env b -> (b <= fuel)%nat -> fifo_hist q pu n ->
  exists q', spin_push env fuel 0 item q = Val q'.
Proof.
  intros Hpos Henv (d & Hd & Hdr) Hb. assert (Hf : (d - 0 < fuel)%nat) by lia. clear Hd Hb.
  revert Hf. generalize 0%nat as i, (Nat.le_0_l d).
  revert q n. induction fuel as [|fuel IH]; intros q n i Hi Hf Hq; [lia|]. cbn [spin_push].
  destruct (Henv i q pu n Hq) as [k Hk].
  destruct (push_attempt (env i q) pu (n + k) item Hk) as [(q1 & Hp & H1)|[Hp Hfull]]; [by rewrite Hp; eexists|].
  rewrite Hp. destruct (decide (i = d)) as [->|Hne]; [|apply (IH _ (n + k)%nat); (done || lia)].
  exfalso. destruct (decide (n < length pu)%nat) as [Hlt|Hge].
  - destruct (Hdr q pu n Hq Hlt) as [j Hj].
    pose proof (fifo_push_hist _ _ _ item Hj) as Hp'. pose proof (fifo_bound _ _ _ Hj).
    pose proof (fifo_bound _ _ _ Hq).
    case_decide; [lia|]. destruct Hp' as (? & Hp' & _). congruence.
  - pose proof (fifo_bound _ _ _ Hk). lia.
Qed.
End Clients.

(** A consumer that pops one item before every attempt. *)
Definition pop_one {Q T cap} `{!Fifo Q T cap} (i : nat) (q : Q) : Q :=
  match fifo_pop q with Val (_, q') => q' | _ => q end.

Lemma pop_one_hist {Q T cap} `{!Fifo Q T cap} i (q : Q) (pu : list T) n :
  fifo_hist q pu n -> fifo_hist (pop_one i q) pu (if decide (n < length pu)%nat then S n else n).
Proof.
  intros Hq. unfold pop_one. pose proof (fifo_pop_hist q pu n Hq) as Hp.
  destruct (pu !! n) eqn:Hn; case_decide.
  - destruct Hp as (q' & -> & H'). done.
  - by apply lookup_lt_Some in Hn.
  - apply lookup_ge_None in Hn. lia.
  - by rewrite Hp.
Qed.

Lemma pop_one_consumes {Q T cap} `{!Fifo Q T cap} : consumes (Q := Q) (T := T) pop_one.
Proof.
  intros i q pu n Hq%(pop_one_hist i). case_decide; [exists 1%nat|exists 0%nat].
  - by rewrite Nat.add_1_r.
  - by rewrite Nat.add_0_r.
Qed.

Lemma pop_one_drains {Q T cap} `{!Fifo Q T cap} : drains (Q := Q) (T := T) pop_one 1.
Proof.
  exists 0%nat. split; [lia|]. intros q pu n Hq%(pop_one_hist 0) Hlt. exists 0%nat.
  rewrite decide_True in Hq by done. by rewrite Nat.add_1_r.
Qed.
