(* ===== verification/Seqlock.v ===== *)
(** * Seqlock: crates/seqlock

    The per-account risk cell of account_risk_state.rs, written by one risk
    shard and read by the matching engines, and the account table of table.rs.
    The cell is modelled twice: as whole calls ([update], [read] and the
    setters), and as the individual accesses of one writer and one reader in
    any interleaving, on which the seqlock protocol is proved. *)

From S2P Require Import Prelude.
#[local] Open Scope Z_scope.

(** ** The cell *)

Record AccountRiskSnapshot := mkSnap {
  balance : Z;
  used_margin : Z;
  frozen : bool;
  halted : bool;
  position : Z;
  open_order_count : Z
}.

Definition snap_default : AccountRiskSnapshot := mkSnap 0 0 false false 0 0.

Record AccountRiskState := mkARS { seq : Z; data : AccountRiskSnapshot }.

Definition AccountRiskState_new : AccountRiskState := mkARS 0 snap_default.

(** A whole [update] with no other writer: the counter ends two higher. *)
Definition update (v : AccountRiskSnapshot) (s : AccountRiskState) : AccountRiskState :=
  mkARS (wrap_u64 (seq s + 2)) v.

(** A [read] that no writer interrupts: one pass of the loop when the counter
    is even; an odd counter spins. *)
Definition read (s : AccountRiskState) : Exec AccountRiskSnapshot :=
  if Z.odd (seq s) then OutOfFuel else Val (data s).

Definition is_frozen (s : AccountRiskState) : Exec bool := let! r := read s in Val (frozen r).
Definition is_halted (s : AccountRiskState) : Exec bool := let! r := read s in Val (halted r).

Definition get_position (s : AccountRiskState) : Exec Z := let! r := read s in Val (position r).
Definition get_open_order_count (s : AccountRiskState) : Exec Z := let! r := read s in Val (open_order_count r).

Definition set_frozen (f : bool) (s : AccountRiskState) : Exec AccountRiskState :=
  let! r := read s in
  Val (update (mkSnap (balance r) (used_margin r) f (halted r) (position r) (open_order_count r)) s).
Definition set_halted (h : bool) (s : AccountRiskState) : Exec AccountRiskState :=
  let! r := read s in
  Val (update (mkSnap (balance r) (used_margin r) (frozen r) h (position r) (open_order_count r)) s).
Definition set_position (p : Z) (s : AccountRiskState) : Exec AccountRiskState :=
  let! r := read s in
  Val (update (mkSnap (balance r) (used_margin r) (frozen r) (halted r) p (open_order_count r)) s).

(** No update is in progress. *)
Definition quiescent (s : AccountRiskState) : Prop := Z.even (seq s) = true /\ in_u64 (seq s).

Lemma even_wrap z : Z.even (wrap_u64 z) = Z.even z.
Proof.
  unfold wrap_u64. rewrite <- !Z.negb_odd. f_equal. apply eq_true_iff_eq.
  rewrite !Z.odd_spec. pose proof (Z.div_mod z two64 ltac:(done)) as Hd.
  split; intros [k Hk].
  - exists (z / two64 * 9223372036854775808 + k). unfold two64 in *. lia.
  - exists (k - z / two64 * 9223372036854775808). unfold two64 in *. lia.
Qed.

Lemma quiescent_new : quiescent AccountRiskState_new.
Proof. split; [done|]. unfold in_u64, two64. simpl. lia. Qed.

Lemma quiescent_update v s : quiescent s -> quiescent (update v s).
Proof.
  intros [He Hr]. split; [|apply wrap_u64_range]. simpl.
  rewrite even_wrap, Z.even_add, He. done.
Qed.

Lemma read_ok s : quiescent s -> read s = Val (data s).
Proof. intros [He _]. unfold read. by rewrite <- Z.negb_even, He. Qed.

(** The handle through which the one writer of a cell works on it. *)
Record AccountRiskStateWriter := mkRiskWriter { arw_inner : AccountRiskState }.
Definition writer_update (v : AccountRiskSnapshot) (w : AccountRiskStateWriter) : AccountRiskStateWriter :=
  mkRiskWriter (update v (arw_inner w)).
Definition writer_read (w : AccountRiskStateWriter) : Exec AccountRiskSnapshot := read (arw_inner w).

Lemma writer_read_update v w : quiescent (arw_inner w) -> writer_read (writer_update v w) = Val v.
Proof. intros Hq. unfold writer_read. simpl. by rewrite read_ok by by apply quiescent_update. Qed.

(** ** table.rs *)

Record AccountRiskTable := mkTable { states : list AccountRiskState }.

Definition Table_new (capacity : nat) : AccountRiskTable :=
  mkTable (replicate capacity AccountRiskState_new).
Definition table_get (t : AccountRiskTable) (account_id : Z) : option AccountRiskState :=
  states t !! Z.to_nat account_id.
Definition table_capacity (t : AccountRiskTable) : nat := length (states t).
(** Write access to the cell of an account, through the shared reference. *)
Definition table_put (t : AccountRiskTable) (account_id : Z) (s : AccountRiskState) :
    AccountRiskTable := mkTable (<[Z.to_nat account_id := s]> (states t)).

Definition table_ok (t : AccountRiskTable) : Prop := Forall quiescent (states t).

Lemma table_new_ok n : table_ok (Table_new n).
Proof. apply Forall_replicate, quiescent_new. Qed.

Lemma table_put_ok t a s : table_ok t -> quiescent s -> table_ok (table_put t a s).
Proof. intros Ht Hs. by apply Forall_insert. Qed.

Lemma table_get_ok t a s : table_ok t -> table_get t a = Some s -> quiescent s.
Proof. intros Ht Hs. unfold table_ok in Ht. rewrite Forall_lookup in Ht. by eapply Ht. Qed.

Lemma table_get_put t a a' s :
  0 <= a -> 0 <= a' -> is_Some (table_get t a) ->
  table_get (table_put t a s) a' = if decide (a = a') then Some s else table_get t a'.
Proof.
  intros Ha Ha' Hl. unfold table_get, table_put in *. simpl. case_decide as Hd.
  - subst. rewrite list_lookup_insert_eq; [done|]. by apply lookup_lt_is_Some_1.
  - rewrite list_lookup_insert_ne; [done|]. lia.
Qed.

(** ** The protocol, access by access *)

(** Copy the [k]-th field, in the order the code writes and reads them. *)
Definition copy_field (k : nat) (src dst : AccountRiskSnapshot) : AccountRiskSnapshot :=
  match k with
  | 0%nat => mkSnap (balance src) (used_margin dst) (frozen dst) (halted dst) (position dst) (open_order_count dst)
  | 1%nat => mkSnap (balance dst) (used_margin src) (frozen dst) (halted dst) (position dst) (open_order_count dst)
  | 2%nat => mkSnap (balance dst) (used_margin dst) (frozen src) (halted dst) (position dst) (open_order_count dst)
  | 3%nat => mkSnap (balance dst) (used_margin dst) (frozen dst) (halted src) (position dst) (open_order_count dst)
  | 4%nat => mkSnap (balance dst) (used_margin dst) (frozen dst) (halted dst) (position src) (open_order_count dst)
  | _ => mkSnap (balance dst) (used_margin dst) (frozen dst) (halted dst) (position dst) (open_order_count src)
  end.

Fixpoint copy_fields (k : nat) (src dst : AccountRiskSnapshot) : AccountRiskSnapshot :=
  match k with O => dst | S k' => copy_field k' src (copy_fields k' src dst) end.

Definition n_fields : nat := 6.

Lemma copy_all src dst : copy_fields n_fields src dst = src.
Proof. by destruct src, dst. Qed.

(** The writer: outside [update]; after the load of [seq]; after the store of
    [seq + 1] with [k] fields written. *)
Inductive wpc := WIdle | WLoaded (v : AccountRiskSnapshot) (s : Z)
| WWriting (v : AccountRiskSnapshot) (s : Z) (k : nat).

(** The reader: before the load of [seq1]; with [k] fields read into
    [partial].  [start] is the number of completed updates when [seq1] was
    loaded; no step depends on it. *)
Inductive rpc := RIdle | RReading (seq1 : Z) (k : nat) (partial : AccountRiskSnapshot) (start : nat).

Record Conf := mkConf {
  c_cell : AccountRiskState;
  c_w : wpc;
  c_r : rpc;
  c_published : list AccountRiskSnapshot   (** the values of the completed updates, the initial one first *)
}.

Definition init_conf : Conf := mkConf AccountRiskState_new WIdle RIdle [snap_default].

Inductive label :=
| WLoad | WStore1 | WField | WStore2
| RLoad | RSpin | RField | RRetry | RReturn (snap : AccountRiskSnapshot) (start : nat).

Inductive step : Conf -> label -> Conf -> Prop :=
| st_w_load c r pub v :
    step (mkConf c WIdle r pub) WLoad (mkConf c (WLoaded v (seq c)) r pub)
| st_w_store1 c r pub v s :
    step (mkConf c (WLoaded v s) r pub) WStore1
         (mkConf (mkARS (wrap_u64 (s + 1)) (data c)) (WWriting v s 0) r pub)
| st_w_field c r pub v s k :
    (k < n_fields)%nat ->
    step (mkConf c (WWriting v s k) r pub) WField
         (mkConf (mkARS (seq c) (copy_field k v (data c))) (WWriting v s (S k)) r pub)
| st_w_store2 c r pub v s :
    step (mkConf c (WWriting v s n_fields) r pub) WStore2
         (mkConf (mkARS (wrap_u64 (s + 2)) (data c)) WIdle r (pub ++ [v]))
| st_r_spin c w pub :
    Z.odd (seq c) = true ->
    step (mkConf c w RIdle pub) RSpin (mkConf c w RIdle pub)
| st_r_load c w pub scratch :
    Z.odd (seq c) = false ->
    step (mkConf c w RIdle pub) RLoad
         (mkConf c w (RReading (seq c) 0 scratch (pred (length pub))) pub)
| st_r_field c w pub s1 k p v0 :
    (k < n_fields)%nat ->
    step (mkConf c w (RReading s1 k p v0) pub) RField
         (mkConf c w (RReading s1 (S k) (copy_field k (data c) p) v0) pub)
| st_r_retry c w pub s1 p v0 :
    seq c <> s1 ->
    step (mkConf c w (RReading s1 n_fields p v0) pub) RRetry (mkConf c w RIdle pub)
| st_r_return c w pub s1 p v0 :
    seq c = s1 ->
    step (mkConf c w (RReading s1 n_fields p v0) pub) (RReturn p v0) (mkConf c w RIdle pub).

Inductive steps : Conf -> Prop :=
| steps_init : steps init_conf
| steps_step c l c' : steps c -> step c l c' -> steps c'.

(** ** The invariant *)

Definition writing (w : wpc) : bool := match w with WWriting _ _ _ => true | _ => false end.

(** The counter after [n] completed updates. *)
Definition version_seq (n : nat) : Z := wrap_u64 (2 * Z.of_nat n).

Definition w_inv (c : AccountRiskState) (w : wpc) (pub : list AccountRiskSnapshot) : Prop :=
  let n := pred (length pub) in
  pub <> [] /\
  match w with
  | WIdle => seq c = version_seq n /\ last pub = Some (data c)
  | WLoaded v s => s = version_seq n /\ seq c = version_seq n /\ last pub = Some (data c)
  | WWriting v s k => s = version_seq n /\ seq c = wrap_u64 (2 * Z.of_nat n + 1)
      /\ (k <= n_fields)%nat /\ exists old, data c = copy_fields k v old
  end.

Definition r_inv (w : wpc) (r : rpc) (pub : list AccountRiskSnapshot) : Prop :=
  match r with
  | RIdle => True
  | RReading s1 k p v0 =>
      s1 = version_seq v0 /\ (S v0 <= length pub)%nat /\ (k <= n_fields)%nat
      /\ (length pub = S v0 -> writing w = false ->
          exists cur scratch, last pub = Some cur /\ p = copy_fields k cur scratch)
  end.

Definition conf_inv (c : Conf) : Prop :=
  w_inv (c_cell c) (c_w c) (c_published c) /\ r_inv (c_w c) (c_r c) (c_published c).

Lemma version_seq_even n : Z.even (version_seq n) = true.
Proof. unfold version_seq. rewrite even_wrap. by rewrite Z.even_mul. Qed.

Lemma version_seq_odd n : Z.odd (wrap_u64 (2 * Z.of_nat n + 1)) = true.
Proof.
  rewrite <- Z.negb_even, even_wrap, Z.even_add, Z.even_mul. done.
Qed.

Lemma r_inv_writer w w' r pub :
  (writing w' = false -> writing w = false) -> r_inv w r pub -> r_inv w' r pub.
Proof. intros Hw. destruct r as [|s1 k p v0]; simpl; [done|]. intros (?&?&?&H). by split_and!; auto. Qed.

Lemma cell_step_inv c l c' : conf_inv c -> step c l c' -> conf_inv c'.
Proof.
  intros [[Hne Hw] Hr] Hstep.
  destruct Hstep as [c r pub v|c r pub v s|c r pub v s k Hk|c r pub v s|c w pub Ho|c w pub scratch Ho
    |c w pub s1 k p v0 Hk|c w pub s1 p v0 Hs|c w pub s1 p v0 Hs]; unfold conf_inv, w_inv in *;
    cbn [c_cell c_w c_r c_published r_inv writing seq data] in *.
  - destruct Hw. split; [by split_and!|by eapply r_inv_writer; [|exact Hr]].
  - destruct Hw as (-> & Hs & Hl). split; [|by eapply r_inv_writer; [|exact Hr]].
    split_and!; try done; [|lia|by exists (data c)].
    unfold version_seq. by rewrite wrap_u64_add_l.
  - destruct Hw as (-> & Hs & Hle & old & Hd). split; [|by eapply r_inv_writer; [|exact Hr]].
    split_and!; try done. exists old. by rewrite Hd.
  - destruct Hw as (-> & Hs & _ & old & Hd). rewrite Hd, copy_all. split.
    + rewrite length_app, last_snoc. simpl. split_and!; [by destruct pub| |done].
      unfold version_seq. rewrite wrap_u64_add_l. f_equal.
      assert (length pub <> 0%nat) by (by destruct pub). lia.
    + destruct r as [|s1 k p v0]; simpl in *; [done|]. destruct Hr as (? & ? & ? & Hr).
      rewrite length_app. simpl. split_and!; try done; [lia|]. intros Hlen. exfalso. lia.
  - by split.
  - split; [by split|]. assert (length pub <> 0%nat) by (by destruct pub).
    assert (Hw' : writing w = false /\ seq c = version_seq (pred (length pub))).
    { destruct w as [|v s|v s k]; [by destruct Hw|by destruct Hw as (_ & ? & _)|].
      destruct Hw as (_ & Hs & _). rewrite Hs, version_seq_odd in Ho. done. }
    destruct Hw' as [_ Hs]. split_and!; [done|lia|lia|]. intros _ _.
    destruct (last pub) as [cur|] eqn:E; [by exists cur, scratch|].
    by apply last_None in E.
  - destruct Hr as (? & ? & ? & Hr). split; [by split|]. split_and!; try done.
    intros Hlen Hwr. destruct (Hr Hlen Hwr) as (cur & scratch & Hcur & ->).
    exists cur, scratch. split; [done|]. simpl. f_equal.
    destruct w as [|v s|v s k']; [destruct Hw as [_ Hw]|destruct Hw as (_ & _ & Hw)|done]; congruence.
  - by split.
  - by split.
Qed.

Lemma cell_steps_inv c : steps c -> conf_inv c.
Proof.
  induction 1 as [|c l c' _ IH Hs]; [|by eapply cell_step_inv].
  split; [|done]. split; [done|]. done.
Qed.

(** C12. Seqlock consistency: a [read] that returns while fewer than 2^63 updates
    completed since it loaded the counter returns exactly one published
    value, the one current when it started: never a mix of two updates, and
    never a value of an update in progress. *)
Theorem seqlock_read_consistent c snap start c' :
  steps c -> step c (RReturn snap start) c' ->
  Z.of_nat (length (c_published c)) - Z.of_nat start <= two63 ->
  c_published c !! start = Some snap /\ length (c_published c) = S start.
Proof.
  intros [[Hne Hw] Hr]%cell_steps_inv Hstep Hb. inversion Hstep as [| | | | | | | |cell w pub s1 p v0 Hs]; subst.
  cbn [c_cell c_w c_r c_published r_inv writing seq data] in *.
  destruct Hr as (Hs1 & Hlen & _ & Hr).
  set (n := pred (length pub)) in *. assert (Hn : length pub = S n).
  { unfold n. destruct pub; [done|]. done. }
  assert (Hq : forall z, wrap_u64 z = version_seq start -> 2 * Z.of_nat start <= z ->
    z <= 2 * Z.of_nat n + 1 -> z = 2 * Z.of_nat start).
  { intros z Hz H1 H2. unfold version_seq, wrap_u64 in Hz.
    assert (Hd : (z - 2 * Z.of_nat start) mod two64 = 0).
    { rewrite Zminus_mod, Hz, Z.sub_diag. apply Z.mod_0_l. done. }
    rewrite Z.mod_small in Hd; unfold two64, two63 in *; lia. }
  destruct w as [|v s|v s k].
  - destruct Hw as [Hw Hl]. rewrite Hs1 in Hw. symmetry in Hw.
    unfold version_seq at 1 in Hw. apply Hq in Hw; [|lia|lia].
    assert (n = start) as Hnv by lia. rewrite Hn, Hnv. split; [|done].
    destruct (Hr ltac:(lia) eq_refl) as (cur & scratch & Hcur & ->). rewrite copy_all.
    rewrite last_lookup, Hn, Hnv in Hcur. done.
  - destruct Hw as (_ & Hw & Hl). rewrite Hs1 in Hw. symmetry in Hw.
    unfold version_seq at 1 in Hw. apply Hq in Hw; [|lia|lia].
    assert (n = start) as Hnv by lia. rewrite Hn, Hnv. split; [|done].
    destruct (Hr ltac:(lia) eq_refl) as (cur & scratch & Hcur & ->). rewrite copy_all.
    rewrite last_lookup, Hn, Hnv in Hcur. done.
  - destruct Hw as (_ & Hw & _). rewrite Hs1 in Hw. symmetry in Hw. apply Hq in Hw; lia.
Qed.

(** Whole calls: on a cell with no update in progress, [read] returns at
    once with the last value written, and the setters change their own field
    and no other, leaving the cell readable. *)
Theorem risk_cell_setters s f h p :
  quiescent s ->
  exists s1 s2 s3, set_frozen f s = Val s1 /\ set_halted h s = Val s2 /\ set_position p s = Val s3
    /\ quiescent s1 /\ quiescent s2 /\ quiescent s3
    /\ read s1 = Val (mkSnap (balance (data s)) (used_margin (data s)) f (halted (data s))
                        (position (data s)) (open_order_count (data s)))
    /\ read s2 = Val (mkSnap (balance (data s)) (used_margin (data s)) (frozen (data s)) h
                        (position (data s)) (open_order_count (data s)))
    /\ read s3 = Val (mkSnap (balance (data s)) (used_margin (data s)) (frozen (data s))
                        (halted (data s)) p (open_order_count (data s))).
Proof.
  intros Hq. unfold set_frozen, set_halted, set_position. rewrite (read_ok s Hq). simpl.
  do 3 eexists. split_and!; try done; try (by apply quiescent_update);
    rewrite read_ok by (by apply quiescent_update); done.
Qed.

(** ** Witnesses *)

(** A reader that has read the six fields of the initial value. *)
Definition demo_read : Conf :=
  mkConf AccountRiskState_new WIdle (RReading 0 6 snap_default 0) [snap_default].

Lemma demo_read_steps : steps demo_read.
Proof.
  assert (H : forall k, (k <= n_fields)%nat ->
    steps (mkConf AccountRiskState_new WIdle (RReading 0 k snap_default 0) [snap_default])).
  { induction k as [|k IH]; intros Hk.
    - eapply steps_step; [apply steps_init|].
      exact (st_r_load AccountRiskState_new WIdle [snap_default] snap_default eq_refl).
    - eapply steps_step; [apply IH; lia|].
      pose proof (st_r_field AccountRiskState_new WIdle [snap_default] 0 k snap_default 0 Hk) as Hf.
      by replace (copy_field k (data AccountRiskState_new) snap_default) with snap_default in Hf
        by (by destruct k as [|[|[|[|[|?]]]]]). }
  by apply H.
Qed.

Lemma seqlock_read_consistent_witness :
  c_published demo_read !! 0%nat = Some snap_default.
Proof.
  refine (proj1 (seqlock_read_consistent demo_read snap_default 0
    (mkConf AccountRiskState_new WIdle RIdle [snap_default]) demo_read_steps _ _)).
  - apply st_r_return. reflexivity.
  - vm_compute. discriminate.
Defined.

Lemma risk_cell_setters_witness : exists s1, set_frozen true AccountRiskState_new = Val s1.
Proof.
  destruct (risk_cell_setters AccountRiskState_new true false 0 quiescent_new) as (s1 & _ & _ & H & _).
  exists s1. exact H.
Defined.
