(* ===== verification/Risk.v ===== *)
(** * Risk: crates/risk-engine

    The limits and the gateway's Tier-0 check (config.rs, tier0.rs), position
    keeping in fixed point (position.rs) and the Tier-1 risk shard (shard.rs):
    fills update positions, margin is recomputed over the account's positions
    and published to the account's seqlock cell, and a breach freezes the
    account and asks for its liquidation.  The iteration order of the
    [HashMap] of positions is a parameter of the shard. *)

From S2P Require Import Prelude CoreTypes Seqlock.
#[local] Open Scope Z_scope.

(** Rust's [i64::abs] in the release profile. *)
Definition abs_i64 (z : Z) : Z := wrap_i64 (Z.abs z).

(** ** config.rs *)

Record RiskLimits := mkLimits {
  max_order_notional : Z;
  max_position_qty : Z;
  max_unrealised_loss : Z;
  initial_margin_fraction : Z;
  maintenance_margin_fraction : Z
}.

Definition RiskLimits_default : RiskLimits :=
  mkLimits 10000000000 10000000000 1000000000 100000 50000.

Record ShardConfig := mkShardConfig { limits : RiskLimits; account_count : nat }.
Definition ShardConfig_new (n : nat) : ShardConfig := mkShardConfig RiskLimits_default n.

Inductive RejectionReason :=
| NotionalTooLarge | InvalidQty | InvalidPrice | PositionLimitExceeded
| InsufficientMargin | AccountFrozen.

(** [price.0.saturating_mul(qty.0 as i64) / 100_000_000]. *)
Definition order_notional (price qty : Z) : Z :=
  Z.quot (saturating_mul_i64 price (wrap_i64 qty)) 100000000.

Definition tier0_order_check (price qty : Z) (l : RiskLimits) : Result unit RejectionReason :=
  if max_order_notional l <? order_notional price qty then Err NotionalTooLarge
  else if qty =? 0 then Err InvalidQty
  else if price <=? 0 then Err InvalidPrice
  else Ok tt.

(** ** tier0.rs *)

Definition check (account_state : AccountRiskState) (l : RiskLimits) (price qty : Z) :
    Exec (Result unit RejectionReason) :=
  let! snapshot := read account_state in
  if frozen snapshot then Val (Err AccountFrozen)
  else
    match tier0_order_check price qty l with
    | Err e => Val (Err e)
    | Ok _ =>
        let required_margin :=
          Z.quot (saturating_mul_i64 (order_notional price qty) (initial_margin_fraction l)) 1000000 in
        let available_margin := saturating_sub_i64 (balance snapshot) (used_margin snapshot) in
        if available_margin <? required_margin then Val (Err InsufficientMargin)
        else Val (Ok tt)
    end.

(** ** position.rs *)

Record Position := mkPosition { net_qty : Z; avg_entry_price : Z; realised_pnl : Z }.
Definition Position_default : Position := mkPosition 0 0 0.

Definition signed_fill (side : Side) (qty : Z) : Z :=
  match side with Buy => wrap_i64 qty | Sell => wrap_i64 (- wrap_i64 qty) end.

(** Integer division panics on a zero divisor. *)
Definition div_i128 (a b : Z) : Exec Z :=
  if b =? 0 then Panic else Val (Z.quot a b).

Definition apply_fill (side : Side) (price qty : Z) (p : Position) : Exec Position :=
  let signed_qty := signed_fill side qty in
  let prev_qty := net_qty p in
  let new_qty := wrap_i64 (prev_qty + signed_qty) in
  if prev_qty =? 0 then Val (mkPosition new_qty price (realised_pnl p))
  else if Bool.eqb (0 <? prev_qty) (0 <? signed_qty) then
    let numerator :=
      wrap_i128 (wrap_i128 (avg_entry_price p * abs_i64 prev_qty) + wrap_i128 (price * qty)) in
    let! avg := div_i128 numerator (abs_i64 new_qty) in
    Val (mkPosition new_qty (wrap_i64 avg) (realised_pnl p))
  else
    let close_qty := Z.min (abs_i64 signed_qty) (abs_i64 prev_qty) in
    let direction := if 0 <? prev_qty then 1 else -1 in
    let pnl_per_unit := wrap_i64 (wrap_i64 (price - avg_entry_price p) * direction) in
    let pnl_delta := wrap_i64 (Z.quot (wrap_i128 (pnl_per_unit * close_qty)) 100000000) in
    let realised := saturating_add_i64 (realised_pnl p) pnl_delta in
    let avg :=
      if new_qty =? 0 then 0
      else if negb (Bool.eqb (0 <? new_qty) (0 <? prev_qty)) then price
      else avg_entry_price p in
    Val (mkPosition new_qty avg realised).

Definition unrealised_pnl (mark_price : Z) (p : Position) : Z :=
  if net_qty p =? 0 then 0
  else
    let direction := if 0 <? net_qty p then 1 else -1 in
    let diff := wrap_i64 (mark_price - avg_entry_price p) in
    let qty := abs_i64 (net_qty p) in
    wrap_i64 (wrap_i64 (Z.quot (wrap_i128 (diff * qty)) 100000000) * direction).

Definition notional (mark_price : Z) (p : Position) : Z :=
  wrap_i64 (Z.quot (wrap_i128 (mark_price * abs_i64 (net_qty p))) 100000000).

(** ** shard.rs *)

Record RiskShard := mkShard {
  owned_start : Z;
  owned_end : Z;
  positions : gmap (Z * Z) Position;
  rs_states : AccountRiskTable;
  initial_deposits : list Z;
  config : ShardConfig
}.

Definition RiskShard_new (s e : Z) (cfg : ShardConfig) (table : AccountRiskTable) : RiskShard :=
  mkShard s e ∅ table (replicate (Z.to_nat (wrap_u64 (e - s))) 0) cfg.

Definition owns (sh : RiskShard) (account : Z) : bool :=
  (owned_start sh <=? account) && (account <? owned_end sh).

Definition local_idx (sh : RiskShard) (account : Z) : nat :=
  Z.to_nat (wrap_u64 (account - owned_start sh)).

Definition sh_set_states (t : AccountRiskTable) (sh : RiskShard) : RiskShard :=
  mkShard (owned_start sh) (owned_end sh) (positions sh) t (initial_deposits sh) (config sh).
Definition sh_set_positions (m : gmap (Z * Z) Position) (sh : RiskShard) : RiskShard :=
  mkShard (owned_start sh) (owned_end sh) m (rs_states sh) (initial_deposits sh) (config sh).
Definition sh_set_deposits (d : list Z) (sh : RiskShard) : RiskShard :=
  mkShard (owned_start sh) (owned_end sh) (positions sh) (rs_states sh) d (config sh).

(** [deposits[i] = amount]: panics out of bounds. *)
Definition store_list {A} (l : list A) (i : nat) (x : A) : Exec (list A) :=
  if (i <? length l)%nat then Val (<[i := x]> l) else Panic.

Definition seed_deposit (account amount : Z) (sh : RiskShard) : Exec RiskShard :=
  let! deposits := store_list (initial_deposits sh) (local_idx sh account) amount in
  let sh := sh_set_deposits deposits sh in
  let! state := expect (table_get (rs_states sh) account) in
  let! s := read state in
  let state := update (mkSnap amount 0 (frozen s) (halted s) (position s) (open_order_count s)) state in
  Val (sh_set_states (table_put (rs_states sh) account state) sh).

Section Shard.
(** The iteration order of a [HashMap]: some order of its entries. *)
Context (hm_iter : gmap (Z * Z) Position -> list ((Z * Z) * Position)).

Definition position_mark (mark_prices : gmap Z Z) (symbol : Z) (pos : Position) : Z :=
  default (avg_entry_price pos) (mark_prices !! symbol).

(** The loop body of [recompute_margin] for one entry. *)
Definition margin_step (l : RiskLimits) (mark_prices : gmap Z Z) (account : Z)
    (acc : Z * Z) (entry : (Z * Z) * Position) : Z * Z :=
  let '(bal, used) := acc in
  let '((acct, symbol), pos) := entry in
  if negb (acct =? account) then acc
  else
    let bal := saturating_add_i64 bal (realised_pnl pos) in
    if net_qty pos =? 0 then (bal, used)
    else
      let mark := position_mark mark_prices symbol pos in
      let bal := saturating_add_i64 bal (unrealised_pnl mark pos) in
      let margin_required :=
        Z.quot (saturating_mul_i64 (notional mark pos) (maintenance_margin_fraction l)) 1000000 in
      (bal, saturating_add_i64 used margin_required).

Definition recompute_margin (sh : RiskShard) (account : Z) (mark_prices : gmap Z Z) : Exec (Z * Z) :=
  let! deposit := index_list (initial_deposits sh) (local_idx sh account) in
  Val (foldl (margin_step (limits (config sh)) mark_prices account) (deposit, 0)
         (hm_iter (positions sh))).

(** One leg of a trade: the loop body for [(acct, side)]. *)
Definition process_leg (sh : RiskShard) (mark_prices : gmap Z Z) (acct symbol : Z) (side : Side)
    (price qty : Z) : Exec (RiskShard * list InboundCommand) :=
  if negb (owns sh acct) then Val (sh, [])
  else
    let pos := default Position_default (positions sh !! (acct, symbol)) in
    let! pos := apply_fill side price qty pos in
    let sh := sh_set_positions (<[(acct, symbol) := pos]> (positions sh)) sh in
    let! '(bal, used) := recompute_margin sh acct mark_prices in
    let! state := expect (table_get (rs_states sh) acct) in
    let! s := read state in
    let breach := bal <? used in
    let state := update (mkSnap bal used (frozen s || breach) (halted s) (position s)
                           (open_order_count s)) state in
    let sh := sh_set_states (table_put (rs_states sh) acct state) sh in
    Val (sh, if breach then [Inbound_Liquidate symbol acct] else []).

Definition process_event (sh : RiskShard) (event : EngineEvent) (mark_prices : gmap Z Z) :
    Exec (RiskShard * list InboundCommand) :=
  match event with
  | Trade _ _ symbol price qty _ _ _ _ maker_acct taker_acct maker_side _ _ =>
      let! '(sh, cmds1) := process_leg sh mark_prices maker_acct symbol maker_side price qty in
      let! '(sh, cmds2) :=
        process_leg sh mark_prices taker_acct symbol (opposite maker_side) price qty in
      Val (sh, cmds1 ++ cmds2)
  | OrderCancelled _ _ _ _ | OrderRejected _ _ _ _ _ => Val (sh, [])
  | SnapshotMarker _ => Val (sh, [])
  | _ => Val (sh, [])
  end.
End Shard.

(** ** Positions: exact arithmetic *)

(** Quantities and prices for which no i64 or i128 operation of a fill wraps. *)
Definition fill_ok (p : Position) (price qty : Z) : Prop :=
  0 < qty /\ Z.abs (net_qty p) + qty < two63
  /\ 0 <= price < two63 /\ 0 <= avg_entry_price p < two63 /\ in_i64 (realised_pnl p).

(** The fill in unbounded integers. *)
Definition signed (side : Side) (qty : Z) : Z := match side with Buy => qty | Sell => - qty end.

Definition pos_ok (p : Position) : Prop :=
  (net_qty p = 0 -> avg_entry_price p = 0) /\ 0 <= avg_entry_price p.

Lemma wrap_i128_id z : in_i128 z -> wrap_i128 z = z.
Proof. unfold wrap_i128, in_i128. intros ?. rewrite Z.mod_small; unfold two127, two128 in *; lia. Qed.

Lemma signed_fill_ok side qty : 0 < qty < two63 -> signed_fill side qty = signed side qty.
Proof.
  intros ?. destruct side; simpl; rewrite !wrap_i64_id; try done; unfold in_i64; try lia;
    rewrite ?wrap_i64_id; unfold in_i64; lia.
Qed.

Lemma abs_i64_ok z : Z.abs z < two63 -> abs_i64 z = Z.abs z.
Proof. intros ?. apply wrap_i64_id. unfold in_i64. lia. Qed.

Lemma quot_between a b c x y :
  0 < x -> 0 < y -> 0 <= a -> 0 <= b -> c = Z.quot (a * x + b * y) (x + y) ->
  Z.min a b <= c <= Z.max a b.
Proof.
  intros Hx Hy Ha Hb ->. rewrite Z.quot_div_nonneg by nia.
  split; [apply Z.div_le_lower_bound|apply Z.div_le_upper_bound]; nia.
Qed.

Lemma pnl_range d g q n :
  - two63 < d < two63 -> g = 1 \/ g = -1 -> 0 < q < two63 -> 0 <= n < two63 ->
  in_i128 (d * g * Z.min q n).
Proof.
  intros Hd Hg Hq Hn. assert (Hm : 0 <= Z.min q n < two63) by lia.
  revert Hm. generalize (Z.min q n) as c. intros c Hc. unfold in_i128, two127, two63 in *.
  destruct Hg as [-> | ->]; nia.
Qed.

Lemma clamp_id z : in_i64 z -> clamp_i64 z = z.
Proof. ilia. Qed.

(** The value of [apply_fill] on each of its branches. *)
Lemma apply_fill_ok side price qty p :
  fill_ok p price qty ->
  exists p', apply_fill side price qty p = Val p'
    /\ net_qty p' = net_qty p + signed side qty
    /\ (net_qty p = 0 -> avg_entry_price p' = price /\ realised_pnl p' = realised_pnl p)
    /\ (0 < net_qty p * signed side qty ->
        avg_entry_price p' = Z.quot (avg_entry_price p * Z.abs (net_qty p) + price * qty)
                               (Z.abs (net_qty p) + qty)
        /\ realised_pnl p' = realised_pnl p)
    /\ (net_qty p * signed side qty < 0 ->
        realised_pnl p' = clamp_i64 (realised_pnl p +
          wrap_i64 (Z.quot ((price - avg_entry_price p) * Z.sgn (net_qty p)
                            * Z.min qty (Z.abs (net_qty p))) 100000000))
        /\ avg_entry_price p' =
             if Z.abs (net_qty p) =? qty then 0
             else if Z.abs (net_qty p) <? qty then price else avg_entry_price p).
Proof.
  destruct p as [n avg r]. intros (Hq & Hn & Hp & Ha & Hr). simpl in *.
  unfold apply_fill. cbn [net_qty avg_entry_price realised_pnl].
  rewrite signed_fill_ok by lia. set (sg := signed side qty).
  assert (Hsg : Z.abs sg = qty) by (unfold sg, signed; destruct side; lia).
  rewrite (wrap_i64_id (n + sg)) by (unfold in_i64; lia).
  destruct (Z.eqb_spec n 0) as [->|Hn0].
  { eexists. split; [done|]. simpl. split_and!; try done; try lia; nia. }
  destruct (Bool.eqb (0 <? n) (0 <? sg)) eqn:Hdir.
  - apply eqb_prop in Hdir. assert (Hab : Z.abs (n + sg) = Z.abs n + qty) by lia.
    assert (Hs : 0 < n * sg) by (destruct (Z.ltb_spec 0 n), (Z.ltb_spec 0 sg); try done; nia).
    rewrite !abs_i64_ok by lia. rewrite Hab.
    assert (Hb : 0 <= avg * Z.abs n + price * qty < two63 * two63) by (unfold two63 in *; nia).
    rewrite (wrap_i128_id (avg * Z.abs n)) by (unfold in_i128, two127, two63 in *; nia).
    rewrite (wrap_i128_id (price * qty)) by (unfold in_i128, two127, two63 in *; nia).
    rewrite wrap_i128_id by (unfold in_i128, two127, two63 in *; nia).
    unfold div_i128. rewrite (proj2 (Z.eqb_neq _ 0)) by lia. simpl.
    pose proof (quot_between avg price (Z.quot (avg * Z.abs n + price * qty) (Z.abs n + qty))
      (Z.abs n) qty ltac:(lia) ltac:(lia) ltac:(lia) ltac:(lia) eq_refl) as Hqb.
    rewrite wrap_i64_id by (unfold in_i64; lia).
    eexists. split; [done|]. simpl. split_and!; try done; lia.
  - apply eqb_false_iff in Hdir.
    assert (Hs : n * sg < 0) by (destruct (Z.ltb_spec 0 n), (Z.ltb_spec 0 sg); try done; nia).
    eexists. split; [done|]. simpl. split_and!; try done; try lia; try nia.
    intros _. rewrite !abs_i64_ok by lia. rewrite Hsg.
    rewrite (wrap_i64_id (price - avg)) by (unfold in_i64; lia).
    assert (Hsgn : (if 0 <? n then 1 else -1) = Z.sgn n) by (destruct (Z.ltb_spec 0 n); lia).
    assert (Hs1 : Z.sgn n = 1 \/ Z.sgn n = -1) by lia.
    rewrite Hsgn, (wrap_i64_id ((price - avg) * Z.sgn n)) by (unfold in_i64; destruct Hs1 as [-> | ->]; lia).
    rewrite wrap_i128_id by (apply pnl_range; lia).
    split; [done|].
    destruct (Z.eqb_spec (n + sg) 0), (Z.eqb_spec (Z.abs n) qty); try done; try lia.
    destruct (Bool.eqb (0 <? n + sg) (0 <? n)) eqn:E; simpl;
      [apply eqb_prop in E|apply eqb_false_iff in E];
      destruct (Z.ltb_spec 0 (n + sg)), (Z.ltb_spec 0 n), (Z.ltb_spec (Z.abs n) qty);
      try done; lia.
Qed.

Lemma clamp_range z : in_i64 (clamp_i64 z).
Proof. ilia. Qed.

(** A fill keeps the position in range; a flat position has no entry price. *)
Lemma apply_fill_range side price qty p p' :
  fill_ok p price qty -> apply_fill side price qty p = Val p' ->
  pos_ok p' /\ in_i64 (realised_pnl p')
  /\ 0 <= avg_entry_price p' <= Z.max (avg_entry_price p) price
  /\ (0 < net_qty p * signed side qty -> Z.min (avg_entry_price p) price <= avg_entry_price p').
Proof.
  intros Hf Hp'. destruct (apply_fill_ok side price qty p Hf) as (p2 & Hap & Hn & H0 & Hs & Ho).
  rewrite Hp' in Hap. injection Hap as <-. destruct Hf as (Hq & Hb & Hp & Ha & Hr).
  assert (Hsg : signed side qty = qty \/ signed side qty = - qty) by (destruct side; simpl; lia).
  assert (Hcase : net_qty p = 0 \/ 0 < net_qty p * signed side qty \/ net_qty p * signed side qty < 0)
    by (destruct Hsg as [-> | ->]; nia).
  unfold pos_ok. destruct Hcase as [Hc|[Hc|Hc]].
  - destruct (H0 Hc) as [-> ->]. split_and!; try done; lia.
  - destruct (Hs Hc) as [-> ->].
    pose proof (quot_between (avg_entry_price p) price _ (Z.abs (net_qty p)) qty
      ltac:(nia) ltac:(lia) ltac:(lia) ltac:(lia) eq_refl).
    split_and!; try done; try lia; destruct Hsg as [E|E]; rewrite E in *; nia.
  - destruct (Ho Hc) as [-> ->].
    split_and!; [|..|apply clamp_range| | |lia]; try (repeat case_match; lia).
Qed.

Lemma apply_fill_inv side price qty p :
  fill_ok p price qty -> pos_ok p ->
  exists p', apply_fill side price qty p = Val p' /\ pos_ok p'
    /\ net_qty p' = net_qty p + signed side qty
    /\ in_i64 (realised_pnl p')
    /\ 0 <= avg_entry_price p' <= Z.max (avg_entry_price p) price
    /\ (0 < net_qty p * signed side qty -> Z.min (avg_entry_price p) price <= avg_entry_price p').
Proof.
  intros Hf _. destruct (apply_fill_ok side price qty p Hf) as (p' & Hap & Hn & _).
  destruct (apply_fill_range side price qty p p' Hf Hap) as (? & ? & ? & ?). by exists p'.
Qed.

(** The same fill can follow itself when the net quantity has room for both. *)
Lemma fill_ok_again side price qty p p' :
  fill_ok p price qty -> Z.abs (net_qty p) + 2 * qty < two63 ->
  apply_fill side price qty p = Val p' -> fill_ok p' price qty.
Proof.
  intros Hf H2 Hap. destruct (apply_fill_range side price qty p p' Hf Hap) as (_ & ? & ? & _).
  destruct (apply_fill_ok side price qty p Hf) as (p2 & Hap2 & Hn & _).
  rewrite Hap in Hap2. injection Hap2 as <-. destruct Hf as (? & ? & ? & ? & ?).
  assert (Z.abs (signed side qty) = qty) by (destruct side; simpl; lia).
  unfold fill_ok. split_and!; try done; lia.
Qed.

(** ** Runs of fills *)

Fixpoint apply_fills (fills : list (Side * Z * Z)) (p : Position) : Exec Position :=
  match fills with
  | [] => Val p
  | (side, price, qty) :: fs => let! p := apply_fill side price qty p in apply_fills fs p
  end.

Definition fill_in_range (f : Side * Z * Z) : Prop :=
  let '(_, price, qty) := f in 0 <= price < two63 /\ 0 < qty.
Definition fill_qty (f : Side * Z * Z) : Z := f.2.
Definition fill_signed (f : Side * Z * Z) : Z := signed f.1.1 f.2.

Lemma apply_fills_ok fills p :
  pos_ok p -> in_i64 (realised_pnl p) -> avg_entry_price p < two63 ->
  Forall fill_in_range fills -> Z.abs (net_qty p) + sumZ (map fill_qty fills) < two63 ->
  exists p', apply_fills fills p = Val p' /\ pos_ok p'
    /\ net_qty p' = net_qty p + sumZ (map fill_signed fills).
Proof.
  revert p. induction fills as [|[[side price] qty] fs IH]; intros p Hok Hr Ha Hf Hb; simpl in *.
  - exists p. split_and!; try done. lia.
  - apply Forall_cons in Hf as [[Hp Hq] Hf].
    assert (Hnn : 0 <= sumZ (map fill_qty fs)).
    { apply sumZ_nonneg. apply Forall_map. eapply Forall_impl; [exact Hf|].
      intros [[? ?] ?]. unfold fill_in_range, fill_qty. simpl. lia. }
    change (fill_qty (side, price, qty)) with qty in Hb.
    assert (Hfo : fill_ok p price qty).
    { destruct Hok as [_ ?]. split_and!; try done; lia. }
    destruct (apply_fill_inv side price qty p Hfo Hok) as (p1 & Hap & Hok1 & Hn1 & Hr1 & Ha1 & _).
    rewrite Hap. simpl.
    assert (Hsg : Z.abs (signed side qty) = qty) by (destruct side; simpl; lia).
    destruct (IH p1 Hok1 Hr1) as (p' & Hap' & Hok' & Hn'); [lia|done|lia|].
    exists p'. split_and!; try done. rewrite Hn', Hn1. unfold fill_signed. simpl. lia.
Qed.

(** ** Margin *)

Section Margin.
Context (l : RiskLimits) (mark_prices : gmap Z Z) (account : Z).

(** What an entry adds to the balance and to the used margin. *)
Definition entry_equity (e : (Z * Z) * Position) : Z :=
  if e.1.1 =? account then
    realised_pnl e.2 + unrealised_pnl (position_mark mark_prices e.1.2 e.2) e.2
  else 0.
Definition entry_margin (e : (Z * Z) * Position) : Z :=
  if e.1.1 =? account then
    if net_qty e.2 =? 0 then 0
    else Z.quot (saturating_mul_i64 (notional (position_mark mark_prices e.1.2 e.2) e.2)
                   (maintenance_margin_fraction l)) 1000000
  else 0.
(** A bound on the size of everything the entry contributes. *)
Definition entry_size (e : (Z * Z) * Position) : Z :=
  if e.1.1 =? account then
    Z.abs (realised_pnl e.2) + Z.abs (unrealised_pnl (position_mark mark_prices e.1.2 e.2) e.2)
    + Z.abs (entry_margin e)
  else 0.

Lemma entry_size_nonneg e : 0 <= entry_size e.
Proof. unfold entry_size. case_match; lia. Qed.

Lemma margin_step_exact bal used e :
  Z.abs bal + entry_size e < two63 -> Z.abs used + entry_size e < two63 ->
  margin_step l mark_prices account (bal, used) e = (bal + entry_equity e, used + entry_margin e)
  /\ Z.abs (bal + entry_equity e) <= Z.abs bal + entry_size e
  /\ Z.abs (used + entry_margin e) <= Z.abs used + entry_size e.
Proof.
  destruct e as [[acct symbol] pos]. unfold margin_step, entry_equity, entry_size, entry_margin. simpl.
  destruct (acct =? account); simpl; [|intros; split_and!; [f_equal|..]; lia].
  set (mark := position_mark mark_prices symbol pos). unfold saturating_add_i64.
  destruct (net_qty pos =? 0) eqn:Hz; simpl.
  - assert (Hu : unrealised_pnl mark pos = 0) by (unfold unrealised_pnl; by rewrite Hz).
    rewrite Hu. intros Hb Hm. rewrite clamp_id by (unfold in_i64; lia). split_and!; [f_equal|..]; lia.
  - set (mr := Z.quot _ _) in *. intros Hb Hm.
    rewrite (clamp_id (bal + realised_pnl pos)) by (unfold in_i64; lia).
    rewrite !clamp_id by (unfold in_i64; lia). split_and!; [f_equal|..]; lia.
Qed.

Lemma margin_fold_exact es bal used :
  Z.abs bal + sumZ (map entry_size es) < two63 ->
  Z.abs used + sumZ (map entry_size es) < two63 ->
  foldl (margin_step l mark_prices account) (bal, used) es
    = (bal + sumZ (map entry_equity es), used + sumZ (map entry_margin es)).
Proof.
  revert bal used. induction es as [|e es IH]; intros bal used Hb Hu; cbn [foldl map sumZ] in *;
    [f_equal; lia|].
  assert (Hnn : 0 <= sumZ (map entry_size es)).
  { apply sumZ_nonneg, Forall_map, Forall_true. intros. apply entry_size_nonneg. }
  destruct (margin_step_exact bal used e ltac:(lia) ltac:(lia)) as (-> & H1 & H2).
  rewrite IH by lia. f_equal; lia.
Qed.
End Margin.

Lemma sumZ_perm (xs ys : list Z) : xs ≡ₚ ys -> sumZ xs = sumZ ys.
Proof. induction 1; simpl; lia. Qed.

(** ** The shard *)

Definition shard_ok (sh : RiskShard) : Prop :=
  0 <= owned_start sh <= owned_end sh /\ owned_end sh < two64
  /\ Z.of_nat (length (initial_deposits sh)) = owned_end sh - owned_start sh
  /\ table_ok (rs_states sh) /\ owned_end sh <= Z.of_nat (table_capacity (rs_states sh)).

Definition pos_of (sh : RiskShard) (account symbol : Z) : Position :=
  default Position_default (positions sh !! (account, symbol)).

(** The published snapshot of an account. *)
Definition cell_of (sh : RiskShard) (account : Z) : option AccountRiskSnapshot :=
  data <$> table_get (rs_states sh) account.

Lemma shard_new_ok s e cfg table :
  0 <= s <= e -> e < two64 -> table_ok table -> e <= Z.of_nat (table_capacity table) ->
  shard_ok (RiskShard_new s e cfg table).
Proof.
  intros. unfold shard_ok. simpl. rewrite length_replicate, wrap_u64_id by (unfold in_u64; lia).
  split_and!; try done; lia.
Qed.

Lemma owned_index sh acct :
  shard_ok sh -> owns sh acct = true ->
  (local_idx sh acct < length (initial_deposits sh))%nat
  /\ (Z.to_nat acct < table_capacity (rs_states sh))%nat /\ 0 <= acct.
Proof.
  unfold owns. intros (Hr & He & Hl & _ & Hc) Ho. unfold local_idx.
  rewrite wrap_u64_id by (unfold in_u64; lia). lia.
Qed.

Section ShardFacts.
Context (hm_iter : gmap (Z * Z) Position -> list ((Z * Z) * Position)).
Hypothesis hm_iter_perm : forall m, hm_iter m ≡ₚ map_to_list m.

Lemma recompute_margin_returns sh acct marks :
  shard_ok sh -> owns sh acct = true -> exists r, recompute_margin hm_iter sh acct marks = Val r.
Proof.
  intros Hok Ho. destruct (owned_index sh acct Hok Ho) as [Hi _]. unfold recompute_margin.
  destruct (lookup_lt_is_Some_2 (initial_deposits sh) _ Hi) as [d Hd].
  rewrite (index_list_lt _ _ _ Hd). simpl. eauto.
Qed.

(** What one leg of a trade does to the shard. *)
Record leg_effect (sh sh' : RiskShard) (acct symbol : Z) (side : Side) (qty : Z)
    (cmds : list InboundCommand) : Prop := {
  le_ok : shard_ok sh';
  le_range : owned_start sh' = owned_start sh /\ owned_end sh' = owned_end sh;
  le_net : net_qty (pos_of sh' acct symbol) = net_qty (pos_of sh acct symbol) + signed side qty;
  le_pos : pos_ok (pos_of sh acct symbol) -> pos_ok (pos_of sh' acct symbol);
  le_other a s : (a, s) <> (acct, symbol) -> positions sh' !! (a, s) = positions sh !! (a, s);
  le_cells a : 0 <= a -> a <> acct -> cell_of sh' a = cell_of sh a;
  le_cell : exists old new, cell_of sh acct = Some old /\ cell_of sh' acct = Some new
    /\ frozen new = frozen old || (balance new <? used_margin new)
    /\ halted new = halted old /\ position new = position old
    /\ open_order_count new = open_order_count old
    /\ cmds = if balance new <? used_margin new then [Inbound_Liquidate symbol acct] else []
}.

Lemma process_leg_full sh marks acct symbol side price qty :
  shard_ok sh -> owns sh acct = true -> fill_ok (pos_of sh acct symbol) price qty ->
  exists sh' cmds, process_leg hm_iter sh marks acct symbol side price qty = Val (sh', cmds)
    /\ leg_effect sh sh' acct symbol side qty cmds
    /\ apply_fill side price qty (pos_of sh acct symbol) = Val (pos_of sh' acct symbol)
    /\ initial_deposits sh' = initial_deposits sh /\ config sh' = config sh
    /\ forall new, cell_of sh' acct = Some new ->
         recompute_margin hm_iter sh' acct marks = Val (balance new, used_margin new).
Proof.
  intros Hok Ho Hf. destruct (owned_index sh acct Hok Ho) as (Hi & Hcap & Hnn).
  unfold process_leg. rewrite Ho. simpl. fold (pos_of sh acct symbol).
  destruct (apply_fill_ok side price qty _ Hf) as (p' & Hap & Hn & _). rewrite Hap. simpl.
  set (sh1 := sh_set_positions _ sh).
  assert (Hok1 : shard_ok sh1) by done.
  destruct (recompute_margin_returns sh1 acct marks Hok1 Ho) as [[bal used] Hrec].
  rewrite Hrec. simpl.
  destruct (lookup_lt_is_Some_2 (states (rs_states sh)) (Z.to_nat acct) Hcap) as [st Hst].
  fold (table_get (rs_states sh) acct) in Hst.
  destruct Hok as (? & ? & ? & Htab & ?).
  assert (Hq : quiescent st) by (by eapply table_get_ok).
  change (rs_states sh1) with (rs_states sh). rewrite Hst. simpl. rewrite (read_ok st Hq). simpl.
  eexists _, _. split; [done|].
  set (st' := update _ st).
  assert (Hget : forall a, 0 <= a -> table_get (table_put (rs_states sh) acct st') a
    = if decide (acct = a) then Some st' else table_get (rs_states sh) a).
  { intros a Ha. apply table_get_put; [done|done|]. by rewrite Hst. }
  split_and!; [|unfold pos_of; simpl; by rewrite lookup_insert_eq|done|done|].
  2:{ intros new Hnew. unfold cell_of in Hnew. simpl in Hnew. rewrite Hget, decide_True in Hnew by done.
      injection Hnew as <-. exact Hrec. }
  split.
  - unfold shard_ok. simpl. split_and!; try done; try lia.
    + apply table_put_ok; [done|]. by apply quiescent_update.
    + unfold table_capacity in *. simpl. by rewrite length_insert.
  - done.
  - unfold pos_of at 1. simpl. rewrite lookup_insert_eq. done.
  - intros Hp. unfold pos_of at 1. simpl. rewrite lookup_insert_eq. simpl.
    destruct (apply_fill_inv side price qty _ Hf Hp) as (p2 & Hap2 & ? & _). congruence.
  - intros a s Hne. simpl. by rewrite lookup_insert_ne by congruence.
  - intros a Ha Hne. unfold cell_of. simpl. rewrite Hget by done. by rewrite decide_False by congruence.
  - exists (data st), (data st'). unfold cell_of. simpl. rewrite Hget, Hst, decide_True by done.
    by split_and!.
Qed.

Lemma process_leg_ok sh marks acct symbol side price qty :
  shard_ok sh -> owns sh acct = true -> fill_ok (pos_of sh acct symbol) price qty ->
  exists sh' cmds, process_leg hm_iter sh marks acct symbol side price qty = Val (sh', cmds)
    /\ leg_effect sh sh' acct symbol side qty cmds.
Proof.
  intros Hok Ho Hf.
  destruct (process_leg_full sh marks acct symbol side price qty Hok Ho Hf) as (sh' & cmds & ? & ? & _).
  by exists sh', cmds.
Qed.

Lemma process_leg_skip sh marks acct symbol side price qty :
  owns sh acct = false -> process_leg hm_iter sh marks acct symbol side price qty = Val (sh, []).
Proof. intros Ho. unfold process_leg. by rewrite Ho. Qed.

(** ** Theorems *)

(** C13. Positions. A fill whose price and quantities are in range ([fill_ok])
    returns, and moves the net quantity by exactly the signed fill. It opens
    a flat position at the fill price; it adds to a position at the
    quantity-weighted average price, which lies between the old average and
    the fill price, without touching the realised profit. When it goes
    against the position it realises the profit of the quantity it closes,
    [(price - entry) * direction * closed / 1e8] rounded to zero, exactly
    when that profit and the new total fit in an i64; beyond it the code's
    [as i64] truncates the profit to 64 bits and the total saturates. A
    partial close keeps the entry price, a full close resets it, and a flip
    takes the fill price. *)
Theorem position_fill_sound side price qty p :
  fill_ok p price qty ->
  exists p', apply_fill side price qty p = Val p' /\ pos_ok p'
    /\ net_qty p' = net_qty p + signed side qty
    /\ (net_qty p = 0 -> avg_entry_price p' = price /\ realised_pnl p' = realised_pnl p)
    /\ (0 < net_qty p * signed side qty ->
        avg_entry_price p' = Z.quot (avg_entry_price p * Z.abs (net_qty p) + price * qty)
                               (Z.abs (net_qty p) + qty)
        /\ Z.min (avg_entry_price p) price <= avg_entry_price p' <= Z.max (avg_entry_price p) price
        /\ realised_pnl p' = realised_pnl p)
    /\ (net_qty p * signed side qty < 0 ->
        let profit := Z.quot ((price - avg_entry_price p) * Z.sgn (net_qty p)
                              * Z.min qty (Z.abs (net_qty p))) 100000000 in
        realised_pnl p' = clamp_i64 (realised_pnl p + wrap_i64 profit)
        /\ (in_i64 profit -> in_i64 (realised_pnl p + profit) ->
            realised_pnl p' = realised_pnl p + profit)
        /\ avg_entry_price p' =
             if Z.abs (net_qty p) =? qty then 0
             else if Z.abs (net_qty p) <? qty then price else avg_entry_price p).
Proof.
  intros Hf. destruct (apply_fill_ok side price qty p Hf) as (p' & Hap & Hn & H0 & Hs & Ho).
  destruct (apply_fill_range side price qty p p' Hf Hap) as (Hok & _ & Hav & Hmin).
  exists p'. split_and!; try done.
  - intros H. destruct (Hs H) as [Ha Hr]. specialize (Hmin H). split_and!; [done|lia|lia|done].
  - intros H profit. destruct (Ho H) as [Hr Ha]. fold profit in Hr. split_and!; try done.
    intros H1 H2. by rewrite Hr, wrap_i64_id, clamp_id.
Qed.

(** The truncation: a long of 1e15 bought at 0 and sold at 1e12, all in range,
    realises 1e19 quote ticks and books a loss. *)
Lemma position_profit_truncated :
  fill_ok (mkPosition 1000000000000000 0 0) 1000000000000 1000000000000000
  /\ (realised_pnl <$> match apply_fill Sell 1000000000000 1000000000000000
                              (mkPosition 1000000000000000 0 0) with Val p => Some p | _ => None end)
     = Some (-8446744073709551616).
Proof. split; [unfold fill_ok, in_i64, two63; simpl; lia|vm_compute; reflexivity]. Qed.

(** A run of fills from a flat position, whose quantities add up to less
    than 2^63, never panics or wraps, and ends with the net quantity equal to
    the sum of the signed fills. *)
Theorem position_net_is_sum fills :
  Forall fill_in_range fills -> sumZ (map fill_qty fills) < two63 ->
  exists p, apply_fills fills Position_default = Val p
    /\ net_qty p = sumZ (map fill_signed fills) /\ pos_ok p.
Proof.
  intros Hf Hb.
  destruct (apply_fills_ok fills Position_default) as (p & ? & ? & Hn); try done.
  exists p. split_and!; try done.
Qed.

(** A trade on the shard: for a trade between two owned accounts the
    handler returns, the two net positions move by opposite amounts (their sum
    is unchanged), no other position and no other account's cell changes, and
    the shard stays well formed. *)
Theorem risk_trade_zero_sum sh marks seq ts symbol price qty mo tor moid toid maker taker mside mrem trem :
  shard_ok sh -> owns sh maker = true -> owns sh taker = true -> maker <> taker ->
  fill_ok (pos_of sh maker symbol) price qty -> fill_ok (pos_of sh taker symbol) price qty ->
  exists sh' cmds,
    process_event hm_iter sh
      (Trade seq ts symbol price qty mo tor moid toid maker taker mside mrem trem) marks
      = Val (sh', cmds)
    /\ shard_ok sh'
    /\ net_qty (pos_of sh' maker symbol) = net_qty (pos_of sh maker symbol) + signed mside qty
    /\ net_qty (pos_of sh' maker symbol) + net_qty (pos_of sh' taker symbol)
       = net_qty (pos_of sh maker symbol) + net_qty (pos_of sh taker symbol)
    /\ (forall a s, (a, s) <> (maker, symbol) -> (a, s) <> (taker, symbol) ->
          positions sh' !! (a, s) = positions sh !! (a, s))
    /\ (forall a, 0 <= a -> a <> maker -> a <> taker -> cell_of sh' a = cell_of sh a).
Proof.
  intros Hok Hm Ht Hne Hfm Hft. simpl.
  destruct (process_leg_ok sh marks maker symbol mside price qty Hok Hm Hfm) as (sh1 & c1 & -> & E1).
  simpl. destruct (le_range _ _ _ _ _ _ _ E1) as [Hs1 He1].
  assert (Ht1 : owns sh1 taker = true) by (unfold owns in *; by rewrite Hs1, He1).
  assert (Hpt : pos_of sh1 taker symbol = pos_of sh taker symbol)
    by (unfold pos_of; rewrite (le_other _ _ _ _ _ _ _ E1); congruence).
  rewrite <- Hpt in Hft.
  destruct (process_leg_ok sh1 marks taker symbol (opposite mside) price qty (le_ok _ _ _ _ _ _ _ E1) Ht1 Hft)
    as (sh2 & c2 & -> & E2). simpl.
  assert (Hpm : pos_of sh2 maker symbol = pos_of sh1 maker symbol)
    by (unfold pos_of; rewrite (le_other _ _ _ _ _ _ _ E2); congruence).
  pose proof (le_net _ _ _ _ _ _ _ E1) as N1. pose proof (le_net _ _ _ _ _ _ _ E2) as N2.
  eexists _, _. split; [done|]. split_and!.
  - apply (le_ok _ _ _ _ _ _ _ E2).
  - by rewrite Hpm.
  - rewrite Hpm, N1, N2, Hpt. destruct mside; simpl; lia.
  - intros a s H1 H2. by rewrite (le_other _ _ _ _ _ _ _ E2), (le_other _ _ _ _ _ _ _ E1).
  - intros a Ha H1 H2. by rewrite (le_cells _ _ _ _ _ _ _ E2), (le_cells _ _ _ _ _ _ _ E1).
Qed.

(** *** The legs of a trade, together

    What a trade publishes: the accounts of its legs that the shard owns, in
    the order maker, taker, each with the snapshot written to its cell. *)
Definition breached (pub : Z * AccountRiskSnapshot) : bool := balance pub.2 <? used_margin pub.2.
Definition liquidation (symbol : Z) (pub : Z * AccountRiskSnapshot) : list InboundCommand :=
  if breached pub then [Inbound_Liquidate symbol pub.1] else [].
Definition pubs_of (a : Z) (pubs : list (Z * AccountRiskSnapshot)) : list (Z * AccountRiskSnapshot) :=
  List.filter (fun pub => pub.1 =? a) pubs.

(** The fills the legs of a trade bring to account [a] in symbol [s]. *)
Definition leg_fills (sh : RiskShard) (legs : list (Z * Side)) (symbol price qty a s : Z) :
    list (Side * Z * Z) :=
  map (fun leg => (leg.2, price, qty))
    (List.filter (fun leg => owns sh leg.1 && (leg.1 =? a) && (symbol =? s)) legs).

(** The cell of [a] after the legs: untouched without a publication; else the
    last one published, with the margin of the account's new positions, frozen
    exactly if it was frozen or one of the publications is a breach. *)
Definition cell_effect (marks : gmap Z Z) (sh sh' : RiskShard) (pubs : list (Z * AccountRiskSnapshot))
    (a : Z) : Prop :=
  match last (pubs_of a pubs) with
  | None => cell_of sh' a = cell_of sh a
  | Some (_, new) =>
      exists old m, cell_of sh a = Some old /\ cell_of sh' a = Some new
        /\ frozen new = frozen old || existsb breached (pubs_of a pubs)
        /\ halted new = halted old /\ position new = position old
        /\ open_order_count new = open_order_count old
        /\ (forall s, m !! (a, s) = positions sh' !! (a, s))
        /\ recompute_margin hm_iter (sh_set_positions m sh') a marks
           = Val (balance new, used_margin new)
  end.

Record legs_effect (marks : gmap Z Z) (sh sh' : RiskShard) (legs : list (Z * Side))
    (symbol price qty : Z) (cmds : list InboundCommand) (pubs : list (Z * AccountRiskSnapshot)) :
    Prop := {
  ls_ok : shard_ok sh';
  ls_static : (owned_start sh', owned_end sh', initial_deposits sh', config sh')
              = (owned_start sh, owned_end sh, initial_deposits sh, config sh);
  ls_pubs : map fst pubs = List.filter (owns sh) (map fst legs);
  ls_cmds : cmds = concat (map (liquidation symbol) pubs);
  ls_fills a s : apply_fills (leg_fills sh legs symbol price qty a s) (pos_of sh a s)
                 = Val (pos_of sh' a s);
  ls_same a s : leg_fills sh legs symbol price qty a s = [] ->
                positions sh' !! (a, s) = positions sh !! (a, s);
  ls_cell a : 0 <= a -> cell_effect marks sh sh' pubs a
}.

Lemma leg_skip_effect marks sh acct side symbol price qty :
  shard_ok sh -> owns sh acct = false ->
  legs_effect marks sh sh [(acct, side)] symbol price qty [] [].
Proof.
  intros Hok Ho. split; try done; unfold leg_fills; simpl; by rewrite Ho.
Qed.

Lemma leg_own_effect marks sh acct side symbol price qty :
  shard_ok sh -> owns sh acct = true -> fill_ok (pos_of sh acct symbol) price qty ->
  exists sh' cmds pubs, process_leg hm_iter sh marks acct symbol side price qty = Val (sh', cmds)
    /\ legs_effect marks sh sh' [(acct, side)] symbol price qty cmds pubs.
Proof.
  intros Hok Ho Hf.
  destruct (process_leg_full sh marks acct symbol side price qty Hok Ho Hf)
    as (sh' & cmds & Hrun & E & Hap & Hd & Hc & Hm).
  destruct (le_cell _ _ _ _ _ _ _ E) as (old & new & Hold & Hnew & Hfr & Hh & Hp & Ho' & Hcmds).
  destruct (le_range _ _ _ _ _ _ _ E) as [Hs He].
  exists sh', cmds, [(acct, new)]. split; [done|]. split.
  - apply (le_ok _ _ _ _ _ _ _ E).
  - congruence.
  - simpl. by rewrite Ho.
  - unfold liquidation, breached. simpl. rewrite app_nil_r. exact Hcmds.
  - intros a s. unfold leg_fills. simpl. rewrite Ho.
    destruct (Z.eqb_spec acct a) as [<-|]; destruct (Z.eqb_spec symbol s) as [<-|]; simpl;
      [by rewrite Hap|..]; unfold pos_of; by rewrite (le_other _ _ _ _ _ _ _ E) by congruence.
  - intros a s. unfold leg_fills. simpl. rewrite Ho. intros Hn. apply (le_other _ _ _ _ _ _ _ E).
    intros [= -> ->]. by rewrite !Z.eqb_refl in Hn.
  - intros a Ha. unfold cell_effect, pubs_of. simpl. destruct (Z.eqb_spec acct a) as [<-|Hne]; simpl.
    + exists old, (positions sh'). unfold breached. simpl. rewrite orb_false_r.
      split_and!; try done. exact (Hm new Hnew).
    + by apply (le_cells _ _ _ _ _ _ _ E).
Qed.

(** One leg, owned or not. *)
Lemma leg_any_effect marks sh acct side symbol price qty :
  shard_ok sh -> (owns sh acct = true -> fill_ok (pos_of sh acct symbol) price qty) ->
  exists sh' cmds pubs, process_leg hm_iter sh marks acct symbol side price qty = Val (sh', cmds)
    /\ legs_effect marks sh sh' [(acct, side)] symbol price qty cmds pubs.
Proof.
  intros Hok Hf. destruct (owns sh acct) eqn:Ho; [by apply leg_own_effect; [..|apply Hf]|].
  exists sh, [], []. split; [by apply process_leg_skip|]. by apply leg_skip_effect.
Qed.

Lemma owns_same sh sh' a :
  owned_start sh' = owned_start sh -> owned_end sh' = owned_end sh -> owns sh' a = owns sh a.
Proof. unfold owns. by intros -> ->. Qed.

Lemma apply_fills_app f1 f2 p :
  apply_fills (f1 ++ f2) p = let! p' := apply_fills f1 p in apply_fills f2 p'.
Proof.
  revert p. induction f1 as [|[[side px] n] f1 IH]; intros p; [done|]. simpl.
  destruct (apply_fill side px n p); simpl; [apply IH|done|done].
Qed.

Lemma pubs_of_none marks sh sh' legs symbol price qty cmds pubs a s :
  legs_effect marks sh sh' legs symbol price qty cmds pubs -> last (pubs_of a pubs) = None ->
  leg_fills sh legs symbol price qty a s = [].
Proof.
  intros E Hl%last_None. unfold leg_fills. rewrite filter_none; [done|].
  intros [x sd] Hx. simpl. destruct (owns sh x) eqn:Ho; [|done].
  destruct (Z.eqb_spec x a) as [->|]; [|done]. exfalso.
  assert (Hin : In a (map fst pubs)).
  { rewrite (ls_pubs _ _ _ _ _ _ _ _ _ E). apply filter_In. split; [|done].
    apply in_map_iff. exists (a, sd). split; [done|]. by apply list_elem_of_In. }
  apply in_map_iff in Hin as ([y snap] & Hy & Hin). simpl in Hy. subst y.
  assert (Hf : In (a, snap) (pubs_of a pubs)) by (apply filter_In; split; [done|apply Z.eqb_refl]).
  by rewrite Hl in Hf.
Qed.

Lemma cell_effect_compose marks sh sh1 sh2 l1 l2 symbol price qty c1 c2 p1 p2 a :
  legs_effect marks sh sh1 l1 symbol price qty c1 p1 ->
  legs_effect marks sh1 sh2 l2 symbol price qty c2 p2 ->
  0 <= a -> cell_effect marks sh sh2 (p1 ++ p2) a.
Proof.
  intros E1 E2 Ha. pose proof (ls_cell _ _ _ _ _ _ _ _ _ E1 a Ha) as H1.
  pose proof (ls_cell _ _ _ _ _ _ _ _ _ E2 a Ha) as H2.
  pose proof (ls_static _ _ _ _ _ _ _ _ _ E2) as [= Hst Hen Hde Hcf].
  unfold cell_effect in *. unfold pubs_of at 1. rewrite List.filter_app. fold (pubs_of a p1) (pubs_of a p2).
  rewrite last_app.
  assert (Hex : existsb breached (pubs_of a (p1 ++ p2))
    = existsb breached (pubs_of a p1) || existsb breached (pubs_of a p2)).
  { unfold pubs_of. by rewrite List.filter_app, existsb_app. }
  destruct (last (pubs_of a p2)) as [[x2 new2]|] eqn:L2.
  - destruct H2 as (mid & m & Hmid & Hnew & Hf & Hh & Hp & Ho & Hm & Hr).
    destruct (last (pubs_of a p1)) as [[x1 new1]|] eqn:L1.
    + destruct H1 as (old & m1 & Hold & Hnew1 & Hf1 & Hh1 & Hp1 & Ho1 & _). simplify_eq.
      exists old, m. split_and!; try done; try congruence. rewrite Hf, Hf1, Hex. by rewrite orb_assoc.
    + exists mid, m. apply last_None in L1. rewrite Hex, L1. split_and!; try done; congruence.
  - assert (Hsame : forall s, positions sh2 !! (a, s) = positions sh1 !! (a, s)).
    { intros s. apply (ls_same _ _ _ _ _ _ _ _ _ E2). by eapply pubs_of_none. }
    apply last_None in L2. rewrite Hex, L2. simpl. rewrite orb_false_r.
    destruct (last (pubs_of a p1)) as [[x1 new1]|]; [|congruence].
    destruct H1 as (old & m & ? & ? & ? & ? & ? & ? & Hm & Hr). exists old, m.
    split_and!; try done; try congruence.
    rewrite <- Hr. unfold recompute_margin, local_idx. simpl. by rewrite Hst, Hde, Hcf.
Qed.

Lemma legs_compose marks sh sh1 sh2 l1 l2 symbol price qty c1 c2 p1 p2 :
  legs_effect marks sh sh1 l1 symbol price qty c1 p1 ->
  legs_effect marks sh1 sh2 l2 symbol price qty c2 p2 ->
  legs_effect marks sh sh2 (l1 ++ l2) symbol price qty (c1 ++ c2) (p1 ++ p2).
Proof.
  intros E1 E2. pose proof (ls_static _ _ _ _ _ _ _ _ _ E1) as Hst1.
  pose proof (ls_static _ _ _ _ _ _ _ _ _ E2) as Hst2.
  assert (Hown : forall a, owns sh1 a = owns sh a)
    by (intros a; injection Hst1; intros; by apply owns_same).
  assert (Hfills : forall a s, leg_fills sh (l1 ++ l2) symbol price qty a s
    = leg_fills sh l1 symbol price qty a s ++ leg_fills sh1 l2 symbol price qty a s).
  { intros a s. unfold leg_fills. rewrite List.filter_app, map_app. do 2 f_equal.
    apply List.filter_ext. intros leg. by rewrite Hown. }
  split.
  - apply (ls_ok _ _ _ _ _ _ _ _ _ E2).
  - congruence.
  - rewrite !map_app, List.filter_app, (ls_pubs _ _ _ _ _ _ _ _ _ E1), (ls_pubs _ _ _ _ _ _ _ _ _ E2).
    f_equal. apply List.filter_ext, Hown.
  - rewrite map_app, concat_app. f_equal; by eapply ls_cmds.
  - intros a s. rewrite Hfills, apply_fills_app, (ls_fills _ _ _ _ _ _ _ _ _ E1). simpl.
    apply (ls_fills _ _ _ _ _ _ _ _ _ E2).
  - intros a s Hn. rewrite Hfills in Hn. apply app_eq_nil in Hn as [Hn1 Hn2].
    by rewrite (ls_same _ _ _ _ _ _ _ _ _ E2), (ls_same _ _ _ _ _ _ _ _ _ E1).
  - intros a Ha. by eapply cell_effect_compose.
Qed.


(** Margin: when the account's deposit, profits and margins together stay
    below 2^63, [recompute_margin] returns exactly the deposit plus the realised
    and unrealised profit of the account's positions, and the sum of their
    maintenance margins, whatever order the hash map is iterated in. *)
Theorem risk_margin_exact sh acct marks deposit :
  shard_ok sh -> owns sh acct = true ->
  initial_deposits sh !! local_idx sh acct = Some deposit ->
  let es := map_to_list (positions sh) in
  let l := limits (config sh) in
  Z.abs deposit + sumZ (map (entry_size l marks acct) es) < two63 ->
  recompute_margin hm_iter sh acct marks
    = Val (deposit + sumZ (map (entry_equity marks acct) es), sumZ (map (entry_margin l marks acct) es)).
Proof.
  intros Hok Ho Hd es l Hb. unfold recompute_margin. rewrite (index_list_lt _ _ _ Hd). simpl.
  assert (Hp : forall f, sumZ (map f (hm_iter (positions sh))) = sumZ (map f es)).
  { intros f. apply sumZ_perm. unfold es. by rewrite hm_iter_perm. }
  assert (Hnn : 0 <= sumZ (map (entry_size l marks acct) es)).
  { apply sumZ_nonneg, Forall_map, Forall_true. intros. apply entry_size_nonneg. }
  rewrite margin_fold_exact; fold l; rewrite ?Hp; [done|lia|lia].
Qed.
End ShardFacts.

(** Tier-0 at the gateway: on a readable cell the check returns, refuses a
    frozen account before anything else, and accepts only orders with positive
    price and non-zero quantity; when price times quantity fits in an i64 it
    accepts only orders whose true notional is within the limit and whose initial
    margin is covered by balance minus used margin. *)
Theorem tier0_accepts_only_covered st l price qty :
  quiescent st -> in_i64 price -> in_u64 qty ->
  in_i64 (balance (data st)) -> in_i64 (used_margin (data st)) ->
  exists r, check st l price qty = Val r
    /\ (frozen (data st) = true -> r = Err AccountFrozen)
    /\ (r = Ok tt ->
        frozen (data st) = false /\ 0 < price /\ 0 < qty
        /\ (qty < two63 -> price * qty < two63 ->
            Z.quot (price * qty) 100000000 <= max_order_notional l
            /\ Z.quot (saturating_mul_i64 (Z.quot (price * qty) 100000000) (initial_margin_fraction l)) 1000000
               <= saturating_sub_i64 (balance (data st)) (used_margin (data st)))).
Proof.
  intros Hq Hp Hqty Hb Hu. unfold check. rewrite (read_ok st Hq). simpl.
  destruct (frozen (data st)); [by eexists; split_and!|].
  unfold tier0_order_check.
  destruct (Z.ltb_spec (max_order_notional l) (order_notional price qty)) as [|Hn]; [by eexists; split_and!|].
  destruct (Z.eqb_spec qty 0) as [|Hq0]; [by eexists; split_and!|].
  destruct (Z.leb_spec price 0) as [|Hp0]; [by eexists; split_and!|].
  destruct (Z.ltb_spec (saturating_sub_i64 (balance (data st)) (used_margin (data st)))
    (Z.quot (saturating_mul_i64 (order_notional price qty) (initial_margin_fraction l)) 1000000));
    [by eexists; split_and!|].
  eexists. split; [done|]. split; [done|]. intros _. unfold in_u64 in Hqty.
  split_and!; [done|lia|lia|]. intros Hq63 Hpq.
  assert (Hon : order_notional price qty = Z.quot (price * qty) 100000000).
  { unfold order_notional. rewrite wrap_i64_id by (unfold in_i64; lia).
    unfold saturating_mul_i64. rewrite clamp_id; [done|]. unfold in_i64, two63 in *. nia. }
  by rewrite Hon in *.
Qed.

(** The cast [qty as i64] in the notional check: a quantity of 2^63 or more
    counts as negative, so the notional limit does not stop it. *)
Lemma tier0_notional_misses_large_qty :
  tier0_order_check 100000000 two63 RiskLimits_default = Ok tt
  /\ max_order_notional RiskLimits_default < Z.quot (100000000 * two63) 100000000.
Proof. split; vm_compute; reflexivity. Qed.

(** ** Witnesses *)

Module RiskDemo.
Definition iter (m : gmap (Z * Z) Position) : list ((Z * Z) * Position) := map_to_list m.
Lemma iter_perm m : iter m ≡ₚ map_to_list m.
Proof. reflexivity. Qed.

Definition sh : RiskShard := RiskShard_new 0 4 (ShardConfig_new 4) (Table_new 8).
Lemma sh_ok : shard_ok sh.
Proof.
  apply shard_new_ok; [lia|unfold two64; lia|apply table_new_ok|].
  vm_compute. discriminate.
Qed.

Definition px : Z := 5000000000.
Definition q : Z := 200000000.

Lemma flat_ok : fill_ok Position_default px q.
Proof. unfold fill_ok, in_i64, two63, px, q. simpl. lia. Qed.

(** A long of [q] bought at [px] and half closed at a price ten units higher. *)
Definition long : Position := mkPosition q px 7.
Lemma long_ok : fill_ok long 6000000000 100000000.
Proof. unfold fill_ok, in_i64, two63, long, px, q. simpl. lia. Qed.

Lemma position_fill_sound_witness :
  exists p', apply_fill Sell 6000000000 100000000 long = Val p'
    /\ net_qty p' = 100000000 /\ realised_pnl p' = 7 + 1000000000.
Proof.
  destruct (position_fill_sound Sell 6000000000 100000000 long long_ok)
    as (p' & H & _ & Hn & _ & _ & Hc).
  destruct (Hc ltac:(vm_compute; reflexivity)) as (_ & Hr & _). exists p'.
  exact (conj H (conj Hn (Hr ltac:(vm_compute; split; [discriminate|reflexivity])
                            ltac:(vm_compute; split; [discriminate|reflexivity])))).
Defined.

Definition fills : list (Side * Z * Z) := [(Buy, 10, 7); (Buy, 30, 5); (Sell, 40, 20)].
Lemma position_net_is_sum_witness :
  exists p, apply_fills fills Position_default = Val p /\ net_qty p = -8.
Proof.
  destruct (position_net_is_sum fills) as (p & H & Hn & _).
  - repeat constructor; unfold two63; lia.
  - vm_compute. reflexivity.
  - exists p. exact (conj H Hn).
Defined.

Lemma risk_trade_zero_sum_witness :
  exists sh' cmds,
    process_event iter sh (Trade 1 0 7 px q 1 2 1 2 1 2 Sell 0 0) ∅ = Val (sh', cmds)
    /\ net_qty (pos_of sh' 1 7) + net_qty (pos_of sh' 2 7) = 0.
Proof.
  destruct (risk_trade_zero_sum iter sh ∅ 1 0 7 px q 1 2 1 2 1 2 Sell 0 0 sh_ok eq_refl eq_refl
    ltac:(discriminate) flat_ok flat_ok) as (sh' & cmds & H & _ & _ & Hs & _).
  exists sh', cmds. exact (conj H Hs).
Defined.


(** In the witness the account has no deposit: the margin of the first fill
    breaches at once, the account is liquidated, and it stays frozen after the
    second leg has closed the position again. *)
Example breach_commands :
  match process_event iter sh (Trade 1 0 7 px q 1 2 1 2 1 1 Sell 0 0) ∅ with
  | Val (sh', cmds) => (cmds, frozen <$> cell_of sh' 1, net_qty (pos_of sh' 1 7))
  | _ => ([], None, 0)
  end = ([Inbound_Liquidate 7 1], Some true, 0).
Proof. vm_compute. reflexivity. Qed.

Lemma risk_margin_exact_witness : recompute_margin iter sh 1 ∅ = Val (0, 0).
Proof.
  exact (risk_margin_exact iter iter_perm sh 1 ∅ 0 sh_ok eq_refl eq_refl ltac:(vm_compute; reflexivity)).
Defined.

Lemma tier0_accepts_only_covered_witness :
  exists r, check (mkARS 0 (mkSnap 100000000000 0 false false 0 0)) RiskLimits_default px q = Val r.
Proof.
  destruct (tier0_accepts_only_covered (mkARS 0 (mkSnap 100000000000 0 false false 0 0))
    RiskLimits_default px q) as (r & H & _).
  - split; [reflexivity|]. unfold in_u64, two64. simpl. lia.
  - unfold in_i64, two63, px. lia.
  - unfold in_u64, two64, q. lia.
  - unfold in_i64, two63. simpl. lia.
  - unfold in_i64, two63. simpl. lia.
  - exists r. exact H.
Defined.
End RiskDemo.
