(* ===== verification/Metrics.v ===== *)
(** * Metrics: counters, latency histograms and their aggregation

    crates/matching-engine/src/metrics.rs (the histogram the engine records its
    latencies in, its snapshots, percentiles and merging, and the counters) and
    crates/metrics/src/aggregator.rs (the totals over all shards).  Each
    histogram has one writer and the aggregator reads it between two records;
    an atomic counter wraps.  [Duration::as_nanos] is an integer here, and the
    rank that [percentile] computes in floating point is an argument, given in
    Prometheus.v. *)

From S2P Require Import Prelude.
From stdpp Require Import fin_maps sorting.
#[local] Open Scope Z_scope.

Definition NUM_BUCKETS : nat := 32.

Record LatencyHistogram := mkHistogram {
  h_buckets : list Z;
  h_count : Z;
  h_sum_ns : Z;
  h_max_ns : Z
}.

Definition LatencyHistogram_new : LatencyHistogram := mkHistogram (replicate NUM_BUCKETS 0) 0 0 0.

(** [u64::leading_zeros] and [u64::saturating_add]. *)
Definition leading_zeros (x : Z) : Z := if x =? 0 then 64 else 63 - Z.log2 x.
Definition saturating_add_u64 (a b : Z) : Z := Z.min u64_max (a + b).

Definition bucket_for (ns : Z) : nat :=
  let idx := 63 - leading_zeros (saturating_add_u64 ns 1) in
  Nat.min (Z.to_nat idx) (NUM_BUCKETS - 1).

(** [fetch_add(n)] on an [AtomicU64]. *)
Definition fetch_add (n x : Z) : Z := wrap_u64 (x + n).

(** [record(d)] with [d.as_nanos()] equal to [d]. *)
Definition record (d : Z) (h : LatencyHistogram) : LatencyHistogram :=
  let ns := wrap_u64 d in
  let bucket := bucket_for ns in
  mkHistogram (alter (fetch_add 1) bucket (h_buckets h)) (fetch_add 1 (h_count h))
    (fetch_add ns (h_sum_ns h)) (Z.max (h_max_ns h) ns).

Record LatencySnapshot := mkLatency {
  ls_buckets : list Z;
  ls_count : Z;
  ls_sum_ns : Z;
  ls_mean_ns : Z;
  ls_max_ns : Z
}.

Definition LatencySnapshot_default : LatencySnapshot := mkLatency (replicate NUM_BUCKETS 0) 0 0 0 0.

Definition hist_snapshot (h : LatencyHistogram) : LatencySnapshot :=
  mkLatency (h_buckets h) (h_count h) (h_sum_ns h)
    (if 0 <? h_count h then h_sum_ns h / h_count h else 0) (h_max_ns h).

Definition hist_reset (h : LatencyHistogram) : LatencyHistogram :=
  mkHistogram (map (fun _ => 0) (h_buckets h)) 0 0 0.

(** The walk over the buckets from the one numbered [i] on. *)
Fixpoint percentile_walk (target running : Z) (i : nat) (buckets : list Z) (max_ns : Z) : Z :=
  match buckets with
  | [] => max_ns
  | c :: rest =>
      let running := wrap_u64 (running + c) in
      if target <=? running then Z.shiftl 1 (Z.of_nat i + 1) - 1
      else percentile_walk target running (S i) rest max_ns
  end.

(** [rank n] is [(p.clamp(0.0, 1.0) * n as f64).ceil() as u64]. *)
Definition percentile (rank : Z -> Z) (s : LatencySnapshot) : Z :=
  if ls_count s =? 0 then 0
  else percentile_walk (Z.max (rank (ls_count s)) 1) 0 0 (ls_buckets s) (ls_max_ns s).

Definition latency_merge (other self : LatencySnapshot) : LatencySnapshot :=
  let count := wrap_u64 (ls_count self + ls_count other) in
  let sum_ns := wrap_u64 (ls_sum_ns self + ls_sum_ns other) in
  mkLatency (zip_with (fun a b => wrap_u64 (a + b)) (ls_buckets self) (ls_buckets other)) count sum_ns
    (if 0 <? count then sum_ns / count else 0) (Z.max (ls_max_ns self) (ls_max_ns other)).

(** ** Counters *)

Record EngineMetrics := mkMetrics {
  match_latency : LatencyHistogram;
  risk_check_latency : LatencyHistogram;
  orders_processed : Z;
  fills_generated : Z;
  risk_rejects : Z;
  idle_spins : Z;
  outbound_drops : Z;
  wal_failures : Z
}.

Definition EngineMetrics_new : EngineMetrics :=
  mkMetrics LatencyHistogram_new LatencyHistogram_new 0 0 0 0 0 0.

Definition record_order (fills : Z) (risk_rejected : bool) (m : EngineMetrics) : EngineMetrics :=
  mkMetrics (match_latency m) (risk_check_latency m) (fetch_add 1 (orders_processed m))
    (if risk_rejected then fills_generated m
     else if 0 <? fills then fetch_add fills (fills_generated m) else fills_generated m)
    (if risk_rejected then fetch_add 1 (risk_rejects m) else risk_rejects m)
    (idle_spins m) (outbound_drops m) (wal_failures m).

Definition record_wal_failure (m : EngineMetrics) : EngineMetrics :=
  mkMetrics (match_latency m) (risk_check_latency m) (orders_processed m) (fills_generated m)
    (risk_rejects m) (idle_spins m) (outbound_drops m) (fetch_add 1 (wal_failures m)).

Definition record_idle_spin (m : EngineMetrics) : EngineMetrics :=
  mkMetrics (match_latency m) (risk_check_latency m) (orders_processed m) (fills_generated m)
    (risk_rejects m) (fetch_add 1 (idle_spins m)) (outbound_drops m) (wal_failures m).

Definition record_outbound_drop (m : EngineMetrics) : EngineMetrics :=
  mkMetrics (match_latency m) (risk_check_latency m) (orders_processed m) (fills_generated m)
    (risk_rejects m) (idle_spins m) (fetch_add 1 (outbound_drops m)) (wal_failures m).

(** [metrics.match_latency.record(d)] and [metrics.risk_check_latency.record(d)]. *)
Definition record_match_latency (d : Z) (m : EngineMetrics) : EngineMetrics :=
  mkMetrics (record d (match_latency m)) (risk_check_latency m) (orders_processed m) (fills_generated m)
    (risk_rejects m) (idle_spins m) (outbound_drops m) (wal_failures m).
Definition record_risk_latency (d : Z) (m : EngineMetrics) : EngineMetrics :=
  mkMetrics (match_latency m) (record d (risk_check_latency m)) (orders_processed m) (fills_generated m)
    (risk_rejects m) (idle_spins m) (outbound_drops m) (wal_failures m).

Record EngineMetricsSnapshot := mkMetricsSnapshot {
  ms_match_latency : LatencySnapshot;
  ms_risk_check_latency : LatencySnapshot;
  ms_orders_processed : Z;
  ms_fills_generated : Z;
  ms_risk_rejects : Z;
  ms_idle_spins : Z
}.

Definition EngineMetricsSnapshot_default : EngineMetricsSnapshot :=
  mkMetricsSnapshot LatencySnapshot_default LatencySnapshot_default 0 0 0 0.

Definition metrics_snapshot (m : EngineMetrics) : EngineMetricsSnapshot :=
  mkMetricsSnapshot (hist_snapshot (match_latency m)) (hist_snapshot (risk_check_latency m))
    (orders_processed m) (fills_generated m) (risk_rejects m) (idle_spins m).

Definition reset_intervals (m : EngineMetrics) : EngineMetrics :=
  mkMetrics (hist_reset (match_latency m)) (hist_reset (risk_check_latency m)) 0 0 0 0
    (outbound_drops m) (wal_failures m).

(** ** aggregator.rs *)

Record AggregatedSnapshot := mkAggregated {
  taken_at : option Z;
  per_shard : gmap Z EngineMetricsSnapshot;
  totals : EngineMetricsSnapshot
}.

Definition AggregatedSnapshot_default : AggregatedSnapshot :=
  mkAggregated None ∅ EngineMetricsSnapshot_default.

(** One turn of the loop that recomputes the totals. *)
Definition add_totals (t s : EngineMetricsSnapshot) : EngineMetricsSnapshot :=
  mkMetricsSnapshot (latency_merge (ms_match_latency s) (ms_match_latency t))
    (latency_merge (ms_risk_check_latency s) (ms_risk_check_latency t))
    (wrap_u64 (ms_orders_processed t + ms_orders_processed s))
    (wrap_u64 (ms_fills_generated t + ms_fills_generated s))
    (wrap_u64 (ms_risk_rejects t + ms_risk_rejects s))
    (wrap_u64 (ms_idle_spins t + ms_idle_spins s)).

Section Aggregator.
(** The order in which [HashMap::values] visits the shards. *)
Context (values : gmap Z EngineMetricsSnapshot -> list EngineMetricsSnapshot).

Definition aggregated_merge (shard_id : Z) (snap : EngineMetricsSnapshot) (a : AggregatedSnapshot) :
    AggregatedSnapshot :=
  let per_shard := <[shard_id := snap]> (per_shard a) in
  mkAggregated (taken_at a) per_shard
    (fold_left add_totals (values per_shard) EngineMetricsSnapshot_default).

(** [ShardHandle]: an id and the metrics the shard writes; [metrics] are read
    when collecting. *)
Record MetricsAggregator := mkAggregator {
  shards : list (Z * EngineMetrics);
  last_snapshot : AggregatedSnapshot;
  interval : Z;
  last_collected : Z
}.

Definition MetricsAggregator_new (interval now : Z) : MetricsAggregator :=
  mkAggregator [] AggregatedSnapshot_default interval now.

Definition register_shard (shard_id : Z) (metrics : EngineMetrics) (a : MetricsAggregator) : MetricsAggregator :=
  mkAggregator (shards a ++ [(shard_id, metrics)]) (last_snapshot a) (interval a) (last_collected a).

Definition collect_now (now : Z) (a : MetricsAggregator) : MetricsAggregator :=
  let snap := fold_left (fun snap h => aggregated_merge (fst h) (metrics_snapshot (snd h)) snap) (shards a)
    (mkAggregated (Some now) ∅ EngineMetricsSnapshot_default) in
  mkAggregator (shards a) snap (interval a) now.

Definition maybe_collect (now : Z) (a : MetricsAggregator) : MetricsAggregator :=
  if interval a <=? now - last_collected a then collect_now now a else a.

Definition reset_shard_intervals (a : MetricsAggregator) : MetricsAggregator :=
  mkAggregator (map (fun h => (fst h, reset_intervals (snd h))) (shards a)) (last_snapshot a)
    (interval a) (last_collected a).
End Aggregator.

(** ** The histogram of a list of samples *)

Definition hist_of (xs : list Z) : LatencyHistogram := fold_left (fun h x => record x h) xs LatencyHistogram_new.

Definition in_bucket (i : nat) (x : Z) : bool := (bucket_for (wrap_u64 x) =? i)%nat.
Definition bucket_count (i : nat) (xs : list Z) : Z := Z.of_nat (length (List.filter (in_bucket i) xs)).
Definition max_of (xs : list Z) : Z := foldr (fun x m => Z.max (wrap_u64 x) m) 0 xs.

Lemma bucket_for_lt ns : (bucket_for ns < NUM_BUCKETS)%nat.
Proof. unfold bucket_for, NUM_BUCKETS. lia. Qed.

Lemma bucket_count_app i xs ys : bucket_count i (xs ++ ys) = bucket_count i xs + bucket_count i ys.
Proof. unfold bucket_count. rewrite List.filter_app, length_app. lia. Qed.

Lemma max_of_app xs ys : 0 <= max_of ys -> max_of (xs ++ ys) = Z.max (max_of xs) (max_of ys).
Proof. unfold max_of. intros. induction xs as [|x xs IH]; cbn [app foldr]; lia. Qed.

Lemma max_of_nonneg xs : 0 <= max_of xs.
Proof. unfold max_of. induction xs as [|x xs IH]; cbn [foldr]; lia. Qed.

Lemma hist_of_snoc xs x : hist_of (xs ++ [x]) = record x (hist_of xs).
Proof. unfold hist_of. by rewrite fold_left_app. Qed.

(** Every field of a histogram is a function of its samples, modulo 2^64. *)
Lemma hist_of_spec xs :
  hist_of xs = mkHistogram (map (fun i => wrap_u64 (bucket_count i xs)) (seq 0 NUM_BUCKETS))
    (wrap_u64 (Z.of_nat (length xs))) (wrap_u64 (sumZ (map wrap_u64 xs))) (max_of xs).
Proof.
  induction xs as [|x xs IH] using rev_ind; [done|]. rewrite hist_of_snoc, IH. unfold record. cbn [h_buckets h_count h_sum_ns h_max_ns].
  f_equal.
  - apply list_eq. intros i. pose proof (bucket_for_lt (wrap_u64 x)) as Hlt. rewrite list_lookup_alter.
    assert (Hc : bucket_count i (xs ++ [x]) = bucket_count i xs + if decide (bucket_for (wrap_u64 x) = i) then 1 else 0).
    { rewrite bucket_count_app. f_equal. unfold bucket_count, in_bucket. cbn [List.filter].
      case_decide; [by rewrite (proj2 (Nat.eqb_eq _ _))|by rewrite (proj2 (Nat.eqb_neq _ _))]. }
    destruct (decide (i < NUM_BUCKETS)%nat) as [Hi|Hi]; cycle 1.
    { rewrite decide_False, !list_lookup_fmap, (lookup_seq_ge 0) by lia. done. }
    case_decide as Hb; [subst i|]; rewrite !list_lookup_fmap, (lookup_seq_lt 0) by lia;
      cbn [fmap option_fmap option_map Nat.add]; rewrite Hc.
    + unfold fetch_add. by autorewrite with ints.
    + by rewrite Z.add_0_r.
  - unfold fetch_add. autorewrite with ints. rewrite length_app. f_equal. simpl. lia.
  - unfold fetch_add. rewrite map_app, sumZ_app. cbn [map sumZ]. by rewrite Z.add_0_r, wrap_u64_add_l.
  - rewrite max_of_app by apply max_of_nonneg. simpl. pose proof (max_of_nonneg xs).
    pose proof (wrap_u64_range x). unfold in_u64 in *. lia.
Qed.

Definition snapshot_of (xs : list Z) : LatencySnapshot := hist_snapshot (hist_of xs).

Lemma snapshot_of_nil : snapshot_of [] = LatencySnapshot_default.
Proof. reflexivity. Qed.

(** Merging snapshots is taking the snapshot of all the samples. *)
Lemma merge_snapshots xs ys : latency_merge (snapshot_of ys) (snapshot_of xs) = snapshot_of (xs ++ ys).
Proof.
  unfold latency_merge, snapshot_of, hist_snapshot. rewrite !hist_of_spec.
  cbn [h_buckets h_count h_sum_ns h_max_ns ls_buckets ls_count ls_sum_ns ls_max_ns].
  rewrite map_app, sumZ_app, length_app, Nat2Z.inj_add, max_of_app by apply max_of_nonneg.
  autorewrite with ints. f_equal. rewrite zip_with_fmap_l, zip_with_fmap_r, zip_with_diag.
  apply list_fmap_ext. intros i j Hj. rewrite bucket_count_app. by autorewrite with ints.
Qed.

Lemma hist_reset_spec xs : hist_reset (hist_of xs) = LatencyHistogram_new.
Proof.
  rewrite hist_of_spec. unfold hist_reset, LatencyHistogram_new. cbn [h_buckets]. f_equal.
Qed.

(** The order of the samples does not matter. *)
#[export] Instance snapshot_of_perm : Proper (Permutation ==> eq) snapshot_of.
Proof.
  intros xs ys Hp. unfold snapshot_of. f_equal. rewrite !hist_of_spec.
  assert (Hs : sumZ (map wrap_u64 xs) = sumZ (map wrap_u64 ys)).
  { induction Hp; simpl; try lia. }
  assert (Hm : max_of xs = max_of ys).
  { clear Hs. unfold max_of. induction Hp as [|x l l' _ IH|x y l|l1 l2 l3 _ IH1 _ IH2]; cbn [foldr].
    - done.
    - lia.
    - lia.
    - lia. }
  assert (Hb : forall i, bucket_count i xs = bucket_count i ys).
  { intros i. unfold bucket_count. f_equal. apply Permutation_length.
    clear Hs Hm. induction Hp as [|x l l' _ IH|x y l|l1 l2 l3 _ IH1 _ IH2]; cbn [List.filter].
    - done.
    - destruct (in_bucket i x); [by constructor|done].
    - destruct (in_bucket i x), (in_bucket i y); done || constructor.
    - by etrans. }
  rewrite Hs, Hm, Hp. f_equal. apply list_fmap_ext. intros i j _. by rewrite Hb.
Qed.

(** ** Percentiles *)

(** The number of samples in the buckets below [i]. *)
Definition below (i : nat) (xs : list Z) : Z :=
  Z.of_nat (length (List.filter (fun x => (bucket_for (wrap_u64 x) <? i)%nat) xs)).

Lemma below_S i xs : below (S i) xs = below i xs + bucket_count i xs.
Proof.
  unfold below, bucket_count, in_bucket. induction xs as [|x xs IH]; [done|]. cbn [List.filter].
  destruct (Nat.ltb_spec (bucket_for (wrap_u64 x)) (S i)), (Nat.ltb_spec (bucket_for (wrap_u64 x)) i),
    (Nat.eqb_spec (bucket_for (wrap_u64 x)) i); cbn [length]; lia.
Qed.

Lemma below_0 xs : below 0 xs = 0.
Proof. unfold below. by rewrite filter_none. Qed.

Lemma below_all xs : below NUM_BUCKETS xs = Z.of_nat (length xs).
Proof.
  unfold below. rewrite filter_all; [done|]. intros x _. apply Nat.ltb_lt, bucket_for_lt.
Qed.

Lemma below_le i xs : 0 <= below i xs <= Z.of_nat (length xs).
Proof. unfold below. pose proof (List.filter_length_le (fun x => (bucket_for (wrap_u64 x) <? i)%nat) xs). lia. Qed.

(** The walk stops in the bucket that holds the sample of the target rank. *)
Lemma percentile_walk_spec xs target max_ns : Z.of_nat (length xs) < two64 -> forall k i,
  below i xs < target <= below (i + k) xs ->
  exists j, (i <= j < i + k)%nat /\ below j xs < target <= below (S j) xs
    /\ percentile_walk target (below i xs) i (map (fun i => wrap_u64 (bucket_count i xs)) (seq i k)) max_ns
       = 2 ^ (Z.of_nat j + 1) - 1.
Proof.
  intros Hlen. induction k as [|k IH]; intros i Ht; [rewrite Nat.add_0_r in Ht; lia|].
  cbn [seq map percentile_walk]. pose proof (below_le (S i) xs).
  rewrite wrap_u64_add_r, <- below_S, wrap_u64_id by (unfold in_u64; lia).
  destruct (Z.leb_spec target (below (S i) xs)).
  - exists i. split; [lia|]. split; [lia|]. by rewrite Z.shiftl_mul_pow2, Z.mul_1_l by lia.
  - replace (i + S k)%nat with (S i + k)%nat in Ht by lia.
    destruct (IH (S i) ltac:(lia)) as (j & Hj & Hb & ->). exists j. split; [lia|done].
Qed.

(** Bucket [i] holds the latencies in [2^i - 1, 2^(i+1) - 1). *)
Lemma bucket_for_below ns i :
  0 <= ns < 2 ^ 32 - 1 -> (i <= NUM_BUCKETS)%nat -> (bucket_for ns < i)%nat <-> ns < 2 ^ Z.of_nat i - 1.
Proof.
  intros Hns Hi. unfold bucket_for, saturating_add_u64, leading_zeros, NUM_BUCKETS in *.
  rewrite Z.min_r by (unfold u64_max, two64; lia). destruct (Z.eqb_spec (ns + 1) 0); [lia|].
  replace (63 - (63 - Z.log2 (ns + 1))) with (Z.log2 (ns + 1)) by lia.
  assert (Hl : 0 <= Z.log2 (ns + 1) < 32) by (split; [apply Z.log2_nonneg|apply Z.log2_lt_pow2; lia]).
  pose proof (Z.log2_lt_pow2 (ns + 1) (Z.of_nat i) ltac:(lia)). lia.
Qed.

Definition count_below (v : Z) (xs : list Z) : Z := Z.of_nat (length (List.filter (fun x => x <? v) xs)).

Lemma below_count i xs :
  Forall (fun x => 0 <= x < 2 ^ 32 - 1) xs -> (i <= NUM_BUCKETS)%nat ->
  below i xs = count_below (2 ^ Z.of_nat i - 1) xs.
Proof.
  intros Hx Hi. unfold below, count_below. do 2 f_equal. apply List.filter_ext_in. intros x Hin.
  rewrite List.Forall_forall in Hx. specialize (Hx x Hin).
  rewrite wrap_u64_id by (unfold in_u64, two64; lia).
  apply eq_bool_prop_intro. rewrite !Is_true_true, Nat.ltb_lt, Z.ltb_lt. by apply bucket_for_below.
Qed.

(** In a sorted list the sample of rank [t] is below [v] exactly if at least [t]
    samples are. *)
Lemma sorted_rank ys t x v :
  StronglySorted Z.le ys -> ys !! t = Some x -> (Z.of_nat t < count_below v ys <-> x < v).
Proof.
  intros Hs Ht. rewrite <- (take_drop_middle ys t x Ht) in Hs |- *. apply lookup_lt_Some in Ht as Hlt.
  assert (Hl : length (take t ys) = t) by (rewrite length_take; lia).
  apply StronglySorted_app in Hs as (Hc & _ & Hs2). apply StronglySorted_inv in Hs2 as [_ Hall].
  unfold count_below. rewrite List.filter_app, length_app. cbn [List.filter].
  pose proof (List.filter_length_le (fun x => x <? v) (take t ys)). destruct (Z.ltb_spec x v) as [Hv|Hv].
  - rewrite (filter_all _ (take t ys)); [cbn [length]; lia|]. intros y Hy. apply Z.ltb_lt.
    specialize (Hc y x Hy ltac:(left)). lia.
  - rewrite (filter_none _ (drop (S t) ys)); [cbn [length]; lia|]. intros y Hy.
    rewrite Forall_forall in Hall. specialize (Hall y Hy). lia.
Qed.

Lemma count_below_perm v xs ys : xs ≡ₚ ys -> count_below v xs = count_below v ys.
Proof.
  intros Hp. unfold count_below. induction Hp; cbn [List.filter]; repeat case_match; cbn [length]; lia.
Qed.

(** A reported percentile is within a factor of two: for samples below the
    last bucket's end, the sample of the rank asked for lies in the bucket whose
    upper edge is reported, so it is below the report [v] and at least
    [(v - 1) / 2]. *)
Theorem percentile_bounds rank xs ys x :
  Forall (fun x => 0 <= x < 2 ^ 32 - 1) xs -> Z.of_nat (length xs) < two64 ->
  let n := Z.of_nat (length xs) in
  rank n <= n ->
  ys ≡ₚ xs -> StronglySorted Z.le ys -> ys !! Z.to_nat (Z.max (rank n) 1 - 1) = Some x ->
  let v := percentile rank (snapshot_of xs) in
  (v - 1) / 2 <= x < v.
Proof.
  intros Hx Hlen n Hrank Hp Hs Hget v. set (t := Z.max (rank n) 1) in *.
  assert (Hne : 0 < n) by (apply lookup_lt_Some in Hget; rewrite Hp in Hget; lia).
  assert (Hv : exists j, (j < NUM_BUCKETS)%nat /\ below j xs < t <= below (S j) xs
    /\ v = 2 ^ (Z.of_nat j + 1) - 1).
  { unfold v, percentile, snapshot_of, hist_snapshot. rewrite hist_of_spec.
    cbn [ls_count ls_buckets h_count h_buckets h_max_ns ls_max_ns]. rewrite wrap_u64_id by (unfold in_u64; lia).
    fold n. rewrite (proj2 (Z.eqb_neq _ _)) by lia. fold t.
    destruct (percentile_walk_spec xs t (max_of xs) Hlen NUM_BUCKETS 0) as (j & Hj & Hb & Hw).
    - rewrite below_0, below_all. fold n. lia.
    - exists j. rewrite below_0 in Hw. split; [lia|done]. }
  destruct Hv as (j & Hj & [Hlo Hhi] & ->).
  rewrite (below_count j), <- (count_below_perm _ ys) in Hlo by (done || lia).
  rewrite (below_count (S j)), <- (count_below_perm _ ys) in Hhi by (done || lia).
  pose proof (sorted_rank ys _ x (2 ^ Z.of_nat j - 1) Hs Hget) as H1.
  pose proof (sorted_rank ys _ x (2 ^ Z.of_nat (S j) - 1) Hs Hget) as H2.
  replace (Z.of_nat (S j)) with (Z.of_nat j + 1) in * by lia. rewrite Z.pow_add_r, Z.pow_1_r in * by lia.
  generalize dependent (2 ^ Z.of_nat j). intros w. intros.
  assert (1 <= t) by lia. clearbody t. replace (w * 2 - 1 - 1) with ((w - 1) * 2) by lia.
  rewrite Z.div_mul by lia. lia.
Qed.

(** ** Totals *)

(** What the shards recorded: the samples of the two latencies. *)
Definition recorded (h : Z * EngineMetrics) (s : list Z * list Z) : Prop :=
  match_latency (snd h) = hist_of (fst s) /\ risk_check_latency (snd h) = hist_of (snd s).

Definition shard_values (hs : list (Z * EngineMetrics)) : list EngineMetricsSnapshot :=
  map (fun h => metrics_snapshot (snd h)) hs.

Lemma fold_totals vs L t xs ys :
  Forall2 (fun v s => ms_match_latency v = snapshot_of (fst s) /\ ms_risk_check_latency v = snapshot_of (snd s)) vs L ->
  ms_match_latency t = snapshot_of xs -> ms_risk_check_latency t = snapshot_of ys ->
  let t' := fold_left add_totals vs t in
  ms_match_latency t' = snapshot_of (xs ++ concat (map fst L))
  /\ ms_risk_check_latency t' = snapshot_of (ys ++ concat (map snd L)).
Proof.
  intros HF. revert t xs ys. induction HF as [|v s vs L [H1 H2] _ IH]; intros t xs ys Hm Hr; cbn [fold_left map concat].
  - by rewrite !app_nil_r.
  - rewrite !app_assoc. apply IH; cbn [add_totals ms_match_latency ms_risk_check_latency].
    + by rewrite H1, Hm, merge_snapshots.
    + by rewrite H2, Hr, merge_snapshots.
Qed.

(** A counter of the totals is the sum over the shards. *)
Lemma fold_counter (f : EngineMetricsSnapshot -> Z) vs t :
  (forall t s, f (add_totals t s) = wrap_u64 (f t + f s)) -> in_u64 (f t) ->
  f (fold_left add_totals vs t) = wrap_u64 (f t + sumZ (map f vs)).
Proof.
  intros Hf. revert t. induction vs as [|v vs IH]; intros t Ht; cbn [fold_left map sumZ].
  - by rewrite Z.add_0_r, wrap_u64_id.
  - rewrite IH, Hf by (rewrite Hf; apply wrap_u64_range). rewrite wrap_u64_add_l. f_equal. lia.
Qed.

Lemma recorded_values hs L :
  Forall2 recorded hs L ->
  Forall2 (fun v s => ms_match_latency v = snapshot_of (fst s) /\ ms_risk_check_latency v = snapshot_of (snd s))
    (shard_values hs) L.
Proof.
  unfold shard_values. intros HF. apply Forall2_fmap_l. eapply Forall2_impl; [exact HF|].
  intros h s [H1 H2]. cbn. by rewrite H1, H2.
Qed.

#[export] Instance sumZ_perm : Proper (Permutation ==> eq) sumZ.
Proof. intros l1 l2 H. induction H; simpl; lia. Qed.

Section AggregatorFacts.
Context (values : gmap Z EngineMetricsSnapshot -> list EngineMetricsSnapshot)
  (Hvalues : forall m, values m ≡ₚ map snd (map_to_list m)).

(** The totals are those of the last map, for an empty one too. *)
Lemma collect_fold hs a :
  totals a = fold_left add_totals (values (per_shard a)) EngineMetricsSnapshot_default ->
  let a' := fold_left (fun snap h => aggregated_merge values (fst h) (metrics_snapshot (snd h)) snap) hs a in
  per_shard a' = fold_left (fun m h => <[fst h := metrics_snapshot (snd h)]> m) hs (per_shard a)
  /\ totals a' = fold_left add_totals (values (per_shard a')) EngineMetricsSnapshot_default.
Proof. revert a. induction hs as [|h hs IH]; intros a Ha; cbn [fold_left]; [done|]. by apply IH. Qed.

Lemma values_shards hs :
  NoDup (map fst hs) ->
  values (fold_left (fun m h => <[fst h := metrics_snapshot (snd h)]> m) hs ∅) ≡ₚ shard_values hs.
Proof.
  intros Hnd. rewrite Hvalues.
  assert (Heq : fold_left (fun m h => <[fst h := metrics_snapshot (snd h)]> m) hs ∅
    = list_to_map (M := gmap Z EngineMetricsSnapshot) (rev (map (fun h => (fst h, metrics_snapshot (snd h))) hs))).
  { induction hs as [|h hs IH] using rev_ind; [done|]. rewrite fold_left_app, map_app, rev_app_distr. simpl.
    rewrite map_app in Hnd. apply NoDup_app in Hnd as (Hnd & _ & _). by rewrite IH. }
  rewrite Heq, map_to_list_to_map.
  - rewrite <- Permutation_rev. unfold shard_values. by rewrite map_map.
  - apply NoDup_ListNoDup. rewrite map_rev, map_map. apply List.NoDup_rev. by apply NoDup_ListNoDup.
Qed.

(** C37. The totals are those of one histogram: for shards under distinct ids,
    in whatever order the map is visited, the latencies of the collected totals
    are exactly the snapshot of a single histogram that recorded every sample
    of every shard (so their percentiles are those of the whole population,
    never averages), and every counter is the sum of the shards' counters.
    The snapshot of a shard is taken between two of its records. *)
Theorem aggregator_totals_exact now a L :
  NoDup (map fst (shards a)) -> Forall2 recorded (shards a) L ->
  let t := totals (last_snapshot (collect_now values now a)) in
  ms_match_latency t = snapshot_of (concat (map fst L))
  /\ ms_risk_check_latency t = snapshot_of (concat (map snd L))
  /\ ms_orders_processed t = wrap_u64 (sumZ (map (orders_processed ∘ snd) (shards a)))
  /\ ms_fills_generated t = wrap_u64 (sumZ (map (fills_generated ∘ snd) (shards a)))
  /\ ms_risk_rejects t = wrap_u64 (sumZ (map (risk_rejects ∘ snd) (shards a)))
  /\ ms_idle_spins t = wrap_u64 (sumZ (map (idle_spins ∘ snd) (shards a))).
Proof.
  intros Hnd HF t. unfold t, collect_now. cbn [last_snapshot]. clear t.
  set (a0 := mkAggregated (Some now) ∅ EngineMetricsSnapshot_default).
  assert (Hempty : values ∅ = []).
  { pose proof (Hvalues ∅) as H. rewrite map_to_list_empty in H. by apply Permutation_nil_r in H. }
  destruct (collect_fold (shards a) a0) as [Hps ->]; [simpl; by rewrite Hempty|]. rewrite Hps.
  pose proof (values_shards (shards a) Hnd) as Hperm. cbn [a0 per_shard] in *.
  destruct (Permutation_Forall2 (Permutation_sym Hperm) (recorded_values _ _ HF)) as (L' & HL & HF').
  destruct (fold_totals _ L' EngineMetricsSnapshot_default [] [] HF') as [Hm Hr];
    [by rewrite snapshot_of_nil..|]. rewrite Hm, Hr. cbn [app]. split_and!.
  1,2: apply snapshot_of_perm; by rewrite HL.
  all: (rewrite fold_counter by done; cbn [ms_orders_processed ms_fills_generated ms_risk_rejects ms_idle_spins
    EngineMetricsSnapshot_default]; rewrite Z.add_0_l; f_equal; unfold shard_values in Hperm;
    rewrite Hperm, map_map; done).
Qed.
End AggregatorFacts.

Module MetricsDemo.
Definition samples : list Z := [100; 0; 5; 1000].

Definition p50 (n : Z) : Z := (n + 1) / 2.

(** The second smallest of the four samples, 5, lies in [3, 7). *)
Lemma percentile_bounds_witness :
  percentile p50 (snapshot_of samples) = 7
  /\ let v := percentile p50 (snapshot_of samples) in (v - 1) / 2 <= 5 < v.
Proof.
  split; [vm_compute; reflexivity|].
  apply (percentile_bounds p50 samples [0; 5; 100; 1000] 5).
  - repeat (apply Forall_cons; split; [lia|]). constructor.
  - reflexivity.
  - vm_compute. discriminate.
  - unfold samples. apply (Permutation_trans (l' := [0; 100; 5; 1000])).
    + constructor. apply perm_swap.
    + apply perm_swap.
  - repeat (constructor; [|repeat (apply Forall_cons; split; [lia|]); constructor]). constructor.
  - reflexivity.
Defined.

Definition values (m : gmap Z EngineMetricsSnapshot) : list EngineMetricsSnapshot := map snd (map_to_list m).

Definition fast : EngineMetrics := record_match_latency 100 (record_order 2 false EngineMetrics_new).
Definition slow : EngineMetrics := record_match_latency 1000000 (record_order 0 true EngineMetrics_new).
Definition aggregator : MetricsAggregator :=
  register_shard 2 slow (register_shard 1 fast (MetricsAggregator_new 0 0)).

Lemma aggregator_totals_exact_witness :
  let t := totals (last_snapshot (collect_now values 5 aggregator)) in
  ms_match_latency t = snapshot_of [100; 1000000] /\ ms_orders_processed t = 2.
Proof.
  destruct (aggregator_totals_exact values (fun m => Permutation_refl _) 5 aggregator
    [([100], []); ([1000000], [])]) as (H1 & _ & H2 & _).
  - apply (bool_decide_unpack _). vm_compute. exact I.
  - repeat constructor.
  - split; [exact H1|]. rewrite H2. reflexivity.
Defined.
End MetricsDemo.
