(* ===== verification/Engine.v ===== *)
(** * Engine: crates/matching-engine

    The Tier-0 checks of the matching hot path (risk_check.rs), the mapping of
    book events to wire events (mapper.rs) and the engine itself (engine.rs): one
    command is fenced, risk-checked, applied to
    the book, and its events are fanned out to the risk shards, logged to the
    WAL and published.  The WAL is the interface [WalWriter]; the rings are
    those of RingBuffer.v, and what their consumers do while the engine spins
    is a parameter. *)

From S2P Require Import Prelude CoreTypes SlotMap OrderBook Seqlock RingBuffer Metrics.
#[local] Open Scope Z_scope.

(** ** risk_check.rs *)

Inductive RiskRejectReason :=
| MaxOrderQtyExceeded | MaxOrderNotionalExceeded | AccountHalted | AccountFrozen
| PositionLimitExceeded | OpenOrderLimitExceeded | PriceOutOfBand | UnknownAccount.

Record Tier0Limits := mkTier0 {
  max_order_qty : Z;
  t0_max_order_notional : Z;
  max_open_orders : Z;
  max_position_abs : Z;
  price_band_bps : Z
}.

Definition Tier0Limits_default : Tier0Limits := mkTier0 u64_max u64_max u32_max i64_max 0.

Definition notional_of (price qty : Z) : Z :=
  if price <=? 0 then 0
  else
    let prod := Z.quot (saturating_mul_i128 price qty) 100000000 in
    if prod <=? 0 then 0 else if u64_max <? prod then u64_max else prod.

Definition price_out_of_band (price reference band_bps : Z) : bool :=
  if reference =? 0 then false
  else band_bps <? Z.quot (Z.abs (price - reference) * 10000) reference.

Definition projected_position (current : Z) (side : Side) (qty : Z) : Z :=
  let delta := wrap_i64 qty in
  match side with
  | Buy => saturating_add_i64 current delta
  | Sell => saturating_sub_i64 current delta
  end.

Definition check_new_order (order : NewOrder) (limits : Tier0Limits)
    (risk_state : AccountRiskState) (reference_price : option Z) :
    Exec (Result unit RiskRejectReason) :=
  let! is_h := is_halted risk_state in
  if is_h : bool then Val (Err AccountHalted)
  else
    let! is_f := is_frozen risk_state in
    if is_f : bool then Val (Err AccountFrozen)
    else if max_order_qty limits <? no_qty order then Val (Err MaxOrderQtyExceeded)
    else if t0_max_order_notional limits <? notional_of (no_price order) (no_qty order)
    then Val (Err MaxOrderNotionalExceeded)
    else if (0 <? price_band_bps limits)
            && match reference_price with
               | Some reference => price_out_of_band (no_price order) reference (price_band_bps limits)
               | None => false
               end
    then Val (Err PriceOutOfBand)
    else
      let! r1 := read risk_state in
      if max_open_orders limits <=? open_order_count r1 then Val (Err OpenOrderLimitExceeded)
      else
        let! r2 := read risk_state in
        let prospective := projected_position (position r2) (no_side order) (no_qty order) in
        if max_position_abs limits <? wrap_i64 (Z.abs prospective)
        then Val (Err PositionLimitExceeded)
        else Val (Ok tt).

Definition map_risk_reject_reason (reason : RiskRejectReason) : RejectReason :=
  match reason with
  | MaxOrderQtyExceeded => RR_InvalidQuantity
  | PriceOutOfBand => RR_PriceOutOfRange
  | MaxOrderNotionalExceeded | AccountHalted | AccountFrozen | PositionLimitExceeded
  | OpenOrderLimitExceeded | UnknownAccount => RR_RiskLimitBreach
  end.

(** ** mapper.rs *)

Definition seq_no (seq : Z) : Z := default SequenceNo.FIRST (SequenceNo.new seq).

Definition map_engine_event (ev : EngineEvent) : option Event :=
  match ev with
  | Trade seq _ symbol price qty maker_order taker_order _ _ maker_acct taker_acct maker_side
      maker_remaining_qty taker_remaining_qty =>
      Some (Event_Filled (seq_no seq)
              (mkFill symbol taker_order taker_acct (opposite maker_side) maker_order maker_acct
                 price qty maker_remaining_qty taker_remaining_qty))
  | Accepted seq order_id _ symbol account_id client_order_id side price qty =>
      Some (Event_Accepted (seq_no seq) symbol order_id account_id client_order_id side price qty)
  | Rejected seq _ account_id client_order_id reason =>
      Some (Event_Rejected (seq_no seq) account_id client_order_id reason)
  | OrderCancelled order_id account_id seq symbol =>
      Some (Event_Canceled (seq_no seq) symbol order_id account_id CR_UserRequested 0)
  | _ => None
  end.

(** ** The WAL as the engine sees it *)

(** [trait WalWriter]: [append_event] either records the event or reports an
    error; [wal_events] is the events of its committed records.  The file log
    of Wal.v is an instance. *)
Class WalWriter (W : Type) := {
  WalErr : Type;
  append_event : Event -> W -> Result unit WalErr * W;
  wal_events : W -> list Event;
  append_event_ok w ev : forall w', append_event ev w = (Ok tt, w') -> wal_events w' = wal_events w ++ [ev];
  append_event_err w ev : forall e w', append_event ev w = (Err e, w') -> wal_events w' = wal_events w
}.

(** [for _ in 0..n { match q.try_push(item) { Ok => return, Err(r) => item = r } }]:
    [env i] is what the consumer does to the ring before the attempt with [i]
    attempts left.  The result says whether the item went in. *)
Fixpoint push_retry {Q T} (env : nat -> Q -> Q) (push : T -> Q -> Result unit T * Q)
    (n : nat) (item : T) (q : Q) : bool * Q :=
  match n with
  | O => (false, q)
  | S n' =>
      match push item (env n' q) with
      | (Ok _, q') => (true, q')
      | (Err rejected, q') => push_retry env push n' rejected q'
      end
  end.

(** ** engine.rs *)

Section Engine.
Context {SM : SlotMapApi} {W : Type} {WW : WalWriter W}.
(** What the consumers of the two rings do meanwhile. *)
Context (out_env : nat -> Spsc.Queue (T := Event) -> Spsc.Queue (T := Event))
        (risk_env : nat -> Spmc.Queue (T := EngineEvent) -> Spmc.Queue (T := EngineEvent)).
(** What the clock says a command's risk check and its whole handling took. *)
Context (risk_elapsed match_elapsed : SequencedCommand -> Z).

Definition OUT_CAP : nat := Z.to_nat 1024.
Definition RISK_FANOUT_CAP : nat := Z.to_nat 16384.
Definition MAX_RETRIES : nat := 64.

Record MatchingEngine := mkEngine {
  e_limits : Tier0Limits;
  e_book : OrderBook;
  e_outbound : Spsc.Queue (T := Event);
  e_risk_out : Spmc.Queue (T := EngineEvent);
  e_risk_states : AccountRiskTable;
  e_wal : W;
  e_metrics : EngineMetrics;
  e_reference_price : option Z;
  e_running : bool;
  e_highest_term_seen : Z;
  e_published : list Event     (** ghost: the events that entered [outbound] *)
}.

Definition MatchingEngine_new (limits : Tier0Limits) (book : OrderBook)
    (outbound : Spsc.Queue (T := Event)) (risk_out : Spmc.Queue (T := EngineEvent))
    (risk_states : AccountRiskTable) (wal : W) : MatchingEngine :=
  mkEngine limits book outbound risk_out risk_states wal EngineMetrics_new None true 0 [].

Definition e_set_book (b : OrderBook) (e : MatchingEngine) : MatchingEngine :=
  mkEngine (e_limits e) b (e_outbound e) (e_risk_out e) (e_risk_states e) (e_wal e)
    (e_metrics e) (e_reference_price e) (e_running e) (e_highest_term_seen e) (e_published e).
Definition e_set_outbound (q : Spsc.Queue (T := Event)) (pub : list Event) (e : MatchingEngine) : MatchingEngine :=
  mkEngine (e_limits e) (e_book e) q (e_risk_out e) (e_risk_states e) (e_wal e)
    (e_metrics e) (e_reference_price e) (e_running e) (e_highest_term_seen e) pub.
Definition e_set_risk_out (q : Spmc.Queue (T := EngineEvent)) (e : MatchingEngine) : MatchingEngine :=
  mkEngine (e_limits e) (e_book e) (e_outbound e) q (e_risk_states e) (e_wal e)
    (e_metrics e) (e_reference_price e) (e_running e) (e_highest_term_seen e) (e_published e).
Definition e_set_states (t : AccountRiskTable) (e : MatchingEngine) : MatchingEngine :=
  mkEngine (e_limits e) (e_book e) (e_outbound e) (e_risk_out e) t (e_wal e)
    (e_metrics e) (e_reference_price e) (e_running e) (e_highest_term_seen e) (e_published e).
Definition e_set_wal (w : W) (e : MatchingEngine) : MatchingEngine :=
  mkEngine (e_limits e) (e_book e) (e_outbound e) (e_risk_out e) (e_risk_states e) w
    (e_metrics e) (e_reference_price e) (e_running e) (e_highest_term_seen e) (e_published e).
Definition e_set_metrics (m : EngineMetrics) (e : MatchingEngine) : MatchingEngine :=
  mkEngine (e_limits e) (e_book e) (e_outbound e) (e_risk_out e) (e_risk_states e) (e_wal e)
    m (e_reference_price e) (e_running e) (e_highest_term_seen e) (e_published e).
Definition e_set_reference (p : option Z) (e : MatchingEngine) : MatchingEngine :=
  mkEngine (e_limits e) (e_book e) (e_outbound e) (e_risk_out e) (e_risk_states e) (e_wal e)
    (e_metrics e) p (e_running e) (e_highest_term_seen e) (e_published e).
Definition e_set_running (r : bool) (e : MatchingEngine) : MatchingEngine :=
  mkEngine (e_limits e) (e_book e) (e_outbound e) (e_risk_out e) (e_risk_states e) (e_wal e)
    (e_metrics e) (e_reference_price e) r (e_highest_term_seen e) (e_published e).
Definition e_set_term (t : Z) (e : MatchingEngine) : MatchingEngine :=
  mkEngine (e_limits e) (e_book e) (e_outbound e) (e_risk_out e) (e_risk_states e) (e_wal e)
    (e_metrics e) (e_reference_price e) (e_running e) t (e_published e).

Definition shutdown (e : MatchingEngine) : MatchingEngine := e_set_running false e.

Definition publish_to_risk (ev : EngineEvent) (e : MatchingEngine) : MatchingEngine :=
  let '(_, q) := push_retry risk_env (Spmc.try_push RISK_FANOUT_CAP) MAX_RETRIES ev (e_risk_out e) in
  e_set_risk_out q e.

Definition publish_and_log (ev : Event) (e : MatchingEngine) : MatchingEngine :=
  match append_event ev (e_wal e) with
  | (Err _, w) =>
      e_set_running false (e_set_metrics (record_wal_failure (e_metrics e)) (e_set_wal w e))
  | (Ok _, w) =>
      let e := e_set_wal w e in
      match push_retry out_env (Spsc.try_push OUT_CAP) MAX_RETRIES ev (e_outbound e) with
      | (true, q) => e_set_outbound q (e_published e ++ [ev]) e
      | (false, q) =>
          e_set_metrics (record_outbound_drop (e_metrics e)) (e_set_outbound q (e_published e) e)
      end
  end.

(** [publish_to_risk(ev.clone()); if let Some(out) = map_engine_event(ev) { publish_and_log(out) }]. *)
Definition emit (ev : EngineEvent) (e : MatchingEngine) : MatchingEngine :=
  let e := publish_to_risk ev e in
  match map_engine_event ev with
  | Some out_ev => publish_and_log out_ev e
  | None => e
  end.

Definition note_trade (ev : EngineEvent) (e : MatchingEngine) : MatchingEngine :=
  match ev with
  | Trade _ _ _ price _ _ _ _ _ _ _ _ _ _ => e_set_reference (Some price) e
  | _ => e
  end.

Definition is_fill (ev : EngineEvent) : bool :=
  match map_engine_event ev with Some (Event_Filled _ _) => true | _ => false end.

Definition handle_new_order (cmd : SequencedCommand) (account client_order_id symbol : Z)
    (side : Side) (price qty : Z) (order_type : OrderType) (time_in_force : TimeInForce)
    (e : MatchingEngine) : Exec MatchingEngine :=
  let new_order := mkNewOrder account symbol client_order_id side price order_type qty time_in_force in
  let! risk_result :=
    match table_get (e_risk_states e) account with
    | Some state => check_new_order new_order (e_limits e) state (e_reference_price e)
    | None => Val (Err UnknownAccount)
    end in
  let e := e_set_metrics (record_risk_latency (risk_elapsed cmd) (e_metrics e)) e in
  match risk_result with
  | Ok _ =>
      let! '(book, engine_events) := apply (e_book e) cmd in
      let e := e_set_book book e in
      let e := foldl (fun e ev => emit ev (note_trade ev e)) e engine_events in
      let n_fills := Z.of_nat (length (List.filter is_fill engine_events)) in
      Val (e_set_metrics (record_order n_fills false (e_metrics e)) e)
  | Err reason =>
      let e := e_set_metrics (record_order 0 true (e_metrics e)) e in
      Val (publish_and_log
             (Event_Rejected (seq_no (sc_seq cmd)) account client_order_id
                (map_risk_reject_reason reason)) e)
  end.

Definition handle_cancel (cmd : SequencedCommand) (e : MatchingEngine) : Exec MatchingEngine :=
  let! '(book, events) := apply (e_book e) cmd in
  Val (foldl (fun e ev => emit ev e) (e_set_book book e) events).

Fixpoint handle_cancels (cmd : SequencedCommand) (account : Z) (order_ids : list Z)
    (e : MatchingEngine) : Exec MatchingEngine :=
  match order_ids with
  | [] => Val e
  | order_id :: ids =>
      let! e := handle_cancel
                  (mkSC (sc_term cmd) (sc_seq cmd) (sc_ts_ns cmd) (Inbound_Cancel account order_id)) e in
      handle_cancels cmd account ids e
  end.

(** The dispatch on the kind of command. *)
Definition handle_kind (cmd : SequencedCommand) (e : MatchingEngine) : Exec MatchingEngine :=
  match sc_cmd cmd with
  | Inbound_NewOrder account client_order_id symbol side price qty order_type time_in_force =>
      handle_new_order cmd account client_order_id symbol side price qty order_type time_in_force e
  | Inbound_Cancel _ _ => handle_cancel cmd e
  | Inbound_Liquidate _ account =>
      handle_cancels cmd account (open_order_ids_for_account (e_book e) account) e
  | Inbound_FreezeAccount account =>
      match table_get (e_risk_states e) account with
      | Some state =>
          let! state := set_frozen true state in
          Val (e_set_states (table_put (e_risk_states e) account state) e)
      | None => Val e
      end
  end.

Definition handle_command (cmd : SequencedCommand) (e : MatchingEngine) : Exec MatchingEngine :=
  if sc_term cmd <? e_highest_term_seen e then
    Val (e_set_term (Z.max (e_highest_term_seen e) (sc_term cmd)) e)
  else
    let! e := handle_kind cmd e in
    Val (e_set_metrics (record_match_latency (match_elapsed cmd) (e_metrics e)) e).

(** One turn of [run] while the engine is running, with the inbound ring. *)
Definition IN_CAP : nat := Z.to_nat 4096.

Definition run_turn (inbound : Spsc.Queue (T := SequencedCommand)) (e : MatchingEngine) :
    Exec (Spsc.Queue (T := SequencedCommand) * MatchingEngine) :=
  let! '(popped, inbound) := Spsc.try_pop IN_CAP inbound in
  match popped with
  | Some cmd => let! e := handle_command cmd e in Val (inbound, e)
  | None => Val (inbound, e_set_metrics (record_idle_spin (e_metrics e)) e)
  end.

(** A sequence of commands, as the loop of [run] handles them while running. *)
Fixpoint handle_all (cmds : list SequencedCommand) (e : MatchingEngine) : Exec MatchingEngine :=
  match cmds with
  | [] => Val e
  | cmd :: rest =>
      if e_running e then let! e := handle_command cmd e in handle_all rest e else Val e
  end.
End Engine.
