(* ===== verification/EngineTheorems.v ===== *)
(** * EngineTheorems: what the matching engine guarantees

    The Tier-0 decision, the durability order (WAL before publication), what a
    command leaves in the log, the fate of refused and frozen accounts, and the
    liquidation of an account.  The book's part rests on BookRefine.v. *)

From S2P Require Import Prelude CoreTypes SlotMap OrderBook BookSpec BookMarket BookRep BookInv.
From S2P Require Import BookRefine BookTheorems Seqlock RingBuffer Metrics Engine.
#[local] Open Scope Z_scope.

Section EngineFacts.
Context {SM : SlotMapApi} {SML : SlotMapLaws SM} {W : Type} {WW : WalWriter W}.
Context (out_env : nat -> Spsc.Queue (T := Event) -> Spsc.Queue (T := Event))
        (risk_env : nat -> Spmc.Queue (T := EngineEvent) -> Spmc.Queue (T := EngineEvent))
        (risk_elapsed match_elapsed : SequencedCommand -> Z).
#[local] Abbreviation Engine := (MatchingEngine (W := W)).
#[local] Abbreviation emitE := (emit out_env risk_env).
#[local] Abbreviation pubE := (publish_and_log out_env).
#[local] Abbreviation handleE := (handle_command out_env risk_env risk_elapsed match_elapsed).
#[local] Abbreviation kindE := (handle_kind out_env risk_env risk_elapsed).
Implicit Types (e : Engine) (ev : EngineEvent) (cmd : SequencedCommand).

Definition logged e : list Event := wal_events (e_wal e).

(** The open order with a client id on the engine's book. *)
Definition engine_order e (id : Z) : option aorder := client_order (e_book e) id.

(** The engine would drop the command as a deposed leader's. *)
Definition is_stale cmd e : bool := sc_term cmd <? e_highest_term_seen e.

(** ** Publication *)

(** What publishing changes: the log and the published events grow, or the
    engine stops; the book, the table, the reference price and the term stay. *)
Record out_step e e' (evs : list Event) : Prop := {
  os_book : e_book e' = e_book e;
  os_states : e_risk_states e' = e_risk_states e;
  os_term : e_highest_term_seen e' = e_highest_term_seen e;
  os_limits : e_limits e' = e_limits e;
  os_logged : exists l, logged e' = logged e ++ l /\ l `sublist_of` evs
     /\ (e_running e' = true -> l = evs);
  os_published : exists l p, logged e' = logged e ++ l /\ e_published e' = e_published e ++ p
     /\ p `sublist_of` l;
  os_running : e_running e' = true -> e_running e = true
}.

Lemma out_step_refl e : out_step e e [].
Proof.
  split; try done.
  - exists []. rewrite app_nil_r. done.
  - exists [], []. by rewrite !app_nil_r.
Qed.

Lemma out_step_trans e1 e2 e3 evs1 evs2 :
  out_step e1 e2 evs1 -> out_step e2 e3 evs2 -> out_step e1 e3 (evs1 ++ evs2).
Proof.
  intros [B1 S1 T1 L1 (l1 & G1 & U1 & R1) (m1 & p1 & M1 & P1 & Q1) N1]
         [B2 S2 T2 L2 (l2 & G2 & U2 & R2) (m2 & p2 & M2 & P2 & Q2) N2].
  split; try congruence; [..|by auto].
  - exists (l1 ++ l2). rewrite G2, G1, app_assoc. split_and!; [done|by apply sublist_app|].
    intros Hr. rewrite (R2 Hr), R1 by auto. done.
  - exists (m1 ++ m2), (p1 ++ p2). rewrite M2, M1, P2, P1, !app_assoc.
    split_and!; try done. by apply sublist_app.
Qed.

Lemma out_step_metrics m e e' evs : out_step e e' evs -> out_step e (e_set_metrics m e') evs.
Proof. intros []. by split. Qed.

Lemma publish_and_log_step out e : out_step e (pubE out e) [out].
Proof.
  unfold publish_and_log. destruct (append_event out (e_wal e)) as [[[]|err] w] eqn:Ha.
  - apply append_event_ok in Ha.
    destruct (push_retry _ _ _ _ _) as [[] q]; split; simpl; try done; unfold logged; simpl.
    + exists [out]. rewrite Ha. done.
    + exists [out], [out]. rewrite Ha. done.
    + exists [out]. rewrite Ha. done.
    + exists [out], []. rewrite Ha, app_nil_r. split_and!; try done. apply sublist_nil_l.
  - apply append_event_err in Ha. split; simpl; try done; unfold logged; simpl.
    + exists []. rewrite Ha, app_nil_r. split_and!; try done. apply sublist_nil_l.
    + exists [], []. by rewrite Ha, !app_nil_r.
Qed.

Definition out_events (evs : list EngineEvent) : list Event := omap map_engine_event evs.

Lemma out_events_cons ev evs : out_events (ev :: evs) = out_events [ev] ++ out_events evs.
Proof. unfold out_events. by rewrite <- omap_app. Qed.

Lemma emit_step ev e : out_step e (emitE ev e) (out_events [ev]).
Proof.
  unfold emit, publish_to_risk. destruct (push_retry _ _ _ _ _) as [ok q]. unfold out_events. simpl.
  set (e1 := e_set_risk_out q e).
  assert (H1 : out_step e e1 []) by (destruct (out_step_refl e); by split).
  destruct (map_engine_event ev) as [out|]; [|done].
  apply (out_step_trans e e1 _ [] [out] H1), publish_and_log_step.
Qed.

Lemma note_trade_step ev e : out_step e (note_trade ev e) [].
Proof. destruct (out_step_refl e), ev; simpl; by split. Qed.

Lemma emit_all_step evs e :
  out_step e (foldl (fun e ev => emitE ev e) e evs) (out_events evs).
Proof.
  revert e. induction evs as [|ev evs IH]; intros e; [apply out_step_refl|]. cbn [foldl].
  rewrite out_events_cons.
  eapply out_step_trans; [apply emit_step|apply IH].
Qed.

Lemma emit_note_all_step evs e :
  out_step e (foldl (fun e ev => emitE ev (note_trade ev e)) e evs) (out_events evs).
Proof.
  revert e. induction evs as [|ev evs IH]; intros e; [apply out_step_refl|]. cbn [foldl].
  rewrite out_events_cons.
  eapply out_step_trans; [|apply IH].
  apply (out_step_trans e (note_trade ev e) _ [] (out_events [ev])); [apply note_trade_step|apply emit_step].
Qed.

(** ** Tier-0 *)

Definition tier0_pass (order : NewOrder) (l : Tier0Limits) (s : AccountRiskSnapshot)
    (reference_price : option Z) : bool :=
  negb (halted s) && negb (frozen s) && (no_qty order <=? max_order_qty l)
  && (notional_of (no_price order) (no_qty order) <=? t0_max_order_notional l)
  && negb ((0 <? price_band_bps l)
           && match reference_price with
              | Some r => price_out_of_band (no_price order) r (price_band_bps l)
              | None => false
              end)
  && (open_order_count s <? max_open_orders l)
  && (wrap_i64 (Z.abs (projected_position (position s) (no_side order) (no_qty order)))
        <=? max_position_abs l).

Lemma check_new_order_ok order l st rp :
  quiescent st ->
  exists r, check_new_order order l st rp = Val r
    /\ (r = Ok tt <-> tier0_pass order l (data st) rp = true)
    /\ (halted (data st) = true -> r = Err AccountHalted)
    /\ (halted (data st) = false -> frozen (data st) = true -> r = Err AccountFrozen).
Proof.
  intros Hq. unfold check_new_order, is_halted, is_frozen, tier0_pass. rewrite (read_ok st Hq). simpl.
  destruct (halted (data st)); simpl; [by eexists; split_and!|].
  destruct (frozen (data st)); simpl; [by eexists; split_and!|].
  destruct (Z.ltb_spec (max_order_qty l) (no_qty order)), (Z.leb_spec (no_qty order) (max_order_qty l));
    simpl; try lia; [by eexists; split_and!|].
  destruct (Z.ltb_spec (t0_max_order_notional l) (notional_of (no_price order) (no_qty order))),
    (Z.leb_spec (notional_of (no_price order) (no_qty order)) (t0_max_order_notional l));
    simpl; try lia; [by eexists; split_and!|].
  destruct ((0 <? price_band_bps l) && _); simpl; [by eexists; split_and!|].
  destruct (Z.leb_spec (max_open_orders l) (open_order_count (data st))),
    (Z.ltb_spec (open_order_count (data st)) (max_open_orders l)); simpl; try lia; [by eexists; split_and!|].
  destruct (Z.ltb_spec (max_position_abs l)
    (wrap_i64 (Z.abs (projected_position (position (data st)) (no_side order) (no_qty order))))),
    (Z.leb_spec (wrap_i64 (Z.abs (projected_position (position (data st)) (no_side order) (no_qty order))))
       (max_position_abs l)); simpl; try lia; by eexists; split_and!.
Qed.

Lemma notional_of_exact price qty :
  in_i64 price -> in_u64 qty ->
  notional_of price qty = Z.min u64_max (Z.max 0 (Z.quot (price * qty) 100000000)).
Proof.
  intros Hp Hq. unfold notional_of. destruct (Z.leb_spec price 0).
  - assert (Z.quot (price * qty) 100000000 <= 0); [|ilia].
    apply Z.quot_le_upper_bound; [lia|]. unfold in_u64 in Hq. nia.
  - unfold saturating_mul_i128. rewrite Z.min_r, Z.max_r; unfold_ints; [..|nia|nia].
    repeat case_match; lia.
Qed.

(** ** Commands *)

Lemma engine_book_apply e cmd cfg last :
  book_reach cfg (e_book e) last -> last < sc_seq cmd -> cmd_ok cmd ->
  exists b' evs, apply (e_book e) cmd = Val (b', evs).
Proof.
  intros Hr Hlt Hc. destruct (reach_apply cfg _ last cmd Hr Hlt Hc) as (A & b' & _ & _ & _ & H & _). eauto.
Qed.

Lemma handle_cancel_step cmd e b' evs :
  apply (e_book e) cmd = Val (b', evs) ->
  exists e', handle_cancel out_env risk_env cmd e = Val e'
    /\ out_step (e_set_book b' e) e' (out_events evs).
Proof.
  intros Hap. unfold handle_cancel. rewrite Hap. simpl. eexists. split; [done|]. apply emit_all_step.
Qed.

Lemma cancels_step cfg last cmd account ids e :
  book_inv cfg (e_book e) last -> NoDup ids ->
  (forall id, id ∈ ids -> exists o, client_order (e_book e) id = Some o /\ a_account o = account) ->
  exists e' evs, handle_cancels out_env risk_env cmd account ids e = Val e'
    /\ book_inv cfg (e_book e') last
    /\ (forall id, id ∈ ids -> client_order (e_book e') id = None)
    /\ (forall id, id ∉ ids -> client_order (e_book e') id = client_order (e_book e) id)
    /\ out_step (e_set_book (e_book e') e) e' evs /\ evs = [].
Proof.
  revert e. induction ids as [|id ids IH]; intros e Hinv Hnd Hids; cbn [handle_cancels].
  { exists e, []. split_and!; try done; [set_solver|]. destruct (out_step_refl e). by split. }
  apply NoDup_cons in Hnd as [Hid Hnd].
  destruct (cancel_inv cfg (e_book e) last (sc_seq cmd) account id Hinv) as (b1 & evs & Hap & Heff & Hinv1).
  destruct (handle_cancel_step (mkSC (sc_term cmd) (sc_seq cmd) (sc_ts_ns cmd) (Inbound_Cancel account id))
    e b1 evs Hap) as (e1 & -> & Hs1). cbn [ebind].
  destruct (Hids id) as (o & Ho & Hacc); [left|].
  unfold cancel_effect in Heff. rewrite Ho, decide_True in Heff by done.
  destruct Heff as (-> & Hnone & Hoth). change (out_events [Cancelled (sc_seq cmd) id]) with (@nil Event) in Hs1.
  pose proof (os_book _ _ _ Hs1) as Hb1. simpl in Hb1.
  destruct (IH e1) as (e2 & evs2 & -> & Hinv2 & Hin2 & Hout2 & Hs2 & ->); [by rewrite Hb1|done| |].
  { intros id' Hin. rewrite Hb1, Hoth by set_solver. apply Hids. by right. }
  exists e2, []. split_and!; try done.
  - intros id' [->|Hin]%elem_of_cons; [|by apply Hin2]. rewrite (Hout2 id Hid), Hb1. done.
  - intros id' Hni. rewrite Hout2, Hb1 by set_solver. apply Hoth. set_solver.
  - assert (Hs1' : out_step (e_set_book (e_book e2) e) (e_set_book (e_book e2) e1) [])
      by (destruct Hs1; by split).
    exact (out_step_trans _ _ _ [] [] Hs1' Hs2).
Qed.

(** ** Theorems *)

(** Tier-0 on the hot path: on a readable cell the check returns, accepts
    exactly the orders that satisfy every limit (account neither halted nor
    frozen, quantity, notional, price band, open orders, projected position),
    and the notional it compares is the true price times quantity in quote
    units, capped to the u64 range. *)
Theorem tier0_check_exact order l st rp :
  quiescent st -> in_i64 (no_price order) -> in_u64 (no_qty order) ->
  exists r, check_new_order order l st rp = Val r
    /\ (r = Ok tt <-> tier0_pass order l (data st) rp = true)
    /\ (halted (data st) = true -> r = Err AccountHalted)
    /\ (halted (data st) = false -> frozen (data st) = true -> r = Err AccountFrozen)
    /\ notional_of (no_price order) (no_qty order)
       = Z.min u64_max (Z.max 0 (Z.quot (no_price order * no_qty order) 100000000)).
Proof.
  intros Hq Hp Hqt. destruct (check_new_order_ok order l st rp Hq) as (r & ? & ? & ? & ?).
  exists r. split_and!; try done. by apply notional_of_exact.
Qed.

(** Recording how long a command took changes a histogram only. *)
Definition timed cmd e : Engine :=
  e_set_metrics (record_match_latency (match_elapsed cmd) (e_metrics e)) e.
Definition risk_timed cmd e : Engine :=
  e_set_metrics (record_risk_latency (risk_elapsed cmd) (e_metrics e)) e.

(** A command that is not stale. *)
Lemma handle_live cmd e :
  e_highest_term_seen e <= sc_term cmd -> handleE cmd e = let! e := kindE cmd e in Val (timed cmd e).
Proof. intros H. unfold handle_command. by rewrite (proj2 (Z.ltb_ge _ _) H). Qed.

Lemma handle_live_val cmd e e' :
  e_highest_term_seen e <= sc_term cmd -> kindE cmd e = Val e' -> handleE cmd e = Val (timed cmd e').
Proof. intros H Hk. by rewrite handle_live, Hk. Qed.

(** A new order, by what Tier-0 says: applied and its events put out, or one
    reject put out. *)
Definition tier0_of cmd account order e : Exec (Result unit RiskRejectReason) :=
  match table_get (e_risk_states e) account with
  | Some state => check_new_order order (e_limits e) state (e_reference_price e)
  | None => Val (Err UnknownAccount)
  end.

Lemma new_order_accepted term seq ts account coid symbol side price qty ot tif e b' evs :
  let cmd := mkSC term seq ts (Inbound_NewOrder account coid symbol side price qty ot tif) in
  e_highest_term_seen e <= term ->
  tier0_of cmd account (mkNewOrder account symbol coid side price ot qty tif) e = Val (Ok tt) ->
  apply (e_book e) cmd = Val (b', evs) ->
  exists e', handleE cmd e = Val e' /\ out_step (e_set_book b' e) e' (out_events evs).
Proof.
  intros cmd Ht Hc Hap. rewrite handle_live by done. unfold handle_kind. cbn [sc_cmd cmd].
  unfold handle_new_order. unfold tier0_of in Hc. rewrite Hc. cbn [ebind].
  change (e_book (e_set_metrics _ e)) with (e_book e). fold cmd. rewrite Hap. cbn [ebind].
  eexists. split; [done|]. fold (risk_timed cmd e). do 2 apply out_step_metrics.
  destruct (emit_note_all_step evs (e_set_book b' (risk_timed cmd e))). by split.
Qed.

Lemma new_order_refused term seq ts account coid symbol side price qty ot tif e reason :
  let cmd := mkSC term seq ts (Inbound_NewOrder account coid symbol side price qty ot tif) in
  e_highest_term_seen e <= term ->
  tier0_of cmd account (mkNewOrder account symbol coid side price ot qty tif) e = Val (Err reason) ->
  exists e', handleE cmd e = Val e'
    /\ out_step e e' [Event_Rejected (seq_no seq) account coid (map_risk_reject_reason reason)].
Proof.
  intros cmd Ht Hc. rewrite handle_live by done. unfold handle_kind. cbn [sc_cmd cmd].
  unfold handle_new_order. unfold tier0_of in Hc. rewrite Hc. cbn [ebind].
  eexists. split; [done|]. apply out_step_metrics.
  match goal with |- out_step e (pubE ?ev ?e1) _ => destruct (publish_and_log_step ev e1); by split end.
Qed.

Lemma handle_kind_out cmd e e' :
  kindE cmd e = Val e' ->
  exists l p, logged e' = logged e ++ l /\ e_published e' = e_published e ++ p /\ p `sublist_of` l.
Proof.
  assert (Hlift : forall e1 e2 evs, logged e1 = logged e -> e_published e1 = e_published e ->
    out_step e1 e2 evs ->
    exists l p, logged e2 = logged e ++ l /\ e_published e2 = e_published e ++ p /\ p `sublist_of` l).
  { intros e1 e2 evs H1 H2 Hs. destruct (os_published _ _ _ Hs) as (l & p & ? & ? & ?).
    exists l, p. by rewrite <- H1, <- H2. }
  assert (Hnil : exists l p, logged e = logged e ++ l /\ e_published e = e_published e ++ p /\ p `sublist_of` l).
  { exists [], []. by rewrite !app_nil_r. }
  unfold handle_kind. destruct (sc_cmd cmd) as [account coid symbol side price qty ot tif|account oid|symbol account|account].
  - unfold handle_new_order. intros (risk & _ & H)%ebind_val_inv. destruct risk as [[]|reason].
    + apply ebind_val_inv in H as ([b' evs] & _ & H). injection H as <-.
      by apply (Hlift (e_set_book b' (risk_timed cmd e)) _ (out_events evs)); [..|apply out_step_metrics, emit_note_all_step].
    + injection H as <-. by eapply Hlift; [..|apply publish_and_log_step].
  - unfold handle_cancel. intros ([b' evs] & _ & H)%ebind_val_inv. injection H as <-.
    by eapply (Hlift (e_set_book b' e)); [..|apply emit_all_step].
  - generalize (open_order_ids_for_account (e_book e) account) as ids.
    assert (Hg : forall ids e1, (exists l p, logged e1 = logged e ++ l
        /\ e_published e1 = e_published e ++ p /\ p `sublist_of` l) ->
      handle_cancels out_env risk_env cmd account ids e1 = Val e' ->
      exists l p, logged e' = logged e ++ l /\ e_published e' = e_published e ++ p /\ p `sublist_of` l).
    { induction ids as [|id ids IH]; intros e1 Hl; cbn [handle_cancels]; [intros [= <-]; done|].
      intros (e2 & H1 & H2)%ebind_val_inv. eapply IH; [|exact H2].
      unfold handle_cancel in H1. apply ebind_val_inv in H1 as ([b' evs] & _ & H1).
      injection H1 as <-. destruct Hl as (l & p & L1 & P1 & S1).
      destruct (os_published _ _ _ (emit_all_step evs (e_set_book b' e1))) as (l2 & p2 & L2 & P2 & S2).
      exists (l ++ l2), (p ++ p2). rewrite L2, P2. unfold logged in *. simpl.
      rewrite L1, P1, !app_assoc. split_and!; try done. by apply sublist_app. }
    intros ids H. by eapply Hg.
  - destruct (table_get _ _); [|by intros [= <-]].
    intros (st & _ & H)%ebind_val_inv. by injection H as <-.
Qed.

Lemma handle_command_out cmd e e' :
  handleE cmd e = Val e' ->
  exists l p, logged e' = logged e ++ l /\ e_published e' = e_published e ++ p /\ p `sublist_of` l.
Proof.
  unfold handle_command. destruct (_ <? _).
  - intros [= <-]. exists [], []. by rewrite !app_nil_r.
  - intros (e1 & H & [= <-])%ebind_val_inv. exact (handle_kind_out cmd e e1 H).
Qed.

(** C16. Durability order: whatever a command does, the log and the published
    stream only grow, and the events it publishes are, in order, among the
    events it has logged: nothing is published that is not in the WAL. *)
Theorem engine_wal_before_publish cmds e e' :
  handle_all out_env risk_env risk_elapsed match_elapsed cmds e = Val e' ->
  exists l p, logged e' = logged e ++ l /\ e_published e' = e_published e ++ p /\ p `sublist_of` l.
Proof.
  revert e. induction cmds as [|cmd cmds IH]; intros e; cbn [handle_all].
  { intros [= <-]. exists [], []. by rewrite !app_nil_r. }
  destruct (e_running e).
  2:{ intros [= <-]. exists [], []. by rewrite !app_nil_r. }
  intros (e1 & H1 & H2)%ebind_val_inv.
  destruct (handle_command_out cmd e e1 H1) as (l1 & p1 & L1 & P1 & S1).
  destruct (IH e1 H2) as (l2 & p2 & L2 & P2 & S2).
  exists (l1 ++ l2), (p1 ++ p2). rewrite L2, L1, P2, P1, !app_assoc.
  split_and!; try done. by apply sublist_app.
Qed.

(** A new order on a reachable book: the handler returns; an order Tier-0
    refuses leaves the book alone and is answered by one reject with the mapped
    reason; an accepted one is applied to the book, and while the engine is
    running the log holds exactly the mapped events of the book, in order. *)
Theorem engine_new_order cfg last e term seq ts account coid symbol side price qty ot tif :
  book_reach cfg (e_book e) last -> last < seq -> in_i64 price -> in_u64 qty ->
  table_ok (e_risk_states e) -> e_highest_term_seen e <= term ->
  let cmd := mkSC term seq ts (Inbound_NewOrder account coid symbol side price qty ot tif) in
  let order := mkNewOrder account symbol coid side price ot qty tif in
  let passes := match table_get (e_risk_states e) account with
                | Some st => tier0_pass order (e_limits e) (data st) (e_reference_price e)
                | None => false
                end in
  exists e', handleE cmd e = Val e' /\
    if passes then
      exists evs, apply (e_book e) cmd = Val (e_book e', evs)
        /\ (e_running e' = true -> logged e' = logged e ++ out_events evs)
    else
      e_book e' = e_book e /\ exists reason,
        (e_running e' = true ->
         logged e' = logged e ++ [Event_Rejected (seq_no seq) account coid (map_risk_reject_reason reason)]).
Proof.
  intros Hr Hlt Hp Hq Ht Hterm cmd order passes.
  assert (Hchk : exists r, tier0_of cmd account order e = Val r /\ (r = Ok tt <-> passes = true)).
  { unfold passes, tier0_of. destruct (table_get (e_risk_states e) account) as [st|] eqn:Hst; [|by eexists; split].
    destruct (check_new_order_ok order (e_limits e) st (e_reference_price e)) as (r & ? & ? & _);
      [by eapply table_get_ok|]. by exists r. }
  destruct Hchk as (r & Hchk & Hiff). destruct r as [[]|reason].
  - rewrite (proj1 Hiff eq_refl).
    destruct (engine_book_apply e cmd cfg last Hr Hlt (conj Hp Hq)) as (b' & evs & Hap).
    destruct (new_order_accepted _ _ _ _ _ _ _ _ _ _ _ _ _ _ Hterm Hchk Hap) as (e' & He & Hs).
    exists e'. split; [done|]. exists evs. rewrite (os_book _ _ _ Hs). split; [done|].
    intros Hrun. destruct (os_logged _ _ _ Hs) as (l & Hl & _ & Heq). by rewrite Hl, Heq.
  - destruct (new_order_refused _ _ _ _ _ _ _ _ _ _ _ _ _ Hterm Hchk) as (e' & He & Hs).
    destruct passes eqn:Hpass; [by destruct Hiff as [_ Hiff]; specialize (Hiff eq_refl)|].
    exists e'. split; [done|]. split; [exact (os_book _ _ _ Hs)|]. exists reason. intros Hrun.
    destruct (os_logged _ _ _ Hs) as (l & Hl & _ & Heq). by rewrite Hl, Heq.
Qed.

(** Freezing: after [FreezeAccount] every new order of that account is
    refused by the engine and never reaches the book. *)
Theorem engine_freeze_blocks e term1 seq1 ts1 account st term seq ts coid symbol side price qty ot tif :
  table_ok (e_risk_states e) -> 0 <= account -> table_get (e_risk_states e) account = Some st ->
  e_highest_term_seen e <= term1 -> e_highest_term_seen e <= term ->
  exists e1 e2, handleE (mkSC term1 seq1 ts1 (Inbound_FreezeAccount account)) e = Val e1
    /\ handleE (mkSC term seq ts (Inbound_NewOrder account coid symbol side price qty ot tif)) e1 = Val e2
    /\ e_book e2 = e_book e
    /\ (e_running e2 = true ->
        logged e2 = logged e ++ [Event_Rejected (seq_no seq) account coid RR_RiskLimitBreach]).
Proof.
  intros Ht Ha Hst Ht1 Ht2. assert (Hq : quiescent st) by (by eapply table_get_ok).
  set (freeze := mkSC term1 seq1 ts1 (Inbound_FreezeAccount account)).
  set (r0 := data st).
  set (st' := update (mkSnap (balance r0) (used_margin r0) true (halted r0) (position r0) (open_order_count r0)) st).
  set (e1 := e_set_states (table_put (e_risk_states e) account st') e).
  assert (He1 : handleE freeze e = Val (timed freeze e1)).
  { apply handle_live_val; [done|]. unfold handle_kind. cbn [sc_cmd freeze]. rewrite Hst.
    unfold set_frozen. by rewrite (read_ok st Hq). }
  assert (Hq' : quiescent st') by (by apply quiescent_update).
  exists (timed freeze e1). destruct (check_new_order_ok (mkNewOrder account symbol coid side price ot qty tif)
    (e_limits e1) st' (e_reference_price e1) Hq') as (r & Hchk & _ & Hh & Hf).
  assert (Hr : exists reason, r = Err reason /\ map_risk_reject_reason reason = RR_RiskLimitBreach).
  { destruct (halted (data st')) eqn:Eh; [exists AccountHalted; by rewrite Hh|].
    exists AccountFrozen. by rewrite Hf. }
  destruct Hr as (reason & -> & Hmap).
  destruct (new_order_refused term seq ts account coid symbol side price qty ot tif (timed freeze e1) reason Ht2)
    as (e2 & He2 & Hs).
  { unfold tier0_of. cbn [e_risk_states timed e_set_metrics e1 e_set_states].
    rewrite table_get_put, decide_True by (done || by rewrite Hst). exact Hchk. }
  exists e2. split_and!; [done|done|exact (os_book _ _ _ Hs)|]. intros Hrun. rewrite <- Hmap.
  destruct (os_logged _ _ _ Hs) as (l & Hl & _ & Heq). specialize (Heq Hrun). subst l. exact Hl.
Qed.

(** C17. Liquidation: on a reachable book the handler returns, no order of the
    account is left open, and every order of the other accounts is untouched. *)
Theorem engine_liquidation_cancels_all cfg last e term seq ts symbol account :
  book_reach cfg (e_book e) last -> e_highest_term_seen e <= term ->
  exists e', handleE (mkSC term seq ts (Inbound_Liquidate symbol account)) e = Val e'
    /\ open_order_ids_for_account (e_book e') account = []
    /\ (forall id o, engine_order e id = Some o -> a_account o <> account -> engine_order e' id = Some o)
    /\ (forall id o, engine_order e' id = Some o -> engine_order e id = Some o).
Proof.
  intros Hr%reach_inv Hterm. unfold engine_order. rewrite handle_live by done.
  unfold handle_kind. cbn [sc_cmd].
  destruct (account_orders_inv cfg (e_book e) last account Hr) as (Hnd & Hin & _).
  destruct (cancels_step cfg last (mkSC term seq ts (Inbound_Liquidate symbol account)) account _ e Hr Hnd)
    as (e' & evs & Hap & Hinv' & Hgone & Hkeep & _); [intros id; apply Hin|].
  exists (timed (mkSC term seq ts (Inbound_Liquidate symbol account)) e'). split; [by rewrite Hap|].
  change (e_book (timed _ e')) with (e_book e').
  assert (Hsub : forall id o, client_order (e_book e') id = Some o -> client_order (e_book e) id = Some o).
  { intros id o Ho. destruct (decide (id ∈ open_order_ids_for_account (e_book e) account)) as [H|H].
    - by rewrite (Hgone id H) in Ho.
    - by rewrite <- (Hkeep id H). }
  split_and!; [|..|done].
  - destruct (open_order_ids_for_account (e_book e') account) as [|id ids] eqn:E; [done|].
    destruct (account_orders_inv cfg (e_book e') last account Hinv') as (_ & Hin' & _).
    destruct (proj1 (Hin' id)) as (o & Ho & Hacc); [rewrite E; left|].
    assert (id ∈ open_order_ids_for_account (e_book e) account) by (apply Hin; eauto).
    by rewrite Hgone in Ho.
  - intros id o Ho Hacc. rewrite Hkeep; [done|]. intros (o' & Ho' & ?)%Hin. congruence.
Qed.

(** Handling a command that is not stale leaves the highest term alone. *)
Lemma handle_cancel_term cmd e e' :
  handle_cancel out_env risk_env cmd e = Val e' -> e_highest_term_seen e' = e_highest_term_seen e.
Proof.
  unfold handle_cancel. intros ([b' evs] & _ & H)%ebind_val_inv. injection H as <-.
  exact (os_term _ _ _ (emit_all_step evs (e_set_book b' e))).
Qed.

Lemma handle_command_term cmd e e' :
  is_stale cmd e = false -> handleE cmd e = Val e' -> e_highest_term_seen e' = e_highest_term_seen e.
Proof.
  unfold is_stale. intros Hst. rewrite handle_live by (apply Z.ltb_ge; exact Hst).
  intros (e1 & H & [= <-])%ebind_val_inv. cbn [e_highest_term_seen timed e_set_metrics]. clear Hst. revert H.
  unfold handle_kind. destruct (sc_cmd cmd) as [account coid symbol side price qty ot tif|account oid|symbol account|account].
  - unfold handle_new_order. intros (risk & _ & H)%ebind_val_inv. destruct risk as [[]|reason].
    + apply ebind_val_inv in H as ([b' evs] & _ & H). injection H as <-.
      exact (os_term _ _ _ (emit_note_all_step evs (e_set_book b' (risk_timed cmd e)))).
    + injection H as <-. exact (os_term _ _ _ (publish_and_log_step _ _)).
  - apply handle_cancel_term.
  - generalize (open_order_ids_for_account (e_book e) account) as ids. intros ids. revert e.
    induction ids as [|id ids IH]; intros e; cbn [handle_cancels]; [by intros [= <-]|].
    intros (e2 & Hc%handle_cancel_term & H%IH)%ebind_val_inv. congruence.
  - destruct (table_get _ _); [|by intros [= <-]]. intros (st & _ & H)%ebind_val_inv. by injection H as <-.
Qed.

(** A turn of [run] handles the oldest command of the inbound ring, and on an
    empty ring only counts an idle spin. *)
Lemma run_turn_spec inbound pu n e :
  cap_ok IN_CAP -> Spsc.queue_inv IN_CAP inbound pu n ->
  match pu !! n with
  | None => run_turn out_env risk_env risk_elapsed match_elapsed inbound e
      = Val (inbound, e_set_metrics (record_idle_spin (e_metrics e)) e)
  | Some cmd => exists inbound', Spsc.queue_inv IN_CAP inbound' pu (S n)
      /\ run_turn out_env risk_env risk_elapsed match_elapsed inbound e
         = let! e' := handleE cmd e in Val (inbound', e')
  end.
Proof.
  intros Hc Hq. pose proof (Spsc.try_pop_hist IN_CAP Hc inbound pu n Hq) as Hp. unfold run_turn.
  destruct (pu !! n) as [cmd|].
  - destruct Hp as (q' & -> & Hq'). by exists q'.
  - by rewrite Hp.
Qed.

(** The fence never closes: from a new engine, whatever commands arrive
    (their terms are unsigned), the highest term stays 0, so no later command
    is ever dropped as stale, also one of a deposed leader's lower term. *)
Theorem engine_fence_inactive e cmds e' :
  e_highest_term_seen e = 0 -> Forall (fun cmd => 0 <= sc_term cmd) cmds ->
  handle_all out_env risk_env risk_elapsed match_elapsed cmds e = Val e' ->
  e_highest_term_seen e' = 0 /\ forall cmd, 0 <= sc_term cmd -> is_stale cmd e' = false.
Proof.
  intros H0 Hc Hall. assert (He' : e_highest_term_seen e' = 0).
  { revert e H0 Hall. induction Hc as [|cmd cmds Ht _ IH]; intros e H0; cbn [handle_all]; [by intros [= <-]|].
    destruct (e_running e); [|by intros [= <-]]. intros (e1 & H1 & H2)%ebind_val_inv. apply (IH e1); [|done].
    rewrite <- H0. apply (handle_command_term cmd); [|done]. unfold is_stale. apply Z.ltb_ge. lia. }
  split; [done|]. intros cmd Ht. unfold is_stale. apply Z.ltb_ge. lia.
Qed.

(** A successful cancel is never logged or published: the book removes the
    order, but the event it emits has no wire form, so the log and the published
    stream are exactly what they were. *)
Theorem engine_cancel_silent cfg last e term seq ts account oid o :
  book_reach cfg (e_book e) last -> e_highest_term_seen e <= term ->
  client_order (e_book e) oid = Some o -> a_account o = account ->
  exists e', handleE (mkSC term seq ts (Inbound_Cancel account oid)) e = Val e'
    /\ client_order (e_book e') oid = None
    /\ logged e' = logged e /\ e_published e' = e_published e.
Proof.
  intros Hr%reach_inv Hterm Ho Hacc. rewrite handle_live by done. unfold handle_kind. cbn [sc_cmd].
  destruct (cancel_inv cfg (e_book e) last seq account oid Hr) as (b1 & evs & Hap & Heff & _).
  destruct (handle_cancel_step (mkSC term seq ts (Inbound_Cancel account oid)) e b1 evs Hap)
    as (e1 & -> & Hs). eexists. split; [done|]. unfold timed. apply (out_step_metrics
    (record_match_latency (match_elapsed (mkSC term seq ts (Inbound_Cancel account oid))) (e_metrics e1))) in Hs.
  unfold cancel_effect in Heff. rewrite Ho, decide_True in Heff by done.
  destruct Heff as (-> & Hnone & _). change (out_events [Cancelled seq oid]) with (@nil Event) in Hs.
  rewrite (os_book _ _ _ Hs). split; [done|].
  destruct (os_logged _ _ _ Hs) as (l & Hl & Hsub & _). apply sublist_nil_r in Hsub as ->.
  destruct (os_published _ _ _ Hs) as (l' & p & Hl' & Hp & Hsp).
  rewrite app_nil_r in Hl. assert (l' = []) as ->.
  { rewrite Hl in Hl'. by eapply app_inv_head; rewrite app_nil_r. }
  apply sublist_nil_r in Hsp as ->. rewrite Hl, Hp. by rewrite app_nil_r.
Qed.
End EngineFacts.

(** ** Witnesses: an engine on the demo book, with an unbounded in-memory log *)

Module EngineDemo.
Import GmapSlotMap.

#[export] Instance list_wal : WalWriter (list Event).
Proof.
  refine {| WalErr := unit; append_event ev w := (Ok tt, w ++ [ev]); wal_events w := w |}.
  - intros w ev w' [= <-]. reflexivity.
  - intros w ev err w' [=].
Defined.

Definition out_idle (n : nat) (q : Spsc.Queue (T := Event)) := q.
Definition risk_idle (n : nat) (q : Spmc.Queue (T := EngineEvent)) := q.
Definition instant (_ : SequencedCommand) : Z := 250.

Definition engine : MatchingEngine (W := list Event) :=
  MatchingEngine_new Tier0Limits_default BookDemo.book (Spsc.spsc_queue OUT_CAP)
    (Spmc.spmc_queue RISK_FANOUT_CAP 1) (Table_new 32) [].

Lemma demo_table_ok : table_ok (e_risk_states engine).
Proof. apply table_new_ok. Qed.

#[local] Opaque BookDemo.book OUT_CAP RISK_FANOUT_CAP.

Lemma tier0_check_exact_witness :
  exists r, check_new_order (mkNewOrder 3 1 7 Buy 103 Limit 6 Gtc) Tier0Limits_default
              AccountRiskState_new None = Val r.
Proof.
  destruct (tier0_check_exact (mkNewOrder 3 1 7 Buy 103 Limit 6 Gtc) Tier0Limits_default
    AccountRiskState_new None quiescent_new BookDemo.price103 BookDemo.qty6) as (r & H & _).
  exists r. exact H.
Defined.

(** An order of an account outside the table: refused, logged, published. *)
Definition unknown : SequencedCommand :=
  mkSC 1 5 0 (Inbound_NewOrder 99 5 1 Buy 103 6 Limit Gtc).
Definition after_unknown : MatchingEngine (W := list Event) :=
  timed instant unknown (publish_and_log out_idle (Event_Rejected 5 99 5 RR_RiskLimitBreach)
    (e_set_metrics (record_order 0 true (record_risk_latency 250 EngineMetrics_new)) engine)).
Lemma unknown_run : handle_all out_idle risk_idle instant instant [unknown] engine = Val after_unknown.
Proof. reflexivity. Qed.

Lemma engine_wal_before_publish_witness :
  exists l p, logged after_unknown = logged engine ++ l
    /\ e_published after_unknown = e_published engine ++ p /\ p `sublist_of` l.
Proof.
  exact (engine_wal_before_publish out_idle risk_idle instant instant [unknown] engine after_unknown unknown_run).
Defined.

Lemma engine_new_order_witness :
  exists e', handle_command out_idle risk_idle instant instant BookDemo.take engine = Val e'.
Proof.
  destruct (engine_new_order out_idle risk_idle instant instant BookDemo.cfg 4 engine 1 5 0 12 5 1 Buy 103 6 Limit Gtc
    BookDemo.book_reached ltac:(lia) BookDemo.price103 BookDemo.qty6 demo_table_ok
    ltac:(simpl; lia)) as (e' & H & _).
  exists e'. exact H.
Defined.

Lemma engine_freeze_blocks_witness :
  exists e1 e2, handle_command out_idle risk_idle instant instant (mkSC 1 5 0 (Inbound_FreezeAccount 12)) engine = Val e1
    /\ handle_command out_idle risk_idle instant instant BookDemo.take e1 = Val e2 /\ e_book e2 = BookDemo.book.
Proof.
  destruct (engine_freeze_blocks out_idle risk_idle instant instant engine 1 5 0 12 AccountRiskState_new 1 5 0 5 1 Buy 103 6
    Limit Gtc demo_table_ok ltac:(lia) eq_refl ltac:(simpl; lia) ltac:(simpl; lia))
    as (e1 & e2 & H1 & H2 & H3 & _).
  exists e1, e2. exact (conj H1 (conj H2 H3)).
Defined.

Lemma engine_liquidation_cancels_all_witness :
  exists e', handle_command out_idle risk_idle instant instant (mkSC 1 5 0 (Inbound_Liquidate 1 11)) engine = Val e'
    /\ open_order_ids_for_account (e_book e') 11 = [].
Proof.
  destruct (engine_liquidation_cancels_all out_idle risk_idle instant instant BookDemo.cfg 4 engine 1 5 0 1 11
    BookDemo.book_reached ltac:(simpl; lia)) as (e' & H & Hn & _).
  exists e'. exact (conj H Hn).
Defined.

(** A command of term 7: the engine's fence is still at 0 afterwards. *)
Definition freeze12 : SequencedCommand := mkSC 7 5 0 (Inbound_FreezeAccount 12).
Definition after_freeze : MatchingEngine (W := list Event) :=
  timed instant freeze12 (e_set_states (table_put (e_risk_states engine) 12
    (update (mkSnap 0 0 true false 0 0) AccountRiskState_new)) engine).
Lemma freeze_run : handle_all out_idle risk_idle instant instant [freeze12] engine = Val after_freeze.
Proof. reflexivity. Qed.

Lemma engine_fence_inactive_witness :
  e_highest_term_seen after_freeze = 0 /\ forall cmd, 0 <= sc_term cmd -> is_stale cmd after_freeze = false.
Proof.
  refine (engine_fence_inactive out_idle risk_idle instant instant engine [freeze12] after_freeze eq_refl _ freeze_run).
  constructor; [vm_compute; discriminate|constructor].
Defined.

Lemma engine_cancel_silent_witness :
  exists e', handle_command out_idle risk_idle instant instant (mkSC 1 5 0 (Inbound_Cancel 11 1)) engine = Val e'
    /\ logged e' = [].
Proof.
  destruct (engine_cancel_silent out_idle risk_idle instant instant BookDemo.cfg 4 engine 1 5 0 11 1 BookDemo.sell1
    BookDemo.book_reached ltac:(simpl; lia) BookDemo.sell1_open eq_refl) as (e' & H & _ & Hl & _).
  exists e'. exact (conj H Hl).
Defined.
End EngineDemo.
