(* ===== verification/EngineSpec.v ===== *)
(** * EngineSpec: the matching engine as a function of its commands

    The abstract engine keeps the reference book of BookSpec.v and the price of
    the last trade.  Given the risk table it reads, a command takes it to its
    next state and to the events it owes the log: Tier-0 decides by a table of
    limits, an accepted order goes to the reference book, a liquidation drops
    the account's orders.  [handle_command] of Engine.v is proved to implement
    it, for every arena, WAL and behaviour of the rings' consumers; Pipeline.v
    composes the engines with the sequencer on top of it. *)

From S2P Require Import Prelude CoreTypes SlotMap OrderBook BookSpec BookMarket BookRep BookInv.
From S2P Require Import BookRefine BookTheorems Seqlock RingBuffer Metrics Engine EngineTheorems.
#[local] Open Scope Z_scope.

(** ** The specification *)

(** Tier-0 as a table: what is violated, in the order it is reported. *)
Definition tier0_table (order : NewOrder) (l : Tier0Limits) (s : AccountRiskSnapshot)
    (reference_price : option Z) : list (bool * RiskRejectReason) :=
  [ (halted s, AccountHalted);
    (frozen s, AccountFrozen);
    (max_order_qty l <? no_qty order, MaxOrderQtyExceeded);
    (t0_max_order_notional l <? notional_of (no_price order) (no_qty order), MaxOrderNotionalExceeded);
    ((0 <? price_band_bps l)
     && match reference_price with
        | Some r => price_out_of_band (no_price order) r (price_band_bps l)
        | None => false
        end, PriceOutOfBand);
    (max_open_orders l <=? open_order_count s, OpenOrderLimitExceeded);
    (max_position_abs l
       <? wrap_i64 (Z.abs (projected_position (position s) (no_side order) (no_qty order))),
     PositionLimitExceeded) ].

Definition tier0_verdict (t : AccountRiskTable) (account : Z) (order : NewOrder) (l : Tier0Limits)
    (reference_price : option Z) : option RiskRejectReason :=
  match table_get t account with
  | None => Some UnknownAccount
  | Some st => option_map snd (List.find fst (tier0_table order l (data st) reference_price))
  end.

(** The price of the last trade of a list of events. *)
Definition last_trade (reference : option Z) (evs : list EngineEvent) : option Z :=
  foldl (fun p ev => match ev with
                     | Trade _ _ _ price _ _ _ _ _ _ _ _ _ _ => Some price
                     | _ => p
                     end) reference evs.

Definition drop_account (account : Z) (A : abook) : abook :=
  let drop := List.filter (fun o => negb (a_account o =? account)) in
  mkABook (drop (ab_bids A)) (drop (ab_asks A)) (ab_floor A) (ab_ticks A) (ab_capacity A).

Record aengine := mkAEngine { ae_book : abook; ae_reference : option Z }.

(** One command: the next state and the events owed to the log. *)
Definition engine_spec (l : Tier0Limits) (t : AccountRiskTable) (s : aengine)
    (cmd : SequencedCommand) : aengine * list Event :=
  match sc_cmd cmd with
  | Inbound_NewOrder account coid symbol side price qty ot tif =>
      match tier0_verdict t account (mkNewOrder account symbol coid side price ot qty tif) l
              (ae_reference s) with
      | Some reason =>
          (s, [Event_Rejected (seq_no (sc_seq cmd)) account coid (map_risk_reject_reason reason)])
      | None =>
          let '(A, evs) := spec_apply (ae_book s) cmd in
          (mkAEngine A (last_trade (ae_reference s) evs), out_events evs)
      end
  | Inbound_Cancel account oid =>
      let '(A, evs) := spec_apply (ae_book s) cmd in (mkAEngine A (ae_reference s), out_events evs)
  | Inbound_Liquidate _ account => (mkAEngine (drop_account account (ae_book s)) (ae_reference s), [])
  | Inbound_FreezeAccount _ => (s, [])
  end.

(** A sequence of commands, each with the risk table the engine read then. *)
Fixpoint engine_specs (l : Tier0Limits) (ts : list AccountRiskTable) (cmds : list SequencedCommand)
    (s : aengine) : aengine * list Event :=
  match ts, cmds with
  | t :: ts, cmd :: cmds =>
      let '(s1, evs) := engine_spec l t s cmd in
      let '(s2, more) := engine_specs l ts cmds s1 in (s2, evs ++ more)
  | _, _ => (s, [])
  end.

Lemma engine_specs_snoc l ts cmds s t cmd :
  length ts = length cmds ->
  engine_specs l (ts ++ [t]) (cmds ++ [cmd]) s
  = let '(s1, evs) := engine_specs l ts cmds s in
    let '(s2, more) := engine_spec l t s1 cmd in (s2, evs ++ more).
Proof.
  revert cmds s. induction ts as [|t0 ts IH]; intros [|c cmds] s [=]; cbn [app engine_specs].
  - destruct (engine_spec l t s cmd). by rewrite app_nil_r.
  - destruct (engine_spec l t0 s c) as [s1 e1]. rewrite IH by done.
    destruct (engine_specs l ts cmds s1) as [s2 e2], (engine_spec l t s2 cmd) as [s3 e3].
    by rewrite app_assoc.
Qed.

(** Liquidation: cancelling the account's orders one by one drops exactly them. *)
Definition drop_ids (ids : list Z) (A : abook) : abook :=
  let drop := List.filter (fun o => negb (bool_decide (a_id o ∈ ids))) in
  mkABook (drop (ab_bids A)) (drop (ab_asks A)) (ab_floor A) (ab_ticks A) (ab_capacity A).

Lemma filter_ext_list {T} (f g : T -> bool) (l : list T) :
  (forall x, x ∈ l -> f x = g x) -> List.filter f l = List.filter g l.
Proof. intros H. apply List.filter_ext_in. intros x Hx. apply H. by apply list_elem_of_In. Qed.

Lemma drop_ids_account A account ids :
  (forall a, a ∈ ab_all A -> a_id a ∈ ids <-> a_account a = account) ->
  drop_ids ids A = drop_account account A.
Proof.
  intros Hids. assert (H : forall x, x ∈ ab_all A ->
    negb (bool_decide (a_id x ∈ ids)) = negb (a_account x =? account)).
  { intros x Hx. rewrite (bool_decide_ext _ _ (Hids x Hx)). f_equal.
    case_bool_decide; symmetry; [by apply Z.eqb_eq|by apply Z.eqb_neq]. }
  unfold drop_ids, drop_account. f_equal; apply filter_ext_list; intros x Hx; apply H;
    unfold ab_all; set_solver.
Qed.

Lemma drop_ids_cons A id ids :
  drop_ids ids (mkABook (List.filter (fun o => negb (a_id o =? id)) (ab_bids A))
                  (List.filter (fun o => negb (a_id o =? id)) (ab_asks A))
                  (ab_floor A) (ab_ticks A) (ab_capacity A)) = drop_ids (id :: ids) A.
Proof.
  assert (H : forall l, List.filter (fun o => negb (bool_decide (a_id o ∈ ids)))
      (List.filter (fun o => negb (a_id o =? id)) l)
    = List.filter (fun o => negb (bool_decide (a_id o ∈ id :: ids))) l).
  { induction l as [|o l IH]; [done|]. simpl. destruct (Z.eqb_spec (a_id o) id) as [E|E]; simpl.
    - rewrite (bool_decide_true (a_id o ∈ id :: ids)) by (rewrite E; left). exact IH.
    - rewrite (bool_decide_ext (a_id o ∈ id :: ids) (a_id o ∈ ids)) by set_solver.
      destruct (bool_decide _); simpl; by rewrite IH. }
  unfold drop_ids. simpl. by rewrite !H.
Qed.

(** ** The engine implements it *)

Section EngineRefines.
Context {SM : SlotMapApi} {SML : SlotMapLaws SM} {W : Type} {WW : WalWriter W}.
Context (out_env : nat -> Spsc.Queue (T := Event) -> Spsc.Queue (T := Event))
        (risk_env : nat -> Spmc.Queue (T := EngineEvent) -> Spmc.Queue (T := EngineEvent))
        (risk_elapsed match_elapsed : SequencedCommand -> Z).
#[local] Abbreviation Engine := (MatchingEngine (W := W)).
#[local] Abbreviation handleE := (handle_command out_env risk_env risk_elapsed match_elapsed).
#[local] Abbreviation kindE := (handle_kind out_env risk_env risk_elapsed).
Implicit Types (e : Engine) (cmd : SequencedCommand).

(** Tier-0 computes the verdict of the table. *)
Lemma check_new_order_verdict order l st rp :
  quiescent st ->
  check_new_order order l st rp
  = Val match option_map snd (List.find fst (tier0_table order l (data st) rp)) with
        | Some reason => Err reason
        | None => Ok tt
        end.
Proof.
  intros Hq. unfold check_new_order, is_halted, is_frozen, tier0_table. rewrite (read_ok st Hq).
  cbn [ebind List.find fst snd option_map]. by repeat (case_match; simplify_eq/=).
Qed.

Lemma tier0_of_verdict cmd account order e :
  table_ok (e_risk_states e) ->
  tier0_of cmd account order e
  = Val match tier0_verdict (e_risk_states e) account order (e_limits e) (e_reference_price e) with
        | Some reason => Err reason
        | None => Ok tt
        end.
Proof.
  intros Ht. unfold tier0_of, tier0_verdict. destruct (table_get (e_risk_states e) account) as [st|] eqn:Hst; [|done].
  apply check_new_order_verdict. by eapply table_get_ok.
Qed.

(** Putting events out leaves the reference price alone; noting the trades of
    a list of events sets it to the last one. *)
Lemma emit_reference ev e : e_reference_price (emit out_env risk_env ev e) = e_reference_price e.
Proof.
  unfold emit, publish_to_risk. destruct (push_retry _ _ _ _ _) as [ok q].
  destruct (map_engine_event ev) as [out|]; [|done]. unfold publish_and_log.
  destruct (append_event out _) as [[[]|err] w]; [|done]. by destruct (push_retry _ _ _ _ _) as [[] q'].
Qed.

Lemma emit_all_reference evs e :
  e_reference_price (foldl (fun e ev => emit out_env risk_env ev e) e evs) = e_reference_price e.
Proof.
  revert e. induction evs as [|ev evs IH]; intros e; [done|]. cbn [foldl]. by rewrite IH, emit_reference.
Qed.

Lemma emit_note_all_reference evs e :
  e_reference_price (foldl (fun e ev => emit out_env risk_env ev (note_trade ev e)) e evs)
  = last_trade (e_reference_price e) evs.
Proof.
  revert e. induction evs as [|ev evs IH]; intros e; [done|]. unfold last_trade. cbn [foldl].
  rewrite IH, emit_reference. unfold last_trade. by destruct ev.
Qed.

(** A command that is not a new order leaves the reference price; an accepted
    order sets it to its last trade, a refused one leaves it. *)
Lemma accepted_reference term seq ts account coid symbol side price qty ot tif e b' evs e' :
  let cmd := mkSC term seq ts (Inbound_NewOrder account coid symbol side price qty ot tif) in
  e_highest_term_seen e <= term ->
  tier0_of cmd account (mkNewOrder account symbol coid side price ot qty tif) e = Val (Ok tt) ->
  apply (e_book e) cmd = Val (b', evs) -> handleE cmd e = Val e' ->
  e_reference_price e' = last_trade (e_reference_price e) evs.
Proof.
  intros cmd Ht Hc Hap. rewrite handle_live by done. unfold handle_kind. cbn [sc_cmd cmd].
  unfold handle_new_order. unfold tier0_of in Hc. rewrite Hc. cbn [ebind].
  change (e_book (e_set_metrics _ e)) with (e_book e). fold cmd. rewrite Hap. cbn [ebind].
  intros [= <-]. exact (emit_note_all_reference evs (e_set_book b' (risk_timed risk_elapsed cmd e))).
Qed.

Lemma refused_reference term seq ts account coid symbol side price qty ot tif e reason e' :
  let cmd := mkSC term seq ts (Inbound_NewOrder account coid symbol side price qty ot tif) in
  e_highest_term_seen e <= term ->
  tier0_of cmd account (mkNewOrder account symbol coid side price ot qty tif) e = Val (Err reason) ->
  handleE cmd e = Val e' -> e_reference_price e' = e_reference_price e.
Proof.
  intros cmd Ht Hc. rewrite handle_live by done. unfold handle_kind. cbn [sc_cmd cmd].
  unfold handle_new_order. unfold tier0_of in Hc. rewrite Hc. cbn [ebind]. intros [= <-].
  unfold publish_and_log. cbn [e_reference_price timed e_set_metrics].
  destruct (append_event _ _) as [[[]|err] w]; [|done]. by destruct (push_retry _ _ _ _ _) as [[] q'].
Qed.

(** The concrete engine [e] implements the abstract state [s]. *)
Record implements (l : Tier0Limits) (s : aengine) e : Prop := {
  im_rep : rep (e_book e) (ae_book s);
  im_ok : abook_ok (ae_book s);
  im_reference : e_reference_price e = ae_reference s;
  im_limits : e_limits e = l;
  im_table : table_ok (e_risk_states e);
  im_term : e_highest_term_seen e = 0
}.

(** What the log and the published stream owe to the events [evs]. *)
Definition puts_out e e' (evs : list Event) : Prop :=
  exists l p, logged e' = logged e ++ l /\ l `sublist_of` evs /\ (e_running e' = true -> l = evs)
    /\ e_published e' = e_published e ++ p /\ p `sublist_of` l.

Lemma out_step_puts e e1 e' evs :
  out_step e1 e' evs -> logged e1 = logged e -> e_published e1 = e_published e -> puts_out e e' evs.
Proof.
  intros Hs Hl Hp. destruct (os_logged _ _ _ Hs) as (l & L & S & R).
  destruct (os_published _ _ _ Hs) as (l' & p & L' & P & S'). exists l, p. rewrite <- Hl, <- Hp.
  split_and!; try done. rewrite L in L'. by apply app_inv_head in L' as ->.
Qed.

Lemma puts_out_nil e e' :
  logged e' = logged e -> e_published e' = e_published e -> puts_out e e' [].
Proof. intros Hl Hp. exists [], []. by rewrite !app_nil_r. Qed.

(** Metrics and what the engine timed are outside the abstraction. *)
Lemma implements_timed l s cmd e : implements l s e -> implements l s (timed match_elapsed cmd e).
Proof. by intros []. Qed.

Lemma implements_out l s s' e e' evs :
  implements l s e -> rep (e_book e') (ae_book s') -> abook_ok (ae_book s') ->
  out_step (e_set_book (e_book e') e) e' evs -> e_reference_price e' = ae_reference s' ->
  implements l s' e'.
Proof.
  intros [] HR HA Hs Href. split; try done.
  - by rewrite (os_limits _ _ _ Hs).
  - by rewrite (os_states _ _ _ Hs).
  - by rewrite (os_term _ _ _ Hs).
Qed.

(** *** The kinds of command *)

(** [handle_cancel], as a step of the book and of the outputs. *)
Lemma handle_cancel_refine l cmd e s A' evs b' :
  implements l s e -> apply (e_book e) cmd = Val (b', evs) -> rep b' A' -> abook_ok A' ->
  exists e', handle_cancel out_env risk_env cmd e = Val e'
    /\ implements l (mkAEngine A' (ae_reference s)) e'
    /\ out_step (e_set_book (e_book e') e) e' (out_events evs).
Proof.
  intros Him Hap HR HA. destruct (handle_cancel_step out_env risk_env cmd e b' evs Hap) as (e' & He & Hs).
  pose proof (os_book _ _ _ Hs) as Hb. simpl in Hb. rewrite <- Hb in Hs. exists e'. split_and!; [done| |done].
  eapply implements_out; [exact Him|by rewrite Hb|done|exact Hs|]. simpl. rewrite <- (im_reference _ _ _ Him).
  unfold handle_cancel in He. rewrite Hap in He. injection He as <-. by rewrite emit_all_reference.
Qed.

Lemma drop_ids_nil A : drop_ids [] A = A.
Proof.
  assert (H : forall l : list aorder, List.filter (fun o => negb (bool_decide (a_id o ∈ @nil Z))) l = l).
  { induction l as [|o l IH]; [done|]. cbn [List.filter].
    rewrite bool_decide_false by (apply not_elem_of_nil). cbn [negb]. by rewrite IH. }
  unfold drop_ids. rewrite !H. by destruct A.
Qed.

(** Cancelling an open order of the account removes it. *)
Lemma spec_cancel_own A seq o :
  abook_ok A -> o ∈ ab_all A ->
  spec_cancel A seq (a_account o) (a_id o)
  = (mkABook (List.filter (fun x => negb (a_id x =? a_id o)) (ab_bids A))
       (List.filter (fun x => negb (a_id x =? a_id o)) (ab_asks A))
       (ab_floor A) (ab_ticks A) (ab_capacity A), [Cancelled seq (a_id o)]).
Proof.
  intros HA Ho. unfold spec_cancel. by rewrite (find_nodup _ o (ok_ids A HA) Ho), Z.eqb_refl.
Qed.

Lemma cancels_refine l cmd account ids s e :
  implements l s e -> NoDup ids ->
  (forall id, id ∈ ids -> exists o, o ∈ ab_all (ae_book s) /\ a_id o = id /\ a_account o = account) ->
  exists e', handle_cancels out_env risk_env cmd account ids e = Val e'
    /\ implements l (mkAEngine (drop_ids ids (ae_book s)) (ae_reference s)) e'
    /\ out_step (e_set_book (e_book e') e) e' [].
Proof.
  revert s e. induction ids as [|id ids IH]; intros [A ref] e Him Hnd Hids; cbn [handle_cancels ae_book ae_reference].
  { exists e. rewrite drop_ids_nil. split_and!; [done..|]. destruct (out_step_refl e). by split. }
  apply NoDup_cons in Hnd as [Hid Hnd]. destruct (Hids id) as (o & Ho & <- & <-); [left|]. simpl in Ho.
  pose proof (spec_cancel_own A (sc_seq cmd) o (im_ok _ _ _ Him) Ho) as Hspec.
  destruct (apply_cancel_ok (e_book e) A _ _ _ _ _ (im_rep _ _ _ Him) (im_ok _ _ _ Him) Hspec) as (b1 & Hap & HR1).
  destruct (handle_cancel_refine l (mkSC (sc_term cmd) (sc_seq cmd) (sc_ts_ns cmd) (Inbound_Cancel (a_account o) (a_id o)))
    e _ _ _ b1 Him Hap HR1) as (e1 & -> & Him1 & Hs1); [by apply abook_ok_filter, (im_ok _ _ _ Him)|]. cbn [ebind].
  destruct (IH _ e1 Him1 Hnd) as (e2 & -> & Him2 & Hs2).
  { intros id Hin. destruct (Hids id) as (o' & ? & ? & ?); [by right|]. exists o'. split_and!; try done.
    simpl. apply cancel_drop_elem. split; [done|congruence]. }
  exists e2. split; [done|]. cbn [ae_book ae_reference] in Him2. rewrite drop_ids_cons in Him2. split; [done|].
  assert (Hs1' : out_step (e_set_book (e_book e2) e) (e_set_book (e_book e2) e1) []) by (destruct Hs1; by split).
  exact (out_step_trans _ _ _ [] [] Hs1' Hs2).
Qed.

Lemma same_id A x y : abook_ok A -> x ∈ ab_all A -> y ∈ ab_all A -> a_id x = a_id y -> x = y.
Proof.
  intros HA Hx Hy Heq. pose proof (find_nodup _ x (ok_ids A HA) Hx) as Fx.
  pose proof (find_nodup _ y (ok_ids A HA) Hy) as Fy. rewrite Heq in Fx. congruence.
Qed.

Lemma liquidate_refine l term seq ts symbol account s e :
  implements l s e ->
  let cmd := mkSC term seq ts (Inbound_Liquidate symbol account) in
  exists e', kindE cmd e = Val e'
    /\ implements l (mkAEngine (drop_account account (ae_book s)) (ae_reference s)) e'
    /\ out_step (e_set_book (e_book e') e) e' [].
Proof.
  intros Him cmd. unfold handle_kind. cbn [sc_cmd cmd].
  destruct (account_orders_rep (e_book e) (ae_book s) account (im_rep _ _ _ Him) (im_ok _ _ _ Him)) as (Hnd & Hin & _).
  setoid_rewrite (client_order_rep (e_book e) (ae_book s) _ _ (im_rep _ _ _ Him)) in Hin.
  rewrite <- (drop_ids_account _ account (open_order_ids_for_account (e_book e) account)).
  - apply cancels_refine; [done..|]. intros id (o & [? ?] & ?)%Hin. by exists o.
  - intros a Ha. rewrite Hin. split; [|by exists a].
    intros (o & [Ho Hid] & <-). f_equal. by apply (same_id (ae_book s)); [apply (im_ok _ _ _ Him)|..].
Qed.

Lemma freeze_refine l term seq ts account s e :
  implements l s e ->
  exists e', kindE (mkSC term seq ts (Inbound_FreezeAccount account)) e = Val e'
    /\ implements l s e' /\ logged e' = logged e /\ e_published e' = e_published e.
Proof.
  intros Him. unfold handle_kind. cbn [sc_cmd].
  destruct (table_get (e_risk_states e) account) as [st|] eqn:Hst; [|by exists e].
  assert (Hq : quiescent st) by (by eapply table_get_ok, Hst; apply Him).
  unfold set_frozen. rewrite (read_ok st Hq). eexists. split; [done|]. split_and!; [|done..].
  destruct Him. split; try done. by apply table_put_ok, quiescent_update.
Qed.

Lemma new_order_refine l term seq ts account coid symbol side price qty ot tif s e :
  let cmd := mkSC term seq ts (Inbound_NewOrder account coid symbol side price qty ot tif) in
  implements l s e -> seq_fresh (ae_book s) seq -> cmd_ok cmd -> 0 <= term ->
  exists e', handleE cmd e = Val e'
    /\ implements l (engine_spec l (e_risk_states e) s cmd).1 e'
    /\ puts_out e e' (engine_spec l (e_risk_states e) s cmd).2.
Proof.
  intros cmd Him Hf Hok Ht. assert (Ht' : e_highest_term_seen e <= term) by (by rewrite (im_term _ _ _ Him)).
  set (order := mkNewOrder account symbol coid side price ot qty tif).
  pose proof (tier0_of_verdict cmd account order e (im_table _ _ _ Him)) as Hc.
  rewrite (im_limits _ _ _ Him), (im_reference _ _ _ Him) in Hc.
  unfold engine_spec. cbn [sc_cmd cmd]. fold order.
  destruct (tier0_verdict (e_risk_states e) account order l (ae_reference s)) as [reason|].
  - destruct (new_order_refused out_env risk_env risk_elapsed match_elapsed _ _ _ _ _ _ _ _ _ _ _ _ _ Ht' Hc)
      as (e' & He & Hs). exists e'. split; [done|]. pose proof (os_book _ _ _ Hs) as Hb. split.
    + destruct Him. eapply (implements_out l s s e); [done|by rewrite Hb|done| |].
      * destruct Hs. split; done.
      * by rewrite (refused_reference _ _ _ _ _ _ _ _ _ _ _ _ _ _ Ht' Hc He).
    + by apply (out_step_puts e e).
  - destruct (apply_ok (e_book e) (ae_book s) cmd (im_rep _ _ _ Him) (im_ok _ _ _ Him) Hf Hok) as (b' & Hap & HR).
    destruct (new_order_accepted out_env risk_env risk_elapsed match_elapsed _ _ _ _ _ _ _ _ _ _ _ _ _ _ Ht' Hc Hap)
      as (e' & He & Hs). exists e'. split; [done|]. pose proof (os_book _ _ _ Hs) as Hb. simpl in Hb.
    assert (HA := spec_apply_ok (ae_book s) cmd (im_ok _ _ _ Him) Hf Hok).
    pose proof (accepted_reference _ _ _ _ _ _ _ _ _ _ _ _ _ _ _ Ht' Hc Hap He) as Href.
    fold cmd. destruct (spec_apply (ae_book s) cmd) as [A' evs]. simpl in *. split.
    + rewrite <- Hb in Hs. eapply (implements_out l s _ e); [done|by rewrite Hb|done|exact Hs|].
      by rewrite Href, (im_reference _ _ _ Him).
    + by eapply out_step_puts.
Qed.

(** *** Every command *)
Lemma handle_command_refine l cmd s e :
  implements l s e -> seq_fresh (ae_book s) (sc_seq cmd) -> cmd_ok cmd -> 0 <= sc_term cmd ->
  exists e', handleE cmd e = Val e'
    /\ implements l (engine_spec l (e_risk_states e) s cmd).1 e'
    /\ puts_out e e' (engine_spec l (e_risk_states e) s cmd).2.
Proof.
  intros Him Hf Hok Ht. assert (Ht' : e_highest_term_seen e <= sc_term cmd) by (by rewrite (im_term _ _ _ Him)).
  destruct cmd as [term seq ts [account coid symbol side price qty ot tif|account oid|symbol account|account]];
    [by apply new_order_refine|..]; simpl in Hf, Ht, Ht'; unfold engine_spec; cbn [sc_cmd]; rewrite handle_live by done.
  - set (cmd := mkSC term seq ts (Inbound_Cancel account oid)).
    destruct (apply_ok (e_book e) (ae_book s) cmd (im_rep _ _ _ Him) (im_ok _ _ _ Him) Hf Hok) as (b' & Hap & HR).
    assert (HA := spec_apply_ok (ae_book s) cmd (im_ok _ _ _ Him) Hf Hok).
    destruct (spec_apply (ae_book s) cmd) as [A' evs]. simpl in *.
    destruct (handle_cancel_refine l cmd e s A' evs b' Him Hap HR HA) as (e' & He & Him' & Hs).
    unfold handle_kind. cbn [sc_cmd cmd]. fold cmd. rewrite He. eexists. split; [done|].
    split; [by apply implements_timed|]. eapply out_step_puts; [by apply out_step_metrics|done..].
  - destruct (liquidate_refine l term seq ts symbol account s e Him) as (e' & -> & Him' & Hs).
    eexists. split; [done|]. split; [by apply implements_timed|].
    eapply out_step_puts; [by apply out_step_metrics|done..].
  - destruct (freeze_refine l term seq ts account s e Him) as (e' & -> & Him' & Hl & Hp).
    eexists. split; [done|]. split; [by apply implements_timed|]. by apply puts_out_nil.
Qed.
End EngineRefines.
