(* ===== verification/Sequencer.v ===== *)
(** * Sequencer: crates/sequencer (sequencer.rs, halt.rs, snapshot_marker.rs,
    the role handle of failover.rs)

    The single point of total ordering.  One iteration of [run] polls the
    gateway queues round-robin, numbers and time-stamps the command, pushes it
    to the WAL queue, routes it to the matching engines and injects a snapshot
    marker on schedule.  The queues are the interface [Fifo]; what their
    consumers do while the sequencer spins is a parameter, and the gateways,
    engines, WAL writer and operators around it are the steps of [sys_step]. *)

From S2P Require Import Prelude CoreTypes RingBuffer Fifo.
#[local] Open Scope Z_scope.

(** ** halt.rs *)

Module GlobalHalt.
Definition new : bool := false.
Definition trigger (h : bool) : bool := true.
Definition is_set (h : bool) : bool := h.
End GlobalHalt.

(** ** failover.rs: the role as the hot loop reads it *)

Inductive Role := Standby | Leader.
#[export] Instance Role_eq_dec : EqDecision Role.
Proof. solve_decision. Defined.

Definition role_to_u8 (r : Role) : Z := match r with Standby => 0 | Leader => 1 end.

(** [AtomicU8] and [AtomicU64]. *)
Record RoleHandle := mkRoleHandle { rh_role : Z; rh_term : Z }.

Definition role (h : RoleHandle) : Role := if rh_role h =? 1 then Leader else Standby.
Definition is_leader (h : RoleHandle) : bool := bool_decide (role h = Leader).
Definition term (h : RoleHandle) : Z := rh_term h.
Definition for_test_leader : RoleHandle := mkRoleHandle (role_to_u8 Leader) 1.

(** ** snapshot_marker.rs *)

Record SnapshotMarkerSchedule := mkSchedule { interval_seq : Z }.

Definition SnapshotMarkerSchedule_new (interval : Z) : Exec SnapshotMarkerSchedule :=
  if 0 <? interval then Val (mkSchedule interval) else Panic.
Definition SnapshotMarkerSchedule_default : SnapshotMarkerSchedule := mkSchedule 100000.

Definition should_fire (sch : SnapshotMarkerSchedule) (seq : Z) : bool :=
  seq mod interval_seq sch =? 0.

(** ** sequencer.rs *)

Definition WAL_CAP : nat := Z.to_nat 16384.
Definition ME_INBOUND_CAP : nat := Z.to_nat 4096.
Definition FANOUT_CAP : nat := Z.to_nat 16384.
Definition MAX_SYMBOLS : nat := Z.to_nat 1024.

Record SequencerConfig := mkSequencerConfig {
  n_symbols : nat;
  cfg_snapshot_schedule : SnapshotMarkerSchedule
}.

Definition SequencerConfig_new (n : nat) : Exec SequencerConfig :=
  if (n <=? MAX_SYMBOLS)%nat then Val (mkSequencerConfig n SnapshotMarkerSchedule_default) else Panic.

Definition cmd_symbol (cmd : InboundCommand) : option Z :=
  match cmd with
  | Inbound_NewOrder _ _ symbol _ _ _ _ _ => Some symbol
  | Inbound_Cancel _ _ => None
  | Inbound_Liquidate symbol _ => Some symbol
  | Inbound_FreezeAccount _ => None
  end.

Definition is_cancel (cmd : InboundCommand) : bool :=
  match cmd with Inbound_Cancel _ _ => true | _ => false end.

Section Sequencer.
Context {QG QM QW QS : Type}
  `{!Fifo QG InboundCommand ME_INBOUND_CAP} `{!Fifo QM SequencedCommand ME_INBOUND_CAP}
  `{!Fifo QW SequencedCommand WAL_CAP} `{!Fifo QS EngineEvent FANOUT_CAP}.

Record Sequencer := mkSequencer {
  seq : Z;
  gw_inbound : list QG;
  me_inbound : list QM;
  wal_out : QW;
  snapshot_out : list QS;
  halt : bool;
  role_handle : RoleHandle;
  snapshot_schedule : SnapshotMarkerSchedule;
  gw_cursor : nat
}.

Definition Sequencer_new (gw : list QG) (me : list QM) (wal : QW) (snap : list QS) (halt : bool)
    (role : RoleHandle) (config : SequencerConfig) (initial_seq : Z) : Exec Sequencer :=
  if (length me =? n_symbols config)%nat
  then Val (mkSequencer initial_seq gw me wal snap halt role (cfg_snapshot_schedule config) 0)
  else Panic.

Definition set_seq (z : Z) (s : Sequencer) : Sequencer :=
  mkSequencer z (gw_inbound s) (me_inbound s) (wal_out s) (snapshot_out s) (halt s)
    (role_handle s) (snapshot_schedule s) (gw_cursor s).
Definition set_gw (gw : list QG) (c : nat) (s : Sequencer) : Sequencer :=
  mkSequencer (seq s) gw (me_inbound s) (wal_out s) (snapshot_out s) (halt s)
    (role_handle s) (snapshot_schedule s) c.
Definition set_me (me : list QM) (s : Sequencer) : Sequencer :=
  mkSequencer (seq s) (gw_inbound s) me (wal_out s) (snapshot_out s) (halt s)
    (role_handle s) (snapshot_schedule s) (gw_cursor s).
Definition set_wal (w : QW) (s : Sequencer) : Sequencer :=
  mkSequencer (seq s) (gw_inbound s) (me_inbound s) w (snapshot_out s) (halt s)
    (role_handle s) (snapshot_schedule s) (gw_cursor s).
Definition set_snap (sn : list QS) (s : Sequencer) : Sequencer :=
  mkSequencer (seq s) (gw_inbound s) (me_inbound s) (wal_out s) sn (halt s)
    (role_handle s) (snapshot_schedule s) (gw_cursor s).
Definition set_control (h : bool) (r : RoleHandle) (s : Sequencer) : Sequencer :=
  mkSequencer (seq s) (gw_inbound s) (me_inbound s) (wal_out s) (snapshot_out s) h
    r (snapshot_schedule s) (gw_cursor s).

(** The iterations [i, i+1, .., i+k-1] of the [for] loop of [poll_inbound]. *)
Fixpoint poll_from (k i : nat) (s : Sequencer) : Exec (option InboundCommand * Sequencer) :=
  match k with
  | O => Val (None, s)
  | S k' =>
      let n := length (gw_inbound s) in
      let idx := ((gw_cursor s + i) mod n)%nat in
      let! q := index_list (gw_inbound s) idx in
      let! '(popped, q') := fifo_pop q in
      let gw := <[idx := q']> (gw_inbound s) in
      match popped with
      | Some cmd => Val (Some cmd, set_gw gw ((idx + 1) mod n)%nat s)
      | None => poll_from k' (S i) (set_gw gw (gw_cursor s) s)
      end
  end.

Definition poll_inbound (s : Sequencer) : Exec (option InboundCommand * Sequencer) :=
  poll_from (length (gw_inbound s)) 0 s.

(** [for out in outs.iter_mut() { loop { .. } }]: spin until every queue has
    the item; [env j] is the consumer of queue [j]. *)
Fixpoint push_all {Q T cap} `{!Fifo Q T cap} (env : nat -> nat -> Q -> Q) (fuel j : nat)
    (item : T) (qs : list Q) : Exec (list Q) :=
  match qs with
  | [] => Val []
  | q :: rest =>
      let! q' := spin_push (env j) fuel 0 item q in
      let! rest' := push_all env fuel (S j) item rest in
      Val (q' :: rest')
  end.

Definition inject_snapshot_marker (snap_env : nat -> nat -> QS -> QS) (fuel : nat) (seq : Z)
    (s : Sequencer) : Exec Sequencer :=
  let! sn := push_all snap_env fuel 0 (SnapshotMarker seq) (snapshot_out s) in
  Val (set_snap sn s).

(** The routing [match] of [dispatch]. *)
Definition route (me_env : nat -> nat -> QM -> QM) (fuel : nat) (sequenced : SequencedCommand)
    (s : Sequencer) : Exec Sequencer :=
  match cmd_symbol (sc_cmd sequenced) with
  | Some symbol =>
      let idx := Z.to_nat symbol in
      let! q := index_list (me_inbound s) idx in
      let! q' := spin_push (me_env idx) fuel 0 sequenced q in
      Val (set_me (<[idx := q']> (me_inbound s)) s)
  | None =>
      if is_cancel (sc_cmd sequenced) then
        let! me := push_all me_env fuel 0 sequenced (me_inbound s) in
        Val (set_me me s)
      else Val s
  end.

(** The first half of [dispatch]: the next number, the time stamp [now_ns] the
    clock returned, the fencing term, and the best-effort push to the WAL. *)
Definition number (now_ns : Z) (cmd : InboundCommand) (s : Sequencer) : SequencedCommand * Sequencer :=
  let s := set_seq (wrap_u64 (seq s + 1)) s in
  let sequenced := mkSC (term (role_handle s)) (seq s) now_ns cmd in
  let '(_, w) := fifo_push sequenced (wal_out s) in
  (sequenced, set_wal w s).

Definition dispatch (me_env : nat -> nat -> QM -> QM) (snap_env : nat -> nat -> QS -> QS)
    (fuel : nat) (now_ns : Z) (cmd : InboundCommand) (s : Sequencer) : Exec Sequencer :=
  let '(sequenced, s) := number now_ns cmd s in
  let! s := route me_env fuel sequenced s in
  if should_fire (snapshot_schedule s) (sc_seq sequenced)
  then inject_snapshot_marker snap_env fuel (sc_seq sequenced) s
  else Val s.

(** One iteration of [run]. *)
Definition run_iter (me_env : nat -> nat -> QM -> QM) (snap_env : nat -> nat -> QS -> QS)
    (fuel : nat) (now_ns : Z) (s : Sequencer) : Exec Sequencer :=
  if GlobalHalt.is_set (halt s) then Panic
  else if negb (is_leader (role_handle s)) then Val s
  else
    let! '(polled, s) := poll_inbound s in
    match polled with
    | Some cmd => dispatch me_env snap_env fuel now_ns cmd s
    | None => Val s
    end.

(** ** The threads around the sequencer

    The trace of a run is the list of commands the gateways pushed, with the
    gateway each came from. *)
Inductive sys_step : Sequencer -> list (nat * InboundCommand) -> Sequencer -> Prop :=
| ss_gateway s g q q' cmd :
    gw_inbound s !! g = Some q -> fifo_push cmd q = (Ok tt, q') ->
    sys_step s [(g, cmd)] (set_gw (<[g := q']> (gw_inbound s)) (gw_cursor s) s)
| ss_engine s i q q' sc :
    me_inbound s !! i = Some q -> fifo_pop q = Val (Some sc, q') ->
    sys_step s [] (set_me (<[i := q']> (me_inbound s)) s)
| ss_wal s q' sc :
    fifo_pop (wal_out s) = Val (Some sc, q') -> sys_step s [] (set_wal q' s)
| ss_subscriber s j q q' ev :
    snapshot_out s !! j = Some q -> fifo_pop q = Val (Some ev, q') ->
    sys_step s [] (set_snap (<[j := q']> (snapshot_out s)) s)
| ss_halt s : sys_step s [] (set_control (GlobalHalt.trigger (halt s)) (role_handle s) s)
| ss_role s r : sys_step s [] (set_control (halt s) r s)
| ss_iter s me_env snap_env fuel now_ns s' :
    (forall i, consumes (me_env i)) -> (forall j, consumes (snap_env j)) ->
    run_iter me_env snap_env fuel now_ns s = Val s' -> sys_step s [] s'.

(** The states a sequencer reaches from [init], with what the gateways sent. *)
Inductive sys_run (init : Sequencer) : list (nat * InboundCommand) -> Sequencer -> Prop :=
| sr_init : sys_run init [] init
| sr_step sent s l s' : sys_run init sent s -> sys_step s l s' -> sys_run init (sent ++ l) s'.

(** A sequencer at start-up: [n_gw] gateways, one queue per symbol, [n_sub]
    snapshot subscribers, all queues empty. *)
Definition fresh (n_gw n_me n_sub : nat) (sch : SnapshotMarkerSchedule) (role : RoleHandle)
    (initial_seq : Z) : Sequencer :=
  mkSequencer initial_seq (replicate n_gw fifo_new) (replicate n_me fifo_new) fifo_new
    (replicate n_sub fifo_new) GlobalHalt.new role sch 0.

(** ** What the sequencer promises

    The dispatched commands in order, each with the gateway it came from. *)
Abbreviation Log := (list (nat * SequencedCommand)).

Definition sent_by (g : nat) (sent : list (nat * InboundCommand)) : list InboundCommand :=
  map snd (List.filter (fun p => fst p =? g)%nat sent).

Definition from_gateway (g : nat) (d : Log) : list InboundCommand :=
  map (fun p => sc_cmd (snd p)) (List.filter (fun p => fst p =? g)%nat d).

Definition routed_to (i : nat) (sc : SequencedCommand) : bool :=
  match cmd_symbol (sc_cmd sc) with
  | Some symbol => (Z.to_nat symbol =? i)%nat
  | None => is_cancel (sc_cmd sc)
  end.

Definition engine_feed (i : nat) (d : Log) : list SequencedCommand :=
  List.filter (routed_to i) (map snd d).

Definition markers (sch : SnapshotMarkerSchedule) (d : Log) : list EngineEvent :=
  map (fun sc => SnapshotMarker (sc_seq sc))
    (List.filter (fun sc => should_fire sch (sc_seq sc)) (map snd d)).

(** The numbering, the gateways' queues and the WAL queue. *)
Record front_inv (init : Sequencer) (sent : list (nat * InboundCommand)) (d : Log) (s : Sequencer) : Prop := {
  si_seq : seq s = wrap_u64 (seq init + Z.of_nat (length d));
  si_numbers k g sc : d !! k = Some (g, sc) -> sc_seq sc = wrap_u64 (seq init + Z.of_nat k + 1);
  si_gw_len : length (gw_inbound s) = length (gw_inbound init);
  si_me_len : length (me_inbound s) = length (me_inbound init);
  si_sch : snapshot_schedule s = snapshot_schedule init;
  si_cursor : gw_cursor s = 0%nat \/ (gw_cursor s < length (gw_inbound s))%nat;
  si_gw g q : gw_inbound s !! g = Some q ->
    exists n, fifo_hist q (sent_by g sent) n /\ from_gateway g d = take n (sent_by g sent);
  si_wal : exists logged n, fifo_hist (wal_out s) logged n /\ sublist logged (map snd d);
  si_gateways k g sc : d !! k = Some (g, sc) -> (g < length (gw_inbound init))%nat
}.

(** Between two commands the engines and subscribers have received theirs. *)
Record seq_inv (init : Sequencer) (sent : list (nat * InboundCommand)) (d : Log) (s : Sequencer) : Prop := {
  si_front :> front_inv init sent d s;
  si_me i q : me_inbound s !! i = Some q -> exists n, fifo_hist q (engine_feed i d) n;
  si_snap j q : snapshot_out s !! j = Some q ->
    exists n, fifo_hist q (markers (snapshot_schedule init) d) n
}.

Lemma fresh_inv n_gw n_me n_sub sch role z :
  in_u64 z -> seq_inv (fresh n_gw n_me n_sub sch role z) [] [] (fresh n_gw n_me n_sub sch role z).
Proof.
  intros Hz. split; [split|..]; simpl; try done; try (by left).
  - rewrite Z.add_0_r. symmetry. by apply wrap_u64_id.
  - intros g q [-> _]%lookup_replicate. exists 0%nat. split; [apply fifo_new_hist|done].
  - exists [], 0%nat. split; [apply fifo_new_hist|constructor].
  - intros i q [-> _]%lookup_replicate. exists 0%nat. apply fifo_new_hist.
  - intros j q [-> _]%lookup_replicate. exists 0%nat. apply fifo_new_hist.
Qed.

(** *** Polling *)

(** The history of every gateway queue. *)
Definition gw_hist (s : Sequencer) (H : list (list InboundCommand * nat)) : Prop :=
  Forall2 (fun q h => fifo_hist q (fst h) (snd h)) (gw_inbound s) H.

Definition ready (H : list (list InboundCommand * nat)) (j : nat) : Prop :=
  exists pu n, H !! j = Some (pu, n) /\ (n < length pu)%nat.

(** The queue the cursor reaches after [x] positions. *)
Definition at_offset (s : Sequencer) (x : nat) : nat :=
  ((gw_cursor s + x) mod length (gw_inbound s))%nat.

Lemma at_offset_lt s x : (0 < length (gw_inbound s))%nat -> (at_offset s x < length (gw_inbound s))%nat.
Proof. intros. apply Nat.mod_upper_bound. lia. Qed.

Lemma set_gw_self s : set_gw (gw_inbound s) (gw_cursor s) s = s.
Proof. by destruct s. Qed.

Lemma poll_from_spec k i s H :
  gw_hist s H -> (i + k = length (gw_inbound s))%nat ->
  (poll_from k i s = Val (None, s) /\ forall x, (i <= x < i + k)%nat -> ~ ready H (at_offset s x))
  \/ exists x pu n cmd gw,
       (i <= x < i + k)%nat /\ (forall y, (i <= y < x)%nat -> ~ ready H (at_offset s y))
       /\ H !! at_offset s x = Some (pu, n) /\ pu !! n = Some cmd
       /\ poll_from k i s = Val (Some cmd, set_gw gw ((at_offset s x + 1) mod length (gw_inbound s))%nat s)
       /\ Forall2 (fun q h => fifo_hist q (fst h) (snd h)) gw (<[at_offset s x := (pu, S n)]> H).
Proof.
  revert i. induction k as [|k IH]; intros i HH Hik; [by left; split; [|lia]|].
  cbn [poll_from]. fold (at_offset s i).
  assert (Hlt : (at_offset s i < length (gw_inbound s))%nat) by (apply at_offset_lt; lia).
  destruct (lookup_lt_is_Some_2 _ _ Hlt) as [q Hq].
  destruct (Forall2_lookup_l _ _ _ _ _ HH Hq) as ([pu n] & Hh & Hist). simpl in Hist.
  rewrite (index_list_lt _ _ _ Hq). cbn [ebind]. pose proof (fifo_pop_hist q pu n Hist) as Hpop.
  destruct (pu !! n) as [cmd|] eqn:Hn.
  - destruct Hpop as (q' & -> & Hist'). cbn [ebind]. right.
    exists i, pu, n, cmd, (<[at_offset s i := q']> (gw_inbound s)).
    split_and!; try done; try lia. by apply Forall2_insert.
  - rewrite Hpop. cbn [ebind]. rewrite (list_insert_id _ _ _ Hq), set_gw_self.
    assert (Hnr : ~ ready H (at_offset s i)).
    { intros (pu' & n' & Hh' & Hl). rewrite Hh in Hh'. simplify_eq. apply lookup_ge_None in Hn. lia. }
    destruct (IH (S i) HH) as [[-> Hall]|(x & pu' & n' & cmd & gw & Hx & Hall & Hrest)]; [lia|left|right].
    + split; [done|]. intros x Hx. destruct (decide (x = i)) as [->|]; [done|apply Hall; lia].
    + exists x, pu', n', cmd, gw. split_and!; try tauto; try lia.
      intros y Hy. destruct (decide (y = i)) as [->|]; [done|apply Hall; lia].
Qed.

(** *** Fairness of the round robin *)

(** Successive polls; before each one the gateways push what they like. *)
Fixpoint poll_many (envs : list (nat -> QG -> QG)) (s : Sequencer) :
    Exec (list (option InboundCommand) * Sequencer) :=
  match envs with
  | [] => Val ([], s)
  | env :: rest =>
      let! '(polled, s') := poll_inbound (set_gw (imap env (gw_inbound s)) (gw_cursor s) s) in
      let! '(more, s'') := poll_many rest s' in
      Val (polled :: more, s'')
  end.

(** Every history grew: nothing pushed is lost and pops are counted. *)
Definition grows (h h' : list InboundCommand * nat) : Prop :=
  prefix (fst h) (fst h') /\ (snd h <= snd h')%nat.
Definition hist_le : relation (list (list InboundCommand * nat)) := Forall2 grows.

#[local] Instance grows_preorder : PreOrder grows.
Proof. split; [by intros []|]. intros x y z [? ?] [? ?]. split; [by etrans|lia]. Qed.
#[local] Instance hist_le_preorder : PreOrder hist_le.
Proof. unfold hist_le. apply _. Qed.

Lemma hist_le_pop H j pu n :
  H !! j = Some (pu, n) -> hist_le H (<[j := (pu, S n)]> H).
Proof.
  intros Hl. unfold hist_le. rewrite <- (list_insert_id _ _ _ Hl) at 1.
  apply Forall2_insert; [reflexivity|]. split; simpl; [done|lia].
Qed.

Lemma produces_hist env s H :
  (forall g, produces (env g)) -> gw_hist s H ->
  exists H', gw_hist (set_gw (imap env (gw_inbound s)) (gw_cursor s) s) H' /\ hist_le H H'
    /\ map snd H' = map snd H.
Proof.
  unfold gw_hist, hist_le. simpl. intros Henv HH. revert env Henv.
  induction HH as [|q [pu n] gw H Hq HH IH]; intros env Henv; simpl in *; [by exists []|].
  destruct (Henv 0%nat q pu n Hq) as [more Hm]. destruct (IH (env ∘ S) (fun g => Henv (S g))) as (H' & ? & ? & Hs).
  exists ((pu ++ more, n) :: H'). split_and!; [by constructor| |simpl; by rewrite Hs].
  constructor; [|done]. split; [by apply prefix_app_r|done].
Qed.

(** One poll: it returns, it only pops, and if some queue is ready it serves one. *)
Lemma poll_inbound_hist s H :
  gw_hist s H ->
  exists r s' H', poll_inbound s = Val (r, s') /\ gw_hist s' H' /\ hist_le H H'
    /\ length (gw_inbound s') = length (gw_inbound s).
Proof.
  intros HH. pose proof (Forall2_length _ _ _ HH) as Hlen.
  destruct (poll_from_spec (length (gw_inbound s)) 0 s H HH eq_refl)
    as [[Hp _]|(x & pu & n & cmd & gw & Hx & _ & Hl & Hn & Hp & HH')].
  - by exists None, s, H.
  - eexists _, _, _. split; [exact Hp|]. split; [exact HH'|].
    apply Forall2_length in HH' as Hl'. rewrite length_insert in Hl'. split; [|simpl; congruence].
    by apply hist_le_pop.
Qed.

Lemma poll_many_hist envs s H :
  Forall (fun env => forall g, produces (env g)) envs -> gw_hist s H ->
  exists out s' H', poll_many envs s = Val (out, s') /\ gw_hist s' H' /\ hist_le H H'.
Proof.
  intros Henvs. revert s H. induction Henvs as [|env envs Henv _ IH]; intros s H HH.
  { by exists [], s, H. }
  destruct (produces_hist env s H Henv HH) as (H1 & HH1 & Hle1 & _).
  destruct (poll_inbound_hist _ _ HH1) as (r & s2 & H2 & Hp & HH2 & Hle2 & _).
  destruct (IH s2 H2 HH2) as (out & s3 & H3 & Hp3 & HH3 & Hle3).
  exists (r :: out), s3, H3. cbn [poll_many]. rewrite Hp. cbn [ebind]. rewrite Hp3.
  split_and!; [done..|]. etrans; [exact Hle1|]. by etrans.
Qed.

(** The poll either serves the queue at offset [x] or brings the cursor nearer. *)
Lemma poll_inbound_nearer s H x pu n cmd :
  gw_hist s H -> (x < length (gw_inbound s))%nat ->
  H !! at_offset s x = Some (pu, n) -> pu !! n = Some cmd ->
  exists r s' H', poll_inbound s = Val (r, s') /\ gw_hist s' H' /\ hist_le H H'
    /\ ((r = Some cmd /\ H' !! at_offset s x = Some (pu, S n))
        \/ (exists y, (y < x)%nat /\ at_offset s' y = at_offset s x
              /\ H' !! at_offset s x = Some (pu, n)))
    /\ length (gw_inbound s') = length (gw_inbound s).
Proof.
  intros HH Hx Hh Hn. destruct (poll_inbound_hist s H HH) as (r & s' & H' & Hp & HH' & Hle & Hlen).
  assert (Hready : ready H (at_offset s x)) by (exists pu, n; split; [done|by eapply lookup_lt_Some]).
  destruct (poll_from_spec (length (gw_inbound s)) 0 s H HH eq_refl)
    as [[_ Hnone]|(z & pu' & n' & cmd' & gw & Hz & Hbefore & Hh' & Hn' & Hp' & HH'')];
    [exfalso; by apply (Hnone x); [lia|]|].
  assert (z <= x)%nat. { destruct (decide (z <= x)%nat); [done|]. exfalso. by apply (Hbefore x); [lia|]. }
  exists (Some cmd'), (set_gw gw ((at_offset s z + 1) mod length (gw_inbound s))%nat s), (<[at_offset s z := (pu', S n')]> H).
  unfold poll_inbound in Hp. rewrite Hp' in Hp. simplify_eq. simpl in Hlen.
  split_and!; [done|done| | |done].
  - by apply hist_le_pop.
  - pose proof (lookup_lt_Some _ _ _ Hh') as Hb. destruct (decide (z = x)) as [->|Hne].
    + left. rewrite Hh in Hh'. simplify_eq. split; [done|]. by apply list_lookup_insert_eq.
    + right. exists (x - z - 1)%nat. split; [lia|]. split.
      * unfold at_offset. simpl. rewrite Hlen, Nat.Div0.add_mod_idemp_l, <- Nat.add_assoc,
          Nat.Div0.add_mod_idemp_l. f_equal. lia.
      * rewrite list_lookup_insert_ne; [done|]. unfold at_offset. intros Heq.
        assert (gw_cursor s + x = gw_cursor s + z)%nat by (apply (mod_window (length (gw_inbound s))); lia). lia.
Qed.

Lemma offset_of s g :
  (g < length (gw_inbound s))%nat -> exists x, (x < length (gw_inbound s))%nat /\ at_offset s x = g.
Proof.
  intros Hg. set (n := length (gw_inbound s)) in *.
  exists ((g + (n - gw_cursor s mod n)) mod n)%nat.
  pose proof (Nat.mod_upper_bound (gw_cursor s) n). pose proof (Nat.div_mod_eq (gw_cursor s) n) as Hc.
  split; [apply Nat.mod_upper_bound; lia|]. unfold at_offset. fold n.
  rewrite Nat.Div0.add_mod_idemp_r.
  replace (gw_cursor s + (g + (n - gw_cursor s mod n)))%nat
    with (g + (1 + gw_cursor s / n) * n)%nat by nia.
  rewrite Nat.Div0.mod_add. by apply Nat.mod_small.
Qed.

Lemma poll_fair_offset x envs s H pu n cmd :
  Forall (fun env => forall g, produces (env g)) envs -> gw_hist s H ->
  (x < length envs)%nat -> (x < length (gw_inbound s))%nat ->
  H !! at_offset s x = Some (pu, n) -> pu !! n = Some cmd ->
  exists out s' H', poll_many envs s = Val (out, s') /\ gw_hist s' H' /\ Some cmd ∈ out
    /\ exists pu' n', H' !! at_offset s x = Some (pu', n') /\ (n < n')%nat.
Proof.
  intros Henvs. revert x s H pu. induction Henvs as [|env envs Henv Henvs IH]; intros x s H pu HH Hx Hxn Hh Hn;
    simpl in Hx; [lia|].
  destruct (produces_hist env s H Henv HH) as (H1 & HH1 & Hle1 & Hs1).
  destruct (Forall2_lookup_l _ _ _ _ _ Hle1 Hh) as ([pu1 n1] & Hh1 & [more Hmore] & _).
  simpl in Hmore. subst pu1.
  assert (n1 = n) as ->.
  { apply (f_equal (fun l => l !! at_offset s x)) in Hs1. rewrite !list_lookup_fmap, Hh, Hh1 in Hs1.
    by simplify_eq. }
  set (s1 := set_gw _ _ s) in *.
  assert (Hlen : length (gw_inbound s1) = length (gw_inbound s)) by (apply length_imap).
  assert (Hoff : forall y, at_offset s1 y = at_offset s y) by (intros y; unfold at_offset; by rewrite Hlen).
  rewrite <- (Hoff x) in Hh1 |- *. apply (lookup_app_l_Some _ more) in Hn as Hn1.
  destruct (poll_inbound_nearer s1 H1 x _ n cmd HH1 ltac:(lia) Hh1 Hn1)
    as (r & s2 & H2 & Hp & HH2 & Hle2 & Hcase & Hlen2).
  cbn [poll_many]. fold s1. rewrite Hp. cbn [ebind].
  destruct Hcase as [[-> Hserved]|(y & Hy & Hoff2 & Hsame)].
  - destruct (poll_many_hist envs s2 H2 Henvs HH2) as (out & s3 & H3 & -> & HH3 & Hle3).
    destruct (Forall2_lookup_l _ _ _ _ _ Hle3 Hserved) as ([pu3 n3] & Hh3 & _ & Hn3).
    eexists _, _, _. split; [done|]. split_and!; [done|by left|]. exists pu3, n3. split; [done|].
    simpl in Hn3. lia.
  - rewrite <- Hoff2 in Hsame |- *.
    destruct (IH y s2 H2 _ HH2 ltac:(lia) ltac:(lia) Hsame Hn1) as (out & s3 & H3 & -> & HH3 & Hin & Hex).
    eexists _, _, _. split; [done|]. split_and!; [done|by right|done].
Qed.

(** *** Dispatch *)

Lemma push_all_hist {Q T cap} `{!Fifo Q T cap} env fuel j (item : T) (qs qs' : list Q) :
  (forall i, consumes (env i)) -> push_all env fuel j item qs = Val qs' ->
  length qs' = length qs
  /\ forall i q', qs' !! i = Some q' -> exists q, qs !! i = Some q
       /\ forall pu n, fifo_hist q pu n -> exists k, fifo_hist q' (pu ++ [item]) (n + k).
Proof.
  intros Henv. revert j qs'. induction qs as [|q qs IH]; intros j qs' Hp; cbn [push_all] in Hp; [by simplify_eq|].
  apply ebind_val_inv in Hp as (q1 & Hq1 & Hp). apply ebind_val_inv in Hp as (rest & Hr & Hp).
  simplify_eq. destruct (IH _ _ Hr) as [Hlen Hall]. split; [simpl; congruence|].
  intros [|i] q' Hi; simpl in *; [|by apply Hall]. simplify_eq. exists q. split; [done|].
  intros pu n Hh. by eapply spin_push_hist.
Qed.

Lemma push_all_leaves {Q T cap} `{!Fifo Q T cap} env b fuel j (item : T) (qs : list Q) :
  (0 < cap)%nat -> (forall i, consumes (env i)) -> (forall i, drains (env i) b) -> (b <= fuel)%nat ->
  (forall i q, qs !! i = Some q -> exists pu n, fifo_hist q pu n) ->
  exists qs', push_all env fuel j item qs = Val qs'.
Proof.
  intros Hc Henv Hdr Hb. revert j. induction qs as [|q qs IH]; intros j Hqs; cbn [push_all]; [by eexists|].
  destruct (Hqs 0%nat q eq_refl) as (pu & n & Hh).
  destruct (spin_push_leaves (env j) b fuel item q pu n Hc (Henv j) (Hdr j) Hb Hh) as [q' ->]. cbn [ebind].
  destruct (IH (S j)) as [rest ->]; [|by eexists]. intros i q0. apply (Hqs (S i)).
Qed.

(** Routing appends the command to exactly the engines [routed_to] names. *)
Lemma route_hist me_env fuel sc s s' :
  (forall i, consumes (me_env i)) -> route me_env fuel sc s = Val s' ->
  exists me, s' = set_me me s /\ length me = length (me_inbound s)
    /\ forall i q', me !! i = Some q' -> exists q, me_inbound s !! i = Some q
         /\ forall pu n, fifo_hist q pu n ->
              exists k, fifo_hist q' (pu ++ if routed_to i sc then [sc] else []) (n + k).
Proof.
  intros Henv. unfold route, routed_to. destruct (cmd_symbol (sc_cmd sc)) as [sym|]; intros Hr.
  - apply ebind_val_inv in Hr as (q & Hq & Hr). apply ebind_val_inv in Hr as (q1 & Hq1 & Hr). simplify_eq.
    unfold index_list in Hq. destruct (me_inbound s !! Z.to_nat sym) as [q0|] eqn:Hl; simplify_eq/=.
    eexists. split; [done|]. split; [apply length_insert|]. intros i q'.
    destruct (Nat.eqb_spec (Z.to_nat sym) i) as [<-|Hne].
    + rewrite list_lookup_insert_eq by (by eapply lookup_lt_Some). intros [= <-].
      exists q. split; [done|]. intros pu n Hh. by eapply spin_push_hist.
    + rewrite list_lookup_insert_ne by done. intros Hi. exists q'. split; [done|]. intros pu n Hh.
      exists 0%nat. by rewrite app_nil_r, Nat.add_0_r.
  - destruct (is_cancel (sc_cmd sc)).
    + apply ebind_val_inv in Hr as (me & Hm & Hr). simplify_eq. exists me. split; [done|].
      by apply push_all_hist in Hm.
    + simplify_eq. exists (me_inbound s'). split; [by destruct s'|]. split; [done|]. intros i q' Hi.
      exists q'. split; [done|]. intros pu n Hh. exists 0%nat. by rewrite app_nil_r, Nat.add_0_r.
Qed.

(** The marker is injected exactly on schedule, to every subscriber. *)
Lemma marker_hist snap_env fuel sch z s s' :
  (forall j, consumes (snap_env j)) ->
  (if should_fire sch z then inject_snapshot_marker snap_env fuel z s else Val s) = Val s' ->
  exists sn, s' = set_snap sn s
    /\ forall j q', sn !! j = Some q' -> exists q, snapshot_out s !! j = Some q
         /\ forall pu n, fifo_hist q pu n ->
              exists k, fifo_hist q' (pu ++ if should_fire sch z then [SnapshotMarker z] else []) (n + k).
Proof.
  intros Henv. destruct (should_fire sch z); intros Hm.
  - unfold inject_snapshot_marker in Hm. apply ebind_val_inv in Hm as (sn & Hp & Hm). simplify_eq.
    exists sn. split; [done|]. by apply push_all_hist in Hp as [_ Hp].
  - simplify_eq. exists (snapshot_out s'). split; [by destruct s'|]. intros j q' Hj. exists q'.
    split; [done|]. intros pu n Hh. exists 0%nat. by rewrite app_nil_r, Nat.add_0_r.
Qed.

(** *** The invariant over the steps *)

Lemma lookup_choice {A B} (P : nat -> A -> B -> Prop) (l : list A) :
  (forall i x, l !! i = Some x -> exists y, P i x y) ->
  exists k, length k = length l /\ forall i x y, l !! i = Some x -> k !! i = Some y -> P i x y.
Proof.
  revert P. induction l as [|a l IH]; intros P Hl; [by exists []|].
  destruct (Hl 0%nat a eq_refl) as [b Hb]. destruct (IH (fun i => P (S i))) as (k & Hk & Hall).
  { intros i x. apply (Hl (S i)). }
  exists (b :: k). split; [simpl; congruence|]. intros [|i] x y Hx Hy; simplify_eq/=; [done|by eapply Hall].
Qed.

Lemma inv_gw_hist init sent d s :
  front_inv init sent d s ->
  exists H, gw_hist s H /\ forall g pu n, H !! g = Some (pu, n) ->
    pu = sent_by g sent /\ from_gateway g d = take n pu.
Proof.
  intros Hi. destruct (lookup_choice (fun g q n => fifo_hist q (sent_by g sent) n
    /\ from_gateway g d = take n (sent_by g sent)) (gw_inbound s)) as (ns & Hl & Hall).
  { intros g q. apply (si_gw _ _ _ _ Hi). }
  exists (imap (fun g n => (sent_by g sent, n)) ns). split.
  - apply Forall2_same_length_lookup_2; [by rewrite length_imap|]. intros g q h Hq.
    rewrite list_lookup_imap. destruct (ns !! g) as [n|] eqn:Hn; intros [= <-]. simpl. by eapply Hall.
  - intros g pu n. rewrite list_lookup_imap. destruct (ns !! g) as [m|] eqn:Hn; intros [= <- <-].
    split; [done|]. assert (Hg : (g < length (gw_inbound s))%nat) by (rewrite <- Hl; by eapply lookup_lt_Some).
    destruct (lookup_lt_is_Some_2 _ _ Hg) as [q Hq]. by eapply Hall.
Qed.

Lemma sent_by_snoc g sent h cmd :
  sent_by g (sent ++ [(h, cmd)]) = sent_by g sent ++ if (h =? g)%nat then [cmd] else [].
Proof.
  unfold sent_by. rewrite List.filter_app, map_app. simpl. by destruct (h =? g)%nat.
Qed.

Lemma sent_by_in g sent n cmd : sent_by g sent !! n = Some cmd -> (g, cmd) ∈ sent.
Proof.
  unfold sent_by. intros H%list_elem_of_lookup_2. apply list_elem_of_In, in_map_iff in H as ([g' c] & <- & H).
  apply filter_In in H as [H Heq%Nat.eqb_eq]. simpl in Heq. subst g'. by apply list_elem_of_In.
Qed.

Lemma from_gateway_snoc g d h sc :
  from_gateway g (d ++ [(h, sc)]) = from_gateway g d ++ if (h =? g)%nat then [sc_cmd sc] else [].
Proof.
  unfold from_gateway. rewrite List.filter_app, map_app. simpl. by destruct (h =? g)%nat.
Qed.

Lemma engine_feed_snoc i d h sc :
  engine_feed i (d ++ [(h, sc)]) = engine_feed i d ++ if routed_to i sc then [sc] else [].
Proof. unfold engine_feed. rewrite map_app, List.filter_app. simpl. done. Qed.

Lemma markers_snoc sch d h sc :
  markers sch (d ++ [(h, sc)])
  = markers sch d ++ if should_fire sch (sc_seq sc) then [SnapshotMarker (sc_seq sc)] else [].
Proof.
  unfold markers. rewrite map_app, List.filter_app, map_app. simpl.
  by destruct (should_fire sch (sc_seq sc)).
Qed.

Lemma wal_push_sub (q : QW) pu n sc d h :
  fifo_hist q pu n -> sublist pu (map snd d) ->
  exists logged m, fifo_hist (snd (fifo_push sc q)) logged m
    /\ sublist logged (map snd (d ++ [(h : nat, sc)])).
Proof.
  intros Hq Hs. rewrite map_app. destruct (push_attempt q pu n sc Hq) as [(q' & -> & Hq')|[-> _]]; simpl.
  - exists (pu ++ [sc]), n. split; [done|]. by apply sublist_app.
  - exists pu, n. split; [done|]. by apply sublist_inserts_r.
Qed.

(** A polled command, once numbered, is the next entry of the log. *)
Lemma number_front init sent d s g gw c now_ns cmd n sc s' :
  front_inv init sent d s -> (g < length (gw_inbound s))%nat ->
  from_gateway g d = take n (sent_by g sent) -> sent_by g sent !! n = Some cmd ->
  length gw = length (gw_inbound s) -> (c < length gw)%nat ->
  (forall g' q, gw !! g' = Some q -> exists m, fifo_hist q (sent_by g' sent) m
     /\ (if decide (g' = g) then m = S n else from_gateway g' d = take m (sent_by g' sent))) ->
  number now_ns cmd (set_gw gw c s) = (sc, s') ->
  front_inv init sent (d ++ [(g, sc)]) s'.
Proof.
  intros Hi Hg Hfrom Hcmd Hlen Hc Hgw Hd. unfold number in Hd. simpl in Hd.
  set (sc' := mkSC _ _ _ _) in Hd. destruct (fifo_push sc' (wal_out s)) as [r w] eqn:Hw. injection Hd as <- <-.
  assert (Hseq : sc_seq sc' = wrap_u64 (seq init + Z.of_nat (length d) + 1)).
  { simpl. rewrite (si_seq _ _ _ _ Hi), wrap_u64_add_l. done. }
  split; simpl.
  - rewrite length_app. simpl. change (wrap_u64 (seq s + 1)) with (sc_seq sc'). rewrite Hseq. f_equal. lia.
  - intros k g' sc [Hk|[Hk Hx]]%lookup_app_Some; [by eapply (si_numbers _ _ _ _ Hi)|].
    destruct (k - length d)%nat eqn:E; simplify_eq/=.
    assert (k = length d) as -> by lia. exact Hseq.
  - rewrite Hlen. apply (si_gw_len _ _ _ _ Hi).
  - apply (si_me_len _ _ _ _ Hi).
  - apply (si_sch _ _ _ _ Hi).
  - by right.
  - intros g' q Hq. destruct (Hgw g' q Hq) as (m & Hh & Hm). exists m. split; [done|].
    rewrite from_gateway_snoc. case_decide as Heq.
    + subst g' m. by rewrite Nat.eqb_refl, Hfrom, (take_S_r _ _ _ Hcmd).
    + rewrite (proj2 (Nat.eqb_neq g g')) by done. by rewrite app_nil_r.
  - destruct (si_wal _ _ _ _ Hi) as (logged & m & Hl & Hs).
    pose proof (wal_push_sub _ _ _ sc' d g Hl Hs) as Hp. by rewrite Hw in Hp.
  - intros k g' sc [Hk|[Hk Hx]]%lookup_app_Some; [by eapply (si_gateways _ _ _ _ Hi)|].
    destruct (k - length d)%nat; simplify_eq/=. rewrite <- (si_gw_len _ _ _ _ Hi). done.
Qed.

(** Polling: nothing to poll, or a command of some gateway, which numbered is
    the next entry of the log. *)
Lemma poll_front init sent d s :
  front_inv init sent d s ->
  poll_inbound s = Val (None, s)
  \/ exists g cmd gw c, poll_inbound s = Val (Some cmd, set_gw gw c s) /\ (g, cmd) ∈ sent
       /\ forall now_ns sc s', number now_ns cmd (set_gw gw c s) = (sc, s') ->
            front_inv init sent (d ++ [(g, sc)]) s'.
Proof.
  intros Hi. destruct (inv_gw_hist _ _ _ _ Hi) as (H & HH & HHs).
  destruct (poll_from_spec (length (gw_inbound s)) 0 s H HH eq_refl)
    as [[Hp _]|(x & pu & n & cmd & gw & Hx & _ & Hl & Hn & Hp & HH')]; [by left|right].
  destruct (HHs _ _ _ Hl) as [-> Hfrom]. pose proof (Forall2_length _ _ _ HH) as HlH.
  apply Forall2_length in HH' as HlH'. rewrite length_insert in HlH'.
  exists (at_offset s x), cmd. eexists _, _. split; [exact Hp|]. split; [by eapply sent_by_in|].
  intros now_ns sc s'. eapply number_front;
    [exact Hi|apply at_offset_lt; lia|exact Hfrom|exact Hn|congruence| |].
  - rewrite HlH', <- HlH. apply Nat.mod_upper_bound. lia.
  - intros g' q Hq. destruct (Forall2_lookup_l _ _ _ _ _ HH' Hq) as ([pu' m] & Hh & Hist).
    case_decide as Heq.
    + subst g'. rewrite list_lookup_insert_eq in Hh by (rewrite <- HlH; apply at_offset_lt; lia).
      simplify_eq. by eexists.
    + rewrite list_lookup_insert_ne in Hh by done. destruct (HHs _ _ _ Hh) as [-> ?]. by exists m.
Qed.

(** [number] leaves the engines' and subscribers' queues alone. *)
Lemma number_frame now_ns cmd s sc s' :
  number now_ns cmd s = (sc, s') ->
  me_inbound s' = me_inbound s /\ snapshot_out s' = snapshot_out s
  /\ snapshot_schedule s' = snapshot_schedule s /\ seq s' = sc_seq sc
  /\ sc = mkSC (rh_term (role_handle s)) (wrap_u64 (seq s + 1)) now_ns cmd.
Proof. unfold number. simpl. destruct (fifo_push _ _) as [r w]. intros [= <- <-]. done. Qed.

Lemma front_frame init sent d s me sn :
  front_inv init sent d s -> length me = length (me_inbound s) ->
  front_inv init sent d (set_snap sn (set_me me s)).
Proof. intros [] Hl. split; simpl; try done. by rewrite Hl. Qed.

(** The second half of [dispatch] delivers it. *)
Lemma deliver_inv init sent d g sc s s0 me_env snap_env fuel s' :
  (forall i, consumes (me_env i)) -> (forall j, consumes (snap_env j)) ->
  front_inv init sent (d ++ [(g, sc)]) s ->
  (forall i q, me_inbound s !! i = Some q -> exists n, fifo_hist q (engine_feed i d) n) ->
  (forall j q, snapshot_out s !! j = Some q -> exists n, fifo_hist q (markers (snapshot_schedule init) d) n) ->
  route me_env fuel sc s = Val s0 ->
  (if should_fire (snapshot_schedule s0) (sc_seq sc)
   then inject_snapshot_marker snap_env fuel (sc_seq sc) s0 else Val s0) = Val s' ->
  seq_inv init sent (d ++ [(g, sc)]) s'.
Proof.
  intros Hme Hsnap Hi Hme0 Hsn0 Hr Hm.
  apply route_hist in Hr as (me & -> & Hml & Hmh); [|done]. simpl in *.
  apply marker_hist in Hm as (sn & -> & Hsn); [|done]. simpl in *.
  split; [by apply front_frame|..]; simpl.
  - intros i q' Hq'. destruct (Hmh i q' Hq') as (q & Hq & Hh).
    destruct (Hme0 i q Hq) as (m & Hm). rewrite engine_feed_snoc. destruct (Hh _ _ Hm) as [k Hk]. by eexists.
  - intros j q' Hq'. destruct (Hsn j q' Hq') as (q & Hq & Hh).
    destruct (Hsn0 j q Hq) as (m & Hm). rewrite markers_snoc, <- (si_sch _ _ _ _ Hi) in *.
    destruct (Hh _ _ Hm) as [k Hk]. by eexists.
Qed.

Lemma run_iter_inv init sent d s me_env snap_env fuel now_ns s' :
  (forall i, consumes (me_env i)) -> (forall j, consumes (snap_env j)) ->
  seq_inv init sent d s -> run_iter me_env snap_env fuel now_ns s = Val s' ->
  exists d', seq_inv init sent (d ++ d') s'.
Proof.
  intros Hme Hsnap Hi. unfold run_iter. destruct (GlobalHalt.is_set (halt s)); [done|].
  destruct (is_leader (role_handle s)); simpl; intros Hr;
    [|simplify_eq; exists []; by rewrite app_nil_r].
  destruct (poll_front _ _ _ _ (si_front _ _ _ _ Hi)) as [Hp|(g & cmd & gw & c & Hp & _ & Hnum)];
    rewrite Hp in Hr; cbn [ebind] in Hr; [simplify_eq; exists []; by rewrite app_nil_r|].
  unfold dispatch in Hr. destruct (number now_ns cmd _) as [sc s1] eqn:Hn.
  specialize (Hnum _ _ _ Hn). apply number_frame in Hn as (Hm1 & Hs1 & _).
  apply ebind_val_inv in Hr as (s2 & Hr & Hm). exists [(g, sc)].
  eapply deliver_inv; [exact Hme|exact Hsnap|exact Hnum|..|exact Hr|exact Hm].
  - rewrite Hm1. apply (si_me _ _ _ _ Hi).
  - rewrite Hs1. apply (si_snap _ _ _ _ Hi).
Qed.

Lemma fifo_push_ok_hist {Q T cap} `{!Fifo Q T cap} (q q' : Q) (x : T) pu n :
  fifo_push x q = (Ok tt, q') -> fifo_hist q pu n -> fifo_hist q' (pu ++ [x]) n.
Proof.
  intros Hp Hq. destruct (push_attempt q pu n x Hq) as [(q1 & Hp1 & ?)|[Hp1 _]]; congruence.
Qed.

Lemma fifo_pop_some_hist {Q T cap} `{!Fifo Q T cap} (q q' : Q) (x : T) pu n :
  fifo_pop q = Val (Some x, q') -> fifo_hist q pu n -> fifo_hist q' pu (S n).
Proof.
  intros Hp Hq. pose proof (fifo_pop_hist q pu n Hq) as Hp1. destruct (pu !! n); [|congruence].
  destruct Hp1 as (q1 & Hp1 & ?). congruence.
Qed.

(** Gateways push to their own queue, the WAL writer pops its own. *)
Lemma gateway_front init sent d s g q q' cmd :
  front_inv init sent d s -> gw_inbound s !! g = Some q -> fifo_push cmd q = (Ok tt, q') ->
  front_inv init (sent ++ [(g, cmd)]) d (set_gw (<[g := q']> (gw_inbound s)) (gw_cursor s) s).
Proof.
  intros Hi Hq Hp. destruct Hi. split; simpl; try done; rewrite ?length_insert; try done.
  intros g' q1 Hq1. rewrite sent_by_snoc.
  apply list_lookup_insert_Some in Hq1 as [(<- & <- & _)|(Hne & Hq1)].
  - rewrite Nat.eqb_refl. destruct (si_gw0 _ _ Hq) as (n & Hh & Hf). exists n.
    split; [by eapply fifo_push_ok_hist|]. rewrite Hf, take_app_le; [done|]. by apply fifo_bound in Hh as [? _].
  - rewrite (proj2 (Nat.eqb_neq g g')) by done. rewrite app_nil_r. by apply si_gw0.
Qed.

Lemma wal_front init sent d s q' sc :
  front_inv init sent d s -> fifo_pop (wal_out s) = Val (Some sc, q') -> front_inv init sent d (set_wal q' s).
Proof.
  intros Hi Hp. destruct Hi as [? ? ? ? ? ? ? (logged & n & Hh & Hs) ?]. split; simpl; try done.
  exists logged, (S n). split; [by eapply fifo_pop_some_hist|done].
Qed.

Lemma control_front init sent d s h r : front_inv init sent d s -> front_inv init sent d (set_control h r s).
Proof. by intros []. Qed.

Lemma sys_step_inv init sent d s l s' :
  seq_inv init sent d s -> sys_step s l s' -> exists d', seq_inv init (sent ++ l) (d ++ d') s'.
Proof.
  intros Hi Hstep. destruct Hstep as [s g q q' cmd Hq Hp|s i q q' sc Hq Hp|s q' sc Hp|s j q q' ev Hq Hp|s|s r
    |s me_env snap_env fuel now_ns s' Hme Hsn Hr]; rewrite ?app_nil_r;
    [exists []; rewrite app_nil_r; destruct Hi as [Hf Hm Hs]..|by eapply run_iter_inv].
  - split; [by eapply gateway_front|exact Hm|exact Hs].
  - split; [|simpl|exact Hs].
    { destruct Hf. split; simpl; try done. by rewrite length_insert. }
    intros i' q1 [(<- & <- & _)|(Hne & Hq1)]%list_lookup_insert_Some; [|by apply Hm].
    destruct (Hm _ _ Hq) as (n & Hh). exists (S n). by eapply fifo_pop_some_hist.
  - split; [by eapply wal_front|exact Hm|exact Hs].
  - split; [by destruct Hf|exact Hm|simpl].
    intros j' q1 [(<- & <- & _)|(Hne & Hq1)]%list_lookup_insert_Some; [|by eapply Hs].
    destruct (Hs _ _ Hq) as (n & Hh). exists (S n). by eapply fifo_pop_some_hist.
  - split; [by apply control_front|exact Hm|exact Hs].
  - split; [by apply control_front|exact Hm|exact Hs].
Qed.

Lemma sys_run_inv n_gw n_me n_sub sch role z sent s :
  in_u64 z -> sys_run (fresh n_gw n_me n_sub sch role z) sent s ->
  exists d, seq_inv (fresh n_gw n_me n_sub sch role z) sent d s.
Proof.
  intros Hz. induction 1 as [|sent s l s' _ [d IH] Hs]; [exists []; by apply fresh_inv|].
  destruct (sys_step_inv _ _ _ _ _ _ IH Hs) as [d' Hd']. by eexists.
Qed.

(** The command's symbol, if it has one, has a matching engine. *)
Definition known_symbol (n_me : nat) (cmd : InboundCommand) : bool :=
  match cmd_symbol cmd with
  | Some symbol => bool_decide (Z.to_nat symbol < n_me)%nat
  | None => true
  end.

(** Routing fails only on a symbol without a queue. *)
Lemma route_leaves b me_env fuel sc s :
  (forall i, consumes (me_env i)) -> (forall i, drains (me_env i) b) -> (b <= fuel)%nat ->
  (forall i q, me_inbound s !! i = Some q -> exists pu n, fifo_hist q pu n) ->
  if known_symbol (length (me_inbound s)) (sc_cmd sc)
  then exists s', route me_env fuel sc s = Val s'
  else route me_env fuel sc s = Panic.
Proof.
  intros Hme Hdr Hb Hqs. assert (Hcap : (0 < ME_INBOUND_CAP)%nat) by (unfold ME_INBOUND_CAP; lia).
  unfold route, known_symbol. destruct (cmd_symbol (sc_cmd sc)) as [sym|].
  - case_bool_decide as Hlt.
    + destruct (lookup_lt_is_Some_2 _ _ Hlt) as [q Hq]. rewrite (index_list_lt _ _ _ Hq). cbn [ebind].
      destruct (Hqs _ _ Hq) as (pu & n & Hh).
      destruct (spin_push_leaves (me_env (Z.to_nat sym)) b fuel sc q pu n) as [q' ->]; [done..|]. by eexists.
    + unfold index_list. rewrite lookup_ge_None_2 by lia. done.
  - destruct (is_cancel (sc_cmd sc)); [|by eexists].
    destruct (push_all_leaves me_env b fuel 0 sc (me_inbound s)) as [me ->]; [done..|]. by eexists.
Qed.

Lemma engine_append (s : Sequencer) sc (me : list QM) :
  length me = length (me_inbound s) ->
  (forall i q', me !! i = Some q' -> exists q, me_inbound s !! i = Some q
     /\ forall pu n, fifo_hist q pu n ->
          exists k, fifo_hist q' (pu ++ if routed_to i sc then [sc] else []) (n + k)) ->
  forall i q pu n, me_inbound s !! i = Some q -> fifo_hist q pu n ->
    exists q' k, me !! i = Some q' /\ fifo_hist q' (pu ++ if routed_to i sc then [sc] else []) (n + k).
Proof.
  intros Hl Hall i q pu n Hq Hh. apply lookup_lt_Some in Hq as Hlt. rewrite <- Hl in Hlt.
  destruct (lookup_lt_is_Some_2 _ _ Hlt) as [q' Hq']. destruct (Hall i q' Hq') as (q0 & Hq0 & Hf).
  simplify_eq. destruct (Hf _ _ Hh) as [k Hk]. by exists q', k.
Qed.

(** ** Theorems *)

(** C18. Total order, no loss, no duplication: in every run of the sequencer
    with its gateways, engines, WAL writer and subscribers there is one
    sequence of dispatched commands, numbered consecutively from the initial
    number (modulo 2^64), which merges prefixes of what the gateways sent;
    every matching engine's queue has received exactly the commands routed to
    it (its symbol's, and every cancel) in that order; the WAL queue a
    subsequence of it; and every subscriber one marker per multiple of the
    snapshot interval. *)
Theorem sequencer_total_order n_gw n_me n_sub sch r z sent s :
  in_u64 z -> sys_run (fresh n_gw n_me n_sub sch r z) sent s ->
  exists d : Log,
    (forall k g sc, d !! k = Some (g, sc) ->
       (g < n_gw)%nat /\ sc_seq sc = wrap_u64 (z + Z.of_nat k + 1))
    /\ (forall g q, gw_inbound s !! g = Some q ->
          exists n, fifo_hist q (sent_by g sent) n /\ from_gateway g d = take n (sent_by g sent))
    /\ (forall i q, me_inbound s !! i = Some q -> exists n, fifo_hist q (engine_feed i d) n)
    /\ (exists logged n, fifo_hist (wal_out s) logged n /\ sublist logged (map snd d))
    /\ (forall j q, snapshot_out s !! j = Some q -> exists n, fifo_hist q (markers sch d) n).
Proof.
  intros Hz Hrun. destruct (sys_run_inv _ _ _ _ _ _ _ _ Hz Hrun) as [d [[? Hnum ? ? ? ? Hgw Hwal Hg] Hme Hsn]].
  simpl in Hg. rewrite length_replicate in Hg. exists d. split_and!; [|done..].
  intros k g sc Hk. split; [by eapply Hg|by apply (Hnum k g sc)].
Qed.

(** C19. Dispatch delivers: when the engines and subscribers drain their
    queues, [dispatch] leaves all its spin loops; it panics exactly on a
    symbol that has no matching engine, and otherwise the number is the next
    one, the command carries the current fencing term, every engine it is
    routed to has it appended once and every other engine's queue is left
    alone. *)
Theorem sequencer_dispatch_delivers n_gw n_me n_sub sch r z sent s b fuel me_env snap_env now_ns cmd :
  in_u64 z -> sys_run (fresh n_gw n_me n_sub sch r z) sent s ->
  (forall i, consumes (me_env i)) -> (forall i, drains (me_env i) b) ->
  (forall j, consumes (snap_env j)) -> (forall j, drains (snap_env j) b) -> (b <= fuel)%nat ->
  let sc := mkSC (rh_term (role_handle s)) (wrap_u64 (seq s + 1)) now_ns cmd in
  if known_symbol n_me cmd then
    exists s', dispatch me_env snap_env fuel now_ns cmd s = Val s' /\ seq s' = sc_seq sc
      /\ forall i q pu n, me_inbound s !! i = Some q -> fifo_hist q pu n ->
           exists q' k, me_inbound s' !! i = Some q'
             /\ fifo_hist q' (pu ++ if routed_to i sc then [sc] else []) (n + k)
  else dispatch me_env snap_env fuel now_ns cmd s = Panic.
Proof.
  intros Hz Hrun Hme Hmd Hsn Hsd Hb sc. destruct (sys_run_inv _ _ _ _ _ _ _ _ Hz Hrun) as [d Hi].
  assert (Hn : length (me_inbound s) = n_me) by (rewrite (si_me_len _ _ _ _ Hi); apply length_replicate).
  unfold dispatch. destruct (number now_ns cmd s) as [sc' s1] eqn:Hnum.
  destruct (number_frame _ _ _ _ _ Hnum) as (Hm1 & Hs1 & Hsch & Hseq & ->). fold sc in Hnum, Hseq |- *.
  pose proof (route_leaves b me_env fuel sc s1 Hme Hmd Hb) as Hr. rewrite Hm1, Hn in Hr. simpl in Hr.
  destruct (known_symbol n_me cmd).
  - destruct Hr as [s2 Hr]. { intros i q Hq. destruct (si_me _ _ _ _ Hi i q Hq) as [n ?]. by eexists _, n. }
    rewrite Hr. cbn [ebind]. apply route_hist in Hr as (me & -> & Hl & Hall); [|done].
    assert (Hm : exists s3, (if should_fire (snapshot_schedule (set_me me s1)) (sc_seq sc)
      then inject_snapshot_marker snap_env fuel (sc_seq sc) (set_me me s1) else Val (set_me me s1)) = Val s3).
    { destruct (should_fire _ _); [|by eexists]. unfold inject_snapshot_marker.
      destruct (push_all_leaves snap_env b fuel 0 (SnapshotMarker (sc_seq sc)) (snapshot_out s)) as [sn Hp];
        [unfold FANOUT_CAP; lia|done..| |].
      - intros j q Hq. destruct (si_snap _ _ _ _ Hi j q Hq) as [n ?]. by eexists _, n.
      - change (snapshot_out (set_me me s1)) with (snapshot_out s1). rewrite Hs1, Hp. by eexists. }
    destruct Hm as [s3 Hm]. exists s3. split; [exact Hm|].
    apply (marker_hist snap_env fuel) in Hm as (sn & -> & _); [|done]. split; [exact Hseq|].
    intros i q pu n. rewrite <- Hm1. by apply (engine_append s1 sc me).
  - rewrite Hr; [done|]. intros i q Hq. destruct (si_me _ _ _ _ Hi i q Hq) as [n ?]. by eexists _, n.
Qed.

(** C20. No gateway starves: whatever the gateways push meanwhile, a command
    at the head of a gateway's queue is returned by one of the next [n] polls,
    [n] being the number of gateways; polling never fails. *)
Theorem sequencer_poll_fair envs s H g pu n cmd :
  gw_hist s H -> Forall (fun env => forall g, produces (env g)) envs ->
  (length (gw_inbound s) <= length envs)%nat ->
  H !! g = Some (pu, n) -> pu !! n = Some cmd ->
  exists out s' H', poll_many envs s = Val (out, s') /\ gw_hist s' H' /\ Some cmd ∈ out
    /\ exists pu' n', H' !! g = Some (pu', n') /\ (n < n')%nat.
Proof.
  intros HH Henvs Hlen Hg Hn. pose proof (Forall2_length _ _ _ HH) as Hl.
  apply lookup_lt_Some in Hg as Hlt. rewrite <- Hl in Hlt.
  destruct (offset_of s g Hlt) as (x & Hx & Hoff). rewrite <- Hoff in Hg |- *.
  eapply poll_fair_offset; [done|done|lia|done|done|done].
Qed.
End Sequencer.

(** ** Witnesses: the sequencer on the rings of spsc.rs *)

Module SequencerDemo.
#[export] Instance me_cap_ok : CapOk ME_INBOUND_CAP.
Proof. exists 12. split; [lia|reflexivity]. Qed.
#[export] Instance fan_cap_ok : CapOk FANOUT_CAP.
Proof. exists 14. split; [lia|reflexivity]. Qed.

Definition gw_fifo : Fifo (Spsc.Queue (T := InboundCommand)) InboundCommand ME_INBOUND_CAP := spsc_fifo_instance _.
Definition me_fifo : Fifo (Spsc.Queue (T := SequencedCommand)) SequencedCommand ME_INBOUND_CAP := spsc_fifo_instance _.
Definition wal_fifo : Fifo (Spsc.Queue (T := SequencedCommand)) SequencedCommand WAL_CAP := spsc_fifo_instance FANOUT_CAP.
Definition snap_fifo : Fifo (Spsc.Queue (T := EngineEvent)) EngineEvent FANOUT_CAP := spsc_fifo_instance _.

(** Two gateways, two symbols, one subscriber, a marker after every command. *)
Definition init := @fresh _ _ _ _ gw_fifo me_fifo wal_fifo snap_fifo 2 2 1 (mkSchedule 1) for_test_leader 41.
Definition order : InboundCommand := Inbound_NewOrder 1 7 1 Buy 100 5 Limit Gtc.

Definition sent_state : Sequencer :=
  set_gw (<[1%nat := snd (@fifo_push _ _ _ gw_fifo order (@fifo_new _ _ _ gw_fifo))]> (gw_inbound init)) 0 init.

Definition iter := @run_iter _ _ _ _ gw_fifo me_fifo wal_fifo snap_fifo
  (fun _ => @pop_one _ _ _ me_fifo) (fun _ => @pop_one _ _ _ snap_fifo) 1 99.

Definition done_state : Sequencer := match iter sent_state with Val s => s | _ => sent_state end.

(** The gateway's order is numbered 42 and waits in the queue of symbol 1. *)
Lemma iter_done : iter sent_state = Val done_state.
Proof.
  assert (Hok : match iter sent_state with Val _ => true | _ => false end = true) by (vm_compute; reflexivity).
  unfold done_state. destruct (iter sent_state); done.
Qed.

Lemma demo_run : @sys_run _ _ _ _ gw_fifo me_fifo wal_fifo snap_fifo init [(1%nat, order)] done_state.
Proof.
  change [(1%nat, order)] with ([(1%nat, order)] ++ []).
  apply sr_step with (s := sent_state).
  - change [(1%nat, order)] with ([] ++ [(1%nat, order)]). apply sr_step with (s := init); [constructor|].
    apply (ss_gateway init 1 (@fifo_new _ _ _ gw_fifo)); [reflexivity|].
    assert (Hok : is_ok (fst (@fifo_push _ _ _ gw_fifo order (@fifo_new _ _ _ gw_fifo))) = true)
      by (vm_compute; reflexivity).
    destruct (fifo_push order _) as [[[]|e] q]; done.
  - eapply ss_iter; [| |exact iter_done]; intros i; apply pop_one_consumes.
Qed.

Lemma sequencer_total_order_witness :
  exists d : list (nat * SequencedCommand),
    forall k g sc, d !! k = Some (g, sc) -> (g < 2)%nat /\ sc_seq sc = wrap_u64 (41 + Z.of_nat k + 1).
Proof.
  destruct (@sequencer_total_order _ _ _ _ gw_fifo me_fifo wal_fifo snap_fifo 2 2 1 (mkSchedule 1)
    for_test_leader 41 [(1%nat, order)] done_state) as (d & H & _); [unfold in_u64, two64; lia|exact demo_run|].
  exists d. exact H.
Defined.

Lemma sequencer_dispatch_delivers_witness :
  exists s', @dispatch _ _ _ _ me_fifo wal_fifo snap_fifo (fun _ => @pop_one _ _ _ me_fifo)
    (fun _ => @pop_one _ _ _ snap_fifo) 1 99 order done_state = Val s' /\ seq s' = wrap_u64 (seq done_state + 1).
Proof.
  destruct (@sequencer_dispatch_delivers _ _ _ _ gw_fifo me_fifo wal_fifo snap_fifo 2 2 1 (mkSchedule 1)
    for_test_leader 41 [(1%nat, order)] done_state 1 1 (fun _ => @pop_one _ _ _ me_fifo)
    (fun _ => @pop_one _ _ _ snap_fifo) 99 order) as (s' & H1 & H2 & _);
    [unfold in_u64, two64; lia|exact demo_run|intros ?..|lia|exists s'; exact (conj H1 H2)].
  - apply pop_one_consumes.
  - apply pop_one_drains.
  - apply pop_one_consumes.
  - apply pop_one_drains.
Defined.

Lemma first_push :
  @fifo_hist _ _ _ gw_fifo (snd (@fifo_push _ _ _ gw_fifo order (@fifo_new _ _ _ gw_fifo))) [order] 0.
Proof.
  destruct (push_attempt (Fifo0 := gw_fifo) _ [] 0 order fifo_new_hist) as [(q' & -> & H)|[_ H]]; [done|].
  unfold ME_INBOUND_CAP in H. simpl in H. lia.
Qed.

(** The gateways push nothing more; both polls are granted. *)
Lemma sequencer_poll_fair_witness :
  exists out s', @poll_many _ _ _ _ gw_fifo [fun _ q => q; fun _ q => q] sent_state = Val (out, s')
    /\ Some order ∈ out.
Proof.
  destruct (@sequencer_poll_fair _ _ _ _ gw_fifo [fun _ q => q; fun _ q => q] sent_state
    [([], 0%nat); ([order], 0%nat)] 1 [order] 0 order) as (out & s' & _ & H1 & _ & H2 & _);
    [|..|exists out, s'; exact (conj H1 H2)]; try reflexivity; try (simpl; lia).
  - constructor; [apply (@fifo_new_hist _ _ _ gw_fifo)|]. constructor; [|constructor].
    exact first_push.
  - repeat constructor; intros g q pu n Hq; exists []; by rewrite app_nil_r.
Defined.
End SequencerDemo.
