(* ===== verification/Pipeline.v ===== *)
(** * Pipeline: gateways, sequencer and matching engines together

    The threads of the trading core composed at the granularity of ring
    operations: a gateway pushes a command; the sequencer polls and numbers it
    ([number] of Sequencer.v), then pushes it to one matching engine after the
    other, each push waiting for room; every matching engine runs its own loop
    ([run_turn] of Engine.v) on its ring; the WAL writer, the subscribers, the
    consumers of the engines' outputs and the risk shards, which rewrite the
    account table, run at any time.  Every engine is proved to follow the
    abstract engine of EngineSpec.v along its part of one totally ordered log. *)

From S2P Require Import Prelude CoreTypes SlotMap OrderBook BookSpec BookMarket BookRep BookInv.
From S2P Require Import BookRefine BookTheorems Seqlock RingBuffer Fifo Metrics Engine EngineTheorems.
From S2P Require Import EngineSpec Sequencer.
#[local] Open Scope Z_scope.

#[export] Instance me_ring_cap : CapOk ME_INBOUND_CAP.
Proof. exists 12. split; [lia|reflexivity]. Qed.

(** The engines a command goes to, in the order [dispatch] pushes to them. *)
Definition targets (n_me : nat) (cmd : InboundCommand) : list nat :=
  match cmd_symbol cmd with
  | Some symbol => [Z.to_nat symbol]
  | None => if is_cancel cmd then List.seq 0 n_me else []
  end.

Section Pipeline.
Context {SM : SlotMapApi} {SML : SlotMapLaws SM} {W : Type} {WW : WalWriter W}.
Context {QG QW QS : Type} `{!Fifo QG InboundCommand ME_INBOUND_CAP}
  `{!Fifo QW SequencedCommand WAL_CAP} `{!Fifo QS EngineEvent FANOUT_CAP}.
Context (out_env : nat -> Spsc.Queue (T := Event) -> Spsc.Queue (T := Event))
        (risk_env : nat -> Spmc.Queue (T := EngineEvent) -> Spmc.Queue (T := EngineEvent))
        (risk_elapsed match_elapsed : SequencedCommand -> Z).
#[local] Abbreviation Engine := (MatchingEngine (W := W)).
#[local] Abbreviation QM := (Spsc.Queue (T := SequencedCommand)).
#[local] Abbreviation Seq := (@Sequencer QG QM QW QS).
#[local] Abbreviation Log := (list (nat * SequencedCommand)).
#[local] Abbreviation turnE := (run_turn out_env risk_env risk_elapsed match_elapsed).

(** [pl_pending]: the command being dispatched and the engines still to get it. *)
Record Pipeline := mkPipeline {
  pl_seq : Seq;
  pl_pending : option (SequencedCommand * list nat);
  pl_engines : list Engine
}.

Definition pl_set_seq (s : Seq) (p : Pipeline) : Pipeline := mkPipeline s (pl_pending p) (pl_engines p).
Definition pl_set_engine (i : nat) (e : Engine) (p : Pipeline) : Pipeline :=
  mkPipeline (pl_seq p) (pl_pending p) (<[i := e]> (pl_engines p)).

Inductive pl_step : Pipeline -> list (nat * InboundCommand) -> Pipeline -> Prop :=
(** A gateway pushes a command. *)
| ps_gateway p g q q' cmd :
    gw_inbound (pl_seq p) !! g = Some q -> fifo_push cmd q = (Ok tt, q') ->
    pl_step p [(g, cmd)]
      (pl_set_seq (set_gw (<[g := q']> (gw_inbound (pl_seq p))) (gw_cursor (pl_seq p)) (pl_seq p)) p)
(** The sequencer, between two commands: poll, number, push to the WAL queue. *)
| ps_poll p cmd s1 sc s2 now_ns :
    pl_pending p = None -> GlobalHalt.is_set (halt (pl_seq p)) = false ->
    is_leader (role_handle (pl_seq p)) = true ->
    poll_inbound (pl_seq p) = Val (Some cmd, s1) -> number now_ns cmd s1 = (sc, s2) ->
    pl_step p [] (mkPipeline s2 (Some (sc, targets (length (me_inbound s2)) cmd)) (pl_engines p))
(** One successful push to the next engine; a push to a full ring changes nothing. *)
| ps_push p sc i rest q q' :
    pl_pending p = Some (sc, i :: rest) ->
    me_inbound (pl_seq p) !! i = Some q -> Spsc.try_push ME_INBOUND_CAP sc q = (Ok tt, q') ->
    pl_step p [] (mkPipeline (set_me (<[i := q']> (me_inbound (pl_seq p))) (pl_seq p))
                    (Some (sc, rest)) (pl_engines p))
(** All engines have it: the snapshot marker, on schedule. *)
| ps_finish p sc snap_env fuel s' :
    pl_pending p = Some (sc, []) -> (forall j, consumes (snap_env j)) ->
    (if should_fire (snapshot_schedule (pl_seq p)) (sc_seq sc)
     then inject_snapshot_marker snap_env fuel (sc_seq sc) (pl_seq p) else Val (pl_seq p)) = Val s' ->
    pl_step p [] (mkPipeline s' None (pl_engines p))
(** A turn of the loop of engine [i]. *)
| ps_engine p i q e q' e' :
    me_inbound (pl_seq p) !! i = Some q -> pl_engines p !! i = Some e -> e_running e = true ->
    turnE q e = Val (q', e') ->
    pl_step p [] (pl_set_engine i e'
                    (pl_set_seq (set_me (<[i := q']> (me_inbound (pl_seq p))) (pl_seq p)) p))
(** The risk shards and operators rewrite the account table an engine reads. *)
| ps_risk p i e t :
    pl_engines p !! i = Some e -> table_ok t -> pl_step p [] (pl_set_engine i (e_set_states t e) p)
(** The consumers of an engine's two output rings, and its shutdown. *)
| ps_outputs p i e out rout :
    pl_engines p !! i = Some e ->
    pl_step p [] (pl_set_engine i (e_set_risk_out rout (e_set_outbound out (e_published e) e)) p)
| ps_shutdown p i e :
    pl_engines p !! i = Some e -> pl_step p [] (pl_set_engine i (shutdown e) p)
(** The WAL writer, the subscribers, the halt switch and the elections. *)
| ps_wal p q' sc :
    fifo_pop (wal_out (pl_seq p)) = Val (Some sc, q') ->
    pl_step p [] (pl_set_seq (set_wal q' (pl_seq p)) p)
| ps_subscriber p sn : pl_step p [] (pl_set_seq (set_snap sn (pl_seq p)) p)
| ps_control p h r :
    0 <= rh_term r -> pl_step p [] (pl_set_seq (set_control h r (pl_seq p)) p).

Inductive pl_run (init : Pipeline) : list (nat * InboundCommand) -> Pipeline -> Prop :=
| plr_init : pl_run init [] init
| plr_step sent p l p' : pl_run init sent p -> pl_step p l p' -> pl_run init (sent ++ l) p'.

(** ** What an engine has received and done *)

Context (limits : nat -> Tier0Limits) (cfg : nat -> BookConfig) (wal0 : nat -> W).

(** The commands pushed to engine [i]'s ring, of those in the log [d]. *)
Definition delivered (i : nat) (d : Log) (pending : option (SequencedCommand * list nat)) : list SequencedCommand :=
  match pending with
  | Some (_, rest) => if bool_decide (i ∈ rest) then engine_feed i (removelast d) else engine_feed i d
  | None => engine_feed i d
  end.

(** Engine [i] has handled [hist]: it implements the abstract engine after
    [hist], and its log and published stream hold the events of [hist]. *)
Definition followed (i : nat) (hist : list SequencedCommand) (e : Engine) : Prop :=
  exists ts s evs lg,
    length ts = length hist
    /\ engine_specs (limits i) ts hist (mkAEngine (new_abook (cfg i)) None) = (s, evs)
    /\ implements (limits i) s e
    /\ logged e = wal_events (wal0 i) ++ lg /\ lg `sublist_of` evs
    /\ (e_running e = true -> lg = evs) /\ e_published e `sublist_of` lg
    /\ (forall o, o ∈ ab_all (ae_book s) -> a_id o = a_seq o
          /\ exists sc, sc ∈ hist /\ sc_seq sc = a_seq o /\ is_Some (cmd_symbol (sc_cmd sc))).

(** The engines at start-up. *)
Definition start_engine (out : Spsc.Queue (T := Event)) (rout : Spmc.Queue (T := EngineEvent))
    (t : AccountRiskTable) (i : nat) : Engine :=
  MatchingEngine_new (limits i) (OrderBook_new (cfg i)) out rout t (wal0 i).

Lemma start_followed i out rout t : cfg_ok (cfg i) -> table_ok t -> followed i [] (start_engine out rout t i).
Proof.
  intros Hc Ht. exists [], (mkAEngine (new_abook (cfg i)) None), [], []. split_and!; try done.
  - split; try done; [by apply OrderBook_new_rep|apply new_abook_ok].
  - unfold logged. simpl. by rewrite app_nil_r.
  - intros o Ho. by apply elem_of_nil in Ho.
Qed.

(** An order on the book after a command was there before, up to its quantity,
    or is the command's. *)
Lemma engine_spec_orders l t s cmd (P : aorder -> Prop) :
  cmd_ok cmd -> qty_free P -> Forall P (ab_all (ae_book s)) ->
  (forall account q side price, is_Some (cmd_symbol (sc_cmd cmd)) ->
     P (mkAOrder (sc_seq cmd) account q side price (sc_seq cmd))) ->
  Forall P (ab_all (ae_book (engine_spec l t s cmd).1)).
Proof.
  intros Hok HP Hf Hnew. assert (Hap : Forall P (ab_all (spec_apply (ae_book s) cmd).1)).
  { apply spec_apply_orders; [done..|]. intros ? ? ? ? ? ? ? ? q Hc. apply Hnew. rewrite Hc. by eexists. }
  unfold engine_spec. destruct (sc_cmd cmd) as [account coid symbol side price qty ot tif|account oid|symbol account|account].
  - destruct (tier0_verdict _ _ _ _ _); [done|]. by destruct (spec_apply (ae_book s) cmd).
  - by destruct (spec_apply (ae_book s) cmd).
  - rewrite Forall_forall in *. intros x. simpl. unfold ab_all, drop_account in *. simpl.
    rewrite <- List.filter_app, list_elem_of_In, filter_In, <- list_elem_of_In. naive_solver.
  - done.
Qed.

(** Handling the next command. *)
Lemma followed_step i hist e cmd :
  followed i hist e -> e_running e = true -> cmd_ok cmd -> 0 <= sc_term cmd ->
  Forall (fun sc => sc_seq sc < sc_seq cmd) hist ->
  exists e', handle_command out_env risk_env risk_elapsed match_elapsed cmd e = Val e'
    /\ followed i (hist ++ [cmd]) e'.
Proof.
  intros (ts & s & evs & lg & Hlen & Hspec & Him & Hlg & _ & Hrun & Hpub & Hord) Hr Hok Ht Hlt.
  specialize (Hrun Hr) as ->. rewrite Forall_forall in Hlt.
  destruct (handle_command_refine out_env risk_env risk_elapsed match_elapsed (limits i) cmd s e Him)
    as (e' & He & Him' & l & p & Hl & Hsub & Hrun' & Hp & Hps); [|done..|].
  { apply Forall_forall. intros o (_ & sc & Hsc & <- & _)%Hord. by apply Hlt. }
  pose proof (engine_spec_orders (limits i) (e_risk_states e) s cmd (fun o => a_id o = a_seq o
    /\ exists sc, sc ∈ hist ++ [cmd] /\ sc_seq sc = a_seq o /\ is_Some (cmd_symbol (sc_cmd sc))) Hok) as Ho.
  exists e'. split; [done|]. destruct (engine_spec (limits i) (e_risk_states e) s cmd) as [s' more] eqn:Hs.
  exists (ts ++ [e_risk_states e]), s', (evs ++ more), (evs ++ l). simpl in *.
  split_and!; [rewrite !length_app; simpl; congruence| |done|..].
  - rewrite engine_specs_snoc, Hspec, Hs by done. done.
  - by rewrite Hl, Hlg, app_assoc.
  - by apply sublist_app.
  - intros Hr'. by rewrite Hrun'.
  - rewrite Hp. by apply sublist_app.
  - rewrite <- Forall_forall. apply Ho.
    + intros x y (-> & _ & -> & _)%strip_fields. done.
    + apply Forall_forall. intros o (? & sc & Hsc & ? & ?)%Hord. split; [done|]. exists sc. set_solver.
    + intros account q side price Hsym. split; [done|]. exists cmd. set_solver.
Qed.

(** What the rest of the system does to an engine between its turns. *)
Lemma followed_frame i hist e e' :
  followed i hist e -> e_book e' = e_book e -> e_reference_price e' = e_reference_price e ->
  e_limits e' = e_limits e -> e_highest_term_seen e' = e_highest_term_seen e -> e_wal e' = e_wal e ->
  e_published e' = e_published e -> (e_running e' = true -> e_running e = true) ->
  table_ok (e_risk_states e') -> followed i hist e'.
Proof.
  intros (ts & s & evs & lg & ? & ? & [] & Hl & ? & ? & Hp & ?) Hb Hr Hlim Ht Hw Hpub Hrun Htab.
  exists ts, s, evs, lg. split_and!; try done; [|by unfold logged in *; rewrite Hw|by auto|by rewrite Hpub].
  split; congruence.
Qed.

Lemma followed_table i hist e : followed i hist e -> table_ok (e_risk_states e).
Proof. intros (ts & s & evs & lg & _ & _ & [] & _). done. Qed.

(** ** The log *)

Lemma filter_split {T} (n : nat) (l : list (nat * T)) :
  length (List.filter (fun p => (fst p <? S n)%nat) l)
  = (length (List.filter (fun p => (fst p <? n)%nat) l) + length (List.filter (fun p => (fst p =? n)%nat) l))%nat.
Proof.
  induction l as [|[g x] l IH]; [done|]. simpl.
  destruct (Nat.ltb_spec g (S n)), (Nat.ltb_spec g n), (Nat.eqb_spec g n); simpl; lia.
Qed.

Lemma filter_by_gateway {T U} (n : nat) (l : list (nat * T)) (k : list (nat * U)) :
  (forall g, (g < n)%nat -> length (List.filter (fun p => (fst p =? g)%nat) l)
     <= length (List.filter (fun p => (fst p =? g)%nat) k))%nat ->
  (length (List.filter (fun p => (fst p <? n)%nat) l) <= length (List.filter (fun p => (fst p <? n)%nat) k))%nat.
Proof.
  induction n as [|n IH]; intros H.
  { clear. induction l as [|[g x] l IH]; simpl; [lia|exact IH]. }
  rewrite !filter_split.
  apply Nat.add_le_mono; [apply IH; intros g Hg|]; apply H; lia.
Qed.

(** No command is numbered twice: the log is no longer than what was sent. *)
Lemma log_length init sent d (s : Seq) : front_inv init sent d s -> (length d <= length sent)%nat.
Proof.
  intros Hi. set (n := length (gw_inbound init)).
  assert (Hd : List.filter (fun p => (fst p <? n)%nat) d = d).
  { rewrite (List.filter_ext_in _ (fun _ => true)), List.filter_true; [done|]. intros [g sc] Hin.
    apply list_elem_of_In, list_elem_of_lookup in Hin as [k Hk]. apply Nat.ltb_lt. by eapply si_gateways. }
  rewrite <- Hd. etrans; [apply (filter_by_gateway n d sent)|apply List.filter_length_le].
  intros g Hg. unfold n in Hg. rewrite <- (si_gw_len _ _ _ _ Hi) in Hg.
  destruct (lookup_lt_is_Some_2 _ _ Hg) as [q Hq]. destruct (si_gw _ _ _ _ Hi g q Hq) as (m & _ & Hf).
  apply (f_equal length) in Hf. unfold from_gateway, sent_by in Hf. rewrite length_take, !length_map in Hf. lia.
Qed.

(** Every entry's command was sent by its gateway. *)
Lemma log_sent init sent d (s : Seq) g sc :
  front_inv init sent d s -> (g, sc) ∈ d -> (g, sc_cmd sc) ∈ sent.
Proof.
  intros Hi Hin. apply list_elem_of_lookup in Hin as Hk. destruct Hk as [k Hk].
  apply (si_gateways _ _ _ _ Hi) in Hk. rewrite <- (si_gw_len _ _ _ _ Hi) in Hk.
  destruct (lookup_lt_is_Some_2 _ _ Hk) as [q Hq]. destruct (si_gw _ _ _ _ Hi g q Hq) as (m & _ & Hf).
  assert (Hc : sc_cmd sc ∈ from_gateway g d).
  { unfold from_gateway. apply list_elem_of_In, in_map_iff. exists (g, sc). split; [done|].
    apply filter_In. split; [by apply list_elem_of_In|apply Nat.eqb_refl]. }
  rewrite Hf in Hc. apply (subseteq_take m) in Hc. apply list_elem_of_lookup in Hc as [m' Hc].
  by eapply sent_by_in.
Qed.

(** Below 2^64 the numbers are consecutive, so they rise along the log. *)
Lemma log_numbers init sent d (s : Seq) k g sc :
  front_inv init sent d s -> 0 <= seq init -> seq init + Z.of_nat (length sent) < two64 ->
  d !! k = Some (g, sc) -> sc_seq sc = seq init + Z.of_nat k + 1.
Proof.
  intros Hi H0 Hb Hk. rewrite (si_numbers _ _ _ _ Hi k g sc Hk). apply wrap_u64_id.
  apply lookup_lt_Some in Hk. pose proof (log_length _ _ _ _ Hi). unfold in_u64. lia.
Qed.

Definition rising : list SequencedCommand -> Prop := StronglySorted (fun x y => sc_seq x < sc_seq y).

Lemma rising_filter (P : SequencedCommand -> bool) l : rising l -> rising (List.filter P l).
Proof.
  induction 1 as [|x l _ IH Hx]; simpl; [constructor|]. destruct (P x); [|done]. constructor; [done|].
  rewrite Forall_forall in *. intros y. rewrite list_elem_of_In, filter_In, <- list_elem_of_In. naive_solver.
Qed.

Lemma log_rising init sent d (s : Seq) :
  front_inv init sent d s -> 0 <= seq init -> seq init + Z.of_nat (length sent) < two64 -> rising (map snd d).
Proof.
  intros Hi H0 Hb. assert (Hn := fun k g sc => log_numbers _ _ _ _ k g sc Hi H0 Hb). clear Hi.
  assert (Hg : forall a, (forall k g sc, d !! k = Some (g, sc) -> sc_seq sc = a + Z.of_nat k) -> rising (map snd d)).
  { clear. induction d as [|[g sc] d IH]; intros a Hd; simpl; [constructor|]. constructor.
    - apply (IH (a + 1)). intros k g' sc' Hk. rewrite (Hd (S k) g' sc' Hk). lia.
    - apply Forall_forall. intros x Hx. apply list_elem_of_fmap in Hx as ([g' sc'] & -> & Hx).
      apply list_elem_of_lookup in Hx as [k Hk]. simpl.
      rewrite (Hd 0%nat g sc eq_refl), (Hd (S k) g' sc' Hk). lia. }
  apply (Hg (seq init + 1)). intros k g sc Hk. rewrite (Hn k g sc Hk). lia.
Qed.

(** Entries with the same number are the same. *)
Lemma rising_inj l x y : rising l -> x ∈ l -> y ∈ l -> sc_seq x = sc_seq y -> x = y.
Proof.
  induction 1 as [|z l _ IH Hz]; [set_solver|]. rewrite Forall_forall in Hz.
  intros [->|Hx]%elem_of_cons [->|Hy]%elem_of_cons Heq; [done|..|by apply IH].
  - specialize (Hz y Hy). lia.
  - specialize (Hz x Hx). lia.
Qed.

Lemma rising_take l n x : rising l -> l !! n = Some x -> Forall (fun y => sc_seq y < sc_seq x) (take n l).
Proof.
  intros Hl. revert n. induction Hl as [|z l _ IH Hz]; intros [|n]; simpl; try done.
  intros Hx. constructor; [|by apply IH]. rewrite Forall_forall in Hz. apply Hz. by eapply list_elem_of_lookup_2.
Qed.

(** ** The invariant of the composition *)

(** The command being dispatched is the last of the log. *)
Definition pending_ok (d : Log) (pending : option (SequencedCommand * list nat)) : Prop :=
  match pending with
  | None => True
  | Some (sc, rest) => NoDup rest /\ (forall i, i ∈ rest -> routed_to i sc = true)
      /\ exists d0 g, d = d0 ++ [(g, sc)]
  end.

Record pipe_inv (init : Seq) (sent : list (nat * InboundCommand)) (d : Log) (p : Pipeline) : Prop := {
  pi_front : front_inv init sent d (pl_seq p);
  pi_term : 0 <= rh_term (role_handle (pl_seq p));
  pi_terms g sc : (g, sc) ∈ d -> 0 <= sc_term sc;
  pi_pending : pending_ok d (pl_pending p);
  pi_engines i q e : me_inbound (pl_seq p) !! i = Some q -> pl_engines p !! i = Some e ->
    exists n, fifo_hist q (delivered i d (pl_pending p)) n
      /\ followed i (take n (delivered i d (pl_pending p))) e
}.

Lemma delivered_prefix i d pending : pending_ok d pending -> delivered i d pending `prefix_of` engine_feed i d.
Proof.
  destruct pending as [[sc rest]|]; simpl; [|done]. intros (_ & _ & d0 & g & ->). case_bool_decide; [|done].
  rewrite removelast_last, engine_feed_snoc. by apply prefix_app_r.
Qed.

(** What a ring holds next is the next entry of the engine's feed. *)
Lemma delivered_lookup i d pending n sc :
  pending_ok d pending -> delivered i d pending !! n = Some sc -> engine_feed i d !! n = Some sc.
Proof. intros H Hn. by eapply prefix_lookup_Some, delivered_prefix. Qed.

Lemma delivered_take i d pending n :
  pending_ok d pending -> (n <= length (delivered i d pending))%nat ->
  take n (delivered i d pending) = take n (engine_feed i d).
Proof.
  intros H Hn. destruct (delivered_prefix i d pending H) as [k Hk]. rewrite Hk. by rewrite take_app_le.
Qed.

Lemma feed_in_log i d sc : sc ∈ engine_feed i d -> routed_to i sc = true /\ exists g, (g, sc) ∈ d.
Proof.
  unfold engine_feed. rewrite list_elem_of_In, filter_In, <- list_elem_of_In. intros [Hin Hr]. split; [done|].
  apply list_elem_of_fmap in Hin as ([g sc'] & -> & Hin). by exists g.
Qed.

(** Which engines a command is routed to. *)
Lemma elem_of_targets n_me i sc :
  (i < n_me)%nat -> i ∈ targets n_me (sc_cmd sc) <-> routed_to i sc = true.
Proof.
  intros Hi. unfold targets, routed_to. destruct (cmd_symbol (sc_cmd sc)) as [sym|].
  - rewrite list_elem_of_singleton, Nat.eqb_eq. naive_solver.
  - destruct (is_cancel (sc_cmd sc)); [|by split; [intros ?%elem_of_nil|]].
    rewrite list_elem_of_In, in_seq. split; [done|lia].
Qed.

Lemma targets_ok n_me sc :
  NoDup (targets n_me (sc_cmd sc)) /\ forall i, i ∈ targets n_me (sc_cmd sc) -> routed_to i sc = true.
Proof.
  unfold targets, routed_to. destruct (cmd_symbol (sc_cmd sc)) as [sym|].
  - split; [apply NoDup_singleton|]. intros i ->%list_elem_of_singleton. apply Nat.eqb_refl.
  - destruct (is_cancel (sc_cmd sc)); [|split; [constructor|by intros i ?%elem_of_nil]].
    split; [apply NoDup_ListNoDup, seq_NoDup|done].
Qed.

(** A state that differs in the front end only. *)
Lemma pipe_front_step init sent sent' d p s :
  pipe_inv init sent d p -> front_inv init sent' d s -> me_inbound s = me_inbound (pl_seq p) ->
  0 <= rh_term (role_handle s) -> pipe_inv init sent' d (pl_set_seq s p).
Proof. intros [] Hf Hm Ht. split; simpl; try done. by rewrite Hm. Qed.

(** A state that differs in one engine only. *)
Lemma pipe_engine_frame init sent d p i e e' :
  pipe_inv init sent d p -> pl_engines p !! i = Some e ->
  (forall hist, followed i hist e -> followed i hist e') -> pipe_inv init sent d (pl_set_engine i e' p).
Proof.
  intros [] He Hf. split; simpl; try done.
  intros j q e1 Hq [(<- & <- & _)|(_ & He1)]%list_lookup_insert_Some; [|by eapply pi_engines0].
  destruct (pi_engines0 i q e Hq He) as (n & ? & ?). exists n. split; [done|by apply Hf].
Qed.

Lemma number_role now_ns cmd (s : Seq) sc s' : number now_ns cmd s = (sc, s') -> role_handle s' = role_handle s.
Proof. unfold number. simpl. destruct (fifo_push _ _) as [r w]. by intros [= <- <-]. Qed.

Lemma poll_step_inv init sent d p cmd s1 sc s2 now_ns :
  pipe_inv init sent d p -> pl_pending p = None ->
  poll_inbound (pl_seq p) = Val (Some cmd, s1) -> number now_ns cmd s1 = (sc, s2) ->
  exists g, pipe_inv init sent (d ++ [(g, sc)])
    (mkPipeline s2 (Some (sc, targets (length (me_inbound s2)) cmd)) (pl_engines p)).
Proof.
  intros [Hf Ht Hts _ He] Hpend Hp Hn.
  destruct (poll_front _ _ _ _ Hf) as [Hp'|(g & cmd' & gw & c & Hp' & _ & Hnum)]; [congruence|].
  rewrite Hp in Hp'. simplify_eq. specialize (Hnum _ _ _ Hn).
  pose proof (number_role _ _ _ _ _ Hn) as Hrole. apply number_frame in Hn as (Hm & _ & _ & _ & Hsc). simpl in Hm, Hsc.
  assert (Hcmd : sc_cmd sc = cmd') by (by rewrite Hsc). rewrite Hm. simpl.
  exists g. split; simpl; [done|..].
  - by rewrite Hrole.
  - intros g' sc' [Hin|[= -> ->]%list_elem_of_singleton]%elem_of_app; [by eapply Hts|]. by rewrite Hsc.
  - rewrite <- Hcmd. destruct (targets_ok (length (me_inbound (pl_seq p))) sc) as [? ?]. split_and!; eauto.
  - rewrite Hm. intros i q e Hq Hei. destruct (He i q e Hq Hei) as (n & Hh & Hfo). rewrite Hpend in Hh, Hfo.
    rewrite removelast_last, engine_feed_snoc, <- Hcmd. apply lookup_lt_Some in Hq.
    case_bool_decide as Hin; [by exists n|]. rewrite elem_of_targets in Hin by done.
    destruct (routed_to i sc); [done|]. rewrite app_nil_r. by exists n.
Qed.

Lemma push_step_inv init sent d p sc i rest q q' :
  pipe_inv init sent d p -> pl_pending p = Some (sc, i :: rest) ->
  me_inbound (pl_seq p) !! i = Some q -> Spsc.try_push ME_INBOUND_CAP sc q = (Ok tt, q') ->
  pipe_inv init sent d (mkPipeline (set_me (<[i := q']> (me_inbound (pl_seq p))) (pl_seq p))
                          (Some (sc, rest)) (pl_engines p)).
Proof.
  intros [Hf Ht Hts Hpend He] Hp Hq Hpush. rewrite Hp in Hpend, He.
  destruct Hpend as (Hnd & Hr & d0 & g & ->). apply NoDup_cons in Hnd as [Hni Hnd].
  split; simpl; [|done|done| |].
  - destruct Hf. split; simpl; try done. by rewrite length_insert.
  - split_and!; [done|set_solver|eauto].
  - intros j q1 e Hq1 Hej. rewrite removelast_last.
    apply list_lookup_insert_Some in Hq1 as [(<- & <- & _)|(Hne & Hq1)].
    + destruct (He i q e Hq Hej) as (n & Hh & Hfo). cbn [delivered] in Hh, Hfo. rewrite removelast_last in Hh, Hfo.
      rewrite bool_decide_true in Hh, Hfo by left. rewrite bool_decide_false by done.
      rewrite engine_feed_snoc, Hr by left. exists n.
      pose proof (fifo_bound _ _ _ Hh) as [Hb _]. rewrite take_app_le by done. split; [|done].
      exact (fifo_push_ok_hist q q' sc _ n Hpush Hh).
    + destruct (He j q1 e Hq1 Hej) as (n & Hh & Hfo). cbn [delivered] in Hh, Hfo. rewrite removelast_last in Hh, Hfo.
      rewrite (bool_decide_ext (j ∈ i :: rest) (j ∈ rest)) in Hh, Hfo by set_solver. by exists n.
Qed.

Lemma finish_step_inv init sent d p sc snap_env fuel s' :
  pipe_inv init sent d p -> pl_pending p = Some (sc, []) -> (forall j, consumes (snap_env j)) ->
  (if should_fire (snapshot_schedule (pl_seq p)) (sc_seq sc)
   then inject_snapshot_marker snap_env fuel (sc_seq sc) (pl_seq p) else Val (pl_seq p)) = Val s' ->
  pipe_inv init sent d (mkPipeline s' None (pl_engines p)).
Proof.
  intros [Hf Ht Hts _ He] Hp Hsn Hm. apply marker_hist in Hm as (sn & -> & _); [|done].
  rewrite Hp in He. simpl in He. split; simpl; try done. by destruct Hf.
Qed.

(** The commands the gateways send fit their types. *)
Definition sent_ok (sent : list (nat * InboundCommand)) : Prop :=
  Forall (fun p => cmd_ok (mkSC 0 0 0 (snd p))) sent.

(** A turn of an engine in a reachable state: it never fails, and it handles
    the next command of its feed or idles. *)
Lemma turn_inv init sent d p i q e :
  pipe_inv init sent d p -> 0 <= seq init -> seq init + Z.of_nat (length sent) < two64 -> sent_ok sent ->
  me_inbound (pl_seq p) !! i = Some q -> pl_engines p !! i = Some e -> e_running e = true ->
  exists q' e', turnE q e = Val (q', e')
    /\ exists n, fifo_hist q' (delivered i d (pl_pending p)) n
         /\ followed i (take n (delivered i d (pl_pending p))) e'.
Proof.
  intros [Hf Ht Hts Hpend He] H0 Hb Hok Hq Hei Hrun. destruct (He i q e Hq Hei) as (n & Hh & Hfo).
  pose proof (run_turn_spec out_env risk_env risk_elapsed match_elapsed q _ n e cap_is_ok Hh) as Hturn.
  destruct (delivered i d (pl_pending p) !! n) as [sc|] eqn:Hn.
  2:{ rewrite Hturn. eexists _, _. split; [done|]. exists n. split; [done|].
      eapply followed_frame; [exact Hfo|done..|exact (followed_table _ _ _ Hfo)]. }
  destruct Hturn as (q' & Hq' & ->). pose proof (delivered_lookup _ _ _ _ _ Hpend Hn) as Hfeed.
  destruct (feed_in_log i d sc) as [_ [g Hin]]; [by eapply list_elem_of_lookup_2|].
  pose proof (log_sent _ _ _ _ _ _ Hf Hin) as Hsent. unfold sent_ok in Hok. rewrite Forall_forall in Hok.
  destruct (followed_step i _ e sc Hfo Hrun) as (e' & -> & Hfo').
  - exact (Hok _ Hsent).
  - by eapply Hts.
  - rewrite delivered_take by (done || by apply fifo_bound in Hh as [? _]).
    apply rising_take; [|done]. by eapply rising_filter, log_rising.
  - exists q', e'. split; [done|]. exists (S n). split; [exact Hq'|]. by rewrite (take_S_r _ _ _ Hn).
Qed.

Lemma engine_step_inv init sent d p i q e q' e' :
  pipe_inv init sent d p -> 0 <= seq init -> seq init + Z.of_nat (length sent) < two64 -> sent_ok sent ->
  me_inbound (pl_seq p) !! i = Some q -> pl_engines p !! i = Some e -> e_running e = true ->
  turnE q e = Val (q', e') ->
  pipe_inv init sent d (pl_set_engine i e'
    (pl_set_seq (set_me (<[i := q']> (me_inbound (pl_seq p))) (pl_seq p)) p)).
Proof.
  intros Hi H0 Hb Hok Hq Hei Hrun Hturn.
  destruct (turn_inv init sent d p i q e Hi H0 Hb Hok Hq Hei Hrun) as (q1 & e1 & Hturn' & Hnew).
  rewrite Hturn in Hturn'. simplify_eq. destruct Hi as [Hf Ht Hts Hpend He]. split; simpl; try done.
  - destruct Hf. split; simpl; try done. by rewrite length_insert.
  - intros j qj ej [(<- & <- & _)|(Hne & Hqj)]%list_lookup_insert_Some Hej.
    + rewrite list_lookup_insert_eq in Hej by (by eapply lookup_lt_Some). by simplify_eq.
    + rewrite list_lookup_insert_ne in Hej by done. by eapply He.
Qed.

Lemma pipe_step_inv init sent d p l p' :
  pipe_inv init sent d p -> 0 <= seq init -> seq init + Z.of_nat (length sent) < two64 -> sent_ok sent ->
  pl_step p l p' -> exists d', pipe_inv init (sent ++ l) (d ++ d') p'.
Proof.
  intros Hi H0 Hb Hok Hstep. destruct Hstep as [p g q q' cmd Hq Hp|p cmd s1 sc s2 now_ns Hn _ _ Hp Hnum
    |p sc i rest q q' Hpend Hq Hp|p sc snap_env fuel s' Hpend Hsn Hm|p i q e q' e' Hq He Hrun Ht|p i e t He Ht
    |p i e out rout He|p i e He|p q' sc Hp|p sn|p h r Hr]; rewrite ?app_nil_r;
    [|destruct (poll_step_inv _ _ _ _ _ _ _ _ _ Hi Hn Hp Hnum) as [g Hg]; by exists [(g, sc)]|..];
    exists []; rewrite app_nil_r.
  - eapply pipe_front_step; [exact Hi|eapply gateway_front; [apply Hi|done..]|done|apply Hi].
  - by eapply push_step_inv.
  - by eapply finish_step_inv.
  - by eapply engine_step_inv.
  - eapply pipe_engine_frame; [done..|]. intros hist Hf. by eapply followed_frame.
  - eapply pipe_engine_frame; [done..|]. intros hist Hf.
    eapply followed_frame; [exact Hf|done..|exact (followed_table _ _ _ Hf)].
  - eapply pipe_engine_frame; [done..|]. intros hist Hf.
    eapply followed_frame; [exact Hf|done..|exact (followed_table _ _ _ Hf)].
  - eapply pipe_front_step; [exact Hi|eapply wal_front; [apply Hi|done]|done|apply Hi].
  - eapply pipe_front_step; [exact Hi| |done|apply Hi]. destruct Hi as [[] _ _ _ _]. done.
  - eapply pipe_front_step; [exact Hi|apply control_front, Hi|done|done].
Qed.

Definition start (n_gw n_me n_sub : nat) (sch : SnapshotMarkerSchedule) (role : RoleHandle) (z : Z)
    (out : Spsc.Queue (T := Event)) (rout : Spmc.Queue (T := EngineEvent)) (t : AccountRiskTable) : Pipeline :=
  mkPipeline (fresh n_gw n_me n_sub sch role z) None (map (start_engine out rout t) (List.seq 0 n_me)).

Lemma start_inv n_gw n_me n_sub sch role z out rout t :
  in_u64 z -> 0 <= rh_term role -> (forall i, cfg_ok (cfg i)) -> table_ok t ->
  pipe_inv (fresh n_gw n_me n_sub sch role z) [] [] (start n_gw n_me n_sub sch role z out rout t).
Proof.
  intros Hz Hr Hc Ht. pose proof (fresh_inv (QM := QM) n_gw n_me n_sub sch role z Hz) as Hf.
  split; simpl; [apply Hf|done|by intros g sc ?%elem_of_nil|done|].
  intros i q e [-> _]%lookup_replicate He. exists 0%nat. split; [exact (fifo_new_hist (Q := QM) (cap := ME_INBOUND_CAP))|].
  rewrite list_lookup_fmap in He. destruct (List.seq 0 n_me !! i) as [j|] eqn:Hj; [|done].
  apply lookup_seq in Hj as [-> _]. simplify_eq/=. by apply start_followed.
Qed.

Lemma pipe_run_inv n_gw n_me n_sub sch role z out rout t sent p :
  in_u64 z -> 0 <= rh_term role -> (forall i, cfg_ok (cfg i)) -> table_ok t ->
  z + Z.of_nat (length sent) < two64 -> sent_ok sent ->
  pl_run (start n_gw n_me n_sub sch role z out rout t) sent p ->
  exists d, pipe_inv (fresh n_gw n_me n_sub sch role z) sent d p.
Proof.
  intros Hz Hr Hc Ht Hb Hok Hrun. revert Hb Hok. induction Hrun as [|sent p l p' _ IH Hs]; intros Hb Hok.
  { exists []. by apply start_inv. }
  rewrite length_app in Hb. apply Forall_app in Hok as [Hok _].
  destruct IH as [d Hd]; [lia|done|]. unfold in_u64 in Hz.
  destruct (pipe_step_inv _ _ _ _ _ _ Hd ltac:(simpl; lia) ltac:(simpl; lia) Hok Hs) as [d' Hd']. by eexists.
Qed.

(** An open order of engine [i] belongs to a command of [i]'s feed. *)
Lemma followed_order i d n e id o :
  followed i (take n (engine_feed i d)) e -> client_order (e_book e) id = Some o ->
  exists sc sym, sc ∈ map snd d /\ sc_seq sc = id /\ cmd_symbol (sc_cmd sc) = Some sym /\ Z.to_nat sym = i.
Proof.
  intros (ts & s & evs & lg & _ & _ & Him & _ & _ & _ & _ & Hord) Ho.
  apply (client_order_rep _ (ae_book s)) in Ho as [Ho <-]; [|apply Him].
  destruct (Hord o Ho) as (-> & sc & Hsc & Hseq & [sym Hsym]). apply subseteq_take in Hsc.
  destruct (feed_in_log i d sc Hsc) as [Hr [g Hg]]. exists sc, sym. split_and!; try done.
  - apply list_elem_of_fmap. by exists (g, sc).
  - unfold routed_to in Hr. rewrite Hsym in Hr. by apply Nat.eqb_eq.
Qed.

(** ** The steps are those of the sequencer's loop

    One iteration of [run_iter] (Sequencer.v), with engines that do not move
    meanwhile, is a sequence of steps of the composition. *)

Definition idle (_ _ : nat) (q : QM) : QM := q.

Lemma spin_idle fuel i j (sc : SequencedCommand) (q q' : QM) pu n :
  fifo_hist q pu n -> spin_push (idle i) fuel j sc q = Val q' ->
  Spsc.try_push ME_INBOUND_CAP sc q = (Ok tt, q').
Proof.
  intros Hq. revert j. induction fuel as [|fuel IH]; intros j; [done|]. cbn [spin_push]. unfold idle at 1.
  destruct (push_attempt q pu n sc Hq) as [(q1 & Hp & _)|[Hp _]]; rewrite Hp; [by intros [= <-]|apply IH].
Qed.

Lemma pl_run_snoc init p p' : pl_run init [] p -> pl_step p [] p' -> pl_run init [] p'.
Proof. intros Hr Hs. exact (plr_step init [] p [] p' Hr Hs). Qed.

Lemma push_all_steps init fuel sc (s : Seq) es pre qs qs' :
  pl_run init [] (mkPipeline (set_me (pre ++ qs) s) (Some (sc, List.seq (length pre) (length qs))) es) ->
  Forall (fun q => exists pu n, fifo_hist (Q := QM) q pu n) qs ->
  push_all idle fuel (length pre) sc qs = Val qs' ->
  pl_run init [] (mkPipeline (set_me (pre ++ qs') s) (Some (sc, [])) es).
Proof.
  revert pre qs'. induction qs as [|q qs IH]; intros pre qs' Hrun Hh; cbn [push_all]; [by intros [= <-]|].
  intros (q1 & Hq1 & (rest & Hrest & [= <-])%ebind_val_inv)%ebind_val_inv.
  apply Forall_cons in Hh as [(pu & n & Hq) Hh]. apply (spin_idle _ _ _ _ _ _ pu n Hq) in Hq1.
  rewrite cons_middle, app_assoc. apply IH; [|done|by rewrite length_app, Nat.add_1_r].
  rewrite length_app, Nat.add_1_r. eapply pl_run_snoc; [exact Hrun|].
  pose proof (ps_push (mkPipeline (set_me (pre ++ q :: qs) s)
    (Some (sc, List.seq (length pre) (S (length qs)))) es) sc (length pre) (List.seq (S (length pre)) (length qs))
    q q1 eq_refl) as Hs. simpl in Hs. rewrite list_lookup_middle in Hs by done.
  specialize (Hs eq_refl Hq1). rewrite insert_app_r_alt, Nat.sub_diag in Hs by done. simpl in Hs.
  rewrite <- app_assoc. exact Hs.
Qed.

(** Routing, step by step. *)
Lemma route_steps init fuel sc (s s' : Seq) es :
  pl_run init [] (mkPipeline s (Some (sc, targets (length (me_inbound s)) (sc_cmd sc))) es) ->
  Forall (fun q => exists pu n, fifo_hist (Q := QM) q pu n) (me_inbound s) ->
  route idle fuel sc s = Val s' -> pl_run init [] (mkPipeline s' (Some (sc, [])) es).
Proof.
  intros Hrun Hh. unfold route, targets in *. destruct (cmd_symbol (sc_cmd sc)) as [sym|].
  - intros (q & Hq & (q1 & Hq1 & [= <-])%ebind_val_inv)%ebind_val_inv. unfold index_list in Hq.
    destruct (me_inbound s !! Z.to_nat sym) as [q0|] eqn:Hl; [|done]. injection Hq as <-.
    rewrite Forall_lookup in Hh. destruct (Hh _ _ Hl) as (pu & n & Hqh).
    apply (spin_idle _ _ _ _ _ _ pu n Hqh) in Hq1. eapply pl_run_snoc; [exact Hrun|].
    by apply (ps_push (mkPipeline s _ es) sc (Z.to_nat sym) [] q0).
  - destruct (is_cancel (sc_cmd sc)); [|by intros [= <-]].
    intros (me & Hme & [= <-])%ebind_val_inv.
    apply (push_all_steps init fuel sc s es [] (me_inbound s) me); [|done..]. simpl. by destruct s.
Qed.

Lemma run_iter_steps init sent d (s s' : Seq) es snap_env fuel now_ns :
  seq_inv init sent d s -> (forall j, consumes (snap_env j)) ->
  run_iter idle snap_env fuel now_ns s = Val s' ->
  pl_run (mkPipeline s None es) [] (mkPipeline s' None es).
Proof.
  intros Hi Hsn. unfold run_iter. destruct (GlobalHalt.is_set (halt s)) eqn:Hh; [done|].
  destruct (is_leader (role_handle s)) eqn:Hlead; cbn [negb]; [|intros [= <-]; constructor].
  destruct (poll_front _ _ _ _ (si_front _ _ _ _ Hi)) as [Hp|(g & cmd & gw & c & Hp & _)]; rewrite Hp; cbn [ebind];
    [intros [= <-]; constructor|].
  unfold dispatch. destruct (number now_ns cmd _) as [sc s1] eqn:Hn. intros (s2 & Hr & Hm)%ebind_val_inv.
  destruct (number_frame _ _ _ _ _ Hn) as (Hme & _ & _ & _ & Hsc). simpl in Hme.
  assert (Hcmd : sc_cmd sc = cmd) by (by rewrite Hsc).
  eapply pl_run_snoc; [|by apply (ps_finish (mkPipeline s2 (Some (sc, [])) es) sc snap_env fuel)].
  eapply route_steps; [| |exact Hr].
  - eapply pl_run_snoc; [constructor|]. rewrite Hcmd. by eapply (ps_poll (mkPipeline s None es)).
  - rewrite Hme. apply Forall_lookup. intros i q Hq. destruct (si_me _ _ _ _ Hi i q Hq) as [n ?]. by eexists _, n.
Qed.

(** C2. The trading core as one machine: in every interleaving of the
    gateways, the sequencer, the matching engines, the consumers of their
    outputs and the risk shards, at the granularity of single ring operations,
    there is one log, numbered consecutively without gaps, which merges
    prefixes of what the gateways sent; every engine has handled a prefix of
    the part of the log routed to it and is in the state the abstract engine
    reaches on that prefix (price-time priority on accepted orders, the Tier-0
    verdict on the table it read, liquidations); while it runs its WAL holds
    exactly the events of that prefix, after it stopped a part of them, and it
    has published nothing that is not in the WAL; its next turn does not fail;
    and no order id is open in two engines, so that a broadcast cancel acts in
    at most one. *)
Theorem pipeline_refines n_gw n_me n_sub sch role z out rout t sent p :
  in_u64 z -> 0 <= rh_term role -> (forall i, cfg_ok (cfg i)) -> table_ok t ->
  z + Z.of_nat (length sent) < two64 -> sent_ok sent ->
  pl_run (start n_gw n_me n_sub sch role z out rout t) sent p ->
  exists d : Log,
    (forall k g sc, d !! k = Some (g, sc) -> sc_seq sc = z + Z.of_nat k + 1 /\ (g, sc_cmd sc) ∈ sent)
    /\ (forall g q, gw_inbound (pl_seq p) !! g = Some q -> from_gateway g d `prefix_of` sent_by g sent)
    /\ (forall i q e, me_inbound (pl_seq p) !! i = Some q -> pl_engines p !! i = Some e ->
          (exists n, (n <= length (engine_feed i d))%nat /\ followed i (take n (engine_feed i d)) e)
          /\ (e_running e = true -> exists q' e', turnE q e = Val (q', e')))
    /\ (forall i j qi qj ei ej id, i <> j ->
          me_inbound (pl_seq p) !! i = Some qi -> pl_engines p !! i = Some ei ->
          me_inbound (pl_seq p) !! j = Some qj -> pl_engines p !! j = Some ej ->
          is_Some (client_order (e_book ei) id) -> client_order (e_book ej) id = None).
Proof.
  intros Hz Hr Hc Ht Hb Hok Hrun.
  destruct (pipe_run_inv _ _ _ _ _ _ _ _ _ _ _ Hz Hr Hc Ht Hb Hok Hrun) as [d Hi].
  pose proof Hi as [Hf _ _ Hpend He]. unfold in_u64 in Hz.
  assert (Heng : forall i q e, me_inbound (pl_seq p) !! i = Some q -> pl_engines p !! i = Some e ->
    exists n, (n <= length (engine_feed i d))%nat /\ followed i (take n (engine_feed i d)) e).
  { intros i q e Hq Hei. destruct (He i q e Hq Hei) as (n & Hh & Hfo). exists n.
    pose proof (fifo_bound _ _ _ Hh) as [Hn _]. rewrite delivered_take in Hfo by done. split; [|done].
    etrans; [exact Hn|]. by apply prefix_length, delivered_prefix. }
  exists d. split_and!.
  - intros k g sc Hk. split; [by eapply (log_numbers _ _ _ _ k g sc Hf); simpl; lia || exact Hk|].
    eapply log_sent; [exact Hf|by eapply list_elem_of_lookup_2].
  - intros g q Hq. destruct (si_gw _ _ _ _ Hf g q Hq) as (n & _ & ->). apply prefix_take.
  - intros i q e Hq Hei. split; [by eapply Heng|]. intros Hrune.
    destruct (turn_inv _ _ _ _ _ _ _ Hi ltac:(simpl; lia) ltac:(simpl; lia) Hok Hq Hei Hrune) as (q' & e' & ? & _). eauto.
  - intros i j qi qj ei ej id Hne Hqi Hei Hqj Hej [o Ho].
    destruct (client_order (e_book ej) id) as [o'|] eqn:Ho'; [|done]. exfalso.
    destruct (Heng i qi ei Hqi Hei) as (n & _ & Hfi), (Heng j qj ej Hqj Hej) as (m & _ & Hfj).
    destruct (followed_order _ _ _ _ _ _ Hfi Ho) as (sc & sym & Hsc & <- & Hsym & <-).
    destruct (followed_order _ _ _ _ _ _ Hfj Ho') as (sc' & sym' & Hsc' & Heq & Hsym' & <-).
    assert (sc' = sc) as -> by (eapply rising_inj; [eapply (log_rising _ _ _ _ Hf); simpl; lia|done..]). congruence.
Qed.
End Pipeline.

(** ** Witness: an order travels from its gateway to the book of symbol 1 *)

Module PipelineDemo.
Import GmapSlotMap EngineDemo.
#[local] Existing Instances SequencerDemo.gw_fifo SequencerDemo.wal_fifo SequencerDemo.snap_fifo.

Definition limits (_ : nat) : Tier0Limits := Tier0Limits_default.
Definition cfg (i : nat) : BookConfig := mkBookConfig (Z.of_nat i) 100 10 16.
Definition wal0 (_ : nat) : list Event := [].
Definition order : InboundCommand := Inbound_NewOrder 1 7 1 Buy 103 5 Limit Gtc.

Abbreviation Pipe := (@Pipeline _ (list Event) (Spsc.Queue (T := InboundCommand))
  (Spsc.Queue (T := SequencedCommand)) (Spsc.Queue (T := EngineEvent))).
Abbreviation stepD := (pl_step out_idle risk_idle instant instant).

Definition p0 : Pipe := start limits cfg wal0 1 2 0 SnapshotMarkerSchedule_default for_test_leader 41
  (Spsc.spsc_queue OUT_CAP) (Spmc.spmc_queue RISK_FANOUT_CAP 1) (Table_new 4).

(** The gateway pushes. *)
Definition gw0 := nth 0 (gw_inbound (pl_seq p0)) fifo_new.
Definition p1 : Pipe :=
  pl_set_seq (set_gw (<[0%nat := snd (fifo_push order gw0)]> (gw_inbound (pl_seq p0))) 0 (pl_seq p0)) p0.
(** The sequencer polls and numbers it. *)
Definition polled := match poll_inbound (pl_seq p1) with Val (_, s) => s | _ => pl_seq p1 end.
Definition sc := fst (number 99 order polled).
Definition p2 : Pipe := mkPipeline (snd (number 99 order polled)) (Some (sc, [1%nat])) (pl_engines p1).
(** It pushes it to engine 1. *)
Definition me1 := nth 1 (me_inbound (pl_seq p2)) fifo_new.
Definition p3 : Pipe :=
  mkPipeline (set_me (<[1%nat := snd (Spsc.try_push ME_INBOUND_CAP sc me1)]> (me_inbound (pl_seq p2))) (pl_seq p2))
    (Some (sc, [])) (pl_engines p2).
Definition p4 : Pipe := mkPipeline (pl_seq p3) None (pl_engines p3).
(** Engine 1 handles it. *)
Definition ring1 := snd (Spsc.try_push ME_INBOUND_CAP sc me1).
Definition engine1 := start_engine limits cfg wal0 (Spsc.spsc_queue OUT_CAP) (Spmc.spmc_queue RISK_FANOUT_CAP 1)
  (Table_new 4) 1.
Definition turn1 := run_turn out_idle risk_idle instant instant ring1 engine1.
Definition ring1' := match turn1 with Val (q, _) => q | _ => ring1 end.
Definition engine1' := match turn1 with Val (_, e) => e | _ => engine1 end.
Definition p5 : Pipe :=
  pl_set_engine 1 engine1' (pl_set_seq (set_me (<[1%nat := ring1']> (me_inbound (pl_seq p4))) (pl_seq p4)) p4).

Lemma pair_ok {A B} (r : Result unit A * B) : is_ok (fst r) = true -> r = (Ok tt, snd r).
Proof. by destruct r as [[[]|]]. Qed.

Lemma polled_ok : poll_inbound (pl_seq p1) = Val (Some order, polled).
Proof.
  assert (H : match poll_inbound (pl_seq p1) with Val (Some c, _) => bool_decide (c = order) | _ => false end = true)
    by (vm_compute; reflexivity).
  unfold polled. destruct (poll_inbound (pl_seq p1)) as [[[c|] s]| |]; try done.
  by apply bool_decide_eq_true in H as ->.
Qed.

Lemma turn1_ok : turn1 = Val (ring1', engine1').
Proof.
  assert (H : match turn1 with Val _ => true | _ => false end = true) by (vm_compute; reflexivity).
  unfold ring1', engine1'. by destruct turn1 as [[]| |].
Qed.

Lemma run_sent : pl_run out_idle risk_idle instant instant p0 [(0%nat, order)] p1.
Proof.
  apply (plr_step out_idle risk_idle instant instant p0 [] p0 [(0%nat, order)]); [constructor|].
  apply (ps_gateway out_idle risk_idle instant instant p0 0 gw0); [reflexivity|]. apply pair_ok. vm_compute. reflexivity.
Qed.

Lemma run_handled : pl_run out_idle risk_idle instant instant p0 [(0%nat, order)] p5.
Proof.
  change [(0%nat, order)] with (((([(0%nat, order)] ++ []) ++ []) ++ []) ++ []).
  apply plr_step with p4; [apply plr_step with p3; [apply plr_step with p2; [apply plr_step with p1|]|]|].
  - exact run_sent.
  - assert (Hn : number 99 order polled = (sc, snd (number 99 order polled)))
      by (unfold sc; apply surjective_pairing).
    assert (Ht : targets (length (me_inbound (pl_seq p2))) order = [1%nat]) by reflexivity.
    unfold p2 at 1. rewrite <- Ht.
    exact (ps_poll out_idle risk_idle instant instant p1 order polled sc _ 99 eq_refl eq_refl eq_refl polled_ok Hn).
  - apply (ps_push out_idle risk_idle instant instant p2 sc 1 [] me1); [reflexivity..|].
    apply pair_ok. vm_compute. reflexivity.
  - apply (ps_finish out_idle risk_idle instant instant p3 sc (fun _ => pop_one) 0);
      [reflexivity|intros j; apply pop_one_consumes|].
    replace (should_fire _ _) with false by (vm_compute; reflexivity). reflexivity.
  - apply (ps_engine out_idle risk_idle instant instant p4 1 ring1 engine1); [reflexivity..|exact turn1_ok].
Qed.

(** The log of this run and the book it leads to. *)
Lemma pipeline_refines_witness :
  exists d : list (nat * SequencedCommand),
    (forall k g sc, d !! k = Some (g, sc) -> sc_seq sc = 41 + Z.of_nat k + 1 /\ (g, sc_cmd sc) ∈ [(0%nat, order)])
    /\ exists n, followed limits cfg wal0 1 (take n (engine_feed 1 d)) engine1'.
Proof.
  destruct (pipeline_refines out_idle risk_idle instant instant limits cfg wal0 1 2 0
    SnapshotMarkerSchedule_default for_test_leader 41 (Spsc.spsc_queue OUT_CAP)
    (Spmc.spmc_queue RISK_FANOUT_CAP 1) (Table_new 4) [(0%nat, order)] p5)
    as (d & Hnum & _ & Heng & _).
  - unfold in_u64, two64. lia.
  - simpl. lia.
  - intros i. unfold cfg_ok, cfg, in_i64, two63. simpl. lia.
  - apply table_new_ok.
  - unfold two64. simpl. lia.
  - repeat constructor; unfold in_i64, in_u64, two63, two64; simpl; lia.
  - exact run_handled.
  - exists d. split; [exact Hnum|].
    destruct (Heng 1%nat ring1' engine1') as [(n & _ & H) _]; [reflexivity..|]. exists n. exact H.
Defined.
End PipelineDemo.
