(* ===== verification/Sim.v ===== *)
(** * Sim: the deterministic simulation harness (crates/sim)

    harness.rs, replay.rs and chaos.rs: the whole pipeline in one thread, a
    command per tick: sequencing and routing, the books of OrderBook.v, the
    shards of Risk.v, and liquidations fed back to the front of the inbound
    queue.  The account table is one object that the harness and all shards
    share: [account_states] is its content, and each call of a shard gets it
    and gives it back.  The iteration order of a shard's [HashMap] is a
    parameter, as in Risk.v. *)

From stdpp Require Import strings pretty.
From S2P Require Import Prelude CoreTypes SlotMap OrderBook Seqlock Risk.
#[local] Open Scope Z_scope.

(** ** harness.rs *)

Record SimClock := mkSimClock { sc_ticks : Z }.
Definition clock_now_ns (c : SimClock) : Z := wrap_u64 (sc_ticks c * 1000).
Definition clock_tick (c : SimClock) : SimClock := mkSimClock (wrap_u64 (sc_ticks c + 1)).

Record SimConfig := mkSimConfig {
  n_symbols : nat;
  n_accounts : nat;
  n_risk_shards : nat;
  initial_balance : Z;
  sim_snapshot_interval : Z;
  book_tick_floor : Z;
  book_num_ticks : nat
}.

Definition SimConfig_default : SimConfig := mkSimConfig 2 4 2 10000000000000 1000 Price.ZERO 1024.

Record SimResult := mkSimResult {
  sr_events : list EngineEvent;
  commands_sequenced : Z;
  trades_matched : Z;
  liquidations : Z;
  snapshots : Z
}.

Definition SimResult_default : SimResult := mkSimResult [] 0 0 0 0.

Definition sr_count_command (r : SimResult) : SimResult :=
  mkSimResult (sr_events r) (wrap_u64 (commands_sequenced r + 1)) (trades_matched r) (liquidations r) (snapshots r).
Definition sr_count_snapshot (r : SimResult) : SimResult :=
  mkSimResult (sr_events r) (commands_sequenced r) (trades_matched r) (liquidations r) (wrap_u64 (snapshots r + 1)).
Definition sr_count_trade (r : SimResult) : SimResult :=
  mkSimResult (sr_events r) (commands_sequenced r) (wrap_u64 (trades_matched r + 1)) (liquidations r) (snapshots r).
Definition sr_count_liquidation (r : SimResult) : SimResult :=
  mkSimResult (sr_events r) (commands_sequenced r) (trades_matched r) (wrap_u64 (liquidations r + 1)) (snapshots r).
Definition sr_push_event (ev : EngineEvent) (r : SimResult) : SimResult :=
  mkSimResult (sr_events r ++ [ev]) (commands_sequenced r) (trades_matched r) (liquidations r) (snapshots r).

Definition is_trade (ev : EngineEvent) : bool :=
  match ev with Trade _ _ _ _ _ _ _ _ _ _ _ _ _ _ => true | _ => false end.

Section Sim.
Context {SM : SlotMapApi}.

Record SimEngine := mkSimEngine { se_book : OrderBook; se_symbol : Z }.

Definition sim_book_config (symbol tick_floor : Z) (num_ticks : nat) : BookConfig :=
  mkBookConfig symbol tick_floor num_ticks (Z.to_nat 4096).

Definition SimEngine_new (symbol tick_floor : Z) (num_ticks : nat) : SimEngine :=
  mkSimEngine (OrderBook_new (sim_book_config symbol tick_floor num_ticks)) symbol.

(** The [debug_assert!] on the symbol is not part of a release build, whose
    wrapping arithmetic this development follows. *)
Definition engine_step (cmd : SequencedCommand) (e : SimEngine) : Exec (list EngineEvent * SimEngine) :=
  let! '(book, events) := apply (se_book e) cmd in
  Val (events, mkSimEngine book (se_symbol e)).

Record SimHarness := mkHarness {
  sh_config : SimConfig;
  sh_clock : SimClock;
  next_seq : Z;
  inbound : list InboundCommand;
  me_queues : list (list SequencedCommand);
  current_term : Z;
  sh_wal : list SequencedCommand;
  engines : list SimEngine;
  event_queue : list EngineEvent;
  shards : list RiskShard;
  mark_prices : gmap Z Z;
  account_states : AccountRiskTable
}.

Definition h_set_clock (c : SimClock) (h : SimHarness) : SimHarness :=
  mkHarness (sh_config h) c (next_seq h) (inbound h) (me_queues h) (current_term h) (sh_wal h) (engines h)
    (event_queue h) (shards h) (mark_prices h) (account_states h).
Definition h_set_inbound (l : list InboundCommand) (h : SimHarness) : SimHarness :=
  mkHarness (sh_config h) (sh_clock h) (next_seq h) l (me_queues h) (current_term h) (sh_wal h) (engines h)
    (event_queue h) (shards h) (mark_prices h) (account_states h).
Definition h_set_queues (q : list (list SequencedCommand)) (h : SimHarness) : SimHarness :=
  mkHarness (sh_config h) (sh_clock h) (next_seq h) (inbound h) q (current_term h) (sh_wal h) (engines h)
    (event_queue h) (shards h) (mark_prices h) (account_states h).
Definition h_set_events (evs : list EngineEvent) (h : SimHarness) : SimHarness :=
  mkHarness (sh_config h) (sh_clock h) (next_seq h) (inbound h) (me_queues h) (current_term h) (sh_wal h)
    (engines h) evs (shards h) (mark_prices h) (account_states h).
Definition h_set_engines (es : list SimEngine) (h : SimHarness) : SimHarness :=
  mkHarness (sh_config h) (sh_clock h) (next_seq h) (inbound h) (me_queues h) (current_term h) (sh_wal h) es
    (event_queue h) (shards h) (mark_prices h) (account_states h).
Definition h_set_risk (l : list RiskShard) (t : AccountRiskTable) (h : SimHarness) : SimHarness :=
  mkHarness (sh_config h) (sh_clock h) (next_seq h) (inbound h) (me_queues h) (current_term h) (sh_wal h)
    (engines h) (event_queue h) l (mark_prices h) t.
Definition h_sequenced (sc : SequencedCommand) (rest : list InboundCommand) (h : SimHarness) : SimHarness :=
  mkHarness (sh_config h) (sh_clock h) (sc_seq sc) rest (me_queues h) (current_term h) (sh_wal h ++ [sc])
    (engines h) (event_queue h) (shards h) (mark_prices h) (account_states h).

(** The deposits of the accounts [ids] of one shard. *)
Fixpoint seed_all (ids : list Z) (amount : Z) (sh : RiskShard) : Exec RiskShard :=
  match ids with
  | [] => Val sh
  | a :: ids => let! sh := seed_deposit a amount sh in seed_all ids amount sh
  end.

(** The shards [i], [i + 1], ... of the closure in [new], over the shared
    table. *)
Fixpoint build_shards (n : nat) (i per_shard : Z) (balance : Z) (t : AccountRiskTable) :
    Exec (list RiskShard * AccountRiskTable) :=
  match n with
  | O => Val ([], t)
  | S n =>
      let start := i * per_shard in
      let! sh := seed_all (seqZ start per_shard) balance
                   (RiskShard_new start (start + per_shard) (ShardConfig_new (Z.to_nat per_shard)) t) in
      let! '(shs, t) := build_shards n (i + 1) per_shard balance (rs_states sh) in
      Val (sh :: shs, t)
  end.

(** [assert!(n_accounts % n_risk_shards == 0)]; a remainder by zero panics
    too. *)
Definition SimHarness_new (config : SimConfig) : Exec SimHarness :=
  if (n_risk_shards config =? 0)%nat then Panic
  else if negb (n_accounts config mod n_risk_shards config =? 0)%nat then Panic
  else
    let engines := map (fun i => SimEngine_new (Z.of_nat i mod 65536) (book_tick_floor config) (book_num_ticks config))
                     (List.seq 0 (n_symbols config)) in
    let accounts_per_shard := (n_accounts config / n_risk_shards config)%nat in
    let! '(shards, states) := build_shards (n_risk_shards config) 0 (Z.of_nat accounts_per_shard)
                                (initial_balance config) (Table_new (n_accounts config)) in
    Val (mkHarness config (mkSimClock 0) 0 [] (replicate (n_symbols config) []) 1 [] engines [] shards ∅ states).

Definition push_command (cmd : InboundCommand) (h : SimHarness) : SimHarness :=
  h_set_inbound (inbound h ++ [cmd]) h.

Definition set_term (term : Z) (h : SimHarness) : SimHarness :=
  mkHarness (sh_config h) (sh_clock h) (next_seq h) (inbound h) (me_queues h) term (sh_wal h) (engines h)
    (event_queue h) (shards h) (mark_prices h) (account_states h).

Definition set_mark_price (symbol price : Z) (h : SimHarness) : SimHarness :=
  mkHarness (sh_config h) (sh_clock h) (next_seq h) (inbound h) (me_queues h) (current_term h) (sh_wal h)
    (engines h) (event_queue h) (shards h) (<[symbol := price]> (mark_prices h)) (account_states h).

(** *** Step 1: the sequencer *)

(** The match on the command: its symbol's queue, or every queue. *)
Definition route_command (sc : SequencedCommand) (queues : list (list SequencedCommand)) :
    Exec (list (list SequencedCommand)) :=
  match sc_cmd sc with
  | Inbound_NewOrder _ _ symbol _ _ _ _ _ | Inbound_Liquidate symbol _ =>
      let! q := index_list queues (Z.to_nat symbol) in
      Val (<[Z.to_nat symbol := q ++ [sc]]> queues)
  | Inbound_Cancel _ _ | Inbound_FreezeAccount _ => Val (map (fun q => q ++ [sc]) queues)
  end.

Definition sequence_step (st : SimHarness * SimResult) : Exec (SimHarness * SimResult) :=
  let '(h, r) := st in
  match inbound h with
  | [] => Val (h, r)
  | cmd :: rest =>
      let seq := wrap_u64 (next_seq h + 1) in
      let sequenced := mkSC (current_term h) seq (clock_now_ns (sh_clock h)) cmd in
      let h := h_sequenced sequenced rest h in
      let r := sr_count_command r in
      let! queues := route_command sequenced (me_queues h) in
      let h := h_set_queues queues h in
      if sim_snapshot_interval (sh_config h) =? 0 then Panic
      else if seq mod sim_snapshot_interval (sh_config h) =? 0
      then Val (h_set_events (event_queue h ++ [SnapshotMarker seq]) h, sr_count_snapshot r)
      else Val (h, r)
  end.

(** *** Step 2: the matching engines *)

(** The loop over the engines [es], their queues [qs] beside them. *)
Fixpoint engines_loop (es : list SimEngine) (qs : list (list SequencedCommand)) :
    Exec (list SimEngine * list (list SequencedCommand) * list EngineEvent) :=
  match es, qs with
  | [], qs => Val ([], qs, [])
  | _ :: _, [] => Panic
  | e :: es, q :: qs =>
      let! '(events, e, q) :=
        match q with
        | [] => Val ([], e, [])
        | cmd :: q => let! '(events, e) := engine_step cmd e in Val (events, e, q)
        end in
      let! '(es, qs, more) := engines_loop es qs in
      Val (e :: es, q :: qs, events ++ more)
  end.

Definition count_trades (events : list EngineEvent) (r : SimResult) : SimResult :=
  foldl (fun r ev => if is_trade ev then sr_count_trade r else r) r events.

Definition engines_step (st : SimHarness * SimResult) : Exec (SimHarness * SimResult) :=
  let '(h, r) := st in
  let! '(es, qs, events) := engines_loop (engines h) (me_queues h) in
  Val (h_set_events (event_queue h ++ events) (h_set_queues qs (h_set_engines es h)), count_trades events r).

(** *** Step 3: the risk shards *)

Section Risk.
Context (hm_iter : gmap (Z * Z) Position -> list ((Z * Z) * Position)).

(** One event through the shards, in order; the commands in the order they
    are emitted. *)
Fixpoint shards_event (shs : list RiskShard) (t : AccountRiskTable) (ev : EngineEvent) (marks : gmap Z Z) :
    Exec (list RiskShard * AccountRiskTable * list InboundCommand) :=
  match shs with
  | [] => Val ([], t, [])
  | sh :: shs =>
      let! '(sh, cmds) := process_event hm_iter (sh_set_states t sh) ev marks in
      let! '(shs, t, more) := shards_event shs (rs_states sh) ev marks in
      Val (sh :: shs, t, cmds ++ more)
  end.

(** [push_front] one by one: the last command emitted comes first. *)
Definition reinject (cmds : list InboundCommand) (st : SimHarness * SimResult) : SimHarness * SimResult :=
  foldl (fun '(h, r) cmd => (h_set_inbound (cmd :: inbound h) h, sr_count_liquidation r)) st cmds.

Fixpoint risk_loop (events : list EngineEvent) (st : SimHarness * SimResult) : Exec (SimHarness * SimResult) :=
  match events with
  | [] => Val st
  | ev :: events =>
      let '(h, r) := st in
      let! '(shs, t, cmds) := shards_event (shards h) (account_states h) ev (mark_prices h) in
      risk_loop events (reinject cmds (h_set_risk shs t h, sr_push_event ev r))
  end.

Definition risk_step (st : SimHarness * SimResult) : Exec (SimHarness * SimResult) :=
  let '(h, r) := st in risk_loop (event_queue h) (h_set_events [] h, r).

Definition run_tick (st : SimHarness * SimResult) : Exec (SimHarness * SimResult) :=
  let '(h, r) := st in
  let! st := sequence_step (h_set_clock (clock_tick (sh_clock h)) h, r) in
  let! st := engines_step st in
  risk_step st.

Fixpoint run_ticks (n : nat) (st : SimHarness * SimResult) : Exec (SimHarness * SimResult) :=
  match n with
  | O => Val st
  | S n => let! st := run_tick st in run_ticks n st
  end.

Definition sim_run (n_ticks : Z) (h : SimHarness) : Exec (SimResult * SimHarness) :=
  let! '(h, r) := run_ticks (Z.to_nat n_ticks) (h, SimResult_default) in Val (r, h).

Definition account_snapshot (account : Z) (h : SimHarness) : Exec AccountRiskSnapshot :=
  let! state := expect (table_get (account_states h) account) in
  read state.

Definition drain_events (h : SimHarness) : list EngineEvent * SimHarness := (event_queue h, h_set_events [] h).

(** ** replay.rs *)

Definition push_log (log : list SequencedCommand) (h : SimHarness) : SimHarness :=
  foldl (fun h sc => push_command (sc_cmd sc) h) h log.

Definition replay (config : SimConfig) (log : list SequencedCommand) : Exec (SimResult * SimHarness) :=
  let! harness := SimHarness_new config in
  sim_run (wrap_u64 (wrap_u64 (Z.of_nat (length log) * 2) + 10)) (push_log log harness).

(** What a field of two snapshots differs in, with the text of the error. *)
Definition mismatch (i : nat) (field orig rep : string) : string :=
  "account " +:+ pretty i +:+ " " +:+ field +:+ " mismatch: orig=" +:+ orig +:+ " replay=" +:+ rep.
Definition show_bool (b : bool) : string := if b then "true" else "false".

Definition compare_account (i : nat) (orig rep : AccountRiskSnapshot) : Result unit string :=
  if negb (balance orig =? balance rep) then Err (mismatch i "balance" (pretty (balance orig)) (pretty (balance rep)))
  else if negb (used_margin orig =? used_margin rep)
  then Err (mismatch i "used_margin" (pretty (used_margin orig)) (pretty (used_margin rep)))
  else if negb (Bool.eqb (frozen orig) (frozen rep))
  then Err (mismatch i "frozen" (show_bool (frozen orig)) (show_bool (frozen rep)))
  else Ok tt.

Fixpoint compare_accounts (ids : list nat) (original replayed : SimHarness) : Exec (Result unit string) :=
  match ids with
  | [] => Val (Ok tt)
  | i :: ids =>
      let! orig := account_snapshot (Z.of_nat i) original in
      let! rep := account_snapshot (Z.of_nat i) replayed in
      match compare_account i orig rep with
      | Ok _ => compare_accounts ids original replayed
      | Err e => Val (Err e)
      end
  end.

Definition verify_account_states (config : SimConfig) (original : SimHarness) (log : list SequencedCommand) :
    Exec (Result unit string) :=
  let! '(_, replayed) := replay config log in
  compare_accounts (List.seq 0 (n_accounts config)) original replayed.

Definition verify_trade_counts (config : SimConfig) (original_result : SimResult) (log : list SequencedCommand) :
    Exec (Result unit string) :=
  let! '(replayed_result, _) := replay config log in
  if negb (trades_matched original_result =? trades_matched replayed_result)
  then Val (Err ("trade count mismatch: orig=" +:+ pretty (trades_matched original_result) +:+ " replay="
                 +:+ pretty (trades_matched replayed_result)))
  else Val (Ok tt).
End Risk.

(** ** chaos.rs *)

Inductive FaultKind :=
| TruncateWal (drop_last_n : nat)
| ResetRiskShard (shard_index : nat)
| NoFault.

Record ChaosConfig := mkChaos {
  ch_sim_config : SimConfig;
  phase1_ticks : Z;
  phase2_ticks : Z;
  fault : FaultKind
}.

Definition ChaosConfig_new (sim_config : SimConfig) (phase1_ticks : Z) (fault : FaultKind) : ChaosConfig :=
  mkChaos sim_config phase1_ticks (phase1_ticks / 2) fault.

Record ChaosResult := mkChaosResult { phase1_result : SimResult; replay_ok : bool; ch_error : option string }.

(** The log that survives the fault. *)
Definition inject_fault (f : FaultKind) (wal : list SequencedCommand) : list SequencedCommand :=
  match f with
  | TruncateWal drop_last_n => take (length wal - drop_last_n) wal
  | ResetRiskShard _ | NoFault => wal
  end.

(** [iter1] and [iter2] are the iteration orders of the maps of the original
    run and of the replay. *)
Definition run_chaos (iter1 iter2 : gmap (Z * Z) Position -> list ((Z * Z) * Position)) (config : ChaosConfig)
    (inject_commands : SimHarness -> Exec SimHarness) : Exec ChaosResult :=
  let! harness := SimHarness_new (ch_sim_config config) in
  let! harness := inject_commands harness in
  let! '(phase1_result, harness) := sim_run iter1 (phase1_ticks config) harness in
  let wal := inject_fault (fault config) (sh_wal harness) in
  let! v := verify_account_states iter2 (ch_sim_config config) harness wal in
  match v with
  | Ok _ => Val (mkChaosResult phase1_result true None)
  | Err e => Val (mkChaosResult phase1_result false (Some e))
  end.
End Sim.
