(* ===== verification/SimRisk.v ===== *)
(** * SimRisk: the risk shards of the simulation harness

    What one event does to all shards that share the account table: every call
    returns while volumes stay below 2^63, positions stay exact, and the sum of
    all net positions moves by what the owners of the two legs gained. *)

From S2P Require Import Prelude CoreTypes SlotMap OrderBook BookSpec Seqlock Risk Sim.
#[local] Open Scope Z_scope.

(** ** Sums that change at one index *)

Lemma sumZ_map_eq {A} (f g : A -> Z) (l : list A) :
  (forall a, a ∈ l -> f a = g a) -> sumZ (map f l) = sumZ (map g l).
Proof.
  induction l as [|x l IH]; intros H; [done|]. simpl. rewrite (H x) by (by left). rewrite IH; [done|].
  intros a Ha. apply H. by right.
Qed.

Lemma sumZ_map_update (f g : Z -> Z) (l : list Z) x d :
  NoDup l -> (forall a, a <> x -> f a = g a) -> f x = g x + d ->
  sumZ (map f l) = sumZ (map g l) + (if bool_decide (x ∈ l) then d else 0).
Proof.
  intros Hnd Hne Hx. induction Hnd as [|y l Hy Hnd IH]; cbn [map sumZ]; [rewrite bool_decide_false by set_solver; lia|].
  rewrite IH. destruct (decide (y = x)) as [-> |Hyx].
  - rewrite Hx. rewrite bool_decide_false, bool_decide_true by set_solver. lia.
  - rewrite (Hne y) by done. rewrite (bool_decide_ext (x ∈ y :: l) (x ∈ l)) by set_solver. lia.
Qed.

Lemma sumZ_plus {A} (f g : A -> Z) (l : list A) : sumZ (map (fun a => f a + g a) l) = sumZ (map f l) + sumZ (map g l).
Proof. induction l; simpl; lia. Qed.

Lemma sumZ_scale {A} (f : A -> Z) c (l : list A) : sumZ (map (fun a => f a * c) l) = sumZ (map f l) * c.
Proof. induction l; simpl; lia. Qed.

(** ** Positions *)

(** A position after fills of total quantity at most [V]. *)
Definition pos_inv (V : Z) (p : Position) : Prop :=
  pos_ok p /\ Z.abs (net_qty p) <= V /\ avg_entry_price p < two63 /\ in_i64 (realised_pnl p).

Lemma pos_inv_default V : 0 <= V -> pos_inv V Position_default.
Proof. intros. unfold pos_inv, pos_ok, in_i64, two63. simpl. lia. Qed.

Lemma pos_inv_mono V V' p : pos_inv V p -> V <= V' -> pos_inv V' p.
Proof. intros (? & ? & ? & ?) ?. split_and!; try done. lia. Qed.

Lemma pos_inv_fill V side price qty p :
  pos_inv V p -> 0 < qty -> V + qty < two63 -> 0 <= price < two63 ->
  exists p', apply_fill side price qty p = Val p' /\ pos_inv (V + qty) p' /\ net_qty p' = net_qty p + signed side qty.
Proof.
  intros (Hok & Hn & Ha & Hr) Hq HV Hp. assert (Hok' := Hok). destruct Hok' as [_ Ha0].
  destruct (apply_fill_inv side price qty p) as (p' & Hap & Hok' & Hnet & Hr' & Ha' & _); [|done|].
  - split_and!; try done; lia.
  - exists p'. split_and!; try done. unfold pos_inv. split_and!; try done; [|lia].
    rewrite Hnet. destruct side; simpl; lia.
Qed.

(** ** One shard *)

Section Shard.
Context (hm_iter : gmap (Z * Z) Position -> list ((Z * Z) * Position)).

(** The net position of the shard's accounts in a symbol. *)
Definition owned_ids (sh : RiskShard) : list Z := seqZ (owned_start sh) (owned_end sh - owned_start sh).
Definition shard_net (symbol : Z) (sh : RiskShard) : Z :=
  sumZ (map (fun a => net_qty (pos_of sh a symbol)) (owned_ids sh)).

(** What never changes in a shard. *)
Definition shard_static (sh : RiskShard) : Z * Z * list Z * ShardConfig :=
  (owned_start sh, owned_end sh, initial_deposits sh, config sh).

Definition shard_pos_inv (V : Z) (sh : RiskShard) : Prop := forall a s, pos_inv V (pos_of sh a s).

Definition is_liquidation (symbol : Z) (sh : RiskShard) (cmd : InboundCommand) : Prop :=
  exists a, cmd = Inbound_Liquidate symbol a /\ owns sh a = true.

(** The gain of the shard's accounts when [acct] gains [d] of [symbol]. *)
Definition gain (symbol acct d s : Z) (sh : RiskShard) : Z :=
  if owns sh acct && (s =? symbol) then d else 0.

Lemma elem_of_owned sh a : a ∈ owned_ids sh <-> owns sh a = true.
Proof. unfold owned_ids, owns. rewrite elem_of_seqZ, andb_true_iff. lia. Qed.

Lemma owns_static sh sh' a : shard_static sh' = shard_static sh -> owns sh' a = owns sh a.
Proof. unfold shard_static, owns. by intros [= -> -> _ _]. Qed.

Lemma owned_static sh sh' : shard_static sh' = shard_static sh -> owned_ids sh' = owned_ids sh.
Proof. unfold shard_static, owned_ids. by intros [= -> -> _ _]. Qed.

Lemma leg_step sh marks acct symbol side price qty V :
  shard_ok sh -> shard_pos_inv V sh -> 0 < qty -> V + qty < two63 -> 0 <= price < two63 -> 0 <= V ->
  exists sh' cmds, process_leg hm_iter sh marks acct symbol side price qty = Val (sh', cmds)
    /\ shard_ok sh' /\ shard_static sh' = shard_static sh /\ shard_pos_inv (V + qty) sh'
    /\ table_capacity (rs_states sh') = table_capacity (rs_states sh)
    /\ (forall s, shard_net s sh' = shard_net s sh + gain symbol acct (signed side qty) s sh)
    /\ Forall (is_liquidation symbol sh) cmds.
Proof.
  intros Hok Hpos Hq HV Hp HV0. destruct (owns sh acct) eqn:Ho.
  2:{ exists sh, []. rewrite process_leg_skip by done. split_and!; try done.
      - intros a s. eapply pos_inv_mono; [apply Hpos|lia].
      - intros s. unfold gain. rewrite Ho. simpl. lia. }
  destruct (pos_inv_fill V side price qty (pos_of sh acct symbol) (Hpos acct symbol) Hq HV Hp) as (p' & Hap & Hp' & Hn).
  assert (Hf : fill_ok (pos_of sh acct symbol) price qty).
  { destruct (Hpos acct symbol) as ([_ ?] & ? & ? & ?). split_and!; try done; lia. }
  destruct (process_leg_ok hm_iter sh marks acct symbol side price qty Hok Ho Hf) as (sh' & cmds & Hrun & Heff).
  exists sh', cmds. assert (Hcell := le_cell _ _ _ _ _ _ _ Heff).
  assert (Hst : shard_static sh' = shard_static sh /\ table_capacity (rs_states sh') = table_capacity (rs_states sh)
    /\ pos_of sh' acct symbol = p').
  { revert Hrun. unfold process_leg. rewrite Ho. simpl. fold (pos_of sh acct symbol). rewrite Hap. simpl.
    intros H. repeat (apply ebind_val_inv in H as ([] & _ & H) || apply ebind_val_inv in H as (? & _ & H)).
    simplify_eq/=. split_and!; try done.
    - unfold table_capacity. simpl. by rewrite length_insert.
    - unfold pos_of. simpl. by rewrite lookup_insert_eq. }
  destruct Hst as (Hst & Hcap & Hpp). split_and!; try done.
  - apply (le_ok _ _ _ _ _ _ _ Heff).
  - intros a s. destruct (decide ((a, s) = (acct, symbol))) as [[= -> ->]|Hne]; [by rewrite Hpp|].
    unfold pos_of. rewrite (le_other _ _ _ _ _ _ _ Heff a s Hne). eapply pos_inv_mono; [apply Hpos|lia].
  - intros s. unfold shard_net, gain. rewrite (owned_static sh sh' Hst), Ho. simpl.
    destruct (Z.eqb_spec s symbol) as [-> |Hs].
    + rewrite (sumZ_map_update (fun a => net_qty (pos_of sh' a symbol)) (fun a => net_qty (pos_of sh a symbol)) _ acct (signed side qty)).
      * rewrite bool_decide_true; [done|]. by apply elem_of_owned.
      * apply NoDup_seqZ.
      * intros a Ha. unfold pos_of. rewrite (le_other _ _ _ _ _ _ _ Heff); congruence.
      * by rewrite Hpp.
    + rewrite Z.add_0_r. apply sumZ_map_eq. intros a _. unfold pos_of. rewrite (le_other _ _ _ _ _ _ _ Heff); congruence.
  - destruct Hcell as (old & new & _ & _ & _ & _ & _ & _ & ->). case_match; [|constructor].
    constructor; [by exists acct|constructor].
Qed.

(** An event a book can emit, with accounts below [n]. *)
Definition event_ok (n : nat) (ev : EngineEvent) : Prop :=
  match ev with
  | Trade _ _ _ price qty _ _ _ _ maker_acct taker_acct _ _ _ =>
      0 < qty /\ 0 <= price < two63 /\ 0 <= maker_acct < Z.of_nat n /\ 0 <= taker_acct < Z.of_nat n
  | _ => True
  end.

Definition ev_symbol (ev : EngineEvent) : Z := match ev with Trade _ _ s _ _ _ _ _ _ _ _ _ _ _ => s | _ => 0 end.

Definition ev_price (ev : EngineEvent) : Z := match ev with Trade _ _ _ p _ _ _ _ _ _ _ _ _ _ => p | _ => 0 end.

(** What the shard's accounts gain by an event. *)
Definition ev_gain (ev : EngineEvent) (s : Z) (sh : RiskShard) : Z :=
  match ev with
  | Trade _ _ symbol _ qty _ _ _ _ maker_acct taker_acct maker_side _ _ =>
      gain symbol maker_acct (signed maker_side qty) s sh + gain symbol taker_acct (signed (opposite maker_side) qty) s sh
  | _ => 0
  end.

Lemma event_step n sh marks ev V :
  shard_ok sh -> shard_pos_inv V sh -> event_ok n ev -> V + 2 * ev_trade_qty ev < two63 -> 0 <= V ->
  exists sh' cmds, process_event hm_iter sh ev marks = Val (sh', cmds)
    /\ shard_ok sh' /\ shard_static sh' = shard_static sh /\ shard_pos_inv (V + 2 * ev_trade_qty ev) sh'
    /\ table_capacity (rs_states sh') = table_capacity (rs_states sh)
    /\ (forall s, shard_net s sh' = shard_net s sh + ev_gain ev s sh)
    /\ Forall (fun c => is_trade ev = true /\ is_liquidation (ev_symbol ev) sh c) cmds.
Proof.
  intros Hok Hpos Hev HV HV0.
  assert (Hnop : process_event hm_iter sh ev marks = Val (sh, []) -> ev_trade_qty ev = 0 -> (forall s, ev_gain ev s sh = 0) ->
    exists sh' cmds, process_event hm_iter sh ev marks = Val (sh', cmds)
    /\ shard_ok sh' /\ shard_static sh' = shard_static sh /\ shard_pos_inv (V + 2 * ev_trade_qty ev) sh'
    /\ table_capacity (rs_states sh') = table_capacity (rs_states sh)
    /\ (forall s, shard_net s sh' = shard_net s sh + ev_gain ev s sh)
    /\ Forall (fun c => is_trade ev = true /\ is_liquidation (ev_symbol ev) sh c) cmds).
  { intros He H0 Hg. exists sh, []. rewrite H0 in *. split_and!; try done.
    - intros a s. eapply pos_inv_mono; [apply Hpos|lia].
    - intros s. rewrite Hg. lia. }
  destruct ev as [seq ts symbol price qty mo tor mid tid ma ta ms mr tr| | | | | | | |]; try (by apply Hnop).
  clear Hnop. simpl in Hev, HV |- *. destruct Hev as (Hq & Hp & Hma & Hta).
  destruct (leg_step sh marks ma symbol ms price qty V) as (sh1 & c1 & -> & Hok1 & Hst1 & Hpos1 & Hcap1 & Hn1 & Hc1); try done; [lia|].
  cbn [ebind].
  destruct (leg_step sh1 marks ta symbol (opposite ms) price qty (V + qty)) as (sh2 & c2 & -> & Hok2 & Hst2 & Hpos2 & Hcap2 & Hn2 & Hc2);
    try done; [lia|lia|]. cbn [ebind].
  eexists _, _. split_and!; try done; try congruence.
  - intros a s. eapply pos_inv_mono; [apply Hpos2|lia].
  - intros s. rewrite Hn2, Hn1. unfold gain. rewrite (owns_static sh sh1) by done. lia.
  - apply Forall_app. split; [by eapply Forall_impl|]. eapply Forall_impl; [exact Hc2|]. intros c (a & -> & Ha).
    split; [done|]. exists a. split; [done|]. by rewrite <- (owns_static sh sh1).
Qed.

(** ** All shards *)

Definition total_net (symbol : Z) (shs : list RiskShard) : Z := sumZ (map (shard_net symbol) shs).

(** How many shards own an account. *)
Definition owners (acct : Z) (shs : list RiskShard) : Z :=
  sumZ (map (fun sh => if owns sh acct then 1 else 0) shs).

(** A shard without its table: its range is within the [n] accounts. *)
Definition shard_range_ok (n : nat) (sh : RiskShard) : Prop :=
  0 <= owned_start sh <= owned_end sh /\ owned_end sh <= Z.of_nat n
  /\ Z.of_nat (length (initial_deposits sh)) = owned_end sh - owned_start sh.

Record risk_ok (n : nat) (V : Z) (shs : list RiskShard) (t : AccountRiskTable) : Prop := {
  ro_small : Z.of_nat n < two64;
  ro_table : table_ok t;
  ro_capacity : table_capacity t = n;
  ro_ranges : Forall (shard_range_ok n) shs;
  ro_positions : Forall (shard_pos_inv V) shs
}.

Lemma shared_shard_ok n t sh :
  Z.of_nat n < two64 -> table_ok t -> table_capacity t = n -> shard_range_ok n sh -> shard_ok (sh_set_states t sh).
Proof. intros Hn Ht Hc (? & ? & ?). unfold shard_ok. simpl. rewrite Hc. split_and!; try done; lia. Qed.

Lemma owners_static a shs shs' : map shard_static shs' = map shard_static shs -> owners a shs' = owners a shs.
Proof.
  unfold owners. revert shs'. induction shs as [|sh shs IH]; intros [|sh' shs']; try done.
  simpl. intros [= ? ? ? ? H]. rewrite (IH shs' H). f_equal. rewrite (owns_static sh sh'); [done|].
  unfold shard_static. congruence.
Qed.

Lemma owners_gain symbol acct d s shs :
  sumZ (map (gain symbol acct d s) shs) = owners acct shs * (if s =? symbol then d else 0).
Proof.
  unfold owners. rewrite <- sumZ_scale. apply sumZ_map_eq. intros sh _. unfold gain.
  destruct (owns sh acct), (s =? symbol); simpl; lia.
Qed.

Lemma shards_event_ok n marks ev V shs t :
  risk_ok n V shs t -> event_ok n ev -> V + 2 * ev_trade_qty ev < two63 -> 0 <= V ->
  exists shs' t' cmds, shards_event hm_iter shs t ev marks = Val (shs', t', cmds)
    /\ risk_ok n (V + 2 * ev_trade_qty ev) shs' t' /\ map shard_static shs' = map shard_static shs
    /\ (forall s, total_net s shs' = total_net s shs + sumZ (map (ev_gain ev s) shs))
    /\ Forall (fun c => is_trade ev = true /\ exists a, c = Inbound_Liquidate (ev_symbol ev) a /\ 0 <= a < Z.of_nat n) cmds.
Proof.
  intros [Hn Ht Hc Hr Hp] Hev HV HV0. revert t Ht Hc Hp. induction Hr as [|sh shs Hsh Hr IH]; intros t Ht Hc Hp.
  { exists [], t, []. split_and!; done. }
  apply Forall_cons in Hp as [Hp1 Hp].
  destruct (event_step n (sh_set_states t sh) marks ev V) as (sh' & c1 & Hrun & Hok' & Hst & Hpos' & Hcap & Hnet & Hc1);
    [by eapply shared_shard_ok|done..|].
  destruct Hok' as (? & ? & ? & Ht' & ?).
  destruct (IH (rs_states sh')) as (shs' & t' & c2 & Hrun2 & [_ Ht2 Hc2 Hr2 Hp2] & Hst2 & Hnet2 & Hcm2);
    [done|by rewrite Hcap|done|].
  cbn [shards_event]. rewrite Hrun. cbn [ebind]. rewrite Hrun2. cbn [ebind]. eexists _, _, _. split; [done|].
  change (shard_static (sh_set_states t sh)) with (shard_static sh) in Hst. unfold shard_static in Hst.
  injection Hst as Hs1 Hs2 Hs3 Hs4.
  split_and!.
  - split; try done; constructor; try done. destruct Hsh as (? & ? & ?). unfold shard_range_ok. rewrite Hs1, Hs2, Hs3. done.
  - cbn [map]. rewrite Hst2. unfold shard_static. by rewrite Hs1, Hs2, Hs3, Hs4.
  - intros s. unfold total_net in *. cbn [map sumZ]. rewrite Hnet2, Hnet.
    change (shard_net s (sh_set_states t sh)) with (shard_net s sh).
    assert (ev_gain ev s (sh_set_states t sh) = ev_gain ev s sh) as -> by by destruct ev. lia.
  - apply Forall_app. split; [|done]. eapply Forall_impl; [exact Hc1|]. intros c (Htr & a & -> & Ha).
    split; [done|]. exists a. split; [done|]. change (owns sh a = true) in Ha. unfold owns in Ha. apply andb_true_iff in Ha.
    destruct Hsh as (? & ? & _). lia.
Qed.

(** Every trade between two accounts with one owner each leaves the sum of all
    positions as it was. *)
Lemma event_zero_sum n ev s shs :
  event_ok n ev -> (forall a, 0 <= a < Z.of_nat n -> owners a shs = 1) -> sumZ (map (ev_gain ev s) shs) = 0.
Proof.
  intros Hev Hown.
  destruct ev; simpl; try (clear; induction shs; simpl; lia). destruct Hev as (_ & _ & Hma & Hta).
  change (map (ev_gain _ s) shs) with (map (fun sh => gain symbol maker_acct (signed maker_side qty) s sh
    + gain symbol taker_acct (signed (opposite maker_side) qty) s sh) shs).
  rewrite sumZ_plus, !owners_gain, !Hown by done. destruct (s =? _), maker_side; simpl; lia.
Qed.
End Shard.
