(* ===== verification/SimCanon.v ===== *)
(** * SimCanon: margins do not depend on the order of the hash map

    Two runs of the harness iterate over a shard's [HashMap] of positions in
    two orders, and the sums of [recompute_margin] saturate, so the order can
    matter.  Here the size of what is summed is bounded by the traded volume
    and the highest price: while the bound stays below 2^63 nothing saturates,
    and a shard does what it does with the entries in the order of
    [map_to_list]. *)

From S2P Require Import Prelude CoreTypes SlotMap OrderBook BookSpec Seqlock Risk Sim SimRisk.
#[local] Open Scope Z_scope.

(** ** Sums over the positions of a shard *)

#[export] Instance sumZ_Proper : Proper ((≡ₚ) ==> (=)) sumZ.
Proof. intros xs ys. apply sumZ_perm. Qed.
#[local] Existing Instance Permutation_map'.

Definition msum (f : Position -> Z) (m : gmap (Z * Z) Position) : Z := sumZ (map (fun e => f e.2) (map_to_list m)).

Lemma msum_insert f m k p :
  f Position_default = 0 -> msum f (<[k := p]> m) = msum f m - f (default Position_default (m !! k)) + f p.
Proof.
  intros H0. unfold msum. destruct (m !! k) as [q|] eqn:Hk; simpl.
  - assert (Hd : sumZ (map (fun e => f e.2) (map_to_list m)) = f q + sumZ (map (fun e => f e.2) (map_to_list (delete k m)))).
    { by rewrite <- (map_to_list_delete m k q Hk). }
    assert (Hi : sumZ (map (fun e => f e.2) (map_to_list (<[k := p]> m))) = f p + sumZ (map (fun e => f e.2) (map_to_list (delete k m)))).
    { rewrite <- insert_delete_eq, map_to_list_insert by apply lookup_delete_eq. done. }
    lia.
  - rewrite map_to_list_insert by done. simpl. lia.
Qed.

Lemma sumZ_le_map {A} (f g : A -> Z) (l : list A) :
  (forall a, a ∈ l -> f a <= g a) -> sumZ (map f l) <= sumZ (map g l).
Proof.
  induction l as [|x l IH]; intros H; simpl; [done|]. specialize (H x) as Hx.
  assert (f x <= g x) by (apply Hx; by left). assert (sumZ (map f l) <= sumZ (map g l)) by (apply IH; intros; apply H; by right).
  lia.
Qed.

Definition unit_scale : Z := 100000000.

(** Positions built by fills of total quantity at most [V] at prices up to [P]. *)
Record mass_ok (P V : Z) (m : gmap (Z * Z) Position) : Prop := {
  ms_net : msum (fun p => Z.abs (net_qty p)) m <= V;
  ms_pnl : msum (fun p => Z.abs (realised_pnl p)) m * unit_scale <= P * V;
  ms_avg k p : m !! k = Some p -> avg_entry_price p <= P
}.

Lemma mass_mono P V V' m : mass_ok P V m -> 0 <= P -> V <= V' -> mass_ok P V' m.
Proof. intros [? ? ?] ? ?. split; try done; [lia|nia]. Qed.

Lemma abs_clamp z : Z.abs (clamp_i64 z) <= Z.abs z.
Proof. ilia. Qed.

(** The profit one fill realises. *)
Lemma fill_pnl side P V price qty p p' :
  pos_inv V p -> 0 < qty -> V + qty < two63 -> 0 <= price <= P -> P < two63 -> avg_entry_price p <= P ->
  P * qty < two63 * unit_scale -> apply_fill side price qty p = Val p' ->
  Z.abs (realised_pnl p') * unit_scale <= Z.abs (realised_pnl p) * unit_scale + P * qty
  /\ avg_entry_price p' <= P.
Proof.
  intros (Hok & Hn & Ha & Hr) Hq HV Hp HP HaP Hb Hap. assert (Hok' := Hok). destruct Hok' as [_ Ha0].
  assert (Hf : fill_ok p price qty) by (split_and!; try done; lia).
  destruct (apply_fill_inv side price qty p Hf Hok) as (p1 & Hap1 & _ & _ & _ & Havg & _). rewrite Hap in Hap1. injection Hap1 as <-.
  split; [|lia].
  destruct (apply_fill_ok side price qty p Hf) as (p1 & Hap1 & _ & H0 & Hs & Ho). rewrite Hap in Hap1. injection Hap1 as <-.
  assert (Hc : net_qty p = 0 \/ 0 < net_qty p * signed side qty \/ net_qty p * signed side qty < 0) by (destruct side; simpl; nia).
  unfold unit_scale in *. destruct Hc as [Hc|[Hc|Hc]]; [destruct (H0 Hc) as [_ ->]; nia|destruct (Hs Hc) as [_ ->]; nia|].
  destruct (Ho Hc) as [-> _].
  set (x := (price - avg_entry_price p) * Z.sgn (net_qty p) * Z.min qty (Z.abs (net_qty p))).
  assert (Hx : Z.abs x <= P * qty).
  { unfold x. rewrite !Z.abs_mul. assert (Z.abs (price - avg_entry_price p) <= P) by lia.
    assert (Z.abs (Z.sgn (net_qty p)) <= 1) by lia. assert (0 <= Z.abs (Z.min qty (Z.abs (net_qty p))) <= qty) by lia. nia. }
  assert (Hqx : Z.abs (Z.quot x 100000000) * 100000000 <= Z.abs x).
  { rewrite <- Z.quot_abs by lia. pose proof (Z.mul_quot_le (Z.abs x) 100000000 ltac:(lia) ltac:(lia)). change (Z.abs 100000000) with 100000000. nia. }
  assert (Hw : in_i64 (Z.quot x 100000000)) by (unfold in_i64; lia).
  rewrite (wrap_i64_id _ Hw). pose proof (abs_clamp (realised_pnl p + Z.quot x 100000000)). lia.
Qed.

Lemma mass_fill side P V price qty m k p' :
  mass_ok P V m -> (forall k, pos_inv V (default Position_default (m !! k))) ->
  0 < qty -> V + qty < two63 -> 0 <= price <= P -> P < two63 -> P * qty < two63 * unit_scale ->
  apply_fill side price qty (default Position_default (m !! k)) = Val p' -> net_qty p' = net_qty (default Position_default (m !! k)) + signed side qty ->
  mass_ok P (V + qty) (<[k := p']> m).
Proof.
  intros [Hn Hr Ha] Hinv Hq HV Hp HP Hb Hap Hnet.
  assert (HaP : avg_entry_price (default Position_default (m !! k)) <= P).
  { destruct (m !! k) eqn:E; simpl; [by eapply Ha|lia]. }
  destruct (fill_pnl side P V price qty _ p' (Hinv k) Hq HV Hp HP HaP Hb Hap) as [Hpnl Havg]. split.
  - rewrite msum_insert by done. rewrite Hnet. destruct side; simpl; lia.
  - rewrite msum_insert by done. unfold unit_scale in *. nia.
  - intros k' p. destruct (decide (k' = k)) as [-> |Hk]; [rewrite lookup_insert_eq; congruence|].
    rewrite lookup_insert_ne by done. apply Ha.
Qed.

(** ** The size of an entry *)

Lemma unrealised_at_entry p : unrealised_pnl (avg_entry_price p) p = 0.
Proof. unfold unrealised_pnl. case_match; [done|]. rewrite Z.sub_diag. destruct (0 <? net_qty p); reflexivity. Qed.

Lemma entry_size_bound l account k P V p :
  pos_inv V p -> avg_entry_price p <= P -> 0 <= P < two63 -> V < two63 -> P * V < two63 * unit_scale ->
  0 <= maintenance_margin_fraction l <= 1000000 ->
  entry_size l ∅ account (k, p) * unit_scale <= Z.abs (realised_pnl p) * unit_scale + P * Z.abs (net_qty p).
Proof.
  intros ([Hz Ha] & Hn & _ & _) HaP HP HV Hb Hm. unfold entry_size, entry_margin, unit_scale in *. cbn [fst snd].
  destruct (k.1 =? account); [|nia]. unfold position_mark. rewrite lookup_empty. cbn [default]. rewrite unrealised_at_entry.
  destruct (net_qty p =? 0); [nia|].
  unfold notional. rewrite abs_i64_ok by lia.
  assert (Hx : 0 <= avg_entry_price p * Z.abs (net_qty p) <= P * Z.abs (net_qty p)) by nia.
  assert (Hx2 : P * Z.abs (net_qty p) <= P * V) by nia.
  rewrite wrap_i128_id by (unfold in_i128, two127, two63 in *; lia).
  set (x := avg_entry_price p * Z.abs (net_qty p)) in *.
  rewrite (Z.quot_div_nonneg x) by lia. pose proof (Z.mul_div_le x 100000000 ltac:(lia)). pose proof (Z.div_pos x 100000000 ltac:(lia) ltac:(lia)).
  set (n := x / 100000000) in *. rewrite wrap_i64_id by (unfold in_i64; lia).
  unfold saturating_mul_i64. set (y := clamp_i64 (n * maintenance_margin_fraction l)).
  assert (Hnm : 0 <= n * maintenance_margin_fraction l <= n * 1000000) by nia.
  assert (Hy : 0 <= y <= n * 1000000) by (unfold y, clamp_i64, i64_min, i64_max, two63; lia).
  rewrite Z.quot_div_nonneg by lia. pose proof (Z.div_pos y 1000000 ltac:(lia) ltac:(lia)).
  assert (y / 1000000 <= n) by (apply Z.div_le_upper_bound; lia). lia.
Qed.

(** ** The shard *)

Record canon_ok (P B V : Z) (sh : RiskShard) : Prop := {
  cn_mass : mass_ok P V (positions sh);
  cn_fraction : 0 <= maintenance_margin_fraction (limits (config sh)) <= 1000000;
  cn_deposits : Forall (fun d => Z.abs d <= B) (initial_deposits sh)
}.

(** The room that keeps every sum of a run with volume [V] below 2^63. *)
Definition room (P B V : Z) : Prop :=
  0 <= P < two63 /\ 0 <= B /\ 0 <= V < two63 /\ B * unit_scale + 2 * P * V < two63 * unit_scale.

Section Canon.
Context (hm_iter : gmap (Z * Z) Position -> list ((Z * Z) * Position)).
Hypothesis hm_iter_perm : forall m, hm_iter m ≡ₚ map_to_list m.

Lemma recompute_canon P B V sh acct :
  canon_ok P B V sh -> shard_pos_inv V sh -> room P B V ->
  recompute_margin hm_iter sh acct ∅ = recompute_margin map_to_list sh acct ∅.
Proof.
  intros [[Hn Hr Ha] Hf Hd] Hpos (HP & HB & HV & Hroom). unfold recompute_margin, index_list.
  destruct (initial_deposits sh !! local_idx sh acct) as [d|] eqn:Ed; [|done]. simpl. f_equal.
  set (l := limits (config sh)) in *. assert (Hdb : Z.abs d <= B) by (rewrite Forall_lookup in Hd; by eapply Hd).
  assert (Hsz : sumZ (map (entry_size l ∅ acct) (map_to_list (positions sh))) * unit_scale <= 2 * P * V).
  { rewrite <- sumZ_scale. etransitivity; [apply (sumZ_le_map _ (fun e => Z.abs (realised_pnl e.2) * unit_scale + Z.abs (net_qty e.2) * P))|].
    - intros [k p] Hin. apply elem_of_map_to_list in Hin. rewrite (Z.mul_comm (Z.abs (net_qty _))).
      apply (entry_size_bound l acct k P V); try done; try lia; [|by eapply Ha|unfold unit_scale in *; nia].
      specialize (Hpos k.1 k.2). unfold pos_of in Hpos. rewrite <- surjective_pairing, Hin in Hpos. done.
    - rewrite sumZ_plus, !sumZ_scale. unfold msum in Hn, Hr. nia. }
  assert (Hp : forall f, sumZ (map f (hm_iter (positions sh))) = sumZ (map f (map_to_list (positions sh)))).
  { intros f. apply sumZ_perm. by rewrite hm_iter_perm. }
  rewrite !margin_fold_exact; rewrite ?Hp; unfold unit_scale in *; try lia. done.
Qed.

Lemma leg_canon P B V sh acct symbol side price qty :
  canon_ok P B V sh -> shard_pos_inv V sh -> room P B (V + qty) -> 0 <= V -> 0 < qty -> 0 <= price <= P ->
  process_leg hm_iter sh ∅ acct symbol side price qty = process_leg map_to_list sh ∅ acct symbol side price qty
  /\ (forall sh' cmds, process_leg hm_iter sh ∅ acct symbol side price qty = Val (sh', cmds) -> canon_ok P B (V + qty) sh').
Proof.
  intros [Hmass Hf Hd] Hpos (HP & HB & HV & Hroom) HV0 Hq Hp. unfold process_leg.
  destruct (owns sh acct); simpl.
  2:{ split; [done|]. intros ? ? [= <- <-]. split; try done. eapply mass_mono; [done|lia..]. }
  destruct (pos_inv_fill V side price qty (pos_of sh acct symbol) (Hpos acct symbol)) as (p' & Hap & Hp' & Hn); [lia..|].
  fold (pos_of sh acct symbol). rewrite Hap. cbn [ebind].
  set (sh1 := sh_set_positions (<[(acct, symbol) := p']> (positions sh)) sh).
  assert (Hc1 : canon_ok P B (V + qty) sh1).
  { split; try done. apply (mass_fill side P V price qty); try done; try lia; [|unfold unit_scale in *; nia].
    intros [a s]. apply Hpos. }
  assert (Hpos1 : shard_pos_inv (V + qty) sh1).
  { intros a s. unfold pos_of, sh1. simpl. destruct (decide ((a, s) = (acct, symbol))) as [-> |Hne].
    - by rewrite lookup_insert_eq.
    - rewrite lookup_insert_ne by done. eapply pos_inv_mono; [apply Hpos|lia]. }
  rewrite (recompute_canon P B (V + qty) sh1 acct Hc1 Hpos1) by (split_and!; lia). split; [done|].
  intros sh' cmds H. apply ebind_val_inv in H as ([bal used] & _ & H). repeat (apply ebind_val_inv in H as (? & _ & H)).
  simplify_eq/=. destruct Hc1. by split.
Qed.

Lemma event_canon n P B V sh ev :
  canon_ok P B V sh -> shard_ok sh -> shard_pos_inv V sh -> event_ok n ev -> ev_price ev <= P ->
  room P B (V + 2 * ev_trade_qty ev) -> 0 <= V ->
  process_event hm_iter sh ev ∅ = process_event map_to_list sh ev ∅
  /\ (forall sh' cmds, process_event hm_iter sh ev ∅ = Val (sh', cmds) -> canon_ok P B (V + 2 * ev_trade_qty ev) sh').
Proof.
  intros Hc Hok Hpos Hev Hpr Hroom HV0. assert (HP : 0 <= P) by apply Hroom.
  assert (Hstay : forall V', V <= V' -> canon_ok P B V' sh).
  { intros V' HVV. destruct Hc. split; try done. eapply mass_mono; [done|lia..]. }
  destruct ev as [seq ts symbol price qty mo tor mid tid ma ta ms mr tr| | | | | | | |];
    try (split; [done|]; intros ? ? [= <- <-]; apply Hstay; simpl; lia).
  simpl in *. destruct Hev as (Hq & Hp & Hma & Hta). destruct Hroom as (HPr & HB & HV & Hb).
  assert (Hroom1 : room P B (V + qty)) by (split_and!; [lia..|nia]).
  destruct (leg_canon P B V sh ma symbol ms price qty Hc Hpos Hroom1 HV0 Hq) as [He1 Hc1]; [lia|].
  destruct (leg_step hm_iter sh ∅ ma symbol ms price qty V) as (sh1 & c1 & Hrun1 & Hok1 & _ & Hpos1 & _ & _ & _); try done; try lia.
  rewrite <- He1, Hrun1. cbn [ebind].
  destruct (leg_canon P B (V + qty) sh1 ta symbol (opposite ms) price qty) as [He2 Hc2]; try done; try lia; [by eapply Hc1|split_and!; lia|].
  rewrite <- He2. split; [done|]. intros sh' cmds H. apply ebind_val_inv in H as ([sh2 c2] & Hrun2 & H). injection H as <- <-.
  replace (V + 2 * qty) with (V + qty + qty) by lia. by eapply Hc2.
Qed.

Lemma shards_event_canon n P B V shs t ev :
  risk_ok n V shs t -> Forall (canon_ok P B V) shs -> event_ok n ev -> ev_price ev <= P ->
  room P B (V + 2 * ev_trade_qty ev) -> 0 <= V ->
  shards_event hm_iter shs t ev ∅ = shards_event map_to_list shs t ev ∅
  /\ (forall shs' t' cmds, shards_event hm_iter shs t ev ∅ = Val (shs', t', cmds) -> Forall (canon_ok P B (V + 2 * ev_trade_qty ev)) shs').
Proof.
  intros [Hn Ht Hcap Hr Hp] Hcs Hev Hpr Hroom HV0. revert t Ht Hcap. induction Hcs as [|sh shs Hc Hcs IH]; intros t Ht Hcap.
  { split; [done|]. intros ? ? ? [= <- <- <-]. constructor. }
  apply Forall_cons in Hp as [Hp1 Hp]. apply Forall_cons in Hr as [Hr1 Hr]. cbn [shards_event].
  assert (Hok1 : shard_ok (sh_set_states t sh)) by by eapply shared_shard_ok.
  assert (HVq : V + 2 * ev_trade_qty ev < two63) by apply Hroom.
  destruct (event_canon n P B V (sh_set_states t sh) ev) as [He Hc']; try done; [by destruct Hc|].
  destruct (event_step hm_iter n (sh_set_states t sh) ∅ ev V) as (sh' & c1 & Hrun & (_ & _ & _ & Ht' & _) & _ & _ & Hcap' & _ & _); try done.
  rewrite <- He, Hrun. cbn [ebind].
  destruct (IH Hr Hp (rs_states sh') Ht') as [He2 Hc2]; [by rewrite Hcap'|].
  rewrite He2. split; [done|]. rewrite <- He2. intros ? ? ? H. apply ebind_val_inv in H as ([[shs2 t2] c2] & Hrun2 & H).
  injection H as <- <- <-. constructor; [by eapply Hc'|by eapply Hc2].
Qed.
End Canon.
