(* ===== verification/SimInit.v ===== *)
(** * SimInit: the shards of a new harness

    [build_shards] returns shards over disjoint ranges that together own each
    account once, with the deposits seeded and no positions. *)

From S2P Require Import Prelude CoreTypes SlotMap OrderBook BookSpec Seqlock Risk Sim SimRisk SimCanon.
#[local] Open Scope Z_scope.

(** What seeding leaves as it was, and that deposits stay within [B]. *)
Definition seeded (B : Z) (sh sh' : RiskShard) : Prop :=
  shard_ok sh' /\ owned_start sh' = owned_start sh /\ owned_end sh' = owned_end sh /\ positions sh' = positions sh
  /\ config sh' = config sh /\ table_capacity (rs_states sh') = table_capacity (rs_states sh)
  /\ Forall (fun d => Z.abs d <= B) (initial_deposits sh').

Lemma seed_deposit_ok a amount sh :
  shard_ok sh -> owns sh a = true -> Forall (fun d => Z.abs d <= Z.abs amount) (initial_deposits sh) ->
  exists sh', seed_deposit a amount sh = Val sh' /\ seeded (Z.abs amount) sh sh'.
Proof.
  intros Hok Ho Hd. destruct (owned_index sh a Hok Ho) as (Hi & Hc & H0). destruct Hok as (? & ? & Hl & Ht & ?).
  unfold seed_deposit, store_list. rewrite (proj2 (Nat.ltb_lt _ _) Hi). cbn [ebind].
  destruct (table_get (rs_states sh) a) as [st|] eqn:Eg.
  2:{ unfold table_get, table_capacity in *. apply lookup_ge_None in Eg. lia. }
  simpl. rewrite Eg. simpl. pose proof (table_get_ok _ _ _ Ht Eg) as Hq. rewrite read_ok by done. cbn [ebind].
  eexists. split; [done|]. unfold seeded, shard_ok. simpl. rewrite length_insert.
  assert (Hcap : forall s, table_capacity (table_put (rs_states sh) a s) = table_capacity (rs_states sh)).
  { intros. unfold table_capacity, table_put. simpl. apply length_insert. }
  rewrite !Hcap. split_and!; try done; try lia.
  - apply table_put_ok; [done|]. by apply quiescent_update.
  - apply Forall_insert; [done|lia].
Qed.

Lemma seed_all_ok ids amount sh :
  shard_ok sh -> Forall (fun a => owns sh a = true) ids -> Forall (fun d => Z.abs d <= Z.abs amount) (initial_deposits sh) ->
  exists sh', seed_all ids amount sh = Val sh' /\ seeded (Z.abs amount) sh sh'.
Proof.
  revert sh. induction ids as [|a ids IH]; intros sh Hok Hids Hd.
  { exists sh. split; [done|]. by split_and!. }
  apply Forall_cons in Hids as [Ha Hids].
  destruct (seed_deposit_ok a amount sh Hok Ha Hd) as (sh1 & Hrun & (Hok1 & Hs & He & Hp & Hc & Hcap & Hd1)).
  cbn [seed_all]. rewrite Hrun. cbn [ebind]. destruct (IH sh1 Hok1) as (sh2 & -> & (? & ? & ? & ? & ? & ? & ?)); [|done|].
  - eapply Forall_impl; [exact Hids|]. intros x. unfold owns. by rewrite Hs, He.
  - exists sh2. split; [done|]. split_and!; try done; congruence.
Qed.

(** A shard without positions. *)
Definition fresh_shard (P B : Z) (sh : RiskShard) : Prop :=
  positions sh = ∅ /\ canon_ok P B 0 sh.

Lemma fresh_net P B s sh : fresh_shard P B sh -> shard_net s sh = 0.
Proof.
  intros [Hp _]. unfold shard_net, pos_of. rewrite Hp.
  rewrite (sumZ_map_eq _ (fun _ => 0)) by (intros; by rewrite lookup_empty). induction (owned_ids sh); simpl; lia.
Qed.

Lemma fresh_total P B s shs : Forall (fresh_shard P B) shs -> total_net s shs = 0.
Proof.
  unfold total_net. induction 1 as [|sh shs Hsh _ IH]; simpl; [done|]. rewrite (fresh_net P B) by done. lia.
Qed.

Lemma fresh_canon P B cfg s e t d :
  config d = ShardConfig_new cfg -> 0 <= B ->
  positions d = positions (RiskShard_new s e (ShardConfig_new cfg) t) ->
  Forall (fun x => Z.abs x <= B) (initial_deposits d) -> fresh_shard P B d.
Proof.
  intros Hc HB Hp Hd. split; [done|]. split; [|rewrite Hc; simpl; lia|done].
  rewrite Hp. simpl. split; unfold msum; rewrite ?map_to_list_empty; simpl; try lia. intros k p. by rewrite lookup_empty.
Qed.

Lemma build_shards_ok P n i per balance t N :
  Z.of_nat N < two64 -> table_ok t -> table_capacity t = N -> 0 <= i -> 0 <= per -> (i + Z.of_nat n) * per <= Z.of_nat N ->
  exists shs t', build_shards n i per balance t = Val (shs, t')
    /\ risk_ok N 0 shs t' /\ Forall (fresh_shard P (Z.abs balance)) shs
    /\ (forall a, owners a shs = if (i * per <=? a) && (a <? (i + Z.of_nat n) * per) then 1 else 0).
Proof.
  intros HN. revert i t. induction n as [|n IH]; intros i t Ht Hcap Hi Hper Hle.
  { exists [], t. split_and!; try done. intros a. unfold owners. replace (i + Z.of_nat 0) with i by lia.
    destruct (Z.leb_spec (i * per) a), (Z.ltb_spec a (i * per)); simpl; lia. }
  cbn [build_shards]. set (sh0 := RiskShard_new (i * per) (i * per + per) (ShardConfig_new (Z.to_nat per)) t).
  assert (Hr : 0 <= i * per <= i * per + per /\ i * per + per <= Z.of_nat N) by nia.
  assert (Hok0 : shard_ok sh0) by (apply shard_new_ok; [lia|lia|done|rewrite Hcap; lia]).
  destruct (seed_all_ok (seqZ (i * per) per) balance sh0 Hok0) as (sh1 & Hrun & ((_ & _ & Hl & Ht1 & _) & Hs & He & Hp & Hc & Hcap1 & Hd)).
  { apply Forall_forall. intros a Ha. apply elem_of_seqZ in Ha. unfold owns. simpl. apply andb_true_iff. lia. }
  { simpl. apply Forall_replicate. lia. }
  rewrite Hrun. cbn [ebind].
  destruct (IH (i + 1) (rs_states sh1)) as (shs & t' & -> & [_ Ht2 Hcap2 Hr2 Hp2] & Hfresh & Hown); [done|by rewrite Hcap1|lia|lia|lia|].
  cbn [ebind]. exists (sh1 :: shs), t'.
  assert (Hf1 : fresh_shard P (Z.abs balance) sh1) by (eapply fresh_canon; [exact Hc|lia|exact Hp|exact Hd]).
  split_and!; try done.
  - split; try done; constructor; try done.
    + unfold shard_range_ok. rewrite Hl, Hs, He. simpl. lia.
    + intros a s. unfold pos_of. rewrite (proj1 Hf1), lookup_empty. by apply pos_inv_default.
  - by constructor.
  - intros a. unfold owners in *. cbn [map sumZ]. rewrite Hown. unfold owns. rewrite Hs, He. simpl.
    destruct (Z.leb_spec (i * per) a), (Z.ltb_spec a (i * per + per)), (Z.leb_spec ((i + 1) * per) a),
      (Z.ltb_spec a ((i + 1 + Z.of_nat n) * per)), (Z.ltb_spec a ((i + Z.of_nat (S n)) * per)); simpl; nia.
Qed.
