(* ===== verification/SimBooks.v ===== *)
(** * SimBooks: the matching engines of the simulation harness

    One command through the routing and through all books: the queues it is
    put on, the books it reaches, and that the engines of harness.rs step as
    the abstract books of BookSpec.v do.  Well-formed configurations and
    commands are defined here. *)

From S2P Require Import Prelude CoreTypes SlotMap OrderBook Seqlock Risk.
From S2P Require Import BookSpec BookMarket BookRep BookInv BookRefine BookTheorems Sim SimRisk.
#[local] Open Scope Z_scope.

Section Books.
Context {SM : SlotMapApi} {SML : SlotMapLaws SM}.

(** ** Well-formed configurations and commands *)

Record sim_cfg_ok (cfg : SimConfig) : Prop := {
  sc_shards : (n_risk_shards cfg <> 0)%nat;
  sc_divides : (n_accounts cfg mod n_risk_shards cfg = 0)%nat;
  sc_accounts : Z.of_nat (n_accounts cfg) < two64;
  sc_symbols : Z.of_nat (n_symbols cfg) <= 65536;
  sc_interval : 0 < sim_snapshot_interval cfg;
  sc_floor : 0 <= book_tick_floor cfg < two63;
  sc_ceiling : book_tick_floor cfg + Z.of_nat (book_num_ticks cfg) <= two63;
  sc_size : Z.of_nat (book_num_ticks cfg) < two63
}.

Definition cmd_qty (cmd : InboundCommand) : Z :=
  match cmd with Inbound_NewOrder _ _ _ _ _ qty _ _ => qty | _ => 0 end.

Definition sim_cmd_ok (cfg : SimConfig) (cmd : InboundCommand) : Prop :=
  match cmd with
  | Inbound_NewOrder account _ symbol _ price qty _ _ =>
      0 <= account < Z.of_nat (n_accounts cfg) /\ 0 <= symbol < Z.of_nat (n_symbols cfg) /\ in_i64 price /\ in_u64 qty
  | Inbound_Liquidate symbol _ => 0 <= symbol < Z.of_nat (n_symbols cfg)
  | Inbound_Cancel _ _ | Inbound_FreezeAccount _ => True
  end.

Lemma cmd_qty_nonneg cfg cmd : sim_cmd_ok cfg cmd -> 0 <= cmd_qty cmd.
Proof. destruct cmd; simpl; unfold in_u64; lia. Qed.

(** ** The abstract books *)

(** What holds of an abstract book of the harness after sequence number [last]. *)
Record abook_inv (cfg : SimConfig) (last : Z) (A : abook) : Prop := {
  ai_ok : abook_ok A;
  ai_seqs : Forall (fun o => a_seq o <= last) (ab_all A);
  ai_accounts : Forall (fun o => 0 <= a_account o < Z.of_nat (n_accounts cfg)) (ab_all A);
  ai_floor : ab_floor A = book_tick_floor cfg;
  ai_ticks : ab_ticks A = book_num_ticks cfg
}.

(** The highest price of the ladders. *)
Definition price_cap (cfg : SimConfig) : Z := book_tick_floor cfg + Z.of_nat (book_num_ticks cfg).

(** An event a book of the harness can emit. *)
Definition sim_event_ok (cfg : SimConfig) (ev : EngineEvent) : Prop :=
  event_ok (n_accounts cfg) ev
  /\ (is_trade ev = true -> 0 <= ev_symbol ev < Z.of_nat (n_symbols cfg) /\ ev_price ev <= price_cap cfg).

Lemma new_order_events cfg last A seq ts_ns account coid symbol side price qty ot tif A' evs :
  sim_cfg_ok cfg -> abook_inv cfg last A ->
  sim_cmd_ok cfg (Inbound_NewOrder account coid symbol side price qty ot tif) ->
  new_order_out A seq ts_ns account coid symbol side price qty ot tif A' evs ->
  Forall (sim_event_ok cfg) evs /\ 0 <= traded evs <= qty.
Proof.
  intros Hcfg [HA _ Hacc Hfl Htk] (Hac & Hsym & _ & Hq) Hout. unfold in_u64 in Hq.
  assert (Htr : forall e, e ∈ evs -> is_trade e = true -> sim_event_ok cfg e).
  { intros e He Ht. destruct e as [? ? ? ? ? ? ? mid| | | | | | | |]; try done.
    destruct (out_trade _ _ _ _ _ _ _ _ _ _ _ _ _ _ mid Hout He eq_refl) as (r & q & ev & tl & Hrun & Hin & _).
    destruct (run_evs_ok _ _ _ _ _ _ _ _ _ _ _ _ _ HA (proj1 Hq) Hrun Hin) as (m & Hm & _ & [(f & mr & tr & Heq & _ & Hf & _)|[? _]]); [|done].
    assert (Hok := ok_orders A HA (opposite side)). rewrite Forall_forall in Hok. destruct (Hok m Hm) as (_ & _ & Hp & _).
    rewrite Hfl, Htk in Hp. pose proof (sc_floor cfg Hcfg). pose proof (sc_ceiling cfg Hcfg).
    assert (Hma : 0 <= a_account m < Z.of_nat (n_accounts cfg)).
    { apply (Forall_side _ A (opposite side)) in Hacc. rewrite Forall_forall in Hacc. by apply Hacc. }
    unfold spec_trade in Heq. injection Heq; intros; subst. unfold sim_event_ok, price_cap. simpl. split_and!; try done; lia. }
  pose proof (new_order_split _ _ _ _ _ _ _ _ _ _ _ _ _ Hout HA (proj1 Hq)) as [Hs _].
  assert (Hall : Forall (sim_event_ok cfg) evs).
  { apply Forall_forall. intros e He. destruct (is_trade e) eqn:E; [by apply Htr|]. by destruct e. }
  split_and!; [done| |].
  - apply sumZ_nonneg, Forall_map. eapply Forall_impl; [exact Hall|]. intros e [He _]. destruct e; simpl in *; lia.
  - assert (0 <= rested evs); [|lia]. destruct Hout as [reason _|r ev _ Hrun|r q ev last' _ Hrun _ _ _ ->|r q ev _ Hrun _ _ _ _
      |r q ev A2 _ Hrun _ _ _ _ ->]; try (unfold rested; simpl; lia);
      pose proof (run_rested _ _ _ _ _ _ _ _ _ _ _ _ _ Hrun) as Hr;
      pose proof (run_range _ _ _ _ _ _ _ _ _ _ _ _ _ Hrun (proj1 Hq) (qty_pos_of_ok' A _ HA));
      rewrite ?rested_app, Hr; unfold rested; simpl; try lia; case_match; simpl; lia.
Qed.

Lemma sim_cmd_book cfg sc : sim_cmd_ok cfg (sc_cmd sc) -> cmd_ok sc.
Proof. unfold cmd_ok. destruct (sc_cmd sc); simpl; naive_solver. Qed.

(** One command on an abstract book. *)
Lemma abook_step cfg last sc A :
  sim_cfg_ok cfg -> abook_inv cfg last A -> last < sc_seq sc -> sim_cmd_ok cfg (sc_cmd sc) ->
  abook_inv cfg (sc_seq sc) (spec_apply A sc).1 /\ Forall (sim_event_ok cfg) (spec_apply A sc).2
  /\ 0 <= traded (spec_apply A sc).2 <= cmd_qty (sc_cmd sc).
Proof.
  intros Hcfg HAI Hlt Hcmd. assert (HAI' := HAI). destruct HAI' as [HA Hs Hacc Hfl Htk].
  pose proof (sim_cmd_book cfg sc Hcmd) as Hck.
  destruct (spec_apply_frame A sc) as [Hf1 Hf2]. split; [split; try congruence|].
  - apply spec_apply_ok; [done|by eapply seqs_fresh|done].
  - by eapply spec_apply_seqs.
  - apply spec_apply_orders; [done| |done|].
    + intros x y (_ & _ & _ & _ & ->)%strip_fields. done.
    + intros ? ? ? ? ? ? ? ? q Ec. rewrite Ec in Hcmd. simpl in Hcmd |- *. tauto.
  - unfold spec_apply. destruct (sc_cmd sc) as [account coid symbol side price qty ot tif|account oid| |] eqn:Ec; simpl in Hcmd |- *;
      try (split_and!; [constructor|unfold traded; simpl; lia..]).
    + eapply (new_order_events cfg last A); try done. apply spec_new_order_out, surjective_pairing.
    + unfold spec_cancel. repeat case_match; simpl; split_and!; repeat constructor; try done; unfold traded; simpl; lia.
Qed.

Lemma engine_step_ok cfg last sc e A :
  rep (se_book e) A -> abook_inv cfg last A -> last < sc_seq sc -> sim_cmd_ok cfg (sc_cmd sc) ->
  exists e', engine_step sc e = Val ((spec_apply A sc).2, e') /\ rep (se_book e') (spec_apply A sc).1.
Proof.
  intros HR [HA Hs _ _ _] Hlt Hcmd.
  destruct (apply_ok (se_book e) A sc HR HA) as (b' & Hap & HR'); [by eapply seqs_fresh|by eapply sim_cmd_book|].
  exists (mkSimEngine b' (se_symbol e)). unfold engine_step. by rewrite Hap.
Qed.

Lemma abook_inv_mono cfg last last' A : abook_inv cfg last A -> last <= last' -> abook_inv cfg last' A.
Proof.
  intros [? Hs ? ? ?] Hle. split; try done. eapply Forall_impl; [exact Hs|]. simpl. lia.
Qed.

(** ** Routing *)

(** The engines a command is routed to. *)
Definition routes_to (i : nat) (sc : SequencedCommand) : bool :=
  match sc_cmd sc with
  | Inbound_NewOrder _ _ symbol _ _ _ _ _ | Inbound_Liquidate symbol _ => (Z.to_nat symbol =? i)%nat
  | Inbound_Cancel _ _ | Inbound_FreezeAccount _ => true
  end.

Definition queues_for (sc : SequencedCommand) (k n : nat) : list (list SequencedCommand) :=
  map (fun i => if routes_to i sc then [sc] else []) (List.seq k n).

Lemma queues_for_one sc n (symbol : nat) :
  (symbol < n)%nat -> (forall i, routes_to i sc = (symbol =? i)%nat) ->
  <[symbol := [sc]]> (replicate n []) = queues_for sc 0 n.
Proof.
  intros Hs Hr. apply list_eq. intros i. unfold queues_for. rewrite list_lookup_fmap.
  destruct (decide (i < n)%nat) as [Hi|Hi].
  - rewrite lookup_seq_lt by done. simpl. rewrite Hr. destruct (Nat.eqb_spec symbol i) as [-> |Hne].
    + rewrite list_lookup_insert_eq; [done|]. by rewrite length_replicate.
    + by rewrite list_lookup_insert_ne, lookup_replicate_2.
  - rewrite lookup_seq_ge by lia. simpl. apply lookup_ge_None. rewrite length_insert, length_replicate. lia.
Qed.

Lemma route_empty cfg sc :
  sim_cmd_ok cfg (sc_cmd sc) ->
  route_command sc (replicate (n_symbols cfg) []) = Val (queues_for sc 0 (n_symbols cfg)).
Proof.
  intros Hcmd. unfold route_command. set (n := n_symbols cfg).
  assert (Hone : forall symbol, 0 <= symbol < Z.of_nat n -> (forall i, routes_to i sc = (Z.to_nat symbol =? i)%nat) ->
    (let! q := index_list (replicate n []) (Z.to_nat symbol) in Val (<[Z.to_nat symbol := q ++ [sc]]> (replicate n [])))
    = Val (queues_for sc 0 n)).
  { intros symbol Hs Hr. rewrite (index_list_lt _ _ []) by (apply lookup_replicate_2; lia). cbn [ebind app].
    f_equal. apply queues_for_one; [lia|done]. }
  assert (Hall : (forall i, routes_to i sc = true) -> map (fun q => q ++ [sc]) (replicate n []) = queues_for sc 0 n).
  { intros Hr. apply list_eq. intros i. unfold queues_for. rewrite !list_lookup_fmap.
    destruct (decide (i < n)%nat).
    - rewrite lookup_seq_lt, lookup_replicate_2 by done. simpl. by rewrite Hr.
    - rewrite lookup_seq_ge by lia. rewrite (lookup_ge_None_2 (replicate n [])) by (rewrite length_replicate; lia). done. }
  unfold routes_to in Hone, Hall.
  destruct (sc_cmd sc); simpl in Hcmd; try (apply Hone; [lia|done]); by rewrite Hall.
Qed.

(** A command with a quantity goes to one engine. *)
Definition routed_count (sc : SequencedCommand) (k n : nat) : Z :=
  sumZ (map (fun i => if routes_to i sc then 1 else 0) (List.seq k n)).

Lemma routed_count_le cfg sc k n :
  sim_cmd_ok cfg (sc_cmd sc) -> cmd_qty (sc_cmd sc) * routed_count sc k n <= cmd_qty (sc_cmd sc).
Proof.
  intros Hcmd. pose proof (cmd_qty_nonneg cfg _ Hcmd).
  destruct (sc_cmd sc) as [a c symbol sd p q ot tif| | |] eqn:Ec; simpl; try lia. simpl in *.
  assert (routed_count sc k n <= 1); [|nia].
  unfold routed_count, routes_to. rewrite Ec. clear. revert k. induction n as [|n IH]; intros k; simpl; [lia|].
  destruct (Nat.eqb_spec (Z.to_nat symbol) k) as [-> |]; [|apply IH].
  assert (H0 : forall m j, (k < j)%nat -> sumZ (map (fun i => if (k =? i)%nat then 1 else 0) (List.seq j m)) = 0).
  { induction m as [|m IHm]; intros j Hj; simpl; [done|]. rewrite (proj2 (Nat.eqb_neq k j)) by lia. rewrite IHm; lia. }
  rewrite H0; lia.
Qed.

(** ** All engines *)

(** A command on the abstract books [k], [k + 1], ...: the books it is routed
    to step, the events come in the order of the books. *)
Fixpoint spec_books (k : nat) (sc : SequencedCommand) (As : list abook) : list abook * list EngineEvent :=
  match As with
  | [] => ([], [])
  | A :: As =>
      let rest := spec_books (S k) sc As in
      if routes_to k sc then ((spec_apply A sc).1 :: rest.1, (spec_apply A sc).2 ++ rest.2) else (A :: rest.1, rest.2)
  end.

Lemma spec_books_length k sc As : length (spec_books k sc As).1 = length As.
Proof. revert k. induction As as [|A As IH]; intros k; simpl; [done|]. destruct (routes_to k sc); simpl; by rewrite IH. Qed.

Definition books_rep (es : list SimEngine) (As : list abook) : Prop := Forall2 (fun e A => rep (se_book e) A) es As.

Lemma spec_books_ok cfg last sc As k :
  sim_cfg_ok cfg -> Forall (abook_inv cfg last) As -> last < sc_seq sc -> sim_cmd_ok cfg (sc_cmd sc) ->
  Forall (abook_inv cfg (sc_seq sc)) (spec_books k sc As).1 /\ Forall (sim_event_ok cfg) (spec_books k sc As).2
  /\ 0 <= traded (spec_books k sc As).2 <= cmd_qty (sc_cmd sc) * routed_count sc k (length As).
Proof.
  intros Hcfg HAs Hlt Hcmd. revert k. induction HAs as [|A As HA HAs IH]; intros k.
  { unfold traded, routed_count. simpl. split_and!; try constructor; lia. }
  destruct (IH (S k)) as (Hb & He & Ht). unfold routed_count in *. cbn [spec_books length List.seq map sumZ].
  destruct (routes_to k sc).
  - destruct (abook_step cfg last sc A Hcfg HA Hlt Hcmd) as (HA' & He' & Ht'). simpl.
    split_and!; try (by constructor); try (by apply Forall_app); rewrite traded_app; lia.
  - simpl. split_and!; try done; try lia. constructor; [|done]. eapply abook_inv_mono; [done|lia].
Qed.

Lemma engines_loop_ok cfg last sc es As k :
  books_rep es As -> Forall (abook_inv cfg last) As -> last < sc_seq sc -> sim_cmd_ok cfg (sc_cmd sc) ->
  exists es', engines_loop es (queues_for sc k (length es)) = Val (es', replicate (length es) [], (spec_books k sc As).2)
    /\ books_rep es' (spec_books k sc As).1.
Proof.
  intros HR HAs Hlt Hcmd. revert k HAs. induction HR as [|e A es As He HR IH]; intros k HAs.
  { exists []. split; [done|constructor]. }
  apply Forall_cons in HAs as [HA HAs]. destruct (IH (S k) HAs) as (es' & Hrun & HR').
  cbn [length queues_for List.seq map engines_loop spec_books]. fold (queues_for sc (S k) (length es)).
  destruct (routes_to k sc).
  - destruct (engine_step_ok cfg last sc e A He HA Hlt Hcmd) as (e' & -> & He'). cbn [ebind]. rewrite Hrun. cbn [ebind].
    exists (e' :: es'). split; [done|]. by constructor.
  - cbn [ebind]. rewrite Hrun. cbn [ebind]. exists (e :: es'). split; [done|]. by constructor.
Qed.

(** Without commands the engines idle. *)
Lemma engines_loop_idle es : engines_loop es (replicate (length es) []) = Val (es, replicate (length es) [], []).
Proof. induction es as [|e es IH]; simpl; [done|]. by rewrite IH. Qed.
End Books.
