(* ===== verification/SimSpec.v ===== *)
(** * SimSpec: the abstract simulation and one tick of the harness

    The harness without queues, timestamps and hash maps: a core of abstract
    books, shards and the account table that steps by one numbered command.
    A tick of harness.rs is one step of the core on the head of the inbound
    queue, with the liquidations it emits put back in front. *)

From S2P Require Import Prelude CoreTypes SlotMap OrderBook Seqlock Risk.
From S2P Require Import BookSpec BookMarket BookRep BookInv BookRefine BookTheorems Sim SimRisk SimCanon SimInit SimBooks.
#[local] Open Scope Z_scope.

(** ** Events without their timestamps *)

Definition untimed (ev : EngineEvent) : EngineEvent :=
  match ev with
  | Trade seq _ symbol price qty mo tor mid tid ma ta ms mr tr => Trade seq 0 symbol price qty mo tor mid tid ma ta ms mr tr
  | Accepted seq oid _ symbol acct coid side price qty => Accepted seq oid 0 symbol acct coid side price qty
  | ev => ev
  end.

(** The command without its term and timestamp. *)
Definition bare (seq : Z) (cmd : InboundCommand) : SequencedCommand := mkSC 0 seq 0 cmd.

Lemma spec_match_untimed seq ts symbol side price oid acct ot makers q :
  let m ts := spec_match seq ts symbol side price oid acct ot makers q in
  (m ts).1 = (m 0).1 /\ map untimed (m ts).2 = map untimed (m 0).2.
Proof.
  simpl. revert q. induction makers as [|x makers IH]; intros q; simpl; [done|].
  destruct (q =? 0); [done|]. destruct (negb _); [done|]. destruct (_ =? acct).
  - specialize (IH q). destruct (spec_match seq ts _ _ _ _ _ _ _ _) as [[? ?] ?], (spec_match seq 0 _ _ _ _ _ _ _ _) as [[? ?] ?].
    simpl in *. destruct IH as [[= -> ->] ->]. done.
  - destruct (q <? a_qty x); [done|]. specialize (IH (q - a_qty x)).
    destruct (spec_match seq ts _ _ _ _ _ _ _ _) as [[? ?] ?], (spec_match seq 0 _ _ _ _ _ _ _ _) as [[? ?] ?].
    simpl in *. destruct IH as [[= -> ->] ->]. done.
Qed.

Lemma spec_apply_untimed A sc :
  (spec_apply A sc).1 = (spec_apply A (bare (sc_seq sc) (sc_cmd sc))).1
  /\ map untimed (spec_apply A sc).2 = map untimed (spec_apply A (bare (sc_seq sc) (sc_cmd sc))).2.
Proof.
  destruct sc as [term seq ts cmd]. unfold spec_apply. simpl. destruct cmd; simpl; try done.
  unfold spec_new_order. repeat (case_match; [done|]).
  destruct (spec_match_untimed seq ts symbol side price seq account order_type (ab_orders A (opposite side)) qty) as [Hm He].
  destruct (spec_match seq ts _ _ _ _ _ _ _ _) as [[r q] ev], (spec_match seq 0 _ _ _ _ _ _ _ _) as [[r0 q0] ev0].
  simpl in Hm, He. injection Hm as -> ->. repeat case_match; simpl; rewrite !map_app, He; done.
Qed.

Lemma spec_books_untimed k sc As :
  (spec_books k sc As).1 = (spec_books k (bare (sc_seq sc) (sc_cmd sc)) As).1
  /\ map untimed (spec_books k sc As).2 = map untimed (spec_books k (bare (sc_seq sc) (sc_cmd sc)) As).2.
Proof.
  revert k. induction As as [|A As IH]; intros k; simpl; [done|]. destruct (IH (S k)) as [IH1 IH2].
  change (routes_to k (bare (sc_seq sc) (sc_cmd sc))) with (routes_to k sc).
  destruct (spec_apply_untimed A sc) as [H1 H2]. destruct (routes_to k sc); simpl.
  - by rewrite H1, IH1, !map_app, H2, IH2.
  - by rewrite IH1, IH2.
Qed.

(** ** Events through the shards *)

Section RiskFold.
Context {SM : SlotMapApi}.
Context (hm_iter : gmap (Z * Z) Position -> list ((Z * Z) * Position)).

Fixpoint risk_fold (marks : gmap Z Z) (events : list EngineEvent) (shs : list RiskShard) (t : AccountRiskTable) :
    Exec (list RiskShard * AccountRiskTable * list InboundCommand) :=
  match events with
  | [] => Val (shs, t, [])
  | ev :: events =>
      let! '(shs, t, cmds) := shards_event hm_iter shs t ev marks in
      let! '(shs, t, more) := risk_fold marks events shs t in
      Val (shs, t, cmds ++ more)
  end.

Lemma shards_event_untimed shs t ev marks :
  shards_event hm_iter shs t (untimed ev) marks = shards_event hm_iter shs t ev marks.
Proof.
  revert t. induction shs as [|sh shs IH]; intros t; simpl; [done|].
  assert (process_event hm_iter (sh_set_states t sh) (untimed ev) marks = process_event hm_iter (sh_set_states t sh) ev marks) as ->
    by by destruct ev.
  destruct (process_event _ _ _ _) as [[sh' cmds]| |]; try done. simpl. by rewrite IH.
Qed.

Lemma risk_fold_untimed marks events shs t :
  risk_fold marks (map untimed events) shs t = risk_fold marks events shs t.
Proof.
  revert shs t. induction events as [|ev events IH]; intros shs t; simpl; [done|]. rewrite shards_event_untimed.
  destruct (shards_event _ _ _ _ _) as [[[shs' t'] cmds]| |]; try done. simpl. by rewrite IH.
Qed.

(** The harness's loop is this fold, the commands pushed to the front one by
    one. *)
Lemma reinject_frame cmds h r :
  exists r', reinject cmds (h, r) = (h_set_inbound (rev cmds ++ inbound h) h, r').
Proof.
  unfold reinject. revert h r. induction cmds as [|c cmds IH]; intros h r; simpl; [exists r; by destruct h|].
  destruct (IH (h_set_inbound (c :: inbound h) h) (sr_count_liquidation r)) as [r' ->].
  exists r'. rewrite <- app_assoc. done.
Qed.

Lemma risk_loop_fold events h r shs t cmds :
  risk_fold (mark_prices h) events (shards h) (account_states h) = Val (shs, t, cmds) ->
  exists r', risk_loop hm_iter events (h, r) = Val (h_set_inbound (rev cmds ++ inbound h) (h_set_risk shs t h), r').
Proof.
  revert h r shs t cmds. induction events as [|ev events IH]; intros h r shs t cmds H; simpl in H |- *.
  { injection H as <- <- <-. exists r. by destruct h. }
  apply ebind_val_inv in H as ([[shs1 t1] c1] & Hev & H). apply ebind_val_inv in H as ([[shs2 t2] c2] & Hrest & H).
  injection H as <- <- <-. rewrite Hev. cbn [ebind].
  destruct (reinject_frame c1 (h_set_risk shs1 t1 h) (sr_push_event ev r)) as [r1 ->].
  destruct (IH (h_set_inbound (rev c1 ++ inbound h) (h_set_risk shs1 t1 h)) r1 shs2 t2 c2 Hrest) as [r2 Hr2].
  exists r2. etransitivity; [exact Hr2|]. simpl. by rewrite rev_app_distr, <- app_assoc.
Qed.

Definition is_liquidate (cmd : InboundCommand) : bool := match cmd with Inbound_Liquidate _ _ => true | _ => false end.

Lemma risk_fold_ok cfg marks events V shs t :
  risk_ok (n_accounts cfg) V shs t -> Forall (sim_event_ok cfg) events -> V + 2 * traded events < two63 -> 0 <= V ->
  (forall a, 0 <= a < Z.of_nat (n_accounts cfg) -> owners a shs = 1) ->
  exists shs' t' cmds, risk_fold marks events shs t = Val (shs', t', cmds)
    /\ risk_ok (n_accounts cfg) (V + 2 * traded events) shs' t' /\ map shard_static shs' = map shard_static shs
    /\ (forall s, total_net s shs' = total_net s shs)
    /\ Forall (fun c => sim_cmd_ok cfg c /\ is_liquidate c = true) cmds.
Proof.
  intros Hrisk Hev. revert V shs t Hrisk. induction Hev as [|ev events [He Hsym] Hev IH]; intros V shs t Hrisk HV HV0 Hown.
  { exists shs, t, []. unfold traded. simpl. rewrite Z.add_0_r. split_and!; done. }
  change (ev :: events) with ([ev] ++ events) in HV |- *. rewrite traded_app in *. unfold traded at 1 in HV. unfold traded at 1. simpl in HV |- *.
  assert (Hq : 0 <= ev_trade_qty ev) by (destruct ev; simpl in He |- *; lia).
  assert (Ht : 0 <= traded events).
  { apply sumZ_nonneg, Forall_map. eapply Forall_impl; [exact Hev|]. intros e [Ho _]. destruct e; simpl in *; lia. }
  destruct (shards_event_ok hm_iter (n_accounts cfg) marks ev V shs t) as (shs1 & t1 & c1 & -> & Hr1 & Hst1 & Hn1 & Hc1); try done; [lia|].
  cbn [ebind]. assert (Hown1 : forall a, 0 <= a < Z.of_nat (n_accounts cfg) -> owners a shs1 = 1).
  { intros a Ha. rewrite (owners_static a shs shs1) by done. by apply Hown. }
  destruct (IH (V + 2 * ev_trade_qty ev) shs1 t1) as (shs2 & t2 & c2 & -> & Hr2 & Hst2 & Hn2 & Hc2); try done; [lia|lia|].
  cbn [ebind]. exists shs2, t2, (c1 ++ c2). split_and!; try done; try congruence.
  - by replace (V + 2 * (ev_trade_qty ev + 0 + traded events)) with (V + 2 * ev_trade_qty ev + 2 * traded events) by lia.
  - intros s. rewrite Hn2, Hn1, (event_zero_sum (n_accounts cfg)) by done. lia.
  - apply Forall_app. split; [|done]. eapply Forall_impl; [exact Hc1|]. intros c (Htr & a & -> & _). simpl. destruct (Hsym Htr). done.
Qed.
End RiskFold.

(** The shards with the hash maps in one fixed order. *)
Lemma risk_fold_canon hm_iter cfg P B events V shs t :
  (forall m, hm_iter m ≡ₚ map_to_list m) ->
  risk_ok (n_accounts cfg) V shs t -> Forall (canon_ok P B V) shs -> Forall (sim_event_ok cfg) events ->
  P = price_cap cfg -> room P B (V + 2 * traded events) -> 0 <= V ->
  risk_fold hm_iter ∅ events shs t = risk_fold map_to_list ∅ events shs t
  /\ (forall shs' t' cmds, risk_fold hm_iter ∅ events shs t = Val (shs', t', cmds) -> Forall (canon_ok P B (V + 2 * traded events)) shs').
Proof.
  intros Hperm Hrisk Hcn Hev -> Hroom HV0. revert V shs t Hrisk Hcn Hroom HV0.
  induction Hev as [|ev events [He Hsym] Hev IH]; intros V shs t Hrisk Hcn Hroom HV0.
  { split; [done|]. intros ? ? ? [= <- <- <-]. unfold traded. simpl. by rewrite Z.add_0_r. }
  change (ev :: events) with ([ev] ++ events) in Hroom |- *. rewrite traded_app in *. unfold traded at 1 in Hroom. unfold traded at 1. simpl in Hroom |- *.
  assert (Hq : 0 <= ev_trade_qty ev) by (destruct ev; simpl in He |- *; lia).
  assert (Ht : 0 <= traded events).
  { apply sumZ_nonneg, Forall_map. eapply Forall_impl; [exact Hev|]. intros e [Ho _]. destruct e; simpl in *; lia. }
  destruct Hroom as (HP & HB & HV & Hb).
  assert (Hpr : ev_price ev <= price_cap cfg) by (destruct ev; simpl in *; try lia; by apply Hsym).
  assert (Hroom1 : room (price_cap cfg) B (V + 2 * ev_trade_qty ev)) by (split_and!; try lia; nia).
  destruct (shards_event_canon hm_iter Hperm (n_accounts cfg) (price_cap cfg) B V shs t ev) as [He1 Hc1]; try done.
  destruct (shards_event_ok hm_iter (n_accounts cfg) ∅ ev V shs t) as (shs1 & t1 & c1 & Hrun & Hr1 & _); try done; [lia|].
  rewrite <- He1, Hrun. cbn [ebind].
  replace (V + 2 * (ev_trade_qty ev + 0 + traded events)) with (V + 2 * ev_trade_qty ev + 2 * traded events) in * by lia.
  destruct (IH (V + 2 * ev_trade_qty ev) shs1 t1) as [He2 Hc2]; try done; [by eapply Hc1|lia|].
  rewrite He2. split; [done|]. rewrite <- He2. intros ? ? ? H. apply ebind_val_inv in H as ([[shs2 t2] c2] & Hrun2 & H).
  injection H as <- <- <-. by eapply Hc2.
Qed.

(** ** The core *)

Record Core := mkCore {
  c_books : list abook;
  c_shards : list RiskShard;
  c_states : AccountRiskTable;
  c_emitted : list InboundCommand
}.

Definition marker (cfg : SimConfig) (seq : Z) : list EngineEvent :=
  if seq mod sim_snapshot_interval cfg =? 0 then [SnapshotMarker seq] else [].

Definition core_step (cfg : SimConfig) (seq : Z) (cmd : InboundCommand) (C : Core) : Exec Core :=
  let books := spec_books 0 (bare seq cmd) (c_books C) in
  let! '(shs, t, cmds) := risk_fold map_to_list ∅ (marker cfg seq ++ books.2) (c_shards C) (c_states C) in
  Val (mkCore books.1 shs t (c_emitted C ++ cmds)).

Fixpoint core_run (cfg : SimConfig) (seq : Z) (cmds : list InboundCommand) (C : Core) : Exec Core :=
  match cmds with
  | [] => Val C
  | cmd :: cmds => let! C := core_step cfg seq cmd C in core_run cfg (seq + 1) cmds C
  end.

Lemma core_run_app cfg seq cmds1 cmds2 C :
  core_run cfg seq (cmds1 ++ cmds2) C
  = let! C := core_run cfg seq cmds1 C in core_run cfg (seq + Z.of_nat (length cmds1)) cmds2 C.
Proof.
  revert seq C. induction cmds1 as [|c cmds1 IH]; intros seq C; cbn [app core_run length ebind]; [by rewrite Z.add_0_r|].
  destruct (core_step cfg seq c C); cbn [ebind]; try done. rewrite IH.
  by replace (seq + 1 + Z.of_nat (length cmds1)) with (seq + Z.of_nat (S (length cmds1))) by lia.
Qed.

(** Emitted commands only accumulate. *)
Lemma core_run_emitted cfg seq cmds C C' : core_run cfg seq cmds C = Val C' -> exists l, c_emitted C' = c_emitted C ++ l.
Proof.
  revert seq C. induction cmds as [|c cmds IH]; intros seq C; cbn [core_run].
  - intros [= <-]. exists []. by rewrite app_nil_r.
  - intros H. apply ebind_val_inv in H as (C1 & Hs & H). apply IH in H as [l Hl].
    unfold core_step in Hs. apply ebind_val_inv in Hs as ([[shs t] cs] & _ & [= <-]). simpl in Hl.
    exists (cs ++ l). by rewrite app_assoc.
Qed.
