(* ===== verification/SimRun.v ===== *)
(** * SimRun: the invariant of the simulation harness

    What holds of a harness after any sequence of calls, kept by every tick and
    every call: the log is numbered without gaps, the queues are drained, each
    book is what the logged commands make of an empty book, the shards own each
    account once and the positions sum to zero; and, while no mark price is
    set, the state is that of the abstract core of SimSpec.v. *)

From S2P Require Import Prelude CoreTypes SlotMap OrderBook Seqlock Risk.
From S2P Require Import BookSpec BookMarket BookRep BookInv BookRefine BookTheorems Sim SimRisk SimCanon SimInit SimBooks SimSpec.
#[local] Open Scope Z_scope.

Section SimRun.
Context {SM : SlotMapApi} {SML : SlotMapLaws SM}.
Context (hm_iter : gmap (Z * Z) Position -> list ((Z * Z) * Position)).
Hypothesis hm_iter_perm : forall m, hm_iter m ≡ₚ map_to_list m.

(** ** The invariant *)

Definition logged (h : SimHarness) : list InboundCommand := map sc_cmd (sh_wal h).
Definition total_qty (cmds : list InboundCommand) : Z := sumZ (map cmd_qty cmds).

Definition new_books (cfg : SimConfig) : list abook :=
  map (fun i => new_abook (sim_book_config (Z.of_nat i mod 65536) (book_tick_floor cfg) (book_num_ticks cfg)))
    (List.seq 0 (n_symbols cfg)).

(** What the logged commands make of the abstract books. *)
Definition log_books (log : list SequencedCommand) (As : list abook) : list abook :=
  foldl (fun As sc => (spec_books 0 sc As).1) As log.

(** The shards of a new harness and their table. *)
Definition new_shards (cfg : SimConfig) : Exec (list RiskShard * AccountRiskTable) :=
  build_shards (n_risk_shards cfg) 0 (Z.of_nat (n_accounts cfg / n_risk_shards cfg)%nat) (initial_balance cfg)
    (Table_new (n_accounts cfg)).
Definition core_new (cfg : SimConfig) : Exec Core :=
  let! '(shs, t) := new_shards cfg in Val (mkCore (new_books cfg) shs t []).

(** The core a harness without mark prices is in. *)
Definition core_at (cfg : SimConfig) (h : SimHarness) (As : list abook) (emitted : list InboundCommand) : Prop :=
  (let! C := core_new cfg in core_run cfg 1 (logged h) C) = Val (mkCore As (shards h) (account_states h) emitted).

(** No sum of a run with total order quantity [Q] saturates. *)
Definition sim_room (cfg : SimConfig) (Q : Z) : Prop := room (price_cap cfg) (Z.abs (initial_balance cfg)) (2 * Q).

Record sim_inv (cfg : SimConfig) (Q T : Z) (As : list abook) (V : Z) (h : SimHarness) : Prop := {
  si_config : sh_config h = cfg;
  si_queues : me_queues h = replicate (n_symbols cfg) [];
  si_events : event_queue h = [];
  si_seq : next_seq h = Z.of_nat (length (sh_wal h));
  si_ticks : next_seq h <= T;
  si_numbers i sc : sh_wal h !! i = Some sc -> sc_seq sc = Z.of_nat i + 1;
  si_length : length (engines h) = n_symbols cfg;
  si_cmds : Forall (sim_cmd_ok cfg) (logged h ++ inbound h);
  si_volume : total_qty (logged h ++ inbound h) <= Q;
  si_rep : books_rep (engines h) As;
  si_books : Forall (abook_inv cfg (next_seq h)) As;
  si_log : As = log_books (sh_wal h) (new_books cfg);
  si_traded : 0 <= V <= 2 * total_qty (logged h);
  si_risk : risk_ok (n_accounts cfg) V (shards h) (account_states h);
  si_owners a : 0 <= a < Z.of_nat (n_accounts cfg) -> owners a (shards h) = 1;
  si_net s : total_net s (shards h) = 0;
  si_core : mark_prices h = ∅ -> sim_room cfg Q ->
    Forall (canon_ok (price_cap cfg) (Z.abs (initial_balance cfg)) V) (shards h)
    /\ exists emitted, core_at cfg h As emitted
       /\ (emitted = [] \/ exists c, c ∈ logged h ++ inbound h /\ is_liquidate c = true)
}.

Lemma total_qty_app l1 l2 : total_qty (l1 ++ l2) = total_qty l1 + total_qty l2.
Proof. unfold total_qty. by rewrite map_app, sumZ_app. Qed.

Lemma total_qty_nonneg cfg l : Forall (sim_cmd_ok cfg) l -> 0 <= total_qty l.
Proof. intros H. apply sumZ_nonneg, Forall_map. eapply Forall_impl; [exact H|]. intros. by eapply cmd_qty_nonneg. Qed.

Lemma total_qty_liquidations l : Forall (fun c => is_liquidate c = true) l -> total_qty l = 0.
Proof. unfold total_qty. induction 1 as [|c l Hc _ IH]; simpl; [done|]. rewrite IH. by destruct c. Qed.

(** ** One tick *)

(** An idle tick moves the clock only. *)
Lemma tick_idle cfg Q T As V h r :
  sim_inv cfg Q T As V h -> inbound h = [] -> exists r', run_tick hm_iter (h, r) = Val (h_set_clock (clock_tick (sh_clock h)) h, r').
Proof.
  intros Hinv Hin. pose proof (si_queues _ _ _ _ _ _ Hinv) as Hq. pose proof (si_length _ _ _ _ _ _ Hinv) as Hl.
  pose proof (si_events _ _ _ _ _ _ Hinv) as He. clear Hinv. destruct h. simpl in *. subst.
  unfold run_tick, sequence_step, engines_step. cbn -[engines_loop]. rewrite <- Hl, engines_loop_idle. cbn. by eexists.
Qed.

(** The command sequenced by a tick. *)
Definition next_command (h : SimHarness) (cmd : InboundCommand) : SequencedCommand :=
  mkSC (current_term h) (next_seq h + 1) (clock_now_ns (clock_tick (sh_clock h))) cmd.

(** The harness after a tick that sequenced [sc]. *)
Definition ticked (h : SimHarness) (sc : SequencedCommand) (es : list SimEngine) (shs : list RiskShard) (t : AccountRiskTable)
    (queue : list InboundCommand) : SimHarness :=
  mkHarness (sh_config h) (clock_tick (sh_clock h)) (sc_seq sc) queue (me_queues h) (current_term h) (sh_wal h ++ [sc]) es []
    shs (mark_prices h) t.

Lemma sequence_step_ok cfg Q T As V h r cmd rest :
  sim_cfg_ok cfg -> sim_inv cfg Q T As V h -> T + 1 < two64 -> inbound h = cmd :: rest ->
  let sc := next_command h cmd in
  exists r', sequence_step (h_set_clock (clock_tick (sh_clock h)) h, r)
    = Val (h_set_events (marker cfg (sc_seq sc)) (h_set_queues (queues_for sc 0 (n_symbols cfg))
             (h_sequenced sc rest (h_set_clock (clock_tick (sh_clock h)) h))), r').
Proof.
  intros Hcfg Hinv HT Hin sc. unfold sequence_step. cbn [inbound h_set_clock]. rewrite Hin.
  pose proof (si_seq _ _ _ _ _ _ Hinv). pose proof (si_ticks _ _ _ _ _ _ Hinv).
  cbn [next_seq sh_clock current_term h_set_clock]. rewrite wrap_u64_id by (unfold in_u64; lia). fold (next_command h cmd). fold sc.
  cbn [me_queues h_sequenced h_set_clock]. rewrite (si_queues _ _ _ _ _ _ Hinv).
  assert (Hok : sim_cmd_ok cfg (sc_cmd sc)).
  { pose proof (si_cmds _ _ _ _ _ _ Hinv) as Hc. rewrite Hin in Hc. apply Forall_app in Hc as [_ Hc]. by apply Forall_cons in Hc as [? _]. }
  rewrite route_empty by done. cbn [ebind h_set_queues sh_config h_sequenced h_set_clock].
  rewrite (si_config _ _ _ _ _ _ Hinv), (proj2 (Z.eqb_neq _ 0)) by (pose proof (sc_interval cfg Hcfg); lia).
  unfold marker. change (sc_seq sc) with (next_seq h + 1). destruct (_ =? 0); eexists; f_equal; f_equal;
    unfold h_set_events, h_set_queues, h_sequenced, h_set_clock; simpl; by rewrite (si_events _ _ _ _ _ _ Hinv).
Qed.

Lemma marker_ok cfg seq : Forall (sim_event_ok cfg) (marker cfg seq) /\ traded (marker cfg seq) = 0.
Proof. unfold marker. case_match; split; repeat constructor; done. Qed.

(** What a tick on a non-empty queue does. *)
Record tick_effect (cfg : SimConfig) (As : list abook) (V : Z) (h : SimHarness) (sc : SequencedCommand) (es : list SimEngine)
    (shs : list RiskShard) (t : AccountRiskTable) (cmds : list InboundCommand) : Prop := {
  te_rep : books_rep es (spec_books 0 sc As).1;
  te_books : Forall (abook_inv cfg (sc_seq sc)) (spec_books 0 sc As).1;
  te_events : Forall (sim_event_ok cfg) (marker cfg (sc_seq sc) ++ (spec_books 0 sc As).2);
  te_traded : 0 <= traded (marker cfg (sc_seq sc) ++ (spec_books 0 sc As).2) <= cmd_qty (sc_cmd sc);
  te_fold : risk_fold hm_iter (mark_prices h) (marker cfg (sc_seq sc) ++ (spec_books 0 sc As).2) (shards h) (account_states h)
    = Val (shs, t, cmds);
  te_risk : risk_ok (n_accounts cfg) (V + 2 * traded (marker cfg (sc_seq sc) ++ (spec_books 0 sc As).2)) shs t;
  te_static : map shard_static shs = map shard_static (shards h);
  te_net s : total_net s shs = total_net s (shards h);
  te_cmds : Forall (fun c => sim_cmd_ok cfg c /\ is_liquidate c = true) cmds
}.

Lemma tick_command cfg Q T As V h cmd rest :
  sim_inv cfg Q T As V h -> inbound h = cmd :: rest ->
  sim_cmd_ok cfg cmd /\ V + 2 * cmd_qty cmd <= 2 * Q.
Proof.
  intros Hinv Hin. pose proof (si_cmds _ _ _ _ _ _ Hinv) as Hc. pose proof (si_volume _ _ _ _ _ _ Hinv) as Hv.
  pose proof (si_traded _ _ _ _ _ _ Hinv) as Ht. rewrite Hin in Hc, Hv. apply Forall_app in Hc as [_ Hc]. apply Forall_cons in Hc as [Hc Hr].
  split; [done|]. rewrite total_qty_app in Hv. change (cmd :: rest) with ([cmd] ++ rest) in Hv. rewrite total_qty_app in Hv.
  unfold total_qty at 2 in Hv. simpl in Hv. pose proof (total_qty_nonneg cfg rest Hr). lia.
Qed.

Lemma tick_active cfg Q T As V h r cmd rest :
  sim_cfg_ok cfg -> sim_inv cfg Q T As V h -> T + 1 < two64 -> 2 * Q < two63 -> inbound h = cmd :: rest ->
  let sc := next_command h cmd in
  exists r' es shs t cmds, run_tick hm_iter (h, r) = Val (ticked h sc es shs t (rev cmds ++ rest), r')
    /\ tick_effect cfg As V h sc es shs t cmds.
Proof.
  intros Hcfg Hinv HT HQ Hin sc. destruct (tick_command _ _ _ _ _ _ _ _ Hinv Hin) as [Hcmd Hvol].
  change cmd with (sc_cmd sc) in Hcmd, Hvol.
  assert (Hlt : next_seq h < sc_seq sc) by (simpl; lia).
  destruct (sequence_step_ok cfg Q T As V h r cmd rest) as [r1 Hseq]; try done. fold sc in Hseq.
  destruct (engines_loop_ok cfg (next_seq h) sc (engines h) As 0) as (es & Heng & Hrep);
    [apply Hinv|apply Hinv|done|done|].
  destruct (spec_books_ok cfg (next_seq h) sc As 0) as (Hb & He & Ht); [done|apply Hinv|done|done|].
  destruct (marker_ok cfg (sc_seq sc)) as [Hm Hm0].
  assert (Htr : 0 <= traded (marker cfg (sc_seq sc) ++ (spec_books 0 sc As).2) <= cmd_qty (sc_cmd sc)).
  { rewrite traded_app, Hm0. pose proof (routed_count_le cfg sc 0 (length As) Hcmd). lia. }
  assert (Hev : Forall (sim_event_ok cfg) (marker cfg (sc_seq sc) ++ (spec_books 0 sc As).2)) by (by apply Forall_app).
  destruct (risk_fold_ok hm_iter cfg (mark_prices h) _ V (shards h) (account_states h) (si_risk _ _ _ _ _ _ Hinv) Hev)
    as (shs & t & cmds & Hfold & Hr & Hst & Hnet & Hc); [lia|apply Hinv|apply Hinv|].
  unfold run_tick. rewrite Hseq. cbn [ebind]. unfold engines_step.
  cbn [engines me_queues h_set_events h_set_queues h_sequenced h_set_clock].
  rewrite <- (si_length _ _ _ _ _ _ Hinv), Heng. cbn [ebind]. unfold risk_step.
  set (h2 := h_set_events (_ ++ _) _).
  destruct (risk_loop_fold hm_iter (event_queue h2) (h_set_events [] h2) (count_trades (spec_books 0 sc As).2 r1) shs t cmds Hfold)
    as [r2 Hr2].
  exists r2, es, shs, t, cmds. split; [|by split].
  rewrite Hr2. unfold h2, ticked. cbn. by rewrite (si_queues _ _ _ _ _ _ Hinv), (si_length _ _ _ _ _ _ Hinv).
Qed.

(** Without marks and with room, the tick is a step of the core. *)
Lemma tick_core cfg Q T As V h cmd rest es shs t cmds :
  let sc := next_command h cmd in
  sim_inv cfg Q T As V h -> inbound h = cmd :: rest -> tick_effect cfg As V h sc es shs t cmds ->
  mark_prices h = ∅ -> sim_room cfg Q ->
  Forall (canon_ok (price_cap cfg) (Z.abs (initial_balance cfg))
            (V + 2 * traded (marker cfg (sc_seq sc) ++ (spec_books 0 sc As).2))) shs
  /\ forall emitted, core_step cfg (next_seq h + 1) cmd (mkCore As (shards h) (account_states h) emitted)
       = Val (mkCore (spec_books 0 sc As).1 shs t (emitted ++ cmds)).
Proof.
  intros sc Hinv Hin Heff Hm Hroom. destruct (si_core _ _ _ _ _ _ Hinv Hm Hroom) as [Hcn _].
  destruct (tick_command _ _ _ _ _ _ _ _ Hinv Hin) as [_ Hvol]. change cmd with (sc_cmd sc) in Hvol.
  pose proof (te_traded _ _ _ _ _ _ _ _ _ Heff) as Htr. pose proof (te_fold _ _ _ _ _ _ _ _ _ Heff) as Hfold. rewrite Hm in Hfold.
  set (evs := marker cfg (sc_seq sc) ++ (spec_books 0 sc As).2) in *.
  assert (Hroom' : room (price_cap cfg) (Z.abs (initial_balance cfg)) (V + 2 * traded evs)).
  { destruct Hroom as (HP & HB & HV & Hb). pose proof (si_traded _ _ _ _ _ _ Hinv). split_and!; try lia. nia. }
  destruct (risk_fold_canon hm_iter cfg (price_cap cfg) (Z.abs (initial_balance cfg)) evs V (shards h) (account_states h))
    as [He Hc]; try done; [apply Hinv|apply Heff|apply Hinv|].
  split; [by eapply Hc|]. intros emitted. unfold core_step. cbn [c_books c_shards c_states c_emitted].
  destruct (spec_books_untimed 0 sc As) as [Hb1 Hb2]. change (bare (sc_seq sc) (sc_cmd sc)) with (bare (next_seq h + 1) cmd) in Hb1, Hb2.
  change (sc_seq sc) with (next_seq h + 1) in evs. rewrite <- Hb1.
  assert (Hf : risk_fold map_to_list ∅ (marker cfg (next_seq h + 1) ++ (spec_books 0 (bare (next_seq h + 1) cmd) As).2) (shards h) (account_states h)
    = Val (shs, t, cmds)).
  { rewrite <- risk_fold_untimed, map_app, <- Hb2, <- map_app, risk_fold_untimed. by rewrite <- Hfold, He. }
  by rewrite Hf.
Qed.

Lemma core_at_snoc cfg h h' As As' em em' cmd :
  logged h' = logged h ++ [cmd] -> core_at cfg h As em ->
  core_step cfg (1 + Z.of_nat (length (logged h))) cmd (mkCore As (shards h) (account_states h) em)
    = Val (mkCore As' (shards h') (account_states h') em') ->
  core_at cfg h' As' em'.
Proof.
  unfold core_at. intros -> Hat Hs. apply ebind_val_inv in Hat as (C0 & -> & Hat). cbn [ebind] in *.
  rewrite core_run_app, Hat. cbn [ebind core_run]. by rewrite Hs.
Qed.

Lemma tick_inv cfg Q T As V h cmd rest es shs t cmds :
  let sc := next_command h cmd in
  sim_inv cfg Q T As V h -> inbound h = cmd :: rest -> tick_effect cfg As V h sc es shs t cmds ->
  sim_inv cfg Q (T + 1) (spec_books 0 sc As).1 (V + 2 * traded (marker cfg (sc_seq sc) ++ (spec_books 0 sc As).2))
    (ticked h sc es shs t (rev cmds ++ rest)).
Proof.
  intros sc Hinv Hin Heff. pose proof (te_traded _ _ _ _ _ _ _ _ _ Heff) as Htr. pose proof (te_cmds _ _ _ _ _ _ _ _ _ Heff) as Hc.
  assert (Hlog : logged (ticked h sc es shs t (rev cmds ++ rest)) = logged h ++ [cmd]) by (unfold logged; simpl; by rewrite map_app).
  assert (Hrev : Forall (fun c => sim_cmd_ok cfg c /\ is_liquidate c = true) (rev cmds)) by by apply Forall_rev.
  pose proof (si_seq _ _ _ _ _ _ Hinv) as Hseq. pose proof (si_ticks _ _ _ _ _ _ Hinv).
  assert (Hcore := tick_core cfg Q T As V h cmd rest es shs t cmds Hinv Hin Heff). destruct Hinv, Heff.
  rewrite Hin in si_cmds0, si_volume0.
  assert (Hq0 : total_qty (rev cmds) = 0) by (apply total_qty_liquidations; eapply Forall_impl; [exact Hrev|]; by intros ? [_ ?]).
  change (cmd :: rest) with ([cmd] ++ rest) in si_cmds0, si_volume0. rewrite !total_qty_app in si_volume0. rewrite !Forall_app in si_cmds0.
  split; try done; rewrite ?Hlog; cbn [ticked inbound next_seq sh_wal engines shards account_states mark_prices sh_config].
  - rewrite length_app. simpl. lia.
  - simpl. lia.
  - intros i x. rewrite lookup_app_Some. intros [Hi|[Hi Hx]]; [by apply si_numbers0|].
    apply list_lookup_singleton_Some in Hx as [Hx <-]. simpl. lia.
  - by rewrite (Forall2_length _ _ _ te_rep0), spec_books_length, <- (Forall2_length _ _ _ si_rep0).
  - rewrite !Forall_app. split_and!; try apply si_cmds0. eapply Forall_impl; [exact Hrev|]. by intros ? [? _].
  - rewrite !total_qty_app, Hq0. lia.
  - unfold log_books in *. rewrite foldl_app. simpl. by rewrite <- si_log0.
  - rewrite total_qty_app. unfold total_qty at 2. simpl in Htr |- *. lia.
  - intros a Ha. rewrite (owners_static a (shards h) shs) by done. by apply si_owners0.
  - intros s. by rewrite te_net0.
  - intros Hm Hroom. destruct (Hcore Hm Hroom) as [Hcn Hstep]. split; [done|].
    destruct (si_core0 Hm Hroom) as (_ & em & Hat & Hem). exists (em ++ cmds). split.
    + eapply core_at_snoc; [exact Hlog|exact Hat|]. unfold logged. rewrite length_map, <- Hseq, Z.add_comm. apply Hstep.
    + destruct cmds as [|c cmds]; [|right; exists c; split; [|by apply Forall_cons in Hc as [[_ ?] _]]].
      * rewrite app_nil_r. destruct Hem as [->|(c & Hcin & Hl)]; [by left|right; exists c; split; [|done]].
        rewrite Hin in Hcin. simpl. set_solver.
      * apply elem_of_app. right. simpl. set_solver.
Qed.

(** ** Runs *)

Definition all_cmds (h : SimHarness) : list InboundCommand := logged h ++ inbound h.

(** The commands of clients among them. *)
Definition client_cmds (cmds : list InboundCommand) : list InboundCommand := List.filter (fun c => negb (is_liquidate c)) cmds.

Lemma client_cmds_app l1 l2 : client_cmds (l1 ++ l2) = client_cmds l1 ++ client_cmds l2.
Proof. apply List.filter_app. Qed.

Lemma client_cmds_liquidations l : Forall (fun c => is_liquidate c = true) l -> client_cmds l = [].
Proof. induction 1 as [|c l Hc _ IH]; [done|]. unfold client_cmds in *. simpl. by rewrite Hc. Qed.

Lemma inv_mono cfg Q T T' As V h : sim_inv cfg Q T As V h -> T <= T' -> sim_inv cfg Q T' As V h.
Proof. intros [] ?. split; try done. lia. Qed.

Lemma tick_ok cfg Q T As V h r :
  sim_cfg_ok cfg -> sim_inv cfg Q T As V h -> T + 1 < two64 -> 2 * Q < two63 ->
  exists h' r' As' V', run_tick hm_iter (h, r) = Val (h', r') /\ sim_inv cfg Q (T + 1) As' V' h'
    /\ mark_prices h' = mark_prices h /\ total_qty (all_cmds h') = total_qty (all_cmds h)
    /\ client_cmds (all_cmds h') = client_cmds (all_cmds h).
Proof.
  intros Hcfg Hinv HT HQ. destruct (inbound h) as [|cmd rest] eqn:Hin.
  - destruct (tick_idle _ _ _ _ _ _ r Hinv Hin) as [r' ->]. exists (h_set_clock (clock_tick (sh_clock h)) h), r', As, V.
    split_and!; try done. apply inv_mono with T; [|lia]. by destruct Hinv; split.
  - destruct (tick_active _ _ _ _ _ _ r cmd rest Hcfg Hinv HT HQ Hin) as (r' & es & shs & t & cmds & -> & Heff).
    do 4 eexists. split; [done|]. split; [by eapply tick_inv|]. split; [done|].
    unfold all_cmds, logged. rewrite Hin. cbn [ticked inbound sh_wal]. rewrite map_app. change (cmd :: rest) with ([cmd] ++ rest).
    rewrite !total_qty_app, !client_cmds_app. cbn [map next_command sc_cmd].
    assert (Hl : Forall (fun c => is_liquidate c = true) (rev cmds)).
    { apply Forall_rev. eapply Forall_impl; [apply Heff|]. by intros ? [_ ?]. }
    rewrite (total_qty_liquidations (rev cmds) Hl), (client_cmds_liquidations (rev cmds) Hl), !app_assoc, app_nil_r. split; [lia|done].
Qed.

Lemma run_ticks_ok cfg Q T As V n h r :
  sim_cfg_ok cfg -> sim_inv cfg Q T As V h -> T + Z.of_nat n < two64 -> 2 * Q < two63 ->
  exists h' r' As' V', run_ticks hm_iter n (h, r) = Val (h', r') /\ sim_inv cfg Q (T + Z.of_nat n) As' V' h'
    /\ mark_prices h' = mark_prices h /\ total_qty (all_cmds h') = total_qty (all_cmds h)
    /\ client_cmds (all_cmds h') = client_cmds (all_cmds h).
Proof.
  intros Hcfg. revert T As V h r. induction n as [|n IH]; intros T As V h r Hinv HT HQ.
  { exists h, r, As, V. rewrite Z.add_0_r. done. }
  destruct (tick_ok _ _ _ _ _ _ r Hcfg Hinv) as (h1 & r1 & As1 & V1 & Hrun & Hinv1 & Hm1 & Hq1 & Hc1); [lia|done|].
  cbn [run_ticks]. rewrite Hrun. cbn [ebind].
  destruct (IH (T + 1) As1 V1 h1 r1 Hinv1) as (h2 & r2 & As2 & V2 & -> & Hinv2 & Hm2 & Hq2 & Hc2); [lia|done|].
  exists h2, r2, As2, V2. replace (T + Z.of_nat (S n)) with (T + 1 + Z.of_nat n) by lia. split_and!; try done; congruence.
Qed.

(** ** Sequences of calls *)

Inductive SimOp :=
| OpPush (cmd : InboundCommand)
| OpTerm (term : Z)
| OpMark (symbol price : Z)
| OpRun (n_ticks : Z)
| OpDrain.

Definition sim_op (op : SimOp) (h : SimHarness) : Exec SimHarness :=
  match op with
  | OpPush cmd => Val (push_command cmd h)
  | OpTerm term => Val (set_term term h)
  | OpMark symbol price => Val (set_mark_price symbol price h)
  | OpRun n => let! '(_, h) := sim_run hm_iter n h in Val h
  | OpDrain => Val (drain_events h).2
  end.

Fixpoint sim_ops (ops : list SimOp) (h : SimHarness) : Exec SimHarness :=
  match ops with
  | [] => Val h
  | op :: ops => let! h := sim_op op h in sim_ops ops h
  end.

Definition op_ok (cfg : SimConfig) (op : SimOp) : Prop :=
  match op with OpPush cmd => sim_cmd_ok cfg cmd | OpRun n => 0 <= n | _ => True end.
Definition op_qty (op : SimOp) : Z := match op with OpPush cmd => cmd_qty cmd | _ => 0 end.
Definition op_ticks (op : SimOp) : Z := match op with OpRun n => n | _ => 0 end.
Definition op_marks (op : SimOp) : bool := match op with OpMark _ _ => true | _ => false end.
Definition op_client (op : SimOp) : list InboundCommand := match op with OpPush cmd => client_cmds [cmd] | _ => [] end.
Definition ops_client (ops : list SimOp) : list InboundCommand := concat (map op_client ops).
Definition ops_qty (ops : list SimOp) : Z := sumZ (map op_qty ops).
Definition ops_ticks (ops : list SimOp) : Z := sumZ (map op_ticks ops).

Lemma push_inv cfg Q T As V cmd h :
  sim_inv cfg Q T As V h -> sim_cmd_ok cfg cmd -> total_qty (all_cmds h) + cmd_qty cmd <= Q ->
  sim_inv cfg Q T As V (push_command cmd h) /\ total_qty (all_cmds (push_command cmd h)) = total_qty (all_cmds h) + cmd_qty cmd
  /\ client_cmds (all_cmds (push_command cmd h)) = client_cmds (all_cmds h) ++ client_cmds [cmd].
Proof.
  intros Hinv Hc HQ. unfold all_cmds in *.
  assert (Hq : total_qty (logged (push_command cmd h) ++ inbound (push_command cmd h)) = total_qty (logged h ++ inbound h) + cmd_qty cmd).
  { change (logged (push_command cmd h)) with (logged h). simpl. rewrite app_assoc, total_qty_app. unfold total_qty at 2. simpl. lia. }
  assert (Hcl : all_cmds (push_command cmd h) = all_cmds h ++ [cmd]) by (unfold all_cmds, logged; simpl; by rewrite app_assoc).
  unfold all_cmds in Hcl. split; [|rewrite <- client_cmds_app, <- Hcl; done].
  destruct Hinv. split; try done; try (rewrite Hq; lia);
    change (logged (push_command cmd h)) with (logged h); cbn [push_command h_set_inbound inbound].
  - rewrite app_assoc, Forall_app. split; [done|]. by constructor.
  - intros Hm Hroom. destruct (si_core0 Hm Hroom) as (Hcn & em & Hat & Hem). split; [done|]. exists em. split; [done|].
    destruct Hem as [->|(c & Hin & Hl)]; [by left|]. right. exists c. split; [|done]. rewrite app_assoc. apply elem_of_app. by left.
Qed.

Lemma sim_op_ok cfg Q T As V op h :
  sim_cfg_ok cfg -> sim_inv cfg Q T As V h -> op_ok cfg op -> total_qty (all_cmds h) + op_qty op <= Q ->
  T + op_ticks op < two64 -> 2 * Q < two63 ->
  exists h' As' V', sim_op op h = Val h' /\ sim_inv cfg Q (T + op_ticks op) As' V' h'
    /\ total_qty (all_cmds h') = total_qty (all_cmds h) + op_qty op
    /\ client_cmds (all_cmds h') = client_cmds (all_cmds h) ++ op_client op
    /\ (op_marks op = false -> mark_prices h = ∅ -> mark_prices h' = ∅).
Proof.
  intros Hcfg Hinv Hok HQ HT HQ2.
  destruct op as [cmd|term|symbol price|n|]; simpl in *; rewrite ?Z.add_0_r in *; try rewrite app_nil_r.
  - destruct (push_inv _ _ _ _ _ cmd h Hinv Hok HQ) as (? & ? & ?). eexists _, As, V. split; [done|]. done.
  - eexists _, As, V. split; [done|]. split_and!; try done. by destruct Hinv; split.
  - eexists _, As, V. split; [done|]. split_and!; try done. destruct Hinv; split; try done.
    cbn [set_mark_price mark_prices]. intros Hm. by apply insert_non_empty in Hm.
  - unfold sim_run. destruct (run_ticks_ok cfg Q T As V (Z.to_nat n) h SimResult_default Hcfg Hinv) as (h' & r' & As' & V' & -> & Hi & Hm & Hq & Hc);
      [rewrite Z2Nat.id by lia; lia|done|]. rewrite Z2Nat.id in Hi by lia. cbn [ebind]. exists h', As', V'. split_and!; try done. congruence.
  - eexists _, As, V. split; [done|]. split_and!; try done. by destruct Hinv; split.
Qed.

Lemma sim_ops_ok cfg Q T As V ops h :
  sim_cfg_ok cfg -> sim_inv cfg Q T As V h -> Forall (op_ok cfg) ops -> total_qty (all_cmds h) + ops_qty ops <= Q ->
  T + ops_ticks ops < two64 -> 2 * Q < two63 ->
  exists h' As' V', sim_ops ops h = Val h' /\ sim_inv cfg Q (T + ops_ticks ops) As' V' h'
    /\ client_cmds (all_cmds h') = client_cmds (all_cmds h) ++ ops_client ops
    /\ (Forall (fun op => op_marks op = false) ops -> mark_prices h = ∅ -> mark_prices h' = ∅).
Proof.
  intros Hcfg Hinv Hops. unfold ops_qty, ops_ticks, ops_client. revert T As V h Hinv. induction Hops as [|op ops Hop Hops IH]; intros T As V h Hinv HQ HT HQ2.
  { exists h, As, V. simpl. rewrite Z.add_0_r, app_nil_r. done. }
  cbn [map sumZ concat] in *.
  assert (Hnn : 0 <= sumZ (map op_qty ops) /\ 0 <= sumZ (map op_ticks ops)).
  { split; apply sumZ_nonneg, Forall_map; (eapply Forall_impl; [exact Hops|]); intros o Ho; destruct o; simpl in *; try lia.
    by eapply cmd_qty_nonneg. }
  destruct (sim_op_ok cfg Q T As V op h) as (h1 & As1 & V1 & Hrun & Hi1 & Hq1 & Hc1 & Hm1); try done; [lia|lia|].
  cbn [sim_ops]. rewrite Hrun. cbn [ebind].
  destruct (IH (T + op_ticks op) As1 V1 h1 Hi1) as (h2 & As2 & V2 & -> & Hi2 & Hc2 & Hm2); [lia|lia|done|].
  exists h2, As2, V2. rewrite Z.add_assoc. split_and!; try done; [by rewrite Hc2, Hc1, app_assoc|]. intros Hall Hm. apply Forall_cons in Hall as [Ho Hall]. auto.
Qed.
End SimRun.
