(* ===== verification/SimTheorems.v ===== *)
(** * SimTheorems: what the simulation harness guarantees

    Every sequence of calls on a new harness that pushes commands of its
    accounts and symbols: the runs return, each book is what the logged
    commands routed to it make of an empty book, the positions of all accounts
    sum to zero, and replaying the log of a run without marks and liquidations
    gives the same account states.  The proofs compose the order book
    (BookTheorems.v, SimBooks.v) and the risk shards (SimRisk.v, SimCanon.v)
    through the invariant of SimRun.v. *)

From S2P Require Import Prelude CoreTypes SlotMap OrderBook Seqlock Risk BookSpec BookMarket BookRep BookInv BookRefine BookTheorems.
From S2P Require Import Sim SimRisk SimCanon SimInit SimBooks SimSpec SimRun.
#[local] Open Scope Z_scope.

Section SimFacts.
Context {SM : SlotMapApi} {SML : SlotMapLaws SM}.

(** ** The new harness *)

Lemma shards_divide cfg :
  sim_cfg_ok cfg -> (n_accounts cfg = n_risk_shards cfg * (n_accounts cfg / n_risk_shards cfg))%nat.
Proof. intros Hcfg. pose proof (sc_divides cfg Hcfg). apply Nat.Div0.div_exact. done. Qed.

Lemma new_shards_ok cfg :
  sim_cfg_ok cfg ->
  exists shs t, new_shards cfg = Val (shs, t) /\ risk_ok (n_accounts cfg) 0 shs t
    /\ Forall (fresh_shard (price_cap cfg) (Z.abs (initial_balance cfg))) shs
    /\ (forall a, 0 <= a < Z.of_nat (n_accounts cfg) -> owners a shs = 1).
Proof.
  intros Hcfg. pose proof (shards_divide cfg Hcfg) as Hd. set (per := (n_accounts cfg / n_risk_shards cfg)%nat) in *.
  destruct (build_shards_ok (price_cap cfg) (n_risk_shards cfg) 0 (Z.of_nat per) (initial_balance cfg) (Table_new (n_accounts cfg)) (n_accounts cfg))
    as (shs & t & Hrun & Hr & Hf & Ho).
  - apply Hcfg.
  - apply table_new_ok.
  - unfold table_capacity, Table_new. simpl. by rewrite length_replicate.
  - lia.
  - lia.
  - nia.
  - exists shs, t. split_and!; try done. intros a Ha. rewrite Ho.
    destruct (Z.leb_spec (0 * Z.of_nat per) a), (Z.ltb_spec a ((0 + Z.of_nat (n_risk_shards cfg)) * Z.of_nat per)); simpl; nia.
Qed.

Lemma new_books_ok cfg i :
  sim_cfg_ok cfg ->
  let bc := sim_book_config (Z.of_nat i mod 65536) (book_tick_floor cfg) (book_num_ticks cfg) in
  rep (OrderBook_new bc) (new_abook bc) /\ abook_inv cfg 0 (new_abook bc).
Proof.
  intros Hcfg bc. assert (Hbc : cfg_ok bc).
  { destruct Hcfg. unfold cfg_ok, in_i64. simpl. lia. }
  split; [by apply OrderBook_new_rep|]. split; try done. apply new_abook_ok.
Qed.

Lemma harness_new_ok cfg Q :
  sim_cfg_ok cfg -> 0 <= Q ->
  exists h, SimHarness_new cfg = Val h /\ sim_inv cfg Q 0 (new_books cfg) 0 h /\ mark_prices h = ∅ /\ all_cmds h = [].
Proof.
  intros Hcfg HQ. destruct (new_shards_ok cfg Hcfg) as (shs & t & Hrun & Hr & Hf & Ho).
  unfold SimHarness_new. rewrite (proj2 (Nat.eqb_neq _ 0)) by apply Hcfg. rewrite (sc_divides cfg Hcfg). cbn [Nat.eqb negb].
  unfold new_shards in Hrun. rewrite Hrun. cbn [ebind]. eexists. split; [done|]. split; [|done].
  split; try done; cbn [engines next_seq sh_wal shards account_states mark_prices inbound logged].
  - by rewrite length_map, length_seq.
  - unfold books_rep, new_books. generalize (List.seq 0 (n_symbols cfg)). intros l. induction l; constructor; [|done].
    by apply new_books_ok.
  - apply Forall_map, Forall_true. intros i. by apply new_books_ok.
  - intros s. by eapply fresh_total.
  - intros _ _. split; [eapply Forall_impl; [exact Hf|]; by intros ? [_ ?]|]. exists []. split; [|by left].
    unfold core_at, core_new, new_shards. rewrite Hrun. done.
Qed.

(** ** Replay *)

Section Replay.
Context (hm_iter : gmap (Z * Z) Position -> list ((Z * Z) * Position)).
Hypothesis hm_iter_perm : forall m, hm_iter m ≡ₚ map_to_list m.

Definition no_liquidation (cmds : list InboundCommand) : Prop := Forall (fun c => is_liquidate c = false) cmds.

Lemma no_liquidation_core cfg Q T As V h :
  sim_inv cfg Q T As V h -> mark_prices h = ∅ -> sim_room cfg Q -> no_liquidation (all_cmds h) -> core_at cfg h As [].
Proof.
  intros Hinv Hm Hroom Hno. destruct (si_core _ _ _ _ _ _ Hinv Hm Hroom) as (_ & em & Hat & [->|(c & Hin & Hl)]); [done|].
  unfold no_liquidation in Hno. rewrite Forall_forall in Hno. by rewrite (Hno c Hin) in Hl.
Qed.

(** The core after all of [cmds] has emitted nothing. *)
Definition quiet (cfg : SimConfig) (cmds : list InboundCommand) : Prop :=
  exists C, (let! C := core_new cfg in core_run cfg 1 cmds C) = Val C /\ c_emitted C = [].

Lemma quiet_prefix cfg h As em cmds : core_at cfg h As em -> quiet cfg (logged h ++ cmds) -> em = [].
Proof.
  unfold core_at. intros Hat (C & HC & Hem). apply ebind_val_inv in Hat as (C0 & E & Hat). rewrite E in HC. cbn [ebind] in HC.
  rewrite core_run_app, Hat in HC. cbn [ebind] in HC. apply core_run_emitted in HC as [l Hl]. simpl in Hl. rewrite Hem in Hl.
  by destruct em.
Qed.

(** A replay takes the commands of a quiet log one by one. *)
Lemma replay_tick cfg Q T As V h r cmds :
  sim_cfg_ok cfg -> sim_inv cfg Q T As V h -> mark_prices h = ∅ -> sim_room cfg Q -> T + 1 < two64 ->
  no_liquidation cmds -> quiet cfg cmds -> all_cmds h = cmds ->
  exists h' r' As' V', run_tick hm_iter (h, r) = Val (h', r') /\ sim_inv cfg Q (T + 1) As' V' h' /\ mark_prices h' = ∅
    /\ all_cmds h' = cmds /\ length (inbound h') = Nat.pred (length (inbound h)).
Proof.
  intros Hcfg Hinv Hm Hroom HT Hno Hq Hall. destruct (inbound h) as [|cmd rest] eqn:Hin.
  { destruct (tick_idle hm_iter _ _ _ _ _ _ r Hinv Hin) as [r' ->]. exists (h_set_clock (clock_tick (sh_clock h)) h), r', As, V.
    split_and!; [done| |done|exact Hall|by simpl; rewrite Hin]. apply inv_mono with T; [|lia]. by destruct Hinv; split. }
  destruct (tick_active hm_iter _ _ _ _ _ _ r cmd rest Hcfg Hinv HT) as (r' & es & shs & t & em & Hrun & Heff); [apply Hroom|done|].
  pose proof (tick_inv hm_iter hm_iter_perm _ _ _ _ _ _ cmd rest es shs t em Hinv Hin Heff) as Hinv'.
  set (h' := ticked h (next_command h cmd) es shs t (rev em ++ rest)) in *.
  destruct (tick_core hm_iter hm_iter_perm _ _ _ _ _ _ cmd rest es shs t em Hinv Hin Heff Hm Hroom) as [_ Hstep].
  assert (Hlog : logged h' = logged h ++ [cmd]) by (unfold logged, h'; simpl; by rewrite map_app).
  assert (Hat : core_at cfg h As []) by (eapply no_liquidation_core; try done; by rewrite Hall).
  assert (Hat' : core_at cfg h' (spec_books 0 (next_command h cmd) As).1 em).
  { eapply core_at_snoc; [exact Hlog|exact Hat|]. unfold logged. rewrite length_map, <- (si_seq _ _ _ _ _ _ Hinv), Z.add_comm. apply Hstep. }
  assert (Hcmds : cmds = logged h' ++ rest) by (rewrite <- Hall, Hlog, <- app_assoc; unfold all_cmds; by rewrite Hin).
  rewrite Hcmds in Hq. assert (em = []) as -> by (eapply quiet_prefix; [exact Hat'|exact Hq]).
  exists h', r'. do 2 eexists. split; [done|]. split; [exact Hinv'|]. split; [done|]. by rewrite Hcmds.
Qed.

Lemma replay_ticks cfg Q T As V n h r cmds :
  sim_cfg_ok cfg -> sim_inv cfg Q T As V h -> mark_prices h = ∅ -> sim_room cfg Q -> T + Z.of_nat n < two64 ->
  no_liquidation cmds -> quiet cfg cmds -> all_cmds h = cmds -> (length (inbound h) <= n)%nat ->
  exists h' r' As' V', run_ticks hm_iter n (h, r) = Val (h', r') /\ sim_inv cfg Q (T + Z.of_nat n) As' V' h' /\ mark_prices h' = ∅
    /\ logged h' = cmds /\ inbound h' = [].
Proof.
  intros Hcfg. revert T As V h r. induction n as [|n IH]; intros T As V h r Hinv Hm Hroom HT Hno Hq Hall Hlen.
  { exists h, r, As, V. rewrite Z.add_0_r. assert (inbound h = []) as Hin by (by apply length_zero_iff_nil; lia).
    split_and!; try done. rewrite <- Hall. unfold all_cmds. by rewrite Hin, app_nil_r. }
  destruct (replay_tick cfg Q T As V h r cmds Hcfg Hinv Hm Hroom) as (h1 & r1 & As1 & V1 & Hrun & Hi & Hm1 & Ha1 & Hl1); try done; [lia|].
  cbn [run_ticks]. rewrite Hrun. cbn [ebind].
  destruct (IH (T + 1) As1 V1 h1 r1) as (h2 & r2 & As2 & V2 & Hr2 & Hi2 & ? & ? & ?); try done; [lia|lia|].
  exists h2, r2, As2, V2. replace (T + Z.of_nat (S n)) with (T + 1 + Z.of_nat n) by lia. done.
Qed.

Lemma push_log_inv cfg Q T As V log h :
  sim_inv cfg Q T As V h -> Forall (sim_cmd_ok cfg) (map sc_cmd log) -> total_qty (all_cmds h) + total_qty (map sc_cmd log) <= Q ->
  sim_inv cfg Q T As V (push_log log h) /\ mark_prices (push_log log h) = mark_prices h
  /\ all_cmds (push_log log h) = all_cmds h ++ map sc_cmd log /\ logged (push_log log h) = logged h.
Proof.
  unfold push_log. revert h. induction log as [|sc log IH]; intros h Hinv Hc HQ; simpl in *; [by rewrite app_nil_r|].
  apply Forall_cons in Hc as [Hc Hcs]. change (sc_cmd sc :: map sc_cmd log) with ([sc_cmd sc] ++ map sc_cmd log) in HQ |- *.
  rewrite total_qty_app in HQ. unfold total_qty at 2 in HQ. simpl in HQ. pose proof (total_qty_nonneg cfg _ Hcs).
  destruct (push_inv cfg Q T As V (sc_cmd sc) h Hinv Hc ltac:(lia)) as [Hi Hq].
  destruct (IH (push_command (sc_cmd sc) h) Hi Hcs) as (? & Hm & Ha & Hl); [lia|]. split_and!; try done.
  rewrite Ha. unfold all_cmds, logged. simpl. by rewrite <- !app_assoc.
Qed.
End Replay.

(** Harnesses with one table have the same account states. *)
Lemma compare_equal cfg ids h h' :
  table_ok (account_states h) -> table_capacity (account_states h) = n_accounts cfg -> account_states h' = account_states h ->
  Forall (fun i => (i < n_accounts cfg)%nat) ids -> compare_accounts ids h h' = Val (Ok tt).
Proof.
  intros Ht Hc He. induction 1 as [|i ids Hi _ IH]; [done|]. cbn [compare_accounts].
  unfold account_snapshot. rewrite He. destruct (table_get (account_states h) (Z.of_nat i)) as [st|] eqn:Eg.
  2:{ unfold table_get, table_capacity in *. apply lookup_ge_None in Eg. lia. }
  simpl. rewrite read_ok by (by eapply table_get_ok). simpl.
  unfold compare_account. by rewrite !Z.eqb_refl, Bool.eqb_reflx.
Qed.

(** Replaying a quiet log with any order of the hash maps. *)
Lemma replay_same iter cfg Q As V T h :
  (forall m, iter m ≡ₚ map_to_list m) -> sim_cfg_ok cfg -> sim_inv cfg Q T As V h -> mark_prices h = ∅ -> sim_room cfg Q ->
  2 * T + 10 < two64 -> no_liquidation (all_cmds h) ->
  exists r' h', replay iter cfg (sh_wal h) = Val (r', h') /\ account_states h' = account_states h.
Proof.
  intros Hperm Hcfg Hinv Hm Hroom HT Hno. assert (HQ : 0 <= Q) by (destruct Hroom as (_ & _ & ? & _); lia).
  destruct (harness_new_ok cfg Q Hcfg HQ) as (h0 & Hnew & Hinv0 & Hm0 & Hall0).
  pose proof (no_liquidation_core _ _ _ _ _ _ Hinv Hm Hroom Hno) as Hat.
  assert (Hno' : no_liquidation (logged h)) by (by apply Forall_app in Hno as [? _]).
  pose proof (si_cmds _ _ _ _ _ _ Hinv) as Hcmds. pose proof (si_volume _ _ _ _ _ _ Hinv) as Hv. rewrite total_qty_app in Hv.
  apply Forall_app in Hcmds as [Hc1 Hc2]. pose proof (total_qty_nonneg cfg _ Hc2).
  destruct (push_log_inv cfg Q 0 (new_books cfg) 0 (sh_wal h) h0 Hinv0 Hc1) as (Hi1 & Hm1 & Ha1 & Hl1).
  { rewrite Hall0. unfold logged in Hv. unfold total_qty at 1. simpl. lia. }
  rewrite Hall0 in Ha1. simpl in Ha1. fold (logged h) in Ha1.
  assert (Hlen : length (inbound (push_log (sh_wal h) h0)) = length (sh_wal h)).
  { assert (logged h0 = []) as E by (apply app_eq_nil in Hall0; tauto). unfold all_cmds in Ha1. rewrite Hl1, E in Ha1. simpl in Ha1.
    rewrite Ha1. unfold logged. apply length_map. }
  pose proof (si_seq _ _ _ _ _ _ Hinv). pose proof (si_ticks _ _ _ _ _ _ Hinv).
  unfold replay. rewrite Hnew. cbn [ebind]. rewrite !wrap_u64_id by (rewrite ?wrap_u64_id by (unfold in_u64; lia); unfold in_u64; lia).
  unfold sim_run. set (n := Z.to_nat (Z.of_nat (length (sh_wal h)) * 2 + 10)).
  destruct (replay_ticks iter Hperm cfg Q 0 (new_books cfg) 0 n (push_log (sh_wal h) h0) SimResult_default (logged h))
    as (h' & r' & As' & V' & Hrun & Hi' & Hm' & Hl' & Hin'); try done; [congruence|lia| |lia|].
  { unfold core_at in Hat. eexists. split; [exact Hat|done]. }
  exists r', h'. rewrite Hrun. cbn [ebind]. split; [done|].
  assert (Hat' : core_at cfg h' As' []).
  { eapply no_liquidation_core; try done. unfold all_cmds. by rewrite Hl', Hin', app_nil_r. }
  unfold core_at in Hat, Hat'. rewrite Hl', Hat in Hat'. by injection Hat'.
Qed.

(** ** Every log can be replayed *)

Lemma compare_returns cfg ids h h' :
  table_ok (account_states h) -> table_capacity (account_states h) = n_accounts cfg ->
  table_ok (account_states h') -> table_capacity (account_states h') = n_accounts cfg ->
  Forall (fun i => (i < n_accounts cfg)%nat) ids -> exists v, compare_accounts ids h h' = Val v.
Proof.
  intros Ht Hc Ht' Hc'. induction 1 as [|i ids Hi _ [v IH]]; [by eexists|]. cbn [compare_accounts]. unfold account_snapshot.
  destruct (table_get (account_states h) (Z.of_nat i)) as [st|] eqn:Eg; [|unfold table_get, table_capacity in *; apply lookup_ge_None in Eg; lia].
  destruct (table_get (account_states h') (Z.of_nat i)) as [st'|] eqn:Eg'; [|unfold table_get, table_capacity in *; apply lookup_ge_None in Eg'; lia].
  simpl. rewrite (read_ok _ (table_get_ok _ _ _ Ht Eg)). simpl. rewrite (read_ok _ (table_get_ok _ _ _ Ht' Eg')). simpl. destruct (compare_account _ _ _); eauto.
Qed.

Lemma ids_in_range cfg : Forall (fun i => (i < n_accounts cfg)%nat) (List.seq 0 (n_accounts cfg)).
Proof. apply Forall_forall. intros i Hi. apply list_elem_of_In, in_seq in Hi. lia. Qed.

Lemma replay_returns iter cfg Q log :
  (forall m, iter m ≡ₚ map_to_list m) -> sim_cfg_ok cfg -> Forall (sim_cmd_ok cfg) (map sc_cmd log) ->
  total_qty (map sc_cmd log) <= Q -> 2 * Q < two63 -> 2 * Z.of_nat (length log) + 10 < two64 ->
  exists r h As V T, replay iter cfg log = Val (r, h) /\ sim_inv cfg Q T As V h.
Proof.
  intros Hperm Hcfg Hc HQ HQ2 Hlen. pose proof (total_qty_nonneg cfg _ Hc).
  destruct (harness_new_ok cfg Q Hcfg ltac:(lia)) as (h0 & Hnew & Hinv0 & Hm0 & Hall0).
  destruct (push_log_inv cfg Q 0 (new_books cfg) 0 log h0 Hinv0 Hc) as (Hi1 & _); [rewrite Hall0; unfold total_qty at 1; simpl; lia|].
  unfold replay. rewrite Hnew. cbn [ebind]. rewrite !wrap_u64_id by (rewrite ?wrap_u64_id by (unfold in_u64; lia); unfold in_u64; lia).
  unfold sim_run. destruct (run_ticks_ok iter Hperm cfg Q 0 (new_books cfg) 0 (Z.to_nat (Z.of_nat (length log) * 2 + 10)) (push_log log h0)
    SimResult_default Hcfg Hi1) as (h' & r' & As' & V' & Hrun & Hi' & _); [lia|done|].
  exists r', h', As', V'. eexists. rewrite Hrun. cbn [ebind]. split; [done|exact Hi'].
Qed.

(** What a fault leaves of a log. *)
Lemma inject_fault_sub f (wal : list SequencedCommand) : exists k, inject_fault f wal = take k wal.
Proof. destruct f; simpl; [by eexists|exists (length wal)..]; by rewrite firstn_all. Qed.

Lemma verify_returns iter cfg Q T As V h k :
  (forall m, iter m ≡ₚ map_to_list m) -> sim_cfg_ok cfg -> sim_inv cfg Q T As V h -> 2 * Q < two63 -> 2 * T + 10 < two64 ->
  exists v, verify_account_states iter cfg h (take k (sh_wal h)) = Val v.
Proof.
  intros Hperm Hcfg Hinv HQ HT. pose proof (si_cmds _ _ _ _ _ _ Hinv) as Hc. pose proof (si_volume _ _ _ _ _ _ Hinv) as Hv.
  apply Forall_app in Hc as [Hc Hc2]. rewrite total_qty_app in Hv. pose proof (total_qty_nonneg cfg _ Hc2).
  assert (Hsplit : logged h = map sc_cmd (take k (sh_wal h)) ++ map sc_cmd (drop k (sh_wal h))) by (unfold logged; by rewrite <- map_app, take_drop).
  rewrite Hsplit in Hc, Hv. apply Forall_app in Hc as [Hk Hd]. rewrite total_qty_app in Hv. pose proof (total_qty_nonneg cfg _ Hd).
  pose proof (si_seq _ _ _ _ _ _ Hinv). pose proof (si_ticks _ _ _ _ _ _ Hinv).
  assert (length (take k (sh_wal h)) <= length (sh_wal h))%nat by (rewrite length_take; lia).
  destruct (replay_returns iter cfg Q (take k (sh_wal h)) Hperm Hcfg Hk) as (r & h' & As' & V' & T' & Hrun & Hi'); [lia|done|lia|].
  unfold verify_account_states. rewrite Hrun. cbn [ebind].
  destruct (si_risk _ _ _ _ _ _ Hinv), (si_risk _ _ _ _ _ _ Hi'). apply (compare_returns cfg); try done. apply ids_in_range.
Qed.

(** ** The properties *)

Lemma ops_from_new iter cfg ops :
  (forall m, iter m ≡ₚ map_to_list m) -> sim_cfg_ok cfg -> Forall (op_ok cfg) ops -> 2 * ops_qty ops < two63 -> ops_ticks ops < two64 ->
  exists h0 h As V, SimHarness_new cfg = Val h0 /\ sim_ops iter ops h0 = Val h
    /\ sim_inv cfg (ops_qty ops) (ops_ticks ops) As V h /\ client_cmds (all_cmds h) = ops_client ops
    /\ (Forall (fun op => op_marks op = false) ops -> mark_prices h = ∅).
Proof.
  intros Hperm Hcfg Hops HQ HT.
  assert (Hnn : 0 <= ops_qty ops).
  { apply sumZ_nonneg, Forall_map. eapply Forall_impl; [exact Hops|]. intros o Ho. destruct o; simpl in *; try lia. by eapply cmd_qty_nonneg. }
  destruct (harness_new_ok cfg (ops_qty ops) Hcfg Hnn) as (h0 & Hnew & Hinv0 & Hm0 & Hall0).
  destruct (sim_ops_ok iter Hperm cfg (ops_qty ops) 0 (new_books cfg) 0 ops h0) as (h & As & V & Hrun & Hi & Hc & Hm); try done.
  { rewrite Hall0. unfold total_qty. simpl. lia. }
  exists h0, h, As, V. rewrite Hall0 in Hc. split_and!; try done. auto.
Qed.

Lemma log_books_lookup log As i :
  log_books log As !! i = (fun A => foldl (fun A sc => (spec_apply A sc).1) A (List.filter (routes_to i) log)) <$> As !! i.
Proof.
  unfold log_books. revert As. induction log as [|sc log IH]; intros As; simpl; [by destruct (As !! i)|].
  assert (Hs : forall k j As, (spec_books k sc As).1 !! j = (fun A => if routes_to (k + j) sc then (spec_apply A sc).1 else A) <$> As !! j).
  { intros k j Bs. revert k j. induction Bs as [|B Bs IHB]; intros k j; simpl; [done|].
    destruct j as [|j]; [rewrite Nat.add_0_r; destruct (routes_to k sc); done|].
    replace (k + S j)%nat with (S k + j)%nat by lia. destruct (routes_to k sc); simpl; apply IHB. }
  rewrite IH, Hs. simpl. destruct (As !! i) as [A|]; [|done]. simpl. by destruct (routes_to i sc).
Qed.

(** C21. The simulation is a closed market.  On every well-formed
    configuration, every sequence of calls (pushes of commands of its accounts
    and symbols, terms, mark prices, runs, drains) whose orders total less than
    2^62 and whose runs take less than 2^64 ticks returns (a command for a
    symbol or an account outside the configuration is not covered: the harness
    indexes its engines by the symbol and panics there), whatever the
    iteration order of the hash maps: no index, division or capacity panics,
    in any book or shard.  Afterwards every account belongs to exactly one
    shard, and in every symbol the net positions of all accounts sum to
    zero. *)
Theorem sim_zero_sum iter cfg ops :
  (forall m, iter m ≡ₚ map_to_list m) -> sim_cfg_ok cfg -> Forall (op_ok cfg) ops ->
  2 * ops_qty ops < two63 -> ops_ticks ops < two64 ->
  exists h0 h, SimHarness_new cfg = Val h0 /\ sim_ops iter ops h0 = Val h
    /\ (forall a, 0 <= a < Z.of_nat (n_accounts cfg) -> owners a (shards h) = 1)
    /\ (forall s, total_net s (shards h) = 0).
Proof.
  intros Hperm Hcfg Hops HQ HT. destruct (ops_from_new iter cfg ops) as (h0 & h & As & V & Hnew & Hrun & Hinv & _); try done.
  exists h0, h. split_and!; try done; apply Hinv.
Qed.

(** C22. The write-ahead log of the simulation determines the books.  After
    every such sequence of calls (commands of the configured symbols and
    accounts, with the same bounds) the log is numbered 1, 2, 3, ... without gaps,
    the log followed by the inbound queue holds the commands the client pushed,
    in that order, with only liquidations between them, and the book of each
    engine represents the abstract book obtained by applying, to an empty book,
    exactly the logged commands routed to that engine. *)
Theorem sim_books_follow_log iter cfg ops h0 h :
  (forall m, iter m ≡ₚ map_to_list m) -> sim_cfg_ok cfg -> Forall (op_ok cfg) ops ->
  2 * ops_qty ops < two63 -> ops_ticks ops < two64 ->
  SimHarness_new cfg = Val h0 -> sim_ops iter ops h0 = Val h ->
  (forall i sc, sh_wal h !! i = Some sc -> sc_seq sc = Z.of_nat i + 1)
  /\ client_cmds (map sc_cmd (sh_wal h) ++ inbound h) = ops_client ops
  /\ length (engines h) = n_symbols cfg
  /\ forall i e, engines h !! i = Some e ->
       rep (se_book e)
         (foldl (fun A sc => (spec_apply A sc).1)
            (new_abook (sim_book_config (Z.of_nat i mod 65536) (book_tick_floor cfg) (book_num_ticks cfg)))
            (List.filter (routes_to i) (sh_wal h))).
Proof.
  intros Hperm Hcfg Hops HQ HT Hnew Hrun.
  destruct (ops_from_new iter cfg ops) as (h0' & h' & As & V & Hnew' & Hrun' & Hinv & Hcl & _); try done.
  rewrite Hnew in Hnew'. injection Hnew' as <-. rewrite Hrun in Hrun'. injection Hrun' as <-.
  split_and!; try apply Hinv; [exact Hcl|]. intros i e He.
  destruct (Forall2_lookup_l _ _ _ _ _ (si_rep _ _ _ _ _ _ Hinv) He) as (A & HA & HR).
  rewrite (si_log _ _ _ _ _ _ Hinv), log_books_lookup in HA. apply fmap_Some in HA as (A0 & HA0 & ->).
  unfold new_books in HA0. rewrite list_lookup_fmap in HA0. apply fmap_Some in HA0 as (j & Hj & ->).
  apply lookup_seq in Hj as [-> _]. exact HR.
Qed.

(** C23. Replay is deterministic.  When no mark price was set, the log and the
    queue hold no liquidation and the sums of a run of that volume stay below
    2^63 ([sim_room]), replaying the log on a new harness reproduces the
    balance, the used margin and the frozen flag of every account, and
    [verify_account_states] reports no mismatch; the hash maps of the two runs
    may iterate in different orders. *)
Theorem sim_replay_exact iter1 iter2 cfg ops h0 h :
  (forall m, iter1 m ≡ₚ map_to_list m) -> (forall m, iter2 m ≡ₚ map_to_list m) -> sim_cfg_ok cfg -> Forall (op_ok cfg) ops ->
  sim_room cfg (ops_qty ops) -> 2 * ops_ticks ops + 10 < two64 -> Forall (fun op => op_marks op = false) ops ->
  SimHarness_new cfg = Val h0 -> sim_ops iter1 ops h0 = Val h -> no_liquidation (map sc_cmd (sh_wal h) ++ inbound h) ->
  verify_account_states iter2 cfg h (sh_wal h) = Val (Ok tt).
Proof.
  intros Hp1 Hp2 Hcfg Hops Hroom HT Hmarks Hnew Hrun Hno. assert (HQ : 2 * ops_qty ops < two63) by apply Hroom.
  assert (HT0 : 0 <= ops_ticks ops).
  { apply sumZ_nonneg, Forall_map. eapply Forall_impl; [exact Hops|]. intros o Ho. destruct o; simpl in *; lia. }
  destruct (ops_from_new iter1 cfg ops) as (h0' & h' & As & V & Hnew' & Hrun' & Hinv & _ & Hm); try done; [lia|].
  rewrite Hnew in Hnew'. injection Hnew' as <-. rewrite Hrun in Hrun'. injection Hrun' as <-.
  destruct (replay_same iter2 cfg _ _ _ _ h Hp2 Hcfg Hinv (Hm Hmarks) Hroom HT Hno) as (r' & h' & Hrep & Heq).
  unfold verify_account_states. rewrite Hrep. cbn [ebind]. destruct (si_risk _ _ _ _ _ _ Hinv).
  apply (compare_equal cfg); try done. apply ids_in_range.
Qed.

(** A chaos run always ends in a verdict.  Whatever the fault (a log
    truncated by any number of commands, a shard reset, none), the commands and
    marks injected and the order of the hash maps, [run_chaos] returns a
    result, with an error text exactly when the replay is not the original. *)
Theorem chaos_returns iter1 iter2 config ops :
  (forall m, iter1 m ≡ₚ map_to_list m) -> (forall m, iter2 m ≡ₚ map_to_list m) -> sim_cfg_ok (ch_sim_config config) ->
  Forall (op_ok (ch_sim_config config)) ops -> 2 * ops_qty ops < two63 -> 0 <= phase1_ticks config ->
  2 * (ops_ticks ops + phase1_ticks config) + 10 < two64 ->
  exists r, run_chaos iter1 iter2 config (sim_ops iter1 ops) = Val r /\ (replay_ok r = true <-> ch_error r = None).
Proof.
  intros Hp1 Hp2 Hcfg Hops HQ Hph HT. set (cfg := ch_sim_config config) in *.
  assert (HT0 : 0 <= ops_ticks ops).
  { apply sumZ_nonneg, Forall_map. eapply Forall_impl; [exact Hops|]. intros o Ho. destruct o; simpl in *; lia. }
  destruct (ops_from_new iter1 cfg ops) as (h0 & h & As & V & Hnew & Hrun & Hinv & _); try done; [lia|].
  unfold run_chaos. fold cfg. rewrite Hnew. cbn [ebind]. rewrite Hrun. cbn [ebind]. unfold sim_run.
  destruct (run_ticks_ok iter1 Hp1 cfg _ _ As V (Z.to_nat (phase1_ticks config)) h SimResult_default Hcfg Hinv)
    as (h' & r' & As' & V' & Hrun' & Hi' & _); [lia|done|].
  rewrite Hrun'. cbn [ebind]. destruct (inject_fault_sub (fault config) (sh_wal h')) as [k ->].
  destruct (verify_returns iter2 cfg _ _ _ _ h' k Hp2 Hcfg Hi') as [v ->]; [done|lia|]. cbn [ebind].
  destruct v as [u|e]; eexists; split; done.
Qed.
End SimFacts.
