(* ===== verification/SimScenarios.v ===== *)
(** * SimScenarios: the scenarios of crates/sim, evaluated

    scenarios/basic_fills.rs, liquidation.rs and snapshot_recovery.rs as
    programs over the harness: an [assert!] that fails panics, [println!] is
    left out.  They are run on the concrete arena of SlotMap.v, and so are the
    witnesses of SimTheorems.v. *)

From stdpp Require Import strings.
From S2P Require Import Prelude CoreTypes SlotMap OrderBook Seqlock Risk BookSpec BookMarket BookRep BookInv BookRefine BookTheorems.
From S2P Require Import Sim SimRisk SimCanon SimInit SimBooks SimSpec SimRun SimTheorems.
#[local] Open Scope Z_scope.

Section Scenarios.
Context {SM : SlotMapApi}.
Context (iter : gmap (Z * Z) Position -> list ((Z * Z) * Position)).

Definition assert_that (b : bool) : Exec unit := if b then Val tt else Panic.

(** 50,000 in fixed point, and the limit order the scenarios push. *)
Definition px : Z := 5000000000000.
Definition limit_order (account : Z) (side : Side) (qty : Z) : InboundCommand :=
  Inbound_NewOrder account 0 0 side px qty Limit Gtc.

Definition basic_fills_config : SimConfig :=
  mkSimConfig 1 2 1 (initial_balance SimConfig_default) (sim_snapshot_interval SimConfig_default) (px - 1000) 2000.

Definition basic_fills_run : Exec unit :=
  let! harness := SimHarness_new basic_fills_config in
  let harness := push_command (limit_order 0 Sell 100000000) harness in
  let harness := push_command (limit_order 1 Buy 100000000) harness in
  let harness := set_mark_price 0 px harness in
  let! '(result, harness) := sim_run iter 100 harness in
  let! _ := assert_that (commands_sequenced result =? 2) in
  let! _ := assert_that (trades_matched result =? 1) in
  let! _ := assert_that (liquidations result =? 0) in
  let! snap0 := account_snapshot 0 harness in
  let! _ := assert_that (negb (frozen snap0)) in
  let! snap1 := account_snapshot 1 harness in
  assert_that (negb (frozen snap1)).

Definition liquidation_config : SimConfig :=
  mkSimConfig 1 2 1 10000000000 (sim_snapshot_interval SimConfig_default) (px - 1000) 2000.

Definition liquidation_run : Exec unit :=
  let! harness := SimHarness_new liquidation_config in
  let harness := push_command (limit_order 1 Sell 1000000000) harness in
  let harness := push_command (limit_order 0 Buy 1000000000) harness in
  let harness := set_mark_price 0 px harness in
  let! '(result, harness) := sim_run iter 500 harness in
  let! _ := assert_that (trades_matched result =? 1) in
  let! _ := assert_that (1 <=? liquidations result) in
  let! snap0 := account_snapshot 0 harness in
  assert_that (frozen snap0).

Definition recovery_config : SimConfig :=
  mkSimConfig 1 2 1 (initial_balance SimConfig_default) (sim_snapshot_interval SimConfig_default)
    (book_tick_floor SimConfig_default) (book_num_ticks SimConfig_default).

(** The loop [for i in 0..n] of both recovery scenarios. *)
Definition push_alternating (n : nat) (harness : SimHarness) : SimHarness :=
  foldl (fun h i => push_command (limit_order (i mod 2) (if i mod 2 =? 0 then Buy else Sell) 100000000) h) harness
    (seqZ 0 (Z.of_nat n)).

Definition full_replay_run : Exec (SimResult * Result unit string) :=
  let! harness := SimHarness_new recovery_config in
  let harness := set_mark_price 0 px (push_alternating 10 harness) in
  let! '(result, harness) := sim_run iter 200 harness in
  let! v := verify_account_states iter recovery_config harness (sh_wal harness) in
  match v with Ok _ => Val (result, v) | Err _ => Panic end.

Definition truncated_wal_run : Exec ChaosResult :=
  run_chaos iter iter (ChaosConfig_new recovery_config 300 (TruncateWal 3))
    (fun harness => Val (set_mark_price 0 px (push_alternating 20 harness))).
End Scenarios.

(** ** The scenarios on the concrete arena *)

Module SimDemo.
Import GmapSlotMap.

Definition iter (m : gmap (Z * Z) Position) : list ((Z * Z) * Position) := map_to_list m.
Lemma iter_ok m : iter m ≡ₚ map_to_list m.
Proof. done. Qed.

Lemma basic_fills_passes : basic_fills_run iter = Val tt.
Proof. vm_compute. reflexivity. Qed.

Lemma liquidation_passes : liquidation_run iter = Val tt.
Proof. vm_compute. reflexivity. Qed.

(** The price lies outside the default ladder: every order is rejected, and
    the replay compares accounts that never traded. *)
Lemma full_replay_rejects_all :
  (let! '(r, v) := full_replay_run iter in Val (commands_sequenced r, trades_matched r, forallb (fun ev => match ev with Rejected _ _ _ _ RR_PriceOutOfRange => true | _ => false end) (sr_events r), v))
  = Val (10, 0, true, Ok tt).
Proof. vm_compute. reflexivity. Qed.

(** A mark price is not in the log: with a mark off the entry price the replay
    of an otherwise unchanged run differs. *)
Lemma replay_forgets_marks :
  (let! h := SimHarness_new basic_fills_config in
   let h := push_command (limit_order 1 Buy 100000000) (push_command (limit_order 0 Sell 100000000) h) in
   let! '(_, h) := sim_run iter 100 (set_mark_price 0 (px - 50) h) in
   verify_account_states iter basic_fills_config h (sh_wal h))
  = Val (Err "account 0 balance mismatch: orig=10000000000050 replay=10000000000000"%string).
Proof. vm_compute. reflexivity. Qed.

(** ** Witnesses: two symbols, four accounts in two shards *)

Definition cfg : SimConfig := mkSimConfig 2 4 2 1000000 3 100 8.
Definition order (account symbol : Z) (side : Side) (price qty : Z) : InboundCommand :=
  Inbound_NewOrder account 0 symbol side price qty Limit Gtc.
Definition ops : list SimOp :=
  [OpPush (order 0 0 Sell 103 300000000); OpPush (order 3 0 Buy 104 200000000); OpRun 2; OpTerm 2;
   OpPush (order 1 1 Buy 101 500000000); OpPush (order 2 1 Sell 101 100000000); OpPush (Inbound_Cancel 0 1); OpRun 10; OpDrain].
Definition value {A} (d : A) (m : Exec A) : A := match m with Val a => a | _ => d end.
Definition returned {A} (m : Exec A) : bool := match m with Val _ => true | _ => false end.
Lemma value_ok {A} (d : A) m : returned m = true -> m = Val (value d m).
Proof. by destruct m. Qed.

Definition h0 : SimHarness := value (mkHarness cfg (mkSimClock 0) 0 [] [] 0 [] [] [] [] ∅ (Table_new 0)) (SimHarness_new cfg).
Definition h1 : SimHarness := value h0 (sim_ops iter ops h0).

Lemma cfg_good : sim_cfg_ok cfg.
Proof. split; vm_compute; repeat split; congruence. Qed.
Lemma ops_good : Forall (op_ok cfg) ops.
Proof. repeat constructor; vm_compute; repeat split; congruence. Qed.
Lemma ops_small : 2 * ops_qty ops < two63.
Proof. vm_compute. reflexivity. Qed.
Lemma ops_short : ops_ticks ops < two64.
Proof. vm_compute. reflexivity. Qed.
Lemma h0_new : SimHarness_new cfg = Val h0.
Proof. apply value_ok. vm_compute. reflexivity. Qed.
Lemma h1_run : sim_ops iter ops h0 = Val h1.
Proof. apply value_ok. vm_compute. reflexivity. Qed.
Lemma sim_demo_room : sim_room cfg (ops_qty ops).
Proof. repeat split; vm_compute; congruence. Qed.
Lemma h1_quiet : no_liquidation (map sc_cmd (sh_wal h1) ++ inbound h1).
Proof. vm_compute. repeat constructor. Qed.

Lemma sim_zero_sum_witness :
  exists a b, SimHarness_new cfg = Val a /\ sim_ops iter ops a = Val b /\ total_net 0 (shards b) = 0.
Proof.
  destruct (sim_zero_sum iter cfg ops iter_ok cfg_good ops_good ops_small ops_short) as (a & b & Ha & Hb & _ & Hz).
  exists a, b. exact (conj Ha (conj Hb (Hz 0))).
Defined.

Lemma sim_books_follow_log_witness :
  client_cmds (map sc_cmd (sh_wal h1) ++ inbound h1) = ops_client ops /\ length (engines h1) = 2%nat.
Proof.
  destruct (sim_books_follow_log iter cfg ops h0 h1 iter_ok cfg_good ops_good ops_small ops_short h0_new h1_run) as (_ & H & Hl & _).
  exact (conj H Hl).
Defined.

Lemma sim_replay_exact_witness : verify_account_states iter cfg h1 (sh_wal h1) = Val (Ok tt).
Proof.
  exact (sim_replay_exact iter iter cfg ops h0 h1 iter_ok iter_ok cfg_good ops_good sim_demo_room ltac:(vm_compute; reflexivity)
    ltac:(repeat constructor) h0_new h1_run h1_quiet).
Defined.

Lemma chaos_returns_witness :
  exists r, run_chaos iter iter (ChaosConfig_new cfg 20 (TruncateWal 2)) (sim_ops iter ops) = Val r.
Proof.
  destruct (chaos_returns iter iter (ChaosConfig_new cfg 20 (TruncateWal 2)) ops iter_ok iter_ok cfg_good ops_good ops_small
    ltac:(vm_compute; congruence) ltac:(vm_compute; reflexivity)) as (r & H & _).
  exists r. exact H.
Defined.
End SimDemo.
