(* ===== verification/RiskLoop.v ===== *)
(** * RiskLoop: the thread of a risk shard

    [run_risk_shard] of crates/risk-engine/src/shard.rs: pop an event of the
    broadcast queue, process it, and spin each command it emits into the
    command queue.  The broadcast queue is that of RingBuffer.v, the command
    queue any [Fifo]; the threads at the other ends act between the accesses.
    The code loops for ever; [shard_loop] is its first [n] iterations. *)

From S2P Require Import Prelude CoreTypes SlotMap OrderBook BookSpec Seqlock RingBuffer Fifo Risk Sim SimRisk.
#[local] Open Scope Z_scope.

Section RiskLoop.
Context (hm_iter : gmap (Z * Z) Position -> list ((Z * Z) * Position)) (mark_prices : gmap Z Z).
Context (fanout_cap cmd_cap : nat) {Q : Type} {FQ : Fifo Q InboundCommand cmd_cap}.

Record ShardThread := mkThread {
  th_shard : RiskShard;
  th_inbound : Spmc.Queue (T := EngineEvent);
  th_out : Q
}.

(** The consumer of the command queue before the attempts of each push, and
    the producer of events before each pop. *)
Context (cmd_env : nat -> nat -> Q -> Q) (event_env : nat -> Spmc.Queue (T := EngineEvent) -> Spmc.Queue (T := EngineEvent)).
Context (fuel : nat).

Fixpoint push_commands (j : nat) (cmds : list InboundCommand) (q : Q) : Exec Q :=
  match cmds with
  | [] => Val q
  | cmd :: cmds => let! q := spin_push (cmd_env j) fuel 0 cmd q in push_commands (S j) cmds q
  end.

(** One turn of the loop, by the consumer [c] of the broadcast queue. *)
Definition shard_iteration (c j : nat) (th : ShardThread) : Exec ShardThread :=
  let! '(event, inbound) := Spmc.try_pop fanout_cap c (event_env j (th_inbound th)) in
  match event with
  | None => Val (mkThread (th_shard th) inbound (th_out th))
  | Some event =>
      let! '(shard, cmds) := process_event hm_iter (th_shard th) event mark_prices in
      let! out := push_commands j cmds (th_out th) in
      Val (mkThread shard inbound out)
  end.

Fixpoint shard_loop (c n j : nat) (th : ShardThread) : Exec ShardThread :=
  match n with
  | O => Val th
  | S n => let! th := shard_iteration c j th in shard_loop c n (S j) th
  end.

(** What the loop is for: the events one after the other. *)
Fixpoint process_all (sh : RiskShard) (events : list EngineEvent) : Exec (RiskShard * list InboundCommand) :=
  match events with
  | [] => Val (sh, [])
  | ev :: events =>
      let! '(sh, cmds) := process_event hm_iter sh ev mark_prices in
      let! '(sh, more) := process_all sh events in
      Val (sh, cmds ++ more)
  end.

(** ** The environment *)

(** The matching engine publishes the events of [evs] in order, and other
    consumers move; consumer [c] does not. *)
Definition publishes (c : nat) (evs : list EngineEvent) : Prop :=
  forall j q pu tps, Spmc.queue_inv fanout_cap q pu tps -> pu `prefix_of` evs ->
    exists pu' tps', Spmc.queue_inv fanout_cap (event_env j q) pu' tps' /\ tps' !! c = tps !! c
      /\ pu `prefix_of` pu' /\ pu' `prefix_of` evs.

Hypothesis Hfan : cap_ok fanout_cap.
Hypothesis Hcmd : (0 < cmd_cap)%nat.
Hypothesis Hcons : forall j, consumes (cmd_env j).
Context (b : nat).
Hypothesis Hdrain : forall j, drains (cmd_env j) b.
Hypothesis Hfuel : (b <= fuel)%nat.

Lemma push_commands_ok j cmds q pu k :
  fifo_hist q pu k -> exists q' k', push_commands j cmds q = Val q' /\ fifo_hist q' (pu ++ cmds) k'.
Proof.
  revert j q pu k. induction cmds as [|c cmds IH]; intros j q pu k Hq; cbn [push_commands].
  { exists q, k. by rewrite app_nil_r. }
  destruct (spin_push_leaves (cmd_env j) b fuel c q pu k) as [q1 Hs]; try done. rewrite Hs. cbn [ebind].
  destruct (spin_push_hist (cmd_env j) fuel 0 c q pu k q1) as [k1 Hk1]; try done.
  destruct (IH (S j) q1 _ _ Hk1) as (q2 & k2 & -> & Hq2). exists q2, k2. split; [done|]. by rewrite <- app_assoc in Hq2.
Qed.

Lemma process_all_app sh l1 l2 :
  process_all sh (l1 ++ l2)
  = let! '(sh, c1) := process_all sh l1 in let! '(sh, c2) := process_all sh l2 in Val (sh, c1 ++ c2).
Proof.
  revert sh. induction l1 as [|ev l1 IH]; intros sh; cbn [app process_all ebind].
  { destruct (process_all sh l2) as [[? ?]| |]; done. }
  destruct (process_event hm_iter sh ev mark_prices) as [[sh1 c1]| |]; cbn [ebind]; try done. rewrite IH.
  destruct (process_all sh1 l1) as [[sh2 c2]| |]; cbn [ebind]; try done.
  destruct (process_all sh2 l2) as [[sh3 c3]| |]; cbn [ebind]; try done. by rewrite app_assoc.
Qed.

(** A thread that has processed the first [k] events of [evs], [p] of which
    are published. *)
Record thread_inv (c : nat) (evs : list EngineEvent) (sh0 : RiskShard) (sent : list InboundCommand) (p k : nat) (th : ShardThread) : Prop := {
  ti_inbound : exists pu tps, Spmc.queue_inv fanout_cap (th_inbound th) pu tps /\ tps !! c = Some k /\ pu `prefix_of` evs /\ length pu = p;
  ti_out : exists cmds m, process_all sh0 (take k evs) = Val (th_shard th, cmds) /\ fifo_hist (th_out th) (sent ++ cmds) m
}.

Lemma iteration_ok c j evs sh0 sent p k th :
  publishes c evs -> thread_inv c evs sh0 sent p k th ->
  (forall ev, evs !! k = Some ev -> exists r, process_event hm_iter (th_shard th) ev mark_prices = Val r) ->
  exists th' p' k', shard_iteration c j th = Val th' /\ thread_inv c evs sh0 sent p' k' th' /\ (p <= p')%nat /\ (k <= k' <= S k)%nat
    /\ ((k < p)%nat -> k' = S k).
Proof.
  intros Hpub [(pu & tps & Hq & Hk & Hpre & <-) (cmds & m & Hall & Hout)] Hret. unfold shard_iteration.
  destruct (Hpub j (th_inbound th) pu tps Hq Hpre) as (pu1 & tps1 & Hq1 & Hk1 & Hp1 & Hp2). rewrite Hk in Hk1.
  apply prefix_length in Hp1. pose proof (Spmc.broadcast_pop_ok fanout_cap Hfan _ _ _ _ _ Hq1 Hk1) as Hpop.
  destruct (pu1 !! k) as [ev|] eqn:Ek.
  - destruct Hpop as (q2 & -> & Hq2). cbn [ebind].
    assert (He : evs !! k = Some ev) by (by eapply prefix_lookup_Some).
    destruct (Hret ev He) as [[sh1 cs] Hpe]. rewrite Hpe. cbn [ebind].
    destruct (push_commands_ok j cs (th_out th) _ _ Hout) as (out' & m' & -> & Hout'). cbn [ebind].
    eexists _, (length pu1), (S k). split; [done|]. split_and!; [|done|lia|lia|done]. split; cbn [th_shard th_inbound th_out].
    + exists pu1, (<[c := S k]> tps1). split_and!; try done. apply list_lookup_insert_eq. by eapply lookup_lt_Some.
    + exists (cmds ++ cs), m'. rewrite app_assoc. split; [|done].
      rewrite (take_S_r _ _ ev) by done. rewrite process_all_app, Hall. cbn [ebind process_all]. rewrite Hpe. cbn [ebind].
      by rewrite app_nil_r.
  - rewrite Hpop. cbn [ebind]. apply lookup_ge_None in Ek. eexists _, (length pu1), k. split; [done|]. split_and!; [|done|lia|lia|lia].
    split; cbn [th_shard th_inbound th_out]; eauto 10.
Qed.

Lemma traded_nonneg N evs : Forall (event_ok N) evs -> 0 <= traded evs.
Proof. intros H. apply sumZ_nonneg, Forall_map. eapply Forall_impl; [exact H|]. intros e He. destruct e; simpl in *; lia. Qed.

Lemma process_all_ok N V sh evs :
  shard_ok sh -> shard_pos_inv V sh -> 0 <= V -> Forall (event_ok N) evs -> V + 2 * traded evs < two63 ->
  exists sh' cmds, process_all sh evs = Val (sh', cmds) /\ shard_ok sh' /\ shard_pos_inv (V + 2 * traded evs) sh'.
Proof.
  intros Hok Hpos HV Hev. revert V sh Hok Hpos HV. induction Hev as [|ev evs He Hev IH]; intros V sh Hok Hpos HV HT.
  { exists sh, []. unfold traded. simpl. rewrite Z.add_0_r. done. }
  change (ev :: evs) with ([ev] ++ evs) in HT. rewrite traded_app in HT. unfold traded at 1 in HT. simpl in HT.
  pose proof (traded_nonneg N evs Hev). assert (0 <= ev_trade_qty ev) by (destruct ev; simpl in He |- *; lia).
  destruct (event_step hm_iter N sh mark_prices ev V) as (sh1 & c1 & Hrun & Hok1 & _ & Hpos1 & _); try done; [lia|].
  destruct (IH (V + 2 * ev_trade_qty ev) sh1) as (sh2 & c2 & Hrun2 & Hok2 & Hpos2); try done; [lia|lia|].
  exists sh2, (c1 ++ c2). cbn [process_all]. rewrite Hrun. cbn [ebind]. rewrite Hrun2. split_and!; try done.
  unfold traded in *. cbn [map sumZ]. by rewrite Z.mul_add_distr_l, Z.add_assoc.
Qed.

(** The next event of a thread can be processed. *)
Lemma next_event_returns N V c evs sh0 sent p k th ev :
  shard_ok sh0 -> shard_pos_inv V sh0 -> 0 <= V -> Forall (event_ok N) evs -> V + 2 * traded evs < two63 ->
  thread_inv c evs sh0 sent p k th -> evs !! k = Some ev -> exists r, process_event hm_iter (th_shard th) ev mark_prices = Val r.
Proof.
  intros Hok Hpos HV Hev HT [_ (cmds & m & Hall & _)] Hk.
  assert (Hsplit : evs = take k evs ++ [ev] ++ drop (S k) evs) by (symmetry; by apply take_drop_middle).
  rewrite Hsplit, !traded_app in HT. rewrite Hsplit in Hev. apply Forall_app in Hev as [Hev1 Hev]. apply Forall_app in Hev as [Hev2 Hev3].
  pose proof (traded_nonneg N _ Hev1). pose proof (traded_nonneg N _ Hev2). pose proof (traded_nonneg N _ Hev3).
  destruct (process_all_ok N V sh0 (take k evs)) as (sh' & cmds' & Hrun & Hok' & Hpos'); try done; [lia|].
  rewrite Hall in Hrun. injection Hrun as <- _. apply Forall_cons in Hev2 as [He _].
  destruct (event_step hm_iter N (th_shard th) mark_prices ev (V + 2 * traded (take k evs))) as (sh1 & c1 & Hr & _); try done; [|lia|eauto].
  unfold traded in *. simpl in *. lia.
Qed.

Lemma loop_inv N V c n j evs sh0 sent p k th :
  shard_ok sh0 -> shard_pos_inv V sh0 -> 0 <= V -> Forall (event_ok N) evs -> V + 2 * traded evs < two63 ->
  publishes c evs -> thread_inv c evs sh0 sent p k th ->
  exists th' p' k', shard_loop c n j th = Val th' /\ thread_inv c evs sh0 sent p' k' th' /\ (p <= p')%nat /\ (k <= k' <= k + n)%nat
    /\ (p `min` (k + n) <= k')%nat.
Proof.
  intros Hok Hpos HV Hev HT Hpub. revert j p k th. induction n as [|n IH]; intros j p k th Hinv; cbn [shard_loop].
  { exists th, p, k. split_and!; try done; lia. }
  destruct (iteration_ok c j evs sh0 sent p k th Hpub Hinv) as (th1 & p1 & k1 & -> & Hinv1 & Hp1 & Hk1 & Hprog).
  { intros ev Hk. by eapply next_event_returns. }
  cbn [ebind]. destruct (IH (S j) p1 k1 th1 Hinv1) as (th2 & p2 & k2 & Hrun2 & Hinv2 & Hp2 & Hk2 & Hprog2).
  exists th2, p2, k2. split_and!; try done; lia.
Qed.

(** C15. The risk thread misses nothing.  While the matching engine publishes
    the events [evs] in order (trades of the configured accounts with positive
    quantities and prices in range; twice their volume and the positions held
    stay below 2^63 together) and the sequencer drains the command queue, [n] turns of [run_risk_shard] return, process the first [k] events in order,
    each once, with [k] at least the number of events already published (or
    [n]), leave the shard as processing these events one after the other would,
    and put exactly the commands that emits on the command queue, in order:
    no liquidation is lost or reordered, however full that queue was. *)
Theorem risk_shard_loop_exact N V c n evs sh0 inb pu tps out sent m :
  shard_ok sh0 -> shard_pos_inv V sh0 -> 0 <= V -> Forall (event_ok N) evs -> V + 2 * traded evs < two63 ->
  publishes c evs -> Spmc.queue_inv fanout_cap inb pu tps -> tps !! c = Some 0%nat -> pu `prefix_of` evs ->
  fifo_hist out sent m ->
  exists th k cmds m', shard_loop c n 0 (mkThread sh0 inb out) = Val th /\ (length pu `min` n <= k <= n)%nat
    /\ process_all sh0 (take k evs) = Val (th_shard th, cmds) /\ fifo_hist (th_out th) (sent ++ cmds) m'.
Proof.
  intros Hok Hpos HV Hev HT Hpub Hq Hc Hpre Hout.
  destruct (loop_inv N V c n 0 evs sh0 sent (length pu) 0 (mkThread sh0 inb out)) as (th & p & k & Hrun & Hinv & _ & Hk & Hprog); try done.
  { split; [by exists pu, tps|]. exists [], m. rewrite app_nil_r. done. }
  destruct (ti_out _ _ _ _ _ _ _ Hinv) as (cmds & m' & Hall & Hout'). exists th, k, cmds, m'.
  split_and!; try done; lia.
Qed.
End RiskLoop.

(** ** Witness: one trade between two accounts of a shard *)

Module RiskLoopDemo.
Definition ev : EngineEvent := Trade 1 0 0 100 5 1 2 1 2 0 1 Sell 0 0.
Definition inb : Spmc.Queue (T := EngineEvent) := (Spmc.try_push 4 ev (Spmc.spmc_queue 4 1)).2.
#[local] Instance cap4_ok : CapOk 4 := Spsc.cap4.
Definition iter (m : gmap (Z * Z) Position) : list ((Z * Z) * Position) := map_to_list m.

Lemma inb_ok : Spmc.queue_inv 4 inb [ev] [0%nat].
Proof.
  split; try done.
  - intros tp ->%list_elem_of_singleton. simpl. lia.
  - intros n x tp _ _ Hx. destruct n as [|n]; [|done]. by injection Hx as <-.
Qed.

Lemma idle_publishes : publishes 4 (fun _ q => q) 0 [ev].
Proof. intros j q pu tps Hq Hpre. exists pu, tps. by split_and!. Qed.

Lemma sh_flat : shard_pos_inv 0 RiskDemo.sh.
Proof. intros a s. unfold pos_of. simpl. rewrite lookup_empty. by apply pos_inv_default. Qed.

Lemma risk_shard_loop_exact_witness :
  exists th k cmds m', shard_loop iter ∅ 4 4 (fun _ => pop_one) (fun _ q => q) 1 0 3 0
      (mkThread RiskDemo.sh inb (fifo_new : Spsc.Queue (T := InboundCommand))) = Val th /\ (1 <= k <= 3)%nat
    /\ process_all iter ∅ RiskDemo.sh (take k [ev]) = Val (th_shard th, cmds) /\ fifo_hist (th_out th) cmds m'.
Proof.
  exact (risk_shard_loop_exact iter ∅ 4 4 (fun _ => pop_one) (fun _ q => q) 1 Spsc.cap4 ltac:(lia) (fun _ => pop_one_consumes) 1
    (fun _ => pop_one_drains) ltac:(lia) 4 0 0 3 [ev] RiskDemo.sh inb [ev] [0%nat] fifo_new [] 0 RiskDemo.sh_ok sh_flat ltac:(lia)
    ltac:(constructor; [vm_compute; repeat split; congruence|constructor]) ltac:(vm_compute; reflexivity) idle_publishes inb_ok eq_refl
    ltac:(reflexivity) fifo_new_hist).
Defined.
End RiskLoopDemo.
