(* ===== verification/Bytes.v ===== *)
(** * Bytes: byte strings, little-endian fields and file regions

    A byte is a [Z] below 256 and a file or buffer is a list of bytes.  These
    are the standard-library operations the on-disk formats use:
    [to_le_bytes], [from_le_bytes], slices, [copy_from_slice] into a region,
    [File::set_len]. *)

From S2P Require Import Prelude.
#[local] Open Scope Z_scope.

Definition is_byte (b : Z) : Prop := 0 <= b < 256.

(** [x.to_le_bytes()] for an integer of [n] bytes. *)
Fixpoint le_bytes (n : nat) (z : Z) : list Z :=
  match n with O => [] | S n' => z mod 256 :: le_bytes n' (z / 256) end.

(** [uN::from_le_bytes(..)]. *)
Fixpoint le_value (l : list Z) : Z :=
  match l with [] => 0 | b :: r => b + 256 * le_value r end.

(** The slice [data[off..off + n]]. *)
Definition slice (off n : nat) (data : list Z) : list Z := take n (drop off data).

Definition le_at (off n : nat) (data : list Z) : Z := le_value (slice off n data).

(** [data[off..off + bs.len()].copy_from_slice(bs)]. *)
Definition splice {A} (off : nat) (bs data : list A) : list A :=
  take off data ++ bs ++ drop (off + length bs) data.

(** [file.set_len(n)]: cut, or extend with zeros. *)
Definition set_len (n : nat) (data : list Z) : list Z :=
  take n data ++ replicate (n - length data) 0.

Create HintDb bytes.
Create Rewrite HintDb bytes.

Lemma length_le_bytes n z : length (le_bytes n z) = n.
Proof. revert z. induction n; intros z; simpl; auto. Qed.

Lemma le_bytes_bytes n z : Forall is_byte (le_bytes n z).
Proof.
  revert z. induction n; intros z; simpl; constructor; auto. apply Z.mod_pos_bound. lia.
Qed.

Lemma le_value_bytes n z : 0 <= z < 256 ^ Z.of_nat n -> le_value (le_bytes n z) = z.
Proof.
  revert z. induction n as [|n IH]; intros z Hz; [simpl in *; lia|].
  cbn [le_bytes le_value]. rewrite Nat2Z.inj_succ, Z.pow_succ_r in Hz by lia.
  rewrite IH; [|split; [apply Z.div_pos; lia|apply Z.div_lt_upper_bound; lia]].
  pose proof (Z.div_mod z 256). lia.
Qed.

Lemma le_value_range l : Forall is_byte l -> 0 <= le_value l < 256 ^ Z.of_nat (length l).
Proof.
  induction 1 as [|b l Hb _ IH]; [simpl; lia|].
  cbn [le_value length]. rewrite Nat2Z.inj_succ, Z.pow_succ_r by lia. unfold is_byte in Hb. lia.
Qed.

(** Decoding then encoding a field of bytes is the identity too. *)
Lemma le_bytes_value l : Forall is_byte l -> le_bytes (length l) (le_value l) = l.
Proof.
  induction 1 as [|b l Hb _ IH]; [done|]. cbn [le_value length le_bytes]. unfold is_byte in Hb.
  rewrite (Z.mul_comm 256), Z.mod_add, Z.mod_small by lia.
  rewrite Z.div_add, Z.div_small by lia. by rewrite Z.add_0_l, IH.
Qed.

Lemma le_bytes_zero n : le_bytes n 0 = replicate n 0.
Proof.
  induction n as [|n IH]; [done|]. cbn [le_bytes replicate].
  change (0 / 256) with 0. change (0 mod 256) with 0. by rewrite IH.
Qed.

Lemma le_value_zeros n : le_value (replicate n 0) = 0.
Proof. induction n; simpl; lia. Qed.

(** A field is where the bytes before it end. *)
Lemma slice_mid pre mid post : slice (length pre) (length mid) (pre ++ mid ++ post) = mid.
Proof. unfold slice. by rewrite drop_app_length, take_app_length. Qed.

Lemma slice_at pre mid post off n :
  off = length pre -> n = length mid -> slice off n (pre ++ mid ++ post) = mid.
Proof. intros -> ->. apply slice_mid. Qed.

(** Reading at an offset past a known prefix is reading the rest. *)
Lemma slice_app_r pre data off n :
  slice (length pre + off) n (pre ++ data) = slice off n data.
Proof.
  unfold slice. rewrite drop_app_ge by lia. by rewrite Nat.add_comm, Nat.add_sub.
Qed.

Lemma le_at_app_r pre data off n : le_at (length pre + off) n (pre ++ data) = le_at off n data.
Proof. unfold le_at. by rewrite slice_app_r. Qed.

Lemma le_at_app_0 pre data n : le_at (length pre) n (pre ++ data) = le_at 0 n data.
Proof. rewrite <- (Nat.add_0_r (length pre)). apply le_at_app_r. Qed.

Lemma le_at_field pre n z post :
  0 <= z < 256 ^ Z.of_nat n -> le_at (length pre) n (pre ++ le_bytes n z ++ post) = z.
Proof.
  intros Hz. unfold le_at. rewrite <- (length_le_bytes n z) at 1. rewrite slice_mid. by apply le_value_bytes.
Qed.

(** Reading a field of a buffer laid out as a concatenation of fields: skip
    the fields before it, then read it. *)
Lemma slice_skip k z rest off n :
  (k <= off)%nat -> slice off n (le_bytes k z ++ rest) = slice (off - k) n rest.
Proof.
  intros Hk. rewrite <- (slice_app_r (le_bytes k z) rest (off - k) n), length_le_bytes.
  f_equal. lia.
Qed.

Lemma le_at_skip k z rest off n :
  (k <= off)%nat -> le_at off n (le_bytes k z ++ rest) = le_at (off - k) n rest.
Proof. intros Hk. unfold le_at. by rewrite slice_skip. Qed.

Lemma le_at_here n z rest : 0 <= z < 256 ^ Z.of_nat n -> le_at 0 n (le_bytes n z ++ rest) = z.
Proof. intros Hz. by apply (le_at_field []). Qed.

Lemma slice_here mid rest n : n = length mid -> slice 0 n (mid ++ rest) = mid.
Proof. intros ->. apply (slice_mid []). Qed.

Lemma length_slice off n data : (off + n <= length data)%nat -> length (slice off n data) = n.
Proof. intros. unfold slice. rewrite length_take, length_drop. lia. Qed.

Lemma splice_at {A} (pre old post bs : list A) :
  length bs = length old -> splice (length pre) bs (pre ++ old ++ post) = pre ++ bs ++ post.
Proof.
  intros Hl. unfold splice. rewrite take_app_length, Hl, (drop_app_add pre).
  by rewrite drop_app_length.
Qed.

Lemma length_splice {A} off (bs data : list A) :
  (off + length bs <= length data)%nat -> length (splice off bs data) = length data.
Proof. intros. unfold splice. rewrite !length_app, length_take, length_drop. lia. Qed.

Lemma length_set_len n data : length (set_len n data) = n.
Proof. unfold set_len. rewrite length_app, length_take, length_replicate. lia. Qed.

Lemma set_len_id data : set_len (length data) data = data.
Proof. unfold set_len. by rewrite firstn_all, Nat.sub_diag, app_nil_r. Qed.

#[export] Hint Rewrite length_le_bytes length_set_len : bytes.

(** Keep the bytes of a field folded. *)
#[global] Arguments le_bytes : simpl never.
#[global] Arguments le_value : simpl never.
#[global] Arguments slice : simpl never.
#[global] Arguments le_at : simpl never.
#[global] Arguments splice : simpl never.

Ltac skip_fields :=
  repeat (match goal with
  | |- context [slice ?off ?n (le_bytes ?k ?z ++ ?r)] => rewrite (slice_skip k z r off n) by lia
  | |- context [le_at ?off ?n (le_bytes ?k ?z ++ ?r)] => rewrite (le_at_skip k z r off n) by lia
  end; cbn [Nat.sub]).
