(* ===== verification/Utf8.v ===== *)
(** * Utf8: byte strings as text

    [std::str::from_utf8] as its documentation states it (well-formed
    sequences of one to four bytes, no surrogates, no overlong forms), the
    encoding of characters it accepts, and the ASCII text of a literal.  A
    [str] of the source is the encoding of its characters; the logger cuts
    such text at a byte position, which may lie inside a character. *)

From stdpp Require Import strings pretty.
From S2P Require Import Prelude Bytes.
#[local] Open Scope Z_scope.

(** The bytes of an ASCII literal and of a decimal number. *)
Definition text (s : string) : list Z := map (fun c => Z.of_N (Ascii.N_of_ascii c)) (String.list_ascii_of_string s).
Definition decimal (z : Z) : list Z := text (pretty z).

Lemma text_inj s t : text s = text t -> s = t.
Proof.
  revert t. induction s as [|c s IH]; intros [|d t]; try done. unfold text in *. simpl. intros [= Hc Ht].
  rewrite (IH t Ht). f_equal. apply N2Z.inj in Hc. by rewrite <- (Ascii.ascii_N_embedding c), Hc, Ascii.ascii_N_embedding.
Qed.

Lemma decimal_inj x y : decimal x = decimal y -> x = y.
Proof. unfold decimal. intros H%text_inj. by apply (inj pretty) in H. Qed.

Definition between (a b c : Z) : bool := (a <=? b) && (b <=? c).
Definition continuation (b : Z) : bool := between 128 b 191.

(** The second byte after a leading byte of a three- and of a four-byte form. *)
Definition second3 (b0 b1 : Z) : bool :=
  if b0 =? 224 then between 160 b1 191 else if b0 =? 237 then between 128 b1 159 else continuation b1.
Definition second4 (b0 b1 : Z) : bool :=
  if b0 =? 240 then between 144 b1 191 else if b0 =? 244 then between 128 b1 143 else continuation b1.

(** The rest after one well-formed character. *)
Definition utf8_step (bs : list Z) : option (list Z) :=
  match bs with
  | [] => None
  | b0 :: r =>
      if between 0 b0 127 then Some r
      else if between 194 b0 223 then
        match r with b1 :: r => if continuation b1 then Some r else None | _ => None end
      else if between 224 b0 239 then
        match r with b1 :: b2 :: r => if second3 b0 b1 && continuation b2 then Some r else None | _ => None end
      else if between 240 b0 244 then
        match r with b1 :: b2 :: b3 :: r => if second4 b0 b1 && continuation b2 && continuation b3 then Some r else None | _ => None end
      else None
  end.

Fixpoint utf8_run (fuel : nat) (bs : list Z) : bool :=
  match bs, fuel with
  | [], _ => true
  | _, O => false
  | _, S fuel => match utf8_step bs with Some r => utf8_run fuel r | None => false end
  end.

(** Whether [from_utf8] returns [Ok]. *)
Definition from_utf8 (bs : list Z) : bool := utf8_run (length bs) bs.

(** ** Characters *)

Definition scalar (c : Z) : Prop := 0 <= c < 55296 \/ 57344 <= c < 1114112.

Definition encode_char (c : Z) : list Z :=
  if c <? 128 then [c]
  else if c <? 2048 then [192 + c / 64; 128 + c mod 64]
  else if c <? 65536 then [224 + c / 4096; 128 + c / 64 mod 64; 128 + c mod 64]
  else [240 + c / 262144; 128 + c / 4096 mod 64; 128 + c / 64 mod 64; 128 + c mod 64].

Definition encode (cs : list Z) : list Z := concat (map encode_char cs).

(** A character boundary of the text at byte [n]. *)
Definition boundary (n : nat) (cs : list Z) : Prop := exists k, length (encode (take k cs)) = n.

Ltac zbool := repeat match goal with
  | |- context [?a <=? ?b] => destruct (Z.leb_spec a b); try lia
  | |- context [?a =? ?b] => destruct (Z.eqb_spec a b); try lia
  end.

(** The leading byte and the tail of an encoding. *)
Lemma cont_mod x : continuation (128 + x mod 64) = true.
Proof. pose proof (Z.mod_pos_bound x 64 ltac:(lia)). unfold continuation, between. zbool; done. Qed.

Lemma second3_ok c : 2048 <= c < 65536 -> scalar c -> second3 (224 + c / 4096) (128 + c / 64 mod 64) = true.
Proof.
  intros Hc Hs. unfold second3, scalar in *.
  assert (c / 64 = 64 * (c / 4096) + c / 64 mod 64).
  { rewrite (Z.div_mod (c / 64) 64) at 1 by lia. rewrite Z.div_div by lia. done. }
  pose proof (Z.div_mod c 64 ltac:(lia)). pose proof (Z.mod_pos_bound c 64 ltac:(lia)). pose proof (Z.mod_pos_bound (c / 64) 64 ltac:(lia)).
  unfold continuation, between. zbool; done.
Qed.

Lemma second4_ok c : 65536 <= c < 1114112 -> second4 (240 + c / 262144) (128 + c / 4096 mod 64) = true.
Proof.
  intros Hc. unfold second4.
  assert (c / 4096 = 64 * (c / 262144) + c / 4096 mod 64).
  { rewrite (Z.div_mod (c / 4096) 64) at 1 by lia. rewrite Z.div_div by lia. done. }
  pose proof (Z.div_mod c 4096 ltac:(lia)). pose proof (Z.mod_pos_bound c 4096 ltac:(lia)). pose proof (Z.mod_pos_bound (c / 4096) 64 ltac:(lia)).
  unfold continuation, between. zbool; done.
Qed.

(** What the validator does on a prefix of an encoded character: nothing
    shorter than the whole is accepted. *)
Lemma step_char c k r :
  scalar c -> (k = length (encode_char c) \/ (0 < k < length (encode_char c))%nat /\ r = []) ->
  utf8_step (take k (encode_char c) ++ r) = if decide (k = length (encode_char c)) then Some r else None.
Proof.
  intros Hs. unfold encode_char.
  destruct (Z.ltb_spec c 128) as [H1|H1]; [|destruct (Z.ltb_spec c 2048) as [H2|H2]; [|destruct (Z.ltb_spec c 65536) as [H3|H3]]].
  - simpl. intros [->|[? _]]; [|lia]. simpl. unfold between. unfold scalar in Hs. zbool; done.
  - assert (2 <= c / 64 < 32) by (split; [apply Z.div_le_lower_bound|apply Z.div_lt_upper_bound]; lia).
    simpl. intros [->|[? ->]]; [|destruct k as [|[|k]]; try lia]; simpl; rewrite ?cont_mod; unfold between; zbool; done.
  - assert (0 <= c / 4096 < 16) by (split; [apply Z.div_le_lower_bound|apply Z.div_lt_upper_bound]; lia).
    pose proof (second3_ok c ltac:(lia) Hs) as Hsec.
    simpl. intros [->|[? ->]]; [|destruct k as [|[|[|k]]]; try lia]; simpl; rewrite ?Hsec, ?cont_mod; unfold between; zbool; done.
  - assert (0 <= c / 262144 < 5) by (unfold scalar in Hs; split; [apply Z.div_le_lower_bound|apply Z.div_lt_upper_bound]; lia).
    pose proof (second4_ok c ltac:(unfold scalar in Hs; lia)) as Hsec.
    simpl. intros [->|[? ->]]; [|destruct k as [|[|[|[|k]]]]; try lia]; simpl; rewrite ?Hsec, ?cont_mod; unfold between; zbool; done.
Qed.

Lemma encode_char_nonempty c : (0 < length (encode_char c))%nat.
Proof. unfold encode_char. repeat case_match; simpl; lia. Qed.

Lemma utf8_run_char fuel c r :
  scalar c -> (length (encode_char c ++ r) <= fuel)%nat -> utf8_run fuel (encode_char c ++ r) = utf8_run (fuel - 1) r.
Proof.
  intros Hs Hf. pose proof (encode_char_nonempty c). rewrite length_app in Hf.
  assert (Hstep := step_char c (length (encode_char c)) r Hs (or_introl eq_refl)). rewrite firstn_all, decide_True in Hstep by done.
  destruct fuel as [|fuel]; [lia|]. destruct (encode_char c ++ r) as [|b bs] eqn:E; [by apply app_eq_nil in E as [E _]; rewrite E in H|].
  cbn [utf8_run]. rewrite Hstep. by rewrite Nat.sub_1_r.
Qed.

(** Valid text followed by [bs] is valid when [bs] is. *)
Lemma utf8_run_encode fuel cs bs :
  Forall scalar cs -> (length (encode cs ++ bs) <= fuel)%nat ->
  exists fuel', (length bs <= fuel')%nat /\ utf8_run fuel (encode cs ++ bs) = utf8_run fuel' bs.
Proof.
  intros Hcs. revert fuel. induction Hcs as [|c cs Hc _ IH]; intros fuel Hf; [by exists fuel|].
  unfold encode in *. cbn [map concat] in *. rewrite <- app_assoc in *. rewrite utf8_run_char by done.
  apply IH. pose proof (encode_char_nonempty c). rewrite length_app in Hf. lia.
Qed.

Lemma from_utf8_encode cs : Forall scalar cs -> from_utf8 (encode cs) = true.
Proof.
  intros Hcs. unfold from_utf8. destruct (utf8_run_encode (length (encode cs)) cs [] Hcs) as (f & _ & H); [by rewrite app_nil_r|].
  rewrite app_nil_r in H. rewrite H. by destruct f.
Qed.

Lemma from_utf8_partial cs c k :
  Forall scalar cs -> scalar c -> (0 < k < length (encode_char c))%nat -> from_utf8 (encode cs ++ take k (encode_char c)) = false.
Proof.
  intros Hcs Hc Hk. unfold from_utf8.
  destruct (utf8_run_encode _ cs (take k (encode_char c)) Hcs (le_n _)) as (f & Hf & ->).
  assert (Hstep := step_char c k [] Hc (or_intror (conj Hk eq_refl))). rewrite app_nil_r, decide_False in Hstep by lia.
  rewrite length_take in Hf. destruct f as [|f]; [lia|]. destruct (take k (encode_char c)) eqn:E; [|cbn [utf8_run]; by rewrite Hstep].
  apply (f_equal length) in E. rewrite length_take in E. simpl in E. lia.
Qed.

Lemma encode_app l1 l2 : encode (l1 ++ l2) = encode l1 ++ encode l2.
Proof. unfold encode. by rewrite map_app, concat_app. Qed.

(** Text cut at byte [n]: at a boundary a shorter text, otherwise a text and a
    piece of a character. *)
Lemma cut_cases cs n :
  (n <= length (encode cs))%nat ->
  (exists k, take n (encode cs) = encode (take k cs) /\ length (encode (take k cs)) = n)
  \/ (exists k c j, cs !! k = Some c /\ (0 < j < length (encode_char c))%nat /\ take n (encode cs) = encode (take k cs) ++ take j (encode_char c)
       /\ ~ boundary n cs).
Proof.
  revert n. induction cs as [|c cs IH]; intros n Hn.
  { left. exists 0%nat. simpl in *. destruct n; [done|lia]. }
  change (encode (c :: cs)) with (encode_char c ++ encode cs) in *. rewrite length_app in Hn.
  destruct (decide (n = 0)%nat) as [->|Hn0]; [left; by exists 0%nat|].
  destruct (decide (n < length (encode_char c))%nat) as [Hlt|Hge].
  - right. exists 0%nat, c, n. split_and!; try done; try lia.
    + simpl. rewrite take_app_le by lia. done.
    + intros [k Hk]. destruct k as [|k]; [simpl in Hk; lia|]. cbn [take] in Hk.
      change (encode (c :: take k cs)) with (encode_char c ++ encode (take k cs)) in Hk. rewrite length_app in Hk. lia.
  - destruct (IH (n - length (encode_char c))%nat ltac:(lia)) as [(k & Ht & Hl)|(k & d & j & Hd & Hj & Ht & Hnb)].
    + left. exists (S k). cbn [take]. change (encode (c :: take k cs)) with (encode_char c ++ encode (take k cs)).
      rewrite take_app_ge by lia. rewrite Ht, length_app. split; [done|lia].
    + right. exists (S k), d, j. split_and!; try done; try lia.
      * cbn [take]. change (encode (c :: take k cs)) with (encode_char c ++ encode (take k cs)). rewrite take_app_ge by lia.
        by rewrite Ht, app_assoc.
      * intros [i Hi]. apply Hnb. destruct i as [|i]; [simpl in Hi; lia|]. exists i. cbn [take] in Hi.
        change (encode (c :: take i cs)) with (encode_char c ++ encode (take i cs)) in Hi. rewrite length_app in Hi. lia.
Qed.

(** A cut is valid exactly at a boundary. *)
Lemma from_utf8_cut cs n :
  Forall scalar cs -> (n <= length (encode cs))%nat -> (from_utf8 (take n (encode cs)) = true <-> boundary n cs).
Proof.
  intros Hcs Hn. destruct (cut_cases cs n Hn) as [(k & -> & Hl)|(k & c & j & Hc & Hj & -> & Hnb)].
  - rewrite from_utf8_encode by (by apply Forall_take). split; [by exists k|done].
  - rewrite from_utf8_partial; [by split|by apply Forall_take| |done]. rewrite Forall_lookup in Hcs. by eapply Hcs.
Qed.
