(* ===== verification/Latency.v ===== *)
(** * Latency: the latency report of the order book

    crates/order-book/examples/latency_report.rs times [OrderBook::apply] on
    orders that rest and on orders that cross.  The clock and the core-affinity
    calls are arguments and the hdrhistogram crate is the class [Histogram];
    each recording loop also returns the events it hands to [black_box], so
    that the theorems can say what was timed: the insert phases time exactly
    their resting inserts, and the matching phases, whose prices lie above the
    ladder of [make_book], time nothing but rejections. *)

From stdpp Require Import strings.
From S2P Require Import Prelude CoreTypes SlotMap OrderBook BookSpec BookMarket BookRep BookInv BookRefine BookTheorems Utf8.
#[local] Open Scope list_scope.
#[local] Open Scope Z_scope.

Definition SYM : Z := 0.
Definition N_OPS : Z := 200000.
Definition WARMUP_OPS : Z := 20000.

(** The calls of [hdrhistogram::Histogram<u64>]; a quantile is named by the
    literal of the source. *)
Class Histogram (H E : Type) := {
  h_new_with_bounds : Z -> Z -> Z -> Result H E;
  h_record : Z -> H -> Result H E;
  h_len : H -> Z;
  h_min : H -> Z;
  h_max : H -> Z;
  h_value_at_quantile : string -> H -> Z
}.

(** What the crate documents: bounds [1 <= low], [2 * low <= high] and at most
    five digits are valid, and a histogram counts every value up to [high]. *)
Class HistogramLaws (H E : Type) `{!Histogram H E} := {
  h_tracks : Z -> H -> Prop;
  h_new_ok low high digits : 1 <= low -> 2 * low <= high -> 0 <= digits <= 5 ->
    exists h : H, h_new_with_bounds low high digits = Ok h /\ h_tracks high h /\ h_len h = 0;
  h_record_ok high (h : H) v : h_tracks high h -> 0 <= v <= high ->
    exists h', h_record v h = Ok h' /\ h_tracks high h' /\ h_len h' = h_len h + 1
}.

(** [Result::expect]. *)
Definition expect_ok {T E} (r : Result T E) : Exec T := match r with Ok t => Val t | Err _ => Panic end.

(** [core_affinity::get_core_ids] and [set_for_current]. *)
Definition try_pin_to_core {Core} (get_core_ids : option (list Core)) (set_for_current : Core -> bool)
    (core_id : nat) : bool :=
  match get_core_ids with
  | None => false
  | Some cores => match cores !! core_id with Some core => set_for_current core | None => false end
  end.

Definition seq_cmd (seq : Z) (cmd : InboundCommand) : SequencedCommand := mkSC 1 seq (wrap_u64 (seq * 1000)) cmd.

Definition new_limit (seq account : Z) (side : Side) (price qty : Z) : SequencedCommand :=
  seq_cmd seq (Inbound_NewOrder account 0 SYM side price qty Limit Gtc).

(** [{:>8}]. *)
Definition right8 (n : Z) : list Z := let d := decimal n in replicate (8 - length d) 32 ++ d.

(** [t0.elapsed().as_nanos() as u64 / iters]. *)
Definition instant_overhead_ns (elapsed : Z) : Z := wrap_u64 elapsed / 100000.

Section Report.
Context {SM : SlotMapApi} {H E : Type} `{!Histogram H E}.

Definition make_book (capacity : Z) : OrderBook :=
  OrderBook_new (mkBookConfig SYM 1 (Z.to_nat 400000) (Z.to_nat capacity)).

Definition new_histogram : Exec H := expect_ok (h_new_with_bounds 1 10000000 3).

(** One timed [apply]: the clock says [elapsed]; the events are those the
    program hands to [black_box]. *)
Definition timed (elapsed : Z) (book : OrderBook) (hist : H) (cmd : SequencedCommand) :
    Exec (OrderBook * H * list EngineEvent) :=
  let! '(book, events) := apply book cmd in
  let! hist := expect_ok (h_record (wrap_u64 elapsed) hist) in
  Val (book, hist, events).

(** [for i in 0..n], [i] counting from [i0]. *)
Fixpoint record_inserts_from (elapsed : nat -> Z) (book : OrderBook) (hist : H) (seq_start : Z) (i0 n : nat) :
    Exec (OrderBook * H * list (list EngineEvent)) :=
  match n with
  | O => Val (book, hist, [])
  | S n' =>
      let seq := seq_start + Z.of_nat i0 in
      let! '(book, hist, events) := timed (elapsed i0) book hist (new_limit seq 1 Buy seq 10) in
      let! '(book, hist, rest) := record_inserts_from elapsed book hist seq_start (S i0) n' in
      Val (book, hist, events :: rest)
  end.
Definition record_inserts (elapsed : nat -> Z) (book : OrderBook) (hist : H) (seq_start n : Z) :=
  record_inserts_from elapsed book hist seq_start 0 (Z.to_nat n).

Fixpoint record_matches_from (elapsed : nat -> Z) (book : OrderBook) (hist : H) (seq_start : Z) (i0 n : nat) :
    Exec (OrderBook * H * list (list EngineEvent)) :=
  match n with
  | O => Val (book, hist, [])
  | S n' =>
      let seq := seq_start + Z.of_nat i0 * 2 in
      let price := 500000000 + Z.rem (Z.of_nat i0) 300000 in
      let! '(book, _) := apply book (new_limit seq 1 Sell price 10) in
      let! '(book, hist, events) := timed (elapsed i0) book hist (new_limit (seq + 1) 2 Buy price 10) in
      let! '(book, hist, rest) := record_matches_from elapsed book hist seq_start (S i0) n' in
      Val (book, hist, events :: rest)
  end.
Definition record_matches (elapsed : nat -> Z) (book : OrderBook) (hist : H) (seq_start n : Z) :=
  record_matches_from elapsed book hist seq_start 0 (Z.to_nat n).

(** The lines of [print_report]. *)
Definition print_report (label : string) (hist : H) : list (list Z) :=
  [text "--- " ++ text label ++ text " ---";
   text "  count:    " ++ decimal (h_len hist);
   text "  min:      " ++ right8 (h_min hist) ++ text " ns";
   text "  p50:      " ++ right8 (h_value_at_quantile "0.50" hist) ++ text " ns";
   text "  p90:      " ++ right8 (h_value_at_quantile "0.90" hist) ++ text " ns";
   text "  p99:      " ++ right8 (h_value_at_quantile "0.99" hist) ++ text " ns";
   text "  p99.9:    " ++ right8 (h_value_at_quantile "0.999" hist) ++ text " ns";
   text "  p99.99:   " ++ right8 (h_value_at_quantile "0.9999" hist) ++ text " ns";
   text "  max:      " ++ right8 (h_max hist) ++ text " ns";
   []].

(** The two blocks of [main] for one kind of operation: from the first
    operation on, and after discarded ones.  [warm_start] is the sequence
    number the measured operations start at. *)
Definition Recorder : Type :=
  (nat -> Z) -> OrderBook -> H -> Z -> Z -> Exec (OrderBook * H * list (list EngineEvent)).

Definition cold_phase (record : Recorder) (elapsed : nat -> Z) (capacity : Z) (label : string) :
    Exec (list (list Z) * list (list EngineEvent)) :=
  let book := make_book capacity in
  let! hist := new_histogram in
  let! '(_, hist, events) := record elapsed book hist 1 N_OPS in
  Val (print_report label hist, events).

Definition warm_phase (record : Recorder) (warmup elapsed : nat -> Z) (capacity warm_start : Z) (label : string) :
    Exec (list (list Z) * list (list EngineEvent)) :=
  let book := make_book capacity in
  let! warmup_hist := new_histogram in
  let! '(book, _, _) := record warmup book warmup_hist 1 WARMUP_OPS in
  let! hist := new_histogram in
  let! '(_, hist, events) := record elapsed book hist warm_start N_OPS in
  Val (print_report label hist, events).

(** The clock of each loop of the program, and of the last measurement. *)
Record Clock := mkClock {
  ck_cold_inserts : nat -> Z; ck_warmup_inserts : nat -> Z; ck_warm_inserts : nat -> Z;
  ck_cold_matches : nat -> Z; ck_warmup_matches : nat -> Z; ck_warm_matches : nat -> Z;
  ck_overhead : Z
}.

(** The lines [main] prints, and the events timed by its four phases. *)
Definition main (pinned : bool) (ck : Clock) : Exec (list (list Z) * list (list (list EngineEvent))) :=
  let! '(out1, t1) := cold_phase record_inserts (ck_cold_inserts ck) (2 * N_OPS) "insert: COLD (no warmup)" in
  let! '(out2, t2) := warm_phase record_inserts (ck_warmup_inserts ck) (ck_warm_inserts ck)
                        (2 * (N_OPS + WARMUP_OPS)) (WARMUP_OPS + 1) "insert: WARM (after 20k discarded ops)" in
  let! '(out3, t3) := cold_phase record_matches (ck_cold_matches ck) (4 * N_OPS)
                        "match (single-fill cross): COLD (no warmup)" in
  let! '(out4, t4) := warm_phase record_matches (ck_warmup_matches ck) (ck_warm_matches ck)
                        (4 * (N_OPS + WARMUP_OPS)) (WARMUP_OPS * 2 + 1)
                        "match (single-fill cross): WARM (after 20k discarded ops)" in
  Val ([text "core pinning: " ++ (if pinned then text "pinned to core 0"
                                  else text "NOT pinned (unavailable on this machine/OS)"); []]
         ++ out1 ++ out2 ++ out3 ++ out4
         ++ [text "NOTE: p50/mean here include ~" ++ decimal (instant_overhead_ns (ck_overhead ck))
               ++ text "ns of Instant::now() call overhead"],
       [t1; t2; t3; t4]).
End Report.

(** ** What the recording loops time *)

Section Facts.
Context {SM : SlotMapApi} {SML : SlotMapLaws SM}.

(** A resting insert above every other bid, and a rejected order. *)
Definition inserted (seq : Z) : list EngineEvent :=
  [Accepted seq seq (wrap_u64 (seq * 1000)) SYM 1 0 Buy seq 10; BookTop seq SYM (Some seq) None].
Definition refused (seq account : Z) : list EngineEvent := [Rejected seq seq account 0 RR_PriceOutOfRange].

(** Only bids, the last of price and sequence number [last], and room for
    [room] more. *)
Definition bids_up (b : OrderBook) (room : nat) (last : Z) : Prop :=
  exists A, rep b A /\ abook_ok A /\ ab_asks A = [] /\ ab_floor A = 1 /\ ab_ticks A = Z.to_nat 400000
    /\ Forall (fun o => a_price o <= last /\ a_seq o <= last) (ab_bids A)
    /\ (length (ab_bids A) + room <= ab_capacity A)%nat.

Lemma insert_top o l :
  Forall (fun x => a_price x < a_price o) l -> spec_insert Buy o l = o :: l.
Proof. destruct l as [|x l]; [done|]. intros [Hx _]%Forall_cons. simpl. by rewrite (proj2 (Z.leb_gt _ _)). Qed.

Lemma spec_insert_top A last seq :
  ab_asks A = [] -> ab_floor A = 1 -> ab_ticks A = Z.to_nat 400000 ->
  Forall (fun o => a_price o <= last /\ a_seq o <= last) (ab_bids A) -> (length (ab_bids A) < ab_capacity A)%nat ->
  0 <= last < seq -> seq <= 400000 ->
  spec_apply A (new_limit seq 1 Buy seq 10)
    = (mkABook (mkAOrder seq 1 10 Buy seq seq :: ab_bids A) [] 1 (Z.to_nat 400000) (ab_capacity A), inserted seq).
Proof.
  intros Ha Hf Ht Hb Hroom Hl Hs. destruct A as [bids asks fl tk cp]. simpl in *. subst asks fl tk.
  unfold spec_apply, new_limit, spec_new_order, in_range. cbn [seq_cmd sc_cmd sc_seq sc_ts_ns ab_floor ab_ticks].
  rewrite Z2Nat.id, (proj2 (Z.leb_le 1 seq)), (proj2 (Z.ltb_lt seq _)) by lia. simpl.
  rewrite (proj2 (Nat.leb_gt _ _)) by (unfold ab_all; simpl; rewrite app_nil_r; lia). unfold ab_all. simpl.
  rewrite insert_top by (eapply Forall_impl; [done|]; simpl; lia). done.
Qed.

Lemma insert_step b room last seq :
  bids_up b (S room) last -> 0 <= last < seq -> seq <= 400000 ->
  exists b', apply b (new_limit seq 1 Buy seq 10) = Val (b', inserted seq) /\ bids_up b' room seq.
Proof.
  intros (A & HR & HA & Ha & Hf & Ht & Hb & Hc) Hl Hs.
  assert (Hfresh : seq_fresh A seq).
  { unfold seq_fresh, ab_all. rewrite Ha, app_nil_r. eapply Forall_impl; [done|]. simpl. lia. }
  assert (Hok : cmd_ok (new_limit seq 1 Buy seq 10)) by (split; [unfold in_i64, two63|unfold in_u64, two64]; lia).
  destruct (apply_ok b A (new_limit seq 1 Buy seq 10) HR HA Hfresh Hok) as (b' & Hap & HR').
  pose proof (spec_apply_ok A (new_limit seq 1 Buy seq 10) HA Hfresh Hok) as HA'.
  rewrite (spec_insert_top A last seq) in Hap, HR', HA' by (done || lia).
  exists b'. split; [done|]. eexists. split_and!; [exact HR'|done|done|done|done| |simpl; lia].
  simpl. apply Forall_cons. split; [simpl; lia|]. eapply Forall_impl; [done|]. simpl. lia.
Qed.

Lemma capacity_ge cfg : (cfg_arena_capacity cfg <= sm_capacity (ob_arena (OrderBook_new cfg)) \/ cfg_arena_capacity cfg = 0)%nat.
Proof.
  destruct (decide (cfg_arena_capacity cfg = 0%nat)); [by right|left]. unfold OrderBook_new.
  set (a := sm_with_capacity (V := RestingOrder) _). set (o := RestingOrder_new _ _ _ _ _ _).
  assert (Hc : (cfg_arena_capacity cfg <= sm_capacity a)%nat) by apply sm_capacity_with.
  assert (Hlen : sm_len a = 0%nat).
  { rewrite (sm_len_keys a []); [done|constructor|]. intros k. unfold a. rewrite sm_view_empty, lookup_empty.
    split; [by intros ?%elem_of_nil|by intros [? ?]]. }
  pose proof (sm_capacity_insert a o ltac:(lia)) as Hi. destruct (sm_insert a o) as [k a1]. simpl in Hi.
  pose proof (sm_capacity_remove a1 k) as Hr. destruct (sm_remove a1 k) as [? a2]. simpl in *. lia.
Qed.

Lemma make_book_cfg_ok capacity : cfg_ok (mkBookConfig SYM 1 (Z.to_nat 400000) (Z.to_nat capacity)).
Proof. unfold cfg_ok, in_i64, two63. cbn [cfg_tick_floor cfg_num_ticks]. rewrite Z2Nat.id by lia. lia. Qed.

Lemma make_book_bids_up capacity : 0 < capacity -> bids_up (make_book capacity) (Z.to_nat capacity) 0.
Proof.
  intros Hc. eexists. split_and!; [apply OrderBook_new_rep, make_book_cfg_ok|apply new_abook_ok|done|done|done|constructor|].
  pose proof (capacity_ge (mkBookConfig SYM 1 (Z.to_nat 400000) (Z.to_nat capacity))) as Hg.
  cbn [cfg_arena_capacity] in Hg. cbn [new_abook ab_bids ab_capacity length]. lia.
Qed.

(** A limit order above the ladder is refused and leaves the book alone. *)
Lemma above_ladder_refused b account side seq price :
  ob_tick_floor b = 1 -> length (ob_bids b) = Z.to_nat 400000 -> 400001 <= price < 2 ^ 62 ->
  apply b (new_limit seq account side price 10) = Val (b, refused seq account).
Proof.
  intros Hf Hl Hp. unfold apply, new_limit, apply_new_order. cbn [seq_cmd sc_cmd sc_seq sc_ts_ns].
  replace (price_to_idx b price) with (@None nat); [done|].
  unfold price_to_idx. rewrite Hf, Hl, Z2Nat.id by lia. unfold Price.checked_sub, checked_sub_i64.
  case_decide; [|done]. rewrite (proj2 (Z.ltb_ge _ _)), (proj2 (Z.leb_le _ _)) by lia. done.
Qed.

(** ** The loops *)

Context {H E : Type} `{!Histogram H E} {HL : HistogramLaws H E}.

(** No operation takes longer than the ten milliseconds the histogram holds. *)
Definition in_bounds (elapsed : nat -> Z) : Prop := forall i, 0 <= elapsed i <= 10000000.

Lemma new_histogram_ok : exists h : H, new_histogram = Val h /\ h_tracks 10000000 h /\ h_len h = 0.
Proof.
  destruct (h_new_ok (H := H) 1 10000000 3) as (h & Hn & Ht & Hl); [lia..|]. exists h. unfold new_histogram. by rewrite Hn.
Qed.

Lemma timed_ok e b (h : H) cmd b' evs :
  0 <= e <= 10000000 -> h_tracks 10000000 h -> apply b cmd = Val (b', evs) ->
  exists h', timed e b h cmd = Val (b', h', evs) /\ h_tracks 10000000 h' /\ h_len h' = h_len h + 1.
Proof.
  intros He Ht Hap. unfold timed. rewrite Hap. simpl.
  destruct (h_record_ok 10000000 h (wrap_u64 e) Ht) as (h' & Hr & Ht' & Hl'); [unfold wrap_u64, two64; rewrite Z.mod_small; lia|].
  exists h'. rewrite Hr. done.
Qed.

Lemma inserts_ok elapsed start room n : in_bounds elapsed -> forall i0 b (h : H),
  bids_up b (n + room) (start + Z.of_nat i0 - 1) -> h_tracks 10000000 h ->
  1 <= start -> start + Z.of_nat (i0 + n) <= 400001 ->
  exists b' h', record_inserts_from elapsed b h start i0 n
      = Val (b', h', map (fun i => inserted (start + Z.of_nat i)) (seq i0 n))
    /\ bids_up b' room (start + Z.of_nat (i0 + n) - 1) /\ h_tracks 10000000 h' /\ h_len h' = h_len h + Z.of_nat n.
Proof.
  intros He. induction n as [|n IH]; intros i0 b h Hb Ht Hs Hn; cbn [record_inserts_from seq map].
  - exists b, h. rewrite Nat.add_0_r, Z.add_0_r. done.
  - destruct (insert_step b (n + room) _ (start + Z.of_nat i0) Hb) as (b1 & Hap & Hb1); [lia..|].
    destruct (timed_ok (elapsed i0) b h _ _ _ (He i0) Ht Hap) as (h1 & -> & Ht1 & Hl1). cbn [ebind].
    destruct (IH (S i0) b1 h1) as (b2 & h2 & -> & Hb2 & Ht2 & Hl2); [|done|done|lia|].
    { replace (start + Z.of_nat (S i0) - 1) with (start + Z.of_nat i0) by lia. done. }
    exists b2, h2. rewrite Nat.add_succ_comm in Hb2. split_and!; [done|done|done|lia].
Qed.

(** The ladder of [make_book]. *)
Definition ladder400k (b : OrderBook) : Prop := ob_tick_floor b = 1 /\ length (ob_bids b) = Z.to_nat 400000.

Lemma make_book_ladder capacity : ladder400k (make_book capacity).
Proof. unfold ladder400k, make_book, OrderBook_new. repeat case_match. cbn [ob_tick_floor ob_bids cfg_num_ticks]. by rewrite length_replicate. Qed.

Lemma matches_ok elapsed start n : in_bounds elapsed -> forall i0 b (h : H),
  ladder400k b -> h_tracks 10000000 h ->
  exists h', record_matches_from elapsed b h start i0 n
      = Val (b, h', map (fun i => refused (start + Z.of_nat i * 2 + 1) 2) (seq i0 n))
    /\ h_tracks 10000000 h' /\ h_len h' = h_len h + Z.of_nat n.
Proof.
  intros He. induction n as [|n IH]; intros i0 b h [Hf Hl] Ht; cbn [record_matches_from seq map].
  - exists h. rewrite Z.add_0_r. done.
  - assert (Hp : 400001 <= 500000000 + Z.rem (Z.of_nat i0) 300000 < 2 ^ 62).
    { pose proof (Z.rem_bound_pos (Z.of_nat i0) 300000). lia. }
    rewrite (above_ladder_refused b) by done. cbn [ebind].
    destruct (timed_ok (elapsed i0) b h _ _ _ (He i0) Ht (above_ladder_refused b 2 Buy (start + Z.of_nat i0 * 2 + 1) _ Hf Hl Hp)) as (h1 & -> & Ht1 & Hl1).
    cbn [ebind]. destruct (IH (S i0) b h1) as (h2 & -> & Ht2 & Hl2); [done|done|].
    exists h2. split_and!; [done|done|lia].
Qed.

(** ** The phases of [main] *)

(** [n] orders timed from the sequence number [start] on. *)
Definition timed_inserts (start n : Z) : list (list EngineEvent) :=
  map (fun i => inserted (start + Z.of_nat i)) (seq 0 (Z.to_nat n)).
Definition timed_refusals (start n : Z) : list (list EngineEvent) :=
  map (fun i => refused (start + Z.of_nat i * 2 + 1) 2) (seq 0 (Z.to_nat n)).

Lemma record_inserts_ok elapsed b (h : H) start n room :
  in_bounds elapsed -> bids_up b (Z.to_nat n + room) (start - 1) -> h_tracks 10000000 h ->
  1 <= start -> 0 <= n -> start + n <= 400001 ->
  exists b' h', record_inserts elapsed b h start n = Val (b', h', timed_inserts start n)
    /\ bids_up b' room (start + n - 1) /\ h_len h' = h_len h + n.
Proof.
  intros He Hb Ht Hs Hn Hm.
  destruct (inserts_ok elapsed start room (Z.to_nat n) He 0 b h) as (b' & h' & Hr & Hb' & _ & Hl); [|done|done|lia|].
  { by rewrite Z.add_0_r. }
  rewrite Nat.add_0_l, Z2Nat.id in Hb' by lia. rewrite Z2Nat.id in Hl by lia. by exists b', h'.
Qed.

Lemma record_matches_ok elapsed b (h : H) start n :
  in_bounds elapsed -> ladder400k b -> h_tracks 10000000 h -> 0 <= n ->
  exists h', record_matches elapsed b h start n = Val (b, h', timed_refusals start n) /\ h_len h' = h_len h + n.
Proof.
  intros He Hb Ht Hn. destruct (matches_ok elapsed start (Z.to_nat n) He 0 b h Hb Ht) as (h' & Hr & _ & Hl).
  rewrite Z2Nat.id in Hl by lia. by exists h'.
Qed.

(** The report is printed, its four histograms hold [N_OPS] measurements each;
    the insert phases timed [N_OPS] resting inserts, and both matching phases
    timed [N_OPS] refusals of an order priced above the ladder: no order of
    the report ever trades. *)
Theorem latency_report_times pinned ck :
  in_bounds (ck_cold_inserts ck) -> in_bounds (ck_warmup_inserts ck) -> in_bounds (ck_warm_inserts ck) ->
  in_bounds (ck_cold_matches ck) -> in_bounds (ck_warmup_matches ck) -> in_bounds (ck_warm_matches ck) ->
  exists h1 h2 h3 h4 : H,
    main pinned ck = Val
      ([text "core pinning: " ++ (if pinned then text "pinned to core 0"
                                  else text "NOT pinned (unavailable on this machine/OS)"); []]
         ++ print_report "insert: COLD (no warmup)" h1 ++ print_report "insert: WARM (after 20k discarded ops)" h2
         ++ print_report "match (single-fill cross): COLD (no warmup)" h3
         ++ print_report "match (single-fill cross): WARM (after 20k discarded ops)" h4
         ++ [text "NOTE: p50/mean here include ~" ++ decimal (instant_overhead_ns (ck_overhead ck))
               ++ text "ns of Instant::now() call overhead"],
       [timed_inserts 1 N_OPS; timed_inserts (WARMUP_OPS + 1) N_OPS;
        timed_refusals 1 N_OPS; timed_refusals (WARMUP_OPS * 2 + 1) N_OPS])
    /\ Forall (fun h => h_len h = N_OPS) [h1; h2; h3; h4].
Proof.
  intros H1 H2 H3 H4 H5 H6. destruct new_histogram_ok as (h0 & Hn & Ht & Hl).
  destruct (record_inserts_ok _ (make_book (2 * N_OPS)) h0 1 N_OPS (Z.to_nat N_OPS) H1) as (b1 & h1 & R1 & _ & L1);
    [rewrite <- Z2Nat.inj_add by done; by apply make_book_bids_up|done|done..|].
  destruct (record_inserts_ok _ (make_book (2 * (N_OPS + WARMUP_OPS))) h0 1 WARMUP_OPS
    (Z.to_nat (2 * N_OPS + WARMUP_OPS)) H2) as (b2 & h2' & R2' & B2 & _);
    [rewrite <- Z2Nat.inj_add by done; by apply make_book_bids_up|done|done..|].
  destruct (record_inserts_ok _ b2 h0 (WARMUP_OPS + 1) N_OPS (Z.to_nat (N_OPS + WARMUP_OPS)) H3) as (b3 & h2 & R2 & _ & L2);
    [rewrite <- Z2Nat.inj_add by done; exact B2|done|done..|].
  destruct (record_matches_ok _ (make_book (4 * N_OPS)) h0 1 N_OPS H4) as (h3 & R3 & L3); [apply make_book_ladder|done..|].
  destruct (record_matches_ok _ (make_book (4 * (N_OPS + WARMUP_OPS))) h0 1 WARMUP_OPS H5) as (h4' & R4' & _);
    [apply make_book_ladder|done..|].
  destruct (record_matches_ok _ (make_book (4 * (N_OPS + WARMUP_OPS))) h0 (WARMUP_OPS * 2 + 1) N_OPS H6) as (h4 & R4 & L4);
    [apply make_book_ladder|done..|].
  exists h1, h2, h3, h4. split; [|rewrite Hl in L1, L2, L3, L4; by repeat constructor].
  unfold main, cold_phase, warm_phase. rewrite Hn. cbn [ebind].
  rewrite R1. cbn [ebind]. rewrite R2'. cbn [ebind]. rewrite R2. cbn [ebind].
  rewrite R3. cbn [ebind]. rewrite R4'. cbn [ebind]. rewrite R4. cbn [ebind]. reflexivity.
Qed.
End Facts.

(** ** A concrete histogram *)

Module ListHistogram.
Record t := mk { high : Z; values : list Z }.

#[export] Instance list_histogram : Histogram t unit := {|
  h_new_with_bounds low hi digits :=
    if (1 <=? low) && (2 * low <=? hi) && (0 <=? digits) && (digits <=? 5) then Ok (mk hi []) else Err tt;
  h_record v h := if v <=? high h then Ok (mk (high h) (v :: values h)) else Err tt;
  h_len h := Z.of_nat (length (values h));
  h_min h := foldr Z.min (high h) (values h);
  h_max h := foldr Z.max 0 (values h);
  h_value_at_quantile _ h := foldr Z.max 0 (values h)
|}.

#[export, refine] Instance list_histogram_laws : HistogramLaws t unit := {| h_tracks hi h := high h = hi |}.
Proof.
  - intros low hi digits H1 H2 [H3 H4]. simpl.
    rewrite !(proj2 (Z.leb_le _ _)) by lia. by exists (mk hi []).
  - intros hi h v Hh [_ Hv]. simpl. rewrite (proj2 (Z.leb_le _ _)) by lia.
    eexists. split_and!; [done|done|simpl; lia].
Defined.
End ListHistogram.

Module LatencyDemo.
Import ListHistogram GmapSlotMap.

Definition clock : Clock :=
  mkClock (fun _ => 120) (fun _ => 150) (fun _ => 90) (fun _ => 60) (fun _ => 60) (fun _ => 60) 2500000.

Lemma latency_report_times_witness :
  exists out timed, main (H := ListHistogram.t) false clock = Val (out, timed) /\ timed !! 2%nat = Some (timed_refusals 1 N_OPS).
Proof.
  destruct (latency_report_times (H := ListHistogram.t) false clock) as (h1 & h2 & h3 & h4 & Hm & _);
    [intros i; vm_compute; split; discriminate ..|].
  eexists _, _. split; [exact Hm|reflexivity].
Defined.

(** The same two orders at a price on a ladder do trade. *)
Lemma on_ladder_trades :
  match apply (OrderBook_new (mkBookConfig SYM 1 8 4)) (new_limit 1 1 Sell 5 10) with
  | Val (b, _) => match apply b (new_limit 2 2 Buy 5 10) with Val (_, evs) => traded evs | _ => 0 end
  | _ => 0
  end = 10.
Proof. vm_compute. reflexivity. Qed.
End LatencyDemo.
