(* ===== verification/Logger.v ===== *)
(** * Logger: the asynchronous logger (crates/logger/src/logger.rs)

    A call formats its message into a fixed buffer of 256 bytes and tries to
    send the record; a background thread receives records and writes one line
    each into a buffered writer.  The channel of the crossbeam crate is any
    bounded queue with the interface [Fifo]; the writer behind the buffer
    accepts all bytes.  Formatting arguments arrive as the pieces that
    [fmt::write] passes to [write_str], the clock as an argument. *)

From stdpp Require Import strings.
From S2P Require Import Prelude Bytes Utf8 RingBuffer Fifo.
#[local] Open Scope Z_scope.

(** ** Records *)

Inductive Level := Trace | Debug | Info | Warn | Error.

(** The derived order: the order of declaration. *)
Definition level_rank (l : Level) : nat := match l with Trace => 0 | Debug => 1 | Info => 2 | Warn => 3 | Error => 4 end.
Definition level_lt (a b : Level) : bool := (level_rank a <? level_rank b)%nat.

(** [Display]: [write_str] ignores the width and alignment of the format. *)
Definition level_text (l : Level) : list Z :=
  match l with
  | Trace => text "TRACE" | Debug => text "DEBUG" | Info => text "INFO" | Warn => text "WARN" | Error => text "ERROR"
  end.

Record LogRecord := mkRecord { lr_level : Level; lr_ts_ns : Z; lr_len : Z; lr_buf : list Z }.

Definition as_str (r : LogRecord) : list Z :=
  let bs := take (Z.to_nat (lr_len r)) (lr_buf r) in
  if from_utf8 bs then bs else text "<invalid utf8>".

(** ** Formatting into the slice *)

Record SliceWriter := mkWriter { sw_buf : list Z; sw_pos : nat }.

Definition write_str (s : list Z) (w : SliceWriter) : SliceWriter :=
  let remaining := (length (sw_buf w) - sw_pos w)%nat in
  let n := (length s `min` remaining)%nat in
  mkWriter (splice (sw_pos w) (take n s) (sw_buf w)) (sw_pos w + n).

Definition fmt_write (args : list (list Z)) (w : SliceWriter) : SliceWriter := foldl (fun w s => write_str s w) w args.

Definition make_record (level : Level) (args : list (list Z)) (now : Z) : LogRecord :=
  let w := fmt_write args (mkWriter (replicate 256 0) 0) in
  mkRecord level now (Z.of_nat (sw_pos w) mod 65536) (sw_buf w).

(** ** The buffered writer *)

Record BufOut := mkOut { bo_buf : list Z; bo_sink : list Z }.

(** [1 << 20]. *)
Definition OUT_CAPACITY : Z := 1048576.

Definition out_flush (o : BufOut) : BufOut := mkOut [] (bo_sink o ++ bo_buf o).

(** [BufWriter::write_all]. *)
Definition out_write (bs : list Z) (o : BufOut) : BufOut :=
  let spare := OUT_CAPACITY - Z.of_nat (length (bo_buf o)) in
  let n := Z.of_nat (length bs) in
  if n <? spare then mkOut (bo_buf o ++ bs) (bo_sink o)
  else
    let o := if spare <? n then out_flush o else o in
    if OUT_CAPACITY <=? n then mkOut (bo_buf o) (bo_sink o ++ bs) else mkOut (bo_buf o ++ bs) (bo_sink o).

(** [writeln!(out, "{} {:>5} {}", ..)]: the pieces in order. *)
Definition line_pieces (r : LogRecord) : list (list Z) :=
  [decimal (lr_ts_ns r); text " "; level_text (lr_level r); text " "; as_str r; [10]].
Definition write_line (r : LogRecord) (o : BufOut) : BufOut := foldl (fun o p => out_write p o) o (line_pieces r).

(** ** The threads *)

Section Threads.
Context {Q : Type} {cap : nat} {FQ : Fifo Q LogRecord cap}.

Definition enabled (min_level level : Level) : bool := negb (level_lt level min_level).

(** Returns the result of the call and the channel. *)
Definition log_fmt (min_level level : Level) (args : list (list Z)) (now : Z) (tx : Q) : bool * Q :=
  if level_lt level min_level then (true, tx)
  else
    match fifo_push (make_record level args now) tx with
    | (Ok _, tx) => (true, tx)
    | (Err _, tx) => (false, tx)
    end.

Definition log_debug (min_level : Level) := log_fmt min_level Debug.
Definition log_info (min_level : Level) := log_fmt min_level Info.
Definition log_warn (min_level : Level) := log_fmt min_level Warn.
Definition log_error (min_level : Level) := log_fmt min_level Error.

Definition is_empty (q : Q) : bool := match fifo_pop q with Val (None, _) => true | _ => false end.

(** Where the writer thread is: before [recv]; after the line, before
    [is_empty]; returned. *)
Inductive wpc := WRecv | WCheck | WDone.

(** A call: level, pieces, clock and what it returned. *)
Record Call := mkCall { cl_level : Level; cl_args : list (list Z); cl_now : Z; cl_result : bool }.

Record LogSys := mkSys {
  ls_min : Level;
  ls_ch : Q;
  ls_dropped : bool;        (** all senders are gone *)
  ls_pc : wpc;
  ls_out : BufOut;
  ls_calls : list Call      (** the calls made, in order *)
}.

Definition log_spawn (min_level : Level) : LogSys := mkSys min_level fifo_new false WRecv (mkOut [] []) [].

Inductive log_step : LogSys -> LogSys -> Prop :=
| ls_call m q pc o cs level args now ok q' :
    log_fmt m level args now q = (ok, q') ->
    log_step (mkSys m q false pc o cs) (mkSys m q' false pc o (cs ++ [mkCall level args now ok]))
| ls_drop m q pc o cs : log_step (mkSys m q false pc o cs) (mkSys m q true pc o cs)
| ls_recv m q d o cs rec q' :
    fifo_pop q = Val (Some rec, q') -> log_step (mkSys m q d WRecv o cs) (mkSys m q' d WCheck (write_line rec o) cs)
| ls_check m q d o cs :
    log_step (mkSys m q d WCheck o cs) (mkSys m q d WRecv (if is_empty q then out_flush o else o) cs)
| ls_exit m q o cs :
    is_empty q = true -> log_step (mkSys m q true WRecv o cs) (mkSys m q true WDone (out_flush o) cs).

Inductive log_steps (min_level : Level) : LogSys -> Prop :=
| log_start : log_steps min_level (log_spawn min_level)
| log_next s s' : log_steps min_level s -> log_step s s' -> log_steps min_level s'.

(** ** What is written *)

(** The calls that put a record on the channel. *)
Definition sent (m : Level) (c : Call) : bool := cl_result c && enabled m (cl_level c).
Definition record_of (c : Call) : LogRecord := make_record (cl_level c) (cl_args c) (cl_now c).
Definition records (m : Level) (cs : list Call) : list LogRecord := map record_of (List.filter (sent m) cs).
Definition log_line (r : LogRecord) : list Z := concat (line_pieces r).
Definition delivered (o : BufOut) : list Z := bo_sink o ++ bo_buf o.

Record log_inv (m : Level) (k : nat) (s : LogSys) : Prop := {
  li_min : ls_min s = m;
  li_hist : fifo_hist (ls_ch s) (records m (ls_calls s)) k;
  li_out : delivered (ls_out s) = concat (map log_line (take k (records m (ls_calls s))));
  li_cap : Z.of_nat (length (bo_buf (ls_out s))) <= OUT_CAPACITY;
  li_done : ls_pc s = WDone -> k = length (records m (ls_calls s)) /\ bo_buf (ls_out s) = [] /\ ls_dropped s = true
}.

Lemma out_write_ok bs o :
  Z.of_nat (length (bo_buf o)) <= OUT_CAPACITY ->
  delivered (out_write bs o) = delivered o ++ bs /\ Z.of_nat (length (bo_buf (out_write bs o))) <= OUT_CAPACITY.
Proof.
  intros Hb. unfold out_write, delivered. set (spare := OUT_CAPACITY - _). set (n := Z.of_nat (length bs)).
  destruct (Z.ltb_spec n spare); simpl; [rewrite length_app, app_assoc; split; [done|lia]|].
  destruct (Z.ltb_spec spare n); simpl; destruct (Z.leb_spec OUT_CAPACITY n); simpl; rewrite ?length_app, ?app_nil_r, ?app_assoc;
    try (split; [done|simpl; lia]).
  assert (bo_buf o = []) as -> by (apply length_zero_iff_nil; lia). rewrite !app_nil_r. split; [done|]. unfold OUT_CAPACITY. simpl. lia.
Qed.

Lemma write_line_ok r o :
  Z.of_nat (length (bo_buf o)) <= OUT_CAPACITY ->
  delivered (write_line r o) = delivered o ++ log_line r /\ Z.of_nat (length (bo_buf (write_line r o))) <= OUT_CAPACITY.
Proof.
  unfold write_line, log_line. generalize (line_pieces r). intros ps. revert o. induction ps as [|p ps IH]; intros o Hb; simpl.
  - by rewrite app_nil_r.
  - destruct (out_write_ok p o Hb) as [Hd Hb']. destruct (IH _ Hb') as [Hd' Hb'']. by rewrite Hd', Hd, app_assoc.
Qed.

Lemma flush_delivered o : delivered (out_flush o) = delivered o.
Proof. unfold delivered. simpl. by rewrite app_nil_r. Qed.

Lemma is_empty_hist q pu k : fifo_hist q pu k -> is_empty q = true <-> k = length pu.
Proof.
  intros H. unfold is_empty. pose proof (fifo_pop_hist q pu k H) as Hp. pose proof (fifo_bound q pu k H).
  destruct (pu !! k) eqn:E.
  - destruct Hp as (q' & -> & _). apply lookup_lt_Some in E. split; [done|lia].
  - rewrite Hp. apply lookup_ge_None in E. split; [lia|done].
Qed.

Lemma records_snoc m cs c : records m (cs ++ [c]) = records m cs ++ (if sent m c then [record_of c] else []).
Proof. unfold records. rewrite List.filter_app, map_app. simpl. by destruct (sent m c). Qed.

(** One call: a record more, or a full channel, or a filtered level. *)
Lemma log_fmt_hist m level args now q pu k ok q' :
  fifo_hist q pu k -> log_fmt m level args now q = (ok, q') ->
  fifo_hist q' (pu ++ (if sent m (mkCall level args now ok) then [make_record level args now] else [])) k
  /\ (ok = false -> q' = q /\ length pu = (k + cap)%nat /\ enabled m level = true).
Proof.
  intros Hq. unfold log_fmt, sent, enabled. simpl. destruct (level_lt level m).
  { intros [= <- <-]. simpl. by rewrite app_nil_r. }
  destruct (push_attempt q pu k (make_record level args now) Hq) as [(q1 & -> & Hq1)|[-> Hf]]; intros [= <- <-]; simpl.
  - by split.
  - rewrite app_nil_r. by split.
Qed.

Lemma log_step_inv m k s s' : log_inv m k s -> log_step s s' -> exists k', log_inv m k' s'.
Proof.
  intros [Hm Hh Ho Hc Hd] Hs. destruct Hs as [m' q pc o cs level args now ok q' Hl|m' q pc o cs|m' q d o cs rec q' Hp|m' q d o cs|m' q o cs He];
    simpl in *; subst m'.
  - exists k. destruct (log_fmt_hist _ _ _ _ _ _ _ _ _ Hh Hl) as [Hh' _].
    pose proof (fifo_bound _ _ _ Hh) as Hb. split; simpl; rewrite ?records_snoc; try done.
    + rewrite take_app_le by lia. done.
    + intros Hpc. destruct (Hd Hpc) as (_ & _ & ?). done.
  - exists k. split; simpl; try done. intros Hpc. by destruct (Hd Hpc) as (? & ? & ?).
  - pose proof (fifo_pop_hist _ _ _ Hh) as Hpop. destruct (records m cs !! k) as [r|] eqn:Er; [|congruence].
    destruct Hpop as (q1 & Hq1 & Hh1). rewrite Hp in Hq1. injection Hq1 as -> ->.
    destruct (write_line_ok r o Hc) as [Hdl Hcl]. exists (S k). split; simpl; try done.
    rewrite (take_S_r _ _ r) by done. rewrite map_app, concat_app, <- Ho. simpl. by rewrite app_nil_r.
  - exists k. split; simpl; try done; case_match; simpl; try done. by rewrite flush_delivered.
  - exists k. apply (is_empty_hist _ _ _ Hh) in He. split; simpl; try done. by rewrite flush_delivered.
Qed.

Lemma log_steps_inv m s : log_steps m s -> exists k, log_inv m k s.
Proof.
  induction 1 as [|s s' _ [k IH] Hs]; [|by eapply log_step_inv]. exists 0%nat. split; simpl; try done. apply fifo_new_hist.
Qed.

(** C40. The logger loses only what it reports.  In every interleaving of log
    calls and the writer thread: a call below the minimum level changes
    nothing, a call returns [false] only while the channel holds its full
    capacity; the bytes delivered or buffered are the lines of a prefix of the
    records sent, in the order of the calls; and once the writer has returned,
    which needs every sender dropped, the sink holds exactly one line per sent
    record, in order, with nothing left in the buffer. *)
Theorem logger_lines_exact m s :
  log_steps m s ->
  (exists k, delivered (ls_out s) = concat (map log_line (take k (records m (ls_calls s)))))
  /\ (ls_pc s = WDone -> ls_dropped s = true /\ bo_sink (ls_out s) = concat (map log_line (records m (ls_calls s))))
  /\ (forall level args now ok q', log_fmt m level args now (ls_ch s) = (ok, q') ->
        (enabled m level = false -> ok = true /\ q' = ls_ch s)
        /\ (ok = false -> exists waiting, length waiting = cap /\ waiting `suffix_of` records m (ls_calls s))).
Proof.
  intros [k Hi]%log_steps_inv. split_and!.
  - exists k. apply Hi.
  - intros Hpc. destruct (li_done _ _ _ Hi Hpc) as (Hk & Hb & Hd). split; [done|].
    pose proof (li_out _ _ _ Hi) as Ho. unfold delivered in Ho. rewrite Hb, app_nil_r, Hk, firstn_all in Ho. done.
  - intros level args now ok q' Hl. destruct (log_fmt_hist _ _ _ _ _ _ _ _ _ (li_hist _ _ _ Hi) Hl) as [_ Hf]. split.
    + unfold enabled, log_fmt in *. intros He. apply negb_false_iff in He. rewrite He in Hl. by injection Hl as <- <-.
    + intros ->. destruct (Hf eq_refl) as (_ & Hlen & _). exists (drop k (records m (ls_calls s))). split.
      * rewrite length_drop. lia.
      * exists (take k (records m (ls_calls s))). by rewrite take_drop.
Qed.
End Threads.

(** ** The text of a record *)

Lemma write_str_ok N acc s w :
  length (sw_buf w) = N -> sw_pos w = (N `min` length acc)%nat -> take (sw_pos w) (sw_buf w) = take N acc ->
  let w' := write_str s w in
  length (sw_buf w') = N /\ sw_pos w' = (N `min` length (acc ++ s))%nat /\ take (sw_pos w') (sw_buf w') = take N (acc ++ s).
Proof.
  intros Hl Hp Ht. simpl. set (n := (length s `min` (length (sw_buf w) - sw_pos w))%nat).
  assert (Hn : length (take n s) = n) by (rewrite length_take; lia).
  assert (Hpre : length (take (sw_pos w) (sw_buf w)) = sw_pos w) by (rewrite length_take; lia).
  unfold splice. rewrite !length_app, Hn, Hpre, length_drop. split_and!; [lia|lia|].
  rewrite app_assoc, take_app_le by (rewrite length_app, Hpre, Hn; lia).
  rewrite firstn_all2 by (rewrite length_app, Hpre, Hn; lia). rewrite Ht, take_app. f_equal.
  destruct (decide (length acc <= N)%nat); [|assert (n = 0)%nat as -> by lia; by replace (N - length acc)%nat with 0%nat by lia].
  destruct (decide (length s <= N - length acc)%nat).
  - rewrite !firstn_all2 by lia. done.
  - f_equal. lia.
Qed.

Lemma fmt_write_ok N acc args w :
  length (sw_buf w) = N -> sw_pos w = (N `min` length acc)%nat -> take (sw_pos w) (sw_buf w) = take N acc ->
  let w' := fmt_write args w in
  length (sw_buf w') = N /\ sw_pos w' = (N `min` length (acc ++ concat args))%nat
  /\ take (sw_pos w') (sw_buf w') = take N (acc ++ concat args).
Proof.
  unfold fmt_write. revert acc w. induction args as [|s args IH]; intros acc w Hl Hp Ht; simpl; [by rewrite app_nil_r|].
  destruct (write_str_ok N acc s w Hl Hp Ht) as (Hl' & Hp' & Ht'). rewrite app_assoc. by apply IH.
Qed.

Lemma concat_encode args : concat (map encode args) = encode (concat args).
Proof. induction args as [|a args IH]; [done|]. simpl. by rewrite IH, encode_app. Qed.

Lemma make_record_ok level args now :
  lr_len (make_record level args now) = Z.of_nat (256 `min` length (concat args))
  /\ take (Z.to_nat (lr_len (make_record level args now))) (lr_buf (make_record level args now)) = take 256 (concat args).
Proof.
  unfold make_record. destruct (fmt_write_ok 256 [] args (mkWriter (replicate 256 0) 0)) as (Hl & Hp & Ht); [done..|].
  revert Hl Hp Ht. generalize (fmt_write args (mkWriter (replicate 256 0) 0)). intros w Hl Hp Ht. cbn [app] in Hp, Ht. cbn [lr_len lr_buf].
  rewrite Z.mod_small by lia. rewrite Nat2Z.id, Ht. by rewrite Hp.
Qed.

(** What a log call writes.  The record of a call holds the level and the
    clock of the call, and of its text, the concatenation of the pieces, at
    most 256 bytes: the whole text when it fits; when it is cut between two
    characters, the first 256 bytes; and when the cut falls inside a character,
    not the valid part but the fixed text of [unwrap_or].  The length always
    fits in the 16 bits of [len]. *)
Theorem log_record_text level args now :
  Forall (Forall scalar) args ->
  let cs := concat args in
  let r := make_record level (map encode args) now in
  lr_level r = level /\ lr_ts_ns r = now /\ lr_len r = Z.of_nat (256 `min` length (encode cs)) /\ length (lr_buf r) = 256%nat
  /\ ((length (encode cs) <= 256)%nat -> as_str r = encode cs)
  /\ ((256 < length (encode cs))%nat -> boundary 256 cs -> as_str r = take 256 (encode cs))
  /\ ((256 < length (encode cs))%nat -> ~ boundary 256 cs -> as_str r = text "<invalid utf8>").
Proof.
  intros Hargs cs r. destruct (make_record_ok level (map encode args) now) as [Hlen Htake].
  rewrite concat_encode in Hlen, Htake. fold cs in Hlen, Htake. fold r in Hlen, Htake.
  assert (Hcs : Forall scalar cs) by (by apply Forall_concat).
  destruct (fmt_write_ok 256 [] (map encode args) (mkWriter (replicate 256 0) 0)) as (Hb & _ & _); [done..|].
  unfold as_str. rewrite Htake. split_and!; try done.
  - intros H. rewrite firstn_all2 by done. by rewrite from_utf8_encode.
  - intros H Hbd. by rewrite (proj2 (from_utf8_cut cs 256 Hcs ltac:(lia)) Hbd).
  - intros H Hbd. destruct (from_utf8 (take 256 (encode cs))) eqn:E; [|done]. exfalso. apply Hbd. by apply (from_utf8_cut cs 256 Hcs ltac:(lia)).
Qed.

(** ** Witnesses *)

Module LogDemo.
#[local] Instance cap4_ok : CapOk 4 := Spsc.cap4.

(** Two hundred and fifty-five letters and a euro sign. *)
Definition long_text : list Z := replicate 255 120 ++ [8364].

Lemma long_scalar : Forall (Forall scalar) [long_text].
Proof. repeat constructor; unfold scalar; lia. Qed.

Lemma long_no_boundary : ~ boundary 256 long_text.
Proof.
  intros H. apply (from_utf8_cut long_text 256) in H; [by vm_compute in H| |vm_compute; lia].
  pose proof long_scalar as Hs. by apply Forall_cons in Hs as [? _].
Qed.

Lemma log_record_text_witness : as_str (make_record Warn (map encode [long_text]) 5) = text "<invalid utf8>".
Proof.
  destruct (log_record_text Warn [long_text] 5 long_scalar) as (_ & _ & _ & _ & _ & _ & H).
  apply H; [vm_compute; lia|]. change (~ boundary 256 (long_text ++ [])). rewrite app_nil_r. exact long_no_boundary.
Defined.

Definition hello : list (list Z) := [text "id="; decimal 42].
Definition ch0 : Spsc.Queue (T := LogRecord) := fifo_new.
Definition ch1 : Spsc.Queue (T := LogRecord) := (log_fmt Info Warn hello 7 ch0).2.
Definition ch2 : Spsc.Queue (T := LogRecord) := pop_one 0 ch1.
Definition calls : list Call := [mkCall Warn hello 7 true].
Definition out1 : BufOut := write_line (make_record Warn hello 7) (mkOut [] []).
Definition final : LogSys := mkSys Info ch2 true WDone (out_flush (if is_empty ch2 then out_flush out1 else out1)) calls.

Lemma final_steps : log_steps Info final.
Proof.
  eapply log_next; [|apply ls_exit; vm_compute; reflexivity].
  eapply log_next; [|apply ls_drop].
  eapply log_next; [|apply (ls_check Info ch2 false out1 calls)].
  eapply log_next; [|apply (ls_recv Info ch1 false (mkOut [] []) calls (make_record Warn hello 7)); vm_compute; reflexivity].
  eapply log_next; [apply log_start|].
  apply (ls_call Info ch0 WRecv (mkOut [] []) [] Warn hello 7 true ch1). vm_compute. reflexivity.
Qed.

Lemma logger_lines_exact_witness : bo_sink (ls_out final) = text "7 WARN id=42" ++ [10].
Proof.
  destruct (logger_lines_exact Info final final_steps) as (_ & H & _). destruct (H eq_refl) as [_ Hs].
  rewrite Hs. vm_compute. reflexivity.
Defined.
End LogDemo.
