(* ===== verification/Prometheus.v ===== *)
(** * Prometheus: the text exposition of the metrics (crates/metrics/src/aggregator.rs)

    [render_prometheus] writes one line per metric and shard and one per total.
    Counters are cast to [f64] and printed with [Display]; the cast rounds to
    53 bits, and [Display] prints the shortest decimal that rounds to the same
    [f64].  The percentiles of metrics.rs multiply with an [f64] constant. *)

From stdpp Require Import strings pretty.
From S2P Require Import Prelude CoreTypes Bytes Utf8 Metrics.
#[local] Open Scope list_scope.
#[local] Open Scope Z_scope.

(** ** f64 values that are integers *)

(** The nearest multiple of [2^e], ties to the even one. *)
Definition round_at (e n : Z) : Z :=
  let q := n / 2 ^ e in
  let r := n mod 2 ^ e in
  let up := if r * 2 =? 2 ^ e then Z.odd q else 2 ^ e <? r * 2 in
  (if up then q + 1 else q) * 2 ^ e.

(** [n as f64]. *)
Definition as_f64 (n : Z) : Z := if n <? 2 ^ 53 then n else round_at (Z.log2 n - 52) n.

(** The shortest decimal: the largest power of ten [10^k] with a multiple next
    to [m] that is read back as [m]; the nearer one of two. *)
Fixpoint shortest (k : nat) (m : Z) : Z :=
  match k with
  | O => m
  | S k' =>
      let t := 10 ^ Z.of_nat k in
      let lo := m / t * t in
      let hi := lo + t in
      let lo_ok := as_f64 lo =? m in
      let hi_ok := as_f64 hi =? m in
      if lo_ok && (negb hi_ok || (m - lo <=? hi - m)) then lo else if hi_ok then hi else shortest k' m
  end.

(** [format!("{}", n as f64)] for a [u64]. *)
Definition show_f64 (n : Z) : list Z := let m := as_f64 n in decimal (if m <? 2 ^ 53 then m else shortest 20 m).

(** [(p * n as f64).ceil() as u64] for the constant [p = m / 2^e]: the product
    rounded to 53 bits, then the ceiling. *)
Definition f64_rank (m e n : Z) : Z :=
  let x := m * as_f64 n in
  let r := if x <? 2 ^ 53 then x else round_at (Z.log2 x - 52) x in
  - (- r / 2 ^ e).

Definition p50 : LatencySnapshot -> Z := percentile (f64_rank 1 1).
Definition p90 : LatencySnapshot -> Z := percentile (f64_rank 8106479329266893 53).
Definition p99 : LatencySnapshot -> Z := percentile (f64_rank 4458563631096791 52).
Definition p999 : LatencySnapshot -> Z := percentile (f64_rank 8998192055486251 53).

(** ** Rendering *)

Definition write_metric (name labels : list Z) (value : Z) (out : list Z) : list Z :=
  out ++ name ++ text "{" ++ labels ++ text "} " ++ show_f64 value ++ [10].

Definition write_latency_metrics (base_name labels : list Z) (s : LatencySnapshot) (out : list Z) : list Z :=
  let out := write_metric (base_name ++ text "_mean") labels (ls_mean_ns s) out in
  let out := write_metric (base_name ++ text "_max") labels (ls_max_ns s) out in
  let out := write_metric (base_name ++ text "_p50") labels (p50 s) out in
  let out := write_metric (base_name ++ text "_p90") labels (p90 s) out in
  let out := write_metric (base_name ++ text "_p99") labels (p99 s) out in
  write_metric (base_name ++ text "_p999") labels (p999 s) out.

(** A double quote. *)
Definition quote : list Z := [34].
Definition shard_labels (shard_id : Z) : list Z := text "shard=" ++ quote ++ decimal shard_id ++ quote.
Definition total_labels : list Z := text "shard=" ++ quote ++ text "_total" ++ quote.

Definition render_shard (shard_id : Z) (s : EngineMetricsSnapshot) (out : list Z) : list Z :=
  let labels := shard_labels shard_id in
  let out := write_metric (text "engine_orders_processed_total") labels (ms_orders_processed s) out in
  let out := write_metric (text "engine_fills_generated_total") labels (ms_fills_generated s) out in
  let out := write_metric (text "engine_risk_rejects_total") labels (ms_risk_rejects s) out in
  let out := write_metric (text "engine_idle_spins_total") labels (ms_idle_spins s) out in
  let out := write_latency_metrics (text "engine_match_latency_ns") labels (ms_match_latency s) out in
  write_latency_metrics (text "engine_risk_check_latency_ns") labels (ms_risk_check_latency s) out.

Definition render_totals (t : EngineMetricsSnapshot) (out : list Z) : list Z :=
  let out := write_metric (text "engine_orders_processed_total") total_labels (ms_orders_processed t) out in
  let out := write_metric (text "engine_fills_generated_total") total_labels (ms_fills_generated t) out in
  let out := write_metric (text "engine_risk_rejects_total") total_labels (ms_risk_rejects t) out in
  let out := write_latency_metrics (text "engine_match_latency_ns") total_labels (ms_match_latency t) out in
  write_latency_metrics (text "engine_risk_check_latency_ns") total_labels (ms_risk_check_latency t) out.

Section Render.
(** The order in which the shards' [HashMap] is iterated. *)
Context (iter : gmap Z EngineMetricsSnapshot -> list (Z * EngineMetricsSnapshot)).

Definition render_prometheus (a : MetricsAggregator) : list Z :=
  let snap := last_snapshot a in
  let out := foldl (fun out '(id, s) => render_shard id s out) [] (iter (per_shard snap)) in
  render_totals (totals snap) out.
End Render.

(** ** The lines of the text *)

Fixpoint split_lines (cur bs : list Z) : list (list Z) :=
  match bs with
  | [] => match cur with [] => [] | _ => [cur] end
  | b :: bs => if b =? 10 then cur :: split_lines [] bs else split_lines (cur ++ [b]) bs
  end.

(** A metric: name, labels, value. *)
Record Metric := mkMetric { m_name : list Z; m_labels : list Z; m_value : Z }.
Definition metric_text (m : Metric) : list Z := m_name m ++ text "{" ++ m_labels m ++ text "} " ++ show_f64 (m_value m).

Definition latency_metrics (base labels : list Z) (s : LatencySnapshot) : list Metric :=
  [mkMetric (base ++ text "_mean") labels (ls_mean_ns s); mkMetric (base ++ text "_max") labels (ls_max_ns s);
   mkMetric (base ++ text "_p50") labels (p50 s); mkMetric (base ++ text "_p90") labels (p90 s);
   mkMetric (base ++ text "_p99") labels (p99 s); mkMetric (base ++ text "_p999") labels (p999 s)].

Definition counter_metrics (labels : list Z) (s : EngineMetricsSnapshot) : list Metric :=
  [mkMetric (text "engine_orders_processed_total") labels (ms_orders_processed s);
   mkMetric (text "engine_fills_generated_total") labels (ms_fills_generated s);
   mkMetric (text "engine_risk_rejects_total") labels (ms_risk_rejects s)].

Definition both_latencies (labels : list Z) (s : EngineMetricsSnapshot) : list Metric :=
  latency_metrics (text "engine_match_latency_ns") labels (ms_match_latency s)
  ++ latency_metrics (text "engine_risk_check_latency_ns") labels (ms_risk_check_latency s).

Definition shard_metrics (shard : Z * EngineMetricsSnapshot) : list Metric :=
  let labels := shard_labels shard.1 in
  counter_metrics labels shard.2 ++ [mkMetric (text "engine_idle_spins_total") labels (ms_idle_spins shard.2)]
  ++ both_latencies labels shard.2.

Definition total_metrics (t : EngineMetricsSnapshot) : list Metric := counter_metrics total_labels t ++ both_latencies total_labels t.

Definition no_newline (bs : list Z) : Prop := Forall (fun b => b <> 10) bs.

Lemma text_no_newline s : forallb (fun b => negb (b =? 10)) (text s) = true -> no_newline (text s).
Proof.
  intros H. apply Forall_forall. intros b Hb ->. rewrite forallb_forall in H. apply list_elem_of_In in Hb. by specialize (H _ Hb).
Qed.

Lemma digit_no_newline d : Z.of_N (Ascii.N_of_ascii (pretty_N_char d)) <> 10.
Proof. destruct d as [|[[[|[]|]|[|[]|]|]|[[|[]|]|[|[]|]|]|]]; vm_compute; congruence. Qed.

Lemma pretty_go_no_newline x s : no_newline (text s) -> no_newline (text (pretty_N_go x s)).
Proof.
  revert s. induction (N.lt_wf_0 x) as [x _ IH]. intros s Hs. destruct (decide (0 < x)%N) as [Hx|Hx].
  - rewrite pretty_N_go_step by done. apply IH; [by apply N.div_lt|]. unfold text, no_newline in *. simpl. constructor; [|done].
    apply digit_no_newline.
  - assert (x = 0%N) as -> by lia. by rewrite pretty_N_go_0.
Qed.

Lemma decimal_no_newline z : no_newline (decimal z).
Proof.
  assert (HN : forall x, no_newline (text (pretty (x : N)))).
  { intros x. destruct (decide (x = 0)%N) as [->|Hx]; [by apply text_no_newline|]. unfold pretty, pretty_N. rewrite decide_False by done.
    apply pretty_go_no_newline. constructor. }
  unfold decimal. destruct z as [|p|p]; [by apply text_no_newline|apply (HN (N.pos p))|].
  change (no_newline (45 :: text (pretty (N.pos p)))). constructor; [lia|apply HN].
Qed.

Lemma split_lines_line cur line rest : no_newline line -> split_lines cur (line ++ 10 :: rest) = (cur ++ line) :: split_lines [] rest.
Proof.
  intros H. revert cur. induction H as [|b line Hb _ IH]; intros cur; simpl; [by rewrite app_nil_r|].
  rewrite (proj2 (Z.eqb_neq b 10) Hb), IH, <- app_assoc. done.
Qed.

Lemma split_lines_text (ls : list (list Z)) : Forall no_newline ls -> split_lines [] (concat (map (fun l => l ++ [10]) ls)) = ls.
Proof.
  induction 1 as [|l ls Hl _ IH]; [done|]. simpl. rewrite <- app_assoc. simpl. rewrite split_lines_line by done. by rewrite IH.
Qed.

(** Rendering appends the lines of the metrics. *)
Definition metric_lines (ms : list Metric) : list Z := concat (map (fun m => metric_text m ++ [10]) ms).

Lemma metric_lines_app l1 l2 : metric_lines (l1 ++ l2) = metric_lines l1 ++ metric_lines l2.
Proof. unfold metric_lines. by rewrite map_app, concat_app. Qed.

Lemma write_metric_lines name labels v out : write_metric name labels v out = out ++ metric_lines [mkMetric name labels v].
Proof.
  unfold write_metric, metric_lines, metric_text. cbn [map concat m_name m_labels m_value]. rewrite app_nil_r. by rewrite <- !app_assoc.
Qed.

Lemma write_latency_lines base labels s out :
  write_latency_metrics base labels s out = out ++ metric_lines (latency_metrics base labels s).
Proof. unfold write_latency_metrics. rewrite !write_metric_lines, <- !app_assoc, <- !metric_lines_app. done. Qed.

Lemma render_shard_lines id s out : render_shard id s out = out ++ metric_lines (shard_metrics (id, s)).
Proof.
  unfold render_shard. rewrite !write_latency_lines, !write_metric_lines, <- !app_assoc, <- !metric_lines_app. done.
Qed.

Lemma render_totals_lines t out : render_totals t out = out ++ metric_lines (total_metrics t).
Proof.
  unfold render_totals. rewrite !write_latency_lines, !write_metric_lines, <- !app_assoc, <- !metric_lines_app. done.
Qed.

Definition all_metrics (shards : list (Z * EngineMetricsSnapshot)) (t : EngineMetricsSnapshot) : list Metric :=
  concat (map shard_metrics shards) ++ total_metrics t.

Lemma render_lines shards t :
  render_totals t (foldl (fun out '(id, s) => render_shard id s out) [] shards) = metric_lines (all_metrics shards t).
Proof.
  rewrite render_totals_lines. unfold all_metrics. rewrite metric_lines_app. f_equal.
  change (metric_lines (concat (map shard_metrics shards))) with ([] ++ metric_lines (concat (map shard_metrics shards))).
  generalize ([] : list Z) as out. induction shards as [|[id s] shards IH]; intros out; [by rewrite app_nil_r|].
  cbn [foldl map concat]. by rewrite IH, render_shard_lines, metric_lines_app, app_assoc.
Qed.

Ltac no_nl := unfold no_newline; rewrite ?Forall_app; split_and!;
  first [apply decimal_no_newline | apply text_no_newline; vm_compute; reflexivity | repeat constructor; lia | idtac].

Lemma labels_no_newline id : no_newline (shard_labels id) /\ no_newline total_labels.
Proof. split; unfold shard_labels, total_labels, quote; no_nl. Qed.

Definition metric_clean (m : Metric) : Prop := no_newline (metric_text m).

Lemma metric_clean_ok name labels v : no_newline (text name) -> no_newline labels -> metric_clean (mkMetric (text name) labels v).
Proof. intros Hn Hl. unfold metric_clean, metric_text. cbn [m_name m_labels m_value]. no_nl; try done. Qed.

Lemma latency_clean base labels s :
  no_newline base -> no_newline labels -> Forall metric_clean (latency_metrics base labels s).
Proof.
  intros Hb Hl. unfold latency_metrics. rewrite !Forall_cons, Forall_nil.
  split_and!; try exact I; unfold metric_clean, metric_text; cbn [m_name m_labels m_value]; no_nl; done.
Qed.

Lemma snapshot_clean labels s : no_newline labels -> Forall metric_clean (counter_metrics labels s) /\ Forall metric_clean (both_latencies labels s).
Proof.
  intros Hl. split.
  - unfold counter_metrics. rewrite !Forall_cons, Forall_nil.
    split_and!; [apply metric_clean_ok; [apply text_no_newline; vm_compute; reflexivity|done]..|done].
  - unfold both_latencies. apply Forall_app. split; apply latency_clean; try done; apply text_no_newline; vm_compute; reflexivity.
Qed.

Lemma all_metrics_clean shards t : Forall metric_clean (all_metrics shards t).
Proof.
  unfold all_metrics. apply Forall_app. split; [apply Forall_concat, Forall_map, Forall_true; intros [id s]|].
  - destruct (labels_no_newline id) as [Hl _]. destruct (snapshot_clean (shard_labels id) s Hl) as [Hc Hb].
    unfold shard_metrics. cbn [fst snd]. rewrite !Forall_app, Forall_singleton. split_and!; try done.
    apply metric_clean_ok; [|done]. apply text_no_newline. vm_compute. reflexivity.
  - destruct (labels_no_newline 0) as [_ Hl]. destruct (snapshot_clean total_labels t Hl). unfold total_metrics. by apply Forall_app.
Qed.

Lemma show_exact n : 0 <= n < 2 ^ 53 -> show_f64 n = decimal n.
Proof. intros H. unfold show_f64, as_f64. rewrite (proj2 (Z.ltb_lt n (2 ^ 53))) by lia. rewrite (proj2 (Z.ltb_lt n (2 ^ 53))) by lia. done. Qed.

(** The exposition is one metric per line.  Split into lines, the rendered
    text is the 16 metrics of every shard, in the order of the map, followed by
    the 15 of the totals (the totals have no idle-spin line), each under its own
    name and label; no name, label or number breaks a line; and a value below
    2^53 is printed exactly, so that two different ones have different lines. *)
Theorem prometheus_lines iter a :
  (forall m, iter m ≡ₚ map_to_list m) ->
  let snap := last_snapshot a in
  let ms := all_metrics (iter (per_shard snap)) (totals snap) in
  split_lines [] (render_prometheus iter a) = map metric_text ms
  /\ length ms = (16 * size (per_shard snap) + 15)%nat
  /\ (forall m n, m ∈ ms -> n ∈ ms -> 0 <= m_value m < 2 ^ 53 -> 0 <= m_value n < 2 ^ 53 ->
        show_f64 (m_value m) = decimal (m_value m)
        /\ (show_f64 (m_value m) = show_f64 (m_value n) -> m_value m = m_value n)).
Proof.
  intros Hperm snap ms. split_and!.
  - unfold render_prometheus. fold snap. rewrite render_lines. fold ms. unfold metric_lines.
    rewrite <- (split_lines_text (map metric_text ms)); [by rewrite map_map|].
    apply Forall_map. apply all_metrics_clean.
  - unfold ms, all_metrics. rewrite length_app. simpl. f_equal. rewrite <- length_map_to_list, <- (Hperm (per_shard snap)).
    induction (iter (per_shard snap)) as [|x l IH]; simpl; [done|]. rewrite IH. lia.
  - intros m n _ _ Hm Hn. rewrite !show_exact by done. split; [done|]. apply decimal_inj.
Qed.

(** ** Witness: two shards *)

Module PrometheusDemo.
Definition iter (m : gmap Z EngineMetricsSnapshot) : list (Z * EngineMetricsSnapshot) := map_to_list m.
Definition aggregator : MetricsAggregator :=
  collect_now MetricsDemo.values 5 (register_shard 7 MetricsDemo.slow (register_shard 1 MetricsDemo.fast (MetricsAggregator_new 0 0))).

Lemma prometheus_lines_witness : length (split_lines [] (render_prometheus iter aggregator)) = 47%nat.
Proof.
  destruct (prometheus_lines iter aggregator ltac:(reflexivity)) as (H & Hl & _).
  rewrite H, length_map. exact Hl.
Defined.

(** The counters beyond 53 bits are rounded, and printed rounded again. *)
Lemma large_counter_rounded : show_f64 (2 ^ 64 - 1) = text "18446744073709552000".
Proof. vm_compute. reflexivity. Qed.
End PrometheusDemo.
