(* ===== verification/Snapshot.v ===== *)
(** * Snapshot: crates/wal/src/snapshot.rs

    The snapshot files of a shard: their format, the atomic write through a
    temporary file, reading with validation, and the search for the newest
    valid snapshot in a directory.  A directory is the list of its file names
    and contents in the order [read_dir] lists them; CRC-32 is a parameter. *)

From stdpp Require Import sorting.
From S2P Require Import Prelude Bytes.
#[local] Open Scope Z_scope.

(** ** File names *)

(** The last [n] decimal digits of [z], most significant first. *)
Fixpoint digits (n : nat) (z : Z) : list Z :=
  match n with O => [] | S n' => 48 + (z / 10 ^ Z.of_nat n') mod 10 :: digits n' z end.

(** The number of digits of [{:0w}]: at least [w], as many as [z] needs. *)
Fixpoint dec_width (fuel w : nat) (z : Z) : nat :=
  match fuel with
  | O => w
  | S fuel' => if z <? 10 ^ Z.of_nat w then w else dec_width fuel' (S w) z
  end.

(** [format!("{z:0w}")] for an integer of at most 64 bits. *)
Definition fmt_dec (w : nat) (z : Z) : list Z := digits (dec_width 20 w z) z.

(** ["shard_"], ["_"], [".snap"], [".tmp"]. *)
Definition str_shard : list Z := [115; 104; 97; 114; 100; 95].
Definition underscore : Z := 95.
Definition dot : Z := 46.
Definition ext_snap : list Z := [115; 110; 97; 112].
Definition ext_tmp : list Z := [116; 109; 112].

(** [format!("shard_{shard_id:04}_")]. *)
Definition shard_prefix (shard_id : Z) : list Z := str_shard ++ fmt_dec 4 shard_id ++ [underscore].

(** The name without its extension, and the two names a write uses. *)
Definition snapshot_stem (shard_id seq : Z) : list Z := shard_prefix shard_id ++ fmt_dec 20 seq.
Definition snapshot_path (shard_id seq : Z) : list Z := snapshot_stem shard_id seq ++ dot :: ext_snap.
Definition tmp_path (shard_id seq : Z) : list Z := snapshot_stem shard_id seq ++ dot :: ext_tmp.

(** [Path::extension]: what follows the last dot, unless the dot is first. *)
Fixpoint after_last_dot (name : list Z) : option (list Z) :=
  match name with
  | [] => None
  | c :: r =>
      match after_last_dot r with
      | Some e => Some e
      | None => if c =? dot then Some r else None
      end
  end.
Definition extension (name : list Z) : option (list Z) := after_last_dot (tail name).

Fixpoint starts_with (prefix name : list Z) : bool :=
  match prefix, name with
  | [], _ => true
  | p :: ps, c :: cs => (p =? c) && starts_with ps cs
  | _ :: _, [] => false
  end.

(** The order of file names: byte by byte. *)
Fixpoint name_le (a b : list Z) : bool :=
  match a, b with
  | [], _ => true
  | _ :: _, [] => false
  | x :: xs, y :: ys => if x <? y then true else if y <? x then false else name_le xs ys
  end.

(** ** Data *)

(** [b"MRESN001"]. *)
Definition SNAP_MAGIC : list Z := [77; 82; 69; 83; 78; 48; 48; 49].
Definition SNAP_VERSION : Z := 1.
Definition SNAP_HEADER_SIZE : nat := 48.

Inductive SnapshotError :=
| Snap_Io
| Snap_InvalidMagic
| Snap_UnsupportedVersion (v : Z)
| Crc32Mismatch (stored computed : Z)
| Snap_Serialise
| PayloadTooLarge (n : nat).

Record SnapshotMeta := mkMeta {
  sm_shard_id : Z;
  sm_seq : Z;
  sm_ts_ns : Z;
  sm_payload_len : Z;
  sm_crc32 : Z
}.

Record Snapshot := mkSnapshot { meta : SnapshotMeta; payload : list Z }.

Abbreviation Dir := (list (list Z * list Z)).

(** Creating or replacing a file; removing one. *)
Definition dir_remove (name : list Z) (d : Dir) : Dir :=
  List.filter (fun f => negb (bool_decide (fst f = name))) d.
Definition dir_put (name bytes : list Z) (d : Dir) : Dir := dir_remove name d ++ [(name, bytes)].

(** How the file operations of a write went: all succeeded, or one failed and
    the temporary file is left with some bytes or not at all. *)
Inductive WriteIo := IoDone | IoFailed (left : option (list Z)).

Section Snapshots.
Context (crc32 : list Z -> Z).

(** ** SnapshotWriter::write *)

Definition snapshot_bytes (shard_id seq ts_ns : Z) (payload : list Z) : list Z :=
  (SNAP_MAGIC ++ le_bytes 4 SNAP_VERSION ++ le_bytes 4 shard_id ++ le_bytes 8 seq
     ++ le_bytes 8 ts_ns ++ le_bytes 4 (Z.of_nat (length payload)) ++ le_bytes 4 (crc32 payload)
     ++ replicate 8 0) ++ payload.

Definition snapshot_write (max_payload : nat) (io : WriteIo) (shard_id seq ts_ns : Z)
    (payload : list Z) (d : Dir) : Result (list Z) SnapshotError * Dir :=
  if (max_payload <? length payload)%nat then (Err (PayloadTooLarge (length payload)), d)
  else
    let final_path := snapshot_path shard_id seq in
    let tmp := tmp_path shard_id seq in
    match io with
    | IoFailed None => (Err Snap_Io, d)
    | IoFailed (Some bytes) => (Err Snap_Io, dir_put tmp bytes d)
    | IoDone =>
        let d := dir_put tmp (snapshot_bytes shard_id seq ts_ns payload) d in
        (** [fs::rename(tmp, final)] *)
        (Ok final_path, dir_put final_path (snapshot_bytes shard_id seq ts_ns payload) (dir_remove tmp d))
    end.

(** ** read_snapshot *)

(** [file.read_exact] is an error when the file ends before. *)
Definition read_snapshot (file : list Z) : Result Snapshot SnapshotError :=
  if (length file <? SNAP_HEADER_SIZE)%nat then Err Snap_Io
  else if negb (bool_decide (slice 0 8 file = SNAP_MAGIC)) then Err Snap_InvalidMagic
  else
    let version := le_at 8 4 file in
    if negb (version =? SNAP_VERSION) then Err (Snap_UnsupportedVersion version)
    else
      let shard_id := le_at 12 4 file in
      let seq := le_at 16 8 file in
      let ts_ns := le_at 24 8 file in
      let payload_len := le_at 32 4 file in
      let crc_stored := le_at 36 4 file in
      if (length file <? SNAP_HEADER_SIZE + Z.to_nat payload_len)%nat then Err Snap_Io
      else
        let payload := slice SNAP_HEADER_SIZE (Z.to_nat payload_len) file in
        let crc_computed := crc32 payload in
        if negb (crc_stored =? crc_computed) then Err (Crc32Mismatch crc_stored crc_computed)
        else Ok (mkSnapshot (mkMeta shard_id seq ts_ns payload_len crc_stored) payload).

(** ** latest_snapshot *)

Definition is_candidate (shard_id : Z) (f : list Z * list Z) : bool :=
  bool_decide (extension (fst f) = Some ext_snap) && starts_with (shard_prefix shard_id) (fst f).

Definition file_le (f g : list Z * list Z) : Prop := name_le (fst f) (fst g) = true.
#[export] Instance file_le_dec f g : Decision (file_le f g).
Proof. unfold file_le. apply _. Defined.

(** The first file that reads as a valid snapshot. *)
Fixpoint first_valid (fs : Dir) : option Snapshot :=
  match fs with
  | [] => None
  | f :: rest => match read_snapshot (snd f) with Ok snap => Some snap | Err _ => first_valid rest end
  end.

(** [None] is a directory that does not exist. *)
Definition latest_snapshot (dir : option Dir) (shard_id : Z) : Result (option Snapshot) SnapshotError :=
  match dir with
  | None => Ok None
  | Some d =>
      let candidates := merge_sort file_le (List.filter (is_candidate shard_id) d) in
      Ok (first_valid (rev candidates))
  end.

(** ** Lemmas on names *)

Lemma length_digits n z : length (digits n z) = n.
Proof. induction n; simpl; auto. Qed.

Lemma digits_range n z : Forall (fun c => 48 <= c <= 57) (digits n z).
Proof.
  induction n as [|n IH]; simpl; constructor; [|done].
  pose proof (Z.mod_pos_bound (z / 10 ^ Z.of_nat n) 10). lia.
Qed.

Lemma pow10_pos n : 0 < 10 ^ Z.of_nat n.
Proof. apply Z.pow_pos_nonneg; lia. Qed.

(** A number is its leading digit and the rest. *)
Lemma mod_pow10_split n z :
  z mod 10 ^ Z.of_nat (S n) = (z / 10 ^ Z.of_nat n) mod 10 * 10 ^ Z.of_nat n + z mod 10 ^ Z.of_nat n.
Proof.
  pose proof (pow10_pos n). rewrite Nat2Z.inj_succ, Z.pow_succ_r, (Z.mul_comm 10), Z.rem_mul_r by lia. lia.
Qed.

(** Names of equal width order as the numbers they show. *)
Lemma name_le_digits n a b :
  name_le (digits n a) (digits n b) = true -> a mod 10 ^ Z.of_nat n <= b mod 10 ^ Z.of_nat n.
Proof.
  induction n as [|n IH]; [by rewrite !Z.mod_1_r|]. cbn [digits name_le]. rewrite !mod_pow10_split.
  pose proof (pow10_pos n). pose proof (Z.mod_pos_bound a (10 ^ Z.of_nat n)).
  pose proof (Z.mod_pos_bound b (10 ^ Z.of_nat n)).
  set (da := (a / _) mod 10). set (db := (b / _) mod 10).
  destruct (Z.ltb_spec (48 + da) (48 + db)); [intros; nia|].
  destruct (Z.ltb_spec (48 + db) (48 + da)); [done|]. intros Hle%IH. replace da with db by lia. lia.
Qed.

Lemma name_le_refl x : name_le x x = true.
Proof. induction x; simpl; [done|]. by rewrite Z.ltb_irrefl. Qed.

Lemma name_le_prefix p x y : name_le (p ++ x) (p ++ y) = name_le x y.
Proof. induction p; simpl; [done|]. by rewrite Z.ltb_irrefl. Qed.

Lemma name_le_suffix x y s : length x = length y -> name_le (x ++ s) (y ++ s) = name_le x y.
Proof.
  revert y. induction x as [|a x IH]; intros [|b y] Hl; simplify_eq/=; [apply name_le_refl|].
  by rewrite IH.
Qed.

#[local] Instance file_le_total : Total file_le.
Proof.
  intros [x fx] [y fy]. unfold file_le. simpl. revert y. induction x as [|a x IH]; intros [|b y]; simpl; auto.
  destruct (Z.ltb_spec a b), (Z.ltb_spec b a); auto; lia.
Qed.

#[local] Instance file_le_trans : Transitive file_le.
Proof.
  intros [x fx] [y fy] [z fz]. unfold file_le. simpl. revert y z.
  induction x as [|a x IH]; intros [|b y] [|c z]; simpl; try done.
  destruct (Z.ltb_spec a b), (Z.ltb_spec b a), (Z.ltb_spec b c), (Z.ltb_spec c b), (Z.ltb_spec a c), (Z.ltb_spec c a);
    try done; try lia. apply IH.
Qed.

Lemma dec_width_fits fuel w z :
  z < 10 ^ Z.of_nat (w + fuel) -> z < 10 ^ Z.of_nat (dec_width fuel w z).
Proof.
  revert w. induction fuel as [|fuel IH]; intros w Hz; cbn [dec_width]; [by rewrite Nat.add_0_r in Hz|].
  destruct (Z.ltb_spec z (10 ^ Z.of_nat w)); [done|]. apply IH. by rewrite Nat.add_succ_r in Hz.
Qed.

Lemma fmt_dec_inj w a b :
  0 <= a < two64 -> 0 <= b < two64 -> fmt_dec w a = fmt_dec w b -> a = b.
Proof.
  intros Ha Hb Heq. assert (H20 : two64 < 10 ^ Z.of_nat (w + 20)).
  { rewrite Nat2Z.inj_add, Z.pow_add_r by lia. pose proof (pow10_pos w). unfold two64.
    change (Z.of_nat 20) with 20. lia. }
  pose proof (dec_width_fits 20 w a ltac:(lia)). pose proof (dec_width_fits 20 w b ltac:(lia)).
  unfold fmt_dec in Heq. apply (f_equal length) in Heq as Hl. rewrite !length_digits in Hl.
  rewrite <- Hl in *. pose proof (name_le_digits (dec_width 20 w a) a b) as H1.
  pose proof (name_le_digits (dec_width 20 w a) b a) as H2. rewrite Heq, name_le_refl in *.
  rewrite !Z.mod_small in H1, H2 by lia. specialize (H1 eq_refl). specialize (H2 eq_refl). lia.
Qed.

(** Any [u64] has at most 20 digits. *)
Lemma fmt_dec_20 z : in_u64 z -> fmt_dec 20 z = digits 20 z.
Proof.
  intros Hz. unfold fmt_dec. cbn [dec_width]. change (10 ^ Z.of_nat 20) with 100000000000000000000.
  destruct (Z.ltb_spec z 100000000000000000000); [done|]. unfold in_u64, two64 in Hz. lia.
Qed.

Lemma starts_with_app p x : starts_with p (p ++ x) = true.
Proof. induction p; simpl; [done|]. by rewrite Z.eqb_refl. Qed.

Lemma starts_with_common p x y : starts_with (p ++ x) (p ++ y) = starts_with x y.
Proof. induction p; simpl; [done|]. by rewrite Z.eqb_refl. Qed.

(** Up to the separator the names agree. *)
Lemma starts_with_sep x y r :
  Forall (fun c => 48 <= c <= 57) x -> Forall (fun c => 48 <= c <= 57) y ->
  starts_with (x ++ [underscore]) (y ++ underscore :: r) = true -> x = y.
Proof.
  intros Hx. revert y. induction Hx as [|a x Ha _ IH]; intros y Hy; destruct Hy as [|b y Hb Hy];
    cbn [app starts_with]; unfold underscore in *; intros [Hab%Z.eqb_eq H]%andb_prop; try lia; [done|].
  subst b. f_equal. by apply IH.
Qed.

Lemma after_last_dot_app x e : Forall (fun c => c <> dot) e -> after_last_dot (x ++ dot :: e) = Some e.
Proof.
  intros He. assert (Hn : after_last_dot e = None).
  { induction He as [|c e Hc _ IH]; [done|]. simpl. rewrite IH. by destruct (Z.eqb_spec c dot). }
  induction x as [|c x IH]; cbn [app after_last_dot]; [by rewrite Hn, Z.eqb_refl|]. by rewrite IH.
Qed.

(** ** A directory of written snapshots *)

Record Entry := mkEntry { en_shard : Z; en_seq : Z; en_ts : Z; en_payload : list Z }.

Record entry_ok (e : Entry) : Prop := {
  eo_shard : in_u32 (en_shard e);
  eo_seq : in_u64 (en_seq e);
  eo_ts : in_u64 (en_ts e);
  eo_len : Z.of_nat (length (en_payload e)) < two32
}.

Definition entry_path (e : Entry) : list Z := snapshot_path (en_shard e) (en_seq e).
Definition entry_file (e : Entry) : list Z * list Z :=
  (entry_path e, snapshot_bytes (en_shard e) (en_seq e) (en_ts e) (en_payload e)).
Definition entry_snapshot (e : Entry) : Snapshot :=
  mkSnapshot (mkMeta (en_shard e) (en_seq e) (en_ts e) (Z.of_nat (length (en_payload e)))
                (crc32 (en_payload e))) (en_payload e).

(** Successive writes, each with the fate of its file operations; the entries
    whose write returned [Ok]. *)
Fixpoint write_all (max_payload : nat) (ws : list (WriteIo * Entry)) (d : Dir) : list Entry * Dir :=
  match ws with
  | [] => ([], d)
  | (io, e) :: rest =>
      let '(res, d') := snapshot_write max_payload io (en_shard e) (en_seq e) (en_ts e) (en_payload e) d in
      let '(ok, d'') := write_all max_payload rest d' in
      (match res with Ok _ => e :: ok | Err _ => ok end, d'')
  end.

(** The entry of a shard with the highest sequence number, the last written
    of those. *)
Definition newest_step (shard_id : Z) (best : option Entry) (e : Entry) : option Entry :=
  if en_shard e =? shard_id then
    match best with
    | Some b => if en_seq b <=? en_seq e then Some e else Some b
    | None => Some e
    end
  else best.
Definition newest (shard_id : Z) (es : list Entry) : option Entry := foldl (newest_step shard_id) None es.

(** The candidate files of a shard after the writes [es]. *)
Definition stored_step (shard_id : Z) (c : Dir) (e : Entry) : Dir :=
  if en_shard e =? shard_id then dir_put (fst (entry_file e)) (snd (entry_file e)) c else c.
Definition stored (shard_id : Z) (es : list Entry) : Dir := foldl (stored_step shard_id) [] es.

Lemma path_extension shard_id seq :
  extension (snapshot_path shard_id seq) = Some ext_snap /\ extension (tmp_path shard_id seq) = Some ext_tmp.
Proof.
  unfold extension, snapshot_path, tmp_path, snapshot_stem, shard_prefix, str_shard.
  cbn [app tail]. rewrite !app_comm_cons, !after_last_dot_app; [done|..];
    repeat constructor; unfold dot; lia.
Qed.

Lemma path_starts_with shard_id shard' seq :
  in_u32 shard_id -> in_u32 shard' ->
  starts_with (shard_prefix shard_id) (snapshot_path shard' seq) = (shard' =? shard_id).
Proof.
  intros H1 H2. unfold snapshot_path, snapshot_stem, shard_prefix. destruct (Z.eqb_spec shard' shard_id) as [->|Hne].
  - rewrite <- !app_assoc. rewrite !starts_with_common. done.
  - rewrite <- !app_assoc, starts_with_common. cbn [app].
    destruct (starts_with _ _) eqn:Hs; [|done]. exfalso. apply starts_with_sep in Hs; [|apply digits_range..].
    apply fmt_dec_inj in Hs; [done|unfold in_u32, two32, two64 in *; lia..].
Qed.

(** A shard's own files are candidates, others' and temporary ones are not. *)
Lemma candidate_path shard_id e bytes :
  in_u32 shard_id -> in_u32 (en_shard e) ->
  is_candidate shard_id (entry_path e, bytes) = (en_shard e =? shard_id).
Proof.
  intros H1 H2. unfold is_candidate. cbn [fst]. destruct (path_extension (en_shard e) (en_seq e)) as [He _].
  unfold entry_path. rewrite He, bool_decide_true by done. by apply path_starts_with.
Qed.

Lemma candidate_tmp shard_id shard' seq bytes : is_candidate shard_id (tmp_path shard' seq, bytes) = false.
Proof.
  unfold is_candidate. cbn [fst]. destruct (path_extension shard' seq) as [_ ->].
  by rewrite bool_decide_false.
Qed.

Lemma filter_remove (P : list Z * list Z -> bool) name d :
  List.filter P (dir_remove name d) = dir_remove name (List.filter P d).
Proof.
  unfold dir_remove. induction d as [|f d IH]; [done|]. cbn [List.filter].
  destruct (negb _) eqn:Hn, (P f) eqn:Hp; cbn [List.filter]; rewrite ?Hn, ?Hp, IH; done.
Qed.

Lemma remove_none (P : list Z * list Z -> bool) name d :
  (forall bytes, P (name, bytes) = false) -> dir_remove name (List.filter P d) = List.filter P d.
Proof.
  intros HP. unfold dir_remove. induction d as [|[n b] d IH]; [done|]. cbn [List.filter].
  destruct (P (n, b)) eqn:Hp; [|done]. cbn [List.filter fst].
  rewrite bool_decide_false by (intros ->; by rewrite HP in Hp). cbn [negb]. by rewrite IH.
Qed.

Lemma filter_put_other (P : list Z * list Z -> bool) name bytes d :
  (forall bytes, P (name, bytes) = false) -> List.filter P (dir_put name bytes d) = List.filter P d.
Proof.
  intros HP. unfold dir_put. rewrite List.filter_app, filter_remove, remove_none by done.
  cbn [List.filter]. by rewrite HP, app_nil_r.
Qed.

(** A write changes a shard's candidates only by storing its own snapshot. *)
Lemma snapshot_write_candidates max_payload io e d shard_id :
  in_u32 shard_id -> entry_ok e ->
  let '(res, d') := snapshot_write max_payload io (en_shard e) (en_seq e) (en_ts e) (en_payload e) d in
  List.filter (is_candidate shard_id) d'
  = if is_ok res then stored_step shard_id (List.filter (is_candidate shard_id) d) e
    else List.filter (is_candidate shard_id) d.
Proof.
  intros Hs He. pose proof (candidate_tmp shard_id (en_shard e) (en_seq e)) as Htmp.
  unfold snapshot_write. destruct (_ <? _)%nat; [done|]. destruct io as [|[bytes|]]; cbn [is_ok]; [|by rewrite filter_put_other|done].
  unfold stored_step, entry_file. cbn [fst snd]. fold (entry_path e).
  destruct (Z.eqb_spec (en_shard e) shard_id) as [Heq|Hne].
  - unfold dir_put at 1 3. rewrite List.filter_app, !filter_remove, filter_put_other by done.
    rewrite (remove_none _ (tmp_path _ _)) by done. cbn [List.filter].
    rewrite candidate_path by (done || apply He). by rewrite (proj2 (Z.eqb_eq _ _)).
  - rewrite filter_put_other.
    + by rewrite filter_remove, remove_none, filter_put_other.
    + intros bytes. rewrite candidate_path by (done || apply He). by apply Z.eqb_neq.
Qed.

Lemma write_all_stored max_payload ws d shard_id :
  in_u32 shard_id -> Forall (fun w => entry_ok (snd w)) ws ->
  let '(ok, d') := write_all max_payload ws d in
  Forall entry_ok ok /\
  List.filter (is_candidate shard_id) d'
  = foldl (stored_step shard_id) (List.filter (is_candidate shard_id) d) ok.
Proof.
  intros Hs Hws. revert d. induction Hws as [|[io e] ws He _ IH]; intros d; cbn [write_all]; [done|].
  pose proof (snapshot_write_candidates max_payload io e d shard_id Hs He) as Hc.
  destruct (snapshot_write _ _ _ _ _ _ _) as [res d1]. specialize (IH d1).
  destruct (write_all max_payload ws d1) as [ok d2]. destruct IH as [Hok IH]. rewrite IH, Hc.
  by destruct res; cbn [is_ok foldl]; (split; [try by constructor|]).
Qed.

(** What the stored files are: one per sequence number, none newer than the
    best, and the best is there. *)
Record stored_inv (shard_id : Z) (best : option Entry) (c : Dir) : Prop := {
  st_files f : f ∈ c -> exists e b, f = entry_file e /\ entry_ok e /\ best = Some b
    /\ en_shard e = shard_id /\ en_seq e <= en_seq b /\ (en_seq e = en_seq b -> e = b);
  st_best b : best = Some b -> entry_file b ∈ c /\ entry_ok b /\ en_shard b = shard_id
}.

Lemma entry_path_le e1 e2 :
  entry_ok e1 -> entry_ok e2 -> en_shard e1 = en_shard e2 ->
  name_le (entry_path e1) (entry_path e2) = true -> en_seq e1 <= en_seq e2.
Proof.
  intros H1 H2 Hs. unfold entry_path, snapshot_path, snapshot_stem.
  rewrite !fmt_dec_20 by (apply H1 || apply H2). rewrite Hs, <- !app_assoc, name_le_prefix, name_le_suffix
    by (by rewrite !length_digits). intros Hle%name_le_digits.
  pose proof (eo_seq _ H1). pose proof (eo_seq _ H2). change (10 ^ Z.of_nat 20) with 100000000000000000000 in Hle.
  unfold in_u64, two64 in *. by rewrite !Z.mod_small in Hle by lia.
Qed.

Lemma entry_path_inj e1 e2 :
  entry_ok e1 -> entry_ok e2 -> en_shard e1 = en_shard e2 -> entry_path e1 = entry_path e2 -> en_seq e1 = en_seq e2.
Proof.
  intros H1 H2 Hs Hp. pose proof (entry_path_le e1 e2 H1 H2 Hs) as Ha.
  pose proof (entry_path_le e2 e1 H2 H1 (eq_sym Hs)) as Hb. rewrite Hp, name_le_refl in Ha, Hb.
  specialize (Ha eq_refl). specialize (Hb eq_refl). lia.
Qed.

Lemma elem_of_dir_put f name bytes c : f ∈ dir_put name bytes c <-> (f ∈ c /\ fst f <> name) \/ f = (name, bytes).
Proof.
  unfold dir_put, dir_remove. rewrite elem_of_app, list_elem_of_singleton.
  rewrite !list_elem_of_In, List.filter_In, negb_true_iff, bool_decide_eq_false. done.
Qed.

Lemma stored_step_inv shard_id best c e :
  entry_ok e -> stored_inv shard_id best c ->
  stored_inv shard_id (newest_step shard_id best e) (stored_step shard_id c e).
Proof.
  intros He [Hf Hb]. unfold newest_step, stored_step. destruct (Z.eqb_spec (en_shard e) shard_id) as [Hs|]; [|by split].
  assert (Hself : entry_file e ∈ dir_put (fst (entry_file e)) (snd (entry_file e)) c)
    by (apply elem_of_dir_put; by right).
  destruct best as [b|].
  2:{ split; [|by intros ? [= <-]]. intros f [[Hin _]| ->]%elem_of_dir_put; [|by exists e, e].
      destruct (Hf f Hin) as (? & ? & _ & _ & ? & _). done. }
  destruct (Hb b eq_refl) as (Hbin & Hbok & Hbs). destruct (Z.leb_spec (en_seq b) (en_seq e)) as [Hle|Hlt].
  - split; [|by intros ? [= <-]]. intros f [[Hin Hne]| ->]%elem_of_dir_put; [|by exists e, e].
    destruct (Hf f Hin) as (e1 & b1 & -> & Hok1 & [= <-] & Hs1 & Hle1 & Heq1). exists e1, e.
    split_and!; try done; [lia|]. intros Hse. exfalso. apply Hne. simpl. unfold entry_path. by rewrite Hse, Hs1, Hs.
  - split.
    + intros f [[Hin Hne]| ->]%elem_of_dir_put.
      * destruct (Hf f Hin) as (e1 & b1 & -> & Hok1 & [= <-] & ?). by exists e1, b.
      * exists e, b. split_and!; try done; lia.
    + intros b' [= <-]. split_and!; [|done..]. apply elem_of_dir_put. left. split; [done|].
      intros Hp. apply entry_path_inj in Hp; [lia|done..|congruence].
Qed.

Lemma stored_newest shard_id es best c :
  Forall entry_ok es -> stored_inv shard_id best c ->
  stored_inv shard_id (foldl (newest_step shard_id) best es) (foldl (stored_step shard_id) c es).
Proof.
  intros Hes. revert best c. induction Hes as [|e es He _ IH]; intros best c Hi; [done|].
  cbn [foldl]. by apply IH, stored_step_inv.
Qed.

Lemma last_sorted (c : Dir) x y : y ∈ c -> last (merge_sort file_le c) = Some x -> file_le y x.
Proof.
  intros Hy Hl. apply last_Some in Hl as [l Hl].
  assert (Hs : StronglySorted file_le (l ++ [x])) by (rewrite <- Hl; apply StronglySorted_merge_sort; apply _).
  assert (Hin : y ∈ l ++ [x]) by (rewrite <- Hl; by rewrite merge_sort_Permutation).
  apply elem_of_app in Hin as [Hin|Heq%list_elem_of_singleton]; [|subst y; apply name_le_refl].
  clear -Hs Hin. induction l as [|a l IH]; [by apply elem_of_nil in Hin|].
  apply StronglySorted_inv in Hs as [Hs Ha]. apply elem_of_cons in Hin as [->|Hin]; [|by apply IH].
  rewrite Forall_forall in Ha. apply Ha, elem_of_app. right. by apply list_elem_of_singleton.
Qed.

Section Laws.
Context (crc32_u32 : forall data, in_u32 (crc32 data)).

(** The header of a written file, with any payload of the same length. *)
Lemma read_written e payload' :
  entry_ok e -> length payload' = length (en_payload e) ->
  read_snapshot (take 48 (snapshot_bytes (en_shard e) (en_seq e) (en_ts e) (en_payload e)) ++ payload')
  = if crc32 (en_payload e) =? crc32 payload'
    then Ok (mkSnapshot (meta (entry_snapshot e)) payload')
    else Err (Crc32Mismatch (crc32 (en_payload e)) (crc32 payload')).
Proof.
  intros [Hs Hq Ht Hl] Hlen. pose proof (crc32_u32 (en_payload e)) as Hc.
  unfold snapshot_bytes. rewrite take_app_length' by done. rewrite <- !app_assoc.
  set (data := SNAP_MAGIC ++ _).
  assert (Hdl : length data = (48 + length payload')%nat).
  { unfold data. rewrite !length_app, !length_le_bytes. simpl. lia. }
  assert (Hskip : forall off n, (8 <= off)%nat -> le_at off n data = le_at (off - 8) n (drop 8 data)).
  { intros off n Hoff. unfold le_at, slice. rewrite drop_drop. repeat f_equal. lia. }
  unfold read_snapshot. rewrite Hdl. unfold SNAP_HEADER_SIZE. rewrite (proj2 (Nat.ltb_ge _ _)) by lia.
  change (slice 0 8 data) with SNAP_MAGIC. rewrite bool_decide_true by done. cbn [negb].
  rewrite !Hskip by lia. change (drop 8 data) with (le_bytes 4 SNAP_VERSION ++ le_bytes 4 (en_shard e)
    ++ le_bytes 8 (en_seq e) ++ le_bytes 8 (en_ts e) ++ le_bytes 4 (Z.of_nat (length (en_payload e)))
    ++ le_bytes 4 (crc32 (en_payload e)) ++ replicate 8 0 ++ payload').
  cbn [Nat.sub]. skip_fields. unfold in_u32, in_u64, two32, two64 in *.
  rewrite !le_at_here by (simpl Z.of_nat; unfold SNAP_VERSION; lia). rewrite Z.eqb_refl. cbn [negb].
  rewrite Nat2Z.id, (proj2 (Nat.ltb_ge _ _)) by lia.
  assert (Hp : slice 48 (length (en_payload e)) data = payload').
  { unfold data. rewrite !app_assoc. set (hdr := _ ++ replicate 8 0).
    replace 48%nat with (length hdr + 0)%nat by (unfold hdr; rewrite !length_app, !length_le_bytes; done).
    rewrite slice_app_r. unfold slice. rewrite drop_0. apply take_ge. lia. }
  rewrite Hp. by destruct (_ =? _).
Qed.

(** ** Theorems *)

(** Snapshots round-trip and corruption is caught: reading a written file
    gives back its metadata and payload, and the same file with another
    payload of that length is accepted only if the checksums agree. *)
Theorem snapshot_read_back e payload' :
  entry_ok e -> length payload' = length (en_payload e) ->
  let file := snapshot_bytes (en_shard e) (en_seq e) (en_ts e) (en_payload e) in
  read_snapshot file = Ok (entry_snapshot e)
  /\ read_snapshot (take SNAP_HEADER_SIZE file ++ payload')
     = if crc32 (en_payload e) =? crc32 payload'
       then Ok (mkSnapshot (meta (entry_snapshot e)) payload')
       else Err (Crc32Mismatch (crc32 (en_payload e)) (crc32 payload')).
Proof.
  intros He Hlen file. split; [|by apply read_written].
  rewrite <- (take_drop 48 file). assert (Hd : drop 48 file = en_payload e) by done. rewrite Hd.
  unfold file. rewrite read_written by done. by rewrite Z.eqb_refl.
Qed.

(** The newest snapshot is found: after any writes to a directory, some
    of them failing at any point, [latest_snapshot] returns the shard's
    successfully written snapshot with the highest sequence number, and [None]
    only if the shard has none. *)
Theorem snapshot_latest_newest max_payload ws ok d shard_id :
  in_u32 shard_id -> Forall (fun w => entry_ok (snd w)) ws ->
  write_all max_payload ws [] = (ok, d) ->
  latest_snapshot (Some d) shard_id = Ok (option_map entry_snapshot (newest shard_id ok)).
Proof.
  intros Hs Hws Hw. pose proof (write_all_stored max_payload ws [] shard_id Hs Hws) as Hst. rewrite Hw in Hst.
  destruct Hst as [Hok Hc]. cbn [latest_snapshot]. rewrite Hc. cbn [List.filter]. f_equal.
  destruct (stored_newest shard_id ok None [] Hok) as [Hf Hb]; [by split; [intros f Hf%elem_of_nil|]|].
  fold (stored shard_id ok) in *. fold (newest shard_id ok) in *. set (c := stored shard_id ok) in *.
  destruct (last (merge_sort file_le c)) as [x|] eqn:Hl.
  - apply last_Some in Hl as Hl'. destruct Hl' as [l Hl']. rewrite Hl', rev_unit. cbn [first_valid].
    assert (Hx : x ∈ c) by (rewrite <- (merge_sort_Permutation file_le c), Hl'; apply elem_of_app; right; by apply list_elem_of_singleton).
    destruct (Hf x Hx) as (e & b & -> & He & Hbest & Hse & Hle & Heq). rewrite Hbest.
    destruct (Hb b Hbest) as (Hbin & Hbok & Hbs). pose proof (last_sorted c _ _ Hbin Hl) as Hfl.
    apply entry_path_le in Hfl; [|done..|congruence]. rewrite <- (Heq ltac:(lia)).
    cbn [snd entry_file]. rewrite <- (take_drop 48 (snapshot_bytes _ _ _ _)).
    change (drop 48 (snapshot_bytes (en_shard e) (en_seq e) (en_ts e) (en_payload e))) with (en_payload e).
    rewrite read_written by done. by rewrite Z.eqb_refl.
  - apply last_None in Hl. rewrite Hl. destruct (newest shard_id ok) as [b|] eqn:Hn; [|done].
    destruct (Hb b eq_refl) as (Hbin & _). rewrite <- (merge_sort_Permutation file_le c), Hl in Hbin.
    by apply elem_of_nil in Hbin.
Qed.
End Laws.
End Snapshots.

(** ** Witnesses *)

Module SnapshotDemo.
Definition crc (data : list Z) : Z := sumZ data mod two32.
Lemma crc_u32 data : in_u32 (crc data).
Proof. apply Z.mod_pos_bound. unfold two32. lia. Qed.

Definition e10 : Entry := mkEntry 0 10 7 [1; 2; 3].
Definition e9 : Entry := mkEntry 0 9 8 [4].
Definition other : Entry := mkEntry 1 50 8 [5].
Lemma e10_ok : entry_ok e10.
Proof. split; simpl; unfold in_u32, in_u64, two32, two64; lia. Qed.

(** The write of snapshot 11 is cut short, leaving a temporary file. *)
Definition writes : list (WriteIo * Entry) :=
  [(IoDone, e10); (IoDone, other); (IoDone, e9); (IoFailed (Some [77; 82]), mkEntry 0 11 9 [6])].
Lemma writes_ok : Forall (fun w => entry_ok (snd w)) writes.
Proof. repeat constructor; simpl; unfold two32, two64; lia. Qed.

Lemma snapshot_read_back_witness :
  read_snapshot crc (snapshot_bytes crc 0 10 7 [1; 2; 3]) = Ok (entry_snapshot crc e10).
Proof. exact (proj1 (snapshot_read_back crc crc_u32 e10 [1; 2; 3] e10_ok eq_refl)). Defined.

Lemma snapshot_latest_newest_witness :
  latest_snapshot crc (Some (snd (write_all crc 100 writes []))) 0 = Ok (Some (entry_snapshot crc e10)).
Proof.
  refine (snapshot_latest_newest crc crc_u32 100 writes [e10; other; e9] _ 0 _ writes_ok _);
    [unfold in_u32, two32; lia|vm_compute; reflexivity].
Defined.
End SnapshotDemo.
