(* ===== verification/Wal.v ===== *)
(** * Wal: crates/wal (log.rs, recovery.rs)

    The write-ahead log at the byte level: the record format, the writer over
    a memory-mapped file of fixed capacity, the scan that positions a reopened
    writer and the scan of recovery.  CRC-32 (crc32fast) and the serialisation
    of commands and events (bincode) are parameters.  What [msync] answers is
    an argument of the operations that call it; offsets are [nat].

    The map is the page cache: what the process reads and writes.  What a
    crash leaves is another matter, and the writer carries it as [disk]: for
    every byte of the file either the value it is known to have on the disk,
    or nothing, when it has been written since the last [msync] that covered
    it and the kernel may or may not have written it back. *)

From S2P Require Import Prelude CoreTypes Bytes Snapshot Engine.
#[local] Open Scope Z_scope.

(** ** Constants and errors (log.rs) *)

(** [b"MREWAL01"]. *)
Definition MAGIC : list Z := [77; 82; 69; 87; 65; 76; 48; 49].
Definition VERSION : Z := 2.
Definition FILE_HEADER_SIZE : nat := 32.
Definition RECORD_HEADER_SIZE : nat := 32.

Inductive WalError :=
| Wal_Io
| CapacityExhausted (capacity needed : nat)
| Serialise
| StaleTerm (got highest : Z)
| InvalidMagic
| UnsupportedVersion (v : Z).

Record WalWriterConfig := mkWalConfig { file_capacity : nat; sync_on_write : bool }.

Definition DEFAULT_FILE_CAPACITY : Z := 512 * 1024 * 1024.
Definition WalWriterConfig_default : WalWriterConfig := mkWalConfig (Z.to_nat DEFAULT_FILE_CAPACITY) true.

(** [(n + 7) & !7]. *)
Definition align8 (n : nat) : nat := Z.to_nat (Z.land (Z.of_nat n + 7) (Z.lnot 7)).

(** ** The libraries the crate calls *)

(** crc32fast and bincode, with what the formats rely on: a checksum is a
    [u32]; deserialising what was serialised gives it back, and what is
    serialised stays below the 4 GiB the length field can say.  And memmap2:
    [msync] works on whole pages, so [flush_range] starts at the beginning of
    the page of its offset, [page_offset] bytes before it; the file header and
    the first byte after it are in one page. *)
Class WalCodec := {
  crc32 : list Z -> Z;
  serialise_command : InboundCommand -> Result (list Z) WalError;
  deserialise_command : list Z -> option InboundCommand;
  serialise_event : Event -> Result (list Z) WalError;
  deserialise_event : list Z -> option Event;
  page_offset : nat -> nat
}.

Class WalCodecLaws (C : WalCodec) : Prop := {
  crc32_u32 data : in_u32 (crc32 data);
  command_roundtrip cmd payload : serialise_command cmd = Ok payload -> deserialise_command payload = Some cmd;
  command_len cmd payload : serialise_command cmd = Ok payload -> Z.of_nat (length payload) < two32;
  event_roundtrip ev payload : serialise_event ev = Ok payload -> deserialise_event payload = Some ev;
  event_len ev payload : serialise_event ev = Ok payload -> Z.of_nat (length payload) < two32;
  page_header : page_offset FILE_HEADER_SIZE = FILE_HEADER_SIZE
}.

Section Wal.
Context `{C : WalCodec}.

(** ** log.rs: the writer *)

Record FileWalWriter := mkWal {
  mmap : list Z;
  cursor : nat;
  config : WalWriterConfig;
  last_seq : Z;
  highest_term : Z;
  disk : list (option Z)
}.

(** What a crash (of the process, the kernel or the machine) may leave in the
    file: the bytes known to be on the disk, and anything elsewhere. *)
Definition crash_leaves (w : FileWalWriter) (file : list Z) : Prop :=
  forall i v, disk w !! i = Some (Some v) -> file !! i = Some v.

(** A store to the map leaves the bytes on the disk undetermined. *)
Definition dirty (offset len : nat) (d : list (option Z)) : list (option Z) :=
  splice offset (replicate len None) d.

(** [MmapMut::flush_range] when it succeeds: [msync] of the range, extended
    down to the start of its first page. *)
Definition flush_range (offset len : nat) (m : list Z) (d : list (option Z)) : list (option Z) :=
  let start := (offset - page_offset offset)%nat in
  splice start (Some <$> slice start (offset + len - start) m) d.

(** The bytes of one record: header, payload, padding to 8. *)
Definition record_bytes (seq term ts_ns : Z) (payload : list Z) : list Z :=
  let payload_len := length payload in
  le_bytes 8 seq ++ le_bytes 8 ts_ns ++ le_bytes 4 (Z.of_nat payload_len)
    ++ le_bytes 4 (crc32 payload) ++ le_bytes 8 term ++ payload
    ++ replicate (align8 (RECORD_HEADER_SIZE + payload_len) - (32 + payload_len)) 0.

(** [synced] is whether [flush_range] succeeds, if it is called.  When it
    fails the bytes are in the map, but the cursor stays and nothing is known
    of what reached the disk. *)
Definition write_record (synced : bool) (seq term ts_ns : Z) (payload : list Z) (w : FileWalWriter) :
    Result nat WalError * FileWalWriter :=
  let record_size := align8 (RECORD_HEADER_SIZE + length payload) in
  let end_ := (cursor w + record_size)%nat in
  if (length (mmap w) <? end_)%nat then (Err (CapacityExhausted (length (mmap w)) end_), w)
  else
    let offset := cursor w in
    let m := splice offset (record_bytes seq term ts_ns payload) (mmap w) in
    let d := dirty offset record_size (disk w) in
    if sync_on_write (config w) then
      if synced
      then (Ok offset, mkWal m end_ (config w) seq (highest_term w) (flush_range offset record_size m d))
      else (Err Wal_Io, mkWal m (cursor w) (config w) (last_seq w) (highest_term w) d)
    else (Ok offset, mkWal m end_ (config w) seq (highest_term w) d).

(** [flush]: an [msync] of the whole map. *)
Definition flush (synced : bool) (w : FileWalWriter) : Result unit WalError * FileWalWriter :=
  if synced
  then (Ok tt, mkWal (mmap w) (cursor w) (config w) (last_seq w) (highest_term w) (Some <$> mmap w))
  else (Err Wal_Io, w).

Definition append (synced : bool) (sc : SequencedCommand) (w : FileWalWriter) :
    Result nat WalError * FileWalWriter :=
  if sc_term sc <? highest_term w then (Err (StaleTerm (sc_term sc) (highest_term w)), w)
  else
    let w := mkWal (mmap w) (cursor w) (config w) (last_seq w) (sc_term sc) (disk w) in
    match serialise_command (sc_cmd sc) with
    | Err e => (Err e, w)
    | Ok payload => write_record synced (sc_seq sc) (sc_term sc) (sc_ts_ns sc) payload w
    end.

(** [impl WalWriter for FileWalWriter]; [now_ns] is what the clock returned. *)
Definition file_append_event (synced : bool) (now_ns : Z) (ev : Event) (w : FileWalWriter) :
    Result unit WalError * FileWalWriter :=
  match serialise_event ev with
  | Err e => (Err e, w)
  | Ok payload =>
      match write_record synced (event_seq ev) 0 now_ns payload w with
      | (Ok _, w') => (Ok tt, w')
      | (Err e, w') => (Err e, w')
      end
  end.

(** ** Reading one record

    The reads and tests at the head of the loop of [scan_to_end] and of
    [scan_wal], which are the same in both. *)
Inductive RecordAt :=
| AtEnd                                 (** no room for a header *)
| Unwritten                             (** sequence number 0 *)
| Truncated                             (** the payload runs past the end *)
| Corrupt                               (** checksum mismatch *)
| RecordOk (seq ts_ns term : Z) (payload : list Z) (next : nat).

Definition record_at (data : list Z) (offset : nat) : RecordAt :=
  if (length data <? offset + RECORD_HEADER_SIZE)%nat then AtEnd
  else
    let seq := le_at offset 8 data in
    if seq =? 0 then Unwritten
    else
      let ts_ns := le_at (offset + 8) 8 data in
      let len := Z.to_nat (le_at (offset + 16) 4 data) in
      let crc_stored := le_at (offset + 20) 4 data in
      let term := le_at (offset + 24) 8 data in
      let payload_start := (offset + RECORD_HEADER_SIZE)%nat in
      if (length data <? payload_start + len)%nat then Truncated
      else
        let payload := slice payload_start len data in
        if negb (crc32 payload =? crc_stored) then Corrupt
        else RecordOk seq ts_ns term payload (offset + align8 (RECORD_HEADER_SIZE + len))%nat.

(** ** log.rs: reopening *)

Fixpoint scan_to_end_from (fuel : nat) (data : list Z) (offset : nat) (last_seq highest_term : Z) :
    Exec (nat * Z * Z) :=
  match fuel with
  | O => OutOfFuel
  | S fuel' =>
      match record_at data offset with
      | RecordOk seq _ term _ next => scan_to_end_from fuel' data next seq term
      | _ => Val (offset, last_seq, highest_term)
      end
  end.

Definition scan_fuel (data : list Z) : nat := S (length data).

Definition scan_to_end (data : list Z) : Exec (nat * Z * Z) :=
  scan_to_end_from (scan_fuel data) data FILE_HEADER_SIZE 0 0.

Definition write_file_header (m : list Z) : list Z :=
  splice 8 (le_bytes 4 VERSION) (splice 0 MAGIC m).

Definition validate_file_header (m : list Z) : Result unit WalError :=
  if bool_decide (slice 0 8 m = MAGIC) then
    let version := le_at 8 4 m in
    if version =? VERSION then Ok tt else Err (UnsupportedVersion version)
  else Err InvalidMagic.

(** [open] on a file with the bytes [file] (empty if just created).  The
    slices of the header panic on a map of fewer than 12 bytes; memmap2 maps an
    empty file to an empty slice, so a capacity of 0 panics there as well.
    Nothing of the file is known to be on the disk: the header of a new file
    has not been synced, and an old file may have been read from the cache. *)
Definition open (file : list Z) (cfg : WalWriterConfig) : Exec (Result FileWalWriter WalError) :=
  let m := set_len (file_capacity cfg) file in
  if (length m <? 12)%nat then Panic
  else if negb (bool_decide (slice 0 8 m = MAGIC)) then
    Val (Ok (mkWal (write_file_header m) FILE_HEADER_SIZE cfg 0 0 (replicate (length m) None)))
  else
    match validate_file_header m with
    | Err e => Val (Err e)
    | Ok _ =>
        let! '(cursor, last_seq, highest_term) := scan_to_end m in
        Val (Ok (mkWal m cursor cfg last_seq highest_term (replicate (length m) None)))
    end.

(** ** recovery.rs *)

Record ScanResult := mkScan {
  commands : list SequencedCommand;
  corrupt_records : nat;
  seq_gaps : nat;
  sr_highest_term : Z
}.

(** The loop of [scan_wal]; [sr] and [last_seq] are its local variables. *)
Fixpoint scan_from (fuel : nat) (data : list Z) (after_seq : Z) (offset : nat) (last_seq : Z)
    (sr : ScanResult) : Exec ScanResult :=
  match fuel with
  | O => OutOfFuel
  | S fuel' =>
      match record_at data offset with
      | AtEnd | Unwritten => Val sr
      | Truncated | Corrupt =>
          Val (mkScan (commands sr) (S (corrupt_records sr)) (seq_gaps sr) (sr_highest_term sr))
      | RecordOk seq ts_ns term payload next =>
          if term <? sr_highest_term sr then scan_from fuel' data after_seq next last_seq sr
          else
            let gap := negb (seq =? wrap_u64 (last_seq + 1)) && negb (last_seq =? 0)
                         && negb (last_seq =? after_seq) in
            let gaps := if gap then S (seq_gaps sr) else seq_gaps sr in
            if after_seq <? seq then
              match deserialise_command payload with
              | Some cmd =>
                  scan_from fuel' data after_seq next seq
                    (mkScan (commands sr ++ [mkSC term seq ts_ns cmd]) (corrupt_records sr) gaps term)
              | None => Val (mkScan (commands sr) (S (corrupt_records sr)) gaps term)
              end
            else
              scan_from fuel' data after_seq next seq
                (mkScan (commands sr) (corrupt_records sr) gaps term)
      end
  end.

Definition scan_wal (data : list Z) (after_seq : Z) : Exec ScanResult :=
  if (length data <? FILE_HEADER_SIZE)%nat then Val (mkScan [] 0 0 0)
  else if negb (bool_decide (slice 0 8 data = MAGIC)) then Val (mkScan [] 0 0 0)
  else scan_from (scan_fuel data) data after_seq FILE_HEADER_SIZE after_seq (mkScan [] 0 0 0).

Record RecoveryOutput := mkRecovery {
  ro_snapshot : option Snapshot;
  ro_snapshot_seq : Z;
  ro_commands : list SequencedCommand;
  last_recovered_seq : Z;
  ro_corrupt_records : nat;
  ro_seq_gaps : nat;
  ro_highest_term : Z
}.

Inductive RecoveryError :=
| Recovery_Io
| Recovery_Snapshot (e : SnapshotError)
| WalNotFound
| InvalidWalHeader
| Deserialise.

(** [wal_file] is [None] when the path does not exist, [snapshot_dir] when the
    directory does not. *)
Definition recover (wal_file : option (list Z)) (snapshot_dir : option Dir) (shard_id : Z) :
    Exec (Result RecoveryOutput RecoveryError) :=
  match wal_file with
  | None => Val (Err WalNotFound)
  | Some wal_bytes =>
      match latest_snapshot crc32 snapshot_dir shard_id with
      | Err e => Val (Err (Recovery_Snapshot e))
      | Ok snapshot =>
          let snapshot_seq := match snapshot with Some s => sm_seq (meta s) | None => 0 end in
          let! records := scan_wal wal_bytes snapshot_seq in
          let last_recovered_seq := match last (commands records) with Some c => sc_seq c | None => 0 end in
          Val (Ok (mkRecovery snapshot snapshot_seq (commands records) last_recovered_seq
                     (corrupt_records records) (seq_gaps records) (sr_highest_term records)))
      end
  end.

(** ** The format as a list of records *)

Record Rec := mkRec { r_seq : Z; r_term : Z; r_ts_ns : Z; r_payload : list Z }.

Definition rec_bytes (r : Rec) : list Z := record_bytes (r_seq r) (r_term r) (r_ts_ns r) (r_payload r).
Definition recs_bytes (rs : list Rec) : list Z := concat (map rec_bytes rs).

(** The fields fit their widths and the sequence number is not the marker of
    the unwritten region. *)
Record rec_ok (r : Rec) : Prop := {
  ro_seq : in_u64 (r_seq r);
  ro_seq0 : r_seq r <> 0;
  ro_term : in_u64 (r_term r);
  ro_ts : in_u64 (r_ts_ns r);
  ro_len : Z.of_nat (length (r_payload r)) < two32
}.

Definition file_header : list Z := MAGIC ++ le_bytes 4 VERSION ++ replicate 20 0.

#[local] Arguments rec_bytes : simpl never.
#[local] Arguments record_bytes : simpl never.

Lemma align8_eq n : align8 n = ((n + 7) / 8 * 8)%nat.
Proof.
  unfold align8. rewrite <- Z.ldiff_land. change 7 with (Z.ones 3) at 2.
  rewrite Z.ldiff_ones_r, Z.shiftr_div_pow2, Z.shiftl_mul_pow2 by lia.
  change (2 ^ 3) with 8. change 8 with (Z.of_nat 8). change 7 with (Z.of_nat 7).
  rewrite <- Nat2Z.inj_add, <- Nat2Z.inj_div, <- Nat2Z.inj_mul. apply Nat2Z.id.
Qed.

Lemma align8_ge n : (n <= align8 n)%nat.
Proof. rewrite align8_eq. pose proof (Nat.div_mod_eq (n + 7) 8). pose proof (Nat.mod_upper_bound (n + 7) 8). lia. Qed.

Lemma length_record_bytes seq term ts payload :
  length (record_bytes seq term ts payload) = align8 (RECORD_HEADER_SIZE + length payload).
Proof.
  unfold record_bytes. rewrite !length_app, !length_le_bytes, length_replicate.
  pose proof (align8_ge (RECORD_HEADER_SIZE + length payload)). unfold RECORD_HEADER_SIZE in *. lia.
Qed.

Lemma recs_bytes_cons r rs : recs_bytes (r :: rs) = rec_bytes r ++ recs_bytes rs.
Proof. done. Qed.

Lemma recs_bytes_snoc rs r : recs_bytes (rs ++ [r]) = recs_bytes rs ++ rec_bytes r.
Proof. unfold recs_bytes. rewrite map_app, concat_app. cbn [map concat]. by rewrite app_nil_r. Qed.

Lemma ltb_add_l p a b : ((p + a <? p + b) = (a <? b))%nat.
Proof. destruct (Nat.ltb_spec a b), (Nat.ltb_spec (p + a) (p + b)); (done || lia). Qed.

(** A read past a prefix is a read of the rest. *)
Lemma record_at_app pre data :
  record_at (pre ++ data) (length pre)
  = match record_at data 0 with
    | RecordOk seq ts term payload next => RecordOk seq ts term payload (length pre + next)
    | other => other
    end.
Proof.
  unfold record_at. rewrite <- !(Nat.add_assoc (length pre)), length_app, slice_app_r, !le_at_app_r, le_at_app_0.
  rewrite ltb_add_l. change (0 + RECORD_HEADER_SIZE)%nat with RECORD_HEADER_SIZE.
  destruct (length data <? RECORD_HEADER_SIZE)%nat; [done|].
  destruct (le_at 0 8 data =? 0); [done|].
  rewrite ltb_add_l. simpl.
  destruct (length data <? _)%nat; [done|]. by destruct (negb _).
Qed.

(** A well-formed record reads back, whatever follows it. *)
Lemma record_at_ok `{!WalCodecLaws C} r post :
  rec_ok r ->
  record_at (rec_bytes r ++ post) 0
  = RecordOk (r_seq r) (r_ts_ns r) (r_term r) (r_payload r) (length (rec_bytes r)).
Proof.
  intros [Hs Hs0 Ht Hts Hl]. destruct r as [seq term ts payload].
  unfold rec_bytes. cbn [r_seq r_term r_ts_ns r_payload] in *.
  pose proof (align8_ge (RECORD_HEADER_SIZE + length payload)) as Ha.
  pose proof (crc32_u32 payload) as Hc.
  unfold record_at. rewrite length_app, length_record_bytes.
  unfold RECORD_HEADER_SIZE in *. rewrite (proj2 (Nat.ltb_ge _ _)) by lia.
  unfold record_bytes. rewrite <- !app_assoc. rewrite !Nat.add_0_l. skip_fields.
  unfold in_u64, in_u32, two64, two32 in *.
  rewrite !le_at_here by (simpl Z.of_nat; lia). rewrite (proj2 (Z.eqb_neq _ _)) by done.
  rewrite Nat2Z.id, (proj2 (Nat.ltb_ge _ _)) by lia.
  rewrite slice_here by done. by rewrite Z.eqb_refl.
Qed.

(** ** The writer *)

(** The file is the header, the committed records and what lies beyond the
    cursor; the bytes beyond are all zero when [clean]. *)
Record wal_inv (w : FileWalWriter) (rs : list Rec) : Prop := {
  wi_map : take (cursor w) (mmap w) = file_header ++ recs_bytes rs;
  wi_cursor : cursor w = (FILE_HEADER_SIZE + length (recs_bytes rs))%nat;
  wi_fits : (cursor w <= length (mmap w))%nat;
  wi_disk : length (disk w) = length (mmap w)
}.
Definition clean (w : FileWalWriter) : Prop :=
  drop (cursor w) (mmap w) = replicate (length (mmap w) - cursor w) 0.

Lemma wal_inv_map w rs : wal_inv w rs -> mmap w = file_header ++ recs_bytes rs ++ drop (cursor w) (mmap w).
Proof. intros H. rewrite app_assoc, <- (wi_map _ _ H). by rewrite take_drop. Qed.

Lemma length_file_header : length file_header = FILE_HEADER_SIZE.
Proof. reflexivity. Qed.

Ltac wal_fields := cbn [mmap cursor last_seq highest_term config disk].

(** *** The page cache and the disk *)

(** The first [p] bytes of the map are on the disk. *)
Definition on_disk (p : nat) (d : list (option Z)) (m : list Z) : Prop :=
  take p d = Some <$> take p m.

Lemma on_disk_mono p q d m : (q <= p)%nat -> on_disk p d m -> on_disk q d m.
Proof.
  unfold on_disk. intros Hq H. replace q with (q `min` p)%nat by lia.
  rewrite <- !take_take, H. by rewrite !fmap_take.
Qed.

Lemma take_splice {A} p off (bs l : list A) :
  (p <= off)%nat -> (off <= length l)%nat -> take p (splice off bs l) = take p l.
Proof.
  intros. unfold splice. rewrite take_app_le by (rewrite length_take; lia).
  rewrite take_take. f_equal. lia.
Qed.

Lemma length_dirty off n d : (off + n <= length d)%nat -> length (dirty off n d) = length d.
Proof. intros. unfold dirty. apply length_splice. by rewrite length_replicate. Qed.

(** Stores beyond the durable part do not touch it. *)
Lemma on_disk_dirty p off bs d m :
  (p <= off)%nat -> (off <= length d)%nat -> (off <= length m)%nat ->
  on_disk p d m -> on_disk p (dirty off (length bs) d) (splice off bs m).
Proof. intros. unfold on_disk, dirty. by rewrite !take_splice by lia. Qed.

Lemma length_flush_range off n m d :
  (off + n <= length m)%nat -> length d = length m -> length (flush_range off n m d) = length m.
Proof.
  intros Hn Hd. unfold flush_range, slice.
  rewrite length_splice; [done|]. rewrite length_fmap, length_take, length_drop. lia.
Qed.

Lemma flush_range_reaches off n m d :
  (off + n <= length m)%nat -> length d = length m ->
  on_disk (off - page_offset off) d m -> on_disk (off + n) (flush_range off n m d) m.
Proof.
  intros Hn Hd H. unfold on_disk, flush_range in *.
  set (st := (off - page_offset off)%nat) in *. unfold splice, slice.
  rewrite app_assoc, take_app_length'.
  - rewrite H, <- fmap_app. f_equal. rewrite <- (take_drop st (take (off + n) m)).
    rewrite take_take, skipn_firstn_comm. do 2 f_equal. lia.
  - rewrite length_app, length_fmap, !length_take, length_drop. lia.
Qed.

(** An [msync] keeps what was durable. *)
Lemma flush_range_keeps p off n m d :
  (p <= off)%nat -> (off + n <= length m)%nat -> length d = length m ->
  on_disk p d m -> on_disk p (flush_range off n m d) m.
Proof.
  intros Hp Hn Hd H. destruct (Nat.le_gt_cases (off - page_offset off) p) as [Hs|Hs].
  - apply on_disk_mono with (p := (off + n)%nat); [lia|]. apply flush_range_reaches; [done..|].
    by apply on_disk_mono with (p := p).
  - unfold on_disk, flush_range. by rewrite take_splice by lia.
Qed.

(** The first [p] bytes of what a crash leaves are those of the map. *)
Lemma crash_leaves_take w file p :
  crash_leaves w file -> (p <= length (mmap w))%nat -> on_disk p (disk w) (mmap w) ->
  take p file = take p (mmap w).
Proof.
  intros Hc Hp Hd. apply list_eq. intros i. destruct (Nat.lt_ge_cases i p) as [Hi|Hi].
  - rewrite !lookup_take_lt by done. destruct (lookup_lt_is_Some_2 (mmap w) i) as [v Hv]; [lia|].
    rewrite Hv. apply Hc. rewrite <- (lookup_take_lt (disk w) p i) by done.
    rewrite Hd, list_lookup_fmap, lookup_take_lt by done. by rewrite Hv.
  - by rewrite !lookup_take_ge by lia.
Qed.

(** A write either fails and leaves the committed part alone, or commits one
    record at the old cursor. *)
Lemma write_record_inv synced seq term ts payload w rs res w' :
  wal_inv w rs -> write_record synced seq term ts payload w = (res, w') ->
  length (mmap w') = length (mmap w) /\ highest_term w' = highest_term w /\ config w' = config w
  /\ match res with
     | Ok offset => offset = cursor w /\ wal_inv w' (rs ++ [mkRec seq term ts payload]) /\ last_seq w' = seq
                    /\ (clean w -> clean w')
     | Err _ => wal_inv w' rs /\ last_seq w' = last_seq w /\ (synced = true -> w' = w)
     end.
Proof.
  intros Hi. unfold write_record.
  set (size := align8 (RECORD_HEADER_SIZE + length payload)). set (bs := record_bytes seq term ts payload).
  assert (Hbs : length bs = size) by apply length_record_bytes.
  destruct (Nat.ltb_spec (length (mmap w)) (cursor w + size)) as [Hf|Hf]; [by intros [= <- <-]|].
  pose proof (wi_cursor _ _ Hi) as Hc. pose proof (wi_fits _ _ Hi) as Hfit. pose proof (wi_disk _ _ Hi) as Hdisk.
  assert (Hdirty : length (dirty (cursor w) size (disk w)) = length (mmap w)) by (rewrite length_dirty; lia).
  assert (Hlen : length (splice (cursor w) bs (mmap w)) = length (mmap w)) by (apply length_splice; lia).
  assert (Hcommit : forall d, length d = length (mmap w) ->
    let w' := mkWal (splice (cursor w) bs (mmap w)) (cursor w + size) (config w) seq (highest_term w) d in
    wal_inv w' (rs ++ [mkRec seq term ts payload]) /\ (clean w -> clean w')).
  { intros d Hd. split.
    - split; wal_fields; rewrite ?Hlen; [|rewrite recs_bytes_snoc, length_app|lia|done].
      + rewrite recs_bytes_snoc, app_assoc, <- (wi_map _ _ Hi). unfold splice, rec_bytes.
        cbn [r_seq r_term r_ts_ns r_payload]. fold bs.
        rewrite app_assoc. apply take_app_length'. rewrite length_app, length_take, Hbs. lia.
      + unfold rec_bytes. cbn [r_seq r_term r_ts_ns r_payload]. fold bs. rewrite Hbs. lia.
    - unfold clean. wal_fields. rewrite Hlen. intros Hcl.
      unfold splice. rewrite app_assoc, drop_app_length' by (rewrite length_app, length_take, Hbs; lia).
      rewrite Hbs, <- drop_drop, Hcl, drop_replicate. f_equal. lia. }
  destruct (sync_on_write (config w)); [destruct synced|]; intros [= <- <-]; wal_fields; rewrite Hlen;
    split_and!; try done; try (apply Hcommit; rewrite ?length_flush_range; (done || lia)).
  split; wal_fields; rewrite ?Hlen; try done. rewrite take_splice by lia. apply (wi_map _ _ Hi).
Qed.

(** What is durable stays so across a write; with [sync_on_write] an
    acknowledged write makes the log durable up to the new cursor, its header
    with the first record. *)
Lemma write_record_durable `{!WalCodecLaws C} synced seq term ts payload w rs res w' :
  wal_inv w rs -> write_record synced seq term ts payload w = (res, w') ->
  (forall p, (p <= cursor w)%nat -> on_disk p (disk w) (mmap w) -> on_disk p (disk w') (mmap w'))
  /\ (sync_on_write (config w) = true -> is_ok res = true ->
      rs = [] \/ on_disk (cursor w) (disk w) (mmap w) -> on_disk (cursor w') (disk w') (mmap w')).
Proof.
  intros Hi. unfold write_record.
  set (size := align8 (RECORD_HEADER_SIZE + length payload)). set (bs := record_bytes seq term ts payload).
  assert (Hbs : length bs = size) by apply length_record_bytes.
  destruct (Nat.ltb_spec (length (mmap w)) (cursor w + size)) as [Hf|Hf]; [by intros [= <- <-]|].
  pose proof (wi_cursor _ _ Hi) as Hc. pose proof (wi_fits _ _ Hi) as Hfit. pose proof (wi_disk _ _ Hi) as Hdisk.
  assert (Hdirty : length (dirty (cursor w) size (disk w)) = length (mmap w)) by (rewrite length_dirty; lia).
  assert (Hlen : length (splice (cursor w) bs (mmap w)) = length (mmap w)) by (apply length_splice; lia).
  assert (Hkeep : forall p, (p <= cursor w)%nat -> on_disk p (disk w) (mmap w) ->
    on_disk p (dirty (cursor w) size (disk w)) (splice (cursor w) bs (mmap w))).
  { intros p Hp Hd. rewrite <- Hbs. apply on_disk_dirty; (done || lia). }
  destruct (sync_on_write (config w)); [destruct synced|]; intros [= <- <-]; wal_fields; split; try done.
  - intros p Hp Hd. apply flush_range_keeps; [done|lia|lia|by apply Hkeep].
  - intros _ _ Hpre. apply flush_range_reaches; [lia|lia|].
    destruct Hpre as [->|Hd].
    + assert (Hz : cursor w = FILE_HEADER_SIZE) by (rewrite Hc; apply Nat.add_0_r).
      by rewrite Hz, page_header, Nat.sub_diag.
    + apply on_disk_mono with (p := cursor w); [lia|]. by apply Hkeep.
Qed.

(** ** Scanning *)

Lemma record_at_next data off seq ts term payload next :
  record_at data off = RecordOk seq ts term payload next ->
  (off < next)%nat /\ (off < length data)%nat.
Proof.
  unfold record_at. destruct (Nat.ltb_spec (length data) (off + RECORD_HEADER_SIZE)) as [|Hle]; [done|].
  destruct (_ =? 0); [done|]. destruct (_ <? _)%nat; [done|]. destruct (negb _); [done|].
  intros Heq. pose proof (align8_ge (RECORD_HEADER_SIZE + Z.to_nat (le_at (off + 16) 4 data))).
  assert (next = off + align8 (RECORD_HEADER_SIZE + Z.to_nat (le_at (off + 16) 4 data)))%nat by congruence.
  unfold RECORD_HEADER_SIZE in *. lia.
Qed.

(** The loops of both scans end: every iteration moves on in the file. *)
Lemma scan_to_end_total fuel data off ls h :
  (length data - off < fuel)%nat -> exists r, scan_to_end_from fuel data off ls h = Val r.
Proof.
  revert off ls h. induction fuel as [|fuel IH]; intros off ls h Hf; [lia|]. cbn [scan_to_end_from].
  destruct (record_at data off) as [| | | |seq ts term payload next] eqn:Hr; try by eexists.
  apply record_at_next in Hr as [? ?]. apply IH. lia.
Qed.

(** Recovery returns on every file, and never forgets a command it has read. *)
Lemma scan_from_total fuel data after off ls sr :
  (length data - off < fuel)%nat ->
  exists sr', scan_from fuel data after off ls sr = Val sr' /\ prefix (commands sr) (commands sr').
Proof.
  revert off ls sr. induction fuel as [|fuel IH]; intros off ls sr Hf; [lia|]. cbn [scan_from].
  destruct (record_at data off) as [| | | |seq ts term payload next] eqn:Hr; try by eexists.
  apply record_at_next in Hr as [? ?].
  destruct (term <? sr_highest_term sr); [apply IH; lia|].
  destruct (after <? seq); [|edestruct IH as (? & ? & ?); [|by eexists]; lia].
  destruct (deserialise_command payload); [|by eexists].
  edestruct IH as (sr' & ? & Hp); [|eexists; split; [done|]; etrans; [|exact Hp]]; [lia|].
  by apply prefix_app_r.
Qed.

Lemma scan_wal_returns data after : exists sr, scan_wal data after = Val sr.
Proof.
  unfold scan_wal. destruct (_ <? _)%nat; [by eexists|]. destruct (negb _); [by eexists|].
  edestruct (scan_from_total (scan_fuel data) data after) as (sr & -> & _); [|by eexists].
  unfold scan_fuel. lia.
Qed.

Section Laws.
Context `{!WalCodecLaws C}.

Lemma record_at_mid pre r post :
  rec_ok r ->
  record_at (pre ++ rec_bytes r ++ post) (length pre)
  = RecordOk (r_seq r) (r_ts_ns r) (r_term r) (r_payload r) (length (pre ++ rec_bytes r)).
Proof. intros Hr. rewrite record_at_app, (record_at_ok r post Hr). by rewrite length_app. Qed.

Lemma scan_to_end_records rs fuel pre post ls h :
  Forall rec_ok rs ->
  scan_to_end_from (length rs + fuel) (pre ++ recs_bytes rs ++ post) (length pre) ls h
  = scan_to_end_from fuel (pre ++ recs_bytes rs ++ post) (length (pre ++ recs_bytes rs))
      (foldl (fun _ => r_seq) ls rs) (foldl (fun _ => r_term) h rs).
Proof.
  intros Hrs. revert pre ls h. induction Hrs as [|r rs Hr _ IH]; intros pre ls h; [by rewrite app_nil_r|].
  rewrite recs_bytes_cons, <- !app_assoc. cbn [length Nat.add scan_to_end_from foldl].
  rewrite record_at_mid by done. rewrite (app_assoc pre). rewrite IH. by rewrite !app_assoc.
Qed.

(** ** Commands in the log *)

(** What recovery does with one intact command record. *)
Definition scan_cmd (after : Z) (st : Z * ScanResult) (sc : SequencedCommand) : Z * ScanResult :=
  let '(ls, sr) := st in
  if sc_term sc <? sr_highest_term sr then st
  else
    let gap := negb (sc_seq sc =? wrap_u64 (ls + 1)) && negb (ls =? 0) && negb (ls =? after) in
    (sc_seq sc,
     mkScan (commands sr ++ if after <? sc_seq sc then [sc] else []) (corrupt_records sr)
       (if gap then S (seq_gaps sr) else seq_gaps sr) (sc_term sc)).

Definition cmd_logged (sc : SequencedCommand) (r : Rec) : Prop :=
  serialise_command (sc_cmd sc) = Ok (r_payload r)
  /\ r = mkRec (sc_seq sc) (sc_term sc) (sc_ts_ns sc) (r_payload r).

Lemma scan_from_records cs rs fuel pre post after ls sr :
  Forall2 cmd_logged cs rs -> Forall rec_ok rs ->
  let st := foldl (scan_cmd after) (ls, sr) cs in
  scan_from (length rs + fuel) (pre ++ recs_bytes rs ++ post) after (length pre) ls sr
  = scan_from fuel (pre ++ recs_bytes rs ++ post) after (length (pre ++ recs_bytes rs)) (fst st) (snd st).
Proof.
  intros Hcs. revert pre ls sr. induction Hcs as [|sc r cs rs [Hser Hr] _ IH]; intros pre ls sr Hok;
    [by rewrite app_nil_r|].
  inversion_clear Hok as [|? ? Hr1 Hrs].
  rewrite recs_bytes_cons, <- !app_assoc. cbn [length Nat.add scan_from foldl].
  rewrite record_at_mid by done. destruct r as [a b c payload]. cbn [r_payload] in Hr, Hser.
  injection Hr as -> -> ->. cbn [r_seq r_term r_ts_ns r_payload]. set (r := mkRec _ _ _ _).
  rewrite (app_assoc pre), (app_assoc pre (rec_bytes r) (recs_bytes rs)).
  destruct (scan_cmd after (ls, sr) sc) as [ls1 sr1] eqn:Hst. unfold scan_cmd in Hst.
  destruct (sc_term sc <? sr_highest_term sr); [injection Hst as <- <-; by apply IH|].
  destruct (after <? sc_seq sc); injection Hst as <- <-.
  - rewrite (command_roundtrip _ _ Hser). destruct sc. by apply IH.
  - rewrite app_nil_r. by apply IH.
Qed.

(** With terms that never decrease nothing is dropped as stale. *)
Lemma scan_cmds_sorted after cs ls sr :
  Sorted Z.le (sr_highest_term sr :: map sc_term cs) ->
  exists ls' gaps, foldl (scan_cmd after) (ls, sr) cs
    = (ls', mkScan (commands sr ++ List.filter (fun sc => after <? sc_seq sc) cs) (corrupt_records sr)
              gaps (foldl (fun _ => sc_term) (sr_highest_term sr) cs)).
Proof.
  revert ls sr. induction cs as [|sc cs IH]; intros ls sr Hs.
  { eexists ls, (seq_gaps sr). simpl. rewrite app_nil_r. by destruct sr. }
  cbn [map foldl] in *. apply Sorted_inv in Hs as [Hs Hh]. inversion_clear Hh.
  unfold scan_cmd at 2. destruct (Z.ltb_spec (sc_term sc) (sr_highest_term sr)); [lia|].
  edestruct IH as (ls' & gaps & ->); [exact Hs|]. eexists _, _. cbn [commands corrupt_records sr_highest_term].
  rewrite <- app_assoc. cbn [List.filter]. by destruct (after <? sc_seq sc).
Qed.

(** ** A writer's life *)

(** Calls of [append], each with the outcome of its [msync]; the commands for
    which it returned [Ok], in order. *)
Fixpoint append_all (calls : list (bool * SequencedCommand)) (w : FileWalWriter) :
    list SequencedCommand * FileWalWriter :=
  match calls with
  | [] => ([], w)
  | (synced, sc) :: rest =>
      match append synced sc w with
      | (Ok _, w') => let '(acc, w'') := append_all rest w' in (sc :: acc, w'')
      | (Err _, w') => append_all rest w'
      end
  end.

Record sc_ok (sc : SequencedCommand) : Prop := {
  sco_seq : in_u64 (sc_seq sc);
  sco_seq0 : sc_seq sc <> 0;
  sco_term : in_u64 (sc_term sc);
  sco_ts : in_u64 (sc_ts_ns sc)
}.

Record log_inv (w : FileWalWriter) (cs : list SequencedCommand) (rs : list Rec) : Prop := {
  li_wal : wal_inv w rs;
  li_ok : Forall rec_ok rs;
  li_cmds : Forall2 cmd_logged cs rs;
  li_last : last_seq w = foldl (fun _ => sc_seq) 0 cs;
  li_terms : Sorted Z.le (0 :: map sc_term cs);
  li_high : foldl (fun _ => sc_term) 0 cs <= highest_term w
}.

Lemma sorted_snoc (l : list Z) a x :
  Sorted Z.le (a :: l) -> foldl (fun _ y => y) a l <= x -> Sorted Z.le (a :: l ++ [x]).
Proof.
  revert a. induction l as [|b l IH]; intros a Hs Hle; simpl in *.
  - by repeat constructor.
  - apply Sorted_inv in Hs as [Hs Hh]. constructor; [by apply IH|]. inversion_clear Hh. by constructor.
Qed.

Lemma foldl_map_last (f : SequencedCommand -> Z) cs a :
  foldl (fun _ y => y) a (map f cs) = foldl (fun _ => f) a cs.
Proof. revert a. induction cs; intros; simpl; auto. Qed.

Lemma append_inv synced sc w cs rs res w' :
  sc_ok sc -> log_inv w cs rs -> append synced sc w = (res, w') ->
  length (mmap w') = length (mmap w) /\ config w' = config w
  /\ match res with
     | Ok _ => (exists r, log_inv w' (cs ++ [sc]) (rs ++ [r])) /\ (clean w -> clean w')
     | Err _ => log_inv w' cs rs /\ (synced = true -> clean w -> clean w')
     end.
Proof.
  intros Hsc Hi. unfold append. destruct (Z.ltb_spec (sc_term sc) (highest_term w)) as [|Hge]; [by intros [= <- <-]|].
  set (w1 := mkWal _ _ _ _ _ _).
  assert (Hw1 : wal_inv w1 rs) by (destruct (li_wal _ _ _ Hi); by split).
  assert (Hi1 : forall w2, wal_inv w2 rs -> last_seq w2 = last_seq w1 -> highest_term w2 = sc_term sc -> log_inv w2 cs rs).
  { intros w2 H2 Hl Hh. destruct Hi. split; try done; [by rewrite Hl|rewrite Hh; lia]. }
  destruct (serialise_command (sc_cmd sc)) as [payload|e] eqn:Hser.
  2:{ intros [= <- <-]. split_and!; [done..|by apply Hi1|done]. }
  intros Hw. apply write_record_inv with (rs := rs) in Hw as (Hlen & Hh & Hcfg & Hres); [|done].
  split_and!; [done..|]. destruct res as [off|e].
  - destruct Hres as (_ & Hinv & Hl & Hcl). split; [|by intros; apply Hcl].
    exists (mkRec (sc_seq sc) (sc_term sc) (sc_ts_ns sc) payload). destruct Hi, Hsc.
    assert (Hpl := command_len _ _ Hser). split; [done|..].
    + apply Forall_app. split; [done|]. constructor; [by split|constructor].
    + apply Forall2_app; [done|]. constructor; [by split|constructor].
    + by rewrite foldl_app, Hl.
    + rewrite map_app. apply sorted_snoc; [done|]. rewrite foldl_map_last. simpl. lia.
    + rewrite foldl_app, Hh. done.
  - destruct Hres as (Hinv & Hl & Heq). split; [by apply Hi1|]. intros Hs. by rewrite (Heq Hs).
Qed.

Lemma append_durable synced sc w rs res w' :
  wal_inv w rs -> append synced sc w = (res, w') ->
  (forall p, (p <= cursor w)%nat -> on_disk p (disk w) (mmap w) -> on_disk p (disk w') (mmap w'))
  /\ (sync_on_write (config w) = true -> is_ok res = true ->
      rs = [] \/ on_disk (cursor w) (disk w) (mmap w) -> on_disk (cursor w') (disk w') (mmap w')).
Proof.
  intros Hi. unfold append. destruct (sc_term sc <? highest_term w); [by intros [= <- <-]|].
  set (w1 := mkWal _ _ _ _ _ _). assert (Hw1 : wal_inv w1 rs) by (destruct Hi; by split).
  destruct (serialise_command (sc_cmd sc)) as [payload|e]; [|by intros [= <- <-]].
  intros Hw. by apply (write_record_durable _ _ _ _ _ w1 rs) in Hw.
Qed.

Lemma append_all_inv calls w cs rs acc w' :
  Forall (fun c => sc_ok (snd c)) calls -> log_inv w cs rs -> append_all calls w = (acc, w') ->
  (exists rs', log_inv w' (cs ++ acc) rs') /\ length (mmap w') = length (mmap w) /\ config w' = config w
  /\ (Forall (fun c => fst c = true) calls -> clean w -> clean w').
Proof.
  intros Hok. revert w cs rs acc. induction Hok as [|[synced sc] calls Hsc _ IH]; intros w cs rs acc Hi Ha;
    cbn [append_all] in Ha.
  { simplify_eq. rewrite app_nil_r. split_and!; try done. by exists rs. }
  destruct (append synced sc w) as [res w1] eqn:H1. eapply append_inv in H1 as (Hlen & Hcfg & Hres); [|done..].
  destruct res as [off|e].
  - destruct Hres as [[rs1 Hi1] Hcl]. destruct (append_all calls w1) as [acc2 w2] eqn:H2. simplify_eq.
    destruct (IH _ _ _ _ Hi1 H2) as (Hi2 & Hlen2 & Hcfg2 & Hcl2). rewrite <- app_assoc in Hi2.
    split_and!; [done|congruence|congruence|]. intros Hs Hw. inversion_clear Hs. by apply Hcl2, Hcl.
  - destruct Hres as [Hi1 Hcl]. destruct (IH _ _ _ _ Hi1 Ha) as (Hi2 & Hlen2 & Hcfg2 & Hcl2).
    split_and!; [done|congruence|congruence|]. intros Hs Hw. inversion_clear Hs. by apply Hcl2, Hcl.
Qed.

Lemma length_recs_bytes rs : (length rs <= length (recs_bytes rs))%nat.
Proof.
  induction rs as [|r rs IH]; [done|]. rewrite recs_bytes_cons, length_app. unfold rec_bytes.
  rewrite length_record_bytes. pose proof (align8_ge (RECORD_HEADER_SIZE + length (r_payload r))).
  unfold RECORD_HEADER_SIZE in *. cbn [length]. lia.
Qed.

(** The scan of a file that starts with intact command records reads them
    all and goes on from there. *)
Lemma scan_wal_records cs rs tail after :
  Forall2 cmd_logged cs rs -> Forall rec_ok rs ->
  let data := file_header ++ recs_bytes rs ++ tail in
  let st := foldl (scan_cmd after) (after, mkScan [] 0 0 0) cs in
  exists fuel, (length tail < fuel)%nat /\
    scan_wal data after = scan_from fuel data after (length (file_header ++ recs_bytes rs)) (fst st) (snd st).
Proof.
  intros Hcs Hok data st. pose proof (length_recs_bytes rs). exists (scan_fuel data - length rs)%nat.
  assert (Hlen : length data = (32 + length (recs_bytes rs) + length tail)%nat).
  { unfold data. rewrite !length_app, length_file_header. unfold FILE_HEADER_SIZE. lia. }
  split; [unfold scan_fuel; lia|]. unfold scan_wal. rewrite (proj2 (Nat.ltb_ge _ _)) by (unfold FILE_HEADER_SIZE; lia).
  assert (Hm : slice 0 8 data = MAGIC) by done. rewrite Hm, bool_decide_true by done. cbn [negb].
  rewrite <- length_file_header. replace (scan_fuel data) with (length rs + (scan_fuel data - length rs))%nat at 1
    by (unfold scan_fuel; lia). by apply scan_from_records.
Qed.

(** Zero bytes read as the unwritten region. *)
Lemma record_at_zeros pre n :
  record_at (pre ++ replicate n 0) (length pre) = AtEnd
  \/ record_at (pre ++ replicate n 0) (length pre) = Unwritten.
Proof.
  rewrite record_at_app. unfold record_at. destruct (_ <? _)%nat; [by left|right].
  unfold le_at, slice. by rewrite drop_0, take_replicate, le_value_zeros.
Qed.

Definition new_wal (cfg : WalWriterConfig) : FileWalWriter :=
  mkWal (file_header ++ replicate (file_capacity cfg - FILE_HEADER_SIZE) 0) FILE_HEADER_SIZE cfg 0 0
    (replicate (file_capacity cfg) None).

Lemma open_new cfg : (FILE_HEADER_SIZE <= file_capacity cfg)%nat -> open [] cfg = Val (Ok (new_wal cfg)).
Proof.
  intros Hcap. unfold open. rewrite length_set_len. rewrite (proj2 (Nat.ltb_ge _ _)) by (unfold FILE_HEADER_SIZE in *; lia).
  assert (Hz : set_len (file_capacity cfg) [] = replicate 32 0 ++ replicate (file_capacity cfg - FILE_HEADER_SIZE) 0).
  { unfold set_len. rewrite take_nil, <- replicate_add. cbn [app length].
    f_equal. unfold FILE_HEADER_SIZE in *. lia. }
  rewrite Hz. assert (Hs : forall tl, slice 0 8 (replicate 32 0 ++ tl) = replicate 8 0) by done.
  rewrite Hs. done.
Qed.

Lemma new_wal_inv cfg :
  (FILE_HEADER_SIZE <= file_capacity cfg)%nat -> log_inv (new_wal cfg) [] [] /\ clean (new_wal cfg)
  /\ length (mmap (new_wal cfg)) = file_capacity cfg.
Proof.
  intros Hcap. assert (Hlen : length (mmap (new_wal cfg)) = file_capacity cfg).
  { unfold new_wal. wal_fields. rewrite length_app, length_replicate, length_file_header. lia. }
  split_and!; [|unfold clean; rewrite Hlen; unfold new_wal; wal_fields; by rewrite drop_app_length'|done].
  split; try done; [|by repeat constructor]. split; [by rewrite app_nil_r; apply take_app_length'|done|by rewrite Hlen|].
  rewrite Hlen. apply length_replicate.
Qed.

Lemma logged_last cs rs :
  Forall2 cmd_logged cs rs -> forall a b,
  foldl (fun _ => r_seq) a rs = foldl (fun _ => sc_seq) a cs
  /\ foldl (fun _ => r_term) b rs = foldl (fun _ => sc_term) b cs.
Proof.
  induction 1 as [|sc r cs rs [_ Hr] _ IH]; intros a b; [done|]. cbn [foldl]. rewrite Hr. apply IH.
Qed.

(** The committed part of a writer's file, whatever follows it. *)
Lemma log_file w cs rs tail :
  log_inv w cs rs -> take (cursor w) (mmap w) ++ tail = file_header ++ recs_bytes rs ++ tail
    /\ length (file_header ++ recs_bytes rs) = cursor w.
Proof.
  intros Hi. pose proof (li_wal _ _ _ Hi) as Hw. rewrite (wi_map _ _ Hw), <- app_assoc. split; [done|].
  by rewrite length_app, length_file_header, (wi_cursor _ _ Hw).
Qed.

(** With nothing but zeros beyond the cursor the scan stops there. *)
Lemma scan_clean w cs rs after :
  log_inv w cs rs -> clean w ->
  exists gaps, scan_wal (mmap w) after
    = Val (mkScan (List.filter (fun sc => after <? sc_seq sc) cs) 0 gaps (foldl (fun _ => sc_term) 0 cs)).
Proof.
  intros Hi Hcl. destruct (log_file w cs rs (drop (cursor w) (mmap w)) Hi) as [Hfile Hlen].
  rewrite take_drop in Hfile. rewrite Hfile. unfold clean in Hcl. rewrite Hcl.
  edestruct (scan_wal_records cs rs) as (fuel & Hf & ->); [apply Hi..|].
  destruct (scan_cmds_sorted after cs after (mkScan [] 0 0 0) (li_terms _ _ _ Hi)) as (ls & gaps & ->).
  exists gaps. cbn [fst snd]. destruct fuel as [|fuel]; [lia|]. cbn [scan_from]. rewrite app_assoc.
  by destruct (record_at_zeros (file_header ++ recs_bytes rs) (length (mmap w) - cursor w)) as [-> | ->].
Qed.

(** Whatever follows intact records, the scan returns their commands first. *)
Lemma records_survive cs rs tail after :
  Forall2 cmd_logged cs rs -> Forall rec_ok rs -> Sorted Z.le (0 :: map sc_term cs) ->
  exists sr, scan_wal (file_header ++ recs_bytes rs ++ tail) after = Val sr
    /\ prefix (List.filter (fun sc => after <? sc_seq sc) cs) (commands sr).
Proof.
  intros Hcs Hok Hs. destruct (scan_wal_records cs rs tail after Hcs Hok) as (fuel & Hf & ->).
  destruct (scan_cmds_sorted after cs after (mkScan [] 0 0 0) Hs) as (ls & gaps & ->).
  cbn [fst snd]. edestruct scan_from_total as (sr & -> & Hp); [|by exists sr].
  rewrite app_assoc, length_app. lia.
Qed.

(** *** What a crash leaves of the log *)

(** Where the first [n] records end. *)
Definition records_end (rs : list Rec) : nat := (FILE_HEADER_SIZE + length (recs_bytes rs))%nat.

(** The first [n] records, with the header before them, are on the disk. *)
Definition records_durable (w : FileWalWriter) (rs : list Rec) (n : nat) : Prop :=
  n = 0%nat \/ on_disk (records_end (take n rs)) (disk w) (mmap w).

Lemma records_end_take w rs n : wal_inv w rs -> (records_end (take n rs) <= cursor w)%nat.
Proof.
  intros Hi. rewrite (wi_cursor _ _ Hi). unfold records_end.
  rewrite <- (take_drop n rs) at 2. unfold recs_bytes. rewrite map_app, concat_app, length_app. lia.
Qed.

Lemma records_end_all w rs : wal_inv w rs -> records_end rs = cursor w.
Proof. intros Hi. by rewrite (wi_cursor _ _ Hi). Qed.

Lemma sorted_take (cs : list SequencedCommand) n :
  Sorted Z.le (0 :: map sc_term cs) -> Sorted Z.le (0 :: map sc_term (take n cs)).
Proof.
  revert n. generalize 0. induction cs as [|c cs IH]; intros a n Hs; [by rewrite take_nil|].
  destruct n as [|n]; [by repeat constructor|]. simpl in *. apply Sorted_inv in Hs as [Hs Hh].
  constructor; [by apply IH|]. inversion_clear Hh. by constructor.
Qed.

Lemma durable_survive w cs rs n file after :
  log_inv w cs rs -> records_durable w rs n -> crash_leaves w file ->
  exists sr, scan_wal file after = Val sr
    /\ prefix (List.filter (fun sc => after <? sc_seq sc) (take n cs)) (commands sr).
Proof.
  intros Hi Hd Hc. pose proof (li_wal _ _ _ Hi) as Hw. destruct Hd as [->|Hd].
  { destruct (scan_wal_returns file after) as [sr Hsr]. exists sr. split; [done|]. apply prefix_nil. }
  pose proof (records_end_take w rs n Hw) as Hle. pose proof (wi_fits _ _ Hw) as Hfit.
  pose proof (crash_leaves_take w file (records_end (take n rs)) Hc ltac:(lia) Hd) as Htake.
  assert (Hm : take (records_end (take n rs)) (mmap w) = file_header ++ recs_bytes (take n rs)).
  { rewrite (wal_inv_map w rs Hw). generalize (drop (cursor w) (mmap w)). intros tail.
    replace (recs_bytes rs) with (recs_bytes (take n rs) ++ recs_bytes (drop n rs))
      by (unfold recs_bytes; by rewrite <- concat_app, <- map_app, take_drop).
    rewrite <- app_assoc, app_assoc. apply take_app_length'.
    by rewrite length_app, length_file_header. }
  rewrite <- (take_drop (records_end (take n rs)) file), Htake, Hm, <- app_assoc.
  apply records_survive; [by apply Forall2_take, Hi|by apply Forall_take, Hi|by apply sorted_take, Hi].
Qed.

(** Calls on a log: an [append] or a [flush], each with the answer of its
    [msync].  The run keeps the commands for which [append] returned [Ok], in
    order, and how many of them the writer has promised to be durable: all of
    them with [sync_on_write], else those acknowledged before the last
    [flush] that returned [Ok]. *)
Inductive WalCall :=
| Call_append (synced : bool) (sc : SequencedCommand)
| Call_flush (synced : bool).

Definition log_call (st : FileWalWriter * list SequencedCommand * nat) (c : WalCall) :
    FileWalWriter * list SequencedCommand * nat :=
  let '(w, acc, promised) := st in
  match c with
  | Call_append synced sc =>
      match append synced sc w with
      | (Ok _, w') => (w', acc ++ [sc], if sync_on_write (config w) then S (length acc) else promised)
      | (Err _, w') => (w', acc, promised)
      end
  | Call_flush synced =>
      match flush synced w with
      | (Ok _, w') => (w', acc, length acc)
      | (Err _, w') => (w', acc, promised)
      end
  end.

Definition run_log (calls : list WalCall) (w : FileWalWriter) : FileWalWriter * list SequencedCommand * nat :=
  foldl log_call (w, [], 0%nat) calls.

Definition call_ok (c : WalCall) : Prop :=
  match c with Call_append _ sc => sc_ok sc | Call_flush _ => True end.

(** The log of a run: the acknowledged commands are its records, and those
    promised are durable. *)
Definition run_inv (cfg : WalWriterConfig) (st : FileWalWriter * list SequencedCommand * nat) : Prop :=
  let '(w, acc, promised) := st in
  config w = cfg /\ (sync_on_write cfg = true -> promised = length acc) /\ (promised <= length acc)%nat
  /\ exists rs, log_inv w acc rs /\ records_durable w rs promised.

Lemma logged_length w cs rs : log_inv w cs rs -> length rs = length cs.
Proof. intros Hi. symmetry. by eapply Forall2_length, li_cmds. Qed.

Lemma append_run_inv cfg synced sc w acc n :
  sc_ok sc -> run_inv cfg (w, acc, n) -> run_inv cfg (log_call (w, acc, n) (Call_append synced sc)).
Proof.
  intros Hsc (Hcfg & Hsy & Hn & rs & Hi & Hd). simpl.
  destruct (append synced sc w) as [res w'] eqn:Ha.
  pose proof (append_durable _ _ _ _ _ _ (li_wal _ _ _ Hi) Ha) as [Hkeep Hnew].
  destruct (append_inv _ _ _ _ _ _ _ Hsc Hi Ha) as (_ & Hcfg' & Hres).
  pose proof (logged_length _ _ _ Hi) as Hlen.
  assert (Hd' : records_durable w' rs n).
  { destruct Hd as [->|Hd]; [by left|right]. apply Hkeep; [|done]. by apply records_end_take, Hi. }
  destruct res as [off|e]; simpl.
  2:{ destruct Hres as [Hi' _]. split_and!; [congruence|done|done|by exists rs]. }
  destruct Hres as [[r Hi'] _]. rewrite Hcfg, length_app. simpl.
  split_and!; [congruence|intros H; rewrite H; lia|destruct (sync_on_write cfg); lia|].
  exists (rs ++ [r]). split; [done|]. destruct (sync_on_write cfg) eqn:Hs.
  - right. rewrite take_ge by (rewrite length_app; simpl; lia).
    rewrite (records_end_all w') by apply Hi'. apply Hnew; [by rewrite Hcfg|done|].
    specialize (Hsy eq_refl). destruct Hd as [->|Hd]; [left; destruct rs; [done|simpl in *; lia]|right].
    rewrite take_ge, (records_end_all w) in Hd by (lia || apply Hi). done.
  - destruct Hd' as [->|Hd']; [by left|right]. by rewrite take_app_le by lia.
Qed.

Lemma flush_run_inv cfg synced w acc n :
  run_inv cfg (w, acc, n) -> run_inv cfg (log_call (w, acc, n) (Call_flush synced)).
Proof.
  intros (Hcfg & Hsy & Hn & rs & Hi & Hd). unfold log_call, flush. destruct synced; [|by split_and!; [..|exists rs]].
  split_and!; [done|done|done|]. exists rs. split.
  - destruct Hi as [[]]. split; try done. split; try done. wal_fields. apply length_fmap.
  - right. unfold on_disk. wal_fields. by rewrite fmap_take.
Qed.

Lemma run_log_inv cfg calls st :
  Forall call_ok calls -> run_inv cfg st -> run_inv cfg (foldl log_call st calls).
Proof.
  intros Hok. revert st. induction Hok as [|c calls Hc _ IH]; intros [[w acc] n] Hi; [done|].
  cbn [foldl]. apply IH. destruct c; [by apply append_run_inv|by apply flush_run_inv].
Qed.

Lemma new_run_inv cfg : (FILE_HEADER_SIZE <= file_capacity cfg)%nat -> run_inv cfg (new_wal cfg, [], 0%nat).
Proof.
  intros Hcap. destruct (new_wal_inv cfg Hcap) as (H0 & _ & _).
  split_and!; [done|done|done|]. exists []. split; [done|by left].
Qed.

(** ** Theorems *)

(** C24. Acknowledged records survive a crash. Take any calls of [append] and
    [flush] on a new log, with any [msync] failing, and then a crash that
    leaves on the disk what successful [msync]s have put there and anything at
    all in every other byte of the file. Recovery ends, and returns the
    commands promised to be durable that lie after the snapshot point, in
    order, before anything else. With [sync_on_write] the promised commands
    are all those for which [append] returned [Ok]; without it they are those
    acknowledged before the last [flush] that returned [Ok], and the later
    ones may be lost. *)
Theorem wal_acknowledged_survive cfg calls w acc promised after :
  (FILE_HEADER_SIZE <= file_capacity cfg)%nat -> Forall call_ok calls ->
  run_log calls (new_wal cfg) = (w, acc, promised) ->
  open [] cfg = Val (Ok (new_wal cfg))
  /\ (sync_on_write cfg = true -> promised = length acc)
  /\ forall file, crash_leaves w file ->
      exists sr, scan_wal file after = Val sr
        /\ prefix (List.filter (fun sc => after <? sc_seq sc) (take promised acc)) (commands sr).
Proof.
  intros Hcap Hok Hr. split; [by apply open_new|].
  pose proof (run_log_inv cfg calls _ Hok (new_run_inv cfg Hcap)) as Hinv. unfold run_log in Hr. rewrite Hr in Hinv.
  destruct Hinv as (_ & Hsy & _ & rs & Hi & Hd). split; [done|]. intros file Hc.
  by eapply durable_survive.
Qed.

(** C25. Recovery is exact: when no [msync] failed, scanning the writer's file
    gives precisely the acknowledged commands after the snapshot point, no
    record is reported corrupt, and the highest term is the last one's. *)
Theorem wal_recover_exact cfg calls acc w after :
  (FILE_HEADER_SIZE <= file_capacity cfg)%nat ->
  Forall (fun c => sc_ok (snd c)) calls -> Forall (fun c => fst c = true) calls ->
  append_all calls (new_wal cfg) = (acc, w) ->
  exists gaps, scan_wal (mmap w) after
    = Val (mkScan (List.filter (fun sc => after <? sc_seq sc) acc) 0 gaps (foldl (fun _ => sc_term) 0 acc)).
Proof.
  intros Hcap Hok Hsy Ha. destruct (new_wal_inv cfg Hcap) as (H0 & Hcl & _).
  destruct (append_all_inv _ _ _ _ _ _ Hok H0 Ha) as ([rs Hi] & _ & _ & Hcl').
  by apply (scan_clean w acc rs); [|apply Hcl'].
Qed.

(** Reopening restores the writer: [open] on the file of a writer finds
    its cursor and its last sequence number, and takes the fencing term of the
    last record. *)
Theorem wal_reopen_restores cfg calls acc w :
  (FILE_HEADER_SIZE <= file_capacity cfg)%nat ->
  Forall (fun c => sc_ok (snd c)) calls -> Forall (fun c => fst c = true) calls ->
  append_all calls (new_wal cfg) = (acc, w) ->
  open (mmap w) cfg = Val (Ok (mkWal (mmap w) (cursor w) cfg (last_seq w) (foldl (fun _ => sc_term) 0 acc)
                               (replicate (length (mmap w)) None))).
Proof.
  intros Hcap Hok Hsy Ha. destruct (new_wal_inv cfg Hcap) as (H0 & Hcl & Hl0).
  destruct (append_all_inv _ _ _ _ _ _ Hok H0 Ha) as ([rs Hi] & Hl & _ & Hcl'). simpl in Hi.
  specialize (Hcl' Hsy Hcl). destruct (log_file w acc rs (drop (cursor w) (mmap w)) Hi) as [Hfile Hlen].
  rewrite take_drop in Hfile. unfold open. rewrite Hl0 in Hl. rewrite <- Hl, set_len_id, Hl.
  rewrite (proj2 (Nat.ltb_ge _ _)) by (unfold FILE_HEADER_SIZE in *; lia).
  assert (Hm : slice 0 8 (mmap w) = MAGIC) by (by rewrite Hfile).
  assert (Hv : validate_file_header (mmap w) = Ok tt) by (by rewrite Hfile).
  rewrite Hm, bool_decide_true by done. cbn [negb]. rewrite Hv.
  assert (Hs : scan_to_end (mmap w) = Val (cursor w, last_seq w, foldl (fun _ => sc_term) 0 acc)); [|by rewrite Hs].
  pose proof (length_recs_bytes rs) as Hr. assert (Hf : exists f, scan_fuel (mmap w) = (length rs + S f)%nat).
  { exists (length (mmap w) - length rs)%nat. unfold scan_fuel.
    pose proof (wi_fits _ _ (li_wal _ _ _ Hi)). rewrite (wi_cursor _ _ (li_wal _ _ _ Hi)) in *. lia. }
  destruct Hf as [f Hf]. unfold scan_to_end. rewrite Hf, Hfile, <- length_file_header.
  rewrite scan_to_end_records by apply Hi. rewrite <- Hfile, Hlen. cbn [scan_to_end_from].
  destruct (logged_last _ _ (li_cmds _ _ _ Hi) 0 0) as [-> ->]. rewrite <- (li_last _ _ _ Hi).
  rewrite Hfile. unfold clean in Hcl'. rewrite Hcl', app_assoc, <- Hlen.
  by destruct (record_at_zeros (file_header ++ recs_bytes rs) (length (mmap w) - length (file_header ++ recs_bytes rs))) as [-> | ->].
Qed.
End Laws.

(** Recovery returns on any file and any directory. *)
Lemma recover_returns wal_file dir shard_id : exists r, recover wal_file dir shard_id = Val r.
Proof.
  unfold recover. destruct wal_file as [data|]; [|by eexists].
  destruct (latest_snapshot crc32 dir shard_id) as [snapshot|]; [|by eexists].
  set (after := match snapshot with Some s => _ | None => 0 end).
  destruct (scan_wal_returns data after) as [sr ->]. by eexists.
Qed.

(** ** The log as the matching engine's [WalWriter] *)

Section FileWal.
(** What [msync] answers and the clock shows at the call. *)
Context (synced : FileWalWriter -> bool) (now_ns : FileWalWriter -> Z).

Definition event_logged (ev : Event) (r : Rec) : Prop :=
  serialise_event ev = Ok (r_payload r) /\ r_seq r = event_seq ev /\ r_term r = 0.

(** A writer whose committed records are the serialised events, in order. *)
Record FileWal := mkFileWal {
  fw_writer : FileWalWriter;
  fw_events : list Event;
  fw_ok : exists rs, wal_inv fw_writer rs /\ Forall2 event_logged fw_events rs
}.

Lemma file_append_event_ok (fw : FileWal) ev :
  let '(res, w') := file_append_event (synced (fw_writer fw)) (now_ns (fw_writer fw)) ev (fw_writer fw) in
  exists rs, wal_inv w' rs
    /\ Forall2 event_logged (fw_events fw ++ if is_ok res then [ev] else []) rs.
Proof.
  destruct fw as [w evs (rs & Hi & Hev)]. cbn [fw_writer fw_events]. unfold file_append_event.
  destruct (serialise_event ev) as [payload|e] eqn:Hser; [|exists rs; cbn [is_ok]; by rewrite app_nil_r].
  destruct (write_record (synced w) (event_seq ev) 0 (now_ns w) payload w) as [res w'] eqn:Hw.
  apply (write_record_inv _ _ _ _ _ _ rs) in Hw as (_ & _ & _ & Hres); [|done]. destruct res as [off|e]; cbn [is_ok].
  - destruct Hres as (_ & Hi' & _). eexists. split; [exact Hi'|]. apply Forall2_app; [done|].
    constructor; [by split|constructor].
  - exists rs. rewrite app_nil_r. by destruct Hres.
Qed.

Definition file_wal_append (ev : Event) (fw : FileWal) : Result unit WalError * FileWal :=
  (match file_append_event (synced (fw_writer fw)) (now_ns (fw_writer fw)) ev (fw_writer fw) as p
   return (let '(res, w') := p in exists rs, wal_inv w' rs
             /\ Forall2 event_logged (fw_events fw ++ if is_ok res then [ev] else []) rs) -> _ with
   | (res, w') => fun Hok => (res, mkFileWal w' _ Hok)
   end) (file_append_event_ok fw ev).

Lemma file_wal_append_events ev fw res fw' :
  file_wal_append ev fw = (res, fw') -> fw_events fw' = fw_events fw ++ if is_ok res then [ev] else [].
Proof.
  unfold file_wal_append. generalize (file_append_event_ok fw ev).
  destruct (file_append_event _ _ ev _) as [r w']. intros Hok [= <- <-]. done.
Qed.

(** The file log keeps the promise the engine relies on. *)
#[export, program] Instance file_wal_writer : WalWriter FileWal := {|
  WalErr := WalError;
  append_event := file_wal_append;
  wal_events := fw_events
|}.
Next Obligation. intros w ev w' Ha. by apply file_wal_append_events in Ha. Qed.
Next Obligation. intros w ev e w' Ha. apply file_wal_append_events in Ha. by rewrite app_nil_r in Ha. Qed.
End FileWal.
End Wal.

(** ** Witnesses *)

Module WalDemo.
(** A checksum and an encoding of the account-freeze command and the halt event. *)
Definition demo_serialise (cmd : InboundCommand) : Result (list Z) WalError :=
  match cmd with
  | Inbound_FreezeAccount account =>
      if decide (in_u64 account) then Ok (le_bytes 8 account) else Err Serialise
  | _ => Err Serialise
  end.
Definition demo_event (ev : Event) : Result (list Z) WalError :=
  match ev with
  | Event_InstrumentHalted seq id =>
      if decide (in_u64 seq /\ in_u64 id) then Ok (le_bytes 8 seq ++ le_bytes 8 id) else Err Serialise
  | _ => Err Serialise
  end.
Definition codec : WalCodec := {|
  crc32 data := sumZ data mod two32;
  serialise_command := demo_serialise;
  deserialise_command data := Some (Inbound_FreezeAccount (le_value data));
  serialise_event := demo_event;
  deserialise_event data := Some (Event_InstrumentHalted (le_at 0 8 data) (le_at 8 8 data));
  page_offset off := Nat.modulo off 4096
|}.

Lemma codec_laws : WalCodecLaws codec.
Proof.
  assert (H64 : forall z, in_u64 z -> 0 <= z < 256 ^ Z.of_nat 8) by (intros z Hz; exact Hz).
  split; cbn [crc32 serialise_command deserialise_command serialise_event deserialise_event codec].
  - intros data. apply Z.mod_pos_bound. unfold two32. lia.
  - intros [] payload; cbn [demo_serialise demo_event]; try discriminate. case_decide as Ha; [|discriminate]. intros <-%Ok_inj.
    by rewrite le_value_bytes by auto.
  - intros [] payload; cbn [demo_serialise demo_event]; try discriminate. case_decide; [|discriminate]. intros <-%Ok_inj.
    rewrite length_le_bytes. unfold two32. lia.
  - intros [] payload; cbn [demo_serialise demo_event]; try discriminate. case_decide as Ha; [|discriminate]. intros <-%Ok_inj.
    destruct Ha. rewrite le_at_here by auto. rewrite le_at_skip by lia. cbn [Nat.sub].
    rewrite <- (app_nil_r (le_bytes 8 instrument_id)), le_at_here by auto. done.
  - intros [] payload; cbn [demo_serialise demo_event]; try discriminate. case_decide; [|discriminate]. intros <-%Ok_inj.
    rewrite length_app, !length_le_bytes. unfold two32. lia.
  - reflexivity.
Qed.

Definition cfg : WalWriterConfig := mkWalConfig 200 true.
Definition sc (seq term account : Z) : SequencedCommand := mkSC term seq 7 (Inbound_FreezeAccount account).

(** Three appends, the last from a stale leader: two are acknowledged. *)
Definition calls : list (bool * SequencedCommand) := [(true, sc 1 1 5); (true, sc 2 2 6); (true, sc 3 1 7)].
Definition final : FileWalWriter := snd (@append_all codec calls (new_wal cfg)).

Lemma calls_acc : @append_all codec calls (new_wal cfg) = ([sc 1 1 5; sc 2 2 6], final).
Proof. vm_compute. reflexivity. Qed.
Lemma calls_ok : Forall (fun c => sc_ok (snd c)) calls.
Proof. repeat constructor; simpl; unfold two64; lia. Qed.
Lemma calls_synced : Forall (fun c => fst c = true) calls.
Proof. by repeat constructor. Qed.
Lemma cfg_room : (FILE_HEADER_SIZE <= file_capacity cfg)%nat.
Proof. unfold FILE_HEADER_SIZE. simpl. lia. Qed.

(** A failed [msync], two acknowledged commands and one from a stale leader. *)
Definition log_calls : list WalCall :=
  [Call_append false (sc 1 1 5); Call_append true (sc 1 1 5); Call_append true (sc 2 2 6);
   Call_append true (sc 3 1 7); Call_append false (sc 4 2 8)].
Definition log_final : FileWalWriter := fst (fst (@run_log codec log_calls (new_wal cfg))).
Lemma log_calls_run : @run_log codec log_calls (new_wal cfg) = (log_final, [sc 1 1 5; sc 2 2 6], 2%nat).
Proof. vm_compute. reflexivity. Qed.
Lemma log_calls_ok : Forall call_ok log_calls.
Proof. repeat constructor; simpl; unfold two64; lia. Qed.

(** A crash that loses everything the disk does not have: the bytes of the
    record whose [msync] failed, and the unwritten rest of the file. *)
Definition crashed (w : FileWalWriter) : list Z := default 9 <$> disk w.
Lemma crashed_leaves w : crash_leaves w (crashed w).
Proof. intros i v H. unfold crashed. by rewrite list_lookup_fmap, H. Qed.

Lemma wal_acknowledged_survive_witness :
  exists sr, @scan_wal codec (crashed log_final) 1 = Val sr /\ prefix [sc 2 2 6] (commands sr).
Proof.
  exact (proj2 (proj2 (@wal_acknowledged_survive codec codec_laws cfg log_calls log_final _ _ 1
    cfg_room log_calls_ok log_calls_run)) (crashed log_final) (crashed_leaves log_final)).
Defined.

(** Without [sync_on_write] the acknowledged commands can all be lost. *)
Example unsynced_window :
  @scan_wal codec (crashed (snd (@append_all codec calls (new_wal (mkWalConfig 200 false))))) 0
    = Val (mkScan [] 0 0 0).
Proof. vm_compute. reflexivity. Qed.

Lemma wal_recover_exact_witness :
  exists gaps, @scan_wal codec (mmap final) 1 = Val (mkScan [sc 2 2 6] 0 gaps 2).
Proof. exact (@wal_recover_exact codec codec_laws cfg calls _ final 1 cfg_room calls_ok calls_synced calls_acc). Defined.

Lemma wal_reopen_restores_witness :
  @open codec (mmap final) cfg = Val (Ok (mkWal (mmap final) (cursor final) cfg (last_seq final) 2 (replicate 200 None))).
Proof. exact (@wal_reopen_restores codec codec_laws cfg calls _ final cfg_room calls_ok calls_synced calls_acc). Defined.
End WalDemo.
