(* ===== verification/Failover.v ===== *)
(** * Failover: crates/sequencer (failover.rs, standby.rs)

    Leader election over a lease file and the standby that follows the WAL.
    The election is a step relation over all contending processes: the shared
    lease file, the owner of its [flock], and the election thread of each
    process statement by statement, with shutdown requests and crashes at any
    point.  [flock] is modelled by what it documents: the lock has at most one
    owner and is released when the owner unlocks or dies.  The eight bytes of
    a term are written by one call, taken as atomic. *)

From S2P Require Import Prelude CoreTypes Bytes Snapshot RingBuffer Fifo Sequencer Engine Wal.
#[local] Open Scope Z_scope.

(** ** The lease file *)

(** [read_exact] of eight bytes fails on a shorter file. *)
Definition read_term (file : list Z) : Z :=
  if (length file <? 8)%nat then 0 else le_at 0 8 file.

Definition write_term (file : list Z) (t : Z) : list Z := splice 0 (le_bytes 8 t) file.

(** ** The processes *)

(** Where the election thread is.  [Contending]: in the loop of [acquire].
    [Locked]: after [try_lock_exclusive].  [TermRead]: [term] computed.
    [TermWritten]: persisted, [acquire] returns it.  [TermStored]: after
    [term.store].  [Leading]: after [role.store], parked.  [Waiting]: parked
    without the lease.  [Done]: after [release]. *)
Inductive Phase :=
| Contending | Locked | TermRead (t : Z) | TermWritten (t : Z) | TermStored (t : Z)
| Leading (t : Z) | Waiting | Done | Crashed.

Record Proc := mkProc { p_phase : Phase; p_handle : RoleHandle; p_shutdown : bool }.

(** [FailoverController::spawn]. *)
Definition spawn : Proc := mkProc Contending (mkRoleHandle (role_to_u8 Standby) 0) false.

Record World := mkWorld {
  w_file : list Z;
  w_owner : option nat;                 (** who holds the [flock] *)
  w_procs : list Proc;
  w_terms : list (nat * Z)              (** ghost: the terms [acquire] returned *)
}.

Definition init_world (file : list Z) (n : nat) : World := mkWorld file None (replicate n spawn) [].

(** One statement of the election thread of process [i]: the world after it,
    [None] where the thread has nothing to do. *)
Definition thread_step (i : nat) (p : Proc) (w : World) : option World :=
  let put p' := <[i := p']> (w_procs w) in
  match p_phase p with
  | Contending =>
      if p_shutdown p then Some (mkWorld (w_file w) (w_owner w) (put (mkProc Waiting (p_handle p) true)) (w_terms w))
      else
        match w_owner w with
        | None => Some (mkWorld (w_file w) (Some i) (put (mkProc Locked (p_handle p) false)) (w_terms w))
        | Some _ => None
        end
  | Locked =>
      Some (mkWorld (w_file w) (w_owner w)
              (put (mkProc (TermRead (wrap_u64 (read_term (w_file w) + 1))) (p_handle p) (p_shutdown p))) (w_terms w))
  | TermRead t =>
      Some (mkWorld (write_term (w_file w) t) (w_owner w)
              (put (mkProc (TermWritten t) (p_handle p) (p_shutdown p))) (w_terms w ++ [(i, t)]))
  | TermWritten t =>
      Some (mkWorld (w_file w) (w_owner w)
              (put (mkProc (TermStored t) (mkRoleHandle (rh_role (p_handle p)) t) (p_shutdown p))) (w_terms w))
  | TermStored t =>
      Some (mkWorld (w_file w) (w_owner w)
              (put (mkProc (Leading t) (mkRoleHandle (role_to_u8 Leader) (rh_term (p_handle p))) (p_shutdown p)))
              (w_terms w))
  | Leading t =>
      if p_shutdown p then Some (mkWorld (w_file w) None (put (mkProc Done (p_handle p) true)) (w_terms w))
      else None
  | Waiting =>
      if p_shutdown p then Some (mkWorld (w_file w) (w_owner w) (put (mkProc Done (p_handle p) true)) (w_terms w))
      else None
  | Done | Crashed => None
  end.

Inductive world_step : World -> World -> Prop :=
| ws_thread w i p w' : w_procs w !! i = Some p -> thread_step i p w = Some w' -> world_step w w'
| ws_shutdown w i p : w_procs w !! i = Some p ->
    (** [Drop for FailoverController] *)
    world_step w (mkWorld (w_file w) (w_owner w)
      (<[i := mkProc (p_phase p) (p_handle p) true]> (w_procs w)) (w_terms w))
| ws_crash w i p : w_procs w !! i = Some p ->
    world_step w (mkWorld (w_file w) (if decide (w_owner w = Some i) then None else w_owner w)
      (<[i := mkProc Crashed (p_handle p) (p_shutdown p)]> (w_procs w)) (w_terms w)).

Inductive world_reach (w0 : World) : World -> Prop :=
| wr_init : world_reach w0 w0
| wr_step w w' : world_reach w0 w -> world_step w w' -> world_reach w0 w'.

(** ** The invariant *)

Definition owns_lock (ph : Phase) : bool :=
  match ph with Locked | TermRead _ | TermWritten _ | TermStored _ | Leading _ => true | _ => false end.

(** The terms in a process agree with the file while it holds the lock, and
    its handle never shows [Leader] before its term. *)
Definition proc_ok (current : Z) (terms : list (nat * Z)) (i : nat) (p : Proc) : Prop :=
  let h := p_handle p in
  match p_phase p with
  | Contending | Locked | Waiting => rh_role h = 0
  | TermRead t => t = current + 1 /\ rh_role h = 0
  | TermWritten t => t = current /\ rh_role h = 0 /\ last terms = Some (i, t)
  | TermStored t => t = current /\ rh_role h = 0 /\ rh_term h = t /\ last terms = Some (i, t)
  | Leading t => t = current /\ rh_role h = 1 /\ rh_term h = t /\ last terms = Some (i, t)
  | Done | Crashed => rh_role h = 0 \/ (rh_role h = 1 /\ (i, rh_term h) ∈ terms)
  end.

Record world_inv (t0 : Z) (n : nat) (w : World) : Prop := {
  wi_len : length (w_procs w) = n;
  wi_owner i p : w_procs w !! i = Some p -> (owns_lock (p_phase p) = true <-> w_owner w = Some i);
  wi_file_term : read_term (w_file w) = t0 + Z.of_nat (length (w_terms w));
  wi_terms k i t : w_terms w !! k = Some (i, t) -> t = t0 + Z.of_nat k + 1;
  wi_procs i p : w_procs w !! i = Some p -> proc_ok (read_term (w_file w)) (w_terms w) i p
}.

Lemma read_write_term file t : in_u64 t -> read_term (write_term file t) = t.
Proof.
  intros Ht. unfold read_term, write_term, splice. rewrite take_0, app_nil_l.
  rewrite length_app, length_le_bytes. rewrite (proj2 (Nat.ltb_ge _ _)) by lia. by apply le_at_here.
Qed.

Lemma init_world_inv file n : world_inv (read_term file) n (init_world file n).
Proof.
  split; simpl; [apply length_replicate| | |done|].
  - intros i p [-> _]%lookup_replicate. done.
  - lia.
  - intros i p [-> _]%lookup_replicate. done.
Qed.

(** A process without the lock only relies on the terms already handed out. *)
Lemma proc_ok_other c c' ts l i p :
  owns_lock (p_phase p) = false -> proc_ok c ts i p -> proc_ok c' (ts ++ l) i p.
Proof.
  unfold proc_ok. destruct (p_phase p); simpl; try done; intros _ [?|[? ?]]; auto; right; split; [done|by apply elem_of_app; left|done|by apply elem_of_app; left].
Qed.

(** Replacing process [i]: the others keep their side of the lock. *)
Lemma put_inv t0 n w i p p' file owner l :
  world_inv t0 n w -> w_procs w !! i = Some p ->
  read_term file = t0 + Z.of_nat (length (w_terms w ++ l)) ->
  (forall k j t, (w_terms w ++ l) !! k = Some (j, t) -> t = t0 + Z.of_nat k + 1) ->
  (owns_lock (p_phase p') = true <-> owner = Some i) ->
  (forall j, j <> i -> owner = Some j <-> w_owner w = Some j) ->
  (read_term file = read_term (w_file w) /\ l = [] \/ owns_lock (p_phase p) = true) ->
  proc_ok (read_term file) (w_terms w ++ l) i p' ->
  world_inv t0 n (mkWorld file owner (<[i := p']> (w_procs w)) (w_terms w ++ l)).
Proof.
  intros [Hlen Hown Hft Hts Hps] Hi Hfile Hterms Hlock Hothers Hkeep Hp'.
  split; simpl; [by rewrite length_insert| |done|done|].
  - intros j q [(<- & <- & _)|[Hne Hq]]%list_lookup_insert_Some; [done|]. rewrite (Hown j q Hq).
    symmetry. by apply Hothers.
  - intros j q [(<- & <- & _)|[Hne Hq]]%list_lookup_insert_Some; [done|].
    destruct Hkeep as [[-> ->]|Hl]; [rewrite app_nil_r; by apply Hps|].
    apply (proc_ok_other (read_term (w_file w))); [|by apply Hps].
    apply (Hown i p Hi) in Hl. destruct (owns_lock (p_phase q)) eqn:Hq'; [|done].
    apply (Hown j q Hq) in Hq'. congruence.
Qed.

(** The same file and terms: only the phase, handle or lock change. *)
Lemma put_inv_same t0 n w i p p' owner :
  world_inv t0 n w -> w_procs w !! i = Some p ->
  (owns_lock (p_phase p') = true <-> owner = Some i) ->
  (forall j, j <> i -> owner = Some j <-> w_owner w = Some j) ->
  proc_ok (read_term (w_file w)) (w_terms w) i p' ->
  world_inv t0 n (mkWorld (w_file w) owner (<[i := p']> (w_procs w)) (w_terms w)).
Proof.
  intros Hi Hp Hl Ho Hp'. rewrite <- (app_nil_r (w_terms w)) at 1.
  apply (put_inv t0 n w i p p' (w_file w) owner []); rewrite ?app_nil_r; try done;
    [apply Hi|apply Hi|by left].
Qed.

Lemma thread_step_inv t0 n w i p w' :
  0 <= t0 -> t0 + Z.of_nat (length (w_terms w)) + 1 < two64 ->
  world_inv t0 n w -> w_procs w !! i = Some p -> thread_step i p w = Some w' -> world_inv t0 n w'.
Proof.
  intros Ht0 Hb Hi Hp. pose proof (wi_owner _ _ _ Hi i p Hp) as Ho. pose proof (wi_procs _ _ _ Hi i p Hp) as Hok.
  pose proof (wi_file_term _ _ _ Hi) as Hft.
  unfold thread_step. unfold proc_ok in Hok. destruct (p_phase p) as [| |t|t|t|t| | |] eqn:Hph; simpl in Ho.
  - destruct (p_shutdown p).
    + intros [= <-]. apply (put_inv_same _ _ _ _ p); simpl; done.
    + destruct (w_owner w) as [o|] eqn:Hw; [done|]. intros [= <-]. apply (put_inv_same _ _ _ _ p); simpl; try done.
      intros j Hj. split; [by intros [= ->]|by rewrite Hw].
  - intros [= <-]. apply (put_inv_same _ _ _ _ p); simpl; try done. split; [|done].
    apply wrap_u64_id. unfold in_u64. lia.
  - intros [= <-]. destruct Hok as [-> Hr]. assert (Hrw : forall f, read_term (write_term f (read_term (w_file w) + 1)) = read_term (w_file w) + 1)
      by (intros f; apply read_write_term; unfold in_u64; lia).
    apply (put_inv _ _ _ _ p); rewrite ?Hrw; simpl; try done.
    + rewrite length_app. simpl. lia.
    + intros k j t' [Hk|[Hk Hx]]%lookup_app_Some; [by eapply (wi_terms _ _ _ Hi)|].
      destruct (k - length (w_terms w))%nat eqn:E; simplify_eq/=. lia.
    + right. by rewrite Hph.
    + unfold proc_ok. simpl. by rewrite last_snoc.
  - intros [= <-]. apply (put_inv_same _ _ _ _ p); simpl; try done. unfold proc_ok. simpl. tauto.
  - intros [= <-]. apply (put_inv_same _ _ _ _ p); simpl; try done. unfold proc_ok. simpl. tauto.
  - destruct (p_shutdown p); [|done]. intros [= <-]. apply (put_inv_same _ _ _ _ p); simpl; try done.
    + intros j Hj. split; [done|]. intros Hj'. rewrite Hj' in Ho. destruct Ho as [Ho _].
      specialize (Ho eq_refl). congruence.
    + unfold proc_ok. simpl. right. destruct Hok as (-> & ? & -> & [l Hl]%last_Some). split; [done|]. rewrite Hl. apply elem_of_app. right. by apply list_elem_of_singleton.
  - destruct (p_shutdown p); [|done]. intros [= <-]. apply (put_inv_same _ _ _ _ p); simpl; try done.
    unfold proc_ok. simpl. by left.
  - done.
  - done.
Qed.

(** What the handle shows survives a crash. *)
Lemma proc_ok_crashed c ts i p :
  proc_ok c ts i p -> rh_role (p_handle p) = 0 \/ (rh_role (p_handle p) = 1 /\ (i, rh_term (p_handle p)) ∈ ts).
Proof.
  unfold proc_ok. destruct (p_phase p); try tauto.
  intros (-> & Hr & -> & [l ->]%last_Some). right. split; [done|]. apply elem_of_app. right. by apply list_elem_of_singleton.
Qed.

Lemma world_step_inv t0 n w w' :
  0 <= t0 -> t0 + Z.of_nat (length (w_terms w)) + 1 < two64 ->
  world_inv t0 n w -> world_step w w' -> world_inv t0 n w'.
Proof.
  intros Ht0 Hb Hi Hs. destruct Hs as [w i p w' Hp Hs|w i p Hp|w i p Hp].
  - by eapply thread_step_inv.
  - apply (put_inv_same _ _ _ _ p); try done; [exact (wi_owner _ _ _ Hi i p Hp)|].
    pose proof (wi_procs _ _ _ Hi i p Hp) as Hok. exact Hok.
  - apply (put_inv_same _ _ _ _ p); try done.
    + simpl. case_decide; [|done]. done.
    + intros j Hj. case_decide as Ho; [|done]. rewrite Ho. split; [done|congruence].
    + unfold proc_ok. simpl. eapply proc_ok_crashed. by apply (wi_procs _ _ _ Hi).
Qed.

Lemma world_step_terms w w' : world_step w w' -> (length (w_terms w) <= length (w_terms w'))%nat.
Proof.
  destruct 1 as [w i p w' _ Hs|w i p _|w i p _]; [|done..]. unfold thread_step in Hs.
  destruct (p_phase p), (p_shutdown p), (w_owner w); simplify_eq/=; rewrite ?length_app; lia.
Qed.

Lemma world_reach_inv file n w :
  0 <= read_term file -> world_reach (init_world file n) w ->
  read_term file + Z.of_nat (length (w_terms w)) + 1 < two64 -> world_inv (read_term file) n w.
Proof.
  intros Ht0. induction 1 as [|w w' _ IH Hs]; intros Hb; [apply init_world_inv|].
  pose proof (world_step_terms _ _ Hs). eapply world_step_inv; [done| |apply IH|done]; lia.
Qed.

(** A handle that shows [Leader] shows a term granted to its process. *)
Lemma leader_term file n w i p :
  world_inv (read_term file) n w -> w_procs w !! i = Some p -> is_leader (p_handle p) = true ->
  (i, rh_term (p_handle p)) ∈ w_terms w.
Proof.
  intros Hi Hp Hl. pose proof (proc_ok_crashed _ _ _ _ (wi_procs _ _ _ Hi i p Hp)) as [H0|[_ ?]]; [|done].
  unfold is_leader, role in Hl. by rewrite H0 in Hl.
Qed.

(** ** standby.rs *)

Record StandbyReplicator := mkStandby { sb_last_seq : Z; sb_highest_term : Z }.

Definition StandbyReplicator_new : StandbyReplicator := mkStandby 0 0.

(** [out] is what [recover] returned on the files of the leader. *)
Definition poll_once (out : Result RecoveryOutput RecoveryError) (s : StandbyReplicator) :
    Result Z RecoveryError * StandbyReplicator :=
  match out with
  | Err e => (Err e, s)
  | Ok out =>
      if ro_highest_term out <? sb_highest_term s then (Ok (sb_last_seq s), s)
      else
        let s := mkStandby (sb_last_seq s) (ro_highest_term out) in
        let s := if sb_last_seq s <? last_recovered_seq out
                 then mkStandby (last_recovered_seq out) (sb_highest_term s) else s in
        (Ok (sb_last_seq s), s)
  end.

(** [run_until_promoted], one entry per iteration: whether the role handle
    showed [Leader], and what [recover] returned.  [None] while not promoted. *)
Fixpoint run_until_promoted (rounds : list (bool * Result RecoveryOutput RecoveryError))
    (s : StandbyReplicator) : option Z :=
  match rounds with
  | [] => None
  | (leader, out) :: rest =>
      let '(_, s') := poll_once out s in
      if leader : bool then Some (sb_last_seq s') else run_until_promoted rest s'
  end.

(** *** The leader's log as the standby reads it *)

Lemma foldl_last (cs : list SequencedCommand) a :
  foldl (fun _ => sc_seq) a cs = match last cs with Some c => sc_seq c | None => a end.
Proof.
  destruct cs as [|c cs _] using rev_ind; [done|]. by rewrite foldl_app, last_snoc.
Qed.

Lemma sorted_last_ge (cs : list SequencedCommand) a :
  Sorted Z.le (a :: map sc_term cs) -> a <= foldl (fun _ => sc_term) a cs.
Proof.
  revert a. induction cs as [|c cs IH]; intros a Hs; simpl in *; [lia|].
  apply Sorted_inv in Hs as [Hs Hh]. inversion_clear Hh. specialize (IH _ Hs). lia.
Qed.

Section Log.
Context `{C : WalCodec} `{!WalCodecLaws C}.

Lemma log_seq_pos w cs rs : log_inv w cs rs -> Forall (fun sc => 0 < sc_seq sc) cs.
Proof.
  intros [_ Hok Hc _ _ _]. induction Hc as [|sc r cs rs [_ Hr] _ IH]; [done|].
  inversion_clear Hok as [|? ? [Hs H0 _ _ _] Hrs]. constructor; [|by apply IH].
  rewrite Hr in Hs, H0. simpl in *. unfold in_u64 in Hs. lia.
Qed.

Lemma recover_log w cs rs shard_id :
  log_inv w cs rs -> clean w ->
  exists out, recover (Some (mmap w)) None shard_id = Val (Ok out)
    /\ last_recovered_seq out = last_seq w /\ ro_highest_term out = foldl (fun _ => sc_term) 0 cs.
Proof.
  intros Hi Hcl. destruct (scan_clean w cs rs 0 Hi Hcl) as [gaps Hs].
  rewrite filter_all in Hs.
  2:{ intros sc Hin. apply Z.ltb_lt. pose proof (log_seq_pos _ _ _ Hi) as Hp. rewrite Forall_forall in Hp. by apply Hp. }
  eexists. split; [unfold recover; simpl; rewrite Hs; reflexivity|]. simpl. split; [|done].
  rewrite (li_last _ _ _ Hi). symmetry. apply foldl_last.
Qed.

(** What the leader appends before a poll, and the error of the poll if it
    fails. *)
Record Poll := mkPoll { pl_calls : list (bool * SequencedCommand); pl_error : option RecoveryError }.

(** The polls of a standby on the file of a leader that goes on appending:
    what each of them recovers, and the writer at the end. *)
Fixpoint observe (shard_id : Z) (polls : list Poll) (w : FileWalWriter) :
    Exec (list (Result RecoveryOutput RecoveryError) * FileWalWriter) :=
  match polls with
  | [] => Val ([], w)
  | p :: rest =>
      let w := snd (append_all (pl_calls p) w) in
      let! out := match pl_error p with
          | Some e => Val (Err e)
          | None => recover (Some (mmap w)) None shard_id
          end in
      let! '(outs, w) := observe shard_id rest w in
      Val (out :: outs, w)
  end.

(** The last number in the log at the last poll that did not fail. *)
Fixpoint seen_seq (z : Z) (polls : list Poll) (w : FileWalWriter) : Z :=
  match polls with
  | [] => z
  | p :: rest =>
      let w := snd (append_all (pl_calls p) w) in
      seen_seq (match pl_error p with Some _ => z | None => last_seq w end) rest w
  end.

Definition poll_cmds (polls : list Poll) : list SequencedCommand := map snd (concat (map pl_calls polls)).

Lemma append_all_sublist calls w : sublist (fst (append_all calls w)) (map snd calls).
Proof.
  revert w. induction calls as [|[synced sc] calls IH]; intros w; [done|]. cbn [append_all map snd].
  destruct (append synced sc w) as [[off|e] w']; [|by apply sublist_cons, IH].
  specialize (IH w'). destruct (append_all calls w') as [acc w2]. simpl in *. by apply sublist_skip.
Qed.

Lemma rising_last (cs ds : list SequencedCommand) a :
  StronglySorted Z.lt (a :: map sc_seq (cs ++ ds)) ->
  foldl (fun _ => sc_seq) a cs <= foldl (fun _ => sc_seq) a (cs ++ ds).
Proof.
  revert a. induction cs as [|c cs IH]; intros a Hs; simpl in *.
  - revert a Hs. induction ds as [|d ds IHd]; intros a Hs; simpl in *; [lia|].
    apply StronglySorted_inv in Hs as [Hs Hf]. inversion_clear Hf. specialize (IHd _ Hs). lia.
  - apply StronglySorted_inv in Hs as [Hs _]. by apply IH.
Qed.

Lemma sorted_sublist (l k : list Z) : sublist l k -> StronglySorted Z.lt k -> StronglySorted Z.lt l.
Proof.
  induction 1 as [|x l k Hs IH|x l k Hs IH]; intros Hk; [done|..]; apply StronglySorted_inv in Hk as [Hk Hf];
    [|by apply IH]. constructor; [by apply IH|]. rewrite Forall_forall in *.
  intros y Hy. apply Hf. eapply elem_of_submseteq; [exact Hy|by apply sublist_submseteq].
Qed.

(** What a standby knows of the log: no more than is in it. *)
Definition standby_knows (w : FileWalWriter) (cs : list SequencedCommand) (s : StandbyReplicator) : Prop :=
  sb_last_seq s <= last_seq w /\ sb_highest_term s <= foldl (fun _ => sc_term) 0 cs.

Lemma poll_reads w cs out s :
  standby_knows w cs s -> last_recovered_seq out = last_seq w ->
  ro_highest_term out = foldl (fun _ => sc_term) 0 cs ->
  poll_once (Ok out) s = (Ok (last_seq w), mkStandby (last_seq w) (foldl (fun _ => sc_term) 0 cs)).
Proof.
  intros [Hs Ht] Hl Hh. unfold poll_once. rewrite Hl, Hh. destruct (Z.ltb_spec (foldl (fun _ => sc_term) 0 cs) (sb_highest_term s)); [lia|].
  simpl. destruct (Z.ltb_spec (sb_last_seq s) (last_seq w)); [done|]. by replace (sb_last_seq s) with (last_seq w) by lia.
Qed.

(** A segment of appends: the log grows, and the standby still knows no more
    than is in it. *)
Lemma segment_inv calls later w cs rs s :
  Forall (fun c => sc_ok (snd c)) calls -> Forall (fun c => fst c = true) calls ->
  log_inv w cs rs -> clean w -> standby_knows w cs s ->
  StronglySorted Z.lt (0 :: map sc_seq (cs ++ map snd calls ++ later)) ->
  let w' := snd (append_all calls w) in
  exists cs' rs', log_inv w' cs' rs' /\ clean w' /\ standby_knows w' cs' s
    /\ StronglySorted Z.lt (0 :: map sc_seq (cs' ++ later)).
Proof.
  intros Hok Hsy Hi Hcl [Hk1 Hk2] Hsort. pose proof (append_all_sublist calls w) as Hsub.
  destruct (append_all calls w) as [acc w'] eqn:Ha. simpl in *.
  destruct (append_all_inv _ _ _ _ _ _ Hok Hi Ha) as ([rs' Hi'] & _ & _ & Hcl').
  assert (Hsort' : StronglySorted Z.lt (0 :: map sc_seq ((cs ++ acc) ++ later))).
  { eapply sorted_sublist; [|exact Hsort]. apply sublist_skip. change map with (fun A B => @fmap list _ A B).
    apply fmap_sublist. rewrite <- app_assoc. by apply sublist_app; [|apply sublist_app]. }
  exists (cs ++ acc), rs'. split_and!; [done|by apply Hcl'| |done]. split.
  - rewrite (li_last _ _ _ Hi'). rewrite (li_last _ _ _ Hi) in Hk1. etrans; [exact Hk1|]. apply rising_last.
    eapply sorted_sublist; [|exact Hsort']. apply sublist_skip. rewrite (map_app _ (cs ++ acc)).
    by apply sublist_inserts_r.
  - etrans; [exact Hk2|]. rewrite foldl_app. apply sorted_last_ge.
    pose proof (li_terms _ _ _ Hi') as Ht. rewrite map_app in Ht. clear -Ht. revert Ht. generalize 0.
    induction cs as [|c cs IH]; intros a Ht; [done|]. simpl in *. apply Sorted_inv in Ht as [Ht _]. by apply IH.
Qed.

Lemma observe_promoted shard_id polls w cs rs s more :
  Forall (fun p => Forall (fun c => sc_ok (snd c)) (pl_calls p)) polls ->
  Forall (fun p => Forall (fun c => fst c = true) (pl_calls p)) polls -> polls <> [] ->
  log_inv w cs rs -> clean w -> standby_knows w cs s ->
  StronglySorted Z.lt (0 :: map sc_seq (cs ++ poll_cmds polls)) ->
  exists outs out w', observe shard_id polls w = Val (outs ++ [out], w')
    /\ run_until_promoted (map (pair false) outs ++ (true, out) :: more) s
       = Some (seen_seq (sb_last_seq s) polls w).
Proof.
  intros Hok. revert w cs rs s. induction Hok as [|p polls Hp _ IH]; intros w cs rs s Hsy Hne Hi Hcl Hk Hsort; [done|].
  inversion_clear Hsy as [|? ? Hsp Hsy'].
  change (poll_cmds (p :: polls)) with (map snd (pl_calls p ++ concat (map pl_calls polls))) in Hsort.
  rewrite (map_app snd) in Hsort. fold (poll_cmds polls) in Hsort.
  destruct (segment_inv (pl_calls p) (poll_cmds polls) w cs rs s Hp Hsp Hi Hcl Hk Hsort)
    as (cs' & rs' & Hi' & Hcl' & Hk' & Hsort'). cbn [observe seen_seq].
  set (w1 := snd (append_all (pl_calls p) w)) in *.
  destruct (recover_log w1 cs' rs' shard_id Hi' Hcl') as (out & Hrec & Hl & Ht).
  set (o := match pl_error p with Some e => Err e | None => Ok out end).
  set (s1 := snd (poll_once o s)).
  assert (Hs1 : standby_knows w1 cs' s1 /\ sb_last_seq s1 = match pl_error p with Some _ => sb_last_seq s | None => last_seq w1 end).
  { unfold s1, o. destruct (pl_error p); [done|]. rewrite (poll_reads w1 cs' out s Hk' Hl Ht). simpl.
    split; [|done]. split; simpl; lia. }
  destruct Hs1 as [Hk1 Hs1]. rewrite <- Hs1.
  assert (Ho : match pl_error p with Some e => Val (Err e) | None => recover (Some (mmap w1)) None shard_id end = Val o)
    by (unfold o; by destruct (pl_error p)).
  rewrite Ho. cbn [ebind]. destruct polls as [|p2 polls].
  - exists [], o, w1. split; [done|]. cbn [map app run_until_promoted seen_seq].
    unfold s1. by destruct (poll_once o s).
  - destruct (IH w1 cs' rs' s1 Hsy' ltac:(done) Hi' Hcl' Hk1 Hsort') as (outs & out' & w' & -> & Hrun).
    exists (o :: outs), out', w'. split; [done|]. cbn [map app run_until_promoted]. rewrite <- Hrun.
    unfold s1. by destruct (poll_once o s).
Qed.

Lemma seen_last shard_id polls final w outs w' z :
  observe shard_id (polls ++ [final]) w = Val (outs, w') -> pl_error final = None ->
  seen_seq z (polls ++ [final]) w = last_seq w'.
Proof.
  intros Ho Hf. revert w outs z Ho. induction polls as [|p polls IH]; intros w outs z Ho; cbn [app observe seen_seq] in *.
  - rewrite Hf in *. destruct (recover _ _ _); simpl in Ho; try done. by injection Ho as <- <-.
  - destruct (match pl_error p with Some e => _ | None => _ end); simpl in Ho; try done.
    destruct (observe shard_id (polls ++ [final]) _) as [[outs1 w1]| |] eqn:E; simpl in Ho; try done.
    injection Ho as <- <-. by eapply IH.
Qed.
End Log.

(** ** Theorems *)

(** C26. Fencing: among any number of contending processes, with shutdowns
    and crashes at any point, while the terms stay below 2^64, at most one holds the lease; the terms handed
    out are the successive integers after the one in the file; and while a
    process leads, every other handle that still shows [Leader] shows a
    strictly smaller term, so whoever keeps the highest term can tell. *)
Theorem failover_fencing file n w :
  0 <= read_term file -> world_reach (init_world file n) w ->
  read_term file + Z.of_nat (length (w_terms w)) + 1 < two64 ->
  (forall k i t, w_terms w !! k = Some (i, t) -> t = read_term file + Z.of_nat k + 1)
  /\ (forall i p t, w_procs w !! i = Some p -> p_phase p = Leading t ->
        is_leader (p_handle p) = true /\ rh_term (p_handle p) = t
        /\ forall j q, j <> i -> w_procs w !! j = Some q ->
             (forall t', p_phase q <> Leading t')
             /\ (is_leader (p_handle q) = true -> rh_term (p_handle q) < t)).
Proof.
  intros H0 Hr Hb. pose proof (world_reach_inv _ _ _ H0 Hr Hb) as Hi. split; [apply Hi|]. intros i p t Hp Hph.
  pose proof (wi_procs _ _ _ Hi i p Hp) as Hok. unfold proc_ok in Hok. rewrite Hph in Hok.
  destruct Hok as (-> & Hrole & Hterm & Hlast). split_and!; [unfold is_leader, role; by rewrite Hrole|done|].
  intros j q Hj Hq. pose proof (wi_owner _ _ _ Hi i p Hp) as Ho. rewrite Hph in Ho. split.
  - intros t' Hq'. pose proof (wi_owner _ _ _ Hi j q Hq) as Ho'. rewrite Hq' in Ho'. simpl in *.
    destruct Ho as [Ho _], Ho' as [Ho' _]. specialize (Ho eq_refl). specialize (Ho' eq_refl). congruence.
  - intros Hl. pose proof (leader_term _ _ _ _ _ Hi Hq Hl) as [k Hk]%list_elem_of_lookup.
    rewrite (wi_file_term _ _ _ Hi). apply (wi_terms _ _ _ Hi) in Hk as Ht.
    apply lookup_lt_Some in Hk as Hlt. rewrite last_lookup in Hlast.
    assert (k <> pred (length (w_terms w))); [|lia]. intros ->. rewrite Hlast in Hk. congruence.
Qed.

(** The handle outlives the lease: from any reachable state in which a
    process leads, dropping its controller releases the lock, and the handle
    the sequencer polls still shows [Leader]. *)
Theorem failover_handle_outlives_lease file n w i p t :
  0 <= read_term file -> world_reach (init_world file n) w ->
  read_term file + Z.of_nat (length (w_terms w)) + 1 < two64 ->
  w_procs w !! i = Some p -> p_phase p = Leading t ->
  exists w' p', world_reach (init_world file n) w' /\ w_procs w' !! i = Some p' /\ p_phase p' = Done
    /\ w_owner w' = None /\ is_leader (p_handle p') = true.
Proof.
  intros H0 Hr Hb Hp Hph. pose proof (world_reach_inv _ _ _ H0 Hr Hb) as Hi.
  pose proof (wi_procs _ _ _ Hi i p Hp) as Hok. unfold proc_ok in Hok. rewrite Hph in Hok.
  destruct Hok as (_ & Hrole & _). apply lookup_lt_Some in Hp as Hlt.
  eexists _, (mkProc Done (p_handle p) true). split_and!.
  - eapply wr_step; [eapply wr_step; [exact Hr|by eapply ws_shutdown]|].
    eapply (ws_thread _ i); [apply list_lookup_insert_eq; exact Hlt|].
    unfold thread_step. simpl. rewrite Hph. reflexivity.
  - apply list_lookup_insert_eq. by rewrite length_insert.
  - done.
  - done.
  - unfold is_leader, role. simpl. by rewrite Hrole.
Qed.

(** C27. The standby resumes where the log ends. A standby polls the file of a
    leader that goes on appending between the polls, with rising sequence
    numbers, no failed [msync] and no snapshot yet; any poll may fail. At
    promotion [run_until_promoted] makes its last catch-up poll and returns
    exactly the last sequence number in the log at the last poll that did not
    fail (0 if none did), whatever the rounds afterwards would have shown; so
    when the catch-up poll succeeds, it is the number of the last command the
    leader acknowledged. *)
Theorem standby_follows_log `{C : WalCodec} `{!WalCodecLaws C} cfg shard_id polls final more :
  (FILE_HEADER_SIZE <= file_capacity cfg)%nat ->
  Forall (fun p => Forall (fun c => sc_ok (snd c)) (pl_calls p)) (polls ++ [final]) ->
  Forall (fun p => Forall (fun c => fst c = true) (pl_calls p)) (polls ++ [final]) ->
  StronglySorted Z.lt (0 :: map sc_seq (poll_cmds (polls ++ [final]))) ->
  exists outs out w, observe shard_id (polls ++ [final]) (new_wal cfg) = Val (outs ++ [out], w)
    /\ run_until_promoted (map (pair false) outs ++ (true, out) :: more) StandbyReplicator_new
       = Some (seen_seq 0 (polls ++ [final]) (new_wal cfg))
    /\ (pl_error final = None ->
        run_until_promoted (map (pair false) outs ++ (true, out) :: more) StandbyReplicator_new
        = Some (last_seq w)).
Proof.
  intros Hcap Hok Hsy Hsort. destruct (new_wal_inv cfg Hcap) as (Hi & Hcl & _).
  destruct (observe_promoted shard_id (polls ++ [final]) (new_wal cfg) [] [] StandbyReplicator_new more Hok Hsy
    ltac:(by destruct polls) Hi Hcl ltac:(by split) Hsort) as (outs & out & w & Ho & Hr).
  exists outs, out, w. split_and!; [done|done|]. intros Hf. rewrite Hr. f_equal. by eapply seen_last.
Qed.

(** ** Witnesses *)

Module FailoverDemo.
(** The statements of the election threads in the given order. *)
Fixpoint sched (order : list nat) (w : World) : option World :=
  match order with
  | [] => Some w
  | i :: rest =>
      match w_procs w !! i with
      | Some p => match thread_step i p w with Some w' => sched rest w' | None => None end
      | None => None
      end
  end.

Lemma sched_reach order w0 w w' : world_reach w0 w -> sched order w = Some w' -> world_reach w0 w'.
Proof.
  revert w. induction order as [|i order IH]; intros w Hr Hs; cbn [sched] in Hs; [congruence|].
  destruct (w_procs w !! i) as [p|] eqn:Hp; [|done]. destruct (thread_step i p w) as [w1|] eqn:Ht; [|done].
  eapply IH; [|exact Hs]. eapply wr_step; [exact Hr|by eapply ws_thread].
Qed.

(** Two processes and a lease file at term 6: the second one takes the lease. *)
Definition file : list Z := [6; 0; 0; 0; 0; 0; 0; 0].
Definition start : World := init_world file 2.
Definition leader : Proc := mkProc (Leading 7) (mkRoleHandle 1 7) false.
Definition led : World := mkWorld [7; 0; 0; 0; 0; 0; 0; 0] (Some 1%nat) [spawn; leader] [(1%nat, 7)].

Lemma led_reached : world_reach start led.
Proof. apply (sched_reach [1; 1; 1; 1; 1]%nat start start); [constructor|vm_compute; reflexivity]. Qed.

Lemma failover_fencing_witness :
  is_leader (p_handle leader) = true /\ rh_term (p_handle leader) = 7.
Proof.
  destruct (failover_fencing file 2 led) as [_ H]; [vm_compute; discriminate|exact led_reached|reflexivity|].
  destruct (H 1%nat leader 7 eq_refl eq_refl) as (H1 & H2 & _). exact (conj H1 H2).
Defined.

Lemma failover_handle_outlives_lease_witness :
  exists w p, world_reach start w /\ w_procs w !! 1%nat = Some p /\ p_phase p = Done
    /\ w_owner w = None /\ is_leader (p_handle p) = true.
Proof.
  refine (failover_handle_outlives_lease file 2 led 1 leader 7 _ led_reached _ eq_refl eq_refl);
    [vm_compute; discriminate|reflexivity].
Defined.

(** The leader logs one command, a poll reads it, a second poll fails, another
    command is logged and the catch-up poll at promotion reads that one too. *)
Definition polls : list Poll :=
  [mkPoll [(true, WalDemo.sc 1 1 5)] None; mkPoll [] (Some Recovery_Io)].
Definition catch_up : Poll := mkPoll [(true, WalDemo.sc 2 2 6)] None.

Lemma standby_follows_log_witness :
  exists outs out w, @observe WalDemo.codec 0 (polls ++ [catch_up]) (new_wal WalDemo.cfg) = Val (outs ++ [out], w)
    /\ run_until_promoted (map (pair false) outs ++ [(true, out)]) StandbyReplicator_new = Some 2.
Proof.
  destruct (@standby_follows_log WalDemo.codec WalDemo.codec_laws WalDemo.cfg 0 polls catch_up []
    WalDemo.cfg_room) as (outs & out & w & H1 & H2 & _).
  - repeat constructor; simpl; unfold two64; lia.
  - repeat constructor.
  - repeat constructor.
  - exists outs, out, w. split; [exact H1|]. rewrite H2. vm_compute. reflexivity.
Defined.

(** With a snapshot at the last record, recovery reports 0 as the last
    recovered number, and a fresh standby would resume from there. *)
Example standby_forgets_snapshot :
  let dir := snd (write_all (@crc32 WalDemo.codec) 100 [(IoDone, mkEntry 0 2 0 [1])] []) in
  match @recover WalDemo.codec (Some (mmap WalDemo.final)) (Some dir) 0 with
  | Val (Ok out) => ro_snapshot_seq out = 2 /\ fst (poll_once (Ok out) StandbyReplicator_new) = Ok 0
  | _ => False
  end.
Proof. vm_compute. split; reflexivity. Qed.
End FailoverDemo.
