(* ===== verification/LogEntry.v ===== *)
(** * LogEntry: the shared log entry and the pending ring

    crates/core-types/src/log_entry.rs and crates/dual-log/src/pending_ring.rs.
    Entries are shared ([Arc<LogEntry>]): the model keeps them in a heap, a
    list of entries, and an [Arc] is an index into it.  The ordered concurrent
    map of the ring (crossbeam_skiplist) is the interface [SkipMapApi] with its
    documented laws and an instance; the hash of a command ([DefaultHasher],
    whose algorithm the standard library leaves unspecified) is a parameter. *)

From S2P Require Import Prelude CoreTypes.
From stdpp Require Import sorting.
#[local] Open Scope Z_scope.

(** ** log_entry.rs *)

Record LogEntry := mkEntry {
  en_seq : Z;
  en_term : Z;
  en_timestamp_in : Z;
  en_cmd : InboundCommand;
  en_checksum : Z;
  en_status : Z;
  en_handled_by : Z;
  en_timestamp_out : Z;
  en_fill_price : Z;
  en_filled_qty : Z
}.

(** The stores to the atomic fields. *)
Definition store_status (v : Z) (e : LogEntry) : LogEntry :=
  mkEntry (en_seq e) (en_term e) (en_timestamp_in e) (en_cmd e) (en_checksum e)
    v (en_handled_by e) (en_timestamp_out e) (en_fill_price e) (en_filled_qty e).
Definition store_handled_by (v : Z) (e : LogEntry) : LogEntry :=
  mkEntry (en_seq e) (en_term e) (en_timestamp_in e) (en_cmd e) (en_checksum e)
    (en_status e) v (en_timestamp_out e) (en_fill_price e) (en_filled_qty e).
Definition store_timestamp_out (v : Z) (e : LogEntry) : LogEntry :=
  mkEntry (en_seq e) (en_term e) (en_timestamp_in e) (en_cmd e) (en_checksum e)
    (en_status e) (en_handled_by e) v (en_fill_price e) (en_filled_qty e).
Definition store_fill_price (v : Z) (e : LogEntry) : LogEntry :=
  mkEntry (en_seq e) (en_term e) (en_timestamp_in e) (en_cmd e) (en_checksum e)
    (en_status e) (en_handled_by e) (en_timestamp_out e) v (en_filled_qty e).
Definition store_filled_qty (v : Z) (e : LogEntry) : LogEntry :=
  mkEntry (en_seq e) (en_term e) (en_timestamp_in e) (en_cmd e) (en_checksum e)
    (en_status e) (en_handled_by e) (en_timestamp_out e) (en_fill_price e) v.

Section Checksum.
Context (hash_command : InboundCommand -> Z).

Definition compute_checksum (cmd : InboundCommand) : Z :=
  let h := hash_command cmd in
  Z.lxor (wrap_u32 h) (wrap_u32 (Z.shiftr h 32)).

Definition LogEntry_new (seq term timestamp_in : Z) (cmd : InboundCommand) : LogEntry :=
  mkEntry seq term timestamp_in cmd (compute_checksum cmd) (status_to_u8 Pending) 0 0 0 0.

Definition verify_checksum (e : LogEntry) : bool := compute_checksum (en_cmd e) =? en_checksum e.
End Checksum.

(** [compare_exchange] on the status byte: the answer and the entry after. *)
Definition try_claim (from to : OrderStatus) (e : LogEntry) : bool * LogEntry :=
  if en_status e =? status_to_u8 from then (true, store_status (status_to_u8 to) e) else (false, e).

Definition load_status (e : LogEntry) : OrderStatus := default Pending (status_from_u8 (en_status e)).

(** Four separate stores, in this order. *)
Definition record_fill (engine_id timestamp_out fill_price filled_qty : Z) (e : LogEntry) : LogEntry :=
  let e := store_fill_price fill_price e in
  let e := store_filled_qty filled_qty e in
  let e := store_timestamp_out timestamp_out e in
  store_handled_by engine_id e.

Definition age_ns (now_ns : Z) (e : LogEntry) : Z := saturating_sub_u64 now_ns (en_timestamp_in e).

(** ** The heap of entries *)

Abbreviation Arc := nat (only parsing).
Abbreviation Heap := (list LogEntry).

Definition status_of (h : Heap) (p : Arc) : OrderStatus := from_option load_status Pending (h !! p).
Definition seq_of (h : Heap) (p : Arc) : Z := from_option en_seq 0 (h !! p).

(** [Arc::new], and a method with a shared reference. *)
Definition arc_new (e : LogEntry) (h : Heap) : Arc * Heap := (length h, h ++ [e]).
Definition arc_update (f : LogEntry -> LogEntry) (p : Arc) (h : Heap) : Heap := alter f p h.
Definition arc_claim (from to : OrderStatus) (p : Arc) (h : Heap) : bool * Heap :=
  match h !! p with
  | Some e => let '(won, e') := try_claim from to e in (won, <[p := e']> h)
  | None => (false, h)
  end.

(** ** The ordered map *)

Class SkipMapApi := {
  sk_t : Type -> Type;
  sk_new {V} : sk_t V;
  sk_insert {V} : Z -> V -> sk_t V -> sk_t V;
  sk_remove {V} : Z -> sk_t V -> option V * sk_t V;
  sk_iter {V} : sk_t V -> list (Z * V)
}.

Class SkipMapLaws (S : SkipMapApi) : Prop := {
  sk_sorted {V} (m : sk_t V) : StronglySorted Z.lt (map fst (sk_iter m));
  sk_iter_new {V} : sk_iter (V := V) sk_new = [];
  sk_iter_insert {V} (m : sk_t V) k v x :
    x ∈ sk_iter (sk_insert k v m) <-> x = (k, v) \/ (x ∈ sk_iter m /\ x.1 <> k);
  sk_iter_remove {V} (m : sk_t V) k x :
    x ∈ sk_iter (sk_remove k m).2 <-> x ∈ sk_iter m /\ x.1 <> k;
  sk_remove_found {V} (m : sk_t V) k v : (sk_remove k m).1 = Some v <-> (k, v) ∈ sk_iter m
}.

(** ** pending_ring.rs *)

Section PendingRing.
Context {SK : SkipMapApi}.

Record PendingRing := mkRing { pr_map : sk_t Arc; pr_len : Z }.

Definition PendingRing_new : PendingRing := mkRing sk_new 0.

Definition ring_push (h : Heap) (p : Arc) (r : PendingRing) : PendingRing :=
  mkRing (sk_insert (seq_of h p) p (pr_map r)) (wrap_u64 (pr_len r + 1)).

Definition ring_remove (seq : Z) (r : PendingRing) : bool * PendingRing :=
  match sk_remove seq (pr_map r) with
  | (Some _, m) => (true, mkRing m (wrap_u64 (pr_len r - 1)))
  | (None, m) => (false, mkRing m (pr_len r))
  end.

Definition next_pending (h : Heap) (r : PendingRing) : option Arc :=
  option_map snd (List.find (fun kp => bool_decide (status_of h kp.2 = Pending)) (sk_iter (pr_map r))).

Definition ring_snapshot (r : PendingRing) : list Arc := map snd (sk_iter (pr_map r)).

Definition ring_len (r : PendingRing) : Z := pr_len r.
Definition ring_is_empty (r : PendingRing) : bool := ring_len r =? 0.

Fixpoint gc_keys (keys : list Z) (m : sk_t Arc) (removed : Z) : sk_t Arc * Z :=
  match keys with
  | [] => (m, removed)
  | key :: keys =>
      match sk_remove key m with
      | (Some _, m) => gc_keys keys m (wrap_u64 (removed + 1))
      | (None, m) => gc_keys keys m removed
      end
  end.

Definition gc_terminal (h : Heap) (r : PendingRing) : Z * PendingRing :=
  let terminal_keys := map fst (List.filter (fun kp => is_terminal (status_of h kp.2)) (sk_iter (pr_map r))) in
  let '(m, removed) := gc_keys terminal_keys (pr_map r) 0 in
  (removed, mkRing m (if 0 <? removed then wrap_u64 (pr_len r - removed) else pr_len r)).

(** ** Facts about entries *)

(** The status byte is one of the four discriminants. *)
Definition status_ok (e : LogEntry) : Prop := en_status e = status_to_u8 (load_status e).

Lemma load_store_status s e : load_status (store_status (status_to_u8 s) e) = s.
Proof. unfold load_status, store_status. simpl. by rewrite status_roundtrip. Qed.

Lemma status_ok_store s e : status_ok (store_status (status_to_u8 s) e).
Proof. unfold status_ok. by rewrite load_store_status. Qed.

Lemma try_claim_iff from to e :
  status_ok e -> try_claim from to e =
    if bool_decide (load_status e = from) then (true, store_status (status_to_u8 to) e) else (false, e).
Proof.
  unfold try_claim, status_ok. intros ->. destruct (Z.eqb_spec (status_to_u8 (load_status e)) (status_to_u8 from)) as [He|Hne].
  - by rewrite bool_decide_true by by apply status_to_u8_inj.
  - rewrite bool_decide_false; [done|]. congruence.
Qed.

(** A claim on the heap: it wins exactly on the expected status, and then
    changes nothing but this entry's status. *)
Lemma arc_claim_spec from to p h won h' :
  Forall status_ok h -> arc_claim from to p h = (won, h') ->
  (won = true /\ exists e, h !! p = Some e /\ load_status e = from /\ h' = <[p := store_status (status_to_u8 to) e]> h)
  \/ (won = false /\ h' = h /\ (is_Some (h !! p) -> status_of h p <> from)).
Proof.
  intros Hok. unfold arc_claim, status_of. destruct (h !! p) as [e|] eqn:Hp.
  - rewrite Forall_lookup in Hok. rewrite try_claim_iff by by eapply Hok. case_bool_decide; intros [= <- <-].
    + left. eauto.
    + right. by rewrite list_insert_id.
  - intros [= <- <-]. right. split_and!; try done.
Qed.

Lemma status_of_insert h p q e :
  (p < length h)%nat -> status_of (<[p := e]> h) q = if decide (q = p) then load_status e else status_of h q.
Proof.
  intros Hp. unfold status_of. case_decide as Hq; [subst; by rewrite list_lookup_insert_eq|].
  by rewrite list_lookup_insert_ne.
Qed.

Lemma seq_of_insert h p q e e0 :
  h !! p = Some e0 -> en_seq e = en_seq e0 -> seq_of (<[p := e]> h) q = seq_of h q.
Proof.
  intros Hp Hs. unfold seq_of. destruct (decide (q = p)) as [-> |].
  - rewrite list_lookup_insert_eq by by eapply lookup_lt_Some. rewrite Hp. done.
  - by rewrite list_lookup_insert_ne.
Qed.

Lemma status_of_app h l p : (p < length h)%nat -> status_of (h ++ l) p = status_of h p.
Proof. intros. unfold status_of. by rewrite lookup_app_l. Qed.

Lemma seq_of_app h l p : (p < length h)%nat -> seq_of (h ++ l) p = seq_of h p.
Proof. intros. unfold seq_of. by rewrite lookup_app_l. Qed.

(** ** Facts about the ring *)

Context {SKL : SkipMapLaws SK}.
Implicit Types (r : PendingRing) (h : Heap).

(** The entries the ring holds, by key. *)
Definition in_ring (r : PendingRing) (k : Z) (p : Arc) : Prop := (k, p) ∈ sk_iter (pr_map r).

(** The map is keyed by sequence number and the counter is its size. *)
Record ring_inv (h : Heap) (r : PendingRing) : Prop := {
  ri_keys k p : in_ring r k p -> (p < length h)%nat /\ seq_of h p = k;
  ri_len : pr_len r = wrap_u64 (Z.of_nat (length (sk_iter (pr_map r))))
}.

Lemma in_ring_push h p r k q :
  in_ring (ring_push h p r) k q <-> (k = seq_of h p /\ q = p) \/ (in_ring r k q /\ k <> seq_of h p).
Proof. unfold in_ring, ring_push. simpl. rewrite sk_iter_insert. simpl. naive_solver. Qed.

Lemma in_ring_remove seq r k q : in_ring (ring_remove seq r).2 k q <-> in_ring r k q /\ k <> seq.
Proof.
  unfold in_ring, ring_remove. pose proof (sk_iter_remove (pr_map r) seq (k, q)) as H.
  destruct (sk_remove seq (pr_map r)) as [[v|] m]; exact H.
Qed.

Lemma sorted_lt_nodup (l : list Z) : StronglySorted Z.lt l -> NoDup l.
Proof.
  induction 1 as [|a l _ IH Hf]; constructor; [|done]. rewrite Forall_forall in Hf.
  intros Ha%Hf. lia.
Qed.

Lemma sk_keys_nodup {V} (m : sk_t V) : NoDup (map fst (sk_iter m)).
Proof. apply sorted_lt_nodup, sk_sorted. Qed.

Lemma sk_iter_nodup {V} (m : sk_t V) : NoDup (sk_iter m).
Proof. eapply (NoDup_fmap_1 fst), sk_keys_nodup. Qed.

Lemma sk_key_fun {V} (m : sk_t V) k v v' : (k, v) ∈ sk_iter m -> (k, v') ∈ sk_iter m -> v = v'.
Proof.
  intros H1 H2. pose proof (sk_keys_nodup m) as Hnd. apply list_elem_of_lookup in H1 as [i Hi], H2 as [j Hj].
  assert (i = j) as ->; [|congruence].
  change (map fst (sk_iter m)) with (fst <$> sk_iter m) in Hnd.
  eapply (NoDup_lookup _ _ _ k Hnd); rewrite list_lookup_fmap, ?Hi, ?Hj; done.
Qed.

Lemma sk_insert_new {V} (m : sk_t V) k v :
  (forall v', (k, v') ∉ sk_iter m) -> sk_iter (sk_insert k v m) ≡ₚ (k, v) :: sk_iter m.
Proof.
  intros Hn. apply NoDup_Permutation; [apply sk_iter_nodup|constructor; [done|apply sk_iter_nodup]|].
  intros [k' v']. rewrite sk_iter_insert, elem_of_cons. simpl. split; [naive_solver|].
  intros [?|Hin]; [by left|]. right. split; [done|]. intros ->. by eapply Hn.
Qed.

Lemma sk_remove_perm {V} (m : sk_t V) k v :
  (k, v) ∈ sk_iter m -> sk_iter m ≡ₚ (k, v) :: sk_iter (sk_remove k m).2.
Proof.
  intros Hin. apply NoDup_Permutation; [apply sk_iter_nodup| |].
  - constructor; [|apply sk_iter_nodup]. rewrite sk_iter_remove. naive_solver.
  - intros [k' v']. rewrite elem_of_cons, sk_iter_remove. simpl. split; [|naive_solver].
    intros Hin'. destruct (decide (k' = k)) as [-> |]; [left; f_equal; by eapply sk_key_fun|by right].
Qed.

Lemma sk_remove_none {V} (m : sk_t V) k :
  (sk_remove k m).1 = None -> sk_iter (sk_remove k m).2 ≡ₚ sk_iter m.
Proof.
  intros Hn. apply NoDup_Permutation; [apply sk_iter_nodup..|]. intros [k' v]. rewrite sk_iter_remove. simpl.
  split; [by intros [? _]|]. intros Hin. split; [done|]. intros ->.
  apply sk_remove_found in Hin. congruence.
Qed.

Lemma ring_push_inv h p r :
  ring_inv h r -> (p < length h)%nat -> (forall q, ~ in_ring r (seq_of h p) q) -> ring_inv h (ring_push h p r).
Proof.
  intros [Hk Hl] Hp Hn. split.
  - intros k q [[-> ->]|[Hin _]]%in_ring_push; [done|]. by apply Hk.
  - simpl. rewrite (Permutation_length (sk_insert_new _ _ _ Hn)), Hl. cbn [length].
    rewrite wrap_u64_add_l. f_equal. lia.
Qed.

Lemma ring_remove_inv h seq r : ring_inv h r -> ring_inv h (ring_remove seq r).2.
Proof.
  intros [Hk Hl]. split.
  - intros k q [Hin _]%in_ring_remove. by apply Hk.
  - unfold ring_remove. destruct (sk_remove seq (pr_map r)) as [[v|] m] eqn:Hr; simpl.
    + assert (Hf : (seq, v) ∈ sk_iter (pr_map r)) by (apply sk_remove_found; by rewrite Hr).
      rewrite Hl, (Permutation_length (sk_remove_perm _ _ _ Hf)), Hr. cbn [length snd].
      rewrite wrap_u64_sub_l. f_equal. lia.
    + rewrite Hl. f_equal. f_equal. pose proof (sk_remove_none (pr_map r) seq) as Hn. rewrite Hr in Hn.
      symmetry. apply Permutation_length. exact (Hn eq_refl).
Qed.

Lemma gc_keys_spec keys (m : sk_t Arc) removed :
  NoDup keys -> (forall k, k ∈ keys -> exists v, (k, v) ∈ sk_iter m) ->
  exists m', gc_keys keys m removed = (m', if decide (keys = []) then removed else wrap_u64 (removed + Z.of_nat (length keys)))
    /\ (forall x, x ∈ sk_iter m' <-> x ∈ sk_iter m /\ x.1 ∉ keys)
    /\ length (sk_iter m) = (length (sk_iter m') + length keys)%nat.
Proof.
  intros Hnd. revert m removed. induction Hnd as [|k keys Hk Hnd IH]; intros m removed Hin; cbn [gc_keys].
  { exists m. split_and!; [done|set_solver|simpl; lia]. }
  destruct (Hin k) as [v Hv]; [by left|]. assert (Hr := proj2 (sk_remove_found _ _ _) Hv).
  pose proof (sk_remove_perm m k v Hv) as Hperm. pose proof (sk_iter_remove m k) as Hrem.
  destruct (sk_remove k m) as [o m1]. simpl in Hr, Hperm, Hrem. subst o.
  destruct (IH m1 (wrap_u64 (removed + 1))) as (m' & Hgc & Hm' & Hlen).
  { intros k' Hk'. destruct (Hin k') as [v' Hv']; [by right|]. exists v'. apply Hrem. split; [done|].
    simpl. intros ->. done. }
  exists m'. split_and!.
  - rewrite Hgc. f_equal. rewrite (decide_False (P := k :: keys = [])) by discriminate. case_decide as Hn.
    + by subst.
    + rewrite wrap_u64_add_l. f_equal. cbn [length]. lia.
  - intros x. rewrite Hm', Hrem, not_elem_of_cons. tauto.
  - rewrite (Permutation_length Hperm). cbn [length]. lia.
Qed.

Lemma gc_terminal_keys h r :
  let keys := map fst (List.filter (fun kp => is_terminal (status_of h kp.2)) (sk_iter (pr_map r))) in
  NoDup keys /\ (forall k, k ∈ keys <-> exists p, in_ring r k p /\ is_terminal (status_of h p) = true)
  /\ length keys = length (List.filter (fun p => is_terminal (status_of h p)) (ring_snapshot r)).
Proof.
  intros keys. set (term := fun kp : Z * Arc => is_terminal (status_of h kp.2)). split_and!.
  - unfold keys. pose proof (sk_keys_nodup (pr_map r)) as Hnd. fold term. revert Hnd. clear keys.
    induction (sk_iter (pr_map r)) as [|x l IH]; simpl; [done|]. intros [Hx Hnd]%NoDup_cons.
    destruct (term x); [|by auto]. simpl. constructor; [|by auto]. intros Hin. apply Hx.
    revert Hin. rewrite !list_elem_of_In, !in_map_iff. setoid_rewrite filter_In. naive_solver.
  - intros k. unfold keys. rewrite list_elem_of_In, in_map_iff. setoid_rewrite filter_In.
    setoid_rewrite <- list_elem_of_In. unfold in_ring. split; [intros ([? q] & <- & ?); eauto|].
    intros (q & ? & ?). by exists (k, q).
  - unfold keys, ring_snapshot. rewrite length_map. clear keys. induction (sk_iter (pr_map r)) as [|x l IH]; [done|].
    simpl. destruct (is_terminal _); simpl; by rewrite IH.
Qed.

(** What stays in the ring when the keys of the terminal entries go. *)
Lemma gc_terminal_map h r (m' : sk_t Arc) :
  (forall x, x ∈ sk_iter m' <-> x ∈ sk_iter (pr_map r)
     /\ x.1 ∉ map fst (List.filter (fun kp => is_terminal (status_of h kp.2)) (sk_iter (pr_map r)))) ->
  forall k p, (k, p) ∈ sk_iter m' <-> in_ring r k p /\ is_terminal (status_of h p) = false.
Proof.
  intros Hm' k p. destruct (gc_terminal_keys h r) as (_ & Hkeys & _). rewrite Hm'. simpl. split.
  - intros [Hin Hnk]. split; [done|]. destruct (is_terminal _) eqn:Ht; [|done]. destruct Hnk. apply Hkeys. by exists p.
  - intros [Hin Ht]. split; [done|]. intros (q & Hq & Htq)%Hkeys.
    assert (q = p) as -> by (by eapply sk_key_fun). congruence.
Qed.

Lemma in_ring_gc h r k p :
  in_ring (gc_terminal h r).2 k p <-> in_ring r k p /\ is_terminal (status_of h p) = false.
Proof.
  destruct (gc_terminal_keys h r) as (Hnd & Hkeys & _). unfold gc_terminal.
  destruct (gc_keys_spec _ (pr_map r) 0 Hnd) as (m' & -> & Hm' & _).
  { intros k' (q & ? & _)%Hkeys. by exists q. }
  unfold in_ring at 1. simpl. by apply gc_terminal_map.
Qed.

(** Garbage collection of the ring is exact: [gc_terminal] removes the
    entries whose status is terminal and no other, returns how many it
    removed, and keeps the counter equal to the number of entries. *)
Theorem ring_gc_exact h r :
  ring_inv h r -> Z.of_nat (length (sk_iter (pr_map r))) < two64 ->
  let '(removed, r') := gc_terminal h r in
  (forall k p, in_ring r' k p <-> in_ring r k p /\ is_terminal (status_of h p) = false)
  /\ removed = Z.of_nat (length (List.filter (fun p => is_terminal (status_of h p)) (ring_snapshot r)))
  /\ ring_inv h r'.
Proof.
  intros [Hk Hl] Hb. pose proof (in_ring_gc h r) as Hgc. destruct (gc_terminal_keys h r) as (Hnd & Hkeys & Hn).
  unfold gc_terminal in *. set (keys := map fst _) in *.
  destruct (gc_keys_spec keys (pr_map r) 0 Hnd) as (m' & Hg & Hm' & Hlen).
  { intros k (p & ? & _)%Hkeys. by exists p. }
  rewrite Hg in Hgc |- *. simpl in Hgc.
  assert (Hrem : (if decide (keys = []) then 0 else wrap_u64 (0 + Z.of_nat (length keys))) = Z.of_nat (length keys)).
  { case_decide as E; [by rewrite E|]. apply wrap_u64_id. split; lia. }
  rewrite Hrem in *. split_and!; [done|by rewrite Hn|split].
  - intros k p [Hin _]%Hgc. by apply Hk.
  - simpl. rewrite Hl, Hlen. destruct (Z.ltb_spec 0 (Z.of_nat (length keys))) as [|H0].
    + rewrite wrap_u64_sub_l. f_equal. lia.
    + do 2 f_equal. lia.
Qed.

Lemma find_lowest (f : Z * Arc -> bool) (l : list (Z * Arc)) x :
  StronglySorted Z.lt (map fst l) -> List.find f l = Some x ->
  x ∈ l /\ f x = true /\ forall y, y ∈ l -> f y = true -> x.1 <= y.1.
Proof.
  induction l as [|a l IH]; intros Hs Hf; [done|]. simpl in Hs, Hf. apply StronglySorted_inv in Hs as [Hs Hall].
  destruct (f a) eqn:Ha.
  - injection Hf as ->. split_and!; [by left|done|]. intros y [-> |Hy]%elem_of_cons _; [lia|].
    rewrite Forall_forall in Hall. assert (x.1 < y.1); [|lia]. apply Hall.
    apply list_elem_of_In, in_map, list_elem_of_In. done.
  - destruct (IH Hs Hf) as (? & ? & Hlow). split_and!; [by right|done|].
    intros y [-> |Hy]%elem_of_cons Hfy; [congruence|by apply Hlow].
Qed.

(** [next_pending] is the pending entry with the lowest sequence number. *)
Lemma next_pending_lowest h r :
  match next_pending h r with
  | Some p => exists k, in_ring r k p /\ status_of h p = Pending
      /\ forall k' q, in_ring r k' q -> status_of h q = Pending -> k <= k'
  | None => forall k q, in_ring r k q -> status_of h q <> Pending
  end.
Proof.
  unfold next_pending. destruct (List.find _ _) as [[k p]|] eqn:Hf; simpl.
  - apply find_lowest in Hf as (Hin & Hst%bool_decide_eq_true & Hlow); [|apply sk_sorted].
    exists k. split_and!; [done..|]. intros k' q Hq Hs. apply (Hlow (k', q)); [done|by apply bool_decide_eq_true].
  - intros k q Hin Hs. apply find_none with (x := (k, q)) in Hf; [|by apply list_elem_of_In].
    by apply bool_decide_eq_false in Hf.
Qed.
End PendingRing.

(** ** An instance of the ordered map *)

Module GmapSkipMap.
Definition key_le {V} (a b : Z * V) : Prop := a.1 <= b.1.
#[local] Instance key_le_dec {V} : RelDecision (@key_le V).
Proof. intros a b. unfold key_le. apply _. Defined.
#[local] Instance key_le_total {V} : Total (@key_le V).
Proof. intros a b. unfold key_le. lia. Qed.
#[local] Instance key_le_trans {V} : Transitive (@key_le V).
Proof. intros a b c. unfold key_le. lia. Qed.

#[export] Instance api : SkipMapApi := {|
  sk_t V := gmap Z V;
  sk_new V := ∅;
  sk_insert V k v m := <[k := v]> m;
  sk_remove V k m := (m !! k, delete k m);
  sk_iter V m := merge_sort key_le (map_to_list m)
|}.

Lemma elem_of_iter {V} (m : gmap Z V) x : x ∈ sk_iter (m : sk_t V) <-> m !! x.1 = Some x.2.
Proof. destruct x as [k v]. simpl. rewrite merge_sort_Permutation. apply elem_of_map_to_list. Qed.

Lemma strict_keys {V} (l : list (Z * V)) :
  StronglySorted key_le l -> NoDup (map fst l) -> StronglySorted Z.lt (map fst l).
Proof.
  induction 1 as [|a l Hs IH Hf]; simpl; [constructor|]. intros [Ha Hnd]%NoDup_cons. constructor; [by apply IH|].
  rewrite Forall_forall in Hf. apply Forall_forall. intros k Hk. assert (Hk' := Hk).
  apply list_elem_of_In, in_map_iff in Hk' as (b & <- & Hb%list_elem_of_In). specialize (Hf b Hb).
  unfold key_le in Hf. destruct (decide (a.1 = b.1)) as [E|]; [|lia]. destruct Ha. by rewrite E.
Qed.

#[export] Instance laws : SkipMapLaws api.
Proof.
  split; intros V.
  - intros m. apply strict_keys; [apply StronglySorted_merge_sort; apply _|].
    change (NoDup (fst <$> sk_iter m)). simpl. rewrite merge_sort_Permutation. apply NoDup_fst_map_to_list.
  - simpl. by rewrite map_to_list_empty.
  - intros m k v [k' v']. rewrite !elem_of_iter. simpl. rewrite lookup_insert_Some. naive_solver.
  - intros m k [k' v']. rewrite !elem_of_iter. simpl. rewrite lookup_delete_Some. naive_solver.
  - intros m k v. rewrite elem_of_iter. done.
Qed.
End GmapSkipMap.

