(* ===== verification/DualLog.v ===== *)
(** * DualLog: crates/dual-log/src/dual_log.rs

    Every command is appended to two write-ahead logs (Wal.v) and, when both
    appends succeed, pushed into the pending ring (LogEntry.v) that the sorter
    scans.  The heap holds the entries that [write] has handed out; the entry
    of a failed write is dropped and is not kept in it.  What the two [msync]s
    answer and the clock shows are arguments of a call. *)

From S2P Require Import Prelude CoreTypes Bytes Snapshot Engine Wal LogEntry.
From stdpp Require Import sorting.
#[local] Open Scope Z_scope.

Inductive DualLogError :=
| LogAFailed (e : WalError)
| LogBFailed (e : WalError)
| BothFailed (a b : WalError).

Record DualLogConfig := mkDualLogConfig { log_a_config : WalWriterConfig; log_b_config : WalWriterConfig }.
Definition DualLogConfig_default : DualLogConfig := mkDualLogConfig WalWriterConfig_default WalWriterConfig_default.

Section DualLog.
Context `{C : WalCodec} {SK : SkipMapApi} (hash_command : InboundCommand -> Z).

Record DualLog := mkDualLog {
  log_a : FileWalWriter;
  log_b : FileWalWriter;
  last_assigned_seq : Z
}.

(** [file_a] and [file_b] are the contents of the two files. *)
Definition dual_open (file_a file_b : list Z) (cfg : DualLogConfig) : Exec (Result DualLog DualLogError) :=
  let! ra := open file_a (log_a_config cfg) in
  match ra with
  | Err e => Val (Err (LogAFailed e))
  | Ok a =>
      let! rb := open file_b (log_b_config cfg) in
      match rb with
      | Err e => Val (Err (LogBFailed e))
      | Ok b => Val (Ok (mkDualLog a b (Z.max (last_seq a) (last_seq b))))
      end
  end.

(** The log, and what it shares with the sorter and the engines. *)
Record DualState := mkDualState { ds_log : DualLog; ds_heap : Heap; ds_ring : PendingRing }.

Record WriteCall := mkWriteCall {
  wc_sync_a : bool;
  wc_sync_b : bool;
  wc_ts_ns : Z;
  wc_term : Z;
  wc_seq : Z;
  wc_cmd : InboundCommand
}.

Definition call_sc (c : WriteCall) : SequencedCommand := mkSC (wc_term c) (wc_seq c) (wc_ts_ns c) (wc_cmd c).

Definition dual_write (c : WriteCall) (s : DualState) : Result Arc DualLogError * DualState :=
  let dl := ds_log s in
  let entry := LogEntry_new hash_command (wc_seq c) (wc_term c) (wc_ts_ns c) (wc_cmd c) in
  let '(res_a, a) := append (wc_sync_a c) (call_sc c) (log_a dl) in
  let '(res_b, b) := append (wc_sync_b c) (call_sc c) (log_b dl) in
  let dl := mkDualLog a b (wc_seq c) in
  match res_a, res_b with
  | Ok _, Ok _ =>
      let '(p, h) := arc_new entry (ds_heap s) in
      (Ok p, mkDualState dl h (ring_push h p (ds_ring s)))
  | Err ea, Err eb => (Err (BothFailed ea eb), mkDualState dl (ds_heap s) (ds_ring s))
  | Err ea, Ok _ => (Err (LogAFailed ea), mkDualState dl (ds_heap s) (ds_ring s))
  | Ok _, Err eb => (Err (LogBFailed eb), mkDualState dl (ds_heap s) (ds_ring s))
  end.

Definition dual_flush (flushed_a flushed_b : bool) (dl : DualLog) : Result unit DualLogError * DualLog :=
  let '(res_a, a) := flush flushed_a (log_a dl) in
  let dl := mkDualLog a (log_b dl) (last_assigned_seq dl) in
  match res_a with
  | Err e => (Err (LogAFailed e), dl)
  | Ok _ =>
      let '(res_b, b) := flush flushed_b (log_b dl) in
      let dl := mkDualLog (log_a dl) b (last_assigned_seq dl) in
      match res_b with
      | Err e => (Err (LogBFailed e), dl)
      | Ok _ => (Ok tt, dl)
      end
  end.

Definition current_seq (dl : DualLog) : Z := last_assigned_seq dl.
Definition cursors (dl : DualLog) : nat * nat := (cursor (log_a dl), cursor (log_b dl)).
Definition last_seqs (dl : DualLog) : Z * Z := (last_seq (log_a dl), last_seq (log_b dl)).

(** A run of calls: the state, the writes that returned [Ok], and how many of
    them came before the last [flush] that returned [Ok]. *)
Inductive DualCall :=
| Dual_write (c : WriteCall)
| Dual_flush (flushed_a flushed_b : bool).

Record DualRun := mkDualRun { dr_state : DualState; dr_acked : list WriteCall; dr_flushed : nat }.

Definition dual_call (r : DualRun) (call : DualCall) : DualRun :=
  let s := dr_state r in
  match call with
  | Dual_write c =>
      match dual_write c s with
      | (Ok _, s') => mkDualRun s' (dr_acked r ++ [c]) (dr_flushed r)
      | (Err _, s') => mkDualRun s' (dr_acked r) (dr_flushed r)
      end
  | Dual_flush fa fb =>
      let '(res, dl) := dual_flush fa fb (ds_log s) in
      mkDualRun (mkDualState dl (ds_heap s) (ds_ring s)) (dr_acked r)
        (if is_ok res then length (dr_acked r) else dr_flushed r)
  end.

(** The writes among the calls. *)
Definition writes (calls : list DualCall) : list WriteCall :=
  omap (fun call => match call with Dual_write c => Some c | Dual_flush _ _ => None end) calls.

Definition new_dual (cfg : DualLogConfig) : DualState :=
  mkDualState (mkDualLog (new_wal (log_a_config cfg)) (new_wal (log_b_config cfg)) 0) [] PendingRing_new.
Definition run_dual (cfg : DualLogConfig) (calls : list DualCall) : DualRun :=
  foldl dual_call (mkDualRun (new_dual cfg) [] 0) calls.

(** ** Facts *)

Context {CL : WalCodecLaws C} {SKL : SkipMapLaws SK}.

(** One of the logs: its commands [cs] contain the acknowledged ones in order,
    and those promised to be durable contain the first [flushed] of them. *)
Definition log_side (cfg : WalWriterConfig) (w : FileWalWriter) (cs : list SequencedCommand)
    (acked : list WriteCall) (flushed : nat) : Prop :=
  exists n, run_inv cfg (w, cs, n) /\ sublist (map call_sc acked) cs
    /\ sublist (map call_sc (take flushed acked)) (take n cs).

(** Both logs hold command lists, the entries and the ring list the
    acknowledged calls in order. *)
Record dual_inv (cfg : DualLogConfig) (s : DualState) (csa csb : list SequencedCommand)
    (acked : list WriteCall) (flushed : nat) : Prop := {
  di_a : log_side (log_a_config cfg) (log_a (ds_log s)) csa acked flushed;
  di_b : log_side (log_b_config cfg) (log_b (ds_log s)) csb acked flushed;
  di_flushed : (flushed <= length acked)%nat;
  di_heap : ds_heap s =
    map (fun c => LogEntry_new hash_command (wc_seq c) (wc_term c) (wc_ts_ns c) (wc_cmd c)) acked;
  di_ring : sk_iter (pr_map (ds_ring s)) = imap (fun p c => (wc_seq c, p)) acked
}.

(** An [append] to one log; the write it belongs to may be acknowledged. *)
Lemma side_append cfg synced c w cs acked flushed res w' :
  sc_ok (call_sc c) -> (flushed <= length acked)%nat -> log_side cfg w cs acked flushed ->
  append synced (call_sc c) w = (res, w') ->
  match res with
  | Ok _ => log_side cfg w' (cs ++ [call_sc c]) acked flushed
            /\ log_side cfg w' (cs ++ [call_sc c]) (acked ++ [c]) flushed
  | Err _ => log_side cfg w' cs acked flushed
  end.
Proof.
  intros Hsc Hle (n & Hrun & Hsub & Hfl) Ha.
  pose proof (append_run_inv cfg synced (call_sc c) w cs n Hsc Hrun) as Hrun'. unfold log_call in Hrun'.
  rewrite Ha in Hrun'. destruct res as [off|e]; [|by exists n]. set (n' := if sync_on_write (config w) then S (length cs) else n) in Hrun'.
  assert (Hn : (n <= length cs)%nat) by (destruct Hrun as (_ & _ & ? & _); done).
  assert (Htake : sublist (take n cs) (take n' (cs ++ [call_sc c]))).
  { unfold n'. destruct (sync_on_write _).
    - rewrite (take_ge (cs ++ [call_sc c])) by (rewrite length_app; simpl; lia). apply sublist_inserts_r, sublist_take.
    - by rewrite take_app_le. }
  split; exists n'; (split; [exact Hrun'|]); rewrite ?map_app, ?(take_app_le acked) by done.
  - split; [by apply sublist_inserts_r|by etransitivity].
  - split; [by apply sublist_app|by etransitivity].
Qed.

Lemma side_flush cfg synced w cs acked flushed res w' :
  log_side cfg w cs acked flushed -> flush synced w = (res, w') ->
  log_side cfg w' cs acked flushed
  /\ (is_ok res = true -> log_side cfg w' cs acked (length acked)).
Proof.
  intros (n & Hrun & Hsub & Hfl) Hf. pose proof (flush_run_inv cfg synced w cs n Hrun) as Hrun'.
  unfold log_call in Hrun'. rewrite Hf in Hrun'. destruct res as [off|e]; [|split; [by exists n|done]].
  split; [|intros _]; exists (length cs); (split; [done|]); rewrite (take_ge cs), ?(take_ge acked) by done; split; try done.
  etransitivity; [exact Hfl|apply sublist_take].
Qed.

Lemma sk_insert_last {V} (m : sk_t V) k v :
  Forall (fun x => x.1 < k) (sk_iter m) -> sk_iter (sk_insert k v m) = sk_iter m ++ [(k, v)].
Proof.
  intros Hlt. set (R := fun x y : Z * V => x.1 < y.1).
  assert (Hsort : forall m' : sk_t V, StronglySorted R (sk_iter m')).
  { intros m'. pose proof (sk_sorted m') as Hs. induction (sk_iter m') as [|x l IH]; [constructor|].
    apply StronglySorted_inv in Hs as [Hs Hf]. constructor; [by apply IH|].
    rewrite Forall_forall in Hf. apply Forall_forall. intros y Hy. apply Hf.
    by apply list_elem_of_In, in_map, list_elem_of_In. }
  assert (Ha : AntiSymm (=) R) by (intros x y ??; unfold R in *; lia).
  apply (StronglySorted_unique R); [apply Hsort| |].
  - specialize (Hsort m). induction Hsort as [|x l Hs IH Hf]; [repeat constructor|]. inversion_clear Hlt as [|? ? Hx Hl].
    simpl. constructor; [by apply IH|]. apply Forall_app. split; [done|]. by constructor.
  - rewrite sk_insert_new, Permutation_app_comm; [done|]. rewrite Forall_forall in Hlt. intros v' Hin%Hlt. simpl in Hin. lia.
Qed.

Lemma dual_write_inv cfg c s csa csb acked flushed res s' :
  sc_ok (call_sc c) -> Forall (fun a => wc_seq a < wc_seq c) acked ->
  dual_inv cfg s csa csb acked flushed -> dual_write c s = (res, s') ->
  exists csa' csb' acked', dual_inv cfg s' csa' csb' acked' flushed
    /\ last_assigned_seq (ds_log s') = wc_seq c
    /\ match res with
       | Ok p => csa' = csa ++ [call_sc c] /\ csb' = csb ++ [call_sc c] /\ acked' = acked ++ [c]
           /\ p = length (ds_heap s)
       | Err (LogAFailed _) => csa' = csa /\ csb' = csb ++ [call_sc c] /\ acked' = acked
       | Err (LogBFailed _) => csa' = csa ++ [call_sc c] /\ csb' = csb /\ acked' = acked
       | Err (BothFailed _ _) => csa' = csa /\ csb' = csb /\ acked' = acked
       end.
Proof.
  intros Hsc Hlt [Ha Hb Hle Hh Hr] Hw. unfold dual_write in Hw.
  destruct (append (wc_sync_a c) _ _) as [res_a a] eqn:Ea. destruct (append (wc_sync_b c) _ _) as [res_b b] eqn:Eb.
  pose proof (side_append _ _ _ _ _ _ _ _ _ Hsc Hle Ha Ea) as Hra.
  pose proof (side_append _ _ _ _ _ _ _ _ _ Hsc Hle Hb Eb) as Hrb.
  destruct res_a as [oa|ea], res_b as [ob|eb]; cbn beta iota zeta in Hw; injection Hw as <- <-; cbn [ds_log last_assigned_seq].
  - exists (csa ++ [call_sc c]), (csb ++ [call_sc c]), (acked ++ [c]).
    split; [|by split_and!]. split; cbn [ds_log ds_heap ds_ring log_a log_b]; [apply Hra|apply Hrb|..].
    + rewrite length_app. lia.
    + by rewrite map_app, Hh.
    + unfold ring_push. cbn [pr_map]. rewrite sk_insert_last, Hr, imap_app.
      * f_equal. unfold seq_of. rewrite lookup_app_r, Nat.sub_diag by done. cbn. by rewrite Hh, length_map, Nat.add_0_r.
      * rewrite Hr. unfold seq_of. rewrite lookup_app_r, Nat.sub_diag by done. cbn [from_option lookup list_lookup en_seq LogEntry_new].
        rewrite Forall_forall in Hlt. apply Forall_forall. intros x (i & c' & -> & Hc')%elem_of_lookup_imap_1.
        apply Hlt. by eapply list_elem_of_lookup_2.
  - exists (csa ++ [call_sc c]), csb, acked. split; [|by split_and!]. by destruct Hra; split.
  - exists csa, (csb ++ [call_sc c]), acked. split; [|by split_and!]. by destruct Hrb; split.
  - exists csa, csb, acked. split; [|by split_and!]. by split.
Qed.

Lemma dual_flush_inv cfg fa fb s csa csb acked flushed res dl :
  dual_inv cfg s csa csb acked flushed -> dual_flush fa fb (ds_log s) = (res, dl) ->
  dual_inv cfg (mkDualState dl (ds_heap s) (ds_ring s)) csa csb acked
    (if is_ok res then length acked else flushed).
Proof.
  intros [Ha Hb Hle Hh Hr] Hf. unfold dual_flush in Hf.
  destruct (flush fa (log_a (ds_log s))) as [res_a a] eqn:Ea.
  destruct (side_flush _ _ _ _ _ _ _ _ Ha Ea) as [Ha1 Ha2].
  destruct res_a as [ua|ea]; [|injection Hf as <- <-; by split].
  cbn [log_b log_a last_assigned_seq] in Hf.
  destruct (flush fb (log_b (ds_log s))) as [res_b b] eqn:Eb.
  destruct (side_flush _ _ _ _ _ _ _ _ Hb Eb) as [Hb1 Hb2].
  destruct res_b as [ub|eb]; injection Hf as <- <-; [|by split].
  split; cbn [ds_log log_a log_b ds_heap ds_ring is_ok]; [by apply Ha2|by apply Hb2|done..].
Qed.

Lemma run_dual_inv cfg calls r csa csb :
  Forall (fun c => sc_ok (call_sc c)) (writes calls) -> StronglySorted Z.lt (map wc_seq (writes calls)) ->
  Forall (fun a => Forall (fun c => wc_seq a < wc_seq c) (writes calls)) (dr_acked r) ->
  dual_inv cfg (dr_state r) csa csb (dr_acked r) (dr_flushed r) ->
  let r' := foldl dual_call r calls in
  exists csa' csb', dual_inv cfg (dr_state r') csa' csb' (dr_acked r') (dr_flushed r').
Proof.
  revert r csa csb. induction calls as [|call calls IH]; intros [s acked flushed] csa csb Hok Hs Hlt Hi; [by exists csa, csb|].
  cbn [foldl]. remember (dual_call _ call) as r1 eqn:Hr1. unfold dual_call in Hr1.
  destruct call as [c|fa fb]; cbn [writes omap list_omap] in Hok, Hs, Hlt.
  - change (omap _ calls) with (writes calls) in Hok, Hs, Hlt. cbn [map] in Hs.
    apply StronglySorted_inv in Hs as [Hs Hf]. rewrite Forall_map in Hf. inversion_clear Hok as [|? ? Hc Hok'].
    cbn [dr_state dr_acked dr_flushed] in *.
    assert (Hlt0 : Forall (fun a => Forall (fun c => wc_seq a < wc_seq c) (writes calls)) acked).
    { eapply Forall_impl; [exact Hlt|]. intros a Ha. by inversion_clear Ha. }
    destruct (dual_write c s) as [res s1] eqn:H1.
    eapply dual_write_inv in H1 as (csa1 & csb1 & acked1 & Hi1 & _ & Hres); [|done| |exact Hi].
    2:{ eapply Forall_impl; [exact Hlt|]. intros a Ha. by inversion_clear Ha. }
    destruct res as [p|e]; subst r1.
    + destruct Hres as (_ & _ & -> & _). eapply IH; try done. cbn [dr_acked].
      apply Forall_app. split; [done|]. by constructor.
    + assert (acked1 = acked) as -> by by destruct e; destruct Hres as (_ & _ & ?). by eapply IH.
  - change (omap _ calls) with (writes calls) in Hok, Hs, Hlt.
    cbn [dr_state dr_acked dr_flushed] in *.
    destruct (dual_flush fa fb (ds_log s)) as [res dl] eqn:Hf. eapply dual_flush_inv in Hf; [|exact Hi]. subst r1. by eapply IH.
Qed.

Lemma new_dual_inv cfg :
  (FILE_HEADER_SIZE <= file_capacity (log_a_config cfg))%nat ->
  (FILE_HEADER_SIZE <= file_capacity (log_b_config cfg))%nat -> dual_inv cfg (new_dual cfg) [] [] [] 0.
Proof.
  intros Ha Hb. split; [exists 0%nat; by split; [apply new_run_inv|]..|done|done|]. apply sk_iter_new.
Qed.

Lemma filter_sublist {A} (f : A -> bool) (l k : list A) :
  sublist l k -> sublist (List.filter f l) (List.filter f k).
Proof.
  induction 1; simpl; [done|..]; destruct (f x); try done; [by apply sublist_skip|by apply sublist_cons].
Qed.

(** ** Theorems *)

(** The writes a log has promised to keep: all the acknowledged ones when it
    syncs every write, else those before the last successful [flush]. *)
Definition promised (cfg : WalWriterConfig) (r : DualRun) : list WriteCall :=
  if sync_on_write cfg then dr_acked r else take (dr_flushed r) (dr_acked r).

Lemma side_survives cfg w cs r file after :
  log_side cfg w cs (dr_acked r) (dr_flushed r) -> crash_leaves w file ->
  exists sr, scan_wal file after = Val sr
    /\ sublist (List.filter (fun sc => after <? sc_seq sc) (map call_sc (promised cfg r))) (commands sr).
Proof.
  intros (n & (_ & Hsy & _ & rs & Hi & Hd) & Hsub & Hfl) Hc.
  destruct (durable_survive w cs rs n file after Hi Hd Hc) as (sr & Hsr & Hp). exists sr. split; [done|].
  assert (Hps : sublist (map call_sc (promised cfg r)) (take n cs)).
  { unfold promised. destruct (sync_on_write cfg); [|done]. by rewrite Hsy, take_ge. }
  etransitivity; [by apply filter_sublist|]. destruct Hp as [tl ->]. by apply sublist_inserts_r.
Qed.

(** C28. Acknowledged means in both logs and in the ring. Take any writes with
    rising sequence numbers and any flushes on new logs, with any [msync] of
    either log failing. Then, for each of the two logs on its own, a crash
    that leaves on its disk what successful [msync]s have put there and
    anything in every other byte still lets recovery return, in order, every
    acknowledged command the log has promised to keep: all of them if the log
    is configured with [sync_on_write], else those acknowledged before the last
    [flush] that returned [Ok]. And the ring lists exactly the acknowledged
    entries in order of sequence number, each [Pending]. *)
Theorem dual_log_acknowledged cfg calls after :
  (FILE_HEADER_SIZE <= file_capacity (log_a_config cfg))%nat ->
  (FILE_HEADER_SIZE <= file_capacity (log_b_config cfg))%nat ->
  Forall (fun c => sc_ok (call_sc c)) (writes calls) -> StronglySorted Z.lt (map wc_seq (writes calls)) ->
  let r := run_dual cfg calls in
  let s := dr_state r in
  let recovers wcfg w := forall file, crash_leaves w file ->
    exists sr, scan_wal file after = Val sr
      /\ sublist (List.filter (fun sc => after <? sc_seq sc) (map call_sc (promised wcfg r))) (commands sr) in
  recovers (log_a_config cfg) (log_a (ds_log s)) /\ recovers (log_b_config cfg) (log_b (ds_log s))
  /\ map (fun p => (seq_of (ds_heap s) p, status_of (ds_heap s) p)) (ring_snapshot (ds_ring s))
     = map (fun c => (wc_seq c, Pending)) (dr_acked r).
Proof.
  intros Hca Hcb Hok Hs r s recovers.
  destruct (run_dual_inv cfg calls (mkDualRun (new_dual cfg) [] 0) [] [] Hok Hs (Forall_nil_2 _)
    (new_dual_inv cfg Hca Hcb)) as (csa & csb & [Ha Hb _ Hh Hr]).
  change (foldl dual_call _ calls) with r in Ha, Hb, Hh, Hr. fold s in Ha, Hb, Hh, Hr.
  split_and!; [intros file; by eapply side_survives..|].
  unfold ring_snapshot. rewrite Hr, Hh. generalize (dr_acked r). clear. intros acked.
  apply list_eq. intros i. change map with (fun A B => @fmap list _ A B). cbn beta.
  rewrite !list_lookup_fmap, list_lookup_imap. destruct (acked !! i) as [c|] eqn:E; [|done]. cbn.
  unfold seq_of, status_of. by rewrite list_lookup_fmap, E.
Qed.

(** The outcome of one write on every branch: it is [Ok] exactly when both
    logs took the record, and only then does the ring or the heap change; a
    failure names the log that failed, and the record that the other log took
    stays in it, so the logs then differ by that command.  The last assigned
    sequence number advances in every case. *)
Theorem dual_write_outcome cfg c s csa csb acked flushed :
  sc_ok (call_sc c) -> Forall (fun a => wc_seq a < wc_seq c) acked -> dual_inv cfg s csa csb acked flushed ->
  let '(res, s') := dual_write c s in
  last_assigned_seq (ds_log s') = wc_seq c
  /\ match res with
     | Ok p => dual_inv cfg s' (csa ++ [call_sc c]) (csb ++ [call_sc c]) (acked ++ [c]) flushed /\ p = length (ds_heap s)
     | Err (LogAFailed _) => dual_inv cfg s' csa (csb ++ [call_sc c]) acked flushed
     | Err (LogBFailed _) => dual_inv cfg s' (csa ++ [call_sc c]) csb acked flushed
     | Err (BothFailed _ _) => dual_inv cfg s' csa csb acked flushed
     end.
Proof.
  intros Hc Hlt Hi. destruct (dual_write c s) as [res s'] eqn:Hw.
  eapply dual_write_inv in Hw as (csa' & csb' & acked' & Hi' & Hl & Hres); [|done..]. split; [done|].
  destruct res as [p|[]]; naive_solver.
Qed.
End DualLog.

(** ** Witnesses: log B is too small for the third command, and not synced *)

Module DualDemo.
Import GmapSkipMap.
#[local] Existing Instance WalDemo.codec.

Definition hash (_ : InboundCommand) : Z := 81985529216486895.
Definition cfg : DualLogConfig := mkDualLogConfig (mkWalConfig 200 true) (mkWalConfig 112 false).
Definition call (seq account : Z) : WriteCall := mkWriteCall true true (1000 * seq) 1 seq (Inbound_FreezeAccount account).
Definition calls : list DualCall :=
  [Dual_write (call 1 5); Dual_flush true true; Dual_write (call 2 6); Dual_write (call 3 7)].
Definition final : DualState := dr_state (run_dual hash cfg calls).

Lemma calls_run : run_dual hash cfg calls = mkDualRun final [call 1 5; call 2 6] 1.
Proof. vm_compute. reflexivity. Qed.
Lemma dual_calls_ok : Forall (fun c => sc_ok (call_sc c)) (writes calls).
Proof. repeat constructor; vm_compute; congruence. Qed.
Lemma calls_rise : StronglySorted Z.lt (map wc_seq (writes calls)).
Proof. repeat constructor. Qed.
Lemma room : (FILE_HEADER_SIZE <= file_capacity (log_a_config cfg))%nat
  /\ (FILE_HEADER_SIZE <= file_capacity (log_b_config cfg))%nat.
Proof. vm_compute. lia. Qed.

(** Log A holds the command that was not acknowledged. *)
Example logs_differ : last_seqs (ds_log final) = (3, 2).
Proof. vm_compute. reflexivity. Qed.

#[local] Opaque final.

(** Log A keeps both acknowledged commands, log B the one that was flushed. *)
Lemma dual_log_acknowledged_witness :
  (exists sr, scan_wal (WalDemo.crashed (log_a (ds_log final))) 0 = Val sr
     /\ sublist [call_sc (call 1 5); call_sc (call 2 6)] (commands sr))
  /\ (exists sr, scan_wal (WalDemo.crashed (log_b (ds_log final))) 0 = Val sr
        /\ sublist [call_sc (call 1 5)] (commands sr))
  /\ map (fun p => (seq_of (ds_heap final) p, status_of (ds_heap final) p)) (ring_snapshot (ds_ring final))
     = [(1, Pending); (2, Pending)].
Proof.
  pose proof (@dual_log_acknowledged _ _ hash WalDemo.codec_laws _ cfg calls 0 (proj1 room) (proj2 room)
    dual_calls_ok calls_rise) as H. cbv zeta in H. rewrite calls_run in H. destruct H as (Ha & Hb & H).
  exact (conj (Ha _ (WalDemo.crashed_leaves _)) (conj (Hb _ (WalDemo.crashed_leaves _)) H)).
Defined.

Lemma dual_write_outcome_witness :
  last_assigned_seq (ds_log (snd (dual_write hash (call 1 5) (new_dual cfg)))) = 1.
Proof.
  pose proof (@new_dual_inv _ _ hash _ cfg (proj1 room) (proj2 room)) as Hi.
  assert (Hc : sc_ok (call_sc (call 1 5))) by (exact (Forall_inv dual_calls_ok)).
  pose proof (@dual_write_outcome _ _ hash WalDemo.codec_laws _ cfg (call 1 5) (new_dual cfg) [] [] [] 0 Hc (Forall_nil_2 _) Hi) as H.
  destruct (dual_write hash (call 1 5) (new_dual cfg)) as [res s']. exact (proj1 H).
Defined.
End DualDemo.
