(* ===== verification/Sorter.v ===== *)
(** * Sorter: crates/sorter (load_monitor.rs, leader.rs, sorter.rs)

    The sorter scans the pending ring, escalates the orders that the primary
    engine has not claimed within a timeout to the second engine, and drops the
    handled ones.  [scan_once] is modelled as one run over a snapshot of the
    ring; Escalation.v takes the same actions apart into single accesses and
    interleaves them with the engines.  The channel to the second engine is
    unbounded (crossbeam): a list of entries and the number of its receivers,
    since sending fails once there are none. *)

From S2P Require Import Prelude CoreTypes LogEntry.
#[local] Open Scope Z_scope.

(** ** load_monitor.rs *)

Record LoadMonitor := mkLoad { orders_processed : Z; idle_spins : Z; capacity_hint : Z }.

Definition LoadMonitor_new (capacity_hint : Z) : LoadMonitor := mkLoad 0 0 (Z.max capacity_hint 1).
Definition LoadMonitor_default : LoadMonitor := LoadMonitor_new 1000000.

Definition report_order (l : LoadMonitor) : LoadMonitor :=
  mkLoad (wrap_u64 (orders_processed l + 1)) (idle_spins l) (capacity_hint l).
Definition report_idle (l : LoadMonitor) : LoadMonitor :=
  mkLoad (orders_processed l) (wrap_u64 (idle_spins l + 1)) (capacity_hint l).

Definition primary_load_pct (l : LoadMonitor) : Z :=
  let orders := orders_processed l in
  let idles := idle_spins l in
  let total := wrap_u64 (orders + idles) in
  if total =? 0 then 0
  else
    let pct := wrap_u64 (orders * 100) / total in
    Z.min pct 100.

Definition reset_window (l : LoadMonitor) : LoadMonitor := mkLoad 0 0 (capacity_hint l).

(** ** leader.rs *)

Module Leader.
(** One instance; the token is shared between the instances. *)
Record SorterLeader := mkLeader { is_leader : bool }.

Definition new : SorterLeader := mkLeader false.

(** The token of a [pair] and the two instances. *)
Definition pair : bool * list SorterLeader := (false, [new; new]).

Definition try_become_leader (token : bool) (l : SorterLeader) : bool * bool * SorterLeader :=
  if is_leader l then (true, token, l)
  else if token then (false, token, l)
  else (true, true, mkLeader true).

Definition resign (token : bool) (l : SorterLeader) : bool * SorterLeader :=
  if is_leader l then (false, mkLeader false) else (token, l).

(** Any number of instances over one token; each call is one atomic access. *)
Inductive leader_step : bool * list SorterLeader -> bool * list SorterLeader -> Prop :=
| step_try token ls i l won token' l' :
    ls !! i = Some l -> try_become_leader token l = (won, token', l') ->
    leader_step (token, ls) (token', <[i := l']> ls)
| step_resign token ls i l token' l' :
    ls !! i = Some l -> resign token l = (token', l') -> leader_step (token, ls) (token', <[i := l']> ls)
| step_new token ls : leader_step (token, ls) (token, ls ++ [new])
| step_drop token ls i l token' l' :
    ls !! i = Some l -> resign token l = (token', l') -> leader_step (token, ls) (token', delete i ls).

Definition leaders (ls : list SorterLeader) : nat := length (List.filter is_leader ls).

Lemma leaders_app l1 l2 : leaders (l1 ++ l2) = (leaders l1 + leaders l2)%nat.
Proof. unfold leaders. by rewrite List.filter_app, length_app. Qed.

Lemma leaders_split ls i l :
  ls !! i = Some l -> exists n, leaders ls = (n + Nat.b2n (is_leader l))%nat
    /\ (forall l', leaders (<[i := l']> ls) = (n + Nat.b2n (is_leader l'))%nat) /\ leaders (delete i ls) = n.
Proof.
  intros Hi. exists (leaders (take i ls) + leaders (drop (S i) ls))%nat.
  assert (Hone : forall x, leaders [x] = Nat.b2n (is_leader x)) by (intros x; unfold leaders; simpl; by destruct (is_leader x)).
  split_and!.
  - rewrite <- (take_drop_middle ls i l Hi) at 1. change (l :: drop (S i) ls) with ([l] ++ drop (S i) ls).
    rewrite !leaders_app, Hone. lia.
  - intros l'. rewrite insert_take_drop by by eapply lookup_lt_Some.
    change (l' :: drop (S i) ls) with ([l'] ++ drop (S i) ls). rewrite !leaders_app, Hone. lia.
  - by rewrite delete_take_drop, leaders_app.
Qed.

(** The token is held exactly by the one leader. *)
Definition leader_inv (st : bool * list SorterLeader) : Prop := leaders st.2 = Nat.b2n st.1.

Lemma leader_inv_step st st' : leader_step st st' -> leader_inv st -> leader_inv st'.
Proof.
  unfold leader_inv. intros Hs Hi.
  destruct Hs as [token ls i l won token' l' Hl Hc|token ls i l token' l' Hl Hc|token ls|token ls i l token' l' Hl Hc];
    simpl in *; try destruct (leaders_split ls i l Hl) as (n & Hn & Hu & Hd).
  - rewrite Hu. unfold try_become_leader in Hc. destruct (is_leader l) eqn:El; simplify_eq; [rewrite El; simpl in *; lia|].
    destruct token; simplify_eq; simpl in *; rewrite ?El; simpl; lia.
  - rewrite Hu. unfold resign in Hc. destruct (is_leader l) eqn:El; simplify_eq; simpl in *; rewrite ?El; simpl; try lia.
    destruct token; simpl in *; lia.
  - rewrite leaders_app. unfold leaders at 2. simpl. lia.
  - rewrite Hd. unfold resign in Hc. destruct (is_leader l) eqn:El; simplify_eq; simpl in *; try lia.
    destruct token; simpl in *; lia.
Qed.

(** At most one sorter leads: whatever instances are created, try, resign
    or are dropped, at most one has [is_leader], and the token is free exactly
    when none has; a try on a free token wins, and a try while another leads
    loses and changes nothing. *)
Theorem sorter_leader_unique st i l :
  rtc leader_step pair st -> st.2 !! i = Some l -> is_leader l = false ->
  (leaders st.2 <= 1)%nat /\ (st.1 = false <-> leaders st.2 = 0%nat)
  /\ try_become_leader st.1 l = (if st.1 then (false, true, l) else (true, true, mkLeader true)).
Proof.
  intros Hr Hi Hl.
  assert (Hinv : leader_inv st) by (revert Hr; apply (rtc_ind_r leader_inv); [done|by intros; eapply leader_inv_step]).
  unfold leader_inv in Hinv. rewrite Hinv. unfold try_become_leader. rewrite Hl.
  destruct st as [[] ls]; simpl; split_and!; try done; lia.
Qed.

Lemma sorter_leader_unique_witness :
  (leaders [mkLeader true; new] <= 1)%nat.
Proof.
  refine (proj1 (sorter_leader_unique (true, [mkLeader true; new]) 1 new _ _ _)); [|reflexivity|reflexivity].
  apply rtc_once. apply (step_try false [new; new] 0 new true); reflexivity.
Defined.
End Leader.

(** ** sorter.rs *)

Definition CRITICAL_TIMEOUT_NS : Z := 10000000.

Record SorterMetrics := mkSorterMetrics {
  escalated : Z;
  primary_handled : Z;
  secondary_handled : Z;
  gc_removed : Z;
  scan_cycles : Z;
  critical_alerts : Z
}.

Definition SorterMetrics_default : SorterMetrics := mkSorterMetrics 0 0 0 0 0 0.

Definition count_escalated (m : SorterMetrics) : SorterMetrics :=
  mkSorterMetrics (wrap_u64 (escalated m + 1)) (primary_handled m) (secondary_handled m) (gc_removed m) (scan_cycles m) (critical_alerts m).
Definition count_primary (m : SorterMetrics) : SorterMetrics :=
  mkSorterMetrics (escalated m) (wrap_u64 (primary_handled m + 1)) (secondary_handled m) (wrap_u64 (gc_removed m + 1)) (scan_cycles m) (critical_alerts m).
Definition count_secondary (m : SorterMetrics) : SorterMetrics :=
  mkSorterMetrics (escalated m) (primary_handled m) (wrap_u64 (secondary_handled m + 1)) (wrap_u64 (gc_removed m + 1)) (scan_cycles m) (critical_alerts m).
Definition count_scan (m : SorterMetrics) : SorterMetrics :=
  mkSorterMetrics (escalated m) (primary_handled m) (secondary_handled m) (gc_removed m) (wrap_u64 (scan_cycles m + 1)) (critical_alerts m).
Definition count_alert (m : SorterMetrics) : SorterMetrics :=
  mkSorterMetrics (escalated m) (primary_handled m) (secondary_handled m) (gc_removed m) (scan_cycles m) (wrap_u64 (critical_alerts m + 1)).

(** The match of [adaptive_timeout] on the load. *)
Definition timeout_for_load (load : Z) : Z :=
  if load <=? 50 then 200000
  else if load <=? 80 then 500000
  else if load <=? 95 then 1000000
  else 2000000.

Definition adaptive_timeout (mon : LoadMonitor) : Z := timeout_for_load (primary_load_pct mon).

Section Sorter.
Context {SK : SkipMapApi}.

(** What the sorter shares with the engines: the entries, the ring and the
    channel to the second engine. *)
Record Shared := mkShared {
  sh_heap : Heap;
  sh_ring : PendingRing;
  sh_chan : list Arc;
  sh_receivers : nat
}.

Definition sh_set_heap (h : Heap) (sh : Shared) : Shared :=
  mkShared h (sh_ring sh) (sh_chan sh) (sh_receivers sh).
Definition sh_set_ring (r : PendingRing) (sh : Shared) : Shared :=
  mkShared (sh_heap sh) r (sh_chan sh) (sh_receivers sh).
Definition sh_set_chan (c : list Arc) (sh : Shared) : Shared :=
  mkShared (sh_heap sh) (sh_ring sh) c (sh_receivers sh).

(** [Sender::send]: the entry is lost when every receiver is gone; the result
    is not looked at. *)
Definition chan_send (p : Arc) (sh : Shared) : Shared :=
  if (sh_receivers sh =? 0)%nat then sh else sh_set_chan (sh_chan sh ++ [p]) sh.

(** The arms of the match in [scan_once], for an entry whose status was read
    as [status] and whose age is [age]. *)
Definition scan_act (timeout : Z) (status : OrderStatus) (age : Z) (p : Arc)
    (st : Shared * SorterMetrics) : Shared * SorterMetrics :=
  let '(sh, m) := st in
  match status with
  | Pending =>
      if timeout <? age then
        let '(won, h) := arc_claim Pending Unaddressed p (sh_heap sh) in
        if won then (chan_send p (sh_set_heap h sh), count_escalated m) else (sh, m)
      else if CRITICAL_TIMEOUT_NS <? age then (sh, count_alert m)
      else (sh, m)
  | Addressed =>
      (sh_set_ring (ring_remove (seq_of (sh_heap sh) p) (sh_ring sh)).2 sh, count_primary m)
  | FinallyHandled =>
      (sh_set_ring (ring_remove (seq_of (sh_heap sh) p) (sh_ring sh)).2 sh, count_secondary m)
  | Unaddressed =>
      if CRITICAL_TIMEOUT_NS <? age then (sh, count_alert m) else (sh, m)
  end.

Definition scan_entry (now_ns timeout : Z) (st : Shared * SorterMetrics) (p : Arc) : Shared * SorterMetrics :=
  match sh_heap st.1 !! p with
  | Some e => scan_act timeout (load_status e) (age_ns now_ns e) p st
  | None => st
  end.

Definition scan_once (now_ns : Z) (mon : LoadMonitor) (st : Shared * SorterMetrics) : Shared * SorterMetrics :=
  let timeout := adaptive_timeout mon in
  let entries := ring_snapshot (sh_ring st.1) in
  foldl (scan_entry now_ns timeout) (st.1, count_scan st.2) entries.

(** [run]: [now_ns], [mon] and [env] say what the clock shows, what the load
    monitor holds and what the other threads do, iteration by iteration.
    [running] is a field of the sorter that [run] borrows for its whole
    duration, so no other thread can clear it. *)
Record Sorter := mkSorter { s_running : bool; s_metrics : SorterMetrics }.

Definition Sorter_new : Sorter := mkSorter true SorterMetrics_default.
Definition sorter_shutdown (s : Sorter) : Sorter := mkSorter false (s_metrics s).

Fixpoint sorter_run (fuel : nat) (now_ns : nat -> Z) (mon : nat -> LoadMonitor) (env : nat -> Shared -> Shared)
    (sh : Shared) (s : Sorter) : Exec (Shared * Sorter) :=
  if negb (s_running s) then Val (sh, s)
  else
    match fuel with
    | O => OutOfFuel
    | S fuel =>
        let '(sh, m) := scan_once (now_ns fuel) (mon fuel) (sh, s_metrics s) in
        sorter_run fuel now_ns mon env (env fuel sh) (mkSorter (s_running s) m)
    end.

(** ** What a scan does *)

Context {SKL : SkipMapLaws SK}.

(** The entry is pending and older than the timeout. *)
Definition escalates (now_ns timeout : Z) (h : Heap) (p : Arc) : bool :=
  match h !! p with
  | Some e => bool_decide (load_status e = Pending) && (timeout <? age_ns now_ns e)
  | None => false
  end.

(** The entry has been escalated and is older than the critical timeout. *)
Definition overdue (now_ns : Z) (h : Heap) (p : Arc) : bool :=
  match h !! p with
  | Some e => bool_decide (load_status e = Unaddressed) && (CRITICAL_TIMEOUT_NS <? age_ns now_ns e)
  | None => false
  end.

Definition has_status (s : OrderStatus) (h : Heap) (p : Arc) : bool := bool_decide (status_of h p = s).

Definition count {A} (f : A -> bool) (l : list A) : Z := Z.of_nat (length (List.filter f l)).

Lemma count_cons {A} (f : A -> bool) x l : count f (x :: l) = (if f x then 1 else 0) + count f l.
Proof. unfold count. simpl. destruct (f x); cbn [length]; lia. Qed.

Lemma count_ext {A} (f g : A -> bool) l : (forall x, x ∈ l -> f x = g x) -> count f l = count g l.
Proof.
  induction l as [|x l IH]; intros H; [done|]. rewrite !count_cons, H by left. rewrite IH; [done|].
  intros y ?. apply H. by right.
Qed.

(** The counters after a scan of [l]. *)
Definition counters_after (now_ns timeout : Z) (h : Heap) (l : list Arc) (m m' : SorterMetrics) : Prop :=
  let P := count (has_status Addressed h) l in
  let S := count (has_status FinallyHandled h) l in
  wrap_u64 (escalated m') = wrap_u64 (escalated m + count (escalates now_ns timeout h) l)
  /\ wrap_u64 (primary_handled m') = wrap_u64 (primary_handled m + P)
  /\ wrap_u64 (secondary_handled m') = wrap_u64 (secondary_handled m + S)
  /\ wrap_u64 (gc_removed m') = wrap_u64 (gc_removed m + P + S)
  /\ scan_cycles m' = scan_cycles m
  /\ wrap_u64 (critical_alerts m') = wrap_u64 (critical_alerts m + count (overdue now_ns h) l).

(** The shared state after a scan of [l]. *)
Definition shared_after (now_ns timeout : Z) (l : list Arc) (sh sh' : Shared) : Prop :=
  let h := sh_heap sh in
  (forall p, sh_heap sh' !! p =
     if bool_decide (p ∈ l) && escalates now_ns timeout h p
     then store_status (status_to_u8 Unaddressed) <$> h !! p else h !! p)
  /\ sh_chan sh' = sh_chan sh ++ List.filter (escalates now_ns timeout h) l
  /\ (forall k q, in_ring (sh_ring sh') k q <->
        in_ring (sh_ring sh) k q /\ forall p, p ∈ l -> is_terminal (status_of h p) = true -> seq_of h p <> k)
  /\ sh_receivers sh' = sh_receivers sh.

Lemma filter_ext_in {A} (f g : A -> bool) (l : list A) :
  (forall x, x ∈ l -> f x = g x) -> List.filter f l = List.filter g l.
Proof.
  induction l as [|x l IH]; intros H; [done|]. simpl. rewrite (H x) by left. rewrite IH; [done|].
  intros y ?. apply H. by right.
Qed.

Lemma heap_after_one now_ns timeout h p e (b : bool) (h' : Heap) :
  h !! p = Some e -> escalates now_ns timeout h p = b ->
  h' = (if b then <[p := store_status (status_to_u8 Unaddressed) e]> h else h) ->
  forall q, h' !! q = if bool_decide (q ∈ [p]) && escalates now_ns timeout h q
                      then store_status (status_to_u8 Unaddressed) <$> h !! q else h !! q.
Proof.
  intros He Hb -> q. rewrite (bool_decide_ext _ (q = p)) by apply list_elem_of_singleton.
  case_bool_decide as Hq; cbn [andb].
  - subst q. rewrite Hb, He. destruct b; [|done]. rewrite list_lookup_insert_eq by (by eapply lookup_lt_Some). done.
  - destruct b; [|done]. by rewrite list_lookup_insert_ne.
Qed.

Lemma ring_after_one h p r k q :
  in_ring (if is_terminal (status_of h p) then (ring_remove (seq_of h p) r).2 else r) k q <->
    in_ring r k q /\ forall p', p' ∈ [p] -> is_terminal (status_of h p') = true -> seq_of h p' <> k.
Proof.
  assert (Hs : (forall p', p' ∈ [p] -> is_terminal (status_of h p') = true -> seq_of h p' <> k)
    <-> (is_terminal (status_of h p) = true -> seq_of h p <> k)).
  { split; [intros H; apply H; by left|]. by intros H p' ->%list_elem_of_singleton. }
  rewrite Hs. destruct (is_terminal _); rewrite ?in_ring_remove; naive_solver.
Qed.

#[local] Ltac solve_counters :=
  cbn -[wrap_u64]; split_and!; rewrite ?wrap_u64_wrap; try reflexivity; f_equal; lia.

(** Evaluates the equality tests between two status constants. *)
#[local] Ltac decide_statuses :=
  repeat match goal with
  | |- context [bool_decide (?a = ?b :> OrderStatus)] =>
      let v := eval vm_compute in (bool_decide (a = b)) in change (bool_decide (a = b)) with v
  | H : context [bool_decide (?a = ?b :> OrderStatus)] |- _ =>
      let v := eval vm_compute in (bool_decide (a = b)) in change (bool_decide (a = b)) with v in H
  end.

Lemma scan_entry_one now_ns timeout sh m p :
  timeout <= CRITICAL_TIMEOUT_NS -> Forall status_ok (sh_heap sh) -> (p < length (sh_heap sh))%nat ->
  sh_receivers sh <> 0%nat ->
  exists sh' m', scan_entry now_ns timeout (sh, m) p = (sh', m')
    /\ shared_after now_ns timeout [p] sh sh' /\ counters_after now_ns timeout (sh_heap sh) [p] m m'.
Proof.
  intros Ht Hok Hp Hrx. destruct (lookup_lt_is_Some_2 _ _ Hp) as [e He].
  assert (Hst : status_of (sh_heap sh) p = load_status e) by (unfold status_of; by rewrite He).
  assert (Hheap := fun b h' => heap_after_one now_ns timeout (sh_heap sh) p e b h' He).
  assert (Hring := ring_after_one (sh_heap sh) p (sh_ring sh)). rewrite Hst in Hring.
  set (esc := escalates now_ns timeout (sh_heap sh) p) in *.
  assert (Hesc : esc = bool_decide (load_status e = Pending) && (timeout <? age_ns now_ns e))
    by (unfold esc, escalates; by rewrite He).
  assert (Hov : overdue now_ns (sh_heap sh) p = bool_decide (load_status e = Unaddressed) && (CRITICAL_TIMEOUT_NS <? age_ns now_ns e))
    by (unfold overdue; by rewrite He).
  unfold scan_entry. cbn [fst]. rewrite He. unfold shared_after, counters_after. cbv zeta.
  rewrite !count_cons, Hov. unfold has_status. rewrite Hst. cbn [List.filter]. fold esc. unfold count.
  clearbody esc. clear Hov Hst. unfold scan_act.
  destruct (load_status e) eqn:Hs; decide_statuses; cbn [andb is_terminal] in *; subst esc.
  - destruct (Z.ltb_spec timeout (age_ns now_ns e)) as [Hlt|Hge].
    + unfold arc_claim. rewrite He. rewrite Forall_lookup in Hok. rewrite try_claim_iff, bool_decide_true by eauto.
      unfold chan_send. cbn [sh_receivers sh_set_heap]. rewrite (proj2 (Nat.eqb_neq _ _) Hrx).
      eexists _, _. split; [done|]. split; [|solve_counters].
      cbn. split_and!; [by eapply (Hheap true)|done|exact Hring|done].
    + rewrite (proj2 (Z.ltb_ge CRITICAL_TIMEOUT_NS _)) by lia. eexists _, _. split; [done|].
      split; [|solve_counters]. split_and!; [by eapply (Hheap false)|by rewrite app_nil_r|exact Hring|done].
  - eexists _, _. split; [done|]. split; [|solve_counters].
    split_and!; [by eapply (Hheap false)|by rewrite app_nil_r|exact Hring|done].
  - destruct (CRITICAL_TIMEOUT_NS <? age_ns now_ns e); eexists _, _; (split; [done|]);
      (split; [|solve_counters]);
      (split_and!; [by eapply (Hheap false)|by rewrite app_nil_r|exact Hring|done]).
  - eexists _, _. split; [done|]. split; [|solve_counters].
    split_and!; [by eapply (Hheap false)|by rewrite app_nil_r|exact Hring|done].
Qed.

(** One entry at a time changes nothing for the others. *)
Lemma shared_after_other now_ns timeout p sh sh1 q :
  shared_after now_ns timeout [p] sh sh1 -> q <> p -> sh_heap sh1 !! q = sh_heap sh !! q.
Proof.
  intros (Hh & _) Hq. rewrite Hh. rewrite bool_decide_false; [done|]. by intros ?%list_elem_of_singleton.
Qed.

Lemma shared_after_length now_ns timeout l sh sh1 :
  shared_after now_ns timeout l sh sh1 -> length (sh_heap sh1) = length (sh_heap sh).
Proof.
  intros (Hh & _).
  assert (Hs : forall i, is_Some (sh_heap sh1 !! i) <-> is_Some (sh_heap sh !! i)).
  { intros i. rewrite Hh. destruct (_ && _); [|done]. by rewrite fmap_is_Some. }
  apply Nat.le_antisymm; apply Nat.nlt_ge; intros Hlt; apply lookup_lt_is_Some, Hs, lookup_lt_is_Some in Hlt; lia.
Qed.

Lemma shared_after_ok now_ns timeout l sh sh1 :
  shared_after now_ns timeout l sh sh1 -> Forall status_ok (sh_heap sh) -> Forall status_ok (sh_heap sh1).
Proof.
  intros (Hh & _) Hok. rewrite Forall_lookup in *. intros i e. rewrite Hh. destruct (_ && _); [|by apply Hok].
  destruct (sh_heap sh !! i) as [e0|]; [|done]. intros [= <-]. apply (status_ok_store Unaddressed).
Qed.

Lemma shared_after_seq now_ns timeout l sh sh1 p :
  shared_after now_ns timeout l sh sh1 -> seq_of (sh_heap sh1) p = seq_of (sh_heap sh) p.
Proof. intros (Hh & _). unfold seq_of. rewrite Hh. destruct (_ && _); [|done]. by destruct (sh_heap sh !! p). Qed.

Lemma wrap_u64_chain a a1 a2 x y :
  wrap_u64 a1 = wrap_u64 (a + x) -> wrap_u64 a2 = wrap_u64 (a1 + y) -> wrap_u64 a2 = wrap_u64 (a + (x + y)).
Proof. intros H1 H2. rewrite H2, <- wrap_u64_add_l, H1, wrap_u64_add_l. f_equal. lia. Qed.

Lemma scan_fold now_ns timeout l sh m :
  timeout <= CRITICAL_TIMEOUT_NS -> Forall status_ok (sh_heap sh) ->
  NoDup l -> Forall (fun p => p < length (sh_heap sh))%nat l -> sh_receivers sh <> 0%nat ->
  exists sh' m', foldl (scan_entry now_ns timeout) (sh, m) l = (sh', m')
    /\ shared_after now_ns timeout l sh sh' /\ counters_after now_ns timeout (sh_heap sh) l m m'.
Proof.
  intros Ht Hok Hnd. revert sh m Hok. induction Hnd as [|p l Hp Hnd IH]; intros sh m Hok Hl Hrx.
  { exists sh, m. split; [done|]. unfold shared_after, counters_after, count. simpl.
    split_and!; try (by rewrite ?Z.add_0_r); [by rewrite app_nil_r|]. intros k q. split; [|tauto].
    intros ?. split; [done|]. intros ? []%not_elem_of_nil. }
  inversion_clear Hl as [|? ? Hpl Hl'].
  destruct (scan_entry_one now_ns timeout sh m p Ht Hok Hpl Hrx) as (sh1 & m1 & H1 & Hs1 & Hm1).
  destruct (IH sh1 m1) as (sh' & m' & H2 & Hs2 & Hm2).
  { by eapply shared_after_ok. }
  { rewrite (shared_after_length _ _ _ _ _ Hs1). done. }
  { destruct Hs1 as (_ & _ & _ & ->). done. }
  exists sh', m'. cbn [foldl]. rewrite H1, H2. split; [done|].
  assert (Hoth : forall q, q ∈ l -> sh_heap sh1 !! q = sh_heap sh !! q).
  { intros q Hq. eapply shared_after_other; [done|]. by intros ->. }
  assert (He : forall q, q ∈ l -> escalates now_ns timeout (sh_heap sh1) q = escalates now_ns timeout (sh_heap sh) q)
    by (intros q Hq; unfold escalates; by rewrite Hoth).
  assert (Ho : forall q, q ∈ l -> overdue now_ns (sh_heap sh1) q = overdue now_ns (sh_heap sh) q)
    by (intros q Hq; unfold overdue; by rewrite Hoth).
  assert (Hst : forall s q, q ∈ l -> has_status s (sh_heap sh1) q = has_status s (sh_heap sh) q)
    by (intros s q Hq; unfold has_status, status_of; by rewrite Hoth).
  split.
  - assert (Hseq := fun q => shared_after_seq _ _ _ _ _ q Hs1).
    destruct Hs1 as (Hh1 & Hc1 & Hr1 & Hx1), Hs2 as (Hh2 & Hc2 & Hr2 & Hx2). split_and!; [|..|congruence].
    + intros q. rewrite Hh2. destruct (decide (q ∈ l)) as [Hq|Hq].
      * rewrite (bool_decide_true (q ∈ l)), (bool_decide_true (q ∈ p :: l)), He, Hoth by (try done; by right). done.
      * rewrite (bool_decide_false (q ∈ l)) by done. cbn [andb]. rewrite Hh1.
        rewrite (bool_decide_ext (q ∈ p :: l) (q ∈ [p])); [done|]. rewrite elem_of_cons, list_elem_of_singleton. tauto.
    + rewrite Hc2, Hc1, <- app_assoc. f_equal. rewrite (filter_ext_in _ _ l He). simpl. by destruct (escalates _ _ _ p).
    + intros k q. rewrite Hr2, Hr1. split.
      * intros [[Hin H1'] H2']. split; [done|]. intros x [-> |Hx]%elem_of_cons Htx; [apply H1'; [by left|done]|].
        rewrite <- Hseq. apply H2'; [done|]. unfold status_of. by rewrite Hoth.
      * intros [Hin Hall]. split_and!; [done|intros x ->%list_elem_of_singleton; apply Hall; by left|].
        intros x Hx. rewrite Hseq. unfold status_of. rewrite Hoth by done. apply Hall. by right.
  - destruct Hm1 as (E1 & P1 & S1 & G1 & C1 & A1), Hm2 as (E2 & P2 & S2' & G2 & C2 & A2).
    rewrite (count_ext _ _ l He) in E2. rewrite (count_ext _ _ l Ho) in A2.
    rewrite (count_ext _ _ l (Hst Addressed)) in P2, G2. rewrite (count_ext _ _ l (Hst FinallyHandled)) in S2', G2.
    unfold counters_after. cbv zeta. rewrite !count_cons in *. unfold count in E1, P1, S1, G1, A1. cbn [List.filter length] in *.
    rewrite !Z.add_0_r in *. split_and!; try (by eapply wrap_u64_chain); [|congruence].
    rewrite G2, <- Z.add_assoc, <- (wrap_u64_add_l (gc_removed m1)), G1, wrap_u64_add_l. f_equal. lia.
Qed.

Lemma ring_snapshot_ptrs h r :
  ring_inv h r -> NoDup (ring_snapshot r) /\ Forall (fun p => p < length h)%nat (ring_snapshot r).
Proof.
  intros [Hk _]. unfold ring_snapshot. pose proof (sk_keys_nodup (pr_map r)) as Hnd.
  assert (Hall : forall x, x ∈ sk_iter (pr_map r) -> (x.2 < length h)%nat /\ seq_of h x.2 = x.1).
  { intros [k p] Hin. by apply Hk. }
  revert Hnd Hall. induction (sk_iter (pr_map r)) as [|x l IH]; simpl; [by repeat constructor|].
  intros [Hx Hnd]%NoDup_cons Hall. destruct (IH Hnd) as [IH1 IH2]; [intros y ?; apply Hall; by right|].
  split; constructor; try done; [|apply Hall; by left]. intros Hin. apply Hx.
  apply list_elem_of_In, in_map_iff in Hin as (y & Hy & Hyl%list_elem_of_In).
  rewrite <- (proj2 (Hall x (list_elem_of_here _ _))), <- Hy, (proj2 (Hall y (list_elem_of_further _ _ _ Hyl))).
  by apply list_elem_of_In, in_map, list_elem_of_In.
Qed.

Lemma timeout_bounds load : 200000 <= timeout_for_load load <= 2000000.
Proof. unfold timeout_for_load. repeat case_match; lia. Qed.

(** ** Theorems *)

(** A scan is exact: it turns the pending entries of the ring older than
    the adaptive timeout, and no others, into [Unaddressed] and sends exactly
    these, in order of sequence number; it takes the handled entries, and no
    others, out of the ring; and its counters grow by the number of entries in
    each case, alerts by the escalated ones past the critical timeout. *)
Theorem sorter_scan_exact now_ns mon sh m :
  ring_inv (sh_heap sh) (sh_ring sh) -> Forall status_ok (sh_heap sh) -> sh_receivers sh <> 0%nat ->
  let timeout := adaptive_timeout mon in
  let entries := ring_snapshot (sh_ring sh) in
  exists sh' m', scan_once now_ns mon (sh, m) = (sh', m')
    /\ sh_chan sh' = sh_chan sh ++ List.filter (escalates now_ns timeout (sh_heap sh)) entries
    /\ (forall p, sh_heap sh' !! p =
          if bool_decide (p ∈ entries) && escalates now_ns timeout (sh_heap sh) p
          then store_status (status_to_u8 Unaddressed) <$> sh_heap sh !! p else sh_heap sh !! p)
    /\ (forall k p, in_ring (sh_ring sh') k p <->
          in_ring (sh_ring sh) k p /\ is_terminal (status_of (sh_heap sh) p) = false)
    /\ counters_after now_ns timeout (sh_heap sh) entries (count_scan m) m'.
Proof.
  intros Hri Hok Hrx timeout entries. destruct (ring_snapshot_ptrs _ _ Hri) as [Hnd Hlt].
  assert (Ht : timeout <= CRITICAL_TIMEOUT_NS).
  { pose proof (timeout_bounds (primary_load_pct mon)). unfold timeout, adaptive_timeout, CRITICAL_TIMEOUT_NS. lia. }
  destruct (scan_fold now_ns timeout entries sh (count_scan m) Ht Hok Hnd Hlt Hrx) as (sh' & m' & Hf & (Hh & Hc & Hr & _) & Hm).
  exists sh', m'. split_and!; try done. intros k p. rewrite Hr. split; intros [Hin Hn]; (split; [done|]).
  - destruct (is_terminal _) eqn:Hterm; [|done]. destruct (ri_keys _ _ Hri _ _ Hin) as [_ Hs].
    exfalso. refine (Hn p _ Hterm Hs). apply list_elem_of_In. unfold entries, ring_snapshot. apply in_map_iff.
    exists (k, p). split; [done|]. by apply list_elem_of_In.
  - intros q Hq Htq Hs. apply list_elem_of_In, in_map_iff in Hq as ([k' q'] & Heq & Hq%list_elem_of_In). simpl in Heq. subst q'.
    destruct (ri_keys _ _ Hri _ _ Hq) as [_ Hs']. rewrite <- Hs', Hs in Hq.
    assert (q = p) as -> by exact (sk_key_fun _ _ _ _ Hq Hin). congruence.
Qed.

(** Load and timeout: while its counters do not overflow the load is the
    percentage of orders among orders and idle spins, between 0 and 100; the
    timeout grows with the load and stays between 0.2 and 2 ms, so a pending
    entry older than 2 ms is escalated by every scan that sees it. *)
Theorem sorter_timeout_bounds mon mon' now_ns (h : Heap) p e :
  0 <= orders_processed mon -> 0 <= idle_spins mon -> orders_processed mon + idle_spins mon < two64 ->
  orders_processed mon * 100 < two64 -> primary_load_pct mon <= primary_load_pct mon' ->
  h !! p = Some e -> load_status e = Pending -> 2000000 < age_ns now_ns e ->
  primary_load_pct mon = orders_processed mon * 100 / (orders_processed mon + idle_spins mon)
  /\ 0 <= primary_load_pct mon <= 100
  /\ 200000 <= adaptive_timeout mon <= adaptive_timeout mon' /\ adaptive_timeout mon' <= 2000000
  /\ escalates now_ns (adaptive_timeout mon') h p = true.
Proof.
  intros Ho Hi Hsum Hmul Hle He Hs Hage.
  assert (Hpct : primary_load_pct mon = orders_processed mon * 100 / (orders_processed mon + idle_spins mon)
    /\ 0 <= primary_load_pct mon <= 100).
  { unfold primary_load_pct. rewrite !wrap_u64_id by (split; lia).
    destruct (Z.eqb_spec (orders_processed mon + idle_spins mon) 0) as [E|E].
    { rewrite E, Z.div_0_r. lia. }
    assert (0 <= orders_processed mon * 100 / (orders_processed mon + idle_spins mon) <= 100).
    { split; [apply Z.div_pos; lia|]. apply Z.div_le_upper_bound; lia. }
    lia. }
  pose proof (timeout_bounds (primary_load_pct mon)). pose proof (timeout_bounds (primary_load_pct mon')).
  split_and!; try (unfold adaptive_timeout; lia); [apply Hpct..| |].
  - unfold adaptive_timeout, timeout_for_load. repeat case_match; lia.
  - unfold escalates. rewrite He, bool_decide_true by done. cbn [andb]. apply Z.ltb_lt. unfold adaptive_timeout. lia.
Qed.

(** The age the sorter computes is off by the distance of the two clock
    origins: an entry that the dual log, opened at [origin_log], writes at
    time [t] is escalated by a scan at time [now] of a sorter created at
    [origin_sorter] exactly when its true age exceeds the timeout by more than
    [origin_sorter - origin_log]. *)
Theorem sorter_age_skew origin_log origin_sorter t now timeout (h : Heap) p e :
  0 <= timeout -> h !! p = Some e -> load_status e = Pending -> en_timestamp_in e = t - origin_log ->
  escalates (now - origin_sorter) timeout h p = (timeout + (origin_sorter - origin_log) <? now - t).
Proof.
  intros Ht He Hs Hts. unfold escalates. rewrite He, bool_decide_true by done. cbn [andb].
  unfold age_ns, saturating_sub_u64. rewrite Hts.
  destruct (Z.ltb_spec (timeout + (origin_sorter - origin_log)) (now - t)); [apply Z.ltb_lt|apply Z.ltb_ge]; lia.
Qed.

(** [run] does not return: [running] is set when the sorter is created and
    nothing the loop does clears it, whatever the other threads do. *)
Theorem sorter_run_never_returns fuel now_ns mon env sh s :
  s_running s = true -> sorter_run fuel now_ns mon env sh s = OutOfFuel.
Proof.
  revert sh s. induction fuel as [|fuel IH]; intros sh s Hs; simpl; rewrite Hs; [done|]. simpl.
  destruct (scan_once _ _ _) as [sh1 m1]. by apply IH.
Qed.
End Sorter.

(** ** Witnesses: one entry past the timeout, one fresh, one handled *)

Module SorterDemo.
Import GmapSkipMap.

Definition cmd : InboundCommand := Inbound_FreezeAccount 7.
Definition entry (seq ts : Z) : LogEntry := LogEntry_new (fun _ => 0) seq 1 ts cmd.
Definition heap : Heap := [entry 1 0; entry 2 900000; store_status (status_to_u8 Addressed) (entry 3 0)].
Definition ring : PendingRing := ring_push heap 2 (ring_push heap 1 (ring_push heap 0 PendingRing_new)).
Definition shared : Shared := mkShared heap ring [] 1.
Definition monitor : LoadMonitor := mkLoad 1 3 1000000.

Lemma ring_ok : ring_inv heap ring.
Proof.
  split; [|vm_compute; reflexivity]. intros k p. unfold in_ring.
  change (sk_iter (pr_map ring)) with [(1, 0%nat); (2, 1%nat); (3, 2%nat)].
  rewrite !elem_of_cons. intros [[= -> ->]|[[= -> ->]|[[= -> ->]|[]%not_elem_of_nil]]]; (split; [simpl; lia|reflexivity]).
Qed.
Lemma heap_ok : Forall status_ok heap.
Proof. repeat constructor. Qed.

Example scan_result :
  let '(sh, m) := scan_once 1000000 monitor (shared, SorterMetrics_default) in
  (sh_chan sh, map load_status (sh_heap sh), ring_snapshot (sh_ring sh), m)
    = ([0%nat], [Unaddressed; Pending; Addressed], [0%nat; 1%nat], mkSorterMetrics 1 1 0 1 1 0).
Proof. vm_compute. reflexivity. Qed.

Lemma sorter_scan_exact_witness :
  exists sh' m', scan_once 1000000 monitor (shared, SorterMetrics_default) = (sh', m') /\ sh_chan sh' = [0%nat].
Proof.
  destruct (sorter_scan_exact 1000000 monitor shared SorterMetrics_default ring_ok heap_ok) as (sh' & m' & H & Hc & _);
    [discriminate|]. exists sh', m'. split; [exact H|]. rewrite Hc. vm_compute. reflexivity.
Defined.

Lemma sorter_timeout_bounds_witness : primary_load_pct monitor = 1 * 100 / (1 + 3).
Proof.
  refine (proj1 (sorter_timeout_bounds monitor monitor 3000000 heap 0 (entry 1 0) _ _ _ _ _ _ _ _));
    vm_compute; congruence.
Defined.

Lemma sorter_age_skew_witness :
  escalates (5000000 - 4000000) 200000 heap 1 = false.
Proof.
  rewrite (sorter_age_skew 3000000 4000000 3900000 5000000 200000 heap 1 (entry 2 900000)); vm_compute; congruence.
Defined.

Lemma sorter_run_never_returns_witness :
  sorter_run 3 (fun _ => 0) (fun _ => monitor) (fun _ sh => sh) shared Sorter_new = OutOfFuel.
Proof. apply sorter_run_never_returns. reflexivity. Defined.
End SorterDemo.
