(* ===== verification/SecondEngine.v ===== *)
(** * SecondEngine: crates/second-engine/src/engine.rs

    The workers of the second engine: each keeps its own books, claims the
    escalated entries it receives by compare-and-swap, applies their commands
    and records the fill.  [worker_handle] is the body of [worker_loop] for one
    received entry; Escalation.v interleaves its accesses with the other
    threads.  The books are a [HashMap]; the broadcast of a cancel visits each
    book once, in an order that does not matter since a book sees no other. *)

From S2P Require Import Prelude CoreTypes SlotMap OrderBook BookSpec BookMarket BookRep BookInv.
From S2P Require Import BookRefine BookTheorems LogEntry Sorter.
#[local] Open Scope Z_scope.

Section SecondEngine.
Context {SM : SlotMapApi} {SK : SkipMapApi}.

Abbreviation Books := (gmap Z OrderBook).

Record SecondEngineConfig := mkSecondConfig { worker_count : nat; book_configs : list BookConfig }.
Definition SecondEngineConfig_default : SecondEngineConfig := mkSecondConfig 8 [].

Record SecondEngineMetrics := mkSecondMetrics {
  sm_orders_processed : Z;
  sm_cas_failures : Z;
  sm_orders_received : Z;
  sm_unknown_symbol : Z
}.

Definition SecondEngineMetrics_default : SecondEngineMetrics := mkSecondMetrics 0 0 0 0.

Definition count_received (m : SecondEngineMetrics) : SecondEngineMetrics :=
  mkSecondMetrics (sm_orders_processed m) (sm_cas_failures m) (wrap_u64 (sm_orders_received m + 1)) (sm_unknown_symbol m).
Definition count_cas_failure (m : SecondEngineMetrics) : SecondEngineMetrics :=
  mkSecondMetrics (sm_orders_processed m) (wrap_u64 (sm_cas_failures m + 1)) (sm_orders_received m) (sm_unknown_symbol m).
Definition count_processed (m : SecondEngineMetrics) : SecondEngineMetrics :=
  mkSecondMetrics (wrap_u64 (sm_orders_processed m + 1)) (sm_cas_failures m) (sm_orders_received m) (sm_unknown_symbol m).
Definition count_unknown (m : SecondEngineMetrics) : SecondEngineMetrics :=
  mkSecondMetrics (sm_orders_processed m) (sm_cas_failures m) (sm_orders_received m) (wrap_u64 (sm_unknown_symbol m + 1)).

(** Collecting pairs into a [HashMap]: a later configuration of the same
    symbol replaces an earlier one. *)
Definition build_books (configs : list BookConfig) : Books :=
  foldl (fun m cfg => <[cfg_symbol cfg := OrderBook_new cfg]> m) ∅ configs.

(** ** Applying an escalated command *)

Definition accumulate_one (this_order_id : Z) (acc : Z * Z) (ev : EngineEvent) : Z * Z :=
  match ev with
  | Trade _ _ _ price qty _ _ _ taker_order_id _ _ _ _ _ =>
      if taker_order_id =? this_order_id then (wrap_u64 price, wrap_u64 (acc.2 + qty)) else acc
  | _ => acc
  end.

Definition accumulate_fill (events : list EngineEvent) (this_order_id : Z) (fill : Z * Z) : Z * Z :=
  foldl (accumulate_one this_order_id) fill events.

Fixpoint cancel_ids (term seq ts_ns account : Z) (order_ids : list Z) (book : OrderBook) : Exec OrderBook :=
  match order_ids with
  | [] => Val book
  | order_id :: ids =>
      let! '(book, _) := apply book (mkSC term seq ts_ns (Inbound_Cancel account order_id)) in
      cancel_ids term seq ts_ns account ids book
  end.

Fixpoint apply_each (cmd : SequencedCommand) (l : list (Z * OrderBook)) (books : Books) : Exec Books :=
  match l with
  | [] => Val books
  | (symbol, book) :: l =>
      let! '(book, _) := apply book cmd in
      apply_each cmd l (<[symbol := book]> books)
  end.

(** The fill price, the filled quantity, whether the symbol is known, and the
    books after. *)
Definition apply_escalated (e : LogEntry) (books : Books) : Exec (Z * Z * bool * Books) :=
  let seq_cmd := mkSC (en_term e) (en_seq e) (en_timestamp_in e) (en_cmd e) in
  match en_cmd e with
  | Inbound_NewOrder _ _ symbol _ _ _ _ _ =>
      match books !! symbol with
      | Some book =>
          let! '(book, events) := apply book seq_cmd in
          let '(fill_price, filled_qty) := accumulate_fill events (en_seq e) (0, 0) in
          Val (fill_price, filled_qty, true, <[symbol := book]> books)
      | None => Val (0, 0, false, books)
      end
  | Inbound_Liquidate symbol account =>
      match books !! symbol with
      | Some book =>
          let order_ids := open_order_ids_for_account book account in
          let! book := cancel_ids (en_term e) (en_seq e) (en_timestamp_in e) account order_ids book in
          Val (0, 0, true, <[symbol := book]> books)
      | None => Val (0, 0, false, books)
      end
  | Inbound_Cancel _ _ =>
      let! books := apply_each seq_cmd (map_to_list books) books in
      Val (0, 0, true, books)
  | Inbound_FreezeAccount _ => Val (0, 0, true, books)
  end.

(** ** One entry *)

(** The body of [worker_loop] after [recv]; [now_ns] is what the clock shows. *)
Definition worker_handle (now_ns : Z) (p : Arc) (sh : Shared) (books : Books) (m : SecondEngineMetrics) :
    Exec (Shared * Books * SecondEngineMetrics) :=
  let m := count_received m in
  if bool_decide (status_of (sh_heap sh) p <> Unaddressed) then Val (sh, books, count_cas_failure m)
  else
    let '(won, h) := arc_claim Unaddressed FinallyHandled p (sh_heap sh) in
    if negb won then Val (sh, books, count_cas_failure m)
    else
      match h !! p with
      | None => Panic
      | Some e =>
          let! '(fill_price, filled_qty, matched_known_symbol, books) := apply_escalated e books in
          let m := if matched_known_symbol then m else count_unknown m in
          let h := arc_update (record_fill 2 now_ns fill_price filled_qty) p h in
          let ring := (ring_remove (en_seq e) (sh_ring sh)).2 in
          Val (sh_set_ring ring (sh_set_heap h sh), books, count_processed m)
      end.

(** [process_single]: the same without counters, with time 0. *)
Definition process_single (p : Arc) (sh : Shared) (books : Books) : Exec (bool * Shared * Books) :=
  if bool_decide (status_of (sh_heap sh) p <> Unaddressed) then Val (false, sh, books)
  else
    let '(won, h) := arc_claim Unaddressed FinallyHandled p (sh_heap sh) in
    if negb won then Val (false, sh, books)
    else
      match h !! p with
      | None => Panic
      | Some e =>
          let! '(fill_price, filled_qty, _, books) := apply_escalated e books in
          let h := arc_update (record_fill 2 0 fill_price filled_qty) p h in
          let ring := (ring_remove (en_seq e) (sh_ring sh)).2 in
          Val (true, sh_set_ring ring (sh_set_heap h sh), books)
      end.

(** [start] and the loop of one worker until the channel is closed and empty:
    the entries the worker receives, in order, with the clock at each. *)
Definition start_books (cfg : SecondEngineConfig) : list Books :=
  replicate (worker_count cfg) (build_books (book_configs cfg)).

Fixpoint worker_loop (received : list (Z * Arc)) (sh : Shared) (books : Books) (m : SecondEngineMetrics) :
    Exec (Shared * Books * SecondEngineMetrics) :=
  match received with
  | [] => Val (sh, books, m)
  | (now_ns, p) :: rest =>
      let! '(sh, books, m) := worker_handle now_ns p sh books m in
      worker_loop rest sh books m
  end.

(** ** Facts *)

Context {SML : SlotMapLaws SM}.

(** Every book is one that commands up to [last] can have produced. *)
Definition books_inv (books : Books) (last : Z) : Prop :=
  forall s b, books !! s = Some b -> exists cfg, book_inv cfg b last.

Lemma book_inv_mono cfg b last last' : book_inv cfg b last -> last <= last' -> book_inv cfg b last'.
Proof.
  intros (A & HR & HA & Hs & ? & ?) Hle. exists A. split_and!; try done. eapply Forall_impl; [exact Hs|]. simpl. lia.
Qed.

Lemma books_inv_insert books last last' s b cfg :
  books_inv books last -> last <= last' -> book_inv cfg b last' -> books_inv (<[s := b]> books) last'.
Proof.
  intros Hb Hle Hi s' b'. destruct (decide (s' = s)) as [-> |].
  - rewrite lookup_insert_eq. intros [= <-]. by exists cfg.
  - rewrite lookup_insert_ne by done. intros [cfg' ?]%Hb. exists cfg'. by eapply book_inv_mono.
Qed.

Lemma books_inv_mono books last last' : books_inv books last -> last <= last' -> books_inv books last'.
Proof. intros Hb Hle s b [cfg ?]%Hb. exists cfg. by eapply book_inv_mono. Qed.

Lemma build_books_inv configs last : Forall cfg_ok configs -> books_inv (build_books configs) last.
Proof.
  intros Hok. unfold build_books. assert (H0 : books_inv ∅ last) by (intros s b; by rewrite lookup_empty).
  revert H0. generalize (∅ : Books) as m. induction Hok as [|cfg configs Hc _ IH]; intros m Hm; [done|].
  cbn [foldl]. apply IH. eapply (books_inv_insert _ _ _ _ _ cfg Hm); [lia|].
  apply reach_inv. by constructor.
Qed.

(** The last trade's price and the total, when every trade is the taker's. *)
Definition trade_price (ev : EngineEvent) : option Z :=
  match ev with Trade _ _ _ price _ _ _ _ _ _ _ _ _ _ => Some price | _ => None end.

Definition taker_is (id : Z) (ev : EngineEvent) : Prop :=
  match ev with Trade _ _ _ _ _ _ _ _ taker_order_id _ _ _ _ _ => taker_order_id = id | _ => True end.

Lemma no_trades_traded evs : omap trade_price evs = [] -> traded evs = 0.
Proof.
  unfold traded. induction evs as [|ev evs IH]; [done|]. destruct ev; simpl; try done; intros E; rewrite IH by done; lia.
Qed.

Lemma accumulate_fill_spec evs id fill :
  Forall (taker_is id) evs ->
  accumulate_fill evs id fill =
    (from_option wrap_u64 fill.1 (last (omap trade_price evs)),
     if decide (omap trade_price evs = []) then fill.2 else wrap_u64 (fill.2 + traded evs)).
Proof.
  unfold accumulate_fill. revert fill. induction evs as [|ev evs IH] using rev_ind; intros fill Ht; [by destruct fill|].
  apply Forall_app in Ht as [Ht Hev]. apply Forall_inv in Hev.
  assert (H1 : traded [ev] = ev_trade_qty ev) by (unfold traded; simpl; lia).
  rewrite foldl_app, IH by done. cbn [foldl]. rewrite traded_app, H1, omap_app. clear IH H1.
  destruct ev as [seq ts sy price qty mo tor mid tid ma ta ms mr tr| | | | | | | |];
    simpl in Hev |- *; rewrite ?app_nil_r, ?Z.add_0_r; try done.
  subst tid. rewrite Z.eqb_refl, last_snoc. simpl. f_equal.
  rewrite (decide_False (P := _ ++ _ = [])) by (by intros [_ ?]%app_eq_nil).
  case_decide as E; [|by rewrite wrap_u64_add_l, Z.add_assoc].
  f_equal. rewrite (no_trades_traded _ E). lia.
Qed.

Lemma new_order_takers A seq ts_ns account coid symbol side price qty ot tif A' evs :
  new_order_out A seq ts_ns account coid symbol side price qty ot tif A' evs -> abook_ok A -> 0 <= qty ->
  Forall (taker_is seq) evs.
Proof.
  intros Hout HA Hq. apply Forall_forall. intros e He. destruct e; try exact I. simpl.
  destruct (out_trade _ _ _ _ _ _ _ _ _ _ _ _ _ _ maker_order_id Hout He eq_refl) as (r & q & ev & tl & Hrun & Hin & _).
  destruct (run_evs_ok _ _ _ _ _ _ _ _ _ _ _ _ _ HA Hq Hrun Hin) as (m & _ & _ & [(f & mr & tr & Heq & _)|[? _]]); [|done].
  unfold spec_trade in Heq. congruence.
Qed.

Lemma cancel_ids_inv cfg term seq ts account ids b last :
  book_inv cfg b last -> NoDup ids ->
  (forall id, id ∈ ids -> exists o, client_order b id = Some o /\ a_account o = account) ->
  exists b', cancel_ids term seq ts account ids b = Val b' /\ book_inv cfg b' last
    /\ (forall id, id ∈ ids -> client_order b' id = None)
    /\ (forall id, id ∉ ids -> client_order b' id = client_order b id).
Proof.
  revert b. induction ids as [|id ids IH]; intros b Hinv Hnd Hids; cbn [cancel_ids].
  { exists b. split_and!; try done. intros id []%not_elem_of_nil. }
  apply NoDup_cons in Hnd as [Hid Hnd].
  destruct (cancel_inv cfg b last seq account id Hinv) as (b1 & evs & Hap & Heff & Hinv1).
  change (apply b _) with (apply_cancel b seq account id). rewrite Hap. cbn [ebind].
  destruct (Hids id) as (o & Ho & Hacc); [by left|]. unfold cancel_effect in Heff.
  rewrite Ho, decide_True in Heff by done. destruct Heff as (_ & Hnone & Hoth).
  destruct (IH b1 Hinv1 Hnd) as (b' & -> & Hinv' & Hgone & Hkeep).
  { intros id' Hin. rewrite Hoth by (by intros ->). apply Hids. by right. }
  exists b'. split_and!; try done.
  - intros id' [-> |Hin]%elem_of_cons; [|by apply Hgone]. by rewrite Hkeep.
  - intros id' [? ?]%not_elem_of_cons. by rewrite Hkeep, Hoth.
Qed.

(** A liquidation leaves the account without open orders and the others
    alone. *)
Definition liquidated (b b' : OrderBook) (account : Z) : Prop :=
  open_order_ids_for_account b' account = []
  /\ forall id o, client_order b id = Some o -> a_account o <> account -> client_order b' id = Some o.

Lemma liquidate_inv cfg term seq ts account b last :
  book_inv cfg b last ->
  exists b', cancel_ids term seq ts account (open_order_ids_for_account b account) b = Val b'
    /\ book_inv cfg b' last /\ liquidated b b' account.
Proof.
  intros Hinv. destruct (account_orders_inv cfg b last account Hinv) as (Hnd & Hin & _).
  destruct (cancel_ids_inv cfg term seq ts account _ b last Hinv Hnd) as (b' & Hc & Hinv' & Hgone & Hkeep); [intros id; apply Hin|].
  exists b'. split_and!; [done..|split].
  - destruct (open_order_ids_for_account b' account) as [|id ids] eqn:E; [done|].
    destruct (account_orders_inv cfg b' last account Hinv') as (_ & Hin' & _).
    destruct (proj1 (Hin' id)) as (o & Ho & Hacc); [rewrite E; by left|].
    destruct (decide (id ∈ open_order_ids_for_account b account)) as [Hi|Hi]; [by rewrite Hgone in Ho|].
    exfalso. apply Hi, Hin. rewrite Hkeep in Ho by done. eauto.
  - intros id o Ho Hacc. rewrite Hkeep; [done|]. intros (o' & Ho' & ?)%Hin. congruence.
Qed.

Lemma apply_each_inv term seq ts account oid last (l : list (Z * OrderBook)) books :
  NoDup l.*1 -> (forall s b, (s, b) ∈ l -> exists cfg, book_inv cfg b last) ->
  exists books', apply_each (mkSC term seq ts (Inbound_Cancel account oid)) l books = Val books'
    /\ (forall s, s ∉ l.*1 -> books' !! s = books !! s)
    /\ (forall s b, (s, b) ∈ l -> exists cfg b' evs, books' !! s = Some b' /\ book_inv cfg b' last
          /\ cancel_effect b b' seq account oid evs).
Proof.
  revert books. induction l as [|[s b] l IH]; intros books Hnd Hinv; cbn [apply_each].
  { exists books. split_and!; try done. intros s b []%not_elem_of_nil. }
  cbn in Hnd. apply NoDup_cons in Hnd as [Hs Hnd]. destruct (Hinv s b) as [cfg Hi]; [by left|].
  destruct (cancel_inv cfg b last seq account oid Hi) as (b1 & evs & Hap & Heff & Hi1).
  change (apply b _) with (apply_cancel b seq account oid). rewrite Hap. cbn [ebind].
  destruct (IH (<[s := b1]> books) Hnd) as (books' & -> & Hout & Hin); [intros s' b' ?; apply (Hinv s' b'); by right|].
  exists books'. split_and!; [done|..].
  - intros s' [? ?]%not_elem_of_cons. rewrite Hout by done. by rewrite lookup_insert_ne.
  - intros s' b' [[= -> ->]|Hb']%elem_of_cons; [|by apply Hin]. exists cfg, b1, evs.
    rewrite Hout by done. by rewrite lookup_insert_eq.
Qed.

(** What a new order trades lies between nothing and its quantity. *)
Lemma new_order_traded A seq ts_ns account coid symbol side price qty ot tif A' evs :
  new_order_out A seq ts_ns account coid symbol side price qty ot tif A' evs -> abook_ok A -> 0 <= qty ->
  0 <= traded evs <= qty.
Proof.
  intros Hout HA Hq. pose proof (qty_pos_of_ok' A (opposite side) HA) as Hpos.
  destruct Hout as [reason _|r ev _ Hrun|r q ev last _ Hrun Hq0 _ _ ->|r q ev _ Hrun Hq0 _ _ _
    |r q ev A2 _ Hrun Hq0 _ _ _ ->]; [unfold traded; simpl; lia|..];
    pose proof (run_conserves _ _ _ _ _ _ _ _ _ _ _ _ _ Hrun);
    pose proof (run_range _ _ _ _ _ _ _ _ _ _ _ _ _ Hrun Hq Hpos);
    rewrite ?traded_app; try destruct (q <? qty); unfold traded in *; simpl; lia.
Qed.

Lemma escalated_effect books seen e :
  books_inv books seen -> seen < en_seq e -> cmd_ok (mkSC (en_term e) (en_seq e) (en_timestamp_in e) (en_cmd e)) ->
  exists price qty known books', apply_escalated e books = Val (price, qty, known, books')
    /\ books_inv books' (en_seq e)
    /\ match en_cmd e with
       | Inbound_NewOrder account coid symbol side px q ot tif =>
           (forall s, s <> symbol -> books' !! s = books !! s)
           /\ match books !! symbol with
              | Some b => known = true /\ exists b' evs,
                  apply b (mkSC (en_term e) (en_seq e) (en_timestamp_in e) (en_cmd e)) = Val (b', evs)
                  /\ books' !! symbol = Some b'
              | None => known = false /\ books' = books
              end
       | Inbound_Liquidate symbol account =>
           (forall s, s <> symbol -> books' !! s = books !! s)
           /\ match books !! symbol with
              | Some b => known = true /\ exists b', books' !! symbol = Some b' /\ liquidated b b' account
              | None => known = false /\ books' = books
              end
       | Inbound_Cancel account oid =>
           known = true /\ forall s, match books !! s with
             | Some b => exists b' evs, books' !! s = Some b' /\ cancel_effect b b' (en_seq e) account oid evs
             | None => books' !! s = None
             end
       | Inbound_FreezeAccount _ => known = true /\ books' = books
       end.
Proof.
  intros Hb Hlt Hcmd. unfold apply_escalated.
  destruct (en_cmd e) as [account coid symbol side px q ot tif|account oid|symbol account|account] eqn:Hc.
  - destruct (books !! symbol) as [b|] eqn:Hs.
    + destruct (Hb _ _ Hs) as [cfg Hi]. destruct (inv_step cfg b seen (mkSC (en_term e) (en_seq e) (en_timestamp_in e) (Inbound_NewOrder account coid symbol side px q ot tif)) Hi Hlt Hcmd) as (A & b' & _ & _ & _ & Hap & _ & _ & Hi').
      rewrite Hap. cbn [ebind]. destruct (accumulate_fill _ _ _) as [fp fq]. do 4 eexists. split; [done|].
      split_and!; [eapply books_inv_insert; [done|simpl in *; lia|done]| |done|].
      * intros s ?. by rewrite lookup_insert_ne.
      * do 2 eexists. split; [done|]. by rewrite lookup_insert_eq.
    + do 4 eexists. split; [done|]. split_and!; try done. eapply books_inv_mono; [done|simpl in *; lia].
  - destruct (apply_each_inv (en_term e) (en_seq e) (en_timestamp_in e) account oid seen (map_to_list books) books)
      as (books' & -> & Hout & Hin).
    { apply NoDup_fst_map_to_list. }
    { intros s b Hsb%elem_of_map_to_list. by eapply Hb. }
    cbn [ebind]. do 4 eexists. split; [done|].
    assert (Hall : forall s, match books !! s with
      | Some b => exists cfg b' evs, books' !! s = Some b' /\ book_inv cfg b' seen /\ cancel_effect b b' (en_seq e) account oid evs
      | None => books' !! s = None end).
    { intros s. destruct (books !! s) as [b|] eqn:Hs; [by apply Hin, elem_of_map_to_list|]. rewrite Hout; [done|].
      intros ([s' b'] & -> & Hsb%elem_of_map_to_list)%list_elem_of_fmap. simpl in Hs. congruence. }
    split_and!; [|done|].
    + intros s b Hs. specialize (Hall s). destruct (books !! s); [|congruence].
      destruct Hall as (cfg & b' & evs & Hb' & Hi & _). simplify_eq. exists cfg. eapply book_inv_mono; [done|simpl in *; lia].
    + intros s. specialize (Hall s). destruct (books !! s); [|done]. destruct Hall as (cfg & b' & evs & ? & _ & ?). eauto.
  - destruct (books !! symbol) as [b|] eqn:Hs.
    + destruct (Hb _ _ Hs) as [cfg Hi]. edestruct (liquidate_inv cfg) as (b' & -> & Hi' & Hliq); [done|].
      cbn [ebind]. do 4 eexists. split; [done|]. split_and!; [|intros s ?; by rewrite lookup_insert_ne|done|].
      * eapply books_inv_insert; [done|simpl in *; lia|]. eapply book_inv_mono; [done|simpl in *; lia].
      * exists b'. by rewrite lookup_insert_eq.
    + do 4 eexists. split; [done|]. split_and!; try done. eapply books_inv_mono; [done|simpl in *; lia].
  - do 4 eexists. split; [done|]. split_and!; try done. eapply books_inv_mono; [done|simpl in *; lia].
Qed.

Lemma second_engine_apply_returns books seen e :
  books_inv books seen -> seen < en_seq e -> cmd_ok (mkSC (en_term e) (en_seq e) (en_timestamp_in e) (en_cmd e)) ->
  exists price qty known books', apply_escalated e books = Val (price, qty, known, books').
Proof. intros Hb Hlt Hcmd. destruct (escalated_effect books seen e Hb Hlt Hcmd) as (a & b & c & d & H & _). eauto. Qed.

(** ** Theorems *)

(** What the second engine does with an escalated command: it returns on
    every command, keeps every book well formed, and changes only what the
    command names: a new order goes to the book of its symbol as on the
    primary engine; a liquidation leaves the account without orders in that
    book; a cancel has its effect in every book; a freeze and a command for an
    unknown symbol change nothing, and only the latter is reported. *)
Theorem second_engine_apply books seen e :
  books_inv books seen -> seen < en_seq e -> cmd_ok (mkSC (en_term e) (en_seq e) (en_timestamp_in e) (en_cmd e)) ->
  exists price qty known books', apply_escalated e books = Val (price, qty, known, books')
    /\ books_inv books' (en_seq e)
    /\ match en_cmd e with
       | Inbound_NewOrder account coid symbol side px q ot tif =>
           (forall s, s <> symbol -> books' !! s = books !! s)
           /\ match books !! symbol with
              | Some b => known = true /\ exists b' evs,
                  apply b (mkSC (en_term e) (en_seq e) (en_timestamp_in e) (en_cmd e)) = Val (b', evs)
                  /\ books' !! symbol = Some b'
              | None => known = false /\ books' = books
              end
       | Inbound_Liquidate symbol account =>
           (forall s, s <> symbol -> books' !! s = books !! s)
           /\ match books !! symbol with
              | Some b => known = true /\ exists b', books' !! symbol = Some b' /\ liquidated b b' account
              | None => known = false /\ books' = books
              end
       | Inbound_Cancel account oid =>
           known = true /\ forall s, match books !! s with
             | Some b => exists b' evs, books' !! s = Some b' /\ cancel_effect b b' (en_seq e) account oid evs
             | None => books' !! s = None
             end
       | Inbound_FreezeAccount _ => known = true /\ books' = books
       end.
Proof. apply escalated_effect. Qed.

(** The fill that is recorded is the fill that happened: for a new order
    the filled quantity is exactly what its book traded, never more than the
    order's quantity, and the price is that of its last trade (0 if none). *)
Theorem second_engine_fill books seen e account coid symbol side px q ot tif b :
  books_inv books seen -> seen < en_seq e -> en_cmd e = Inbound_NewOrder account coid symbol side px q ot tif ->
  in_i64 px -> in_u64 q -> books !! symbol = Some b ->
  exists b' evs,
    apply b (mkSC (en_term e) (en_seq e) (en_timestamp_in e) (en_cmd e)) = Val (b', evs)
    /\ apply_escalated e books =
         Val (from_option wrap_u64 0 (last (omap trade_price evs)), traded evs, true, <[symbol := b']> books)
    /\ 0 <= traded evs <= q.
Proof.
  intros Hb Hlt Hc Hp Hq Hs. destruct (Hb _ _ Hs) as [cfg Hi].
  destruct (inv_step cfg b seen (mkSC (en_term e) (en_seq e) (en_timestamp_in e) (en_cmd e)) Hi Hlt) as (A & b' & _ & HA & _ & Hap & _).
  { rewrite Hc. by split. }
  exists b'. eexists. split; [exact Hap|]. unfold apply_escalated. rewrite Hc in Hap |- *. rewrite Hs, Hap. cbn [ebind].
  set (evs := (spec_apply A _).2).
  assert (Hout : exists A', new_order_out A (en_seq e) (en_timestamp_in e) account coid symbol side px q ot tif A' evs)
    by (eexists; apply spec_new_order_out, surjective_pairing).
  destruct Hout as [A' Hout]. assert (Hnn : 0 <= q) by (unfold in_u64 in Hq; lia).
  pose proof (new_order_traded _ _ _ _ _ _ _ _ _ _ _ _ _ Hout HA Hnn) as Htr.
  rewrite accumulate_fill_spec by (by eapply new_order_takers). split; [|done]. cbn [fst snd].
  do 4 f_equal. case_decide as E; [by rewrite (no_trades_traded _ E)|]. rewrite Z.add_0_l. apply wrap_u64_id.
  unfold in_u64 in *. lia.
Qed.

(** An escalated entry is handled once: the worker that finds it
    [Unaddressed] applies its command, marks it [FinallyHandled] with engine 2,
    the time and the fill, takes it out of the ring and touches no other entry;
    a worker that gets the same entry again changes nothing but its counters. *)
Theorem second_engine_handles_once {SKL : SkipMapLaws SK} books seen now_ns now2 p e sh m books2 m2 :
  books_inv books seen -> seen < en_seq e -> cmd_ok (mkSC (en_term e) (en_seq e) (en_timestamp_in e) (en_cmd e)) ->
  sh_heap sh !! p = Some e -> status_ok e -> load_status e = Unaddressed ->
  exists price qty known books' sh' m',
    apply_escalated e books = Val (price, qty, known, books')
    /\ worker_handle now_ns p sh books m = Val (sh', books', m')
    /\ sh_heap sh' = <[p := record_fill 2 now_ns price qty (store_status (status_to_u8 FinallyHandled) e)]> (sh_heap sh)
    /\ status_of (sh_heap sh') p = FinallyHandled
    /\ (forall k q, in_ring (sh_ring sh') k q <-> in_ring (sh_ring sh) k q /\ k <> en_seq e)
    /\ sh_chan sh' = sh_chan sh
    /\ worker_handle now2 p sh' books2 m2 = Val (sh', books2, count_cas_failure (count_received m2)).
Proof.
  intros Hb Hlt Hcmd He Hok Hst.
  destruct (second_engine_apply_returns books seen e Hb Hlt Hcmd) as (price & qty & known & books' & Hap).
  assert (Hp : (p < length (sh_heap sh))%nat) by by eapply lookup_lt_Some.
  set (e1 := store_status (status_to_u8 FinallyHandled) e).
  exists price, qty, known, books'. eexists _, _. split; [done|]. split.
  - assert (Hun : status_of (sh_heap sh) p = Unaddressed) by (unfold status_of; by rewrite He).
    unfold worker_handle. rewrite bool_decide_false by tauto.
    unfold arc_claim. rewrite He, try_claim_iff, bool_decide_true by done. cbn [negb].
    rewrite list_lookup_insert_eq by done. change (apply_escalated _ books) with (apply_escalated e books).
    rewrite Hap. cbn [ebind]. reflexivity.
  - cbn [sh_heap sh_set_ring sh_set_heap sh_ring sh_chan].
    assert (Hheap : arc_update (record_fill 2 now_ns price qty) p (<[p := e1]> (sh_heap sh))
      = <[p := record_fill 2 now_ns price qty e1]> (sh_heap sh)).
    { unfold arc_update. apply list_eq. intros i. destruct (decide (i = p)) as [-> |].
      - by rewrite list_lookup_alter_eq, !list_lookup_insert_eq.
      - by rewrite list_lookup_alter_ne, !list_lookup_insert_ne. }
    fold e1. rewrite Hheap.
    assert (Hstat : status_of (<[p := record_fill 2 now_ns price qty e1]> (sh_heap sh)) p = FinallyHandled)
      by (rewrite status_of_insert, decide_True by done; reflexivity).
    split_and!; [done|done|intros k q; apply in_ring_remove|done|].
    unfold worker_handle. cbn [sh_heap sh_set_ring sh_set_heap]. rewrite Hstat, bool_decide_true by done. done.
Qed.
End SecondEngine.

(** ** Witnesses: the order of BookDemo, escalated *)

Module SecondDemo.
Import GmapSlotMap GmapSkipMap.

Definition entry : LogEntry :=
  store_status (status_to_u8 Unaddressed) (LogEntry_new (fun _ => 0) 5 1 0 (sc_cmd BookDemo.take)).
Definition books : gmap Z OrderBook := {[1 := BookDemo.book]}.
Definition shared : Shared := mkShared [entry] (ring_push [entry] 0 PendingRing_new) [] 1.

Lemma books_ok : books_inv books 4.
Proof.
  intros s b Hs. unfold books in Hs. apply lookup_singleton_Some in Hs as [_ <-]. exists BookDemo.cfg. apply reach_inv, BookDemo.book_reached.
Qed.
Lemma entry_ok : cmd_ok (mkSC (en_term entry) (en_seq entry) (en_timestamp_in entry) (en_cmd entry)).
Proof. exact BookDemo.take_ok. Qed.

(** Six were filled, the last at 103. *)
Example fill :
  match worker_handle 77 0 shared books SecondEngineMetrics_default with
  | Val (sh, _, m) => map (fun e => (en_handled_by e, en_timestamp_out e, en_fill_price e, en_filled_qty e)) (sh_heap sh)
                        = [(2, 77, 103, 6)] /\ ring_snapshot (sh_ring sh) = [] /\ m = mkSecondMetrics 1 0 1 0
  | _ => False
  end.
Proof. vm_compute. split; [reflexivity|]. split; reflexivity. Qed.

Lemma second_engine_apply_witness :
  exists price qty known books', apply_escalated entry books = Val (price, qty, known, books').
Proof.
  destruct (second_engine_apply books 4 entry books_ok eq_refl entry_ok) as (a & b & c & d & H & _).
  exists a, b, c, d. exact H.
Defined.

Lemma second_engine_fill_witness :
  exists b' evs, apply BookDemo.book BookDemo.take = Val (b', evs) /\ 0 <= traded evs <= 6.
Proof.
  destruct (second_engine_fill books 4 entry 12 5 1 Buy 103 6 Limit Gtc BookDemo.book books_ok eq_refl eq_refl
    BookDemo.price103 BookDemo.qty6 (lookup_singleton_eq 1 BookDemo.book)) as (b' & evs & H & _ & Ht).
  exists b', evs. split; [exact H|exact Ht].
Defined.

Lemma second_engine_handles_once_witness :
  exists price qty known books', apply_escalated entry books = Val (price, qty, known, books').
Proof.
  destruct (second_engine_handles_once books 4 77 78 0 entry shared SecondEngineMetrics_default books
    SecondEngineMetrics_default books_ok eq_refl entry_ok eq_refl eq_refl eq_refl) as (a & b & c & d & _ & _ & H & _).
  exists a, b, c, d. exact H.
Defined.
End SecondDemo.
