(* ===== verification/Escalation.v ===== *)
(** * Escalation: primary engine, sorters and second engine together

    The threads around the pending ring, interleaved access by access: the
    dual log that pushes entries, any number of sorters (sorter.rs), any number
    of second-engine workers (engine.rs), primary engines that claim entries
    with [try_claim(Pending, Addressed)] and record their fill, as LogEntry's
    interface provides, and garbage collection of the ring.  A step of a thread
    is one access to shared memory: a load or compare-and-swap of a status, a
    store of [record_fill], an operation of the ring or of the channel.
    [scan_run] and [worker_run] show that the functions of Sorter.v and
    SecondEngine.v are runs of these steps. *)

From S2P Require Import Prelude CoreTypes SlotMap OrderBook LogEntry Sorter SecondEngine.
#[local] Open Scope Z_scope.

Section Escalation.
Context {SM : SlotMapApi} {SK : SkipMapApi} (hash_command : InboundCommand -> Z).

(** ** The threads *)

(** Where a sorter is in [scan_once]. *)
Inductive SorterPc :=
| SIdle
| SNext (now_ns timeout : Z) (rest : list Arc)
| SAct (now_ns timeout : Z) (status : OrderStatus) (age : Z) (p : Arc) (rest : list Arc)
| SSend (now_ns timeout : Z) (p : Arc) (rest : list Arc).

(** The next access of a scan. *)
Definition sorter_access (sh : Shared) (pc : SorterPc) : option (Shared * SorterPc) :=
  match pc with
  | SIdle => None
  | SNext now_ns timeout [] => Some (sh, SIdle)
  | SNext now_ns timeout (p :: rest) =>
      match sh_heap sh !! p with
      | Some e => Some (sh, SAct now_ns timeout (load_status e) (age_ns now_ns e) p rest)
      | None => Some (sh, SNext now_ns timeout rest)
      end
  | SAct now_ns timeout status age p rest =>
      match status with
      | Pending =>
          if timeout <? age then
            let '(won, h) := arc_claim Pending Unaddressed p (sh_heap sh) in
            Some (sh_set_heap h sh, if won then SSend now_ns timeout p rest else SNext now_ns timeout rest)
          else Some (sh, SNext now_ns timeout rest)
      | Addressed | FinallyHandled =>
          Some (sh_set_ring (ring_remove (seq_of (sh_heap sh) p) (sh_ring sh)).2 sh, SNext now_ns timeout rest)
      | Unaddressed => Some (sh, SNext now_ns timeout rest)
      end
  | SSend now_ns timeout p rest => Some (chan_send p sh, SNext now_ns timeout rest)
  end.

(** Where a thread is in [record_fill] on an entry it has claimed. *)
Record Fill4 := mkFill4 { f4_done : nat; f4_engine : Z; f4_time : Z; f4_price : Z; f4_qty : Z }.

(** The next store of [record_fill], and what is left. *)
Definition fill_store (f : Fill4) (e : LogEntry) : LogEntry :=
  match f4_done f with
  | 0%nat => store_fill_price (f4_price f) e
  | 1%nat => store_filled_qty (f4_qty f) e
  | 2%nat => store_timestamp_out (f4_time f) e
  | _ => store_handled_by (f4_engine f) e
  end.
Definition fill_next (f : Fill4) : option Fill4 :=
  if (f4_done f <? 3)%nat then Some (mkFill4 (S (f4_done f)) (f4_engine f) (f4_time f) (f4_price f) (f4_qty f)) else None.

(** Where a worker is in the body of [worker_loop]. *)
Inductive WorkerPc :=
| WIdle
| WGot (p : Arc)
| WClaim (p : Arc)
| WApply (p : Arc)
| WStore (p : Arc) (f : Fill4)
| WRemove (p : Arc).

Record Worker := mkWorker { w_pc : WorkerPc; w_books : gmap Z OrderBook }.

Definition worker_access (now_ns : Z) (sh : Shared) (w : Worker) : option (Shared * Worker) :=
  let goto pc := mkWorker pc (w_books w) in
  match w_pc w with
  | WIdle => match sh_chan sh with [] => None | p :: c => Some (sh_set_chan c sh, goto (WGot p)) end
  | WGot p => Some (sh, goto (if bool_decide (status_of (sh_heap sh) p <> Unaddressed) then WIdle else WClaim p))
  | WClaim p =>
      let '(won, h) := arc_claim Unaddressed FinallyHandled p (sh_heap sh) in
      Some (sh_set_heap h sh, goto (if won then WApply p else WIdle))
  | WApply p =>
      match sh_heap sh !! p with
      | Some e =>
          match apply_escalated e (w_books w) with
          | Val (fill_price, filled_qty, _, books) =>
              Some (sh, mkWorker (WStore p (mkFill4 0 2 now_ns fill_price filled_qty)) books)
          | _ => None
          end
      | None => None
      end
  | WStore p f =>
      Some (sh_set_heap (arc_update (fill_store f) p (sh_heap sh)) sh,
            goto (match fill_next f with Some f => WStore p f | None => WRemove p end))
  | WRemove p => Some (sh_set_ring (ring_remove (seq_of (sh_heap sh) p) (sh_ring sh)).2 sh, goto WIdle)
  end.

(** A primary engine: recording the fill of an entry it has claimed. *)
Abbreviation PrimaryPc := (option (Arc * Fill4)).

(** ** The system *)

Record Sys := mkSys {
  sy_sh : Shared;
  sy_last_seq : Z;                      (** the dual log's last assigned number *)
  sy_sorters : list SorterPc;
  sy_workers : list Worker;
  sy_primaries : list PrimaryPc;
  sy_claims : list (Z * Arc)            (** history: which engine claimed which entry *)
}.

Definition sy_init (sorters workers primaries : nat) (books : gmap Z OrderBook) : Sys :=
  mkSys (mkShared [] PendingRing_new [] workers) 0 (replicate sorters SIdle)
    (replicate workers (mkWorker WIdle books)) (replicate primaries None) [].

(** The claim a worker's access has won. *)
Definition worker_claims (pc pc' : WorkerPc) : list (Z * Arc) :=
  match pc, pc' with WClaim p, WApply _ => [(2, p)] | _, _ => [] end.

Inductive sys_step (s : Sys) : Sys -> Prop :=
| step_write seq term ts cmd :
    sy_last_seq s < seq ->
    let '(p, h) := arc_new (LogEntry_new hash_command seq term ts cmd) (sh_heap (sy_sh s)) in
    sys_step s (mkSys (sh_set_ring (ring_push h p (sh_ring (sy_sh s))) (sh_set_heap h (sy_sh s)))
      seq (sy_sorters s) (sy_workers s) (sy_primaries s) (sy_claims s))
| step_scan i now_ns mon :
    sy_sorters s !! i = Some SIdle ->
    sys_step s (mkSys (sy_sh s) (sy_last_seq s)
      (<[i := SNext now_ns (adaptive_timeout mon) (ring_snapshot (sh_ring (sy_sh s)))]> (sy_sorters s))
      (sy_workers s) (sy_primaries s) (sy_claims s))
| step_sorter i pc sh' pc' :
    sy_sorters s !! i = Some pc -> sorter_access (sy_sh s) pc = Some (sh', pc') ->
    sys_step s (mkSys sh' (sy_last_seq s) (<[i := pc']> (sy_sorters s)) (sy_workers s) (sy_primaries s) (sy_claims s))
| step_worker i now_ns w sh' w' :
    sy_workers s !! i = Some w -> worker_access now_ns (sy_sh s) w = Some (sh', w') ->
    sys_step s (mkSys sh' (sy_last_seq s) (sy_sorters s) (<[i := w']> (sy_workers s)) (sy_primaries s)
      (sy_claims s ++ worker_claims (w_pc w) (w_pc w')))
| step_primary_claim i p h ts price qty :
    sy_primaries s !! i = Some None -> arc_claim Pending Addressed p (sh_heap (sy_sh s)) = (true, h) ->
    sys_step s (mkSys (sh_set_heap h (sy_sh s)) (sy_last_seq s) (sy_sorters s) (sy_workers s)
      (<[i := Some (p, mkFill4 0 1 ts price qty)]> (sy_primaries s)) (sy_claims s ++ [(1, p)]))
| step_primary_store i p f :
    sy_primaries s !! i = Some (Some (p, f)) ->
    sys_step s (mkSys (sh_set_heap (arc_update (fill_store f) p (sh_heap (sy_sh s))) (sy_sh s)) (sy_last_seq s)
      (sy_sorters s) (sy_workers s) (<[i := option_map (pair p) (fill_next f)]> (sy_primaries s)) (sy_claims s))
| step_gc :
    sys_step s (mkSys (sh_set_ring (gc_terminal (sh_heap (sy_sh s)) (sh_ring (sy_sh s))).2 (sy_sh s))
      (sy_last_seq s) (sy_sorters s) (sy_workers s) (sy_primaries s) (sy_claims s)).

(** ** The places an escalated entry can be *)

Definition sorter_holds (pc : SorterPc) : list Arc := match pc with SSend _ _ p _ => [p] | _ => [] end.
Definition worker_holds (w : Worker) : list Arc := match w_pc w with WGot p | WClaim p => [p] | _ => [] end.
Definition places (s : Sys) : list Arc :=
  sh_chan (sy_sh s) ++ (sy_sorters s ≫= sorter_holds) ++ (sy_workers s ≫= worker_holds).

(** The entries whose fill a thread is still recording. *)
Definition worker_records (w : Worker) : list Arc := match w_pc w with WApply p | WStore p _ => [p] | _ => [] end.
Definition primary_records (pc : PrimaryPc) : list Arc := match pc with Some (p, _) => [p] | None => [] end.
Definition recorders (s : Sys) : list Arc := (sy_workers s ≫= worker_records) ++ (sy_primaries s ≫= primary_records).

Definition handled_of (h : Heap) (p : Arc) : Z := from_option en_handled_by 0 (h !! p).

(** ** The invariant *)

(** A sorter that has read a terminal status is about to drop that entry. *)
Definition sorter_ok (h : Heap) (pc : SorterPc) : Prop :=
  match pc with SAct _ _ st _ p _ => is_terminal st = true -> status_of h p = st | _ => True end.
Definition fill_ok (f : Fill4) : Prop := f4_engine f <> 0.
Definition worker_ok (h : Heap) (w : Worker) : Prop :=
  match w_pc w with
  | WStore p f => fill_ok f
  | WRemove p => is_terminal (status_of h p) = true
  | _ => True
  end.
Definition primary_ok (pc : PrimaryPc) : Prop := match pc with Some (_, f) => fill_ok f | None => True end.

(** What holds of the statuses [st], sequence numbers [sq] and handlers [hd] of
    the [n] entries, the ring, the places, the recorders and the claims. *)
Record core (n : nat) (st : Arc -> OrderStatus) (sq hd : Arc -> Z) (ring : Z -> Arc -> Prop)
    (pl rc : list Arc) (cl : list (Z * Arc)) (last : Z) : Prop := {
  co_places_nodup : NoDup pl;
  co_places p : p ∈ pl <-> st p = Unaddressed;
  co_claims_nodup : NoDup cl.*2;
  co_claims1 p : (1, p) ∈ cl <-> st p = Addressed;
  co_claims2 p : (2, p) ∈ cl <-> st p = FinallyHandled;
  co_claims_by x : x ∈ cl -> x.1 = 1 \/ x.1 = 2;
  co_rec_nodup : NoDup rc;
  co_rec p : p ∈ rc -> is_terminal (st p) = true /\ hd p = 0;
  co_unhandled p : is_terminal (st p) = false -> hd p = 0;
  co_range p : st p <> Pending -> (p < n)%nat;
  co_seq i j : (i < j < n)%nat -> sq i < sq j;
  co_seq_last p : (p < n)%nat -> sq p <= last;
  co_ring_key k p : ring k p -> (p < n)%nat /\ sq p = k;
  co_ring p : (p < n)%nat -> is_terminal (st p) = false -> ring (sq p) p
}.

Record sys_inv (s : Sys) : Prop := {
  si_core : core (length (sh_heap (sy_sh s))) (status_of (sh_heap (sy_sh s))) (seq_of (sh_heap (sy_sh s)))
    (handled_of (sh_heap (sy_sh s))) (in_ring (sh_ring (sy_sh s))) (places s) (recorders s) (sy_claims s) (sy_last_seq s);
  si_status : Forall status_ok (sh_heap (sy_sh s));
  si_sorters : Forall (sorter_ok (sh_heap (sy_sh s))) (sy_sorters s);
  si_workers : Forall (worker_ok (sh_heap (sy_sh s))) (sy_workers s);
  si_primaries : Forall primary_ok (sy_primaries s);
  si_receivers : sh_receivers (sy_sh s) <> 0%nat
}.

(** ** Effects on the core *)

Section Core.
Context (n : nat) (st : Arc -> OrderStatus) (sq hd : Arc -> Z) (ring : Z -> Arc -> Prop)
  (pl rc : list Arc) (cl : list (Z * Arc)) (last : Z) (Hc : core n st sq hd ring pl rc cl last).

Lemma core_move (ring' : Z -> Arc -> Prop) pl' rc' :
  pl' ≡ₚ pl -> rc' ≡ₚ rc -> (forall k p, ring' k p -> ring k p) ->
  (forall p, is_terminal (st p) = false -> ring (sq p) p -> ring' (sq p) p) ->
  core n st sq hd ring' pl' rc' cl last.
Proof.
  intros Hp Hr Hsub Hkeep. destruct Hc. split; try done.
  - by rewrite Hp.
  - intros p. by rewrite Hp.
  - by rewrite Hr.
  - intros p. rewrite Hr. auto.
  - eauto.
  - eauto.
Qed.

(** The status of one entry changes. *)
Context (p : Arc) (to : OrderStatus) (st' : Arc -> OrderStatus) (Hp : (p < n)%nat)
  (Hto : st' p = to) (Hoth : forall q, q <> p -> st' q = st q).

Lemma core_escalate pl' :
  to = Unaddressed -> st p = Pending -> pl' ≡ₚ p :: pl -> core n st' sq hd ring pl' rc cl last.
Proof.
  intros -> Hst Hpl. destruct Hc. assert (Hni : p ∉ pl) by (rewrite co_places0; congruence). split; try done.
  - rewrite Hpl. by constructor.
  - intros q. rewrite Hpl, elem_of_cons, co_places0. destruct (decide (q = p)) as [-> |]; [rewrite Hto; tauto|].
    rewrite Hoth by done. tauto.
  - intros q. rewrite co_claims3. destruct (decide (q = p)) as [-> |]; [by rewrite Hto, Hst|by rewrite Hoth].
  - intros q. rewrite co_claims4. destruct (decide (q = p)) as [-> |]; [by rewrite Hto, Hst|by rewrite Hoth].
  - intros q Hq. destruct (co_rec0 q Hq) as [Ht ?]. rewrite Hoth; [done|]. intros ->. by rewrite Hst in Ht.
  - intros q Hq. apply co_unhandled0. destruct (decide (q = p)) as [-> |]; [by rewrite Hst|by rewrite <- Hoth].
  - intros q Hq. destruct (decide (q = p)) as [-> |]; [done|]. apply co_range0. by rewrite <- Hoth.
  - intros q Hq Ht. apply co_ring0; [done|]. destruct (decide (q = p)) as [-> |]; [by rewrite Hst|by rewrite <- Hoth].
Qed.

(** An entry is claimed by engine [k] for good. *)
Lemma core_claim k pl' rc' :
  (k = 1 /\ to = Addressed /\ st p = Pending /\ pl' ≡ₚ pl) \/ (k = 2 /\ to = FinallyHandled /\ st p = Unaddressed /\ pl ≡ₚ p :: pl') ->
  rc' ≡ₚ p :: rc -> core n st' sq hd ring pl' rc' (cl ++ [(k, p)]) last.
Proof.
  intros Hk Hrc. destruct Hc.
  assert (Hnt : is_terminal (st p) = false) by (destruct Hk as [(_ & _ & -> & _)|(_ & _ & -> & _)]; done).
  assert (Hterm : is_terminal to = true) by (destruct Hk as [(_ & -> & _)|(_ & -> & _)]; done).
  assert (Hncl : forall j, (j, p) ∉ cl).
  { intros j Hj. destruct (co_claims_by0 _ Hj) as [E|E]; simpl in E; subst j;
      [apply co_claims3 in Hj|apply co_claims4 in Hj]; by rewrite Hj in Hnt. }
  assert (Hcl : forall j q to', (j = 1 /\ to' = Addressed) \/ (j = 2 /\ to' = FinallyHandled) ->
    ((j, q) ∈ cl <-> st q = to') -> (j, q) ∈ cl ++ [(k, p)] <-> st' q = to').
  { intros j q to' Hj Hiff. rewrite elem_of_app, list_elem_of_singleton. destruct (decide (q = p)) as [-> |].
    - rewrite Hto. destruct Hk as [(-> & -> & _)|(-> & -> & _)], Hj as [(-> & ->)|(-> & ->)];
        split; try done; try tauto; intros [Hj|[=]]; by apply Hncl in Hj.
    - rewrite Hoth, <- Hiff by done. split; [intros [?|[=]]; [done|congruence]|by left]. }
  split; try done.
  - destruct Hk as [(_ & _ & _ & E)|(_ & _ & _ & E)]; [by rewrite E|]. rewrite E in co_places_nodup0. by apply NoDup_cons in co_places_nodup0 as [_ ?].
  - intros q. destruct Hk as [(_ & -> & Hst & E)|(_ & -> & Hst & E)].
    + rewrite E, co_places0. destruct (decide (q = p)) as [-> |]; [by rewrite Hto, Hst|by rewrite Hoth].
    + rewrite E in co_places_nodup0. apply NoDup_cons in co_places_nodup0 as [Hnp _].
      destruct (decide (q = p)) as [-> |]; [by rewrite Hto|]. rewrite Hoth, <- co_places0, E, elem_of_cons by done. tauto.
  - rewrite fmap_app. apply NoDup_app. split_and!; [done| |apply NoDup_singleton].
    intros q Hq Hq'. apply list_elem_of_singleton in Hq'. simpl in Hq'. subst q.
    apply list_elem_of_fmap in Hq as ([j q] & Hq & Hin). simpl in Hq. subst q. by apply Hncl in Hin.
  - intros q. apply Hcl; [by left|done].
  - intros q. apply Hcl; [by right|done].
  - intros x [Hx|Hx]%elem_of_app; [by apply co_claims_by0|]. apply list_elem_of_singleton in Hx. subst x.
    destruct Hk as [(-> & _)|(-> & _)]; auto.
  - rewrite Hrc. constructor; [|done]. intros [Ht _]%co_rec0. congruence.
  - intros q. rewrite Hrc, elem_of_cons. intros [-> |Hq]; [rewrite Hto; auto|].
    destruct (co_rec0 q Hq) as [Ht ?]. destruct (decide (q = p)) as [-> |]; [by rewrite Hnt in Ht|]. by rewrite Hoth.
  - intros q Hq. destruct (decide (q = p)) as [-> |]; [auto|]. apply co_unhandled0. by rewrite <- Hoth.
  - intros q Hq. destruct (decide (q = p)) as [-> |]; [done|]. apply co_range0. by rewrite <- Hoth.
  - intros q Hq Ht. apply co_ring0; [done|]. destruct (decide (q = p)) as [-> |]; [done|by rewrite <- Hoth].
Qed.
End Core.

(** The last store of [record_fill]. *)
Lemma core_recorded n st sq hd hd' ring pl rc rc' cl last p :
  core n st sq hd ring pl rc cl last -> rc ≡ₚ p :: rc' -> (forall q, q <> p -> hd' q = hd q) ->
  core n st sq hd' ring pl rc' cl last.
Proof.
  intros Hc Hrc Hoth. destruct Hc. rewrite Hrc in co_rec_nodup0. apply NoDup_cons in co_rec_nodup0 as [Hnp Hnd].
  assert (Hterm : is_terminal (st p) = true) by (apply co_rec0; rewrite Hrc; by left).
  split; try done.
  - intros q Hq. rewrite Hoth by (by intros ->). apply co_rec0. rewrite Hrc. by right.
  - intros q Hq. rewrite Hoth by (intros ->; congruence). auto.
Qed.

(** A new entry. *)
Lemma core_write n st st' sq sq' hd hd' (ring ring' : Z -> Arc -> Prop) pl rc cl last :
  core n st sq hd ring pl rc cl last -> last < sq' n ->
  (forall q, st' q = st q) -> st n = Pending -> (forall q, hd' q = hd q) ->
  (forall q, (q < n)%nat -> sq' q = sq q) ->
  (forall k q, ring' k q <-> (k = sq' n /\ q = n) \/ (ring k q /\ k <> sq' n)) ->
  core (S n) st' sq' hd' ring' pl rc cl (sq' n).
Proof.
  intros Hc Hlt Hst Hn Hhd Hsq Hring. destruct Hc. split; try done.
  - intros q. by rewrite Hst.
  - intros q. by rewrite Hst.
  - intros q. by rewrite Hst.
  - intros q. rewrite Hst, Hhd. auto.
  - intros q. rewrite Hst, Hhd. auto.
  - intros q. rewrite Hst. intros ?%co_range0. lia.
  - intros i j Hij. destruct (decide (j = n)) as [-> |].
    + rewrite (Hsq i) by lia. pose proof (co_seq_last0 i ltac:(lia)). lia.
    + rewrite !Hsq by lia. apply co_seq0. lia.
  - intros q Hq. destruct (decide (q = n)) as [-> |]; [lia|]. rewrite Hsq by lia.
    pose proof (co_seq_last0 q ltac:(lia)). lia.
  - intros k q [[-> ->]|[Hin _]]%Hring; [split; [lia|done]|]. destruct (co_ring_key0 _ _ Hin). split; [lia|].
    by rewrite Hsq by lia.
  - intros q Hq. rewrite Hst. intros Ht. apply Hring. destruct (decide (q = n)) as [-> |]; [by left|]. right.
    rewrite Hsq by lia. split; [apply co_ring0; [lia|done]|]. pose proof (co_seq_last0 q ltac:(lia)). lia.
Qed.

(** ** Lists of threads *)

Section Bind.
Context {A : Type} (f : A -> list Arc).
Implicit Types (l : list A).

Lemma bind_insert l i x y : l !! i = Some x -> (<[i := y]> l ≫= f) ++ f x ≡ₚ (l ≫= f) ++ f y.
Proof.
  intros Hi. rewrite insert_take_drop by (by eapply lookup_lt_Some).
  rewrite <- (take_drop_middle l i x Hi) at 3. rewrite !bind_app, !bind_cons.
  rewrite <- !app_assoc. apply Permutation_app_head. rewrite (Permutation_app_comm (f y)), (Permutation_app_comm (f x)).
  rewrite <- !app_assoc. apply Permutation_app_head, Permutation_app_comm.
Qed.

Lemma bind_insert_same l i x y : l !! i = Some x -> f y = f x -> <[i := y]> l ≫= f ≡ₚ l ≫= f.
Proof. intros Hi E. apply (Permutation_app_inv_r (f x)). by rewrite (bind_insert l i x y Hi), E. Qed.

Lemma bind_insert_add l i x y p : l !! i = Some x -> f x = [] -> f y = [p] -> <[i := y]> l ≫= f ≡ₚ p :: (l ≫= f).
Proof.
  intros Hi E1 E2. pose proof (bind_insert l i x y Hi) as H. rewrite E1, E2, app_nil_r in H.
  rewrite H. apply Permutation_app_comm.
Qed.

Lemma bind_insert_del l i x y p : l !! i = Some x -> f x = [p] -> f y = [] -> l ≫= f ≡ₚ p :: (<[i := y]> l ≫= f).
Proof.
  intros Hi E1 E2. pose proof (bind_insert l i x y Hi) as H. rewrite E1, E2, app_nil_r in H.
  rewrite <- H. symmetry. apply Permutation_cons_append.
Qed.
End Bind.

(** ** Every step keeps the invariant *)

Context {SKL : SkipMapLaws SK}.

(** Handled entries stay as they are. *)
Definition stable (h h' : Heap) : Prop :=
  forall p, is_terminal (status_of h p) = true -> status_of h' p = status_of h p.

Lemma sorters_stable h h' l : stable h h' -> Forall (sorter_ok h) l -> Forall (sorter_ok h') l.
Proof.
  intros Hs Hl. eapply Forall_impl; [exact Hl|]. intros [| |now t st age p rest|]; try done. simpl. intros Hok Ht.
  specialize (Hok Ht). rewrite Hs; [done|]. by rewrite Hok.
Qed.

Lemma workers_stable h h' l : stable h h' -> Forall (worker_ok h) l -> Forall (worker_ok h') l.
Proof.
  intros Hs Hl. eapply Forall_impl; [exact Hl|]. intros [[] bk]; try done. simpl. unfold worker_ok. simpl. intros Hok. by rewrite Hs.
Qed.

Lemma stable_same h h' : (forall p, status_of h' p = status_of h p) -> stable h h'.
Proof. intros H p _. apply H. Qed.

Lemma stable_claim h p e to :
  h !! p = Some e -> is_terminal (load_status e) = false -> stable h (<[p := store_status (status_to_u8 to) e]> h).
Proof.
  intros He Hn q Hq. rewrite status_of_insert by (by eapply lookup_lt_Some). case_decide as E; [|done]. subst.
  unfold status_of in Hq. rewrite He in Hq. simpl in Hq. congruence.
Qed.

Lemma status_ok_insert h p e : Forall status_ok h -> status_ok e -> Forall status_ok (<[p := e]> h).
Proof. intros. by apply Forall_insert. Qed.

(** The effect of a won claim on the views. *)
Lemma claim_views h p e to :
  h !! p = Some e ->
  let h' := <[p := store_status (status_to_u8 to) e]> h in
  length h' = length h /\ status_of h' p = to /\ (forall q, q <> p -> status_of h' q = status_of h q)
  /\ (forall q, seq_of h' q = seq_of h q) /\ (forall q, handled_of h' q = handled_of h q).
Proof.
  intros He h'. assert (Hp : (p < length h)%nat) by (by eapply lookup_lt_Some). split_and!.
  - apply length_insert.
  - unfold h'. rewrite status_of_insert, decide_True by done. apply load_store_status.
  - intros q Hq. unfold h'. by rewrite status_of_insert, decide_False by done.
  - intros q. by eapply seq_of_insert.
  - intros q. unfold handled_of, h'. destruct (decide (q = p)) as [-> |]; [|by rewrite list_lookup_insert_ne].
    rewrite list_lookup_insert_eq, He by done. done.
Qed.

(** [core] only looks at the values of its functions. *)
Lemma core_ext n n' st st' sq sq' hd hd' ring ring' pl rc cl last :
  core n st sq hd ring pl rc cl last -> n' = n -> (forall q, st' q = st q) -> (forall q, sq' q = sq q) ->
  (forall q, hd' q = hd q) -> (forall k q, ring' k q <-> ring k q) -> core n' st' sq' hd' ring' pl rc cl last.
Proof.
  intros Hc -> Hst Hsq Hhd Hr. destruct Hc. split; try done.
  1,2,3: intros q; by rewrite Hst.
  - intros q. rewrite Hst, Hhd. auto.
  - intros q. rewrite Hst, Hhd. auto.
  - intros q. rewrite Hst. auto.
  - intros i j. rewrite !Hsq. auto.
  - intros q. rewrite Hsq. auto.
  - intros k q ?%Hr. rewrite Hsq. auto.
  - intros q. rewrite Hst, Hsq. intros. apply Hr. auto.
Qed.

(** A step of [record_fill] on a claimed entry. *)
Lemma fill_views f p h :
  let h' := arc_update (fill_store f) p h in
  length h' = length h /\ (forall q, status_of h' q = status_of h q) /\ (forall q, seq_of h' q = seq_of h q)
  /\ (forall q, q <> p -> handled_of h' q = handled_of h q)
  /\ (fill_next f <> None -> handled_of h' p = handled_of h p)
  /\ (Forall status_ok h -> Forall status_ok h').
Proof.
  intros h'. unfold h', arc_update.
  assert (Hf : forall e, en_status (fill_store f e) = en_status e /\ en_seq (fill_store f e) = en_seq e).
  { intros e. unfold fill_store. destruct (f4_done f) as [|[|[|]]]; done. }
  split_and!.
  - apply length_alter.
  - intros q. unfold status_of, load_status. destruct (decide (q = p)) as [-> |]; [|by rewrite list_lookup_alter_ne].
    rewrite list_lookup_alter_eq. destruct (h !! p) as [e|]; [|done]. simpl. by rewrite (proj1 (Hf e)).
  - intros q. unfold seq_of. destruct (decide (q = p)) as [-> |]; [|by rewrite list_lookup_alter_ne].
    rewrite list_lookup_alter_eq. destruct (h !! p) as [e|]; [|done]. simpl. by rewrite (proj2 (Hf e)).
  - intros q Hq. unfold handled_of. by rewrite list_lookup_alter_ne.
  - unfold fill_next. destruct (Nat.ltb_spec (f4_done f) 3) as [Hd|]; [|done]. intros _. unfold handled_of.
    rewrite list_lookup_alter_eq. destruct (h !! p) as [e|]; [|done]. simpl. unfold fill_store.
    destruct (f4_done f) as [|[|[|]]]; try done. lia.
  - intros Hok. rewrite Forall_lookup in *. intros q e. destruct (decide (q = p)) as [-> |].
    + rewrite list_lookup_alter_eq. destruct (h !! p) as [e0|] eqn:E; [|done]. intros [= <-].
      unfold status_ok, load_status. rewrite (proj1 (Hf e0)). by apply Hok in E.
    + rewrite list_lookup_alter_ne by done. apply Hok.
Qed.

#[local] Ltac sys_fields :=
  cbn [sy_sh sy_last_seq sy_sorters sy_workers sy_primaries sy_claims sh_heap sh_ring sh_chan sh_receivers
       sh_set_heap sh_set_ring sh_set_chan] in *.

Lemma Forall_insert' {A} (P : A -> Prop) (l : list A) i x : Forall P l -> P x -> Forall P (<[i := x]> l).
Proof. intros. by apply Forall_insert. Qed.

Lemma inv_write s seq term ts cmd :
  sys_inv s -> sy_last_seq s < seq ->
  let '(p, h) := arc_new (LogEntry_new hash_command seq term ts cmd) (sh_heap (sy_sh s)) in
  sys_inv (mkSys (sh_set_ring (ring_push h p (sh_ring (sy_sh s))) (sh_set_heap h (sy_sh s)))
    seq (sy_sorters s) (sy_workers s) (sy_primaries s) (sy_claims s)).
Proof.
  intros [Hc Hok Hss Hws Hps Hrx] Hlt. unfold arc_new. set (h := sh_heap (sy_sh s)) in *.
  set (e := LogEntry_new hash_command seq term ts cmd).
  assert (Hlast : (h ++ [e]) !! length h = Some e) by (by rewrite lookup_app_r, Nat.sub_diag).
  assert (Hother : forall {B} (g : LogEntry -> B) (d : B) q, g e = d -> from_option g d ((h ++ [e]) !! q) = from_option g d (h !! q)).
  { intros B g d q Hg. destruct (decide (q < length h)%nat); [by rewrite lookup_app_l|].
    rewrite (lookup_ge_None_2 h) by lia. destruct (decide (q = length h)) as [-> |]; [by rewrite Hlast|].
    rewrite lookup_ge_None_2; [done|]. rewrite length_app. simpl. lia. }
  assert (Hst : forall q, status_of (h ++ [e]) q = status_of h q) by (intros q; by apply Hother).
  assert (Hseq : seq_of (h ++ [e]) (length h) = seq) by (unfold seq_of; by rewrite Hlast).
  split; sys_fields; fold h.
  - rewrite length_app, Nat.add_1_r. rewrite <- Hseq.
    eapply (core_write _ _ _ _ _ _ _ _ _ _ _ _ _ Hc); [by rewrite Hseq|done| | | |].
    + unfold status_of. by rewrite lookup_ge_None_2.
    + intros q. by apply Hother.
    + intros q Hq. unfold seq_of. by rewrite lookup_app_l.
    + intros k q. rewrite in_ring_push. done.
  - apply Forall_app. split; [done|]. by repeat constructor.
  - by eapply sorters_stable; [apply stable_same|].
  - by eapply workers_stable; [apply stable_same|].
  - done.
  - done.
Qed.

Lemma inv_scan s i now_ns timeout rest :
  sys_inv s -> sy_sorters s !! i = Some SIdle ->
  sys_inv (mkSys (sy_sh s) (sy_last_seq s) (<[i := SNext now_ns timeout rest]> (sy_sorters s))
    (sy_workers s) (sy_primaries s) (sy_claims s)).
Proof.
  intros [Hc Hok Hss Hws Hps Hrx] Hi. split; sys_fields; try done; [|by apply Forall_insert'].
  eapply core_move; [exact Hc| |done|done|done]. unfold places. sys_fields.
  by rewrite (bind_insert_same sorter_holds _ _ _ _ Hi).
Qed.

(** A step that only drops a handled entry from the ring, or nothing. *)
Lemma core_ring_remove n h r pl rc cl last p :
  core n (status_of h) (seq_of h) (handled_of h) (in_ring r) pl rc cl last -> is_terminal (status_of h p) = true ->
  core n (status_of h) (seq_of h) (handled_of h) (in_ring (ring_remove (seq_of h p) r).2) pl rc cl last.
Proof.
  intros Hc Ht. eapply core_move; [exact Hc|done|done| |].
  - by intros k q [? _]%in_ring_remove.
  - intros q Hq Hin. apply in_ring_remove. split; [done|]. intros E.
    assert (Hp : (p < n)%nat). { apply (co_range _ _ _ _ _ _ _ _ _ Hc). intros E'. by rewrite E' in Ht. }
    destruct (co_ring_key _ _ _ _ _ _ _ _ _ Hc _ _ Hin) as [Hqn _].
    assert (q = p) as ->; [|congruence]. destruct (Nat.lt_trichotomy q p) as [Hlt|[?|Hlt]]; [|done|].
    + pose proof (co_seq _ _ _ _ _ _ _ _ _ Hc q p ltac:(lia)). lia.
    + pose proof (co_seq _ _ _ _ _ _ _ _ _ Hc p q ltac:(lia)). lia.
Qed.

Lemma inv_sorter s i pc sh' pc' :
  sys_inv s -> sy_sorters s !! i = Some pc -> sorter_access (sy_sh s) pc = Some (sh', pc') ->
  sys_inv (mkSys sh' (sy_last_seq s) (<[i := pc']> (sy_sorters s)) (sy_workers s) (sy_primaries s) (sy_claims s)).
Proof.
  intros [Hc Hok Hss Hws Hps Hrx] Hi Ha.
  assert (Hpc : sorter_ok (sh_heap (sy_sh s)) pc) by (rewrite Forall_lookup in Hss; eauto).
  assert (Hquiet : forall pc', sorter_holds pc' = sorter_holds pc -> sorter_ok (sh_heap (sy_sh s)) pc' ->
    sys_inv (mkSys (sy_sh s) (sy_last_seq s) (<[i := pc']> (sy_sorters s)) (sy_workers s) (sy_primaries s) (sy_claims s))).
  { intros pc2 Hh Hok2. split; sys_fields; try done; [|by apply Forall_insert']. eapply core_move; [exact Hc| |done|done|done].
    unfold places. sys_fields. by rewrite (bind_insert_same sorter_holds _ _ _ pc2 Hi Hh). }
  assert (Hremove : forall now t st age p rest, pc = SAct now t st age p rest -> is_terminal st = true ->
    sys_inv (mkSys (sh_set_ring (ring_remove (seq_of (sh_heap (sy_sh s)) p) (sh_ring (sy_sh s))).2 (sy_sh s))
      (sy_last_seq s) (<[i := SNext now t rest]> (sy_sorters s)) (sy_workers s) (sy_primaries s) (sy_claims s))).
  { intros now t st age p rest -> Ht. split; sys_fields; try done; [|by apply Forall_insert'].
    eapply core_move; [eapply (core_ring_remove _ _ _ _ _ _ _ p Hc); by rewrite (Hpc Ht)| |done|done|done].
    unfold places. sys_fields. by rewrite (bind_insert_same sorter_holds _ _ _ _ Hi). }
  destruct pc as [|now t [|p rest]|now t st age p rest|now t p rest]; cbn [sorter_access] in Ha; [done| | | |].
  - simplify_eq. by apply Hquiet.
  - destruct (sh_heap (sy_sh s) !! p) as [e|] eqn:He; simplify_eq; apply Hquiet; try done.
    intros _. unfold status_of. by rewrite He.
  - destruct st; [destruct (t <? age)| | |]; simplify_eq; try (by apply Hquiet).
    + destruct (arc_claim Pending Unaddressed p (sh_heap (sy_sh s))) as [won h] eqn:Hcl. simplify_eq.
      destruct (arc_claim_spec _ _ _ _ _ _ Hok Hcl) as [(-> & e & He & Hst & ->)|(-> & -> & _)].
      2:{ destruct (sy_sh s) as [h0 r0 c0 x0] eqn:Esh. sys_fields. by apply Hquiet. }
      destruct (claim_views _ _ _ Unaddressed He) as (Hl & Hto & Hoth & Hsq & Hhd).
      assert (Hp : (p < length (sh_heap (sy_sh s)))%nat) by (by eapply lookup_lt_Some).
      assert (Hst' : status_of (sh_heap (sy_sh s)) p = Pending) by (unfold status_of; by rewrite He).
      split; sys_fields; [|by apply status_ok_insert, status_ok_store|apply Forall_insert'; [|done]| |done|done].
      * eapply core_ext; [eapply (core_escalate _ _ _ _ _ _ _ _ _ Hc p Unaddressed); try done|..]; try done.
        unfold places. sys_fields. rewrite (bind_insert_add sorter_holds _ _ _ (SSend now t p rest) p Hi) by done.
        cbn [app]. by rewrite <- Permutation_middle.
      * eapply sorters_stable; [|done]. eapply stable_claim; [done|]. by rewrite Hst.
      * eapply workers_stable; [|done]. eapply stable_claim; [done|]. by rewrite Hst.
    + by eapply Hremove.
    + by eapply Hremove.
  - simplify_eq. unfold chan_send. rewrite (proj2 (Nat.eqb_neq _ _) Hrx).
    split; sys_fields; try done; [|by apply Forall_insert']. eapply core_move; [exact Hc| |done|done|done].
    unfold places. sys_fields. rewrite (bind_insert_del sorter_holds _ _ _ (SNext now t rest) p Hi) by done.
    rewrite <- app_assoc. by apply Permutation_app_head.
Qed.

(** A store of [record_fill]: [rc'] are the recorders after it. *)
Lemma core_fill n h r pl rc rc' cl last p f :
  core n (status_of h) (seq_of h) (handled_of h) (in_ring r) pl rc cl last ->
  (fill_next f <> None /\ rc' ≡ₚ rc) \/ rc ≡ₚ p :: rc' ->
  let h' := arc_update (fill_store f) p h in
  core n (status_of h') (seq_of h') (handled_of h') (in_ring r) pl rc' cl last.
Proof.
  intros Hc Hrc h'. destruct (fill_views f p h) as (_ & Hst & Hsq & Hoth & Hsame & _). fold h' in Hst, Hsq, Hoth, Hsame.
  destruct Hrc as [[Hn Hrc]|Hrc].
  - eapply core_ext; [eapply (core_move _ _ _ _ _ _ _ _ _ Hc (in_ring r) pl rc'); done|done|done|done| |done].
    intros q. destruct (decide (q = p)) as [-> |]; [by apply Hsame|by apply Hoth].
  - eapply core_ext; [by eapply (core_recorded _ _ _ _ (handled_of h') _ _ _ _ _ _ p Hc)|done..].
Qed.

Lemma fill_next_ok f f' : fill_next f = Some f' -> fill_ok f -> fill_ok f'.
Proof. unfold fill_next. destruct (_ <? _)%nat; [|done]. by intros [= <-]. Qed.

(** A worker that goes on with the same entry in hand. *)
Lemma inv_worker_quiet s i w w' :
  sys_inv s -> sy_workers s !! i = Some w -> worker_holds w' = worker_holds w -> worker_records w' = worker_records w ->
  worker_ok (sh_heap (sy_sh s)) w' ->
  sys_inv (mkSys (sy_sh s) (sy_last_seq s) (sy_sorters s) (<[i := w']> (sy_workers s)) (sy_primaries s) (sy_claims s)).
Proof.
  intros [Hc Hok Hss Hws Hps Hrx] Hi Hh Hr Hw. split; sys_fields; try done; [|by apply Forall_insert'].
  eapply core_move; [exact Hc| | |done|done].
  - unfold places. sys_fields. by rewrite (bind_insert_same worker_holds _ _ _ w' Hi).
  - unfold recorders. sys_fields. by rewrite (bind_insert_same worker_records _ _ _ w' Hi).
Qed.

Lemma held_unaddressed s i w p :
  sys_inv s -> sy_workers s !! i = Some w -> worker_holds w = [p] -> status_of (sh_heap (sy_sh s)) p = Unaddressed.
Proof.
  intros Hs Hi Hp. apply (co_places _ _ _ _ _ _ _ _ _ (si_core s Hs)). unfold places. rewrite !elem_of_app. right. right.
  apply list_elem_of_bind. exists w. split; [rewrite Hp; by left|by eapply list_elem_of_lookup_2].
Qed.

Lemma inv_worker_recv s i bk p c :
  sys_inv s -> sy_workers s !! i = Some (mkWorker WIdle bk) -> sh_chan (sy_sh s) = p :: c ->
  sys_inv (mkSys (sh_set_chan c (sy_sh s)) (sy_last_seq s) (sy_sorters s) (<[i := mkWorker (WGot p) bk]> (sy_workers s))
    (sy_primaries s) (sy_claims s)).
Proof.
  intros [Hc Hok Hss Hws Hps Hrx] Hi Hch.
  split; sys_fields; try done; [|by apply Forall_insert']. eapply core_move; [exact Hc| | |done|done].
  - unfold places. sys_fields. rewrite Hch, (bind_insert_add worker_holds _ _ _ (mkWorker (WGot p) bk) p Hi) by done.
    cbn [app]. rewrite !app_assoc. by rewrite <- Permutation_middle.
  - unfold recorders. sys_fields. by rewrite (bind_insert_same worker_records _ _ _ (mkWorker (WGot p) bk) Hi).
Qed.

Lemma inv_worker_claim s i bk p won h :
  sys_inv s -> sy_workers s !! i = Some (mkWorker (WClaim p) bk) ->
  arc_claim Unaddressed FinallyHandled p (sh_heap (sy_sh s)) = (won, h) ->
  won = true /\ sys_inv (mkSys (sh_set_heap h (sy_sh s)) (sy_last_seq s) (sy_sorters s)
    (<[i := mkWorker (WApply p) bk]> (sy_workers s)) (sy_primaries s) (sy_claims s ++ [(2, p)])).
Proof.
  intros Hs Hi Hcl. pose proof (held_unaddressed s i _ p Hs Hi eq_refl) as Hst. destruct Hs as [Hc Hok Hss Hws Hps Hrx].
  assert (Hp : (p < length (sh_heap (sy_sh s)))%nat) by (apply (co_range _ _ _ _ _ _ _ _ _ Hc); by rewrite Hst).
  destruct (arc_claim_spec _ _ _ _ _ _ Hok Hcl) as [(-> & e & He & Hes & ->)|(-> & -> & Hne)].
  2:{ destruct Hne; [by apply lookup_lt_is_Some|done]. }
  split; [done|]. destruct (claim_views _ _ _ FinallyHandled He) as (Hl & Hto & Hoth & Hsq & Hhd).
  split; sys_fields; [|by apply status_ok_insert, status_ok_store| |apply Forall_insert'; [|done]|done|done].
  - eapply core_ext; [eapply (core_claim _ _ _ _ _ _ _ _ _ Hc p FinallyHandled); try done|..]; try done.
    + right. split_and!; try done. unfold places. sys_fields.
      rewrite (bind_insert_del worker_holds _ _ _ (mkWorker (WApply p) bk) p Hi) by done.
      rewrite !app_assoc. by rewrite <- Permutation_middle.
    + unfold recorders. sys_fields. by rewrite (bind_insert_add worker_records _ _ _ (mkWorker (WApply p) bk) p Hi).
  - eapply sorters_stable; [|done]. eapply stable_claim; [done|]. by rewrite Hes.
  - eapply workers_stable; [|done]. eapply stable_claim; [done|]. by rewrite Hes.
Qed.

Lemma inv_worker_store s i bk p f :
  sys_inv s -> sy_workers s !! i = Some (mkWorker (WStore p f) bk) ->
  sys_inv (mkSys (sh_set_heap (arc_update (fill_store f) p (sh_heap (sy_sh s))) (sy_sh s)) (sy_last_seq s) (sy_sorters s)
    (<[i := mkWorker (match fill_next f with Some f => WStore p f | None => WRemove p end) bk]> (sy_workers s))
    (sy_primaries s) (sy_claims s)).
Proof.
  intros [Hc Hok Hss Hws Hps Hrx] Hi. set (w' := mkWorker _ bk).
  destruct (fill_views f p (sh_heap (sy_sh s))) as (Hl & Hst & _ & _ & _ & Hoks).
  assert (Hw : fill_ok f) by (rewrite Forall_lookup in Hws; exact (Hws _ _ Hi)).
  assert (Hrec : p ∈ recorders s).
  { unfold recorders. rewrite elem_of_app. left. apply list_elem_of_bind. exists (mkWorker (WStore p f) bk).
    split; [by left|by eapply list_elem_of_lookup_2]. }
  split; sys_fields; [|by apply Hoks| |apply Forall_insert'|done|done].
  - rewrite Hl. eapply (core_fill _ _ _ _ (recorders s)).
    + eapply core_move; [exact Hc| |done|done|done]. unfold places. sys_fields.
      rewrite (bind_insert_same worker_holds _ _ _ w' Hi); [done|]. unfold w'. by destruct (fill_next f).
    + unfold recorders, w'. sys_fields. destruct (fill_next f) as [f'|] eqn:Hn; [left|right].
      * split; [done|]. by rewrite (bind_insert_same worker_records _ _ _ (mkWorker (WStore p f') bk) Hi).
      * by rewrite (bind_insert_del worker_records _ _ _ (mkWorker (WRemove p) bk) p Hi).
  - eapply sorters_stable; [by apply stable_same|done].
  - eapply workers_stable; [by apply stable_same|done].
  - unfold worker_ok, w'. cbn [w_pc]. destruct (fill_next f) as [f'|] eqn:Hn; [by eapply fill_next_ok|].
    rewrite Hst. by apply (co_rec _ _ _ _ _ _ _ _ _ Hc).
Qed.

Lemma inv_worker s i now_ns w sh' w' :
  sys_inv s -> sy_workers s !! i = Some w -> worker_access now_ns (sy_sh s) w = Some (sh', w') ->
  sys_inv (mkSys sh' (sy_last_seq s) (sy_sorters s) (<[i := w']> (sy_workers s)) (sy_primaries s)
    (sy_claims s ++ worker_claims (w_pc w) (w_pc w'))).
Proof.
  intros Hs Hi Ha. destruct w as [[|p|p|p|p f|p] bk]; unfold worker_access in Ha; cbn [w_pc w_books] in *.
  - destruct (sh_chan (sy_sh s)) as [|p c] eqn:Hch; [done|]. simplify_eq. cbn [w_pc worker_claims]. rewrite app_nil_r.
    by apply inv_worker_recv.
  - rewrite bool_decide_false in Ha by (rewrite (held_unaddressed s i _ p Hs Hi eq_refl); tauto).
    simplify_eq. cbn [w_pc worker_claims]. rewrite app_nil_r. by eapply inv_worker_quiet.
  - destruct (arc_claim _ _ p _) as [won h] eqn:Hcl. destruct (inv_worker_claim s i bk p won h Hs Hi Hcl) as [-> Hs'].
    by simplify_eq.
  - destruct (sh_heap (sy_sh s) !! p) as [e|]; [|done].
    destruct (apply_escalated e bk) as [[[[fp fq] known] bk']| |]; try done. simplify_eq. cbn [w_pc worker_claims]. rewrite app_nil_r.
    by eapply inv_worker_quiet.
  - simplify_eq. cbn [w_pc]. replace (worker_claims _ _) with (@nil (Z * Arc)) by (by destruct (fill_next f)).
    rewrite app_nil_r. by apply inv_worker_store.
  - simplify_eq. cbn [w_pc worker_claims]. rewrite app_nil_r.
    assert (Hr : sys_inv (mkSys (sh_set_ring (ring_remove (seq_of (sh_heap (sy_sh s)) p) (sh_ring (sy_sh s))).2 (sy_sh s))
      (sy_last_seq s) (sy_sorters s) (sy_workers s) (sy_primaries s) (sy_claims s))).
    { destruct Hs as [Hc Hok Hss Hws Hps Hrx]. split; sys_fields; try done.
      eapply core_ring_remove; [exact Hc|]. rewrite Forall_lookup in Hws. exact (Hws _ _ Hi). }
    exact (inv_worker_quiet _ i _ (mkWorker WIdle bk) Hr Hi eq_refl eq_refl I).
Qed.

Lemma inv_primary_claim s i p h ts price qty :
  sys_inv s -> sy_primaries s !! i = Some None -> arc_claim Pending Addressed p (sh_heap (sy_sh s)) = (true, h) ->
  sys_inv (mkSys (sh_set_heap h (sy_sh s)) (sy_last_seq s) (sy_sorters s) (sy_workers s)
    (<[i := Some (p, mkFill4 0 1 ts price qty)]> (sy_primaries s)) (sy_claims s ++ [(1, p)])).
Proof.
  intros [Hc Hok Hss Hws Hps Hrx] Hi Hcl.
  destruct (arc_claim_spec _ _ _ _ _ _ Hok Hcl) as [(_ & e & He & Hes & ->)|(? & _)]; [|done].
  destruct (claim_views _ _ _ Addressed He) as (Hl & Hto & Hoth & Hsq & Hhd).
  assert (Hp : (p < length (sh_heap (sy_sh s)))%nat) by (by eapply lookup_lt_Some).
  assert (Hst : status_of (sh_heap (sy_sh s)) p = Pending) by (unfold status_of; by rewrite He).
  split; sys_fields; [|by apply status_ok_insert, status_ok_store| | |by apply Forall_insert'|done].
  - eapply core_ext; [eapply (core_claim _ _ _ _ _ _ _ _ _ Hc p Addressed); try done|..]; try done; [by left|].
    unfold recorders. sys_fields.
    rewrite (bind_insert_add primary_records _ _ _ (Some (p, mkFill4 0 1 ts price qty)) p Hi) by done.
    by rewrite <- Permutation_middle.
  - eapply sorters_stable; [|done]. eapply stable_claim; [done|]. by rewrite Hes.
  - eapply workers_stable; [|done]. eapply stable_claim; [done|]. by rewrite Hes.
Qed.

Lemma inv_primary_store s i p f :
  sys_inv s -> sy_primaries s !! i = Some (Some (p, f)) ->
  sys_inv (mkSys (sh_set_heap (arc_update (fill_store f) p (sh_heap (sy_sh s))) (sy_sh s)) (sy_last_seq s)
    (sy_sorters s) (sy_workers s) (<[i := option_map (pair p) (fill_next f)]> (sy_primaries s)) (sy_claims s)).
Proof.
  intros [Hc Hok Hss Hws Hps Hrx] Hi.
  destruct (fill_views f p (sh_heap (sy_sh s))) as (Hl & Hst & _ & _ & _ & Hoks).
  assert (Hf : fill_ok f) by (rewrite Forall_lookup in Hps; exact (Hps _ _ Hi)).
  split; sys_fields; [|by apply Hoks| | |apply Forall_insert'; [done|]|done].
  - rewrite Hl. eapply (core_fill _ _ _ _ (recorders s)); [exact Hc|].
    unfold recorders. sys_fields. destruct (fill_next f) as [f'|] eqn:Hn; [left|right].
    + split; [done|]. by rewrite (bind_insert_same primary_records _ _ _ (Some (p, f')) Hi).
    + rewrite (bind_insert_del primary_records _ _ _ None p Hi) by done. by rewrite <- Permutation_middle.
  - eapply sorters_stable; [by apply stable_same|done].
  - eapply workers_stable; [by apply stable_same|done].
  - unfold primary_ok. destruct (fill_next f) as [f'|] eqn:Hn; [by eapply fill_next_ok|done].
Qed.

Lemma inv_gc s :
  sys_inv s -> sys_inv (mkSys (sh_set_ring (gc_terminal (sh_heap (sy_sh s)) (sh_ring (sy_sh s))).2 (sy_sh s))
    (sy_last_seq s) (sy_sorters s) (sy_workers s) (sy_primaries s) (sy_claims s)).
Proof.
  intros [Hc Hok Hss Hws Hps Hrx]. split; sys_fields; try done. eapply core_move; [exact Hc|done|done| |].
  - by intros k p [? _]%in_ring_gc.
  - intros p Ht Hin. by apply in_ring_gc.
Qed.

Lemma sys_inv_step s s' : sys_step s s' -> sys_inv s -> sys_inv s'.
Proof.
  intros Hstep Hs. destruct Hstep.
  - by apply inv_write.
  - by apply inv_scan.
  - by eapply inv_sorter.
  - by eapply inv_worker.
  - by eapply inv_primary_claim.
  - by apply inv_primary_store.
  - by apply inv_gc.
Qed.

Lemma sys_inv_init sorters workers primaries books : workers <> 0%nat -> sys_inv (sy_init sorters workers primaries books).
Proof.
  intros Hw.
  assert (Hnil : forall {A} (f : A -> list Arc) x n, f x = [] -> replicate n x ≫= f = []).
  { intros A f x n Hf. induction n as [|n IH]; [done|]. simpl. by rewrite Hf. }
  assert (Hpl : places (sy_init sorters workers primaries books) = []) by (unfold places; simpl; by rewrite !Hnil).
  assert (Hrc : recorders (sy_init sorters workers primaries books) = []) by (unfold recorders; simpl; by rewrite !Hnil).
  split; [rewrite Hpl, Hrc|..]; simpl; try done; try (by apply Forall_replicate).
  split; simpl; try done; try (by constructor); try (by intros ? []%not_elem_of_nil); try lia.
  1,2,3: intros p; split; [by intros []%not_elem_of_nil|done].
  intros k p Hin. unfold in_ring in Hin. simpl in Hin. rewrite sk_iter_new in Hin. by apply not_elem_of_nil in Hin.
Qed.

Lemma sys_inv_reach sorters workers primaries books s :
  workers <> 0%nat -> rtc sys_step (sy_init sorters workers primaries books) s -> sys_inv s.
Proof.
  intros Hw Hr. revert Hr. apply (rtc_ind_r sys_inv); [by apply sys_inv_init|]. intros. by eapply sys_inv_step.
Qed.

(** ** The functions of the threads are runs of these steps *)

Lemma scan_fold_run i now_ns timeout l s m :
  sy_sorters s !! i = Some (SNext now_ns timeout l) -> Forall status_ok (sh_heap (sy_sh s)) ->
  rtc sys_step s (mkSys (foldl (scan_entry now_ns timeout) (sy_sh s, m) l).1 (sy_last_seq s)
    (<[i := SNext now_ns timeout []]> (sy_sorters s)) (sy_workers s) (sy_primaries s) (sy_claims s)).
Proof.
  revert s m. induction l as [|p l IH]; intros s m Hi Hok; cbn [foldl].
  { rewrite list_insert_id by done. by destruct s. }
  assert (Hgo : forall pc sh' pc' ss, ss !! i = Some pc -> sorter_access (sy_sh s) pc = Some (sh', pc') ->
    sys_step (mkSys (sy_sh s) (sy_last_seq s) ss (sy_workers s) (sy_primaries s) (sy_claims s))
      (mkSys sh' (sy_last_seq s) (<[i := pc']> ss) (sy_workers s) (sy_primaries s) (sy_claims s)))
    by (intros; by eapply (step_sorter (mkSys _ _ _ _ _ _))).
  assert (Hlen : (i < length (sy_sorters s))%nat) by (by eapply lookup_lt_Some).
  assert (Hrest : forall sh' m', Forall status_ok (sh_heap sh') ->
    rtc sys_step (mkSys sh' (sy_last_seq s) (<[i := SNext now_ns timeout l]> (sy_sorters s)) (sy_workers s) (sy_primaries s) (sy_claims s))
      (mkSys (foldl (scan_entry now_ns timeout) (sh', m') l).1 (sy_last_seq s)
        (<[i := SNext now_ns timeout []]> (sy_sorters s)) (sy_workers s) (sy_primaries s) (sy_claims s))).
  { intros sh' m' Hok'. pose proof (IH (mkSys sh' (sy_last_seq s) (<[i := SNext now_ns timeout l]> (sy_sorters s)) (sy_workers s)
      (sy_primaries s) (sy_claims s)) m') as H. sys_fields. rewrite list_insert_insert_eq in H. apply H; [|done].
    by apply list_lookup_insert_eq. }
  assert (Hs : s = mkSys (sy_sh s) (sy_last_seq s) (sy_sorters s) (sy_workers s) (sy_primaries s) (sy_claims s)) by (by destruct s).
  rewrite Hs at 1. unfold scan_entry at 2. cbn [fst]. destruct (sh_heap (sy_sh s) !! p) as [e|] eqn:He.
  2:{ eapply rtc_l; [eapply (Hgo _ (sy_sh s) (SNext now_ns timeout l) (sy_sorters s) Hi); simpl; by rewrite He|]. by apply Hrest. }
  eapply rtc_l; [eapply (Hgo _ (sy_sh s) (SAct now_ns timeout (load_status e) (age_ns now_ns e) p l) (sy_sorters s) Hi); simpl; by rewrite He|].
  set (ss1 := <[i := _]> (sy_sorters s)).
  assert (Hi1 : ss1 !! i = Some (SAct now_ns timeout (load_status e) (age_ns now_ns e) p l)) by (by apply list_lookup_insert_eq).
  assert (Hback : forall pc, <[i := pc]> ss1 = <[i := pc]> (sy_sorters s)) by (intros; apply list_insert_insert_eq).
  unfold scan_act. destruct (load_status e) eqn:Hst; [destruct (timeout <? age_ns now_ns e) eqn:Ht|..].
  - destruct (arc_claim Pending Unaddressed p (sh_heap (sy_sh s))) as [won h] eqn:Hcl.
    destruct (arc_claim_spec _ _ _ _ _ _ Hok Hcl) as [(-> & e' & He' & _ & ->)|(-> & -> & Hne)].
    2:{ destruct Hne; [by eexists|]. unfold status_of. by rewrite He. }
    eapply rtc_l; [eapply (Hgo _ _ _ ss1 Hi1); simpl; by rewrite Ht, Hcl|]. rewrite Hback.
    eapply rtc_l; [eapply (step_sorter (mkSys _ _ _ _ _ _) i (SSend now_ns timeout p l)); sys_fields; [by apply list_lookup_insert_eq|done]|].
    sys_fields. rewrite list_insert_insert_eq. apply Hrest. unfold chan_send. destruct (_ =? _)%nat; by apply status_ok_insert, status_ok_store.
  - eapply rtc_l; [eapply (Hgo _ (sy_sh s) (SNext now_ns timeout l) ss1 Hi1); simpl; by rewrite Ht|]. rewrite Hback.
    destruct (CRITICAL_TIMEOUT_NS <? _); by apply Hrest.
  - eapply rtc_l; [by eapply (Hgo _ _ _ ss1 Hi1)|]. rewrite Hback. by apply Hrest.
  - eapply rtc_l; [by eapply (Hgo _ (sy_sh s) (SNext now_ns timeout l) ss1 Hi1)|]. rewrite Hback. destruct (CRITICAL_TIMEOUT_NS <? _); by apply Hrest.
  - eapply rtc_l; [by eapply (Hgo _ _ _ ss1 Hi1)|]. rewrite Hback. by apply Hrest.
Qed.

(** An undisturbed scan is [scan_once]. *)
Lemma scan_run i now_ns mon s m :
  sy_sorters s !! i = Some SIdle -> Forall status_ok (sh_heap (sy_sh s)) ->
  rtc sys_step s (mkSys (scan_once now_ns mon (sy_sh s, m)).1 (sy_last_seq s) (sy_sorters s) (sy_workers s)
    (sy_primaries s) (sy_claims s)).
Proof.
  intros Hi Hok. eapply rtc_l; [by apply (step_scan s i now_ns mon)|].
  assert (Hlen : (i < length (sy_sorters s))%nat) by (by eapply lookup_lt_Some).
  etransitivity; [eapply scan_fold_run; sys_fields; [by apply list_lookup_insert_eq|done]|]. sys_fields.
  rewrite list_insert_insert_eq. eapply rtc_l.
  - eapply (step_sorter (mkSys _ _ _ _ _ _) i (SNext now_ns (adaptive_timeout mon) [])); sys_fields; [by apply list_lookup_insert_eq|done].
  - sys_fields. rewrite list_insert_insert_eq, list_insert_id by done. unfold scan_once. reflexivity.
Qed.

(** One access of worker [i], in a state given by its parts. *)
Lemma worker_go i now_ns sh last ss ws ps cl w sh' w' :
  ws !! i = Some w -> worker_access now_ns sh w = Some (sh', w') ->
  sys_step (mkSys sh last ss ws ps cl)
    (mkSys sh' last ss (<[i := w']> ws) ps (cl ++ worker_claims (w_pc w) (w_pc w'))).
Proof. intros. by eapply (step_worker (mkSys _ _ _ _ _ _)). Qed.

Lemma record_fill_stores now_ns price qty p (h : Heap) :
  let f n := mkFill4 n 2 now_ns price qty in
  arc_update (fill_store (f 3%nat)) p (arc_update (fill_store (f 2%nat)) p (arc_update (fill_store (f 1%nat)) p
    (arc_update (fill_store (f 0%nat)) p h))) = arc_update (record_fill 2 now_ns price qty) p h.
Proof.
  intros f. unfold arc_update. apply list_eq. intros q. destruct (decide (q = p)) as [-> |].
  - rewrite !list_lookup_alter_eq. by destruct (h !! p).
  - by rewrite !list_lookup_alter_ne.
Qed.

(** From the claimed entry to the end of the loop's body. *)
Lemma worker_record_run i now_ns p e bk fp fq known bk2 s :
  sy_workers s !! i = Some (mkWorker (WApply p) bk) -> sh_heap (sy_sh s) !! p = Some e ->
  apply_escalated e bk = Val (fp, fq, known, bk2) ->
  rtc sys_step s (mkSys (sh_set_ring (ring_remove (en_seq e) (sh_ring (sy_sh s))).2
      (sh_set_heap (arc_update (record_fill 2 now_ns fp fq) p (sh_heap (sy_sh s))) (sy_sh s)))
    (sy_last_seq s) (sy_sorters s) (<[i := mkWorker WIdle bk2]> (sy_workers s)) (sy_primaries s) (sy_claims s)).
Proof.
  intros Hi He Hap. destruct s as [[h r c x] last ss ws ps cl]. sys_fields.
  assert (Hlen : (i < length ws)%nat) by (by eapply lookup_lt_Some).
  set (f := fun n => mkFill4 n 2 now_ns fp fq). set (up := fun n hh => arc_update (fill_store (f n)) p hh).
  assert (Hgo : forall w sh1 sh2 w', worker_access now_ns sh1 w = Some (sh2, w') -> worker_claims (w_pc w) (w_pc w') = [] ->
    sys_step (mkSys sh1 last ss (<[i := w]> ws) ps cl) (mkSys sh2 last ss (<[i := w']> ws) ps cl)).
  { intros w sh1 sh2 w' Ha Hcl.
    pose proof (worker_go i now_ns sh1 last ss (<[i := w]> ws) ps cl w sh2 w' ltac:(by apply list_lookup_insert_eq) Ha) as H.
    by rewrite list_insert_insert_eq, Hcl, app_nil_r in H. }
  assert (Hstore : forall n hh, (n < 3)%nat -> sys_step
    (mkSys (mkShared hh r c x) last ss (<[i := mkWorker (WStore p (f n)) bk2]> ws) ps cl)
    (mkSys (mkShared (up n hh) r c x) last ss (<[i := mkWorker (WStore p (f (S n))) bk2]> ws) ps cl)).
  { intros n hh Hn. eapply Hgo; [|done]. unfold worker_access, fill_next. cbn [w_pc w_books f4_done f].
    by rewrite (proj2 (Nat.ltb_lt _ _) Hn). }
  rewrite <- (list_insert_id ws i (mkWorker (WApply p) bk) Hi) at 1.
  eapply rtc_l; [apply (Hgo _ _ (mkShared h r c x) (mkWorker (WStore p (f 0%nat)) bk2)); [|done];
    unfold worker_access; cbn [w_pc w_books sh_heap]; by rewrite He, Hap|].
  do 3 (eapply rtc_l; [apply Hstore; lia|]).
  eapply rtc_l; [by eapply (Hgo _ _ _ (mkWorker (WRemove p) bk2))|].
  eapply rtc_l; [by eapply (Hgo _ _ _ (mkWorker WIdle bk2))|]. sys_fields. unfold up, f. rewrite record_fill_stores.
  replace (seq_of _ p) with (en_seq e); [reflexivity|].
  unfold seq_of, arc_update. rewrite list_lookup_alter_eq, He. done.
Qed.

(** An undisturbed worker is [worker_handle]. *)
Lemma worker_run i now_ns p c s bk m sh' bk' m' :
  sy_workers s !! i = Some (mkWorker WIdle bk) -> sh_chan (sy_sh s) = p :: c -> Forall status_ok (sh_heap (sy_sh s)) ->
  worker_handle now_ns p (sh_set_chan c (sy_sh s)) bk m = Val (sh', bk', m') ->
  exists cl, rtc sys_step s (mkSys sh' (sy_last_seq s) (sy_sorters s) (<[i := mkWorker WIdle bk']> (sy_workers s))
    (sy_primaries s) (sy_claims s ++ cl)).
Proof.
  intros Hi Hch Hok Hh. destruct s as [[h r ch x] last ss ws ps cl0]. sys_fields. subst ch.
  assert (Hlen : (i < length ws)%nat) by (by eapply lookup_lt_Some).
  assert (Hgo : forall w sh1 sh2 w' cl, worker_access now_ns sh1 w = Some (sh2, w') ->
    sys_step (mkSys sh1 last ss (<[i := w]> ws) ps cl)
      (mkSys sh2 last ss (<[i := w']> ws) ps (cl ++ worker_claims (w_pc w) (w_pc w')))).
  { intros w sh1 sh2 w' cl Ha.
    pose proof (worker_go i now_ns sh1 last ss (<[i := w]> ws) ps cl w sh2 w' ltac:(by apply list_lookup_insert_eq) Ha) as H.
    by rewrite list_insert_insert_eq in H. }
  unfold sh_set_chan in Hh. sys_fields.
  replace (mkSys (mkShared h r (p :: c) x) last ss ws ps cl0)
    with (mkSys (mkShared h r (p :: c) x) last ss (<[i := mkWorker WIdle bk]> ws) ps cl0) by (by rewrite list_insert_id).
  unfold worker_handle in Hh. sys_fields. case_bool_decide as Hst.
  { injection Hh as <- <- _. exists ([] ++ []). rewrite app_assoc. eapply rtc_l; [by eapply (Hgo _ _ _ (mkWorker (WGot p) bk))|].
    apply rtc_once. apply (Hgo (mkWorker (WGot p) bk) _ _ (mkWorker WIdle bk) (cl0 ++ [])). unfold worker_access, sh_set_chan. sys_fields. cbn [w_pc w_books]. by rewrite bool_decide_true. }
  destruct (arc_claim Unaddressed FinallyHandled p h) as [won h1] eqn:Hcl.
  assert (Hpre : forall pc, pc = (if won then WApply p else WIdle) -> exists cl,
    rtc sys_step (mkSys (mkShared h r (p :: c) x) last ss (<[i := mkWorker WIdle bk]> ws) ps cl0)
      (mkSys (mkShared h1 r c x) last ss (<[i := mkWorker pc bk]> ws) ps (cl0 ++ cl))).
  { intros pc ->. exists (([] ++ []) ++ worker_claims (WClaim p) (if won then WApply p else WIdle)). rewrite !app_assoc.
    eapply rtc_l; [by eapply (Hgo _ _ _ (mkWorker (WGot p) bk))|].
    eapply rtc_l; [eapply (Hgo _ _ _ (mkWorker (WClaim p) bk)); unfold worker_access; sys_fields; cbn [w_pc w_books];
      by rewrite bool_decide_false by tauto|].
    apply rtc_once. apply (Hgo (mkWorker (WClaim p) bk) _ _ (mkWorker (if won then WApply p else WIdle) bk) ((cl0 ++ []) ++ [])).
    unfold worker_access. sys_fields. cbn [w_pc w_books]. by rewrite Hcl. }
  destruct (Hpre _ eq_refl) as [cl Hrun]. exists cl. etransitivity; [exact Hrun|].
  destruct (arc_claim_spec _ _ _ _ _ _ Hok Hcl) as [(-> & e & He & _ & ->)|(-> & -> & _)]; cbn [negb] in Hh.
  2:{ by injection Hh as <- <- _. }
  destruct (_ !! p) as [e1|] eqn:He1; [|done].
  destruct (apply_escalated e1 bk) as [[[[fp fq] known] bk2]| |] eqn:Hap; try done. injection Hh as <- <- _.
  pose proof (worker_record_run i now_ns p e1 bk fp fq known bk2 (mkSys (mkShared _ r c x) last ss
    (<[i := mkWorker (WApply p) bk]> ws) ps (cl0 ++ cl)) ltac:(by apply list_lookup_insert_eq) He1 Hap) as Hend.
  sys_fields. by rewrite list_insert_insert_eq in Hend.
Qed.

(** A published fill does not change any more. *)
Lemma handled_step s s' p e :
  sys_inv s -> sys_step s s' -> sh_heap (sy_sh s) !! p = Some e -> en_handled_by e <> 0 ->
  sh_heap (sy_sh s') !! p = Some e.
Proof.
  intros Hs Hstep He Hh.
  assert (Hhd : handled_of (sh_heap (sy_sh s)) p <> 0) by (unfold handled_of; by rewrite He).
  assert (Hclaim : forall from to q won h, is_terminal from = false -> arc_claim from to q (sh_heap (sy_sh s)) = (won, h) -> h !! p = Some e).
  { intros from to q won h Hf Hcl. destruct (arc_claim_spec _ _ _ _ _ _ (si_status s Hs) Hcl) as [(_ & e' & He' & Hst & ->)|(_ & -> & _)]; [|done].
    rewrite list_lookup_insert_ne; [done|]. intros ->. apply Hhd, (co_unhandled _ _ _ _ _ _ _ _ _ (si_core s Hs)).
    unfold status_of. rewrite He'. simpl. by rewrite Hst. }
  assert (Hstore : forall f q, q ∈ recorders s -> arc_update (fill_store f) q (sh_heap (sy_sh s)) !! p = Some e).
  { intros f q [_ Hq]%(co_rec _ _ _ _ _ _ _ _ _ (si_core s Hs)). unfold arc_update. rewrite list_lookup_alter_ne; [done|]. by intros ->. }
  assert (Hw : forall i w q, sy_workers s !! i = Some w -> worker_records w = [q] -> q ∈ recorders s).
  { intros i w q Hi Hq. unfold recorders. rewrite elem_of_app. left. apply list_elem_of_bind. exists w.
    split; [rewrite Hq; by left|by eapply list_elem_of_lookup_2]. }
  destruct Hstep as [seq term ts cmd Hlt|i now mon Hi|i pc sh' pc' Hi Ha|i now w sh' w' Hi Ha|i q h ts price qty Hi Hcl|i q f Hi|];
    sys_fields; try done.
  - by apply lookup_app_l_Some.
  - destruct pc as [|? ? [|q rest]|? t [] age q rest|]; cbn [sorter_access] in Ha; simplify_eq; try done.
    + by destruct (_ !! q); simplify_eq.
    + destruct (t <? age); [|by simplify_eq]. destruct (arc_claim _ _ _ _) as [won h] eqn:Hcl. simplify_eq. by eapply (Hclaim Pending).
    + unfold chan_send. by destruct (_ =? _)%nat.
  - destruct w as [[|q|q|q|q f|q] bk]; unfold worker_access in Ha; cbn [w_pc w_books] in Ha.
    + destruct (sh_chan (sy_sh s)); by simplify_eq.
    + by simplify_eq.
    + destruct (arc_claim _ _ _ _) as [won h] eqn:Hcl. simplify_eq. by eapply (Hclaim Unaddressed).
    + destruct (_ !! q); [|done]. destruct (apply_escalated _ _) as [[[[] ] ]| |]; by simplify_eq.
    + simplify_eq. eapply Hstore, Hw; done.
    + by simplify_eq.
  - by eapply (Hclaim Pending).
  - apply Hstore. unfold recorders. rewrite elem_of_app. right. apply list_elem_of_bind. exists (Some (q, f)).
    split; [by left|by eapply list_elem_of_lookup_2].
Qed.

(** ** Theorems *)

(** C29. Every entry is handled at most once, by one engine: under every
    interleaving of the dual log, the sorters, the workers, the primary engines
    and garbage collection, no entry is claimed twice; it is [Addressed]
    exactly when a primary engine has claimed it, and [FinallyHandled] exactly
    when a worker of the second engine has. *)
Theorem escalation_claimed_once sorters workers primaries books s p :
  workers <> 0%nat -> rtc sys_step (sy_init sorters workers primaries books) s ->
  NoDup (sy_claims s).*2
  /\ ((1, p) ∈ sy_claims s <-> status_of (sh_heap (sy_sh s)) p = Addressed)
  /\ ((2, p) ∈ sy_claims s <-> status_of (sh_heap (sy_sh s)) p = FinallyHandled).
Proof. intros Hw Hr. by destruct (si_core s (sys_inv_reach _ _ _ _ _ Hw Hr)). Qed.

(** C30. No order is lost: an entry that is not yet handled is in the ring under
    its number, and an escalated one is in exactly one place, about to be sent
    by a sorter, in the channel, or in the hands of one worker; so when all of
    these are empty no entry is left [Unaddressed]. *)
Theorem escalation_never_lost sorters workers primaries books s p :
  workers <> 0%nat -> rtc sys_step (sy_init sorters workers primaries books) s ->
  NoDup (places s) /\ (p ∈ places s <-> status_of (sh_heap (sy_sh s)) p = Unaddressed)
  /\ ((p < length (sh_heap (sy_sh s)))%nat -> is_terminal (status_of (sh_heap (sy_sh s)) p) = false ->
      in_ring (sh_ring (sy_sh s)) (seq_of (sh_heap (sy_sh s)) p) p)
  /\ (places s = [] -> status_of (sh_heap (sy_sh s)) p <> Unaddressed).
Proof.
  intros Hw Hr. destruct (si_core s (sys_inv_reach _ _ _ _ _ Hw Hr)). split_and!; try done; [by apply co_ring0|].
  intros Hp. rewrite <- co_places0, Hp. apply not_elem_of_nil.
Qed.

(** A published fill is final: once [handled_by] of an entry is set, no
    further step of any thread changes the entry, although [record_fill] is
    four separate stores. *)
Theorem escalation_fill_final sorters workers primaries books s s' p e :
  workers <> 0%nat -> rtc sys_step (sy_init sorters workers primaries books) s ->
  sh_heap (sy_sh s) !! p = Some e -> en_handled_by e <> 0 -> rtc sys_step s s' ->
  sh_heap (sy_sh s') !! p = Some e.
Proof.
  intros Hw Hr He Hh Hr'. pose proof (sys_inv_reach _ _ _ _ _ Hw Hr) as Hs. clear Hr.
  induction Hr' as [s|s1 s2 s3 Hstep Hr' IH]; [done|]. apply IH; [by eapply handled_step|by eapply sys_inv_step].
Qed.
End Escalation.
