(* ===== verification/EscalationOrder.v ===== *)
(** * EscalationOrder: the second engine works in sequence order

    With one active sorter (leader.rs elects one) and time stamps that do not
    run backwards, entries are escalated in order of their sequence numbers, so
    that every worker applies commands with rising numbers and its books stay
    reachable: the engine behind the escalation never panics.  The theorem
    composes the step relation of Escalation.v with the book of BookTheorems.v
    through SecondEngine.v. *)

From S2P Require Import Prelude CoreTypes SlotMap OrderBook BookSpec BookMarket BookRep BookInv.
From S2P Require Import BookRefine BookTheorems LogEntry Sorter SecondEngine Escalation.
#[local] Open Scope Z_scope.

Section Order.
Context {SM : SlotMapApi} {SML : SlotMapLaws SM} {SK : SkipMapApi} {SKL : SkipMapLaws SK}
  (hash_command : InboundCommand -> Z).
Implicit Types (h : Heap) (s : Sys).

Definition ts_of (h : Heap) (p : Arc) : Z := from_option en_timestamp_in 0 (h !! p).
Definition age_of (h : Heap) (now_ns : Z) (p : Arc) : Z := saturating_sub_u64 now_ns (ts_of h p).

(** Time stamps follow the order of writing, and the commands carry prices and
    quantities of their machine types. *)
Definition clocked (h : Heap) : Prop :=
  (forall i j, (i < j < length h)%nat -> ts_of h i <= ts_of h j)
  /\ Forall (fun e => cmd_ok (mkSC (en_term e) (en_seq e) (en_timestamp_in e) (en_cmd e))) h.

(** What a scan still has to look at contains every pending entry past the
    timeout that comes before any of its members. *)
Record closed (h : Heap) (now_ns timeout : Z) (l : list Arc) : Prop := {
  cd_sorted : StronglySorted (fun p q => seq_of h p < seq_of h q) l;
  cd_range : Forall (fun p => p < length h)%nat l;
  cd_below p q : q ∈ l -> (p < length h)%nat -> seq_of h p < seq_of h q -> status_of h p = Pending ->
    timeout < age_of h now_ns p -> p ∈ l
}.

Definition scan_ok (h : Heap) (pc : SorterPc) : Prop :=
  match pc with
  | SIdle => True
  | SNext now_ns timeout rest | SSend now_ns timeout _ rest => closed h now_ns timeout rest
  | SAct now_ns timeout st age p rest =>
      closed h now_ns timeout (p :: rest) /\ age = age_of h now_ns p /\ (status_of h p = Pending -> st = Pending)
  end.

Definition escalated_status (st : OrderStatus) : Prop := st = Unaddressed \/ st = FinallyHandled.

(** Escalated and not yet received. *)
Definition sends (s : Sys) : list Arc := sh_chan (sy_sh s) ++ (sy_sorters s ≫= sorter_holds).

(** The books of a worker come from commands up to [seen], and everything the
    worker still gets has a higher number. *)
Definition seen_ok (s : Sys) (seen : Z) (w : Worker) : Prop :=
  let h := sh_heap (sy_sh s) in
  books_inv (w_books w) seen
  /\ (seen = 0 \/ exists q, status_of h q = FinallyHandled /\ seq_of h q = seen)
  /\ match w_pc w with
     | WGot p | WClaim p => seen < seq_of h p /\ status_of h p = Unaddressed /\ forall c, c ∈ sends s -> seq_of h p < seq_of h c
     | WApply p => seen < seq_of h p /\ status_of h p = FinallyHandled /\ forall c, c ∈ sends s -> seq_of h p < seq_of h c
     | _ => forall c, c ∈ sends s -> seen < seq_of h c
     end.

Record ord_inv (s : Sys) : Prop := {
  oi_scan : exists pc, sy_sorters s = [pc] /\ scan_ok (sh_heap (sy_sh s)) pc;
  oi_below p q : (p < length (sh_heap (sy_sh s)))%nat -> escalated_status (status_of (sh_heap (sy_sh s)) q) ->
    seq_of (sh_heap (sy_sh s)) p < seq_of (sh_heap (sy_sh s)) q -> status_of (sh_heap (sy_sh s)) p <> Pending;
  oi_sends : StronglySorted (fun p q => seq_of (sh_heap (sy_sh s)) p < seq_of (sh_heap (sy_sh s)) q) (sends s);
  oi_pos p : (p < length (sh_heap (sy_sh s)))%nat -> 0 < seq_of (sh_heap (sy_sh s)) p;
  oi_last : 0 <= sy_last_seq s;
  oi_workers i w : sy_workers s !! i = Some w -> exists seen, seen_ok s seen w
}.

(** ** Frames *)

(** Statuses that move forward, entries otherwise the same. *)
Record forward (h h' : Heap) : Prop := {
  fw_length : length h' = length h;
  fw_seq p : seq_of h' p = seq_of h p;
  fw_ts p : ts_of h' p = ts_of h p;
  fw_pending p : status_of h' p = Pending -> status_of h p = Pending;
  fw_done p : status_of h p = FinallyHandled -> status_of h' p = FinallyHandled
}.

Lemma forward_refl h : forward h h.
Proof. by split. Qed.

Lemma sorted_ext (R R' : Arc -> Arc -> Prop) (l : list Arc) :
  (forall p q, R p q -> R' p q) -> StronglySorted R l -> StronglySorted R' l.
Proof. intros HR. induction 1; constructor; [done|]. eapply Forall_impl; [done|]. intros ?. apply HR. Qed.

Lemma closed_forward h h' now_ns timeout l : forward h h' -> closed h now_ns timeout l -> closed h' now_ns timeout l.
Proof.
  intros [Hl Hs Ht Hp _] [Hso Hr Hb]. split.
  - eapply sorted_ext; [|exact Hso]. intros p q. simpl. by rewrite !Hs.
  - by rewrite Hl.
  - intros p q Hq. rewrite Hl, !Hs. unfold age_of. rewrite Ht. intros ? ? ?%Hp ?. by eapply Hb.
Qed.

Lemma closed_tail h now_ns timeout p l :
  closed h now_ns timeout (p :: l) -> ~ (status_of h p = Pending /\ timeout < age_of h now_ns p) -> closed h now_ns timeout l.
Proof.
  intros [Hso Hr Hb] Hn. apply StronglySorted_inv in Hso as [Hso _]. inversion_clear Hr. split; [done..|].
  intros x q Hq Hx Hlt Hp Ha. assert (Hin : x ∈ p :: l) by (apply (Hb x q); try done; by right).
  apply elem_of_cons in Hin as [-> |?]; [tauto|done].
Qed.

Lemma scan_ok_forward h h' pc : forward h h' -> scan_ok h pc -> scan_ok h' pc.
Proof.
  intros Hf. pose proof (closed_forward h h') as Hc. destruct pc; simpl; [done|by apply Hc| |by apply Hc].
  intros (? & -> & Hst). split_and!; [by apply Hc| |].
  - unfold age_of. by rewrite (fw_ts _ _ Hf).
  - intros ?%(fw_pending _ _ Hf). auto.
Qed.

(** Steps that escalate nothing: statuses move forward, what is sent but not
    received does not grow, one worker may change. *)
Lemma ord_frame s s' :
  ord_inv s -> forward (sh_heap (sy_sh s)) (sh_heap (sy_sh s')) ->
  (forall p, escalated_status (status_of (sh_heap (sy_sh s')) p) -> escalated_status (status_of (sh_heap (sy_sh s)) p)) ->
  (exists pc, sy_sorters s' = [pc] /\ scan_ok (sh_heap (sy_sh s')) pc) ->
  sublist (sends s') (sends s) -> sy_last_seq s' = sy_last_seq s ->
  (forall i w, sy_workers s' !! i = Some w -> (exists seen, seen_ok s' seen w) \/
     (sy_workers s !! i = Some w /\ forall p, worker_holds w = [p] \/ w_pc w = WApply p ->
        status_of (sh_heap (sy_sh s')) p = status_of (sh_heap (sy_sh s)) p)) ->
  ord_inv s'.
Proof.
  intros Hs Hf Hesc Hsc Hsub Hlast Hws. destruct (Hs) as [_ Hb Hse Hpos Hl Hw]. destruct (Hf) as [Hlen Hsq _ Hpend Hdone]. split; [done|..].
  - intros p q. rewrite Hlen, !Hsq. intros Hp Hq%Hesc Hlt Hst%Hpend. by eapply Hb.
  - eapply (sorted_ext (fun p q => seq_of (sh_heap (sy_sh s)) p < seq_of (sh_heap (sy_sh s)) q)); [intros p q; by rewrite !Hsq|].
    clear -Hse Hsub.
    induction Hsub as [|x l k Hsub IH|x l k Hsub IH]; [done|..]; apply StronglySorted_inv in Hse as [Hse Hx]; [|by apply IH].
    constructor; [by apply IH|]. rewrite Forall_forall in *. intros y Hy. apply Hx. by eapply elem_of_sublist.
  - intros p. rewrite Hlen, Hsq. auto.
  - by rewrite Hlast.
  - intros i w Hi. destruct (Hws i w Hi) as [?|[Hi' Hsame]]; [done|]. destruct (Hw i w Hi') as (seen & Hbk & Hseen & Hpc).
    exists seen. unfold seen_ok. cbv zeta. split; [done|]. split.
    { destruct Hseen as [?|(q & Hq & <-)]; [by left|]. right. exists q. split; [by apply Hdone|by rewrite Hsq]. }
    assert (Hin : forall c, c ∈ sends s' -> c ∈ sends s) by (intros c Hc; by eapply elem_of_sublist).
    destruct w as [[|p|p|p|p f|p] bk]; cbn [w_pc w_books] in *; try (intros c Hc; rewrite Hsq; auto; done);
      destruct Hpc as (? & Hst & Hall); rewrite !Hsq, (Hsame p) by (by (left + right)); split_and!; try done;
      intros c Hc; rewrite Hsq; auto.
Qed.

Lemma forward_claim h p e to :
  h !! p = Some e -> load_status e <> FinallyHandled -> to <> Pending ->
  forward h (<[p := store_status (status_to_u8 to) e]> h).
Proof.
  intros He Hn Hto. destruct (claim_views h p e to He) as (Hl & Hp & Hoth & Hsq & _). split; try done.
  - intros q. unfold ts_of. destruct (decide (q = p)) as [-> |]; [|by rewrite list_lookup_insert_ne].
    rewrite list_lookup_insert_eq, He by (by eapply lookup_lt_Some). done.
  - intros q. destruct (decide (q = p)) as [-> |]; [congruence|by rewrite Hoth].
  - intros q. destruct (decide (q = p)) as [-> |]; [|by rewrite Hoth]. unfold status_of. by rewrite He.
Qed.

Lemma forward_fill h f p : forward h (arc_update (fill_store f) p h).
Proof.
  destruct (fill_views f p h) as (Hl & Hst & Hsq & _). split; try done; [|by intros q; rewrite Hst..].
  intros q. unfold ts_of, arc_update. destruct (decide (q = p)) as [-> |]; [|by rewrite list_lookup_alter_ne].
  rewrite list_lookup_alter_eq. destruct (h !! p) as [e|]; [|done]. simpl. unfold fill_store. by destruct (f4_done f) as [|[|[|]]].
Qed.

(** ** The steps *)

#[local] Ltac sys_fields :=
  cbn [sy_sh sy_last_seq sy_sorters sy_workers sy_primaries sy_claims sh_heap sh_ring sh_chan sh_receivers
       sh_set_heap sh_set_ring sh_set_chan] in *.

Lemma closed_snapshot s now_ns timeout :
  sys_inv s -> closed (sh_heap (sy_sh s)) now_ns timeout (ring_snapshot (sh_ring (sy_sh s))).
Proof.
  intros [Hc _ _ _ _ _]. set (h := sh_heap (sy_sh s)) in *. set (r := sh_ring (sy_sh s)) in *.
  assert (Hin : forall p, p ∈ ring_snapshot r <-> exists k, in_ring r k p).
  { intros p. unfold ring_snapshot, in_ring. rewrite list_elem_of_In, in_map_iff. split.
    - intros ([k q] & <- & Hi). exists k. by apply list_elem_of_In.
    - intros [k Hi]. exists (k, p). by rewrite <- list_elem_of_In. }
  split.
  - pose proof (sk_sorted (pr_map r)) as Hs. unfold ring_snapshot.
    assert (Hk : forall x, x ∈ sk_iter (pr_map r) -> seq_of h x.2 = x.1) by (intros [k p] Hx; by apply (co_ring_key _ _ _ _ _ _ _ _ _ Hc)).
    revert Hs Hk. induction (sk_iter (pr_map r)) as [|x l IH]; simpl; [constructor|]. intros [Hs Hx]%StronglySorted_inv Hk.
    constructor; [apply IH; [done|intros y ?; apply Hk; by right]|]. rewrite Forall_map in *. rewrite Forall_forall in *.
    intros y Hy. rewrite !Hk by (by constructor). auto.
  - apply Forall_forall. intros p [k Hk]%Hin. by apply (co_ring_key _ _ _ _ _ _ _ _ _ Hc) in Hk as [? _].
  - intros p q _ Hp _ Hst _. apply Hin. exists (seq_of h p). apply (co_ring _ _ _ _ _ _ _ _ _ Hc); [done|].
    by rewrite Hst.
Qed.

(** A new entry, [Pending] and with a number above all others, at the end of
    the heap. *)
Lemma status_of_snoc h e q : load_status e = Pending -> status_of (h ++ [e]) q = status_of h q.
Proof.
  intros He. destruct (decide (q < length h)%nat); [by apply status_of_app|].
  unfold status_of. rewrite (lookup_ge_None_2 h), lookup_app_r by lia.
  by destruct (q - length h)%nat eqn:E.
Qed.

Lemma seq_of_snoc h e : seq_of (h ++ [e]) (length h) = en_seq e.
Proof. unfold seq_of. by rewrite lookup_app_r, Nat.sub_diag. Qed.

Lemma age_of_app h l now_ns p : (p < length h)%nat -> age_of (h ++ l) now_ns p = age_of h now_ns p.
Proof. intros. unfold age_of, ts_of. by rewrite lookup_app_l. Qed.

Lemma sorted_seq_app h l (xs : list Arc) :
  Forall (fun p => p < length h)%nat xs -> StronglySorted (fun p q => seq_of h p < seq_of h q) xs ->
  StronglySorted (fun p q => seq_of (h ++ l) p < seq_of (h ++ l) q) xs.
Proof.
  intros Hr Hso. induction Hso as [|x xs Hso IH Hx]; [constructor|]. apply Forall_cons in Hr as [Hx' Hr].
  constructor; [by apply IH|]. rewrite Forall_forall in *. intros y Hy. rewrite !seq_of_app by auto. auto.
Qed.

(** An entry below an old one in sequence order is old itself. *)
Lemma below_snoc h e p q :
  (forall p, (p < length h)%nat -> seq_of h p < en_seq e) -> (p < length (h ++ [e]))%nat -> (q < length h)%nat ->
  seq_of (h ++ [e]) p < seq_of (h ++ [e]) q -> (p < length h)%nat /\ seq_of h p < seq_of h q.
Proof.
  intros Hle Hp Hq Hlt. rewrite (seq_of_app h [e] q Hq) in Hlt. rewrite length_app in Hp. simpl in Hp.
  destruct (decide (p = length h)) as [-> |]; [rewrite seq_of_snoc in Hlt; specialize (Hle q Hq); lia|].
  rewrite seq_of_app in Hlt by lia. split; [lia|done].
Qed.

Lemma closed_snoc h e now_ns timeout l :
  load_status e = Pending -> (forall p, (p < length h)%nat -> seq_of h p < en_seq e) ->
  closed h now_ns timeout l -> closed (h ++ [e]) now_ns timeout l.
Proof.
  intros He Hle [Hso Hr Hbl]. split; [by apply sorted_seq_app| |].
  - eapply Forall_impl; [exact Hr|]. intros p. rewrite length_app. simpl. lia.
  - intros p q Hq Hp Hlt Hps Ha. rewrite Forall_forall in Hr. rewrite status_of_snoc in Hps by done.
    destruct (below_snoc h e p q Hle Hp (Hr q Hq) Hlt) as [Hp' Hlt']. rewrite age_of_app in Ha by done.
    by eapply Hbl.
Qed.

Lemma ord_write s seq term ts cmd :
  sys_inv s -> ord_inv s -> sy_last_seq s < seq ->
  let '(p, h) := arc_new (LogEntry_new hash_command seq term ts cmd) (sh_heap (sy_sh s)) in
  ord_inv (mkSys (sh_set_ring (ring_push h p (sh_ring (sy_sh s))) (sh_set_heap h (sy_sh s)))
    seq (sy_sorters s) (sy_workers s) (sy_primaries s) (sy_claims s)).
Proof.
  intros Hs Ho Hlt. unfold arc_new. set (h := sh_heap (sy_sh s)). set (e := LogEntry_new hash_command seq term ts cmd).
  pose proof (si_core s Hs) as Hc. fold h in Hc. destruct Ho as [(pc & Hpc & Hsc) Hb Hse Hpos Hl Hw]. fold h in Hsc, Hb, Hse, Hpos, Hw.
  assert (Hst : forall q, status_of (h ++ [e]) q = status_of h q) by (intros; by apply status_of_snoc).
  assert (Hrng : forall q, status_of h q <> Pending -> (q < length h)%nat) by apply Hc.
  assert (Hle : forall p, (p < length h)%nat -> seq_of h p < en_seq e).
  { intros p Hp. pose proof (co_seq_last _ _ _ _ _ _ _ _ _ Hc p Hp). simpl. lia. }
  assert (Hpl : forall c, c ∈ sends s -> (c < length h)%nat).
  { intros c Hc'. apply Hrng. assert (status_of h c = Unaddressed) as ->; [|done]. apply (co_places _ _ _ _ _ _ _ _ _ Hc).
    unfold places. unfold sends in Hc'. set_solver. }
  split; sys_fields; fold h.
  - exists pc. split; [done|]. destruct pc as [| |now t st age p rest|]; try done; [by apply closed_snoc| |by apply closed_snoc].
    destruct Hsc as (Hcl & -> & Hps). split_and!; [by apply closed_snoc| |by rewrite Hst].
    pose proof (cd_range _ _ _ _ Hcl) as Hr. inversion_clear Hr. by rewrite age_of_app.
  - intros p q Hp Hq Hlt'. rewrite Hst in *. assert (Hql : (q < length h)%nat) by (apply Hrng; destruct Hq as [-> | ->]; done).
    destruct (below_snoc h e p q Hle Hp Hql Hlt'). by eapply Hb.
  - change (sends _) with (sends s). apply sorted_seq_app; [by apply Forall_forall|done].
  - intros p Hp. destruct (decide (p = length h)) as [-> |]; [rewrite seq_of_snoc; simpl; lia|]. rewrite length_app in Hp. simpl in Hp.
    rewrite seq_of_app by lia. apply Hpos. lia.
  - lia.
  - intros i w Hi. destruct (Hw i w Hi) as (seen & Hbk & Hseen & Hpcw). exists seen. unfold seen_ok. cbv zeta. sys_fields.
    change (sends (mkSys _ _ _ _ _ _)) with (sends s). split_and!; [done| |].
    + destruct Hseen as [?|(q & Hq & <-)]; [by left|]. right. exists q. fold h in Hq. rewrite Hst, seq_of_app; [done|]. apply Hrng. by rewrite Hq.
    + destruct w as [[|p|p|p|p f|p] bk]; cbn [w_pc w_books] in *; try (intros c Hcs; rewrite seq_of_app by auto; auto; done);
        destruct Hpcw as (Hlo & Hps & Hall); fold h in Hlo, Hps, Hall; (assert (Hp' : (p < length h)%nat) by (apply Hrng; by rewrite Hps));
        rewrite Hst, seq_of_app by done; split_and!; try done; intros c Hcs; rewrite seq_of_app by auto; auto.
Qed.

(** A pending entry comes after everything that has been escalated. *)
Lemma escalated_before s c p :
  sys_inv s -> ord_inv s -> (p < length (sh_heap (sy_sh s)))%nat -> status_of (sh_heap (sy_sh s)) p = Pending ->
  escalated_status (status_of (sh_heap (sy_sh s)) c) -> seq_of (sh_heap (sy_sh s)) c < seq_of (sh_heap (sy_sh s)) p.
Proof.
  intros Hs Ho Hp Hst Hc. pose proof (si_core s Hs) as Hco.
  assert (Hcl : (c < length (sh_heap (sy_sh s)))%nat) by (apply (co_range _ _ _ _ _ _ _ _ _ Hco); destruct Hc as [-> | ->]; done).
  destruct (Nat.lt_trichotomy c p) as [Hlt|[-> |Hlt]]; [apply (co_seq _ _ _ _ _ _ _ _ _ Hco); lia| |].
  - rewrite Hst in Hc. by destruct Hc.
  - exfalso. eapply (oi_below s Ho p c); [done|done|apply (co_seq _ _ _ _ _ _ _ _ _ Hco); lia|done].
Qed.

Lemma sends_unaddressed s c : sys_inv s -> c ∈ sends s -> status_of (sh_heap (sy_sh s)) c = Unaddressed.
Proof.
  intros Hs Hc. apply (co_places _ _ _ _ _ _ _ _ _ (si_core s Hs)). unfold places. rewrite app_assoc. apply elem_of_app. by left.
Qed.

Lemma sorted_snoc_seq (R : Arc -> Arc -> Prop) l p :
  StronglySorted R l -> (forall c, c ∈ l -> R c p) -> StronglySorted R (l ++ [p]).
Proof.
  induction 1 as [|x l Hs IH Hx]; intros Hp; simpl; [repeat constructor|]. constructor; [apply IH; intros; apply Hp; by right|].
  apply Forall_app. split; [done|]. constructor; [apply Hp; by left|constructor].
Qed.

Lemma ord_escalate s now_ns timeout p rest e :
  sys_inv s -> ord_inv s -> clocked (sh_heap (sy_sh s)) ->
  closed (sh_heap (sy_sh s)) now_ns timeout (p :: rest) -> timeout < age_of (sh_heap (sy_sh s)) now_ns p ->
  sy_sorters s ≫= sorter_holds = [] -> sh_heap (sy_sh s) !! p = Some e -> load_status e = Pending ->
  ord_inv (mkSys (sh_set_heap (<[p := store_status (status_to_u8 Unaddressed) e]> (sh_heap (sy_sh s))) (sy_sh s))
    (sy_last_seq s) [SSend now_ns timeout p rest] (sy_workers s) (sy_primaries s) (sy_claims s)).
Proof.
  intros Hs Ho [Hts _] Hcl Hage Hnone He Hes. set (h := sh_heap (sy_sh s)) in *.
  set (h' := <[p := store_status (status_to_u8 Unaddressed) e]> h).
  destruct (claim_views h p e Unaddressed He) as (Hl & Hto & Hoth & Hsq & _). fold h' in Hl, Hto, Hoth, Hsq.
  assert (Hst : status_of h p = Pending) by (unfold status_of; by rewrite He).
  assert (Hp : (p < length h)%nat) by (by eapply lookup_lt_Some).
  assert (Hfw : forward h h') by (apply forward_claim; [done|by rewrite Hes|done]).
  pose proof (escalated_before s) as Hbef. fold h in Hbef.
  assert (Hsend : sends s = sh_chan (sy_sh s)) by (unfold sends; by rewrite Hnone, app_nil_r).
  assert (Hlt : forall c, c ∈ sh_chan (sy_sh s) -> seq_of h c < seq_of h p).
  { intros c Hc. apply Hbef; try done. left. apply sends_unaddressed; [done|]. by rewrite Hsend. }
  assert (Hsends' : forall c, c ∈ sh_chan (sy_sh s) ++ [p] <-> c ∈ sends s \/ c = p) by (intros c; by rewrite elem_of_app, list_elem_of_singleton, Hsend).
  split; sys_fields; fold h; fold h'.
  - eexists. split; [done|]. simpl. eapply closed_tail; [by eapply closed_forward|]. rewrite Hto. naive_solver.
  - intros x q. rewrite Hl, !Hsq. intros Hx Hq Hxq. destruct (decide (x = p)) as [-> |Hxp]; [by rewrite Hto|]. rewrite Hoth by done.
    destruct (decide (q = p)) as [-> |]; [|rewrite Hoth in Hq by done; by eapply (oi_below s Ho)]. intros Hxs.
    assert (Hix : (x < p)%nat).
    { destruct (Nat.lt_trichotomy x p) as [?|[?|?]]; [done..|]. pose proof (co_seq _ _ _ _ _ _ _ _ _ (si_core s Hs) p x) as Hpx. fold h in Hpx. lia. }
    assert (Hin : x ∈ p :: rest).
    { apply (cd_below _ _ _ _ Hcl x p); try done; [by left|]. specialize (Hts x p ltac:(lia)). unfold age_of, saturating_sub_u64 in *. lia. }
    apply elem_of_cons in Hin as [? |Hin]; [done|]. destruct (StronglySorted_inv (cd_sorted _ _ _ _ Hcl)) as [_ Hall].
    rewrite Forall_forall in Hall. specialize (Hall x Hin). simpl in Hall. lia.
  - change (sends _) with (sh_chan (sy_sh s) ++ [p]).
    eapply (sorted_ext (fun p q => seq_of h p < seq_of h q)); [intros x y; by rewrite !Hsq|].
    apply sorted_snoc_seq; [rewrite <- Hsend; exact (oi_sends s Ho)|done].
  - intros x. rewrite Hl, Hsq. apply (oi_pos s Ho).
  - apply (oi_last s Ho).
  - intros i w Hi. destruct (oi_workers s Ho i w Hi) as (seen & Hbk & Hseen & Hpc). fold h in Hseen, Hpc. exists seen. unfold seen_ok. cbv zeta.
    sys_fields. fold h. fold h'. change (sends (mkSys _ _ _ _ _ _)) with (sh_chan (sy_sh s) ++ [p]).
    assert (Hseenp : seen < seq_of h p).
    { destruct Hseen as [-> |(q & Hq & <-)]; [by apply (oi_pos s Ho)|]. apply Hbef; try done. by right. }
    split_and!; [done| |].
    + destruct Hseen as [?|(q & Hq & <-)]; [by left|]. right. exists q. rewrite Hsq. split; [|done].
      rewrite Hoth; [done|]. intros ->. congruence.
    + destruct w as [[|x|x|x|x f|x] bk]; cbn [w_pc w_books] in *;
        try (intros c [Hc| ->]%Hsends'; rewrite Hsq; auto; done);
        destruct Hpc as (? & Hxs & Hall); (assert (x <> p) by (intros ->; congruence));
        rewrite !Hsq, Hoth by done; split_and!; try done;
        (intros c [Hc| ->]%Hsends'; rewrite Hsq; [by apply Hall|]; apply Hbef; try done; unfold escalated_status; auto).
Qed.

(** A step of the sorter that escalates nothing. *)
Lemma ord_sorter_quiet s sh' pc pc' :
  ord_inv s -> sy_sorters s = [pc] -> sh_heap sh' = sh_heap (sy_sh s) -> scan_ok (sh_heap (sy_sh s)) pc' ->
  sh_chan sh' ++ sorter_holds pc' = sh_chan (sy_sh s) ++ sorter_holds pc ->
  ord_inv (mkSys sh' (sy_last_seq s) [pc'] (sy_workers s) (sy_primaries s) (sy_claims s)).
Proof.
  intros Ho Hone Hh Hsc Hsend. eapply (ord_frame s); sys_fields; rewrite ?Hh; try done.
  - eauto.
  - unfold sends. sys_fields. rewrite Hone. simpl. rewrite !app_nil_r. by rewrite Hsend.
  - intros i w Hi. right. done.
Qed.

Lemma ord_sorter s i pc sh' pc' :
  sys_inv s -> ord_inv s -> clocked (sh_heap (sy_sh s)) ->
  sy_sorters s !! i = Some pc -> sorter_access (sy_sh s) pc = Some (sh', pc') ->
  ord_inv (mkSys sh' (sy_last_seq s) (<[i := pc']> (sy_sorters s)) (sy_workers s) (sy_primaries s) (sy_claims s)).
Proof.
  intros Hs Ho Hck Hi Ha. destruct (oi_scan s Ho) as (pc0 & Hone & Hsc). rewrite Hone in Hi.
  destruct i as [|i]; [|done]. injection Hi as ->. rewrite Hone. cbn [insert list_insert].
  pose proof (ord_sorter_quiet s) as Hq.
  destruct pc as [|now t [|p rest]|now t st age p rest|now t p rest]; cbn [sorter_access] in Ha; [done| | | |].
  - simplify_eq. by eapply Hq.
  - assert (Hp : is_Some (sh_heap (sy_sh s) !! p)).
    { apply lookup_lt_is_Some. pose proof (cd_range _ _ _ _ Hsc) as Hr. by inversion_clear Hr. }
    destruct Hp as [e He]. rewrite He in Ha. simplify_eq. eapply Hq; try done. split_and!; [done| |].
    + unfold age_ns, age_of, ts_of. by rewrite He.
    + unfold status_of. by rewrite He.
  - destruct Hsc as (Hcl & -> & Hst).
    assert (Hskip : st <> Pending \/ age_of (sh_heap (sy_sh s)) now p <= t -> closed (sh_heap (sy_sh s)) now t rest).
    { intros Hn. eapply closed_tail; [exact Hcl|]. intros [Hp Hage]. destruct Hn as [Hn|]; [by apply Hn, Hst|lia]. }
    destruct st; [|simplify_eq; eapply Hq; try done; apply Hskip; by left..].
    destruct (Z.ltb_spec t (age_of (sh_heap (sy_sh s)) now p)) as [Hlt|Hge]; [|simplify_eq; eapply Hq; try done; apply Hskip; by right].
    destruct (arc_claim Pending Unaddressed p (sh_heap (sy_sh s))) as [won h] eqn:Hclaim. simplify_eq.
    destruct (arc_claim_spec _ _ _ _ _ _ (si_status s Hs) Hclaim) as [(-> & e & He & Hes & ->)|(-> & -> & Hne)].
    + apply ord_escalate; try done. by rewrite Hone.
    + eapply Hq; try done. eapply closed_tail; [exact Hcl|]. intros [Hp _]. apply Hne; [|done].
      apply lookup_lt_is_Some. pose proof (cd_range _ _ _ _ Hcl) as Hr. by inversion_clear Hr.
  - simplify_eq. unfold chan_send. rewrite (proj2 (Nat.eqb_neq _ _) (si_receivers s Hs)). eapply Hq; try done.
    sys_fields. simpl. by rewrite app_nil_r.
Qed.

(** Steps that leave the sorter and the channel alone: worker [i] goes to [w']. *)
Lemma ord_worker_frame s h r i w' cl :
  ord_inv s -> forward (sh_heap (sy_sh s)) h ->
  (forall p, escalated_status (status_of h p) -> escalated_status (status_of (sh_heap (sy_sh s)) p)) ->
  (forall j w p, j <> i -> sy_workers s !! j = Some w -> worker_holds w = [p] \/ w_pc w = WApply p ->
     status_of h p = status_of (sh_heap (sy_sh s)) p) ->
  let s' := mkSys (mkShared h r (sh_chan (sy_sh s)) (sh_receivers (sy_sh s))) (sy_last_seq s) (sy_sorters s)
              (<[i := w']> (sy_workers s)) (sy_primaries s) cl in
  (exists seen, seen_ok s' seen w') -> ord_inv s'.
Proof.
  intros Ho Hf Hesc Hoth s' Hw'. apply (ord_frame s); try done.
  - destruct (oi_scan s Ho) as (pc & Hpc & Hsc). exists pc. split; [done|]. by eapply scan_ok_forward.
  - intros j w Hj. unfold s' in Hj. sys_fields. destruct (decide (j = i)) as [-> |Hne].
    + assert (Hi : (i < length (sy_workers s))%nat) by (apply lookup_lt_Some in Hj; by rewrite length_insert in Hj).
      rewrite list_lookup_insert_eq in Hj by done. simplify_eq. by left.
    + rewrite list_lookup_insert_ne in Hj by done. right. split; [done|]. intros p. by eapply Hoth.
Qed.

Lemma ord_worker_quiet s sh' i w' cl :
  ord_inv s -> sh_heap sh' = sh_heap (sy_sh s) -> sh_chan sh' = sh_chan (sy_sh s) -> (exists seen, seen_ok s seen w') ->
  ord_inv (mkSys sh' (sy_last_seq s) (sy_sorters s) (<[i := w']> (sy_workers s)) (sy_primaries s) cl).
Proof.
  intros Ho Hh Hch [seen Hw']. assert (Hse : forall ws ps, sends (mkSys sh' (sy_last_seq s) (sy_sorters s) ws ps cl) = sends s)
    by (intros; unfold sends; sys_fields; by rewrite Hch).
  apply (ord_frame s); sys_fields; rewrite ?Hh, ?Hse; try done.
  - apply (oi_scan s Ho).
  - intros j w Hj. destruct (decide (j = i)) as [-> |Hne].
    + assert (Hi : (i < length (sy_workers s))%nat) by (apply lookup_lt_Some in Hj; by rewrite length_insert in Hj).
      rewrite list_lookup_insert_eq in Hj by done. simplify_eq. left. exists seen. unfold seen_ok in *. cbv zeta in *. sys_fields.
      by rewrite Hh, Hse.
    + rewrite list_lookup_insert_ne in Hj by done. by right.
Qed.

Lemma bind_nodup_unique {A} (f : A -> list Arc) (l : list A) i j x y p :
  NoDup (l ≫= f) -> l !! i = Some x -> l !! j = Some y -> p ∈ f x -> p ∈ f y -> i = j.
Proof.
  revert i j. induction l as [|a l IH]; intros i j Hnd Hi Hj Hx Hy; [done|]. rewrite bind_cons in Hnd.
  apply NoDup_app in Hnd as (_ & Hd & Hnd).
  assert (Hin : forall k b, l !! k = Some b -> p ∈ f b -> p ∈ l ≫= f).
  { intros k b Hk Hb. apply list_elem_of_bind. exists b. split; [done|]. by eapply list_elem_of_lookup_2. }
  destruct i as [|i], j as [|j]; simpl in Hi, Hj; simplify_eq; [done|..].
  - exfalso. eapply Hd; [exact Hx|by eapply Hin].
  - exfalso. eapply Hd; [exact Hy|by eapply Hin].
  - f_equal. by eapply IH.
Qed.

Lemma ord_recv s i bk p c :
  sys_inv s -> ord_inv s -> sy_workers s !! i = Some (mkWorker WIdle bk) -> sh_chan (sy_sh s) = p :: c ->
  ord_inv (mkSys (sh_set_chan c (sy_sh s)) (sy_last_seq s) (sy_sorters s) (<[i := mkWorker (WGot p) bk]> (sy_workers s))
    (sy_primaries s) (sy_claims s)).
Proof.
  intros Hs Ho Hi Hch. assert (Hse : sends s = p :: c ++ (sy_sorters s ≫= sorter_holds)) by (unfold sends; by rewrite Hch).
  apply (ord_frame s); sys_fields; try done.
  - apply (oi_scan s Ho).
  - unfold sends at 1. sys_fields. rewrite Hse. by constructor.
  - intros j w Hj. destruct (decide (j = i)) as [-> |Hne].
    + rewrite list_lookup_insert_eq in Hj by (by eapply lookup_lt_Some). simplify_eq. left.
      destruct (oi_workers s Ho i _ Hi) as (seen & Hbk & Hseen & Hlow). exists seen. split_and!; [done|done|]. cbn [w_pc]. sys_fields.
      pose proof (oi_sends s Ho) as Hsort. rewrite Hse in Hsort, Hlow. apply StronglySorted_inv in Hsort as [_ Hall].
      split_and!; [apply Hlow; by left|apply sends_unaddressed; [done|rewrite Hse; by left]|].
      rewrite Forall_forall in Hall. intros x Hx. by apply Hall.
    + rewrite list_lookup_insert_ne in Hj by done. by right.
Qed.

Lemma ord_claim s i bk p e cl :
  sys_inv s -> ord_inv s -> sy_workers s !! i = Some (mkWorker (WClaim p) bk) ->
  sh_heap (sy_sh s) !! p = Some e -> load_status e = Unaddressed ->
  ord_inv (mkSys (sh_set_heap (<[p := store_status (status_to_u8 FinallyHandled) e]> (sh_heap (sy_sh s))) (sy_sh s))
    (sy_last_seq s) (sy_sorters s) (<[i := mkWorker (WApply p) bk]> (sy_workers s)) (sy_primaries s) cl).
Proof.
  intros Hs Ho Hi He Hes. destruct (claim_views _ p e FinallyHandled He) as (_ & Hto & Hoth & Hsq & _).
  assert (Hst : status_of (sh_heap (sy_sh s)) p = Unaddressed) by (unfold status_of; by rewrite He).
  apply ord_worker_frame; [done|apply forward_claim; [done|by rewrite Hes|done]|..].
  - intros x. destruct (decide (x = p)) as [-> |]; [rewrite Hst; by left|by rewrite Hoth].
  - intros j w x Hj Hw Hx. apply Hoth. intros ->. destruct Hx as [Hx|Hx].
    + apply Hj. pose proof (co_places_nodup _ _ _ _ _ _ _ _ _ (si_core s Hs)) as Hnd. unfold places in Hnd.
      apply NoDup_app in Hnd as (_ & _ & Hnd). apply NoDup_app in Hnd as (_ & _ & Hnd).
      eapply (bind_nodup_unique _ _ _ _ _ _ p Hnd Hw Hi); [rewrite Hx|]; by left.
    + destruct (oi_workers s Ho j w Hw) as (seen & _ & _ & Hpc). rewrite Hx in Hpc. destruct Hpc as (_ & Hpc & _). congruence.
  - destruct (oi_workers s Ho i _ Hi) as (seen & Hbk & Hseen & Hlo & _ & Hall). exists seen. unfold seen_ok. cbv zeta. sys_fields. cbn [w_pc w_books].
    split_and!; [done| |by rewrite Hsq|done|intros c Hc; rewrite !Hsq; by apply Hall].
    destruct Hseen as [?|(q & Hq & <-)]; [by left|]. right. exists q. rewrite Hsq. split; [|done].
    rewrite Hoth; [done|]. intros ->. congruence.
Qed.

Lemma ord_worker s i now_ns w sh' w' :
  sys_inv s -> ord_inv s -> clocked (sh_heap (sy_sh s)) ->
  sy_workers s !! i = Some w -> worker_access now_ns (sy_sh s) w = Some (sh', w') ->
  ord_inv (mkSys sh' (sy_last_seq s) (sy_sorters s) (<[i := w']> (sy_workers s)) (sy_primaries s)
    (sy_claims s ++ worker_claims (w_pc w) (w_pc w'))).
Proof.
  intros Hs Ho Hck Hi Ha. destruct (oi_workers s Ho i w Hi) as (seen & Hbk & Hseen & Hpc).
  destruct w as [[|p|p|p|p f|p] bk]; unfold worker_access in Ha; cbn [w_pc w_books] in *.
  - destruct (sh_chan (sy_sh s)) as [|p c] eqn:Hch; [done|]. simplify_eq. cbn [w_pc worker_claims]. rewrite app_nil_r.
    by apply ord_recv.
  - rewrite bool_decide_false in Ha by tauto. simplify_eq. apply ord_worker_quiet; [done..|]. by exists seen.
  - destruct (arc_claim _ _ p _) as [won h] eqn:Hcl. destruct (inv_worker_claim s i bk p won h Hs Hi Hcl) as [-> _].
    destruct (arc_claim_spec _ _ _ _ _ _ (si_status s Hs) Hcl) as [(_ & e & He & Hes & ->)|(? & _)]; [|done]. simplify_eq.
    by apply ord_claim.
  - destruct Hpc as (Hlo & Hst & Hall). destruct (sh_heap (sy_sh s) !! p) as [e|] eqn:He; [|done].
    assert (Hseq : seq_of (sh_heap (sy_sh s)) p = en_seq e) by (unfold seq_of; by rewrite He).
    destruct (escalated_effect bk seen e Hbk) as (fp & fq & known & bk' & Hap & Hbk' & _).
    { by rewrite <- Hseq. }
    { destruct Hck as [_ Hcmd]. rewrite Forall_lookup in Hcmd. by eapply Hcmd. }
    rewrite Hap in Ha. simplify_eq. apply ord_worker_quiet; [done..|].
    exists (seq_of (sh_heap (sy_sh s)) p). split_and!; sys_fields; [by rewrite Hseq|right; by exists p|done].
  - simplify_eq. destruct (forward_fill (sh_heap (sy_sh s)) f p) as [Hl Hsq Hts Hpe Hdo].
    destruct (fill_views f p (sh_heap (sy_sh s))) as (_ & Hstf & _).
    apply ord_worker_frame; [done|apply forward_fill|intros q; by rewrite Hstf|intros; by rewrite Hstf|].
    exists seen. unfold seen_ok. cbv zeta. sys_fields. split_and!; [done| |].
    + destruct Hseen as [?|(q & Hq & <-)]; [by left|]. right. exists q. by rewrite Hstf, Hsq.
    + cbn [w_pc]. destruct (fill_next f); intros c Hc; rewrite Hsq; by apply Hpc.
  - simplify_eq. apply ord_worker_quiet; [done..|]. by exists seen.
Qed.

(** Steps of the primary engines and the collector. *)
Lemma ord_env s h r ps cl :
  ord_inv s -> forward (sh_heap (sy_sh s)) h ->
  (forall p, status_of (sh_heap (sy_sh s)) p <> Pending -> status_of h p = status_of (sh_heap (sy_sh s)) p) ->
  (forall p, escalated_status (status_of h p) -> escalated_status (status_of (sh_heap (sy_sh s)) p)) ->
  ord_inv (mkSys (mkShared h r (sh_chan (sy_sh s)) (sh_receivers (sy_sh s))) (sy_last_seq s) (sy_sorters s)
    (sy_workers s) ps cl).
Proof.
  intros Ho Hf Hkeep Hesc. apply (ord_frame s); try done.
  - destruct (oi_scan s Ho) as (pc & Hpc & Hsc). exists pc. split; [done|]. by eapply scan_ok_forward.
  - intros i w Hi. right. split; [done|]. intros p Hp. apply Hkeep.
    destruct (oi_workers s Ho i w Hi) as (seen & _ & _ & Hpc). sys_fields.
    destruct w as [[] bk]; cbn [w_pc worker_holds] in *; destruct Hp as [Hp|Hp]; simplify_eq;
      destruct Hpc as (_ & -> & _); done.
Qed.

Lemma ord_step s s' :
  sys_inv s -> ord_inv s -> clocked (sh_heap (sy_sh s)) -> sys_step hash_command s s' -> ord_inv s'.
Proof.
  intros Hs Ho Hck Hstep.
  destruct Hstep as [seq term ts cmd Hlt|i now mon Hi|i pc sh' pc' Hi Ha|i now w sh' w' Hi Ha|i q h ts price qty Hi Hcl|i q f Hi|].
  - by apply ord_write.
  - destruct (oi_scan s Ho) as (pc0 & Hone & Hsc). rewrite Hone in Hi. destruct i as [|i]; [|done]. injection Hi as ->. rewrite Hone.
    eapply (ord_sorter_quiet s); try done. simpl. by apply closed_snapshot.
  - by eapply ord_sorter.
  - by eapply ord_worker.
  - destruct (arc_claim_spec _ _ _ _ _ _ (si_status s Hs) Hcl) as [(_ & e & He & Hes & ->)|(? & _)]; [|done].
    destruct (claim_views _ q e Addressed He) as (_ & Hto & Hoth & _ & _).
    assert (Hst : status_of (sh_heap (sy_sh s)) q = Pending) by (unfold status_of; by rewrite He).
    apply ord_env; [done|apply forward_claim; [done|by rewrite Hes|done]|..]; intros p;
      (destruct (decide (p = q)) as [-> |]; [|by rewrite Hoth]); rewrite ?Hto, ?Hst; [done|by intros [|]].
  - destruct (fill_views f q (sh_heap (sy_sh s))) as (_ & Hst & _).
    apply ord_env; [done|apply forward_fill|intros p _; apply Hst|intros p; by rewrite Hst].
  - apply ord_env; [done|apply forward_refl|done|done].
Qed.

(** ** What is written stays *)

Definition static (e : LogEntry) : Z * Z * Z * InboundCommand := (en_seq e, en_term e, en_timestamp_in e, en_cmd e).
Definition extends (h h' : Heap) : Prop := forall p e, h !! p = Some e -> exists e', h' !! p = Some e' /\ static e' = static e.

Lemma extends_refl h : extends h h.
Proof. intros p e He. by exists e. Qed.

Lemma extends_claim from to p h won h' : arc_claim from to p h = (won, h') -> extends h h'.
Proof.
  unfold arc_claim. destruct (h !! p) as [e|] eqn:He; [|intros [= _ <-]; apply extends_refl].
  unfold try_claim. destruct (_ =? _); intros [= _ <-]; intros q e0 Hq;
    (destruct (decide (q = p)) as [-> |]; [rewrite list_lookup_insert_eq by (by eapply lookup_lt_Some)|rewrite list_lookup_insert_ne by done]);
    simplify_eq; by eexists.
Qed.

Lemma extends_fill f p h : extends h (arc_update (fill_store f) p h).
Proof.
  intros q e Hq. unfold arc_update. destruct (decide (q = p)) as [-> |]; [|rewrite list_lookup_alter_ne by done; by exists e].
  rewrite list_lookup_alter_eq, Hq. eexists. split; [done|]. unfold fill_store. by destruct (f4_done f) as [|[|[|]]].
Qed.

Lemma step_extends s s' : sys_step hash_command s s' -> extends (sh_heap (sy_sh s)) (sh_heap (sy_sh s')).
Proof.
  intros Hstep.
  destruct Hstep as [seq term ts cmd Hlt|i now mon Hi|i pc sh' pc' Hi Ha|i now w sh' w' Hi Ha|i q h ts price qty Hi Hcl|i q f Hi|];
    sys_fields; try apply extends_refl; [..|by eapply extends_claim|apply extends_fill].
  - intros p e He. exists e. split; [by apply lookup_app_l_Some|done].
  - destruct pc as [|? ? [|q rest]|? t [] age q rest|]; cbn [sorter_access] in Ha; simplify_eq; try apply extends_refl.
    + destruct (_ !! q); simplify_eq; apply extends_refl.
    + destruct (t <? age); [|simplify_eq; apply extends_refl]. destruct (arc_claim _ _ _ _) as [won h] eqn:Hcl. simplify_eq.
      by eapply extends_claim.
    + unfold chan_send. destruct (_ =? _)%nat; apply extends_refl.
  - destruct w as [[|q|q|q|q f|q] bk]; unfold worker_access in Ha; cbn [w_pc w_books] in Ha.
    + destruct (sh_chan (sy_sh s)); simplify_eq; apply extends_refl.
    + simplify_eq. apply extends_refl.
    + destruct (arc_claim _ _ _ _) as [won h] eqn:Hcl. simplify_eq. by eapply extends_claim.
    + destruct (_ !! q); [|done]. destruct (apply_escalated _ _) as [[[[] ] ]| |]; simplify_eq; apply extends_refl.
    + simplify_eq. apply extends_fill.
    + simplify_eq. apply extends_refl.
Qed.

Lemma clocked_back h h' : extends h h' -> clocked h' -> clocked h.
Proof.
  intros He [Hts Hcmd]. split.
  - assert (Hlen : (length h <= length h')%nat).
    { destruct (decide (length h = 0)%nat) as [->|Hn]; [lia|]. destruct (lookup_lt_is_Some_2 h (length h - 1)) as [e Hl]; [lia|].
      destruct (He _ _ Hl) as (e' & Hl' & _). apply lookup_lt_Some in Hl'. lia. }
    assert (Heq : forall p, (p < length h)%nat -> ts_of h' p = ts_of h p).
    { intros p Hp. destruct (lookup_lt_is_Some_2 h p Hp) as [e Hl]. destruct (He _ _ Hl) as (e' & Hl' & Hs).
      unfold ts_of. rewrite Hl, Hl'. unfold static in Hs. by simplify_eq. }
    intros i j Hij. rewrite <- !Heq by lia. apply Hts. lia.
  - rewrite Forall_lookup in *. intros p e Hl. destruct (He _ _ Hl) as (e' & Hl' & Hs). specialize (Hcmd _ _ Hl').
    unfold static in Hs. injection Hs as H1 H2 H3 H4. by rewrite H1, H2, H3, H4 in Hcmd.
Qed.

Lemma ord_init workers primaries configs : Forall cfg_ok configs -> ord_inv (sy_init 1 workers primaries (build_books configs)).
Proof.
  intros Hcfg. split; simpl; try done; try lia.
  - by exists SIdle.
  - constructor.
  - intros i w Hi. apply lookup_replicate in Hi as [-> _]. exists 0. unfold seen_ok. cbv zeta. cbn [w_pc w_books].
    split_and!; [by apply build_books_inv|by left|]. intros c []%not_elem_of_nil.
Qed.

Lemma ord_reach workers primaries configs s :
  workers <> 0%nat -> Forall cfg_ok configs -> rtc (sys_step hash_command) (sy_init 1 workers primaries (build_books configs)) s ->
  clocked (sh_heap (sy_sh s)) -> sys_inv s /\ ord_inv s.
Proof.
  intros Hw Hcfg Hr. pattern s. revert Hr. apply rtc_ind_r; [|clear s].
  - intros _. split; [by apply sys_inv_init|by apply ord_init].
  - intros s s' _ Hstep IH Hck. destruct IH as [Hs Ho]; [by eapply clocked_back; [apply step_extends|]|].
    split; [by eapply sys_inv_step|]. eapply ord_step; try done. by eapply clocked_back; [apply step_extends|].
Qed.

(** C31. Escalation in sequence order, and no panic behind it: with one sorter,
    time stamps that follow the order of writing and well-typed commands, what
    is sent to the second engine is in order of sequence number; every worker
    receives only numbers above those its books have seen; so a worker that
    has claimed an entry always applies its command. *)
Theorem escalation_in_order workers primaries configs s :
  workers <> 0%nat -> Forall cfg_ok configs -> rtc (sys_step hash_command) (sy_init 1 workers primaries (build_books configs)) s ->
  clocked (sh_heap (sy_sh s)) ->
  StronglySorted (fun p q => seq_of (sh_heap (sy_sh s)) p < seq_of (sh_heap (sy_sh s)) q) (sends s)
  /\ (forall i w, sy_workers s !! i = Some w -> exists seen, books_inv (w_books w) seen
        /\ forall c, c ∈ sends s -> seen < seq_of (sh_heap (sy_sh s)) c)
  /\ (forall i w p now_ns, sy_workers s !! i = Some w -> w_pc w = WApply p ->
        exists f books, worker_access now_ns (sy_sh s) w = Some (sy_sh s, mkWorker (WStore p f) books)).
Proof.
  intros Hw Hcfg Hr Hck. destruct (ord_reach _ _ _ _ Hw Hcfg Hr Hck) as [Hs Ho]. split_and!; [apply Ho|..].
  - intros i w Hi. destruct (oi_workers s Ho i w Hi) as (seen & Hbk & _ & Hpc). exists seen. split; [done|].
    destruct w as [[] bk]; cbn [w_pc] in Hpc; try done; destruct Hpc as (Hlo & _ & Hall); intros c Hc; specialize (Hall c Hc); lia.
  - intros i [pc bk] p now_ns Hi Hpcw. cbn [w_pc] in Hpcw. subst pc.
    destruct (oi_workers s Ho i _ Hi) as (seen & Hbk & _ & Hlo & Hst & _).
    assert (Hp : is_Some (sh_heap (sy_sh s) !! p)).
    { apply lookup_lt_is_Some, (co_range _ _ _ _ _ _ _ _ _ (si_core s Hs)). by rewrite Hst. }
    destruct Hp as [e He]. unfold seq_of in Hlo. rewrite He in Hlo.
    destruct (escalated_effect bk seen e Hbk Hlo) as (fp & fq & known & bk' & Hap & _).
    { destruct Hck as [_ Hcmd]. rewrite Forall_lookup in Hcmd. by eapply Hcmd. }
    unfold worker_access. cbn [w_pc w_books]. rewrite He, Hap. by eexists _, _.
Qed.
End Order.

(** ** Witnesses: one order is written, escalated and handled *)

Module EscalationDemo.
Import GmapSlotMap GmapSkipMap.

Definition hash (_ : InboundCommand) : Z := 7.
Definition cmd : InboundCommand := Inbound_NewOrder 11 1 1 Sell 103 5 Limit Gtc.
Definition books : gmap Z OrderBook := build_books [BookDemo.cfg].
Definition monitor : LoadMonitor := mkLoad 0 0 1.
Definition start : Sys := sy_init 1 2 1 books.
Definition written : Sys :=
  let '(p, h) := arc_new (LogEntry_new hash 1 1 0 cmd) [] in
  mkSys (mkShared h (ring_push h p PendingRing_new) [] 2) 1 (sy_sorters start) (sy_workers start) (sy_primaries start) [].
Definition escalated : Sys :=
  mkSys (scan_once 1000000 monitor (sy_sh written, SorterMetrics_default)).1 1
    (sy_sorters start) (sy_workers start) (sy_primaries start) [].

Lemma written_reached : rtc (sys_step hash) start written.
Proof. apply rtc_once. apply (step_write hash start 1 1 0 cmd). reflexivity. Qed.
Lemma escalated_reached : rtc (sys_step hash) start escalated.
Proof.
  etransitivity; [exact written_reached|]. apply (scan_run hash 0 1000000 monitor written SorterMetrics_default); [reflexivity|].
  repeat constructor.
Qed.
Lemma escalated_clocked : clocked (sh_heap (sy_sh escalated)).
Proof.
  split; [intros i j Hij; change (length (sh_heap (sy_sh escalated))) with 1%nat in Hij; lia|].
  repeat constructor; vm_compute; congruence.
Qed.
Lemma configs_ok : Forall cfg_ok [BookDemo.cfg].
Proof. constructor; [exact BookDemo.cfg_ok_demo|constructor]. Qed.

(** What the first worker makes of it. *)
Definition handled : Shared * gmap Z OrderBook * SecondEngineMetrics :=
  match worker_handle 5 0 (sh_set_chan [] (sy_sh escalated)) books SecondEngineMetrics_default with
  | Val r => r
  | _ => (sy_sh escalated, books, SecondEngineMetrics_default)
  end.
Lemma handled_run : worker_handle 5 0 (sh_set_chan [] (sy_sh escalated)) books SecondEngineMetrics_default
  = Val (handled.1.1, handled.1.2, handled.2).
Proof.
  assert (H : match worker_handle 5 0 (sh_set_chan [] (sy_sh escalated)) books SecondEngineMetrics_default with
    Val _ => True | _ => False end) by (vm_compute; exact I).
  unfold handled. by destruct (worker_handle _ _ _ _ _) as [[[a b] c]| |].
Qed.
Lemma handled_reached : exists cl, rtc (sys_step hash) start
  (mkSys handled.1.1 1 (sy_sorters start) (<[0%nat := mkWorker WIdle handled.1.2]> (sy_workers start)) (sy_primaries start) cl).
Proof.
  destruct (worker_run hash 0 5 0 [] escalated books SecondEngineMetrics_default handled.1.1 handled.1.2 handled.2) as [cl H];
    [reflexivity|vm_compute; reflexivity|repeat constructor|exact handled_run|].
  exists cl. etransitivity; [exact escalated_reached|exact H].
Qed.

(** After a worker has handled entry 0, its claim is in the list, once. *)
Lemma escalation_claimed_once_witness : exists cl : list (Z * nat), (2, 0%nat) ∈ cl /\ NoDup cl.*2.
Proof.
  destruct handled_reached as [cl Hr]. exists cl.
  destruct (escalation_claimed_once hash 1 2 1 books _ 0%nat ltac:(discriminate) Hr) as (H1 & _ & H2).
  split; [apply H2; vm_compute; reflexivity|exact H1].
Defined.

Lemma escalation_never_lost_witness : 0%nat ∈ places escalated.
Proof.
  refine (proj2 (proj1 (proj2 (escalation_never_lost hash 1 2 1 books escalated 0 _ escalated_reached))) _);
    [discriminate|vm_compute; reflexivity].
Defined.

Lemma escalation_fill_final_witness :
  exists cl e, let s := mkSys handled.1.1 1 (sy_sorters start) (<[0%nat := mkWorker WIdle handled.1.2]> (sy_workers start)) (sy_primaries start) cl in
    en_handled_by e = 2 /\ forall s', rtc (sys_step hash) s s' -> sh_heap (sy_sh s') !! 0%nat = Some e.
Proof.
  destruct handled_reached as [cl Hr]. exists cl.
  destruct (sh_heap handled.1.1 !! 0%nat) as [e|] eqn:He; [|exfalso; revert He; vm_compute; discriminate].
  assert (Hh : en_handled_by e = 2) by (revert He; vm_compute; by intros [= <-]).
  exists e. split; [exact Hh|]. intros s' Hs'.
  refine (escalation_fill_final hash 1 2 1 books _ s' 0 e _ Hr He _ Hs'); [discriminate|rewrite Hh; discriminate].
Defined.

Lemma escalation_in_order_witness :
  StronglySorted (fun p q => seq_of (sh_heap (sy_sh escalated)) p < seq_of (sh_heap (sy_sh escalated)) q) (sends escalated).
Proof.
  refine (proj1 (escalation_in_order hash 2 1 [BookDemo.cfg] escalated _ configs_ok escalated_reached escalated_clocked)).
  discriminate.
Defined.
End EscalationDemo.
