(* ===== verification/Codec.v ===== *)
(** * Codec: the wire framing of the gateway (crates/gateway/src/codec.rs)

    A connection's read buffer is a list of bytes; [decode] takes one frame
    off its front and [encode] appends one to a write buffer.  [Reader] is the
    protocol the file documents for callers ("callers own the buffer and call
    [decode] repeatedly as more bytes arrive"), used to state that the cut of
    the byte stream into socket reads does not matter.  The getters and
    putters of the [bytes] crate that the message layouts use are here too. *)

From S2P Require Import Prelude Bytes.
#[local] Open Scope Z_scope.

Definition MAX_FRAME_LEN : Z := 64 * 1024.
Definition HEADER_LEN : nat := 4.

Inductive CodecError :=
| FrameTooLarge (len : Z)
| FrameTooShort
| UnknownMessageType (tag : Z).
#[export] Instance CodecError_eq_dec : EqDecision CodecError.
Proof. solve_decision. Defined.

Record Frame := mkFrame { fr_type : Z; fr_payload : list Z }.
#[export] Instance Frame_eq_dec : EqDecision Frame.
Proof. solve_decision. Defined.

(** The answer and the buffer left behind; [reserve] only sets capacity. *)
Definition decode (buf : list Z) : Result (option Frame) CodecError * list Z :=
  if (length buf <? HEADER_LEN)%nat then (Ok None, buf)
  else
    let len := le_value (take 4 buf) in
    if len =? 0 then (Err FrameTooShort, buf)
    else if MAX_FRAME_LEN <? len then (Err (FrameTooLarge len), buf)
    else
      let total_len := (HEADER_LEN + Z.to_nat len)%nat in
      if (length buf <? total_len)%nat then (Ok None, buf)
      else
        let buf1 := drop HEADER_LEN buf in
        let payload := take (Z.to_nat len) buf1 in
        let buf2 := drop (Z.to_nat len) buf1 in
        match payload with
        | [] => (Err FrameTooShort, buf2)
        | msg_type :: rest => (Ok (Some (mkFrame msg_type rest)), buf2)
        end.

(** [1u32.checked_add(n)]. *)
Definition checked_add_u32 (a b : Z) : option Z :=
  if decide (in_u32 (a + b)) then Some (a + b) else None.

Definition encode (msg_type : Z) (payload out : list Z) : Result unit CodecError * list Z :=
  match checked_add_u32 1 (wrap_u32 (Z.of_nat (length payload))) with
  | None => (Err (FrameTooLarge u32_max), out)
  | Some len =>
      if MAX_FRAME_LEN <? len then (Err (FrameTooLarge len), out)
      else (Ok tt, out ++ le_bytes 4 len ++ le_bytes 1 msg_type ++ payload)
  end.

(** ** Fields of the [bytes] crate

    [Buf::get_*_le] on a slice: the value and the rest; the crate panics when
    fewer bytes remain. *)
Definition get_le (n : nat) (p : list Z) : Exec (Z * list Z) :=
  if (length p <? n)%nat then Panic else Val (le_value (take n p), drop n p).

Abbreviation get_u8 := (get_le 1).
Abbreviation get_u64_le := (get_le 8).

Definition get_i64_le (p : list Z) : Exec (Z * list Z) :=
  let! '(v, r) := get_le 8 p in Val (wrap_i64 v, r).

(** ** Reading a stream as the callers are told to *)

(** Every complete frame at the front of the buffer, the error that ends the
    connection if there is one, and the bytes left. *)
Fixpoint drain (fuel : nat) (buf : list Z) : list Frame * option CodecError * list Z :=
  match fuel with
  | O => ([], None, buf)
  | S fuel' =>
      match decode buf with
      | (Ok None, b) => ([], None, b)
      | (Err e, b) => ([], Some e, b)
      | (Ok (Some f), b) => let '(fs, e, r) := drain fuel' b in (f :: fs, e, r)
      end
  end.

(** One step of fuel per byte and one more; a frame takes at least five. *)
Definition drain_all (buf : list Z) : list Frame * option CodecError * list Z :=
  drain (S (length buf)) buf.

Record Reader := mkReader { rd_frames : list Frame; rd_error : option CodecError; rd_buf : list Z }.

Definition Reader_new : Reader := mkReader [] None [].

(** A socket read brings [chunk]; after an error the connection is closed. *)
Definition feed (r : Reader) (chunk : list Z) : Reader :=
  match rd_error r with
  | Some _ => r
  | None =>
      let '(fs, e, b) := drain_all (rd_buf r ++ chunk) in
      mkReader (rd_frames r ++ fs) e b
  end.

Definition read_chunks (chunks : list (list Z)) : Reader := fold_left feed chunks Reader_new.

(** ** The format *)

Definition frame_bytes (f : Frame) : list Z :=
  le_bytes 4 (1 + Z.of_nat (length (fr_payload f))) ++ fr_type f :: fr_payload f.

Definition valid_frame (f : Frame) : Prop := 1 + Z.of_nat (length (fr_payload f)) <= MAX_FRAME_LEN.

Definition stream_bytes (fs : list Frame) : list Z := concat (map frame_bytes fs).

(** No complete frame yet: the length prefix or the body is still missing. *)
Definition incomplete (buf : list Z) : Prop :=
  (length buf < HEADER_LEN)%nat \/
  0 < le_value (take 4 buf) <= MAX_FRAME_LEN
    /\ Z.of_nat (length buf) < Z.of_nat HEADER_LEN + le_value (take 4 buf).

Definition bad_header (buf : list Z) (e : CodecError) : Prop :=
  (HEADER_LEN <= length buf)%nat /\
  ((le_value (take 4 buf) = 0 /\ e = FrameTooShort)
   \/ (MAX_FRAME_LEN < le_value (take 4 buf) /\ e = FrameTooLarge (le_value (take 4 buf)))).

(** ** Lemmas *)

Lemma take_le4 (buf more : list Z) :
  (HEADER_LEN <= length buf)%nat -> take 4 (buf ++ more) = take 4 buf.
Proof. unfold HEADER_LEN. intros H. rewrite take_app_le by lia. done. Qed.

(** What the front of a buffer of bytes can be. *)
Inductive front (buf : list Z) : Prop :=
| front_frame f r : valid_frame f -> buf = frame_bytes f ++ r -> front buf
| front_partial : incomplete buf -> front buf
| front_bad e : bad_header buf e -> front buf.

Lemma buf_front buf : Forall is_byte buf -> front buf.
Proof.
  intros Hb. destruct (decide (length buf < HEADER_LEN)%nat) as [Hl|Hl];
    [by apply front_partial; left|].
  set (len := le_value (take 4 buf)).
  assert (H4 : length (take 4 buf) = 4%nat) by (rewrite length_take; unfold HEADER_LEN in Hl; lia).
  assert (Hr : 0 <= len < 256 ^ Z.of_nat 4) by (rewrite <- H4; apply le_value_range; by apply Forall_take).
  destruct (decide (len = 0)) as [H0|H0]; [by apply (front_bad _ FrameTooShort); split; [lia|left]|].
  destruct (decide (MAX_FRAME_LEN < len)) as [HM|HM].
  { apply (front_bad _ (FrameTooLarge len)). split; [lia|by right]. }
  destruct (decide (Z.of_nat (length buf) < Z.of_nat HEADER_LEN + len)) as [Hi|Hi].
  { apply front_partial. right. subst len. lia. }
  assert (Hbody : length (take (Z.to_nat len) (drop 4 buf)) = Z.to_nat len)
    by (rewrite length_take, length_drop; unfold HEADER_LEN in *; lia).
  destruct (take (Z.to_nat len) (drop 4 buf)) as [|t p] eqn:Hp; [simpl in Hbody; lia|].
  simpl in Hbody. apply (front_frame _ (mkFrame t p) (drop (Z.to_nat len) (drop 4 buf))).
  - unfold valid_frame. simpl. lia.
  - unfold frame_bytes. cbn [fr_payload fr_type].
    replace (1 + Z.of_nat (length p)) with len by lia.
    replace (le_bytes 4 len) with (take 4 buf)
      by (rewrite <- (le_bytes_value (take 4 buf)), H4 at 1; [done|by apply Forall_take]).
    rewrite <- Hp, <- app_assoc, take_drop. by rewrite take_drop.
Qed.

Lemma decode_frame f r : valid_frame f -> decode (frame_bytes f ++ r) = (Ok (Some f), r).
Proof.
  intros Hf. unfold decode, frame_bytes. set (n := 1 + Z.of_nat (length (fr_payload f))).
  unfold valid_frame in Hf. fold n in Hf. unfold MAX_FRAME_LEN in *.
  rewrite <- app_assoc, <- app_comm_cons.
  rewrite !length_app, length_le_bytes. cbn [length]. unfold HEADER_LEN.
  rewrite (proj2 (Nat.ltb_ge _ _)) by lia.
  replace (take 4 (le_bytes 4 n ++ fr_type f :: fr_payload f ++ r)) with (le_bytes 4 n)
    by (rewrite take_app_length' by (by rewrite length_le_bytes); done).
  rewrite le_value_bytes by lia.
  replace (drop 4 (le_bytes 4 n ++ fr_type f :: fr_payload f ++ r)) with (fr_type f :: fr_payload f ++ r)
    by (rewrite drop_app_length' by (by rewrite length_le_bytes); done).
  rewrite (proj2 (Z.eqb_neq _ _)), (proj2 (Z.ltb_ge _ _)) by lia.
  rewrite length_app, (proj2 (Nat.ltb_ge _ _)) by lia.
  replace (Z.to_nat n) with (S (length (fr_payload f))) by lia. cbn [take drop].
  rewrite take_app_length, drop_app_length. by destruct f.
Qed.

Lemma decode_incomplete buf : incomplete buf -> decode buf = (Ok None, buf).
Proof.
  unfold decode, incomplete. intros [Hs|[Hr Hs]]; [by rewrite (proj2 (Nat.ltb_lt _ _))|].
  destruct (_ <? _)%nat; [done|]. rewrite (proj2 (Z.eqb_neq _ _)), (proj2 (Z.ltb_ge _ _)) by lia.
  rewrite (proj2 (Nat.ltb_lt _ _)); [done|]. lia.
Qed.

Lemma decode_bad buf e : bad_header buf e -> decode buf = (Err e, buf).
Proof.
  unfold decode, bad_header. intros [Hl Hc]. rewrite (proj2 (Nat.ltb_ge _ _)) by done.
  destruct Hc as [[H0 ->]|[HM ->]]; [by rewrite H0|].
  rewrite (proj2 (Z.eqb_neq _ _)), (proj2 (Z.ltb_lt _ _)); [done|lia|unfold MAX_FRAME_LEN in *; lia].
Qed.

Lemma bad_header_app buf more e : bad_header buf e -> bad_header (buf ++ more) e.
Proof.
  intros [Hl Hc]. split; [rewrite length_app; lia|]. by rewrite take_le4.
Qed.

Lemma length_frame_bytes f : length (frame_bytes f) = (5 + length (fr_payload f))%nat.
Proof. unfold frame_bytes. rewrite length_app, length_le_bytes. simpl. lia. Qed.

(** With the fuel of [drain_all] the loop stops because no frame is left. *)
Lemma drain_spec fuel buf :
  Forall is_byte buf -> (length buf < fuel)%nat ->
  exists fs e r, drain fuel buf = (fs, e, r) /\ buf = stream_bytes fs ++ r /\ Forall valid_frame fs
    /\ match e with None => incomplete r | Some e => bad_header r e end.
Proof.
  revert buf. induction fuel as [|fuel IH]; intros buf Hb Hl; [lia|]. cbn [drain].
  destruct (buf_front buf Hb) as [f r Hf ->|Hi|e He].
  - rewrite decode_frame by done. apply Forall_app in Hb as [_ Hb].
    rewrite length_app, length_frame_bytes in Hl.
    destruct (IH r Hb ltac:(lia)) as (fs & e & r' & -> & -> & Hfs & He).
    exists (f :: fs), e, r'. split_and!; [done| |by constructor|done].
    unfold stream_bytes. simpl. by rewrite <- app_assoc.
  - rewrite decode_incomplete by done. by exists [], None, buf.
  - rewrite (decode_bad _ e) by done. by exists [], (Some e), buf.
Qed.

(** Whole frames in front are read first. *)
Lemma drain_stream fs r fuel :
  Forall valid_frame fs -> (length fs <= fuel)%nat ->
  drain fuel (stream_bytes fs ++ r) =
    let '(fs', e, r') := drain (fuel - length fs) r in (fs ++ fs', e, r').
Proof.
  intros Hfs. revert fuel. induction Hfs as [|f fs Hf _ IH]; intros fuel Hl.
  { simpl. rewrite Nat.sub_0_r. by destruct (drain fuel r) as [[??]?]. }
  destruct fuel as [|fuel]; [simpl in Hl; lia|]. cbn [drain length Nat.sub].
  unfold stream_bytes. cbn [map concat]. rewrite <- app_assoc, decode_frame by done.
  change (concat (map frame_bytes fs)) with (stream_bytes fs). simpl in Hl. rewrite IH by lia.
  by destruct (drain (fuel - length fs) r) as [[??]?].
Qed.

Lemma length_stream_ge fs : (length fs <= length (stream_bytes fs))%nat.
Proof.
  induction fs as [|f fs IH]; [done|]. unfold stream_bytes in *. cbn [map concat length].
  rewrite length_app, length_frame_bytes. lia.
Qed.

(** More fuel than needed changes nothing. *)
Lemma drain_fuel f1 f2 buf :
  Forall is_byte buf -> (length buf < f1)%nat -> (length buf < f2)%nat -> drain f1 buf = drain f2 buf.
Proof.
  revert f2 buf. induction f1 as [|f1 IH]; intros f2 buf Hb H1 H2; [lia|].
  destruct f2 as [|f2]; [lia|]. cbn [drain].
  destruct (buf_front buf Hb) as [f r Hf ->|Hi|e He].
  - rewrite decode_frame by done. apply Forall_app in Hb as [_ Hb].
    rewrite length_app, length_frame_bytes in H1, H2. rewrite (IH f2 r) by (done || lia). done.
  - by rewrite decode_incomplete.
  - by rewrite (decode_bad _ e).
Qed.

Lemma drain_all_stream fs r :
  Forall valid_frame fs -> Forall is_byte r ->
  drain_all (stream_bytes fs ++ r) = let '(fs', e, r') := drain_all r in (fs ++ fs', e, r').
Proof.
  intros Hfs Hr. unfold drain_all. pose proof (length_stream_ge fs).
  rewrite drain_stream by (done || (rewrite length_app; lia)).
  rewrite (drain_fuel _ (S (length r)) r); [done|done|rewrite length_app; lia|lia].
Qed.

Lemma drain_all_incomplete r : incomplete r -> drain_all r = ([], None, r).
Proof. intros Hi. unfold drain_all. cbn [drain]. by rewrite decode_incomplete. Qed.

Lemma drain_all_bad r e : bad_header r e -> drain_all r = ([], Some e, r).
Proof. intros Hi. unfold drain_all. cbn [drain]. by rewrite (decode_bad _ e). Qed.

(** The state of a reader that has been given the bytes [seen]. *)
Definition reader_at (r : Reader) (seen : list Z) : Prop :=
  exists rest, seen = stream_bytes (rd_frames r) ++ rest /\ Forall valid_frame (rd_frames r)
    /\ match rd_error r with
       | None => rd_buf r = rest /\ incomplete rest
       | Some e => bad_header rest e
       end.

Lemma feed_reader_at r seen chunk :
  Forall is_byte (seen ++ chunk) -> reader_at r seen -> reader_at (feed r chunk) (seen ++ chunk).
Proof.
  intros Hb (rest & -> & Hv & Hr). unfold feed. destruct (rd_error r) as [e|] eqn:He.
  - exists (rest ++ chunk). rewrite <- app_assoc, He. split_and!; [done|done|by apply bad_header_app].
  - destruct Hr as [-> Hi]. rewrite <- app_assoc in Hb. apply Forall_app in Hb as [_ Hb].
    destruct (drain_spec (S (length (rest ++ chunk))) _ Hb ltac:(lia)) as (fs & e & r' & Hd & Heq & Hf & Hend).
    fold (drain_all (rest ++ chunk)) in Hd. rewrite Hd. exists r'. cbn [rd_frames rd_error rd_buf].
    split_and!; [|by apply Forall_app|by destruct e].
    rewrite <- app_assoc, Heq, app_assoc. f_equal. unfold stream_bytes. by rewrite map_app, concat_app.
Qed.

Lemma incomplete_nil : incomplete [].
Proof. left. unfold HEADER_LEN. simpl. lia. Qed.

Lemma read_chunks_at chunks :
  Forall is_byte (concat chunks) -> reader_at (read_chunks chunks) (concat chunks).
Proof.
  unfold read_chunks. change (concat chunks) with ([] ++ concat chunks) at 2.
  assert (H0 : reader_at Reader_new []).
  { exists []. split_and!; [done|constructor|]. split; [done|apply incomplete_nil]. }
  assert (Hs : Forall is_byte []) by constructor. revert H0 Hs.
  generalize Reader_new. generalize (@nil Z) as seen.
  induction chunks as [|c cs IH]; intros seen r Hr Hs Hb; simpl in *; [by rewrite app_nil_r|].
  apply Forall_app in Hb as [Hc Hb]. rewrite app_assoc.
  apply IH; [|by apply Forall_app|done]. apply feed_reader_at; [by apply Forall_app|done].
Qed.

(** A stream determines its frames and the error that ends it. *)
Lemma reader_at_unique r seen fs e rest :
  Forall is_byte seen -> reader_at r seen -> drain_all seen = (fs, e, rest) ->
  rd_frames r = fs /\ rd_error r = e /\ (e = None -> rd_buf r = rest).
Proof.
  intros Hb (rest0 & -> & Hv & Hr) Hd. apply Forall_app in Hb as [_ Hb].
  rewrite drain_all_stream in Hd by done. destruct (rd_error r) as [e0|].
  - rewrite (drain_all_bad _ e0) in Hd by done. simplify_eq. by rewrite app_nil_r.
  - destruct Hr as [-> Hi]. rewrite drain_all_incomplete in Hd by done. simplify_eq. by rewrite app_nil_r.
Qed.

(** ** Getters *)

Lemma get_le_here n v r : 0 <= v < 256 ^ Z.of_nat n -> get_le n (le_bytes n v ++ r) = Val (v, r).
Proof.
  intros Hv. unfold get_le. rewrite length_app, length_le_bytes, (proj2 (Nat.ltb_ge _ _)) by lia.
  rewrite take_app_length', drop_app_length' by (by rewrite length_le_bytes). by rewrite le_value_bytes.
Qed.

Lemma get_le_bytes n p :
  Forall is_byte p -> (n <= length p)%nat ->
  exists v r, get_le n p = Val (v, r) /\ p = le_bytes n v ++ r /\ 0 <= v < 256 ^ Z.of_nat n
    /\ Forall is_byte r /\ length r = (length p - n)%nat.
Proof.
  intros Hb Hn. exists (le_value (take n p)), (drop n p). unfold get_le.
  assert (Hl : length (take n p) = n) by (rewrite length_take; lia).
  rewrite (proj2 (Nat.ltb_ge _ _)) by done.
  assert (Hr : 0 <= le_value (take n p) < 256 ^ Z.of_nat n)
    by (rewrite <- Hl at 3; apply le_value_range; by apply Forall_take).
  split; [done|]. split; [|split; [done|split; [|by rewrite length_drop]]].
  - rewrite <- Hl at 1. rewrite le_bytes_value by by apply Forall_take. by rewrite take_drop.
  - by apply Forall_drop.
Qed.

(** The signed field of a layout. *)
Lemma wrap_i64_mod z : in_i64 z -> wrap_i64 (z mod two64) = z.
Proof.
  intros Hz. unfold wrap_i64. rewrite Z.add_mod_idemp_l by done. by apply wrap_i64_id.
Qed.

Lemma le_bytes_S n z : le_bytes (S n) z = z mod 256 :: le_bytes n (z / 256).
Proof. done. Qed.

Lemma le_bytes_mod n z : le_bytes n (z mod 256 ^ Z.of_nat n) = le_bytes n z.
Proof.
  revert z. induction n as [|n IH]; intros z; [done|]. rewrite !le_bytes_S.
  rewrite Nat2Z.inj_succ, Z.pow_succ_r by lia.
  assert (Hp : 0 < 256 ^ Z.of_nat n) by (apply Z.pow_pos_nonneg; lia).
  rewrite Z.rem_mul_r, (Z.mul_comm 256) by lia. rewrite Z.mod_add, Z.mod_mod, Z.div_add by lia.
  rewrite (Z.div_small (z mod 256)), Z.add_0_l by (apply Z.mod_pos_bound; lia). by rewrite IH.
Qed.

Lemma get_i64_here z r : in_i64 z -> get_i64_le (le_bytes 8 z ++ r) = Val (z, r).
Proof.
  intros Hz. unfold get_i64_le. rewrite <- le_bytes_mod.
  rewrite get_le_here by (apply Z.mod_pos_bound; lia). cbn [ebind].
  change (256 ^ Z.of_nat 8) with two64. by rewrite wrap_i64_mod.
Qed.

Lemma get_i64_bytes p :
  Forall is_byte p -> (8 <= length p)%nat ->
  exists z r, get_i64_le p = Val (z, r) /\ p = le_bytes 8 z ++ r /\ in_i64 z
    /\ Forall is_byte r /\ length r = (length p - 8)%nat.
Proof.
  intros Hb Hn. destruct (get_le_bytes 8 p Hb Hn) as (v & r & Hg & -> & Hv & Hr & Hl).
  unfold get_i64_le. rewrite Hg. cbn [ebind]. exists (wrap_i64 v), r.
  split_and!; [done| |apply wrap_i64_range|done|done]. f_equal.
  rewrite <- (le_bytes_mod 8 (wrap_i64 v)). change (256 ^ Z.of_nat 8) with two64 in *. f_equal.
  unfold wrap_i64. rewrite Zminus_mod_idemp_l. rewrite Z.add_simpl_r. symmetry. by apply Z.mod_small.
Qed.

(** ** Encoding *)

Lemma encode_spec t p out :
  Z.of_nat (length p) < two32 - 1 ->
  encode t p out =
    if decide (valid_frame (mkFrame t p))
    then (Ok tt, out ++ le_bytes 4 (1 + Z.of_nat (length p)) ++ le_bytes 1 t ++ p)
    else (Err (FrameTooLarge (1 + Z.of_nat (length p))), out).
Proof.
  intros Hl. unfold encode, checked_add_u32, wrap_u32. rewrite Z.mod_small by ilia.
  rewrite decide_True by ilia. unfold valid_frame. simpl. case_decide.
  - by rewrite (proj2 (Z.ltb_ge _ _)) by lia.
  - by rewrite (proj2 (Z.ltb_lt _ _)) by lia.
Qed.

Lemma le_bytes_byte t : is_byte t -> le_bytes 1 t = [t].
Proof. intros [??]. rewrite le_bytes_S. by rewrite Z.mod_small by lia. Qed.

Lemma encode_valid f out :
  is_byte (fr_type f) -> valid_frame f ->
  encode (fr_type f) (fr_payload f) out = (Ok tt, out ++ frame_bytes f).
Proof.
  intros Ht Hv. destruct f as [t p]. unfold valid_frame, MAX_FRAME_LEN in *. cbn [fr_type fr_payload] in *.
  rewrite encode_spec by (unfold two32; lia).
  rewrite decide_True by (unfold valid_frame, MAX_FRAME_LEN; simpl; lia).
  by rewrite le_bytes_byte.
Qed.

(** Frames written one after another into a write buffer. *)
Fixpoint encode_all (fs : list Frame) (out : list Z) : Result unit CodecError * list Z :=
  match fs with
  | [] => (Ok tt, out)
  | f :: fs' =>
      match encode (fr_type f) (fr_payload f) out with
      | (Ok _, out') => encode_all fs' out'
      | r => r
      end
  end.

Lemma encode_all_valid fs out :
  Forall (fun f => is_byte (fr_type f) /\ valid_frame f) fs ->
  encode_all fs out = (Ok tt, out ++ stream_bytes fs).
Proof.
  intros Hfs. revert out. induction Hfs as [|f fs [Ht Hv] _ IH]; intros out; cbn [encode_all].
  - by rewrite app_nil_r.
  - rewrite encode_valid, IH by done. unfold stream_bytes. cbn [map concat]. by rewrite app_assoc.
Qed.

(** ** Properties *)

(** C32. The cut of a byte stream into socket reads does not matter: calling
    [decode] until it has no frame after each read gives the same frames, the
    same error and, without an error, the same bytes left as reading the whole
    stream at once. What it gives is the one split of the stream into frames of the documented
    format followed by either an incomplete frame or a bad length prefix; no
    byte is lost, invented or read twice. *)
Theorem codec_chunking chunks :
  Forall is_byte (concat chunks) ->
  let r := read_chunks chunks in
  exists fs e rest, drain_all (concat chunks) = (fs, e, rest)
    /\ rd_frames r = fs /\ rd_error r = e /\ (e = None -> rd_buf r = rest)
    /\ concat chunks = stream_bytes fs ++ rest /\ Forall valid_frame fs
    /\ match e with None => incomplete rest | Some e => bad_header rest e end.
Proof.
  intros Hb r. destruct (drain_spec (S (length (concat chunks))) _ Hb ltac:(lia))
    as (fs & e & rest & Hd & Heq & Hv & He).
  exists fs, e, rest. split; [done|].
  destruct (reader_at_unique r _ fs e rest Hb (read_chunks_at _ Hb) Hd) as (? & ? & ?).
  by split_and!.
Qed.

(** Frames survive the wire: frames encoded one after another into a
    write buffer are decoded to exactly those frames, in order, however the
    bytes are cut into reads, and nothing is left over; a payload of 64 KiB or
    more is refused and the write buffer is left as it was. *)
Theorem codec_roundtrip fs chunks :
  Forall (fun f => is_byte (fr_type f) /\ Forall is_byte (fr_payload f) /\ valid_frame f) fs ->
  encode_all fs [] = (Ok tt, concat chunks) ->
  read_chunks chunks = mkReader fs None []
  /\ forall t p out, MAX_FRAME_LEN <= Z.of_nat (length p) < two32 - 1 ->
       encode t p out = (Err (FrameTooLarge (1 + Z.of_nat (length p))), out).
Proof.
  intros Hfs Hc. split.
  - rewrite encode_all_valid in Hc by (eapply Forall_impl; [done|naive_solver]).
    simplify_eq Hc. intros Hs. simpl in Hs.
    assert (Hv : Forall valid_frame fs) by (eapply Forall_impl; [done|naive_solver]).
    assert (Hb : Forall is_byte (concat chunks)).
    { rewrite <- Hs. unfold stream_bytes. apply Forall_concat, Forall_map. eapply Forall_impl; [exact Hfs|].
      intros f (Ht & Hp & _). unfold frame_bytes. apply Forall_app. split; [apply le_bytes_bytes|by constructor]. }
    pose proof (drain_all_stream fs [] Hv ltac:(constructor)) as Hd.
    rewrite app_nil_r, Hs, (drain_all_incomplete []), app_nil_r in Hd by apply incomplete_nil.
    destruct (reader_at_unique _ _ _ _ _ Hb (read_chunks_at _ Hb) Hd) as (H1 & H2 & H3).
    specialize (H3 eq_refl). destruct (read_chunks chunks). simpl in *. by subst.
  - intros t p out Hp. rewrite encode_spec by lia. rewrite decide_False; [done|].
    unfold valid_frame. simpl. lia.
Qed.

Module CodecDemo.
(** A frame cut inside its length prefix, then a frame that claims 0 bytes. *)
Definition chunks : list (list Z) := [[3; 0]; [0; 0; 7; 1]; [2; 1; 0; 0; 0; 9; 0; 0; 0; 0]].

Lemma bytes_ok l : forallb (fun b => (0 <=? b) && (b <? 256)) l = true -> Forall is_byte l.
Proof.
  intros H. apply List.Forall_forall. intros b Hb. rewrite forallb_forall in H.
  specialize (H b). rewrite andb_true_iff, Z.leb_le, Z.ltb_lt in H. by apply H.
Qed.

Lemma codec_chunking_witness :
  rd_frames (read_chunks chunks) = [mkFrame 7 [1; 2]; mkFrame 9 []]
  /\ exists fs e rest, drain_all (concat chunks) = (fs, e, rest)
    /\ rd_frames (read_chunks chunks) = fs /\ rd_error (read_chunks chunks) = e.
Proof.
  split; [vm_compute; reflexivity|].
  destruct (codec_chunking chunks) as (fs & e & rest & H1 & H2 & H3 & _);
    [apply bytes_ok; reflexivity|by exists fs, e, rest].
Defined.

Definition sent : list Frame := [mkFrame 1 [10; 20; 30]; mkFrame 2 []].
Definition cut : list (list Z) := [[4; 0; 0; 0; 1; 10]; [20]; [30; 1; 0; 0]; [0; 2]].

Lemma codec_roundtrip_witness : read_chunks cut = mkReader sent None [].
Proof.
  apply codec_roundtrip; [|vm_compute; reflexivity].
  unfold sent, valid_frame, is_byte, MAX_FRAME_LEN.
  rewrite !Forall_cons, Forall_nil. cbn [fr_type fr_payload length].
  split_and!; try lia; try constructor; repeat first [constructor; lia | apply Forall_cons; split; [lia|]]; try constructor.
Defined.
End CodecDemo.
