(* ===== verification/Session.v ===== *)
(** * Session: client messages and execution reports (crates/gateway/src/session.rs)

    The payload decoders, the session that turns frames into commands on its
    lane of the sequencer's input, and the encoder of execution reports.  The
    lane is any queue that satisfies the interface [Fifo].  The layouts the
    comments of session.rs document are given independently, as [msg_frame]
    for what a client sends and the reader [read_report] for what it receives,
    and the decoders and encoders are proved against them. *)

From stdpp Require Import strings.
From S2P Require Import Prelude CoreTypes Bytes RingBuffer Fifo Codec.
#[local] Open Scope list_scope.
#[local] Open Scope Z_scope.

(** [mod msg_type]. *)
Definition NEW_ORDER : Z := 1.
Definition CANCEL_ORDER : Z := 2.
Definition SUBSCRIBE_MD : Z := 3.
Definition UNSUBSCRIBE_MD : Z := 4.
Definition EXEC_REPORT : Z := 129.
Definition REJECT : Z := 130.
Definition MARKET_DATA : Z := 131.
Definition ERROR : Z := 255.

Inductive SessionError :=
| SE_Codec (e : CodecError)
| SE_MalformedPayload (msg_type : Z) (reason : string)
| SE_QueueFull
| SE_UnsupportedCommand (e : CommandConversionError).
#[export] Instance SessionError_eq_dec : EqDecision SessionError.
Proof. solve_decision. Defined.

(** [enum SessionAction]. *)
Inductive SessionAction :=
| WriteFrame (frame : list Z)
| Close.

(** ** Payload decoding *)

Definition malformed {A} (msg_type : Z) (reason : string) : Exec (Result A SessionError) :=
  Val (Err (SE_MalformedPayload msg_type reason)).

Definition decode_new_order (account_id : Z) (payload : list Z) : Exec (Result NewOrder SessionError) :=
  if negb (length payload =? 8 + 8 + 1 + 1 + 8 + 8 + 1)%nat
  then malformed NEW_ORDER "unexpected payload length"
  else
    let! '(client_order_id, p) := get_u64_le payload in
    let! '(instrument_id, p) := get_u64_le p in
    let! '(side_tag, p) := get_u8 p in
    match (if side_tag =? 0 then Some Buy else if side_tag =? 1 then Some Sell else None) with
    | None => malformed NEW_ORDER "invalid side"
    | Some side =>
        let! '(order_type_tag, p) := get_u8 p in
        let! '(price_raw, p) := get_i64_le p in
        let! '(qty, p) := get_u64_le p in
        let! '(tif_tag, _) := get_u8 p in
        match (if tif_tag =? 0 then Some Gtc else if tif_tag =? 1 then Some Ioc
               else if tif_tag =? 2 then Some Fok else None) with
        | None => malformed NEW_ORDER "invalid time_in_force"
        | Some tif =>
            match (if order_type_tag =? 0 then Some Limit
                   else if order_type_tag =? 1 then Some Market else None) with
            | None => malformed NEW_ORDER "invalid order_type"
            | Some order_type =>
                if Qty.is_zero qty then malformed NEW_ORDER "qty must be > 0"
                else Val (Ok (mkNewOrder account_id instrument_id client_order_id side price_raw
                                order_type qty tif))
            end
        end
    end.

Definition decode_cancel_order (account_id : Z) (payload : list Z) :
    Exec (Result CancelOrder SessionError) :=
  if negb (length payload =? 8 + 8)%nat then malformed CANCEL_ORDER "unexpected payload length"
  else
    let! '(instrument_id, p) := get_u64_le payload in
    let! '(order_id, _) := get_u64_le p in
    Val (Ok (mkCancelOrder account_id instrument_id order_id)).

Definition decode_instrument_id (payload : list Z) : Exec (Result Z SessionError) :=
  if negb (length payload =? 8)%nat then malformed SUBSCRIBE_MD "unexpected payload length"
  else let! '(id, _) := get_u64_le payload in Val (Ok id).

(** ** Execution reports *)

Definition cancel_reason_tag (r : CancelReason) : Z :=
  match r with
  | CR_UserRequested => 0
  | CR_TimeInForceExpired => 1
  | CR_RiskLimitBreach => 2
  | CR_InstrumentHalted => 3
  end.

Definition reject_reason_tag (r : RejectReason) : Z :=
  match r with
  | RR_RiskLimitBreach => 0
  | RR_InstrumentHalted => 1
  | RR_InvalidPrice => 2
  | RR_InvalidQuantity => 3
  | RR_UnknownInstrument => 4
  | RR_UnknownOrder => 5
  | RR_InvalidQty => 6
  | RR_PriceOutOfRange => 7
  | RR_IocNoMatch => 8
  | RR_ArenaFull => 9
  | RR_OrderNotFound => 10
  | RR_WrongAccount => 11
  | RR_FokNotFullyFillable => 12
  | RR_UnsupportedOrderType => 13
  end.

(** [BytesMut::put_u8], [put_u64_le] and [put_i64_le] append [le_bytes]. *)
Definition encode_exec_report (ev : Event) (out : list Z) : Result unit CodecError * list Z :=
  match ev with
  | Event_Accepted _ _ order_id _ client_order_id side price qty =>
      encode EXEC_REPORT
        (le_bytes 1 0 ++ le_bytes 8 order_id ++ le_bytes 8 client_order_id
         ++ le_bytes 1 (if is_buy side then 0 else 1) ++ le_bytes 8 price ++ le_bytes 8 qty) out
  | Event_Filled _ fill =>
      encode EXEC_REPORT
        (le_bytes 1 1 ++ le_bytes 8 (f_aggressor_order_id fill) ++ le_bytes 8 (f_price fill)
         ++ le_bytes 8 (f_qty fill) ++ le_bytes 8 (f_aggressor_remaining_qty fill) ++ le_bytes 1 1) out
  | Event_Canceled _ _ order_id _ reason remaining_qty =>
      encode EXEC_REPORT
        (le_bytes 1 2 ++ le_bytes 8 order_id ++ le_bytes 1 (cancel_reason_tag reason)
         ++ le_bytes 8 remaining_qty) out
  | Event_Rejected _ _ client_order_id reason =>
      encode EXEC_REPORT
        (le_bytes 1 3 ++ le_bytes 8 client_order_id ++ le_bytes 1 (reject_reason_tag reason)) out
  | Event_Modified _ _ order_id _ new_qty new_price =>
      encode EXEC_REPORT
        (le_bytes 1 4 ++ le_bytes 8 order_id ++ le_bytes 8 new_qty
         ++ match new_price with
            | Some p => le_bytes 1 1 ++ le_bytes 8 p
            | None => le_bytes 1 0 ++ le_bytes 8 0
            end) out
  | Event_InstrumentHalted _ _ | Event_InstrumentResumed _ _ => (Ok tt, out)
  end.

Definition encode_event_for (account_id : Z) (ev : Event) (out : list Z) :
    Result bool CodecError * list Z :=
  let report :=
    match encode_exec_report ev out with
    | (Err e, out') => (Err e, out')
    | (Ok _, out') => (Ok true, out')
    end in
  match ev with
  | Event_Accepted _ _ _ ev_acct _ _ _ _
  | Event_Canceled _ _ _ ev_acct _ _
  | Event_Rejected _ ev_acct _ _
  | Event_Modified _ _ _ ev_acct _ _ =>
      if ev_acct =? account_id then report else (Ok false, out)
  | Event_Filled _ fill =>
      if (f_aggressor_account_id fill =? account_id) || (f_resting_account_id fill =? account_id)
      then report else (Ok false, out)
  | _ => (Ok false, out)
  end.

(** ** The session *)

(** [SpscProducer<InboundCommand, 4096>]. *)
Definition CMD_QUEUE_CAP : nat := Z.to_nat 4096.

Section Session.
Context {Q : Type} `{!Fifo Q InboundCommand CMD_QUEUE_CAP}.

Record Session := mkSession {
  s_id : Z;
  s_account_id : Z;
  cmd_producer : Q;
  subscriptions : gset Z;
  client_order_map : gmap Z Z
}.

Definition Session_new (id account_id : Z) (producer : Q) : Session :=
  mkSession id account_id producer ∅ ∅.

Definition set_producer (q : Q) (s : Session) : Session :=
  mkSession (s_id s) (s_account_id s) q (subscriptions s) (client_order_map s).
Definition set_subscriptions (subs : gset Z) (s : Session) : Session :=
  mkSession (s_id s) (s_account_id s) (cmd_producer s) subs (client_order_map s).

Definition enqueue (cmd : Command) (s : Session) : Result unit SessionError * Session :=
  match inbound_try_from cmd with
  | Err e => (Err (SE_UnsupportedCommand e), s)
  | Ok inbound =>
      match fifo_push inbound (cmd_producer s) with
      | (Ok _, q) => (Ok tt, set_producer q s)
      | (Err _, q) => (Err SE_QueueFull, set_producer q s)
      end
  end.

(** The [?] of a decoder, and [enqueue(..)?; Ok(None)]. *)
Definition enqueue_decoded {A} (mk : A -> Command) (s : Session) (r : Result A SessionError) :
    Result (option SessionAction) SessionError * Session :=
  match r with
  | Err e => (Err e, s)
  | Ok a =>
      match enqueue (mk a) s with
      | (Err e, s') => (Err e, s')
      | (Ok _, s') => (Ok None, s')
      end
  end.

Definition dispatch_frame (frame : Frame) (s : Session) :
    Exec (Result (option SessionAction) SessionError * Session) :=
  if fr_type frame =? NEW_ORDER then
    let! r := decode_new_order (s_account_id s) (fr_payload frame) in
    Val (enqueue_decoded Command_New s r)
  else if fr_type frame =? CANCEL_ORDER then
    let! r := decode_cancel_order (s_account_id s) (fr_payload frame) in
    Val (enqueue_decoded Command_Cancel s r)
  else if fr_type frame =? SUBSCRIBE_MD then
    let! r := decode_instrument_id (fr_payload frame) in
    match r with
    | Err e => Val (Err e, s)
    | Ok id => Val (Ok None, set_subscriptions ({[id]} ∪ subscriptions s) s)
    end
  else if fr_type frame =? UNSUBSCRIBE_MD then
    let! r := decode_instrument_id (fr_payload frame) in
    match r with
    | Err e => Val (Err e, s)
    | Ok id => Val (Ok None, set_subscriptions (subscriptions s ∖ {[id]}) s)
    end
  else Val (Err (SE_MalformedPayload (fr_type frame) "unknown inbound message type"), s).

Definition handle_inbound (buf : list Z) (s : Session) :
    Exec (Result (option SessionAction) SessionError * Session * list Z) :=
  match decode buf with
  | (Err e, buf') => Val (Err (SE_Codec e), s, buf')
  | (Ok None, buf') => Val (Ok None, s, buf')
  | (Ok (Some frame), buf') =>
      let! '(r, s') := dispatch_frame frame s in Val (r, s', buf')
  end.

Definition record_order_mapping (client_order_id order_id : Z) (s : Session) : Session :=
  mkSession (s_id s) (s_account_id s) (cmd_producer s) (subscriptions s)
    (<[client_order_id := order_id]> (client_order_map s)).

(** [HashMap::iter] visits the entries in an order the map does not fix. *)
Definition client_order_id_for (iter : gmap Z Z -> list (Z * Z)) (order_id : Z) (s : Session) : option Z :=
  fst <$> List.find (fun e => snd e =? order_id) (iter (client_order_map s)).

Definition encode_event (ev : Event) (out : list Z) (s : Session) : Result bool CodecError * list Z :=
  encode_event_for (s_account_id s) ev out.
End Session.

(** ** The client protocol, as session.rs documents its layouts *)

Definition side_tag (s : Side) : Z := match s with Buy => 0 | Sell => 1 end.
Definition order_type_tag (t : OrderType) : Z := match t with Limit => 0 | Market => 1 end.
Definition tif_tag (t : TimeInForce) : Z := match t with Gtc => 0 | Ioc => 1 | Fok => 2 end.

Definition new_order_payload (n : NewOrder) : list Z :=
  le_bytes 8 (no_client_order_id n) ++ le_bytes 8 (no_instrument_id n)
  ++ le_bytes 1 (side_tag (no_side n)) ++ le_bytes 1 (order_type_tag (no_order_type n))
  ++ le_bytes 8 (no_price n) ++ le_bytes 8 (no_qty n) ++ le_bytes 1 (tif_tag (no_time_in_force n)).

Definition cancel_payload (c : CancelOrder) : list Z :=
  le_bytes 8 (co_instrument_id c) ++ le_bytes 8 (co_order_id c).

(** The values the fields of an order can hold; a quantity is not zero. *)
Record wf_new_order (n : NewOrder) : Prop := {
  wn_client : in_u64 (no_client_order_id n);
  wn_instrument : in_u64 (no_instrument_id n);
  wn_price : in_i64 (no_price n);
  wn_qty : 0 < no_qty n < two64
}.

Inductive ClientMsg :=
| CNew (n : NewOrder)
| CCancel (c : CancelOrder)
| CSubscribe (id : Z)
| CUnsubscribe (id : Z).

Definition msg_frame (m : ClientMsg) : Frame :=
  match m with
  | CNew n => mkFrame NEW_ORDER (new_order_payload n)
  | CCancel c => mkFrame CANCEL_ORDER (cancel_payload c)
  | CSubscribe id => mkFrame SUBSCRIBE_MD (le_bytes 8 id)
  | CUnsubscribe id => mkFrame UNSUBSCRIBE_MD (le_bytes 8 id)
  end.

(** A message of the connection's account with its fields in range. *)
Definition wf_msg (account_id : Z) (m : ClientMsg) : Prop :=
  match m with
  | CNew n => wf_new_order n /\ no_account_id n = account_id
  | CCancel c => in_u64 (co_instrument_id c) /\ in_u64 (co_order_id c) /\ co_account_id c = account_id
  | CSubscribe id | CUnsubscribe id => in_u64 id
  end.

(** The command a message asks for. *)
Definition msg_command (m : ClientMsg) : option InboundCommand :=
  match m with
  | CNew n => Some (Inbound_NewOrder (no_account_id n) (no_client_order_id n) (no_instrument_id n)
      (no_side n) (no_price n) (no_qty n) (no_order_type n) (no_time_in_force n))
  | CCancel c => Some (Inbound_Cancel (co_account_id c) (co_order_id c))
  | _ => None
  end.

(** An order for an instrument outside the 16 bits of a symbol. *)
Definition out_of_range (m : ClientMsg) : option Z :=
  match m with
  | CNew n => if no_instrument_id n <=? 65535 then None else Some (no_instrument_id n)
  | _ => None
  end.

Definition msg_subs (m : ClientMsg) (subs : gset Z) : gset Z :=
  match m with
  | CSubscribe id => {[id]} ∪ subs
  | CUnsubscribe id => subs ∖ {[id]}
  | _ => subs
  end.

(** The types of a queued command: a symbol of 16 bits, a price of 64 signed
    bits, a positive quantity of 64 bits, and the account of the session. *)
Definition typed_command (account_id : Z) (cmd : InboundCommand) : Prop :=
  match cmd with
  | Inbound_NewOrder acct coid symbol _ price qty _ _ =>
      acct = account_id /\ in_u64 coid /\ 0 <= symbol <= 65535 /\ in_i64 price /\ 0 < qty < two64
  | Inbound_Cancel acct oid => acct = account_id /\ in_u64 oid
  | Inbound_Liquidate _ _ | Inbound_FreezeAccount _ => False
  end.

(** ** Decoding *)

Lemma pow_8 : 256 ^ Z.of_nat 8 = two64.
Proof. reflexivity. Qed.

Lemma length_new_order_payload n : length (new_order_payload n) = 35%nat.
Proof. unfold new_order_payload. by rewrite !length_app, !length_le_bytes. Qed.

Lemma length_cancel_payload c : length (cancel_payload c) = 16%nat.
Proof. unfold cancel_payload. by rewrite !length_app, !length_le_bytes. Qed.

(** Reading the next field of a documented layout. *)
Ltac read_field :=
  first [ rewrite get_i64_here by done
        | rewrite get_le_here by (rewrite ?pow_8; done || lia) ]; cbn [ebind].

Lemma decode_new_order_payload n :
  wf_new_order n -> decode_new_order (no_account_id n) (new_order_payload n) = Val (Ok n).
Proof.
  intros [Hc Hi Hp Hq]. unfold decode_new_order. rewrite length_new_order_payload. cbn [Nat.eqb negb Nat.add].
  unfold new_order_payload. destruct n as [acct instr coid side price ot qty tif]. cbn in *.
  rewrite <- (app_nil_r (le_bytes 1 (tif_tag tif))).
  assert (Hq0 : in_u64 qty) by (unfold in_u64; lia).
  do 2 read_field. rewrite get_le_here by (destruct side; simpl; lia). cbn [ebind].
  rewrite get_le_here by (destruct ot; simpl; lia). cbn [ebind]. do 2 read_field.
  rewrite get_le_here by (destruct tif; simpl; lia). cbn [ebind].
  assert (Qty.is_zero qty = false) as Hz by (unfold Qty.is_zero; lia).
  destruct side, ot, tif; cbn; by rewrite Hz.
Qed.

(** Taking the next field off a buffer of bytes that is long enough. *)
Ltac next_field p v r :=
  let H := fresh in let Hb := fresh "Hb" in let Hl := fresh "Hl" in let Hv := fresh "Hv" in
  match goal with
  | Hbp : Forall is_byte p |- context [get_le ?n p] =>
      destruct (get_le_bytes n p Hbp ltac:(lia)) as (v & r & H & -> & Hv & Hb & Hl)
  | Hbp : Forall is_byte p |- context [get_i64_le p] =>
      destruct (get_i64_bytes p Hbp ltac:(lia)) as (v & r & H & -> & Hv & Hb & Hl)
  end;
  rewrite ?length_app, ?length_le_bytes in *; rewrite H; clear H; cbn [ebind].

(** Whatever the bytes, the decoder returns: an order of the documented
    layout, or a refusal. *)
Lemma decode_new_order_bytes acct p :
  Forall is_byte p ->
  (exists n, decode_new_order acct p = Val (Ok n) /\ wf_new_order n /\ no_account_id n = acct
     /\ p = new_order_payload n)
  \/ exists reason, decode_new_order acct p = Val (Err (SE_MalformedPayload NEW_ORDER reason)).
Proof.
  intros Hp. unfold decode_new_order. destruct (length p =? _)%nat eqn:Hlen; [|right; by eexists].
  apply Nat.eqb_eq in Hlen. cbn [negb].
  next_field p coid p1. next_field p1 instr p2. next_field p2 st p3.
  destruct (if st =? 0 then _ else _) as [side|] eqn:Hside; [|right; by eexists].
  next_field p3 ot p4. next_field p4 price p5. next_field p5 qty p6. next_field p6 tg p7.
  destruct (if tg =? 0 then _ else _) as [tif|] eqn:Htif; [|right; by eexists].
  destruct (if ot =? 0 then _ else _) as [oty|] eqn:Hot; [|right; by eexists].
  unfold Qty.is_zero. destruct (qty =? 0) eqn:Hq; [right; by eexists|]. left.
  eexists. split; [done|]. rewrite pow_8 in *. split; [by constructor; simpl; try done; lia|].
  split; [done|]. unfold new_order_payload. cbn [no_client_order_id no_instrument_id no_side
    no_order_type no_price no_qty no_time_in_force].
  destruct p7; [|simpl in *; lia]. rewrite app_nil_r.
  repeat f_equal; repeat case_match; simplify_eq; simpl; lia.
Qed.

Lemma decode_cancel_payload c :
  in_u64 (co_instrument_id c) -> in_u64 (co_order_id c) ->
  decode_cancel_order (co_account_id c) (cancel_payload c) = Val (Ok c).
Proof.
  intros Hi Ho. unfold decode_cancel_order. rewrite length_cancel_payload. cbn [Nat.eqb negb Nat.add].
  unfold cancel_payload. rewrite <- (app_nil_r (le_bytes 8 (co_order_id c))).
  do 2 read_field. by destruct c.
Qed.

Lemma decode_cancel_bytes acct p :
  Forall is_byte p ->
  (exists c, decode_cancel_order acct p = Val (Ok c) /\ wf_msg acct (CCancel c) /\ p = cancel_payload c)
  \/ exists reason, decode_cancel_order acct p = Val (Err (SE_MalformedPayload CANCEL_ORDER reason)).
Proof.
  intros Hp. unfold decode_cancel_order. destruct (length p =? _)%nat eqn:Hlen; [|right; by eexists].
  apply Nat.eqb_eq in Hlen. cbn [negb]. next_field p i p1. next_field p1 o p2. left.
  eexists. split; [done|]. rewrite pow_8 in *. split; [done|]. destruct p2; [|simpl in *; lia].
  unfold cancel_payload. by rewrite app_nil_r.
Qed.

Lemma decode_instrument_bytes p :
  Forall is_byte p ->
  (exists id, decode_instrument_id p = Val (Ok id) /\ in_u64 id /\ p = le_bytes 8 id)
  \/ exists reason, decode_instrument_id p = Val (Err (SE_MalformedPayload SUBSCRIBE_MD reason)).
Proof.
  intros Hp. unfold decode_instrument_id. destruct (length p =? _)%nat eqn:Hlen; [|right; by eexists].
  apply Nat.eqb_eq in Hlen. cbn [negb]. next_field p i p1. left.
  eexists. split; [done|]. rewrite pow_8 in *. split; [done|]. destruct p1; [|simpl in *; lia].
  by rewrite app_nil_r.
Qed.

Lemma decode_instrument_payload id : in_u64 id -> decode_instrument_id (le_bytes 8 id) = Val (Ok id).
Proof.
  intros Hi. unfold decode_instrument_id. rewrite length_le_bytes. cbn [Nat.eqb negb].
  rewrite <- (app_nil_r (le_bytes 8 id)). by read_field.
Qed.

Section SessionFacts.
Context {Q : Type} `{!Fifo Q InboundCommand CMD_QUEUE_CAP}.

(** What handling the message [m] does to a session whose lane has had [pu]
    pushed and [n] popped. *)
Definition handled (m : ClientMsg) (s : Session (Q := Q)) (pu : list InboundCommand) (n : nat)
    (r : Result (option SessionAction) SessionError) (s' : Session) : Prop :=
  match out_of_range m with
  | Some id => r = Err (SE_UnsupportedCommand (SymbolOutOfRange (mkSymbolRangeError id))) /\ s' = s
  | None =>
      match msg_command m with
      | None => r = Ok None /\ s' = set_subscriptions (msg_subs m (subscriptions s)) s
      | Some cmd =>
          if decide (length pu = n + CMD_QUEUE_CAP)%nat then r = Err SE_QueueFull /\ s' = s
          else r = Ok None /\ exists q, s' = set_producer q s /\ fifo_hist q (pu ++ [cmd]) n
      end
  end.

Lemma set_producer_id (s : Session (Q := Q)) : set_producer (cmd_producer s) s = s.
Proof. by destruct s. Qed.

(** Pushing a converted command. *)
Lemma enqueue_inbound cmd inbound (s : Session (Q := Q)) pu n :
  inbound_try_from cmd = Ok inbound -> fifo_hist (cmd_producer s) pu n ->
  exists r s', enqueue cmd s = (r, s') /\
    if decide (length pu = n + CMD_QUEUE_CAP)%nat then r = Err SE_QueueFull /\ s' = s
    else r = Ok tt /\ exists q, s' = set_producer q s /\ fifo_hist q (pu ++ [inbound]) n.
Proof.
  intros Hc Hq. unfold enqueue. rewrite Hc. pose proof (fifo_push_hist _ _ _ inbound Hq) as Hp.
  case_decide.
  - rewrite Hp. eexists _, _. split; [done|]. by rewrite set_producer_id.
  - destruct Hp as (q & -> & Hh). eexists _, _. split; [done|]. split; [done|]. by exists q.
Qed.

(** A well-formed message is handled as it asks. *)
Lemma dispatch_msg m (s : Session (Q := Q)) pu n :
  wf_msg (s_account_id s) m -> fifo_hist (cmd_producer s) pu n ->
  exists r s', dispatch_frame (msg_frame m) s = Val (r, s') /\ handled m s pu n r s'.
Proof.
  intros Hm Hq. unfold dispatch_frame, handled.
  destruct m as [o|c|id|id]; cbn [msg_frame fr_type fr_payload msg_command out_of_range msg_subs]; cbn in Hm.
  - destruct Hm as [Hw Ha]. change (NEW_ORDER =? NEW_ORDER) with true. cbv iota.
    rewrite <- Ha, decode_new_order_payload by done. cbn [ebind enqueue_decoded].
    destruct (no_instrument_id o <=? 65535) eqn:Hs.
    + destruct (enqueue_inbound (Command_New o) _ s pu n ltac:(simpl; unfold Symbol.try_from; by rewrite Hs) Hq)
        as (r & s' & -> & Hr). case_decide; destruct Hr as [-> Hr]; by eexists _, _.
    + unfold enqueue. simpl. unfold Symbol.try_from. rewrite Hs. by eexists _, _.
  - destruct Hm as (Hi & Ho & Ha). change (CANCEL_ORDER =? NEW_ORDER) with false.
    change (CANCEL_ORDER =? CANCEL_ORDER) with true. cbv iota.
    rewrite <- Ha, decode_cancel_payload by done. cbn [ebind enqueue_decoded].
    destruct (enqueue_inbound (Command_Cancel c) _ s pu n ltac:(done) Hq) as (r & s' & -> & Hr).
    case_decide; destruct Hr as [-> Hr]; by eexists _, _.
  - cbn. rewrite decode_instrument_payload by done. cbn [ebind]. by eexists _, _.
  - cbn. rewrite decode_instrument_payload by done. cbn [ebind]. by eexists _, _.
Qed.

(** Any frame is a well-formed message or is refused with nothing changed. *)
Lemma dispatch_bytes f (s : Session (Q := Q)) :
  Forall is_byte (fr_payload f) ->
  (exists m, wf_msg (s_account_id s) m /\ f = msg_frame m)
  \/ exists t reason, dispatch_frame f s = Val (Err (SE_MalformedPayload t reason), s).
Proof.
  destruct f as [t p]. cbn [fr_payload]. intros Hp. unfold dispatch_frame. cbn [fr_type fr_payload].
  destruct (Z.eqb_spec t NEW_ORDER) as [->|_].
  { destruct (decode_new_order_bytes (s_account_id s) p Hp) as [(n & _ & Hw & Ha & ->)|[r ->]];
      [left; by exists (CNew n)|right; by eexists _, _]. }
  destruct (Z.eqb_spec t CANCEL_ORDER) as [->|_].
  { destruct (decode_cancel_bytes (s_account_id s) p Hp) as [(c & _ & Hw & ->)|[r ->]];
      [left; by exists (CCancel c)|right; by eexists _, _]. }
  destruct (Z.eqb_spec t SUBSCRIBE_MD) as [->|_].
  { destruct (decode_instrument_bytes p Hp) as [(c & _ & Hw & ->)|[r ->]];
      [left; by exists (CSubscribe c)|right; by eexists _, _]. }
  destruct (Z.eqb_spec t UNSUBSCRIBE_MD) as [->|_].
  { destruct (decode_instrument_bytes p Hp) as [(c & _ & Hw & ->)|[r ->]];
      [left; by exists (CUnsubscribe c)|right; by eexists _, _]. }
  right. by eexists _, _.
Qed.

Lemma handled_not_malformed m (s s' : Session (Q := Q)) pu n r t reason :
  handled m s pu n r s' -> r <> Err (SE_MalformedPayload t reason).
Proof. unfold handled. intros H. repeat case_match; try case_decide; naive_solver. Qed.

(** What is refused as malformed is no message. *)
Lemma malformed_no_msg f (s : Session (Q := Q)) pu n t reason m :
  fifo_hist (cmd_producer s) pu n -> dispatch_frame f s = Val (Err (SE_MalformedPayload t reason), s) ->
  wf_msg (s_account_id s) m -> f <> msg_frame m.
Proof.
  intros Hq Hd Hm ->. destruct (dispatch_msg m s pu n Hm Hq) as (r & s' & Hd' & Hh).
  apply (handled_not_malformed _ _ _ _ _ _ t reason Hh). congruence.
Qed.

(** A command of a well-formed message in the range of symbols is typed. *)
Lemma msg_command_typed acct m cmd :
  wf_msg acct m -> out_of_range m = None -> msg_command m = Some cmd -> typed_command acct cmd.
Proof.
  destruct m as [o|c|?|?]; simpl; intros Hm Hr Hc; simplify_eq; simpl.
  - destruct Hm as [[Hc Hi Hp Hq] Ha]. case_match; [|done]. unfold in_u64 in *. split_and!; try done; lia.
  - naive_solver.
Qed.

(** C33. A session handles exactly the documented protocol: a frame that is a
    well-formed message of its account has that message's effect (the command
    is appended to its lane, or the subscription set changed; an instrument
    outside the symbols and a full lane are refused with the session
    unchanged), every other frame is refused as malformed and changes nothing,
    and no bytes make the decoders read past a payload. *)
Theorem session_dispatch f (s : Session (Q := Q)) pu n :
  Forall is_byte (fr_payload f) -> fifo_hist (cmd_producer s) pu n ->
  (exists m r s', wf_msg (s_account_id s) m /\ f = msg_frame m
     /\ dispatch_frame f s = Val (r, s') /\ handled m s pu n r s')
  \/ ((forall m, wf_msg (s_account_id s) m -> f <> msg_frame m)
      /\ exists t reason, dispatch_frame f s = Val (Err (SE_MalformedPayload t reason), s)).
Proof.
  intros Hb Hq. destruct (dispatch_bytes f s Hb) as [(m & Hm & ->)|(t & reason & Hd)].
  - left. destruct (dispatch_msg m s pu n Hm Hq) as (r & s' & ? & ?). by exists m, r, s'.
  - right. split; [|by eexists _, _]. intros m Hm. by eapply malformed_no_msg.
Qed.
End SessionFacts.

(** The NEW_ORDER payload is a faithful code of typed orders: a payload
    of any bytes is decoded to an order exactly when the order has its fields
    in range, belongs to the session's account and is laid out as documented
    (so every order can be sent and no two payloads stand for one order), and
    every other payload is refused. *)
Theorem new_order_wire_exact acct p :
  Forall is_byte p ->
  (forall n, decode_new_order acct p = Val (Ok n) <->
     wf_new_order n /\ no_account_id n = acct /\ p = new_order_payload n)
  /\ ((exists n, decode_new_order acct p = Val (Ok n))
      \/ exists reason, decode_new_order acct p = Val (Err (SE_MalformedPayload NEW_ORDER reason))).
Proof.
  intros Hp. destruct (decode_new_order_bytes acct p Hp) as [(n & Hd & Hw & Ha & Hn)|[reason Hd]].
  - split; [|left; by exists n]. intros n'. split; [intros Hd'; by assert (n' = n) as -> by congruence|].
    intros (Hw' & <- & ->). by apply decode_new_order_payload.
  - split; [|right; by eexists]. intros n. split; [congruence|].
    intros (Hw & <- & ->). by apply decode_new_order_payload.
Qed.

(** ** What a client reads of an execution report *)

Inductive Report :=
| RAccepted (order_id client_order_id : Z) (side : Side) (price qty : Z)
| RFilled (order_id price qty remaining_qty : Z) (is_aggressor : bool)
| RCanceled (order_id : Z) (reason : CancelReason) (remaining_qty : Z)
| RRejected (client_order_id : Z) (reason : RejectReason)
| RModified (order_id new_qty : Z) (new_price : option Z).

(** Inverses of the reason tags, by search. *)
Definition cancel_reasons : list CancelReason :=
  [CR_UserRequested; CR_TimeInForceExpired; CR_RiskLimitBreach; CR_InstrumentHalted].
Definition reject_reasons : list RejectReason :=
  [RR_RiskLimitBreach; RR_InstrumentHalted; RR_InvalidPrice; RR_InvalidQuantity; RR_InvalidQty;
   RR_UnknownInstrument; RR_UnknownOrder; RR_PriceOutOfRange; RR_IocNoMatch; RR_ArenaFull;
   RR_OrderNotFound; RR_WrongAccount; RR_FokNotFullyFillable; RR_UnsupportedOrderType].
Definition of_tag {A} (tag : A -> Z) (all : list A) (t : Z) : Exec A :=
  expect (List.find (fun a => tag a =? t) all).

(** A client's reader of the layouts in the comment above [encode_exec_report]. *)
Definition read_report (p : list Z) : Exec Report :=
  let! '(variant, p) := get_u8 p in
  if variant =? 0 then
    let! '(oid, p) := get_u64_le p in let! '(coid, p) := get_u64_le p in
    let! '(sd, p) := get_u8 p in let! '(price, p) := get_i64_le p in
    let! '(qty, _) := get_u64_le p in
    Val (RAccepted oid coid (if sd =? 0 then Buy else Sell) price qty)
  else if variant =? 1 then
    let! '(oid, p) := get_u64_le p in let! '(price, p) := get_i64_le p in
    let! '(qty, p) := get_u64_le p in let! '(rem, p) := get_u64_le p in
    let! '(agg, _) := get_u8 p in Val (RFilled oid price qty rem (agg =? 1))
  else if variant =? 2 then
    let! '(oid, p) := get_u64_le p in let! '(rt, p) := get_u8 p in
    let! '(rem, _) := get_u64_le p in
    let! reason := of_tag cancel_reason_tag cancel_reasons rt in Val (RCanceled oid reason rem)
  else if variant =? 3 then
    let! '(coid, p) := get_u64_le p in let! '(rt, _) := get_u8 p in
    let! reason := of_tag reject_reason_tag reject_reasons rt in Val (RRejected coid reason)
  else if variant =? 4 then
    let! '(oid, p) := get_u64_le p in let! '(q, p) := get_u64_le p in
    let! '(has, p) := get_u8 p in let! '(price, _) := get_i64_le p in
    Val (RModified oid q (if has =? 1 then Some price else None))
  else Panic.

(** The report of an event.  A fill is reported with the aggressor's order and
    as the aggressor's, to whichever of the two accounts it is sent. *)
Definition event_report (ev : Event) : option Report :=
  match ev with
  | Event_Accepted _ _ oid _ coid side price qty => Some (RAccepted oid coid side price qty)
  | Event_Filled _ f =>
      Some (RFilled (f_aggressor_order_id f) (f_price f) (f_qty f) (f_aggressor_remaining_qty f) true)
  | Event_Canceled _ _ oid _ reason rem => Some (RCanceled oid reason rem)
  | Event_Rejected _ _ coid reason => Some (RRejected coid reason)
  | Event_Modified _ _ oid _ q price => Some (RModified oid q price)
  | Event_InstrumentHalted _ _ | Event_InstrumentResumed _ _ => None
  end.

(** The accounts an event is about. *)
Definition event_accounts (ev : Event) : list Z :=
  match ev with
  | Event_Accepted _ _ _ a _ _ _ _ | Event_Canceled _ _ _ a _ _ | Event_Rejected _ a _ _
  | Event_Modified _ _ _ a _ _ => [a]
  | Event_Filled _ f => [f_aggressor_account_id f; f_resting_account_id f]
  | Event_InstrumentHalted _ _ | Event_InstrumentResumed _ _ => []
  end.

(** The fields a report carries hold machine integers. *)
Definition report_in_range (r : Report) : Prop :=
  match r with
  | RAccepted oid coid _ price qty => in_u64 oid /\ in_u64 coid /\ in_i64 price /\ in_u64 qty
  | RFilled oid price qty rem _ => in_u64 oid /\ in_i64 price /\ in_u64 qty /\ in_u64 rem
  | RCanceled oid _ rem => in_u64 oid /\ in_u64 rem
  | RRejected coid _ => in_u64 coid
  | RModified oid q price => in_u64 oid /\ in_u64 q /\ match price with Some p => in_i64 p | None => True end
  end.

Lemma cancel_tag_inv r : of_tag cancel_reason_tag cancel_reasons (cancel_reason_tag r) = Val r.
Proof. by destruct r. Qed.
Lemma reject_tag_inv r : of_tag reject_reason_tag reject_reasons (reject_reason_tag r) = Val r.
Proof. by destruct r. Qed.
Lemma cancel_tag_byte r : 0 <= cancel_reason_tag r < 256 ^ Z.of_nat 1.
Proof. destruct r; simpl; lia. Qed.
Lemma reject_tag_byte r : 0 <= reject_reason_tag r < 256 ^ Z.of_nat 1.
Proof. destruct r; simpl; lia. Qed.

(** Read the last field of a layout too. *)
Ltac read_last := rewrite <- (app_nil_r (le_bytes _ _)); read_field.

(** The encoder appends one frame, and the reader gets the report back. *)
Lemma encode_exec_report_frame ev r out :
  event_report ev = Some r -> report_in_range r ->
  exists f, encode_exec_report ev out = (Ok tt, out ++ frame_bytes f)
    /\ decode (frame_bytes f) = (Ok (Some f), []) /\ fr_type f = EXEC_REPORT
    /\ read_report (fr_payload f) = Val r.
Proof.
  assert (Henc : forall p, (length p < 100)%nat -> read_report p = Val r ->
    exists f, encode EXEC_REPORT p out = (Ok tt, out ++ frame_bytes f)
      /\ decode (frame_bytes f) = (Ok (Some f), []) /\ fr_type f = EXEC_REPORT
      /\ read_report (fr_payload f) = Val r).
  { intros p Hp Hr. exists (mkFrame EXEC_REPORT p).
    assert (valid_frame (mkFrame EXEC_REPORT p)) by (unfold valid_frame, MAX_FRAME_LEN; simpl; lia).
    split_and!; [by apply (encode_valid (mkFrame EXEC_REPORT p))| |done|done].
    rewrite <- (app_nil_r (frame_bytes _)). by apply decode_frame. }
  assert (Hlen : forall n z, length (le_bytes n z) = n) by apply length_le_bytes.
  destruct ev as [? ? oid ? coid side price qty|? f|? ? oid ? reason rem|? ? coid reason|? ? oid ? q price|? ?|? ?];
    cbn [event_report]; intros Hr Hw; simplify_eq; cbn in Hw; unfold encode_exec_report;
    (apply Henc; [repeat case_match; rewrite !length_app, ?Hlen; lia|]);
    unfold read_report; rewrite get_le_here by (simpl; lia); cbn [ebind]; cbn [Z.eqb Pos.eqb].
  - destruct Hw as (? & ? & ? & ?). do 2 read_field.
    rewrite get_le_here by (destruct side; simpl; lia). cbn [ebind]. read_field. read_last.
    by destruct side.
  - destruct Hw as (? & ? & ? & ?). do 4 read_field. by read_last.
  - destruct Hw. read_field. rewrite get_le_here by apply cancel_tag_byte. cbn [ebind]. read_last.
    by rewrite cancel_tag_inv.
  - read_field. rewrite <- (app_nil_r (le_bytes _ _)), get_le_here by apply reject_tag_byte. cbn [ebind].
    by rewrite reject_tag_inv.
  - destruct Hw as (? & ? & ?). do 2 read_field. destruct price as [p|]; read_field; by read_last.
Qed.

(** An event is encoded for exactly the accounts it is about. *)
Lemma encode_event_report acct ev r out :
  event_report ev = Some r -> report_in_range r ->
  if decide (acct ∈ event_accounts ev) then
    exists f, encode_event_for acct ev out = (Ok true, out ++ frame_bytes f)
      /\ decode (frame_bytes f) = (Ok (Some f), []) /\ fr_type f = EXEC_REPORT
      /\ read_report (fr_payload f) = Val r
  else encode_event_for acct ev out = (Ok false, out).
Proof.
  intros He Hr. destruct (encode_exec_report_frame ev r out He Hr) as (f & Henc & Hrest).
  assert (Hfor : encode_event_for acct ev out =
    if decide (acct ∈ event_accounts ev) then (Ok true, out ++ frame_bytes f) else (Ok false, out)).
  { unfold encode_event_for. rewrite Henc. destruct ev; cbn [event_accounts];
      repeat case_decide; repeat case_match; set_unfold; naive_solver lia. }
  rewrite Hfor. case_decide; [by exists f|done].
Qed.

(** Whatever order the map is iterated in, the answer is a client order id
    that was recorded for this order, and there is none only if none was. *)
Lemma client_order_id_for_spec {Q} iter oid (s : Session (Q := Q)) :
  (forall m, iter m ≡ₚ map_to_list m) ->
  match client_order_id_for iter oid s with
  | Some coid => client_order_map s !! coid = Some oid
  | None => forall coid, client_order_map s !! coid <> Some oid
  end.
Proof.
  intros Hi. unfold client_order_id_for. destruct (List.find _ _) as [[c o]|] eqn:Hf; cbn [fmap option_fmap option_map fst].
  - apply List.find_some in Hf as [Hin Ho]. cbn in Ho. apply Z.eqb_eq in Ho as ->.
    apply elem_of_map_to_list. rewrite <- Hi. by apply list_elem_of_In.
  - intros c Hc. apply elem_of_map_to_list in Hc. rewrite <- Hi in Hc. apply list_elem_of_In in Hc.
    pose proof (List.find_none _ _ Hf _ Hc). cbn in *. lia.
Qed.

(** ** Witnesses *)

Module SessionDemo.
#[export] Instance cmd_cap_ok : CapOk CMD_QUEUE_CAP.
Proof. exists 12. split; [lia|reflexivity]. Qed.

Definition lane : Fifo (Spsc.Queue (T := InboundCommand)) InboundCommand CMD_QUEUE_CAP := spsc_fifo_instance _.
#[export] Existing Instance lane.

Definition fresh_session : Session := Session_new 1 42 fifo_new.
Definition order : NewOrder := mkNewOrder 42 5 1 Buy (-10000) Limit 3 Gtc.

Lemma order_wf : wf_new_order order.
Proof. by constructor. Qed.

Lemma msg_bytes m : Forall is_byte (fr_payload (msg_frame m)).
Proof.
  destruct m; cbn [msg_frame fr_payload]; unfold new_order_payload, cancel_payload;
    rewrite ?Forall_app; split_and?; apply le_bytes_bytes.
Qed.

Lemma session_dispatch_witness :
  exists r s', dispatch_frame (msg_frame (CNew order)) fresh_session = Val (r, s').
Proof.
  destruct (session_dispatch (msg_frame (CNew order)) fresh_session [] 0) as [(m & r & s' & _ & _ & H & _)|[_ (t & re & H)]];
    [apply msg_bytes|apply fifo_new_hist|by exists r, s'|by eexists _, _].
Defined.

Lemma new_order_wire_exact_witness : decode_new_order 42 (new_order_payload order) = Val (Ok order).
Proof.
  apply (new_order_wire_exact 42 (new_order_payload order)); [apply (msg_bytes (CNew order))|].
  split; [apply order_wf|done].
Defined.

(** The maker of a trade, account 9, is told the taker's order 100. *)
Definition trade : Event := Event_Filled 7 (mkFill 5 100 42 Buy 200 9 10 3 0 2).

Lemma maker_report :
  exists f, encode_event_for 9 trade [] = (Ok true, frame_bytes f)
    /\ read_report (fr_payload f) = Val (RFilled 100 10 3 2 true).
Proof.
  pose proof (encode_event_report 9 trade (RFilled 100 10 3 2 true) [] eq_refl) as H.
  rewrite decide_True in H by (set_unfold; auto).
  destruct H as (f & H1 & _ & _ & H2); [by split_and!|]. by exists f.
Qed.
End SessionDemo.
