(* ===== verification/MarketData.v ===== *)
(** * MarketData: fan-out of market data (crates/gateway/src/market_data.rs)

    [MarketDataHub] keeps one broadcast channel per instrument, made by the
    first subscriber; publishing to an instrument without a channel drops the
    event.  The channel is tokio's [broadcast]: the interface [Broadcast]
    states what its documentation promises to a receiver that does not lag.
    Locks make each of the hub's critical sections one step; a subscriber
    takes two of them, so other calls can come between.
    [SubscriptionRegistry] is the diagnostic index of sessions. *)

From S2P Require Import Prelude CoreTypes.
#[local] Open Scope Z_scope.

Inductive MarketDataEvent :=
| TopOfBook (instrument_id : Z) (best_bid best_ask : option (Z * Z))
| MdTrade (instrument_id price qty : Z) (aggressor_side : Side)
| HaltStatus (instrument_id : Z) (halted : bool).
#[export] Instance MarketDataEvent_eq_dec : EqDecision MarketDataEvent.
Proof. solve_decision. Defined.

Definition md_instrument_id (ev : MarketDataEvent) : Z :=
  match ev with
  | TopOfBook i _ _ | MdTrade i _ _ _ | HaltStatus i _ => i
  end.

Definition CHANNEL_CAPACITY : nat := Z.to_nat 1024.

(** What [Receiver::recv] returns. *)
Inductive Recv (E : Type) := RecvOk (e : E) | RecvLagged | RecvClosed.
Arguments RecvOk {E} _.
Arguments RecvLagged {E}.
Arguments RecvClosed {E}.

(** tokio's broadcast channel: a sender, and receivers by number.  [bc_view]
    is what a receiver that has not lagged has still to receive. *)
Class Broadcast (E Chan : Type) := {
  bc_channel : nat -> Chan;
  bc_send : E -> Chan -> Chan;
  bc_subscribe : Chan -> nat * Chan;
  bc_recv : nat -> Chan -> option (Recv E) * Chan;
  bc_cap : Chan -> nat;
  bc_view : nat -> Chan -> option (list E);
  bc_cap_new cap : bc_cap (bc_channel cap) = cap;
  bc_cap_send e ch : bc_cap (bc_send e ch) = bc_cap ch;
  bc_cap_sub ch : bc_cap (snd (bc_subscribe ch)) = bc_cap ch;
  bc_cap_recv r ch : bc_cap (snd (bc_recv r ch)) = bc_cap ch;
  (** A new receiver gets what is sent from now on. *)
  bc_sub_new ch : bc_view (fst (bc_subscribe ch)) (snd (bc_subscribe ch)) = Some [];
  bc_sub_other r ch l : bc_view r ch = Some l -> bc_view r (snd (bc_subscribe ch)) = Some l;
  (** A sent value goes to every receiver; one with [cap] values waiting lags. *)
  bc_send_view e r ch l : bc_view r ch = Some l -> (length l < bc_cap ch)%nat ->
    bc_view r (bc_send e ch) = Some (l ++ [e]);
  (** Values are received in the order they were sent. *)
  bc_recv_some r ch e l : bc_view r ch = Some (e :: l) ->
    fst (bc_recv r ch) = Some (RecvOk e) /\ bc_view r (snd (bc_recv r ch)) = Some l;
  bc_recv_none r ch : bc_view r ch = Some [] -> bc_recv r ch = (None, ch);
  bc_recv_other r r' ch l : r <> r' -> bc_view r ch = Some l -> bc_view r (snd (bc_recv r' ch)) = Some l
}.

Section Hub.
Context {Chan : Type} `{!Broadcast MarketDataEvent Chan}.

(** [MarketDataHub::channels]. *)
Abbreviation MarketDataHub := (gmap Z Chan).

Definition MarketDataHub_new : MarketDataHub := ∅.

Definition publish (event : MarketDataEvent) (hub : MarketDataHub) : MarketDataHub :=
  match hub !! md_instrument_id event with
  | Some tx => <[md_instrument_id event := bc_send event tx]> hub
  | None => hub
  end.

(** The read-locked section of [subscribe]. *)
Definition subscribe_fast (instrument_id : Z) (hub : MarketDataHub) : option nat * MarketDataHub :=
  match hub !! instrument_id with
  | Some tx => let '(r, tx') := bc_subscribe tx in (Some r, <[instrument_id := tx']> hub)
  | None => (None, hub)
  end.

(** The write-locked section: [entry(..).or_insert_with(..)], then subscribe. *)
Definition subscribe_slow (instrument_id : Z) (hub : MarketDataHub) : nat * MarketDataHub :=
  let tx := default (bc_channel CHANNEL_CAPACITY) (hub !! instrument_id) in
  let '(r, tx') := bc_subscribe tx in (r, <[instrument_id := tx']> hub).

(** [subscribe], with [between] what other tasks do between the two locks. *)
Definition hub_subscribe (between : MarketDataHub -> MarketDataHub) (instrument_id : Z)
    (hub : MarketDataHub) : nat * MarketDataHub :=
  match subscribe_fast instrument_id hub with
  | (Some r, hub') => (r, hub')
  | (None, hub') => subscribe_slow instrument_id (between hub')
  end.

Definition active_instrument_count (hub : MarketDataHub) : nat := size hub.

(** Receiving from a subscription. *)
Definition hub_recv (i : Z) (r : nat) (hub : MarketDataHub) : option (Recv MarketDataEvent) * MarketDataHub :=
  match hub !! i with
  | Some tx => let '(o, tx') := bc_recv r tx in (o, <[i := tx']> hub)
  | None => (None, hub)
  end.

(** A step of the hub, and what the receiver [r] of [i] got in it. *)
Inductive hub_step (i : Z) (r : nat) : MarketDataHub -> list MarketDataEvent -> list MarketDataEvent -> MarketDataHub -> Prop :=
| hs_publish ev hub :
    hub_step i r hub (if md_instrument_id ev =? i then [ev] else []) [] (publish ev hub)
| hs_fast j hub : hub_step i r hub [] [] (snd (subscribe_fast j hub))
| hs_slow j hub : hub_step i r hub [] [] (snd (subscribe_slow j hub))
| hs_recv e hub : fst (hub_recv i r hub) = Some (RecvOk e) -> hub_step i r hub [] [e] (snd (hub_recv i r hub))
| hs_recv_other j r' hub : (j, r') <> (i, r) -> hub_step i r hub [] [] (snd (hub_recv j r' hub)).

(** A run in which the receiver never has more than the capacity waiting;
    [pub] is what was published for [i], [got] what [r] received. *)
Inductive hub_run (i : Z) (r : nat) (h0 : MarketDataHub) : list MarketDataEvent -> list MarketDataEvent -> MarketDataHub -> Prop :=
| hr_start : hub_run i r h0 [] [] h0
| hr_step pub got h p g h' : hub_run i r h0 pub got h -> hub_step i r h p g h' ->
    (length pub + length p <= length got + CHANNEL_CAPACITY)%nat ->
    hub_run i r h0 (pub ++ p) (got ++ g) h'.

(** The receiver's channel holds what it has not received. *)
Definition hub_inv (i : Z) (r : nat) (pub got : list MarketDataEvent) (hub : MarketDataHub) : Prop :=
  exists tx l, hub !! i = Some tx /\ bc_cap tx = CHANNEL_CAPACITY /\ bc_view r tx = Some l /\ pub = got ++ l.

Definition hub_wf (hub : MarketDataHub) : Prop := map_Forall (fun _ tx => bc_cap tx = CHANNEL_CAPACITY) hub.

Lemma hub_sub_inv i r pub got j hub h' r' tx0 :
  hub_inv i r pub got hub -> hub !! j = Some tx0 -> bc_subscribe tx0 = (r', h') ->
  hub_inv i r pub got (<[j := h']> hub).
Proof.
  intros (tx & l & Hi & Hc & Hv & Heq) Hj Hs. destruct (decide (i = j)) as [->|Hne].
  - assert (tx0 = tx) as -> by congruence. exists h', l. rewrite lookup_insert_eq.
    pose proof (bc_cap_sub tx) as Hcap. pose proof (bc_sub_other r tx l Hv) as Hv'. rewrite Hs in Hcap, Hv'.
    simpl in *. split_and!; congruence.
  - exists tx, l. by rewrite lookup_insert_ne.
Qed.

Lemma hub_step_inv i r pub got hub p g hub' :
  hub_inv i r pub got hub -> hub_step i r hub p g hub' ->
  (length pub + length p <= length got + CHANNEL_CAPACITY)%nat ->
  hub_inv i r (pub ++ p) (got ++ g) hub'.
Proof.
  intros Hinv Hs Hle. pose proof Hinv as (tx & l & Hi & Hc & Hv & Heq).
  inversion Hs as [ev h|j h|j h|e h He|j r' h Hne]; subst; rewrite ?app_nil_r.
  - unfold publish. destruct (Z.eqb_spec (md_instrument_id ev) i) as [He|He].
    + subst i. rewrite Hi. exists (bc_send ev tx), (l ++ [ev]). rewrite lookup_insert_eq, bc_cap_send.
      split_and!; [done|done| |by rewrite app_assoc]. apply bc_send_view; [done|].
      rewrite length_app in Hle. simpl in Hle. lia.
    + rewrite app_nil_r. destruct (hub !! md_instrument_id ev); [|done].
      exists tx, l. by rewrite lookup_insert_ne.
  - unfold subscribe_fast. destruct (hub !! j) as [tx0|] eqn:Hj; [|done].
    destruct (bc_subscribe tx0) as [r' h'] eqn:Hsub. by eapply hub_sub_inv.
  - unfold subscribe_slow. destruct (hub !! j) as [tx0|] eqn:Hj; cbn [default from_option id].
    + destruct (bc_subscribe tx0) as [r' h'] eqn:Hsub. by eapply hub_sub_inv.
    + destruct (bc_subscribe _) as [r' h'] eqn:Hsub. cbn [snd]. exists tx, l.
      rewrite lookup_insert_ne by congruence. done.
  - unfold hub_recv in *. rewrite Hi in *. destruct (bc_recv r tx) as [o tx'] eqn:Hr. simpl in *. subst o.
    destruct l as [|e' l]; [by rewrite bc_recv_none in Hr|].
    destruct (bc_recv_some r tx e' l Hv) as [H1 H2]. rewrite Hr in H1, H2. simpl in *. simplify_eq.
    pose proof (bc_cap_recv r tx) as Hcap. rewrite Hr in Hcap. simpl in Hcap.
    exists tx', l. rewrite lookup_insert_eq. split_and!; [done|congruence|done|by rewrite <- app_assoc].
  - unfold hub_recv. destruct (hub !! j) as [tx0|] eqn:Hj; [|done].
    destruct (bc_recv r' tx0) as [o tx'] eqn:Hr. simpl. destruct (decide (i = j)) as [->|Hij].
    + assert (tx0 = tx) as -> by congruence. pose proof (bc_cap_recv r' tx) as Hcap.
      pose proof (bc_recv_other r r' tx l ltac:(congruence) Hv) as Hv'. rewrite Hr in Hcap, Hv'. simpl in *.
      exists tx', l. rewrite lookup_insert_eq. split_and!; congruence.
    + exists tx, l. by rewrite lookup_insert_ne.
Qed.

(** Every channel of the hub was made with the same capacity. *)
Lemma subscribe_inv between i hub :
  hub_wf hub -> (forall h, hub_wf h -> hub_wf (between h)) ->
  hub_inv i (fst (hub_subscribe between i hub)) [] [] (snd (hub_subscribe between i hub)).
Proof.
  assert (Hmk : forall h tx, bc_cap tx = CHANNEL_CAPACITY ->
    hub_inv i (fst (bc_subscribe tx)) [] [] (<[i := snd (bc_subscribe tx)]> h)).
  { intros h tx Hc. exists (snd (bc_subscribe tx)), []. rewrite lookup_insert_eq, bc_cap_sub. split_and!; try done.
    apply bc_sub_new. }
  intros Hw Hb. unfold hub_subscribe, subscribe_fast, subscribe_slow.
  destruct (hub !! i) as [tx|] eqn:Hi.
  - specialize (Hmk hub tx (Hw i tx Hi)). by destruct (bc_subscribe tx).
  - destruct (between hub !! i) as [tx|] eqn:Hj; cbn [default from_option id].
    + specialize (Hmk (between hub) tx (Hb hub Hw i tx Hj)). by destruct (bc_subscribe tx).
    + specialize (Hmk (between hub) _ (bc_cap_new CHANNEL_CAPACITY)). by destruct (bc_subscribe _).
Qed.

(** A subscriber receives every event of its instrument that is published
    after it subscribed, once, in order and nothing else, as long as it never
    has more than 1024 waiting: what it has received followed by what its
    channel holds for it is what was published, whatever other subscribers,
    publishers and receivers do, between the two locks of its subscription
    too. *)
Theorem hub_delivers between i h0 r hub0 pub got hub :
  hub_wf h0 -> (forall h, hub_wf h -> hub_wf (between h)) ->
  hub_subscribe between i h0 = (r, hub0) -> hub_run i r hub0 pub got hub ->
  exists tx l, hub !! i = Some tx /\ bc_view r tx = Some l /\ pub = got ++ l.
Proof.
  intros Hw Hb Hs Hrun. pose proof (subscribe_inv between i h0 Hw Hb) as Hinit. rewrite Hs in Hinit.
  assert (Hinv : hub_inv i r pub got hub).
  { induction Hrun; [done|]. by eapply hub_step_inv. }
  destruct Hinv as (tx & l & ? & _ & ? & ?). by exists tx, l.
Qed.
End Hub.

(** ** An instance: per receiver, whether it lagged and what it can still get *)

Module ListBroadcast.
Section Instance_.
Context {E : Type}.

Record Ch := mkCh { ch_cap : nat; ch_rx : list (bool * list E) }.

Definition rx_send (cap : nat) (e : E) (rx : bool * list E) : bool * list E :=
  let '(lagged, l) := rx in
  if (length l <? cap)%nat then (lagged, l ++ [e]) else (true, tail l ++ [e]).

Definition send (e : E) (ch : Ch) : Ch := mkCh (ch_cap ch) (map (rx_send (ch_cap ch) e) (ch_rx ch)).

Definition subscribe (ch : Ch) : nat * Ch :=
  (length (ch_rx ch), mkCh (ch_cap ch) (ch_rx ch ++ [(false, [])])).

Definition recv (r : nat) (ch : Ch) : option (Recv E) * Ch :=
  match ch_rx ch !! r with
  | None | Some (false, []) => (None, ch)
  | Some (true, l) => (Some RecvLagged, mkCh (ch_cap ch) (<[r := (false, l)]> (ch_rx ch)))
  | Some (false, e :: l) => (Some (RecvOk e), mkCh (ch_cap ch) (<[r := (false, l)]> (ch_rx ch)))
  end.

Definition view (r : nat) (ch : Ch) : option (list E) :=
  match ch_rx ch !! r with Some (false, l) => Some l | _ => None end.

Lemma view_inv r ch l : view r ch = Some l -> ch_rx ch !! r = Some (false, l).
Proof. unfold view. intros. repeat case_match; by simplify_eq. Qed.

#[export, program] Instance list_broadcast : Broadcast E Ch := {|
  bc_channel cap := mkCh cap [];
  bc_send := send;
  bc_subscribe := subscribe;
  bc_recv := recv;
  bc_cap := ch_cap;
  bc_view := view
|}.
Next Obligation. done. Qed.
Next Obligation. done. Qed.
Next Obligation. done. Qed.
Next Obligation. intros r ch. unfold recv. by repeat case_match. Qed.
Next Obligation. intros ch. unfold view. simpl. by rewrite lookup_app_r, Nat.sub_diag by lia. Qed.
Next Obligation.
  intros r ch l H%view_inv. unfold view. simpl. rewrite lookup_app_l; [by rewrite H|]. by eapply lookup_lt_Some.
Qed.
Next Obligation.
  intros e r ch l H%view_inv Hl. unfold view. simpl. rewrite list_lookup_fmap, H. simpl.
  by rewrite (proj2 (Nat.ltb_lt _ _)).
Qed.
Next Obligation.
  intros r ch e l H%view_inv. unfold recv, view. rewrite H. simpl. split; [done|].
  by rewrite list_lookup_insert_eq by (by eapply lookup_lt_Some).
Qed.
Next Obligation. intros r ch H%view_inv. unfold recv. by rewrite H. Qed.
Next Obligation.
  intros r r' ch l Hne H%view_inv. unfold recv, view.
  repeat case_match; simplify_eq; simpl in *; try rewrite list_lookup_insert_ne in * by done; congruence.
Qed.
End Instance_.
End ListBroadcast.

(** ** SubscriptionRegistry *)

Definition SubscriptionRegistry := gmap Z (list Z).

Definition registry_add (instrument_id session_id : Z) (reg : gmap Z (list Z)) : gmap Z (list Z) :=
  let entry := default [] (reg !! instrument_id) in
  <[instrument_id := if bool_decide (session_id ∈ entry) then entry else entry ++ [session_id]]> reg.

Definition registry_remove (instrument_id session_id : Z) (reg : gmap Z (list Z)) : gmap Z (list Z) :=
  match reg !! instrument_id with
  | None => reg
  | Some entry =>
      let entry' := List.filter (fun s => negb (s =? session_id)) entry in
      match entry' with
      | [] => delete instrument_id reg
      | _ => <[instrument_id := entry']> reg
      end
  end.

Definition subscriber_count (instrument_id : Z) (reg : gmap Z (list Z)) : nat :=
  default 0%nat (length <$> reg !! instrument_id).

(** The subscriptions as a set of pairs. *)
Inductive RegOp := RegAdd (instrument_id session_id : Z) | RegRemove (instrument_id session_id : Z).

Definition reg_apply (reg : gmap Z (list Z)) (op : RegOp) : gmap Z (list Z) :=
  match op with RegAdd i s => registry_add i s reg | RegRemove i s => registry_remove i s reg end.

Definition set_apply (set : gset (Z * Z)) (op : RegOp) : gset (Z * Z) :=
  match op with RegAdd i s => {[(i, s)]} ∪ set | RegRemove i s => set ∖ {[(i, s)]} end.

Definition entries (i : Z) (reg : gmap Z (list Z)) : list Z := default [] (reg !! i).

(** The registry holds each pair once and keeps no empty entry. *)
Record reg_rep (reg : gmap Z (list Z)) (set : gset (Z * Z)) : Prop := {
  rr_elem : forall i s, s ∈ entries i reg <-> (i, s) ∈ set;
  rr_nodup : forall i, NoDup (entries i reg);
  rr_nonempty : forall i, reg !! i <> Some []
}.

Lemma entries_insert i j l reg : entries j (<[i := l]> reg) = if decide (i = j) then l else entries j reg.
Proof. unfold entries. case_decide; subst; by simplify_map_eq. Qed.

Lemma entries_delete i j reg : entries j (delete i reg) = if decide (i = j) then [] else entries j reg.
Proof. unfold entries. case_decide; subst; by simplify_map_eq. Qed.

Lemma NoDup_filter_bool {A} (f : A -> bool) l : NoDup l -> NoDup (List.filter f l).
Proof.
  induction 1 as [|x l Hx _ IH]; simpl; [constructor|]. destruct (f x); [|done]. constructor; [|done].
  rewrite list_elem_of_In, List.filter_In, <- list_elem_of_In. naive_solver.
Qed.

Lemma elem_filter_bool {A} (f : A -> bool) l x : x ∈ List.filter f l <-> x ∈ l /\ f x = true.
Proof. by rewrite !list_elem_of_In, List.filter_In. Qed.

Lemma entries_remove i s j reg :
  entries j (registry_remove i s reg) =
    if decide (i = j) then List.filter (fun x => negb (x =? s)) (entries j reg) else entries j reg.
Proof.
  unfold registry_remove. destruct (reg !! i) as [entry|] eqn:Hi.
  - assert (He : entries i reg = entry) by (unfold entries; by rewrite Hi).
    destruct (List.filter _ entry) eqn:Hf; rewrite ?entries_delete, ?entries_insert;
      case_decide; subst; by rewrite ?Hf.
  - case_decide; [|done]. subst. unfold entries. by rewrite Hi.
Qed.

Lemma reg_add_rep i s reg set : reg_rep reg set -> reg_rep (registry_add i s reg) ({[(i, s)]} ∪ set).
Proof.
  intros [He Hn Hz]. unfold registry_add. fold (entries i reg). constructor.
  - intros j x. rewrite entries_insert. case_decide; [subst j|].
    + case_bool_decide; rewrite ?elem_of_app, ?list_elem_of_singleton, elem_of_union, elem_of_singleton, He by done.
      * rewrite He in *. naive_solver.
      * naive_solver.
    + rewrite elem_of_union, elem_of_singleton, He. naive_solver.
  - intros j. rewrite entries_insert. case_decide; [subst j|done]. case_bool_decide; [done|].
    apply NoDup_app. split_and!; [done| |apply NoDup_singleton]. intros x Hx ->%list_elem_of_singleton. done.
  - intros j. destruct (decide (i = j)) as [->|]; [rewrite lookup_insert_eq|by rewrite lookup_insert_ne].
    case_bool_decide; intros [=]; [|by destruct (entries j reg)]. by destruct (entries j reg); set_solver.
Qed.

Lemma reg_remove_rep i s reg set : reg_rep reg set -> reg_rep (registry_remove i s reg) (set ∖ {[(i, s)]}).
Proof.
  intros [He Hn Hz]. constructor.
  - intros j x. rewrite entries_remove, elem_of_difference, elem_of_singleton. case_decide.
    + rewrite elem_filter_bool, He, negb_true_iff, Z.eqb_neq. naive_solver.
    + rewrite He. naive_solver.
  - intros j. rewrite entries_remove. case_decide; [by apply NoDup_filter_bool|done].
  - intros j. unfold registry_remove. destruct (reg !! i) as [entry|]; [|done].
    destruct (List.filter _ entry); destruct (decide (i = j)) as [->|];
      rewrite ?lookup_delete_eq, ?lookup_delete_ne, ?lookup_insert_eq, ?lookup_insert_ne by done; done.
Qed.

Lemma reg_run_rep ops reg set : reg_rep reg set -> reg_rep (fold_left reg_apply ops reg) (fold_left set_apply ops set).
Proof.
  revert reg set. induction ops as [|[i s|i s] ops IH]; intros reg set H; [done|..]; apply IH;
    [by apply reg_add_rep|by apply reg_remove_rep].
Qed.

(** After any subscriptions and unsubscriptions the registry counts each
    subscribed session of an instrument once. *)
Theorem registry_counts ops i :
  let reg := fold_left reg_apply ops ∅ in
  let set := fold_left set_apply ops ∅ in
  subscriber_count i reg = size (filter (fun p => fst p = i) set).
Proof.
  intros reg set. assert (H : reg_rep reg set).
  { apply reg_run_rep. constructor; [|intros; constructor|by intros j].
    intros j s. unfold entries. rewrite lookup_empty. set_solver. }
  assert (Hc : subscriber_count i reg = length (entries i reg)).
  { unfold subscriber_count, entries. by destruct (reg !! i). }
  rewrite Hc, <- (length_map (pair i)), <- (size_list_to_set (C := gset (Z * Z))).
  - f_equal. apply set_eq. intros [j s]. rewrite elem_of_list_to_set, elem_of_filter, <- (rr_elem _ _ H).
    rewrite list_elem_of_fmap. naive_solver.
  - apply NoDup_fmap_2; [|apply H]. intros ???. congruence.
Qed.

Module HubDemo.
Import ListBroadcast.

Definition top : MarketDataEvent := TopOfBook 1 (Some (99, 10)) None.
Definition other : MarketDataEvent := HaltStatus 2 true.
Definition sub := hub_subscribe (Chan := Ch) (fun h => h) 1 MarketDataHub_new.
Definition hub1 := publish top (snd sub).

Lemma demo_hub_run : hub_run 1 0 (snd sub) [top] [top] (snd (hub_recv 1 0 (publish other hub1))).
Proof.
  change [top] with ((([] ++ [top]) ++ []) ++ []) at 1. change [top] with ((([] ++ []) ++ []) ++ [top]) at 2.
  apply hr_step with (publish other hub1); [|apply hs_recv; reflexivity|simpl; unfold CHANNEL_CAPACITY; lia].
  apply hr_step with hub1; [|apply (hs_publish 1 0 other)|simpl; unfold CHANNEL_CAPACITY; lia].
  apply hr_step with (snd sub); [constructor|apply (hs_publish 1 0 top)|simpl; unfold CHANNEL_CAPACITY; lia].
Qed.

Lemma hub_delivers_witness :
  exists tx l, snd (hub_recv 1 0 (publish other hub1)) !! 1 = Some tx /\ bc_view 0 tx = Some l /\ [top] = [top] ++ l.
Proof.
  apply (hub_delivers (fun h => h) 1 MarketDataHub_new 0 (snd sub)); [intros ?? H; done|done|reflexivity|].
  apply demo_hub_run.
Defined.
End HubDemo.
