(* ===== verification/Server.v ===== *)
(** * Server: the per-connection loop of the gateway (crates/gateway/src/server.rs)

    A connection is driven by what its socket reads return; the number of
    bytes in a read is up to the network.  [handle_connection] authenticates
    with the first frame, then alternates between handling buffered frames and
    reading.  The sequencer pops the session's lane at any time ([env]).  The
    tasks around the loop are modelled by what they send to the writer:
    [exec_forwarder], [md_forwarder] and the payloads of [encode_market_data].
    Accept.v has the loops that accept connections; TLS and the scheduling of
    tasks are tokio's. *)

From stdpp Require Import strings.
From S2P Require Import Prelude CoreTypes Bytes RingBuffer Fifo Codec Session MarketData.
#[local] Open Scope list_scope.
#[local] Open Scope Z_scope.

(** What [read_buf] returns: some bytes, or an I/O error.  No bytes, like the
    end of the list, is the peer closing the connection. *)
Inductive SocketRead := Data (chunk : list Z) | ReadErr.

(** The errors of the handshake: a bad frame, a payload that is not eight
    bytes, the end of the stream, an I/O error. *)
Inductive AuthError := AE_Codec (e : CodecError) | AE_Length | AE_UnexpectedEof | AE_Io.

(** [loop { if let Some(frame) = codec.decode(&mut buf)? {..} read_buf }]. *)
Fixpoint read_auth_frame (reads : list SocketRead) (buf : list Z) :
    Exec (Result (Z * list Z * list SocketRead) AuthError) :=
  match decode buf with
  | (Err e, _) => Val (Err (AE_Codec e))
  | (Ok (Some frame), buf') =>
      if negb (length (fr_payload frame) =? 8)%nat then Val (Err AE_Length)
      else let! '(raw, _) := get_u64_le (fr_payload frame) in Val (Ok (raw, buf', reads))
  | (Ok None, buf') =>
      match reads with
      | [] | Data [] :: _ => Val (Err AE_UnexpectedEof)
      | ReadErr :: _ => Val (Err AE_Io)
      | Data chunk :: reads' => read_auth_frame reads' (buf' ++ chunk)
      end
  end.

Section Connection.
Context {Q : Type} `{!Fifo Q InboundCommand CMD_QUEUE_CAP}.

(** The locals of [handle_connection]; [cn_written] is what the loop gave to
    the writer task. *)
Record Conn := mkConn {
  cn_session : Session (Q := Q);
  cn_buf : list Z;
  cn_forwarded : gset Z;
  cn_written : list (list Z)
}.

Inductive InnerEnd := Drained | CloseRequested | Protocol (e : SessionError).
Inductive ConnEnd := PeerClosed | ClosedBySession | ProtocolError (e : SessionError) | SocketError.

(** The inner loop; [writer_up] says whether the writer takes a frame. *)
Fixpoint handle_buffered (writer_up : list Z -> bool) (fuel : nat) (c : Conn) : Exec (InnerEnd * Conn) :=
  match fuel with
  | O => OutOfFuel
  | S fuel' =>
      let! '(r, s, buf) := handle_inbound (cn_buf c) (cn_session c) in
      let c' := mkConn s buf (cn_forwarded c) (cn_written c) in
      match r with
      | Ok (Some (WriteFrame frame)) =>
          if writer_up frame
          then handle_buffered writer_up fuel' (mkConn s buf (cn_forwarded c) (cn_written c ++ [frame]))
          else Val (Drained, c')
      | Ok (Some Close) => Val (CloseRequested, c')
      | Ok None => Val (Drained, c')
      | Err e => Val (Protocol e, c')
      end
  end.

(** The sequencer pops the lane while the connection waits. *)
Definition lane_turn (env : nat -> Q -> Q) (i : nat) (c : Conn) : Conn :=
  mkConn (set_producer (env i (cmd_producer (cn_session c))) (cn_session c))
    (cn_buf c) (cn_forwarded c) (cn_written c).

(** After a read: the bytes are buffered, and a forwarder is started for every
    subscription that has none. *)
Definition after_read (chunk : list Z) (c : Conn) : Conn :=
  mkConn (cn_session c) (cn_buf c ++ chunk) (cn_forwarded c ∪ subscriptions (cn_session c)) (cn_written c).

(** The outer loop, from the iteration [i] on. *)
Fixpoint conn_loop (writer_up : list Z -> bool) (env : nat -> Q -> Q) (i : nat)
    (reads : list SocketRead) (c : Conn) : Exec (ConnEnd * Conn) :=
  let! '(e, c) := handle_buffered writer_up (S (length (cn_buf c))) (lane_turn env i c) in
  match e with
  | CloseRequested => Val (ClosedBySession, c)
  | Protocol e => Val (ProtocolError e, c)
  | Drained =>
      match reads with
      | [] | Data [] :: _ => Val (PeerClosed, c)
      | ReadErr :: _ => Val (SocketError, c)
      | Data chunk :: reads' => conn_loop writer_up env (S i) reads' (after_read chunk c)
      end
  end.

Definition handle_connection (writer_up : list Z -> bool) (env : nat -> Q -> Q)
    (reads : list SocketRead) (session_id : Z) (producer : Q) :
    Exec (Result (ConnEnd * Conn) AuthError) :=
  let! r := read_auth_frame reads [] in
  match r with
  | Err e => Val (Err e)
  | Ok (account_id, read_buf, reads') =>
      let! res := conn_loop writer_up env 0 reads'
        (mkConn (Session_new session_id account_id producer) read_buf ∅ []) in
      Val (Ok res)
  end.

(** ** Lemmas *)

Definition read_bytes (r : SocketRead) : list Z := match r with Data c => c | ReadErr => [] end.
Definition received (reads : list SocketRead) : list Z := concat (map read_bytes reads).

(** One call of [handle_inbound] on a buffer of bytes. *)
Inductive inbound_case (buf : list Z) (s : Session (Q := Q)) (pu : list InboundCommand) (n : nat) : Prop :=
| ic_msg m r s' buf' : wf_msg (s_account_id s) m -> buf = frame_bytes (msg_frame m) ++ buf' ->
    handle_inbound buf s = Val (r, s', buf') -> handled m s pu n r s' -> inbound_case buf s pu n
| ic_wait : incomplete buf -> handle_inbound buf s = Val (Ok None, s, buf) -> inbound_case buf s pu n
| ic_err e buf' : handle_inbound buf s = Val (Err e, s, buf') -> inbound_case buf s pu n.

Lemma frame_bytes_payload f r : Forall is_byte (frame_bytes f ++ r) -> Forall is_byte (fr_payload f) /\ Forall is_byte r.
Proof. unfold frame_bytes. rewrite !Forall_app, Forall_cons. naive_solver. Qed.

Lemma handle_inbound_case buf s pu n :
  Forall is_byte buf -> fifo_hist (cmd_producer s) pu n -> inbound_case buf s pu n.
Proof.
  intros Hb Hq. destruct (buf_front buf Hb) as [f r Hf ->|Hi|e He].
  - destruct (frame_bytes_payload _ _ Hb) as [Hp Hr].
    destruct (dispatch_bytes f s Hp) as [(m & Hm & ->)|(t & reason & Hd)].
    + destruct (dispatch_msg m s pu n Hm Hq) as (res & s' & Hd & Hh).
      eapply ic_msg; [done|done| |done]. unfold handle_inbound. rewrite decode_frame by done. by rewrite Hd.
    + eapply ic_err. unfold handle_inbound. rewrite decode_frame by done. by rewrite Hd.
  - apply ic_wait; [done|]. unfold handle_inbound. by rewrite decode_incomplete.
  - eapply ic_err. unfold handle_inbound. by rewrite (decode_bad _ e).
Qed.

(** The result of handling a message: it is taken, or refused with the session
    unchanged. *)
Lemma handled_result m s pu n r (s' : Session (Q := Q)) :
  handled m s pu n r s' ->
  fifo_hist (cmd_producer s) pu n ->
  (r = Ok None /\ out_of_range m = None /\ s_account_id s' = s_account_id s
     /\ fifo_hist (cmd_producer s') (pu ++ option_list (msg_command m)) n
     /\ subscriptions s' = msg_subs m (subscriptions s))
  \/ (exists e, r = Err e) /\ s' = s.
Proof.
  unfold handled. intros H Hq. destruct (out_of_range m); [right; naive_solver|].
  destruct (msg_command m) eqn:Hc.
  - case_decide; [right; naive_solver|]. left. destruct H as (-> & q & -> & Hh).
    split_and!; try done. by destruct m.
  - left. destruct H as [-> ->]. rewrite app_nil_r. split_and!; done.
Qed.

(** From [c] to [c'], with [more] bytes read on the way, the connection took
    the messages [ms] off the front of its stream, and [rest] follows them. *)
Record progress (c c' : Conn) (more : list Z) (pu : list InboundCommand) (ms : list ClientMsg)
    (rest : list Z) : Prop := {
  pg_bytes : cn_buf c ++ more = stream_bytes (map msg_frame ms) ++ rest;
  pg_wf : Forall (fun m => wf_msg (s_account_id (cn_session c)) m /\ out_of_range m = None) ms;
  pg_acct : s_account_id (cn_session c') = s_account_id (cn_session c);
  pg_hist : exists n, fifo_hist (cmd_producer (cn_session c')) (pu ++ omap msg_command ms) n;
  pg_subs : subscriptions (cn_session c') =
    fold_left (fun subs m => msg_subs m subs) ms (subscriptions (cn_session c));
  pg_written : cn_written c' = cn_written c
}.

Lemma progress_trans c1 c2 c3 more1 more2 pu ms1 ms2 rest :
  progress c1 c2 [] pu ms1 (cn_buf c2) ->
  progress (after_read more1 c2) c3 more2 (pu ++ omap msg_command ms1) ms2 rest ->
  progress c1 c3 (more1 ++ more2) pu (ms1 ++ ms2) rest.
Proof.
  intros [Hb1 Hw1 Ha1 Hh1 Hs1 Hr1] [Hb2 Hw2 Ha2 Hh2 Hs2 Hr2]. cbn in *. rewrite app_nil_r in Hb1.
  constructor.
  - rewrite Hb1, map_app. unfold stream_bytes in *. rewrite map_app, concat_app, <- !app_assoc.
    f_equal. by rewrite app_assoc.
  - rewrite Ha1 in Hw2. by apply Forall_app.
  - congruence.
  - rewrite omap_app, app_assoc. done.
  - rewrite fold_left_app. congruence.
  - congruence.
Qed.

Lemma progress_none c c' pu n :
  fifo_hist (cmd_producer (cn_session c)) pu n -> cn_session c' = cn_session c ->
  cn_written c' = cn_written c -> progress c c' [] pu [] (cn_buf c).
Proof.
  intros Hq Hs Hw. constructor; rewrite ?Hs, ?app_nil_r; try done. by exists n.
Qed.

(** The inner loop takes at most one message, whatever is buffered: a handled
    frame and an incomplete one give the same answer. *)
Lemma handle_buffered_step w fuel c pu n :
  Forall is_byte (cn_buf c) -> fifo_hist (cmd_producer (cn_session c)) pu n ->
  exists e c' ms rest, handle_buffered w (S fuel) c = Val (e, c')
    /\ e <> CloseRequested /\ progress c c' [] pu ms rest /\ (length ms <= 1)%nat
    /\ (e = Drained -> rest = cn_buf c').
Proof.
  intros Hb Hq. cbn [handle_buffered]. destruct (handle_inbound_case _ _ pu n Hb Hq)
    as [m r s' buf' Hm Heq Hh Hd|Hi Hh|e buf' Hh]; rewrite Hh; cbn [ebind].
  - destruct (handled_result _ _ _ _ _ _ Hd Hq) as [(-> & Ho & Ha & Hq' & Hs)|[[e ->] ->]].
    + eexists _, _, [m], buf'. split; [done|]. split; [done|]. split; [|split; [simpl; lia|done]].
      constructor; cbn [cn_session cn_buf cn_written]; try done.
      * rewrite app_nil_r, Heq. unfold stream_bytes. simpl. by rewrite app_nil_r.
      * by constructor.
      * exists n. simpl. by destruct (msg_command m).
    + eexists _, _, [], (cn_buf c). split_and!; [done|done|by eapply progress_none|simpl; lia|done].
  - eexists _, _, [], (cn_buf c). split_and!; [done|done|by eapply progress_none|simpl; lia|done].
  - eexists _, _, [], (cn_buf c). split_and!; [done|done|by eapply progress_none|simpl; lia|done].
Qed.

(** The sequencer's turn changes nothing but how much is popped. *)
Lemma lane_turn_hist env i c pu n :
  consumes env -> fifo_hist (cmd_producer (cn_session c)) pu n ->
  exists k, fifo_hist (cmd_producer (cn_session (lane_turn env i c))) pu (n + k).
Proof. intros Henv Hq. apply (Henv i _ _ _ Hq). Qed.

Lemma progress_turn env i c c' more pu ms rest :
  progress (lane_turn env i c) c' more pu ms rest -> progress c c' more pu ms rest.
Proof. intros []. by constructor. Qed.

Lemma conn_loop_progress w env reads : consumes env -> forall i c pu n,
  Forall is_byte (cn_buf c) -> Forall is_byte (received reads) ->
  fifo_hist (cmd_producer (cn_session c)) pu n ->
  exists e c' k ms rest, conn_loop w env i reads c = Val (e, c')
    /\ progress c c' (received (take k reads)) pu ms rest /\ (length ms <= S k)%nat.
Proof.
  intros Henv. induction reads as [|rd reads IH]; intros i c pu n Hb Hr Hq; cbn [conn_loop];
    destruct (lane_turn_hist env i c pu n Henv Hq) as [j Hj];
    destruct (handle_buffered_step w (length (cn_buf c)) (lane_turn env i c) pu (n + j) Hb Hj)
      as (e & c1 & ms & rest & -> & Hnc & Hp%progress_turn & Hl & Hrest); cbn [ebind];
    (destruct e as [| |pe]; [|done|by eexists _, _, 0%nat, ms, rest]).
  { by eexists _, _, 0%nat, ms, rest. }
  destruct rd as [[|b chunk]|]; [by eexists _, _, 0%nat, ms, rest| |by eexists _, _, 0%nat, ms, rest].
  specialize (Hrest eq_refl). subst rest.
  assert (Hb1 : Forall is_byte (cn_buf c1)).
  { pose proof (pg_bytes _ _ _ _ _ _ Hp) as Heq. rewrite app_nil_r in Heq.
    rewrite Heq, Forall_app in Hb. by destruct Hb. }
  apply Forall_app in Hr as [Hc Hr]. destruct (pg_hist _ _ _ _ _ _ Hp) as [n1 Hq1].
  destruct (IH (S i) (after_read (b :: chunk) c1) _ _ ltac:(by apply Forall_app) Hr Hq1)
    as (e & c' & k & ms' & rest' & He & Hp' & Hl').
  exists e, c', (S k), (ms ++ ms'), rest'. split; [done|]. split; [by eapply progress_trans|].
  rewrite length_app. lia.
Qed.
Lemma get_account p : Forall is_byte p -> length p = 8%nat ->
  exists acct, get_u64_le p = Val (acct, []) /\ in_u64 acct /\ p = le_bytes 8 acct.
Proof.
  intros Hp Hl. destruct (get_le_bytes 8 p Hp ltac:(lia)) as (v & r & -> & -> & Hv & _ & Hr).
  rewrite length_app, length_le_bytes in *. destruct r; [|simpl in *; lia].
  exists v. by rewrite app_nil_r.
Qed.

(** The handshake returns, and accepts only an account id of eight bytes in
    the first frame of the stream. *)
Lemma read_auth_spec reads : forall buf, Forall is_byte buf -> Forall is_byte (received reads) ->
  exists r, read_auth_frame reads buf = Val r /\
    match r with
    | Err _ => True
    | Ok (acct, rest, reads') => exists k t, reads' = drop k reads /\ in_u64 acct
        /\ buf ++ received (take k reads) = frame_bytes (mkFrame t (le_bytes 8 acct)) ++ rest
        /\ Forall is_byte rest
    end.
Proof.
  induction reads as [|rd reads IH]; intros buf Hb Hr; cbn [read_auth_frame];
    (destruct (buf_front buf Hb) as [f r Hf ->|Hi|e He];
      [|rewrite decode_incomplete by done|rewrite (decode_bad _ e) by done; by eexists]);
    try (rewrite decode_frame by done; destruct (frame_bytes_payload _ _ Hb) as [Hp Hrr];
      destruct (length (fr_payload f) =? 8)%nat eqn:Hl; cbn [negb]; [|by eexists];
      apply Nat.eqb_eq in Hl; destruct (get_account _ Hp Hl) as (acct & -> & Ha & Heq); cbn [ebind];
      eexists; split; [done|]; exists 0%nat, (fr_type f); rewrite <- Heq; destruct f; by rewrite app_nil_r).
  - by eexists.
  - destruct rd as [[|b chunk]|]; [by eexists| |by eexists]. apply Forall_app in Hr as [Hc Hr].
    destruct (IH (buf ++ b :: chunk) ltac:(by apply Forall_app) Hr) as (r & -> & Hres).
    eexists. split; [done|]. destruct r as [[[acct rest] reads']|]; [|done].
    destruct Hres as (k & t & -> & Ha & Heq & Hrest). exists (S k), t. split_and!; [done|apply Ha..| |done].
    rewrite <- Heq, <- app_assoc. done.
Qed.

(** A whole connection: the handshake, then progress on the rest. *)
Lemma connection_progress w env reads sid q pu n :
  Forall is_byte (received reads) -> consumes env -> fifo_hist q pu n ->
  exists r, handle_connection w env reads sid q = Val r /\
    match r with
    | Err _ => True
    | Ok (_, c) => exists k t acct ms rest n',
        received (take k reads) =
          frame_bytes (mkFrame t (le_bytes 8 acct)) ++ stream_bytes (map msg_frame ms) ++ rest
        /\ Forall (fun m => wf_msg acct m /\ out_of_range m = None) ms /\ (length ms <= k)%nat
        /\ s_account_id (cn_session c) = acct
        /\ fifo_hist (cmd_producer (cn_session c)) (pu ++ omap msg_command ms) n'
        /\ subscriptions (cn_session c) = fold_left (fun subs m => msg_subs m subs) ms ∅
    end.
Proof.
  intros Hb Henv Hq. unfold handle_connection.
  destruct (read_auth_spec reads [] ltac:(constructor) Hb) as (r & -> & Hr). cbn [ebind].
  destruct r as [[[acct rest] reads']|]; [|by eexists].
  destruct Hr as (k & t & -> & Ha & Heq & Hrest). cbn [app] in Heq.
  assert (Hb' : Forall is_byte (received (drop k reads))).
  { unfold received in *. rewrite <- (take_drop k reads), map_app, concat_app, Forall_app in Hb. apply Hb. }
  set (c0 := mkConn (Session_new sid acct q) rest ∅ []).
  destruct (conn_loop_progress w env (drop k reads) Henv 0 c0 pu n Hrest Hb' Hq)
    as (e & c' & j & ms & rest' & -> & Hp & Hl). cbn [ebind].
  destruct (pg_hist _ _ _ _ _ _ Hp) as [n' Hn].
  eexists. split; [done|]. exists (k + j)%nat, t, acct, ms, rest', n'.
  pose proof (pg_bytes _ _ _ _ _ _ Hp) as Hbytes. cbn in Hbytes.
  split_and!; [| |  | |done|].
  - rewrite <- Hbytes. unfold received in *.
    rewrite <- take_take_drop, map_app, concat_app, Heq. by rewrite app_assoc.
  - apply (pg_wf _ _ _ _ _ _ Hp).
  - assert (k <> 0)%nat by (intros ->; destruct (frame_bytes _) eqn:He in Heq; [|done];
      apply (f_equal length) in He; rewrite length_frame_bytes in He; simpl in He; lia). lia.
  - apply (pg_acct _ _ _ _ _ _ Hp).
  - apply (pg_subs _ _ _ _ _ _ Hp).
Qed.
(** ** When messages are taken *)

Definition sendable (acct : Z) (m : ClientMsg) : Prop := wf_msg acct m /\ out_of_range m = None.

Definition room (pu : list InboundCommand) (n k : nat) : Prop := (length pu + k <= n + CMD_QUEUE_CAP)%nat.

(** A complete message at the front of the buffer is taken if the lane has
    room, and what follows it stays in the buffer. *)
Lemma handle_buffered_takes w fuel c pu n m rest :
  cn_buf c = frame_bytes (msg_frame m) ++ rest -> sendable (s_account_id (cn_session c)) m ->
  fifo_hist (cmd_producer (cn_session c)) pu n -> room pu n 1 ->
  exists c', handle_buffered w (S fuel) c = Val (Drained, c') /\ cn_buf c' = rest
    /\ s_account_id (cn_session c') = s_account_id (cn_session c)
    /\ fifo_hist (cmd_producer (cn_session c')) (pu ++ option_list (msg_command m)) n.
Proof.
  intros Hbuf [Hm Ho] Hq Hroom. destruct (dispatch_msg m _ pu n Hm Hq) as (r & s' & Hd & Hh).
  cbn [handle_buffered]. unfold handle_inbound. rewrite Hbuf.
  assert (Hv : valid_frame (msg_frame m)).
  { unfold valid_frame, MAX_FRAME_LEN. destruct m; cbn [msg_frame fr_payload];
      rewrite ?length_new_order_payload, ?length_cancel_payload, ?length_le_bytes; lia. }
  rewrite decode_frame by done. rewrite Hd. cbn [ebind].
  destruct (handled_result _ _ _ _ _ _ Hh Hq) as [(-> & _ & Ha & Hq' & _)|[[e ->] _]].
  - eexists. by split_and!.
  - exfalso. unfold handled in Hh. rewrite Ho in Hh. unfold room in Hroom.
    destruct (msg_command m); [|naive_solver]. rewrite decide_False in Hh by lia. naive_solver.
Qed.

(** Without a complete frame nothing happens. *)
Lemma handle_buffered_waits w fuel c :
  incomplete (cn_buf c) -> handle_buffered w (S fuel) c = Val (Drained, c).
Proof.
  intros Hi. cbn [handle_buffered]. unfold handle_inbound. rewrite decode_incomplete by done.
  cbn [ebind]. by destruct c.
Qed.

Lemma frame_bytes_ne f r : frame_bytes f ++ r <> [].
Proof.
  intros He. apply (f_equal length) in He. rewrite length_app, length_frame_bytes in He. simpl in He. lia.
Qed.

Lemma omap_one m : omap msg_command [m] = option_list (msg_command m).
Proof. simpl. by destruct (msg_command m). Qed.

(** One iteration that takes the buffered message, if there is one. *)
Lemma conn_take w env i c pu n om rest k :
  consumes env -> cn_buf c = concat (map (frame_bytes ∘ msg_frame) (option_list om)) ++ rest ->
  match om with None => incomplete rest | Some m => sendable (s_account_id (cn_session c)) m end ->
  fifo_hist (cmd_producer (cn_session c)) pu n -> room pu n (length (option_list om) + k) ->
  exists c' n', handle_buffered w (S (length (cn_buf c))) (lane_turn env i c) = Val (Drained, c')
    /\ cn_buf c' = rest /\ s_account_id (cn_session c') = s_account_id (cn_session c)
    /\ fifo_hist (cmd_producer (cn_session c')) (pu ++ omap msg_command (option_list om)) n'
    /\ room (pu ++ omap msg_command (option_list om)) n' k.
Proof.
  intros Henv Hbuf Hom Hq Hroom. destruct (lane_turn_hist env i c pu n Henv Hq) as [j Hj].
  unfold room in *. destruct om as [m|].
  - change (option_list (Some m)) with [m] in *. cbn [map concat length] in *. rewrite app_nil_r in Hbuf.
    destruct (handle_buffered_takes w (length (cn_buf c)) (lane_turn env i c) pu (n + j) m rest)
      as (c' & Hh & Hb & Ha & Hq'); [done|done|done|unfold room; lia|].
    exists c', (n + j)%nat. rewrite omap_one. split_and!; [done|done|done|done|].
    rewrite length_app. destruct (msg_command m); simpl; lia.
  - change (option_list None) with (@nil ClientMsg) in *. cbn [map concat length app] in *.
    exists (lane_turn env i c), (n + j)%nat. rewrite app_nil_r.
    split_and!; [|done|done|done|lia]. apply handle_buffered_waits. cbn. by rewrite Hbuf.
Qed.

(** The loop goes on with what a read brought. *)
Lemma conn_loop_read w env i chunk reads c c1 :
  handle_buffered w (S (length (cn_buf c))) (lane_turn env i c) = Val (Drained, c1) -> chunk <> [] ->
  conn_loop w env i (Data chunk :: reads) c = conn_loop w env (S i) reads (after_read chunk c1).
Proof. intros Hh Hc. cbn [conn_loop]. rewrite Hh. cbn [ebind]. by destruct chunk. Qed.

Definition paced (ms : list ClientMsg) : list SocketRead :=
  map (fun m => Data (frame_bytes (msg_frame m))) ms.

Lemma conn_loop_paced w env : consumes env -> forall ms i c pu n om,
  cn_buf c = concat (map (frame_bytes ∘ msg_frame) (option_list om)) ->
  Forall (sendable (s_account_id (cn_session c))) (option_list om ++ ms) ->
  fifo_hist (cmd_producer (cn_session c)) pu n -> room pu n (length (option_list om) + length ms) ->
  exists c' n', conn_loop w env i (paced ms) c = Val (PeerClosed, c') /\ cn_buf c' = []
    /\ fifo_hist (cmd_producer (cn_session c')) (pu ++ omap msg_command (option_list om ++ ms)) n'.
Proof.
  intros Henv. induction ms as [|m ms IH]; intros i c pu n om Hbuf Hs Hq Hroom;
    (destruct (conn_take w env i c pu n om [] _ Henv ltac:(by rewrite app_nil_r)
      ltac:(destruct om; [by apply Forall_inv in Hs|apply incomplete_nil]) Hq Hroom)
      as (c1 & n1 & Hh & Hb & Ha & Hq1 & Hr1));
    unfold paced; cbn [map].
  - exists c1, n1. cbn [conn_loop]. rewrite Hh. cbn [ebind]. by rewrite app_nil_r.
  - fold (paced ms). rewrite <- (app_nil_r (frame_bytes (msg_frame m))).
    rewrite (conn_loop_read _ _ _ _ _ _ _ Hh (frame_bytes_ne _ _)), app_nil_r. apply Forall_app in Hs as [_ Hs].
    destruct (IH (S i) (after_read (frame_bytes (msg_frame m)) c1) (pu ++ omap msg_command (option_list om)) n1 (Some m))
      as (c' & n' & He & Hb' & Hq').
    + cbn. by rewrite Hb, app_nil_r.
    + cbn. by rewrite Ha.
    + done.
    + done.
    + exists c', n'. split_and!; [done|done|]. rewrite omap_app, app_assoc. done.
Qed.
(** The handshake with the whole auth frame in the first read. *)
Lemma read_auth_whole t acct rest reads :
  in_u64 acct ->
  read_auth_frame (Data (frame_bytes (mkFrame t (le_bytes 8 acct)) ++ rest) :: reads) []
  = Val (Ok (acct, rest, reads)).
Proof.
  intros Ha. set (f := mkFrame t (le_bytes 8 acct)). cbn [read_auth_frame].
  rewrite (decode_incomplete []) by apply incomplete_nil.
  pose proof (frame_bytes_ne f rest) as Hne. cbn [app].
  assert (Hv : valid_frame f) by (unfold valid_frame, MAX_FRAME_LEN; cbn [f fr_payload]; rewrite length_le_bytes; lia).
  assert (Hd := decode_frame f rest Hv). destruct (frame_bytes f ++ rest); [done|].
  destruct reads; cbn [read_auth_frame app]; rewrite Hd; cbn [f fr_payload]; rewrite length_le_bytes; cbn [Nat.eqb negb];
    rewrite <- (app_nil_r (le_bytes 8 acct)), get_le_here by done; done.
Qed.

(** *** What a connection does with its stream, exactly *)

(** The bytes the reads deliver until the stream ends, and how it ends. *)
Fixpoint chunks (reads : list SocketRead) : list (list Z) * ConnEnd :=
  match reads with
  | [] | Data [] :: _ => ([], PeerClosed)
  | ReadErr :: _ => ([], SocketError)
  | Data chunk :: reads' => let '(cs, e) := chunks reads' in (chunk :: cs, e)
  end.

(** One turn at a buffer: its first frame if it is complete, and what is left;
    [None] when the header is bad. *)
Definition turn (buf : list Z) : option (list Frame * list Z) :=
  match decode buf with
  | (Err _, _) => None
  | (Ok None, buf') => Some ([], buf')
  | (Ok (Some f), buf') => Some ([f], buf')
  end.

(** One turn before every chunk: the frames taken, and the buffer the next
    turn finds. *)
Fixpoint turns (buf : list Z) (cs : list (list Z)) : option (list Frame * list Z) :=
  match cs with
  | [] => Some ([], buf)
  | c :: cs' =>
      match turn buf with
      | None => None
      | Some (fs, buf') =>
          match turns (buf' ++ c) cs' with Some (fs', b) => Some (fs ++ fs', b) | None => None end
      end
  end.

(** Why the front of a buffer is refused: a bad header, a frame that is no
    message of the account, an order outside the symbols, or a command for a
    full lane ([pu] pushed, [n] popped). *)
Inductive refused (acct : Z) (pu : list InboundCommand) (n : nat) (buf : list Z) : SessionError -> Prop :=
| ref_header e : bad_header buf e -> refused acct pu n buf (SE_Codec e)
| ref_frame f rest t reason : decode buf = (Ok (Some f), rest) ->
    (forall m, wf_msg acct m -> f <> msg_frame m) -> refused acct pu n buf (SE_MalformedPayload t reason)
| ref_symbol m rest id : decode buf = (Ok (Some (msg_frame m)), rest) -> wf_msg acct m ->
    out_of_range m = Some id ->
    refused acct pu n buf (SE_UnsupportedCommand (SymbolOutOfRange (mkSymbolRangeError id)))
| ref_full m rest cmd : decode buf = (Ok (Some (msg_frame m)), rest) -> sendable acct m ->
    msg_command m = Some cmd -> length pu = (n + CMD_QUEUE_CAP)%nat -> refused acct pu n buf SE_QueueFull.

(** The messages [ms] are taken from the buffer [buf] and the chunks: to the
    end of the stream, with [buf'] left, or up to a refused front. *)
Definition taken (acct : Z) (pu : list InboundCommand) (n : nat) (buf : list Z)
    (stream : list (list Z) * ConnEnd) (e : ConnEnd) (ms : list ClientMsg) (buf' : list Z) : Prop :=
  match e with
  | ProtocolError err => exists cs1 cs2 b, fst stream = cs1 ++ cs2
      /\ turns buf cs1 = Some (map msg_frame ms, b) /\ refused acct (pu ++ omap msg_command ms) n b err
  | ClosedBySession => False
  | _ => e = snd stream /\ exists fs b g, turns buf (fst stream) = Some (fs, b)
      /\ turn b = Some (g, buf') /\ map msg_frame ms = fs ++ g
  end.

Lemma valid_msg_frame m : valid_frame (msg_frame m).
Proof.
  unfold valid_frame, MAX_FRAME_LEN. destruct m; cbn [msg_frame fr_payload];
    rewrite ?length_new_order_payload, ?length_cancel_payload, ?length_le_bytes; lia.
Qed.

(** A turn of the inner loop. *)
Lemma handle_buffered_exact w fuel c pu n :
  Forall is_byte (cn_buf c) -> fifo_hist (cmd_producer (cn_session c)) pu n ->
  let acct := s_account_id (cn_session c) in
  (exists ms c', handle_buffered w (S fuel) c = Val (Drained, c') /\ Forall (sendable acct) ms
     /\ turn (cn_buf c) = Some (map msg_frame ms, cn_buf c') /\ s_account_id (cn_session c') = acct
     /\ fifo_hist (cmd_producer (cn_session c')) (pu ++ omap msg_command ms) n
     /\ subscriptions (cn_session c') = fold_left (fun subs m => msg_subs m subs) ms (subscriptions (cn_session c))
     /\ Forall is_byte (cn_buf c'))
  \/ exists err c', handle_buffered w (S fuel) c = Val (Protocol err, c')
       /\ refused acct pu n (cn_buf c) err /\ cn_session c' = cn_session c.
Proof.
  intros Hb Hq acct. cbn [handle_buffered]. unfold handle_inbound, turn.
  destruct (buf_front _ Hb) as [f r Hf Heq|Hi|e He].
  - rewrite Heq, decode_frame by done. rewrite Heq in Hb. destruct (frame_bytes_payload _ _ Hb) as [Hp Hr].
    assert (Hdec := decode_frame f r Hf).
    destruct (dispatch_bytes f (cn_session c) Hp) as [(m & Hm & ->)|(t & reason & Hd)].
    2:{ rewrite Hd. cbn [ebind]. right. eexists _, _. split; [done|]. split; [|done].
        eapply ref_frame; [exact Hdec|]. intros m Hm. by eapply malformed_no_msg. }
    destruct (dispatch_msg m (cn_session c) pu n Hm Hq) as (res & s' & Hd & Hh). rewrite Hd. cbn [ebind].
    destruct (handled_result _ _ _ _ _ _ Hh Hq) as [(-> & Ho & Ha & Hq' & Hs)|[[e ->] ->]].
    + left. exists [m]. eexists. split; [done|]. cbn [cn_session cn_buf map]. rewrite omap_one.
      split_and!; try done. by constructor.
    + right. eexists _, _. split; [done|]. split; [|done]. unfold handled in Hh.
      destruct (out_of_range m) as [id|] eqn:Ho; [destruct Hh as [[= ->] _]; by eapply ref_symbol|].
      destruct (msg_command m) as [cmd|] eqn:Hc; [|by destruct Hh].
      case_decide; [|by destruct Hh]. destruct Hh as [[= ->] _]. by eapply ref_full.
  - rewrite decode_incomplete by done. left. exists []. eexists. split; [done|].
    cbn [cn_session cn_buf map omap list_omap fold_left]. rewrite app_nil_r. by split_and!.
  - rewrite (decode_bad _ e) by done. right. eexists _, _. split; [done|]. split; [by apply ref_header|done].
Qed.

Lemma refused_pu acct pu1 pu2 n buf err : pu1 = pu2 -> refused acct pu1 n buf err -> refused acct pu2 n buf err.
Proof. by intros ->. Qed.

(** One more turn and one more chunk in front. *)
Lemma taken_cons acct pu n buf ms1 buf1 c cs e0 e ms2 buf' :
  turn buf = Some (map msg_frame ms1, buf1) ->
  taken acct (pu ++ omap msg_command ms1) n (buf1 ++ c) (cs, e0) e ms2 buf' ->
  taken acct pu n buf (c :: cs, e0) e (ms1 ++ ms2) buf'.
Proof.
  intros Ht. unfold taken. cbn [fst snd]. destruct e; try done.
  - intros [He (fs & b & g & Hts & Htb & Hm)]. split; [done|].
    exists (map msg_frame ms1 ++ fs), b, g. cbn [turns]. rewrite Ht, Hts, map_app, Hm, app_assoc. done.
  - intros (cs1 & cs2 & b & -> & Hts & Hr). exists (c :: cs1), cs2, b. cbn [turns]. rewrite Ht, Hts, map_app.
    split_and!; [done..|]. eapply refused_pu; [|exact Hr]. by rewrite omap_app, app_assoc.
  - intros [He (fs & b & g & Hts & Htb & Hm)]. split; [done|].
    exists (map msg_frame ms1 ++ fs), b, g. cbn [turns]. rewrite Ht, Hts, map_app, Hm, app_assoc. done.
Qed.

Lemma conn_loop_exact w env reads : consumes env -> forall i c pu n,
  Forall is_byte (cn_buf c) -> Forall is_byte (concat (fst (chunks reads))) ->
  fifo_hist (cmd_producer (cn_session c)) pu n ->
  let acct := s_account_id (cn_session c) in
  exists e c' ms n', conn_loop w env i reads c = Val (e, c') /\ Forall (sendable acct) ms
    /\ s_account_id (cn_session c') = acct
    /\ fifo_hist (cmd_producer (cn_session c')) (pu ++ omap msg_command ms) n'
    /\ subscriptions (cn_session c') = fold_left (fun subs m => msg_subs m subs) ms (subscriptions (cn_session c))
    /\ taken acct pu n' (cn_buf c) (chunks reads) e ms (cn_buf c').
Proof.
  intros Henv. induction reads as [|rd reads IH]; intros i c pu n Hb Hr Hq acct; cbn [conn_loop chunks];
    destruct (lane_turn_hist env i c pu n Henv Hq) as [j Hj];
    destruct (handle_buffered_exact w (length (cn_buf c)) (lane_turn env i c) pu (n + j) Hb Hj)
      as [(ms & c1 & Hh & Hms & Ht & Ha & Hq1 & Hs & Hb1)|(err & c1 & Hh & Href & Hsess)];
    rewrite Hh; cbn [ebind].
  - exists PeerClosed, c1, ms, (n + j)%nat. split_and!; try done. split; [done|]. by exists [], (cn_buf c), (map msg_frame ms).
  - exists (ProtocolError err), c1, [], (n + j)%nat. cbn [omap list_omap fold_left]. rewrite Hsess, app_nil_r.
    split_and!; try done. exists [], [], (cn_buf c). split_and!; [done..|]. by rewrite app_nil_r.
  - destruct rd as [[|b chunk]|].
    + exists PeerClosed, c1, ms, (n + j)%nat. split_and!; try done. split; [done|]. by exists [], (cn_buf c), (map msg_frame ms).
    + cbn [chunks] in Hr. destruct (chunks reads) as [cs e0] eqn:Hcs. cbn [fst concat] in Hr.
      apply Forall_app in Hr as [Hc Hr].
      destruct (IH (S i) (after_read (b :: chunk) c1) _ _ ltac:(by apply Forall_app) Hr Hq1)
        as (e & c' & ms' & n' & He & Hms' & Ha' & Hq' & Hs' & Htk).
      cbn [after_read cn_session cn_buf] in *. rewrite Ha in Hms', Ha', Htk. rewrite Hs in Hs'.
      exists e, c', (ms ++ ms'), n'. split_and!; [done|by apply Forall_app|done| | |by eapply taken_cons].
      * by rewrite omap_app, app_assoc.
      * by rewrite fold_left_app.
    + exists SocketError, c1, ms, (n + j)%nat. split_and!; try done. split; [done|]. by exists [], (cn_buf c), (map msg_frame ms).
  - exists (ProtocolError err), c1, [], (n + j)%nat. cbn [omap list_omap fold_left]. rewrite Hsess, app_nil_r.
    split_and!; try done. eexists [], _, (cn_buf c). split_and!; [done..|]. by rewrite app_nil_r.
Qed.

(** The handshake reads until the front of the stream is no longer
    incomplete: [k] chunks, and no fewer. *)
Definition first_front (buf : list Z) (cs : list (list Z)) (k : nat) : Prop :=
  (k <= length cs)%nat /\ forall j, (j < k)%nat -> incomplete (buf ++ concat (take j cs)).

(** Why it fails: a bad header, a first frame whose payload is not eight
    bytes, or the end of the stream before the first frame is complete. *)
Definition auth_refused (buf : list Z) (stream : list (list Z) * ConnEnd) (e : AuthError) : Prop :=
  let '(cs, e0) := stream in
  match e with
  | AE_Codec e => exists k, first_front buf cs k /\ bad_header (buf ++ concat (take k cs)) e
  | AE_Length => exists k f rest, first_front buf cs k /\ valid_frame f
      /\ buf ++ concat (take k cs) = frame_bytes f ++ rest /\ length (fr_payload f) <> 8%nat
  | AE_UnexpectedEof => e0 = PeerClosed /\ incomplete (buf ++ concat cs)
  | AE_Io => e0 = SocketError /\ incomplete (buf ++ concat cs)
  end.

Definition auth_accepted (buf : list Z) (stream : list (list Z) * ConnEnd) (acct : Z) (rest : list Z)
    (stream' : list (list Z) * ConnEnd) : Prop :=
  exists k t, first_front buf (fst stream) k /\ in_u64 acct
    /\ buf ++ concat (take k (fst stream)) = frame_bytes (mkFrame t (le_bytes 8 acct)) ++ rest
    /\ stream' = (drop k (fst stream), snd stream).

Lemma first_front_0 buf cs : first_front buf cs 0.
Proof. split; [lia|]. intros j Hj. lia. Qed.

Lemma first_front_S buf c cs k : incomplete buf -> first_front (buf ++ c) cs k -> first_front buf (c :: cs) (S k).
Proof.
  intros Hi [Hk Hf]. split; [simpl; lia|]. intros [|j] Hj; simpl; [by rewrite app_nil_r|].
  rewrite app_assoc. apply Hf. lia.
Qed.

Lemma auth_refused_cons buf c cs e0 e :
  incomplete buf -> auth_refused (buf ++ c) (cs, e0) e -> auth_refused buf (c :: cs, e0) e.
Proof.
  intros Hi. unfold auth_refused. destruct e; cbn [concat].
  - intros (k & Hf & Hb). exists (S k). cbn [take concat]. rewrite app_assoc. split; [by apply first_front_S|done].
  - intros (k & f & rest & Hf & Hv & Heq & Hl). exists (S k), f, rest. cbn [take concat]. rewrite app_assoc.
    split_and!; [by apply first_front_S|done..].
  - by rewrite app_assoc.
  - by rewrite app_assoc.
Qed.

Lemma auth_accepted_cons buf c cs e0 acct rest st' :
  incomplete buf -> auth_accepted (buf ++ c) (cs, e0) acct rest st' -> auth_accepted buf (c :: cs, e0) acct rest st'.
Proof.
  intros Hi (k & t & Hf & Ha & Heq & ->). exists (S k), t. cbn [fst snd take drop concat] in *. rewrite app_assoc.
  split_and!; [by apply first_front_S|done..].
Qed.

Definition auth_outcome (buf : list Z) (reads : list SocketRead)
    (r : Result (Z * list Z * list SocketRead) AuthError) : Prop :=
  match r with
  | Err e => auth_refused buf (chunks reads) e
  | Ok (acct, rest, reads') => auth_accepted buf (chunks reads) acct rest (chunks reads')
      /\ Forall is_byte rest /\ Forall is_byte (concat (fst (chunks reads')))
  end.

(** The first frame of the buffer decides the handshake. *)
Lemma read_auth_front reads buf f rest :
  Forall is_byte buf -> Forall is_byte (concat (fst (chunks reads))) ->
  valid_frame f -> buf = frame_bytes f ++ rest ->
  exists r, read_auth_frame reads buf = Val r /\ auth_outcome buf reads r.
Proof.
  intros Hb Hbr Hv ->. destruct (frame_bytes_payload _ _ Hb) as [Hp Hrest].
  assert (Hr : read_auth_frame reads (frame_bytes f ++ rest)
    = if negb (length (fr_payload f) =? 8)%nat then Val (Err AE_Length)
      else let! '(raw, _) := get_u64_le (fr_payload f) in Val (Ok (raw, rest, reads))).
  { destruct reads; cbn [read_auth_frame]; by rewrite decode_frame. }
  rewrite Hr. destruct (chunks reads) as [cs e0] eqn:Hcs.
  destruct (Nat.eqb_spec (length (fr_payload f)) 8) as [Hl|Hl]; cbn [negb].
  - destruct (get_account _ Hp Hl) as (acct & -> & Ha & Heq). cbn [ebind]. eexists. split; [done|].
    cbn [auth_outcome]. rewrite Hcs. split_and!; [|done|done]. exists 0%nat, (fr_type f).
    cbn [fst snd take drop concat]. rewrite app_nil_r, <- Heq.
    split_and!; [apply first_front_0|done|by destruct f|done].
  - eexists. split; [done|]. cbn [auth_outcome]. rewrite Hcs. exists 0%nat, f, rest. cbn [take concat].
    rewrite app_nil_r. split_and!; [apply first_front_0|done..].
Qed.

Lemma read_auth_bad reads buf e :
  bad_header buf e -> exists r, read_auth_frame reads buf = Val r /\ auth_outcome buf reads r.
Proof.
  intros He. exists (Err (AE_Codec e)). split.
  - destruct reads; cbn [read_auth_frame]; by rewrite (decode_bad _ e).
  - cbn [auth_outcome]. destruct (chunks reads) as [cs e0]. exists 0%nat. cbn [take concat]. rewrite app_nil_r.
    split; [apply first_front_0|done].
Qed.

Lemma read_auth_exact reads : forall buf,
  Forall is_byte buf -> Forall is_byte (concat (fst (chunks reads))) ->
  exists r, read_auth_frame reads buf = Val r /\ auth_outcome buf reads r.
Proof.
  induction reads as [|rd reads IH]; intros buf Hb Hr;
    (destruct (buf_front buf Hb) as [f r Hf Heq|Hi|e He];
     [by eapply read_auth_front| |by eapply read_auth_bad]); cbn [read_auth_frame]; rewrite decode_incomplete by done.
  { eexists. split; [done|]. cbn. by rewrite app_nil_r. }
  destruct rd as [[|b chunk]|]; [eexists; split; [done|]; cbn; by rewrite app_nil_r| |
    eexists; split; [done|]; cbn; by rewrite app_nil_r].
  cbn [chunks] in Hr. destruct (chunks reads) as [cs e0] eqn:Hcs. cbn [fst concat] in Hr.
  apply Forall_app in Hr as [Hc Hr].
  destruct (IH (buf ++ b :: chunk) ltac:(by apply Forall_app) Hr) as (r & -> & Ho).
  eexists. split; [done|]. destruct r as [[[acct rest] reads']|e]; cbn [auth_outcome chunks] in *; rewrite Hcs in *.
  - destruct Ho as (Ho & ? & ?). split_and!; [by apply auth_accepted_cons|done..].
  - by apply auth_refused_cons.
Qed.

Lemma chunks_bytes reads : Forall is_byte (received reads) -> Forall is_byte (concat (fst (chunks reads))).
Proof.
  induction reads as [|[[|b chunk]|] reads IH]; intros Hb; cbn [chunks]; try constructor.
  apply Forall_app in Hb as [Hc Hb]. specialize (IH Hb). destruct (chunks reads) as [cs e]. by apply Forall_app.
Qed.

(** C34. What a connection does with the bytes of its client, exactly, for any
    bytes cut in any way into reads and any speed of the sequencer. It ends
    without a panic. The handshake reads until the first frame is complete; it
    is accepted if that frame carries an account id of eight bytes, and
    refused for the reason the stream gives. Then the connection takes one
    turn at its buffer before every further read and one after the last, and
    each turn takes the first frame of the buffer if it is complete. If the
    connection ends with the stream, the frames of those turns are messages
    [ms] of the account, all of them have been handled, and what is left is
    the buffer after the last turn; if it ends with a protocol error, [ms] are
    the frames before it and the front of the buffer is one the session must
    refuse (a bad header, no message, an instrument outside the symbols, a full
    lane). The lane has received exactly the commands of [ms], in order, and
    the subscriptions are those of [ms]. So of a burst of frames in one read
    only one is taken per read, and the rest stay in the buffer when the
    client closes, although the comment in the loop says that it processes as
    many complete frames as are buffered. *)
Theorem connection_commands w env reads sid q pu n :
  Forall is_byte (received reads) -> consumes env -> fifo_hist q pu n ->
  exists r, handle_connection w env reads sid q = Val r /\
    match r with
    | Err e => auth_refused [] (chunks reads) e
    | Ok (e, c) => exists acct rest stream ms n',
        auth_accepted [] (chunks reads) acct rest stream
        /\ taken acct pu n' rest stream e ms (cn_buf c)
        /\ Forall (sendable acct) ms /\ s_account_id (cn_session c) = acct
        /\ fifo_hist (cmd_producer (cn_session c)) (pu ++ omap msg_command ms) n'
        /\ subscriptions (cn_session c) = fold_left (fun subs m => msg_subs m subs) ms ∅
    end.
Proof.
  intros Hb Henv Hq. unfold handle_connection.
  destruct (read_auth_exact reads [] ltac:(constructor) (chunks_bytes _ Hb)) as (r & -> & Hr). cbn [ebind].
  destruct r as [[[acct rest] reads']|e]; [|by eexists]. destruct Hr as (Hacc & Hrest & Hbr).
  destruct (conn_loop_exact w env reads' Henv 0 (mkConn (Session_new sid acct q) rest ∅ []) pu n Hrest Hbr Hq)
    as (e & c' & ms & n' & -> & Hms & Ha & Hh & Hs & Ht). cbn [ebind].
  eexists. split; [done|]. by exists acct, rest, (chunks reads'), ms, n'.
Qed.

(** Only typed commands enter the system: every command a connection adds
    to its lane belongs to the account that authenticated, names a symbol of
    16 bits, and has a price and a positive quantity of the width of their
    types, whatever bytes the client sends. *)
Theorem connection_typed w env reads sid q pu n :
  Forall is_byte (received reads) -> consumes env -> fifo_hist q pu n ->
  exists r, handle_connection w env reads sid q = Val r /\
    match r with
    | Err _ => True
    | Ok (_, c) => exists new n', fifo_hist (cmd_producer (cn_session c)) (pu ++ new) n'
        /\ Forall (typed_command (s_account_id (cn_session c))) new
    end.
Proof.
  intros Hb Henv Hq. destruct (connection_progress w env reads sid q pu n Hb Henv Hq) as (r & Hr & Hres).
  exists r. split; [done|]. destruct r as [[e c]|]; [|done].
  destruct Hres as (k & t & acct & ms & rest & n' & _ & Hms & _ & -> & Hh & _).
  exists (omap msg_command ms), n'. split; [done|]. apply Forall_forall. intros cmd Hin.
  apply list_elem_of_omap in Hin as (m & Hin & Hc). rewrite Forall_forall in Hms.
  destruct (Hms m Hin). by eapply msg_command_typed.
Qed.

(** A client that sends one message per read is served completely: if the
    lane has room for them, every message is handled, in order, and nothing is
    left in the buffer when the client closes. *)
Theorem connection_paced_complete w env sid q pu n t acct ms :
  consumes env -> fifo_hist q pu n -> in_u64 acct -> Forall (sendable acct) ms -> room pu n (length ms) ->
  exists c n', handle_connection w env (Data (frame_bytes (mkFrame t (le_bytes 8 acct))) :: paced ms) sid q
      = Val (Ok (PeerClosed, c))
    /\ cn_buf c = [] /\ fifo_hist (cmd_producer (cn_session c)) (pu ++ omap msg_command ms) n'.
Proof.
  intros Henv Hq Ha Hms Hroom. unfold handle_connection.
  pose proof (read_auth_whole t acct [] (paced ms) Ha) as Hauth. rewrite app_nil_r in Hauth.
  rewrite Hauth. cbn [ebind].
  destruct (conn_loop_paced w env Henv ms 0 (mkConn (Session_new sid acct q) [] ∅ []) pu n None)
    as (c & n' & -> & Hb & Hh); [done|done|done|done|]. by exists c, n'.
Qed.

(** A burst is not: of several complete messages that arrive in one read
    only the first is handled; the others wait in the buffer for further bytes
    from the client, and are dropped if it closes. *)
Theorem connection_burst_dropped w env sid q pu n t acct m ms :
  consumes env -> fifo_hist q pu n -> in_u64 acct -> sendable acct m -> room pu n 1 ->
  exists c n', handle_connection w env
        [Data (frame_bytes (mkFrame t (le_bytes 8 acct)));
         Data (stream_bytes (map msg_frame (m :: ms)))] sid q
      = Val (Ok (PeerClosed, c))
    /\ cn_buf c = stream_bytes (map msg_frame ms)
    /\ fifo_hist (cmd_producer (cn_session c)) (pu ++ option_list (msg_command m)) n'.
Proof.
  intros Henv Hq Ha Hm Hroom. unfold handle_connection.
  pose proof (read_auth_whole t acct [] [Data (stream_bytes (map msg_frame (m :: ms)))] Ha) as Hauth.
  rewrite app_nil_r in Hauth. rewrite Hauth. cbn [ebind]. set (c0 := mkConn _ _ _ _).
  destruct (conn_take w env 0 c0 pu n None [] 1 Henv eq_refl incomplete_nil Hq Hroom)
    as (c1 & n1 & Hh & Hb & Hacct & Hq1 & Hr1).
  change (stream_bytes (map msg_frame (m :: ms))) with (frame_bytes (msg_frame m) ++ stream_bytes (map msg_frame ms)).
  rewrite (conn_loop_read _ _ _ _ _ _ _ Hh (frame_bytes_ne _ _)). cbn [conn_loop]. rewrite app_nil_r in Hq1, Hr1.
  destruct (conn_take w env 1 (after_read (frame_bytes (msg_frame m) ++ stream_bytes (map msg_frame ms)) c1)
    pu n1 (Some m) (stream_bytes (map msg_frame ms)) 0 Henv) as (c2 & n2 & -> & Hb2 & _ & Hq2 & _).
  - cbn. rewrite Hb. by rewrite app_nil_r.
  - cbn. by rewrite Hacct.
  - done.
  - done.
  - exists c2, n2. split_and!; [done|done|]. by rewrite <- omap_one.
Qed.
End Connection.

(** ** What the tasks of a connection send to its writer *)

Definition put_top (o : option (Z * Z)) : list Z :=
  match o with
  | Some (p, q) => le_bytes 1 1 ++ le_bytes 8 p ++ le_bytes 8 q
  | None => le_bytes 1 0 ++ le_bytes 8 0 ++ le_bytes 8 0
  end.

Definition encode_market_data (ev : MarketDataEvent) (out : list Z) : Result unit CodecError * list Z :=
  let payload :=
    match ev with
    | TopOfBook instrument_id best_bid best_ask =>
        le_bytes 1 0 ++ le_bytes 8 instrument_id ++ put_top best_bid ++ put_top best_ask
    | MdTrade instrument_id price qty aggressor_side =>
        le_bytes 1 1 ++ le_bytes 8 instrument_id ++ le_bytes 8 price ++ le_bytes 8 qty
        ++ le_bytes 1 (if is_buy aggressor_side then 0 else 1)
    | HaltStatus instrument_id halted =>
        le_bytes 1 2 ++ le_bytes 8 instrument_id ++ le_bytes 1 (if halted then 1 else 0)
    end in
  encode MARKET_DATA payload out.

(** The task that forwards execution reports: [rs] is what its receiver
    returns, [tx_up i] whether the writer's channel takes the [i]-th frame; it
    is closed when the writer has failed, and [sent] frames have been taken. *)
Fixpoint exec_forwarder (account_id : Z) (tx_up : nat -> bool) (sent : nat) (rs : list (Recv Event)) :
    list (list Z) :=
  match rs with
  | [] | RecvClosed :: _ => []
  | RecvLagged :: rs' => exec_forwarder account_id tx_up sent rs'
  | RecvOk ev :: rs' =>
      match encode_event_for account_id ev [] with
      | (Ok true, buf) => if tx_up sent then buf :: exec_forwarder account_id tx_up (S sent) rs' else []
      | _ => exec_forwarder account_id tx_up sent rs'
      end
  end.

(** The task that forwards the market data of one instrument: it ends at the
    first result that is not an event. *)
Fixpoint md_forwarder (tx_up : list Z -> bool) (rs : list (Recv MarketDataEvent)) : list (list Z) :=
  match rs with
  | RecvOk ev :: rs' =>
      match encode_market_data ev [] with
      | (Ok _, buf) => if tx_up buf then buf :: md_forwarder tx_up rs' else []
      | _ => md_forwarder tx_up rs'
      end
  | _ => []
  end.

(** A client's reader of market data. *)
Definition read_top (p : list Z) : Exec (option (Z * Z) * list Z) :=
  let! '(has, p) := get_u8 p in let! '(price, p) := get_i64_le p in let! '(qty, p) := get_u64_le p in
  Val (if has =? 1 then Some (price, qty) else None, p).

Definition read_market_data (p : list Z) : Exec MarketDataEvent :=
  let! '(variant, p) := get_u8 p in
  let! '(id, p) := get_u64_le p in
  if variant =? 0 then
    let! '(bid, p) := read_top p in let! '(ask, _) := read_top p in Val (TopOfBook id bid ask)
  else if variant =? 1 then
    let! '(price, p) := get_i64_le p in let! '(qty, p) := get_u64_le p in
    let! '(sd, _) := get_u8 p in Val (MdTrade id price qty (if sd =? 0 then Buy else Sell))
  else if variant =? 2 then
    let! '(h, _) := get_u8 p in Val (HaltStatus id (h =? 1))
  else Panic.

Definition top_in_range (o : option (Z * Z)) : Prop :=
  match o with Some (p, q) => in_i64 p /\ in_u64 q | None => True end.

Definition md_in_range (ev : MarketDataEvent) : Prop :=
  in_u64 (md_instrument_id ev) /\
  match ev with
  | TopOfBook _ bid ask => top_in_range bid /\ top_in_range ask
  | MdTrade _ price qty _ => in_i64 price /\ in_u64 qty
  | HaltStatus _ _ => True
  end.

Lemma read_top_put o r : top_in_range o -> read_top (put_top o ++ r) = Val (o, r).
Proof.
  intros Ho. unfold read_top. destruct o as [[p q]|]; cbn [put_top]; rewrite <- !app_assoc.
  - destruct Ho. by do 3 read_field.
  - by do 3 read_field.
Qed.

Lemma length_put_top o : length (put_top o) = 17%nat.
Proof. destruct o as [[??]|]; unfold put_top; by rewrite !length_app, !length_le_bytes. Qed.

(** The frame of a market data event is read back to it. *)
Lemma market_data_frame ev out :
  md_in_range ev ->
  exists f, encode_market_data ev out = (Ok tt, out ++ frame_bytes f)
    /\ decode (frame_bytes f) = (Ok (Some f), []) /\ fr_type f = MARKET_DATA
    /\ read_market_data (fr_payload f) = Val ev.
Proof.
  intros [Hi Hr]. unfold encode_market_data.
  match goal with |- context [encode MARKET_DATA ?p out] => exists (mkFrame MARKET_DATA p) end.
  match goal with |- context [mkFrame MARKET_DATA ?p] =>
    assert (Hv : valid_frame (mkFrame MARKET_DATA p));
      [unfold valid_frame, MAX_FRAME_LEN; cbn [fr_payload]|] end.
  { destruct ev; rewrite !length_app, ?length_put_top, !length_le_bytes; lia. }
  split_and!; [by apply (encode_valid (mkFrame MARKET_DATA _))| |done|].
  { rewrite <- (app_nil_r (frame_bytes _)) at 1. by apply decode_frame. }
  cbn [fr_payload]. unfold read_market_data. destruct ev as [i bid ask|i p q sd|i h]; cbn [md_instrument_id] in *;
    rewrite get_le_here by (simpl; lia); cbn [ebind]; read_field; cbn [Z.eqb Pos.eqb].
  - destruct Hr. rewrite read_top_put by done. cbn [ebind].
    rewrite <- (app_nil_r (put_top ask)), read_top_put by done. done.
  - destruct Hr. do 2 read_field. rewrite <- (app_nil_r (le_bytes 1 _)), get_le_here by (destruct sd; simpl; lia).
    by destruct sd.
  - rewrite <- (app_nil_r (le_bytes 1 _)), get_le_here by (destruct h; simpl; lia). by destruct h.
Qed.

(** The events a broadcast receiver was given until it was closed. *)
Fixpoint given {E} (rs : list (Recv E)) : list E :=
  match rs with
  | [] | RecvClosed :: _ => []
  | RecvLagged :: rs' => given rs'
  | RecvOk e :: rs' => e :: given rs'
  end.

(** How many of [n] frames the channel takes from the [i]-th on, until it
    refuses one. *)
Fixpoint accepted (tx_up : nat -> bool) (i n : nat) : nat :=
  match n with
  | O => 0%nat
  | S n' => if tx_up i then S (accepted tx_up (S i) n') else 0%nat
  end.

Lemma accepted_all tx_up i n : (forall j, tx_up j = true) -> accepted tx_up i n = n.
Proof. intros H. revert i. induction n as [|n IH]; intros i; simpl; [done|]. by rewrite H, IH. Qed.

(** The report of an event from the point of view of one account: of a fill,
    its own order's. *)
Definition own_report (acct : Z) (ev : Event) : option Report :=
  match ev with
  | Event_Filled _ f =>
      if f_aggressor_account_id f =? acct
      then Some (RFilled (f_aggressor_order_id f) (f_price f) (f_qty f) (f_aggressor_remaining_qty f) true)
      else Some (RFilled (f_resting_order_id f) (f_price f) (f_qty f) (f_resting_remaining_qty f) false)
  | _ => event_report ev
  end.

(** A fill of the account's resting order by somebody else's. *)
Definition resting_fill (acct : Z) (ev : Event) : bool :=
  match ev with Event_Filled _ f => negb (f_aggressor_account_id f =? acct) | _ => false end.

(** What a report of a fill says instead, when it is sent to the resting side:
    the aggressor's order id, remaining quantity and flag. *)
Definition as_aggressor (f : Fill) : Report :=
  RFilled (f_aggressor_order_id f) (f_price f) (f_qty f) (f_aggressor_remaining_qty f) true.
Definition sent_report (acct : Z) (ev : Event) : option Report :=
  match ev with
  | Event_Filled _ f => if resting_fill acct ev then Some (as_aggressor f) else own_report acct ev
  | _ => own_report acct ev
  end.

Lemma sent_report_eq acct ev : sent_report acct ev = event_report ev.
Proof. destruct ev; try done. simpl. by destruct (_ =? acct). Qed.

Lemma forwarder_sends acct tx_up rs : forall i,
  Forall (fun ev => forall r, event_report ev = Some r -> report_in_range r) (given rs) ->
  let mine := List.filter (fun ev => bool_decide (acct ∈ event_accounts ev)) (given rs) in
  exists fs, exec_forwarder acct tx_up i rs = map frame_bytes fs
    /\ Forall (fun f => fr_type f = EXEC_REPORT) fs
    /\ map (fun f => read_report (fr_payload f)) fs
       = map Val (take (accepted tx_up i (length mine)) (omap (sent_report acct) mine)).
Proof.
  induction rs as [|[ev| |] rs IH]; intros i; cbn [given exec_forwarder]; intros Hr; try by exists [].
  2: { by apply IH. }
  apply Forall_cons in Hr as [Hev Hr]. cbn [List.filter].
  pose proof (fun r => encode_event_report acct ev r []) as He. case_bool_decide as Hin.
  - destruct (event_report ev) as [r|] eqn:Hrep; [|by destruct ev; cbn in *; try done; set_solver].
    specialize (He r eq_refl (Hev r eq_refl)). rewrite decide_True in He by done.
    destruct He as (f & -> & _ & Hf & Hrd). cbn [length accepted app].
    destruct (tx_up i); [|by exists []].
    destruct (IH (S i) Hr) as (fs & -> & Ht & Heq). exists (f :: fs). cbn [map omap list_omap].
    rewrite sent_report_eq, Hrep, Hrd. cbn [take map]. rewrite Heq. split_and!; try done. by constructor.
  - destruct (IH i Hr) as (fs & Hfs & Ht & Heq). exists fs. rewrite Heq, <- Hfs. split_and!; try done.
    replace (encode_event_for acct ev []) with (Ok (E := CodecError) false, @nil Z); [done|].
    destruct (event_report ev) as [r|] eqn:Hrep; [|by destruct ev].
    specialize (He r eq_refl (Hev r eq_refl)). by rewrite decide_False in He.
Qed.

(** C36. A client is sent the reports of its own account and no others. Of the
    events a connection receives, those of its account are handed to the
    writer as one frame each, in order, up to the first frame the writer's
    channel refuses, so all of them while the writer is up; nothing of other
    accounts is written, and a lag of the receiver loses events but stops
    nothing. Each frame reads back to the account's own report of the event,
    with one exception, which the code has against its own comment ("from the
    perspective of this account", "whichever side matches"): a fill of the
    account's resting order is reported with the aggressor's order id,
    remaining quantity and flag. *)
Theorem exec_forwarder_exact acct tx_up rs :
  Forall (fun ev => forall r, event_report ev = Some r -> report_in_range r) (given rs) ->
  let mine := List.filter (fun ev => bool_decide (acct ∈ event_accounts ev)) (given rs) in
  exists fs, exec_forwarder acct tx_up 0 rs = map frame_bytes fs
    /\ Forall (fun f => fr_type f = EXEC_REPORT) fs
    /\ map (fun f => read_report (fr_payload f)) fs
       = map Val (take (accepted tx_up 0 (length mine)) (omap (sent_report acct) mine))
    /\ ((forall i, tx_up i = true) ->
        map (fun f => read_report (fr_payload f)) fs = map Val (omap (sent_report acct) mine))
    /\ (forall ev, resting_fill acct ev = false -> sent_report acct ev = own_report acct ev).
Proof.
  intros Hr mine. destruct (forwarder_sends acct tx_up rs 0 Hr) as (fs & Hfs & Ht & Heq). fold mine in Heq.
  exists fs. split_and!; try done.
  - intros Hup. rewrite Heq, accepted_all, take_ge; [done| |done].
    generalize (sent_report acct). generalize mine. clear. intros l g. induction l as [|ev l IH]; [done|].
    cbn [omap list_omap] in *. destruct (g ev); cbn [length]; lia.
  - intros [] H; try done. cbn [sent_report]. by rewrite H.
Qed.

(** Market data stops for good at the first lag, although the channel goes on:
    the forwarder returns, and the instrument stays marked as forwarded. *)
Lemma md_forwarder_lag tx_up evs more :
  md_forwarder tx_up (map RecvOk evs ++ RecvLagged :: more) = md_forwarder tx_up (map RecvOk evs).
Proof.
  induction evs as [|ev evs IH]; [done|]. cbn [map app md_forwarder]. rewrite IH. done.
Qed.

(** ** Witnesses: connections on a ring of spsc.rs *)

Module ServerDemo.
Import SessionDemo.

Definition auth : list Z := frame_bytes (mkFrame 0 (le_bytes 8 42)).
Definition cancel : CancelOrder := mkCancelOrder 42 5 77.
Definition new_msg : ClientMsg := CNew order.
Definition cancel_msg : ClientMsg := CCancel cancel.

Lemma new_sendable : sendable 42 new_msg.
Proof. split; [split; [apply order_wf|done]|done]. Qed.
Lemma cancel_sendable : sendable 42 cancel_msg.
Proof. by split. Qed.

(** The sequencer pops once per turn. *)
Definition sequencer_turn := @pop_one _ _ _ lane.
Lemma turn_consumes : consumes sequencer_turn.
Proof. apply pop_one_consumes. Qed.

Definition up (_ : list Z) : bool := true.

(** The auth frame and an order in one read, an order cut in two. *)
Definition stream : list Z := auth ++ frame_bytes (msg_frame new_msg) ++ frame_bytes (msg_frame cancel_msg).
Definition reads : list SocketRead := [Data (take 60 stream); Data (drop 60 stream)].

Lemma reads_bytes : Forall is_byte (received reads).
Proof. apply CodecDemo.bytes_ok. vm_compute. reflexivity. Qed.

(** The two commands are enqueued. *)
Lemma demo_commands :
  match handle_connection up (fun _ q => q) reads 1 fifo_new with
  | Val (Ok (PeerClosed, c)) => fst <$> match fifo_pop (cmd_producer (cn_session c)) with Val r => Some r | _ => None end
  | _ => None
  end = Some (Some (Inbound_NewOrder 42 1 5 Buy (-10000) 3 Limit Gtc)).
Proof. vm_compute. reflexivity. Qed.

Lemma demo_closes :
  match handle_connection up sequencer_turn reads 1 fifo_new with
  | Val (Ok (PeerClosed, c)) => s_account_id (cn_session c) = 42 /\ cn_buf c = []
  | _ => False
  end.
Proof. vm_compute. split; reflexivity. Qed.
Lemma demo_result r :
  handle_connection up sequencer_turn reads 1 fifo_new = Val r ->
  exists c, r = Ok (PeerClosed, c) /\ s_account_id (cn_session c) = 42 /\ cn_buf c = [].
Proof.
  pose proof demo_closes as Hd. intros Hr. rewrite Hr in Hd.
  destruct r as [[[] c]|]; try contradiction. by exists c.
Qed.

Lemma connection_commands_witness :
  exists c rest stream ms n', auth_accepted [] (chunks reads) 42 rest stream
    /\ taken 42 [] n' rest stream PeerClosed ms []
    /\ fifo_hist (cmd_producer (cn_session c)) (omap msg_command ms) n'.
Proof.
  destruct (connection_commands up sequencer_turn reads 1 fifo_new [] 0) as (r & Hr & Hres);
    [apply reads_bytes|apply turn_consumes|apply fifo_new_hist|].
  destruct (demo_result r Hr) as (c & -> & Ha & Hb).
  destruct Hres as (acct & rest & stream & ms & n' & Hau & Ht & _ & Hacct & Hh & _).
  assert (acct = 42) as -> by congruence. rewrite Hb in Ht.
  exists c, rest, stream, ms, n'. exact (conj Hau (conj Ht Hh)).
Defined.

Lemma connection_typed_witness :
  exists r, handle_connection up sequencer_turn reads 1 fifo_new = Val r.
Proof.
  destruct (connection_typed up sequencer_turn reads 1 fifo_new [] 0) as (r & Hr & _);
    [apply reads_bytes|apply turn_consumes|apply fifo_new_hist|by exists r].
Defined.

Lemma connection_paced_complete_witness :
  exists c n', handle_connection up sequencer_turn (Data auth :: paced [new_msg; cancel_msg]) 1 fifo_new
      = Val (Ok (PeerClosed, c))
    /\ cn_buf c = []
    /\ fifo_hist (cmd_producer (cn_session c))
         [Inbound_NewOrder 42 1 5 Buy (-10000) 3 Limit Gtc; Inbound_Cancel 42 77] n'.
Proof.
  apply (connection_paced_complete up sequencer_turn 1 fifo_new [] 0 0 42 [new_msg; cancel_msg]);
    [apply turn_consumes|apply fifo_new_hist|done
    |apply Forall_cons; split; [apply new_sendable|apply Forall_singleton, cancel_sendable]|unfold room, CMD_QUEUE_CAP; simpl; lia].
Defined.

Lemma connection_burst_dropped_witness :
  exists c n', handle_connection up sequencer_turn
        [Data auth; Data (stream_bytes (map msg_frame [cancel_msg; new_msg]))] 1 fifo_new
      = Val (Ok (PeerClosed, c))
    /\ cn_buf c = stream_bytes (map msg_frame [new_msg])
    /\ fifo_hist (cmd_producer (cn_session c)) [Inbound_Cancel 42 77] n'.
Proof.
  apply (connection_burst_dropped up sequencer_turn 1 fifo_new [] 0 0 42 cancel_msg [new_msg]);
    [apply turn_consumes|apply fifo_new_hist|done|apply cancel_sendable|unfold room, CMD_QUEUE_CAP; simpl; lia].
Defined.

(** Account 9 gets the trade it made and not the reject of account 42. *)
Definition feed_events : list (Recv Event) :=
  [RecvOk (Event_Rejected 6 42 1 RR_ArenaFull); RecvLagged; RecvOk trade; RecvClosed].

Definition tx_up (_ : nat) : bool := true.

Lemma exec_forwarder_exact_witness :
  exists fs, exec_forwarder 9 tx_up 0 feed_events = map frame_bytes fs
    /\ map (fun f => read_report (fr_payload f)) fs = [Val (RFilled 100 10 3 2 true)].
Proof.
  destruct (exec_forwarder_exact 9 tx_up feed_events) as (fs & H1 & _ & _ & H2 & _);
    [|exists fs; exact (conj H1 (H2 (fun _ => eq_refl)))].
  repeat (apply Forall_cons; split; [intros r Hr; simplify_eq Hr; intros <-; by split_and?|]). constructor.
Defined.

(** What account 9 should have been told of its resting order 200. *)
Example resting_side_view : own_report 9 trade = Some (RFilled 200 10 3 0 false).
Proof. reflexivity. Qed.
End ServerDemo.
