(* ===== verification/Accept.v ===== *)
(** * Accept: the gateway server around its connections (crates/gateway/src/server.rs, tls.rs)

    [GatewayServer]: session ids from one shared counter, a lane from the
    factory for each session, and the accept loops [serve] and [serve_tls],
    which spawn a task per connection.  Several loops may run on one server, so
    their turns interleave.  The sockets, TLS and the tasks' scheduler are
    tokio's: an accepted stream is what its reads return, a handshake succeeds
    or fails, and a task is run by Server.v's [handle_connection]. *)

From stdpp Require Import strings.
From S2P Require Import Prelude CoreTypes Bytes RingBuffer Fifo Codec Session MarketData Server.
#[local] Open Scope list_scope.
#[local] Open Scope Z_scope.

Record GatewayConfig := mkGatewayConfig { bind_addr : string; inbound_queue_capacity : Z; read_buf_capacity : Z }.
Definition GatewayConfig_default : GatewayConfig := mkGatewayConfig "127.0.0.1:7000" 4096 (8 * 1024).

(** ** tls.rs *)

Section Tls.
(** The file system, the PEM parser and the builder of rustls. *)
Context {File Cert Key Acceptor : Type} (open_file : string -> Result File string)
  (pem_certs : File -> list (Result Cert string)) (pem_private_key : File -> Result (option Key) string)
  (with_single_cert : list Cert -> Key -> Result Acceptor string).

Record TlsConfig := mkTlsConfig { cert_path : string; key_path : string }.

(** [collect::<Result<Vec<_>, _>>()]: the first error, or every item. *)
Fixpoint collect {A} (items : list (Result A string)) : Result (list A) string :=
  match items with
  | [] => Ok []
  | Err e :: _ => Err e
  | Ok a :: items => match collect items with Ok l => Ok (a :: l) | Err e => Err e end
  end.

Definition load_certs (path : string) : Result (list Cert) string :=
  match open_file path with Err e => Err e | Ok file => collect (pem_certs file) end.

Definition load_key (path : string) : Result Key string :=
  match open_file path with
  | Err e => Err e
  | Ok file =>
      match pem_private_key file with
      | Err e => Err e
      | Ok None => Err "no private key found in file"%string
      | Ok (Some key) => Ok key
      end
  end.

Definition build_acceptor (config : TlsConfig) : Result Acceptor string :=
  match load_certs (cert_path config) with
  | Err e => Err e
  | Ok certs =>
      match load_key (key_path config) with
      | Err e => Err e
      | Ok key => with_single_cert certs key
      end
  end.

Lemma collect_ok {A} (items : list (Result A string)) l : collect items = Ok l <-> items = Ok <$> l.
Proof.
  revert l. induction items as [|[a|e] items IH]; intros l; simpl.
  - split; [by intros [= <-]|]. by destruct l.
  - destruct (collect items) as [l'|e'].
    + split; [intros [= <-]; simpl; f_equal; by apply IH|]. destruct l as [|b l]; [done|]. intros [= -> H%IH]. congruence.
    + split; [done|]. destruct l as [|b l]; [done|]. intros [= -> H%IH]. done.
  - split; [done|]. by destruct l.
Qed.

(** An acceptor is built exactly from a readable certificate file of which
    every certificate parses and a readable key file that holds a key; a bad
    certificate is reported before the key file is looked at. *)
Theorem build_acceptor_exact config acceptor :
  build_acceptor config = Ok acceptor <->
  exists cf kf certs key, open_file (cert_path config) = Ok cf /\ pem_certs cf = Ok <$> certs
    /\ open_file (key_path config) = Ok kf /\ pem_private_key kf = Ok (Some key) /\ with_single_cert certs key = Ok acceptor.
Proof.
  unfold build_acceptor, load_certs, load_key. split.
  - destruct (open_file (cert_path config)) as [cf|] eqn:E1; [|done]. destruct (collect (pem_certs cf)) as [certs|] eqn:E2; [|done].
    destruct (open_file (key_path config)) as [kf|] eqn:E3; [|done]. destruct (pem_private_key kf) as [[key|]|] eqn:E4; [|done|done].
    intros H. apply collect_ok in E2. by exists cf, kf, certs, key.
  - intros (cf & kf & certs & key & -> & Hc%collect_ok & -> & -> & H). by rewrite Hc.
Qed.
End Tls.

(** ** The server *)

Section Accept.
Context {Q : Type} {FQ : Fifo Q InboundCommand CMD_QUEUE_CAP}.

(** The market-data hub and the sender of execution reports, of which every
    task gets a handle, belong to MarketData.v and to the forwarders of
    Server.v. *)
Record GatewayServer := mkServer {
  gs_config : GatewayConfig;
  cmd_producer_factory : Z -> Q;
  next_session_id : Z
}.

Definition GatewayServer_new (config : GatewayConfig) (factory : Z -> Q) : GatewayServer := mkServer config factory 1.

(** A spawned task: the socket (a TLS handshake that failed has none), the
    session id and its lane. *)
Record Task := mkTask { tk_socket : Result (list SocketRead) string; tk_session : Z; tk_peer : string; tk_lane : Q }.

(** What [accept().await] gives: a stream and its peer, or an error. *)
Definition AcceptResult : Type := Result (list SocketRead * string) string.

(** [next_session_id.fetch_add(1)] and the lane of the session. *)
Definition open_session (srv : GatewayServer) : Z * Q * GatewayServer :=
  let session_id := next_session_id srv in
  let srv := mkServer (gs_config srv) (cmd_producer_factory srv) (wrap_u64 (session_id + 1)) in
  (session_id, cmd_producer_factory srv session_id, srv).

(** One turn of [serve]: the error of the listener, or the task spawned. *)
Definition serve_turn (a : AcceptResult) (srv : GatewayServer) : Result (Task * GatewayServer) string :=
  match a with
  | Err e => Err e
  | Ok (stream, peer) => let '(id, lane, srv) := open_session srv in Ok (mkTask (Ok stream) id peer lane, srv)
  end.

(** One turn of [serve_tls]; [handshake] is what the acceptor makes of the stream. *)
Definition serve_tls_turn (handshake : list SocketRead -> Result (list SocketRead) string) (a : AcceptResult) (srv : GatewayServer) :
    Result (Task * GatewayServer) string :=
  match a with
  | Err e => Err e
  | Ok (stream, peer) => let '(id, lane, srv) := open_session srv in Ok (mkTask (handshake stream) id peer lane, srv)
  end.

(** The loop over the first accepts; [None] while it still serves. *)
Fixpoint serve (accepts : list AcceptResult) (srv : GatewayServer) : option string * list Task * GatewayServer :=
  match accepts with
  | [] => (None, [], srv)
  | a :: accepts =>
      match serve_turn a srv with
      | Err e => (Some e, [], srv)
      | Ok (t, srv) => let '(e, ts, srv) := serve accepts srv in (e, t :: ts, srv)
      end
  end.

(** [run]: bind the configured address, then serve; [bind] gives the error of
    the operating system, if any. *)
Definition gateway_run (bind : string -> option string) (accepts : list AcceptResult) (srv : GatewayServer) :
    option string * list Task * GatewayServer :=
  match bind (bind_addr (gs_config srv)) with
  | Some e => (Some e, [], srv)
  | None => serve accepts srv
  end.

Fixpoint serve_tls (handshake : list SocketRead -> Result (list SocketRead) string) (accepts : list AcceptResult) (srv : GatewayServer) :
    option string * list Task * GatewayServer :=
  match accepts with
  | [] => (None, [], srv)
  | a :: accepts =>
      match serve_tls_turn handshake a srv with
      | Err e => (Some e, [], srv)
      | Ok (t, srv) => let '(e, ts, srv) := serve_tls handshake accepts srv in (e, t :: ts, srv)
      end
  end.

(** The body of a task: a failed handshake is logged and the task returns. *)
Definition run_task (writer_up : list Z -> bool) (env : nat -> Q -> Q) (t : Task) :
    Exec (option (Result (ConnEnd * Conn (Q := Q)) AuthError)) :=
  match tk_socket t with
  | Err _ => Val None
  | Ok reads => let! r := handle_connection writer_up env reads (tk_session t) (tk_lane t) in Val (Some r)
  end.

(** Turns of any number of plain and TLS loops on one server, interleaved. *)
Inductive Turn := Plain (a : AcceptResult) | Tls (handshake : list SocketRead -> Result (list SocketRead) string) (a : AcceptResult).

Definition turn (t : Turn) : GatewayServer -> Result (Task * GatewayServer) string :=
  match t with Plain a => serve_turn a | Tls hs a => serve_tls_turn hs a end.

Fixpoint turns (ts : list Turn) (srv : GatewayServer) : list Task * GatewayServer :=
  match ts with
  | [] => ([], srv)
  | t :: ts =>
      match turn t srv with
      | Err _ => turns ts srv
      | Ok (task, srv) => let '(tasks, srv) := turns ts srv in (task :: tasks, srv)
      end
  end.

(** [dispatch_event_to_sessions]: a stub; [unimplemented!] panics. *)
Fixpoint dispatch_loop (accounts : list Z) (sessions : Z -> bool) : Exec unit :=
  match accounts with
  | [] => Val tt
  | a :: accounts => if sessions a then Panic else dispatch_loop accounts sessions
  end.
Definition dispatch_event_to_sessions (ev : Event) (sessions : Z -> bool) : Exec unit :=
  dispatch_loop (event_accounts ev) sessions.

(** ** Session ids *)

(** A turn either fails with the listener's error or spawns one task. *)
Lemma turn_cases t srv :
  match turn t srv with
  | Err _ => True
  | Ok (task, srv') => tk_session task = next_session_id srv /\ tk_lane task = cmd_producer_factory srv (next_session_id srv)
      /\ srv' = mkServer (gs_config srv) (cmd_producer_factory srv) (wrap_u64 (next_session_id srv + 1))
  end.
Proof. destruct t as [[[stream peer]|e]|hs [[stream peer]|e]]; simpl; done. Qed.

Lemma turns_ids ts srv tasks srv' :
  turns ts srv = (tasks, srv') -> 0 <= next_session_id srv -> next_session_id srv + Z.of_nat (length ts) < two64 ->
  map tk_session tasks = seqZ (next_session_id srv) (Z.of_nat (length tasks))
  /\ Forall (fun t => tk_lane t = cmd_producer_factory srv (tk_session t)) tasks
  /\ next_session_id srv' = next_session_id srv + Z.of_nat (length tasks) /\ (length tasks <= length ts)%nat.
Proof.
  revert srv tasks. induction ts as [|t ts IH]; intros srv tasks Ht H0 Hb; simpl in *.
  { injection Ht as <- <-. simpl. split_and!; try done. lia. }
  pose proof (turn_cases t srv) as Hc. destruct (turn t srv) as [[task srv1]|e].
  - destruct Hc as (Hid & Hlane & ->). destruct (turns ts _) as [tasks1 srv2] eqn:E. injection Ht as <- <-.
    destruct (IH _ tasks1 E) as (Hids & Hl & Hn & Hlen); simpl in *; rewrite ?wrap_u64_id in * by (unfold in_u64; lia); [lia|lia|].
    split_and!; [|by constructor; [rewrite Hid|]|lia|lia].
    rewrite Hid, Hids. replace (Z.of_nat (S (length tasks1))) with (Z.succ (Z.of_nat (length tasks1))) by lia.
    rewrite (seqZ_cons _ (Z.succ _)) by lia. f_equal. f_equal; lia.
  - destruct (IH srv tasks Ht) as (? & ? & ? & ?); [done|lia|]. split_and!; try done. lia.
Qed.

(** A loop stops at the first error of its listener, and serves until then. *)
Lemma serve_prefix ok accepts e rest srv :
  Forall (fun a => exists s, a = Ok s) ok -> accepts = ok ++ Err e :: rest ->
  serve accepts srv = (Some e, (turns (map Plain ok) srv).1, (turns (map Plain ok) srv).2).
Proof.
  intros Hok ->. revert srv. induction Hok as [|a ok [[stream peer] ->] _ IH]; intros srv; [done|].
  cbn [app serve map turns turn serve_turn open_session]. rewrite IH. by destruct (turns (map Plain ok) _).
Qed.

Lemma serve_tls_prefix hs ok accepts e rest srv :
  Forall (fun a => exists s, a = Ok s) ok -> accepts = ok ++ Err e :: rest ->
  serve_tls hs accepts srv = (Some e, (turns (map (Tls hs) ok) srv).1, (turns (map (Tls hs) ok) srv).2).
Proof.
  intros Hok ->. revert srv. induction Hok as [|a ok [[stream peer] ->] _ IH]; intros srv; [done|].
  cbn [app serve_tls map turns turn serve_tls_turn open_session]. rewrite IH. by destruct (turns (map (Tls hs) ok) _).
Qed.

(** C35. Sessions do not mix.  However many plain and TLS loops accept on one
    server, the sessions get the ids 1, 2, 3, ..., each once and each with the
    lane the factory makes for it (a failed handshake uses up its id and
    nothing else).  Every task returns, whatever bytes its client sends and
    however they are cut into reads, and all it puts on its lane are well-typed
    commands of the one account that authenticated on that connection. *)
Theorem gateway_sessions_isolated config factory ts tasks srv' :
  Z.of_nat (length ts) + 1 < two64 -> turns ts (GatewayServer_new config factory) = (tasks, srv') ->
  map tk_session tasks = seqZ 1 (Z.of_nat (length tasks))
  /\ NoDup (map tk_session tasks)
  /\ Forall (fun t => tk_lane t = factory (tk_session t)) tasks
  /\ forall t w env pu n, t ∈ tasks -> consumes env -> fifo_hist (tk_lane t) pu n ->
       (forall reads, tk_socket t = Ok reads -> Forall is_byte (received reads)) ->
       exists r, run_task w env t = Val r /\
         match r with
         | Some (Ok (_, c)) => exists new n', fifo_hist (cmd_producer (cn_session c)) (pu ++ new) n'
             /\ Forall (typed_command (s_account_id (cn_session c))) new
         | _ => True
         end.
Proof.
  intros Hb Ht. destruct (turns_ids _ _ _ _ Ht) as (Hids & Hl & _ & _); [simpl; lia|simpl; lia|]. simpl in *.
  split_and!; [done|rewrite Hids; apply NoDup_seqZ|done|].
  intros t w env pu n _ Henv Hq Hbytes. unfold run_task. destruct (tk_socket t) as [reads|e] eqn:E; [|by exists None].
  destruct (connection_progress w env reads (tk_session t) (tk_lane t) pu n (Hbytes reads eq_refl) Henv Hq) as (r & -> & Hres).
  cbn [ebind]. exists (Some r). split; [done|]. destruct r as [[en c]|]; [|done].
  destruct Hres as (k & ty & acct & ms & rest & n' & _ & Hms & _ & -> & Hh & _).
  exists (omap msg_command ms), n'. split; [done|]. apply Forall_forall. intros cmd Hin.
  apply list_elem_of_omap in Hin as (m & Hin & Hc). rewrite Forall_forall in Hms. destruct (Hms m Hin). by eapply msg_command_typed.
Qed.

(** The stub panics exactly when the event has a reader. *)
Lemma dispatch_panics ev sessions :
  dispatch_event_to_sessions ev sessions = if existsb sessions (event_accounts ev) then Panic else Val tt.
Proof.
  unfold dispatch_event_to_sessions. induction (event_accounts ev) as [|a l IH]; [done|]. simpl. by destruct (sessions a).
Qed.
End Accept.

(** ** Witness: a plain connection and a TLS connection whose handshake fails *)

Module AcceptDemo.
Import SessionDemo ServerDemo.

Definition demo_turns : list Turn :=
  [Plain (Ok (reads, "10.0.0.1:5000"%string)); Plain (Err "EMFILE"%string);
   Tls (fun _ => Err "bad certificate"%string) (Ok ([], "10.0.0.2:5000"%string))].
Definition demo_tasks : list (Task (Q := Spsc.Queue (T := InboundCommand))) :=
  (turns demo_turns (GatewayServer_new GatewayConfig_default (fun _ => fifo_new))).1.
Definition demo_server : GatewayServer (Q := Spsc.Queue (T := InboundCommand)) :=
  (turns demo_turns (GatewayServer_new GatewayConfig_default (fun _ => fifo_new))).2.

Lemma gateway_sessions_isolated_witness : map tk_session demo_tasks = [1; 2] /\ NoDup (map tk_session demo_tasks).
Proof.
  destruct (gateway_sessions_isolated GatewayConfig_default (fun _ => fifo_new) demo_turns demo_tasks demo_server
    ltac:(vm_compute; reflexivity) eq_refl) as (H & Hn & _).
  exact (conj H Hn).
Defined.
End AcceptDemo.
