(* ===== verification/Dpdk.v ===== *)
(** * Dpdk: the kernel-bypass receive path (crates/dpdk-gateway)

    rx.rs: [RxWorker] polls bursts of packet buffers, filters them, decodes the
    payload with the codec and the decoders of the gateway and pushes the
    command into a ring; port.rs, mempool.rs and eal.rs bring the device up.
    The DPDK functions are arguments: what a burst holds and the codes the
    calls return.  Pointer arithmetic is arithmetic on positions of the
    buffer; a slice that leaves the buffer, undefined in the code, panics
    here. *)

From stdpp Require Import strings.
From S2P Require Import Prelude CoreTypes Bytes RingBuffer Fifo Codec Session.
#[local] Open Scope list_scope.
#[local] Open Scope Z_scope.

(** ** rx.rs *)

Definition BURST_SIZE : nat := 32.
Definition HEADER_SKIP : Z := 14 + 20 + 8.

(** [buf_addr], with the bytes behind it, [data_off] and [data_len]. *)
Record Mbuf := mkMbuf { buf : list Z; data_off : Z; data_len : Z }.

(** [slice::from_raw_parts(data_ptr + off, len)]. *)
Definition raw_parts (m : Mbuf) (off len : Z) : Exec (list Z) :=
  let start := data_off m + off in
  if (0 <=? start) && (0 <=? len) && (start + len <=? Z.of_nat (length (buf m)))
  then Val (slice (Z.to_nat start) (Z.to_nat len) (buf m)) else Panic.

(** [raw.get(a..b) == Some(bs)] and [raw.get(i) == Some(&b)]. *)
Definition get_eq (raw : list Z) (a : nat) (bs : list Z) : bool :=
  (a + length bs <=? length raw)%nat && bool_decide (slice a (length bs) raw = bs).

Section Rx.
Context {Q : Type} {cap : nat} {FQ : Fifo Q InboundCommand cap}.

(** The port and queue numbers only select the bursts, the codec has no state,
    and [running] is cleared when the bursts end. *)
Record RxWorker := mkRx { rx_account : Z; rx_producer : Q; order_port_be : list Z }.

Definition set_rx_producer (q : Q) (w : RxWorker) : RxWorker := mkRx (rx_account w) q (order_port_be w).

(** [cmd.ok().and_then(|c| InboundCommand::try_from(c).ok())], then [try_push]. *)
Definition push_decoded (cmd : Result Command SessionError) (w : RxWorker) : RxWorker :=
  match cmd with
  | Err _ => w
  | Ok c =>
      match inbound_try_from c with
      | Err _ => w
      | Ok inbound => set_rx_producer (fifo_push inbound (rx_producer w)).2 w
      end
  end.

Definition map_ok {A B E} (f : A -> B) (r : Result A E) : Result B E := match r with Ok a => Ok (f a) | Err e => Err e end.

Definition handle_packet (m : Mbuf) (w : RxWorker) : Exec RxWorker :=
  if data_len m <=? HEADER_SKIP then Val w
  else
    let! payload := raw_parts m HEADER_SKIP (data_len m - HEADER_SKIP) in
    let! raw := raw_parts m (- HEADER_SKIP) (data_len m + HEADER_SKIP) in
    let is_ipv4 := get_eq raw 12 [8; 0] in
    let is_udp := get_eq raw 23 [17] in
    let dest_port_ok := get_eq raw 36 (order_port_be w) in
    if negb is_ipv4 || negb is_udp || negb dest_port_ok then Val w
    else
      match decode payload with
      | (Ok (Some frame), _) =>
          if fr_type frame =? NEW_ORDER then
            let! r := decode_new_order (rx_account w) (fr_payload frame) in Val (push_decoded (map_ok Command_New r) w)
          else if fr_type frame =? CANCEL_ORDER then
            let! r := decode_cancel_order (rx_account w) (fr_payload frame) in Val (push_decoded (map_ok Command_Cancel r) w)
          else Val w
      | (Ok None, _) | (Err _, _) => Val w
      end.

(** The packets of one burst, each freed after it is handled. *)
Fixpoint handle_burst (burst : list Mbuf) (w : RxWorker) : Exec (RxWorker * list Mbuf) :=
  match burst with
  | [] => Val (w, [])
  | m :: burst =>
      let! w := handle_packet m w in
      let! '(w, freed) := handle_burst burst w in
      Val (w, m :: freed)
  end.

(** The loop while [running] is set: the bursts received until it is cleared;
    [env i] is what the consumer of the ring does before burst [i].  A burst
    longer than the array would be indexed out of bounds. *)
Fixpoint rx_run (env : nat -> Q -> Q) (i : nat) (bursts : list (list Mbuf)) (w : RxWorker) : Exec (RxWorker * list Mbuf) :=
  match bursts with
  | [] => Val (w, [])
  | b :: bursts =>
      let! '(w, freed) :=
        if (BURST_SIZE <? length b)%nat then Panic else handle_burst b (set_rx_producer (env i (rx_producer w)) w) in
      let! '(w, more) := rx_run env (S i) bursts w in
      Val (w, freed ++ more)
  end.

(** ** What the receiver pushes *)

(** A burst as documented: no longer than asked for. *)
Definition burst_ok (b : list Mbuf) : Prop := (length b <= BURST_SIZE)%nat.

(** A buffer as the driver hands it over: bytes, and at least [HEADER_SKIP] of
    them before the frame (the headroom). *)
Record mbuf_ok (m : Mbuf) : Prop := {
  mb_bytes : Forall is_byte (buf m);
  mb_headroom : HEADER_SKIP <= data_off m;
  mb_len : 0 <= data_len m;
  mb_inside : data_off m + data_len m <= Z.of_nat (length (buf m))
}.

Lemma raw_parts_ok m off len :
  0 <= data_off m + off -> 0 <= len -> data_off m + off + len <= Z.of_nat (length (buf m)) ->
  raw_parts m off len = Val (slice (Z.to_nat (data_off m + off)) (Z.to_nat len) (buf m)).
Proof.
  intros H1 H2 H3. unfold raw_parts. rewrite (proj2 (Z.leb_le 0 _) H1), (proj2 (Z.leb_le 0 _) H2), (proj2 (Z.leb_le _ _) H3). done.
Qed.

(** The payload of a message as a command. *)
Lemma frame_command acct f :
  Forall is_byte (fr_payload f) ->
  (fr_type f = NEW_ORDER -> exists r, decode_new_order acct (fr_payload f) = Val r
     /\ forall n cmd, r = Ok n -> inbound_try_from (Command_New n) = Ok cmd -> typed_command acct cmd)
  /\ (fr_type f = CANCEL_ORDER -> exists r, decode_cancel_order acct (fr_payload f) = Val r
     /\ forall c cmd, r = Ok c -> inbound_try_from (Command_Cancel c) = Ok cmd -> typed_command acct cmd).
Proof.
  intros Hp. split; intros _.
  - destruct (decode_new_order_bytes acct _ Hp) as [(n & -> & Hw & Ha & _)|[reason ->]]; [|by eexists].
    eexists. split; [done|]. intros n' cmd [= <-] Hc. simpl in Hc. unfold Symbol.try_from in Hc.
    destruct (no_instrument_id n <=? 65535) eqn:Es; [|done]. apply (msg_command_typed acct (CNew n)); [by split|simpl; by rewrite Es|].
    by injection Hc as <-.
  - destruct (decode_cancel_bytes acct _ Hp) as [(c & -> & Hw & _)|[reason ->]]; [|by eexists].
    eexists. split; [done|]. intros c' cmd [= <-] Hc. apply (msg_command_typed acct (CCancel c)); [done|done|]. by injection Hc as <-.
Qed.

Lemma slice_bytes off n (bs : list Z) : Forall is_byte bs -> Forall is_byte (slice off n bs).
Proof. intros H. unfold slice. by apply Forall_take, Forall_drop. Qed.

Lemma decoded_bytes bs f rest : Forall is_byte bs -> decode bs = (Ok (Some f), rest) -> Forall is_byte (fr_payload f).
Proof.
  intros Hb Hd. destruct (buf_front bs Hb) as [f' r Hf Heq|Hi|e He].
  - rewrite Heq, decode_frame in Hd by done. injection Hd as <- <-. rewrite Heq in Hb.
    unfold frame_bytes in Hb. rewrite !Forall_app, Forall_cons in Hb. naive_solver.
  - rewrite decode_incomplete in Hd; done.
  - rewrite (decode_bad bs e) in Hd; done.
Qed.

(** What one packet does: it never leaves the buffer, and adds at most
    commands of the worker's account. *)
Definition packet_effect (w w' : RxWorker) (pu new : list InboundCommand) (n : nat) : Prop :=
  fifo_hist (rx_producer w') (pu ++ new) n /\ rx_account w' = rx_account w /\ order_port_be w' = order_port_be w
  /\ Forall (typed_command (rx_account w)) new /\ (length new <= 1)%nat.

Lemma packet_drop w pu n : fifo_hist (rx_producer w) pu n -> packet_effect w w pu [] n.
Proof. intros Hq. unfold packet_effect. rewrite app_nil_r. split_and!; try done. simpl. lia. Qed.

Lemma push_effect c w pu n :
  fifo_hist (rx_producer w) pu n -> (forall c' cmd, c = Ok c' -> inbound_try_from c' = Ok cmd -> typed_command (rx_account w) cmd) ->
  exists new, packet_effect w (push_decoded c w) pu new n.
Proof.
  intros Hq Ht. unfold push_decoded. destruct c as [c|e]; [|exists []; by apply packet_drop].
  destruct (inbound_try_from c) as [cmd|e] eqn:E; [|exists []; by apply packet_drop].
  destruct (push_attempt (rx_producer w) pu n cmd Hq) as [(q' & Hp & Hq')|[Hp _]]; rewrite Hp.
  - exists [cmd]. unfold packet_effect. simpl. split_and!; try done. repeat constructor. by eapply Ht.
  - exists []. unfold packet_effect. rewrite app_nil_r. simpl. split_and!; try done. lia.
Qed.

Lemma handle_packet_ok m w pu n :
  mbuf_ok m -> fifo_hist (rx_producer w) pu n ->
  exists w' new, handle_packet m w = Val w' /\ packet_effect w w' pu new n.
Proof.
  intros [Hb Hh Hl Hi] Hq. unfold handle_packet. unfold HEADER_SKIP in *.
  destruct (Z.leb_spec (data_len m) (14 + 20 + 8)); [exists w, []; split; [done|by apply packet_drop]|].
  rewrite !raw_parts_ok by lia. cbn [ebind]. set (payload := slice (Z.to_nat (data_off m + (14 + 20 + 8))) _ (buf m)).
  assert (Hp : Forall is_byte payload) by (by apply slice_bytes).
  destruct (negb _ || negb _ || negb _); [exists w, []; split; [done|by apply packet_drop]|].
  destruct (decode payload) as [[[f|]|e] rest] eqn:Ed; try (exists w, []; split; [done|by apply packet_drop]).
  destruct (frame_command (rx_account w) f (decoded_bytes _ _ _ Hp Ed)) as [Hnew Hcancel].
  destruct (Z.eqb_spec (fr_type f) NEW_ORDER) as [E1|_].
  { destruct (Hnew E1) as (r & -> & Ht). cbn [ebind]. destruct (push_effect (map_ok Command_New r) w pu n Hq) as [new Hn].
    - intros c' cmd Hc. destruct r; simplify_eq/=. by eapply Ht.
    - by exists (push_decoded (map_ok Command_New r) w), new. }
  destruct (Z.eqb_spec (fr_type f) CANCEL_ORDER) as [E2|_]; [|exists w, []; split; [done|by apply packet_drop]].
  destruct (Hcancel E2) as (r & -> & Ht). cbn [ebind]. destruct (push_effect (map_ok Command_Cancel r) w pu n Hq) as [new Hn].
  - intros c' cmd Hc. destruct r; simplify_eq/=. by eapply Ht.
  - by exists (push_decoded (map_ok Command_Cancel r) w), new.
Qed.

(** The filter looks at the bytes before the frame: the positions 12, 23 and
    36 of [raw] lie 30, 19 and 6 bytes before the first byte of the packet. *)
Definition headroom_eq (m : Mbuf) (back : Z) (bs : list Z) : bool :=
  bool_decide (slice (Z.to_nat (data_off m - back)) (length bs) (buf m) = bs).

Lemma headroom_get m a bs :
  mbuf_ok m -> (a + length bs <= 42)%nat ->
  get_eq (slice (Z.to_nat (data_off m + - HEADER_SKIP)) (Z.to_nat (data_len m + HEADER_SKIP)) (buf m)) a bs
  = headroom_eq m (HEADER_SKIP - Z.of_nat a) bs.
Proof.
  intros [_ Hh Hl Hi] Ha. unfold get_eq, headroom_eq, slice, HEADER_SKIP in *.
  rewrite length_take, length_drop. rewrite (proj2 (Nat.leb_le _ _)) by lia. cbn [andb]. apply bool_decide_ext.
  replace (Z.to_nat (data_off m - (14 + 20 + 8 - Z.of_nat a))) with (Z.to_nat (data_off m + - (14 + 20 + 8)) + a)%nat by lia.
  rewrite skipn_firstn_comm, firstn_firstn, drop_drop. rewrite Nat.min_l by lia. done.
Qed.

Lemma handle_packet_filter m w :
  mbuf_ok m -> length (order_port_be w) = 2%nat -> HEADER_SKIP < data_len m ->
  headroom_eq m 30 [8; 0] && headroom_eq m 19 [17] && headroom_eq m 6 (order_port_be w) = false ->
  handle_packet m w = Val w.
Proof.
  intros Hm Hport Hlen Hf. assert (Hm' := Hm). destruct Hm' as [_ Hh Hl Hi]. unfold handle_packet.
  rewrite (proj2 (Z.leb_gt _ _) Hlen). rewrite !raw_parts_ok by (unfold HEADER_SKIP in *; lia). cbn [ebind].
  rewrite !headroom_get by (done || (rewrite ?Hport; simpl; lia)). change (HEADER_SKIP - Z.of_nat 12) with 30.
  change (HEADER_SKIP - Z.of_nat 23) with 19. change (HEADER_SKIP - Z.of_nat 36) with 6.
  destruct (headroom_eq m 30 _), (headroom_eq m 19 _), (headroom_eq m 6 _); try done.
Qed.

Lemma handle_burst_ok burst w pu n :
  Forall mbuf_ok burst -> fifo_hist (rx_producer w) pu n ->
  exists w' new, handle_burst burst w = Val (w', burst) /\ fifo_hist (rx_producer w') (pu ++ new) n
    /\ rx_account w' = rx_account w /\ Forall (typed_command (rx_account w)) new /\ (length new <= length burst)%nat.
Proof.
  intros Hb. revert w pu. induction Hb as [|m burst Hm _ IH]; intros w pu Hq.
  { exists w, []. rewrite app_nil_r. by split_and!. }
  destruct (handle_packet_ok m w pu n Hm Hq) as (w1 & new1 & Hrun & (Hq1 & Ha1 & _ & Ht1 & Hl1)).
  destruct (IH w1 _ Hq1) as (w2 & new2 & Hrun2 & Hq2 & Ha2 & Ht2 & Hl2). rewrite Ha1 in *.
  exists w2, (new1 ++ new2). cbn [handle_burst]. rewrite Hrun. cbn [ebind]. rewrite Hrun2. cbn [ebind].
  rewrite app_assoc, length_app. split_and!; try done; [by apply Forall_app|simpl; lia].
Qed.

Lemma rx_run_ok env i bursts w pu n :
  consumes env -> Forall (Forall mbuf_ok) bursts -> Forall burst_ok bursts -> fifo_hist (rx_producer w) pu n ->
  exists w' new n', rx_run env i bursts w = Val (w', concat bursts) /\ fifo_hist (rx_producer w') (pu ++ new) n'
    /\ Forall (typed_command (rx_account w)) new /\ (length new <= length (concat bursts))%nat.
Proof.
  intros Henv Hb Hl. revert i w pu n. induction Hb as [|b bursts Hb _ IH]; intros i w pu n Hq.
  { exists w, [], n. rewrite app_nil_r. by split_and!. }
  apply Forall_cons in Hl as [Hlb Hl]. destruct (Henv i _ _ _ Hq) as [k Hk].
  destruct (handle_burst_ok b (set_rx_producer (env i (rx_producer w)) w) pu (n + k) Hb Hk) as (w1 & new1 & Hrun & Hq1 & Ha1 & Ht1 & Hl1).
  destruct (IH Hl (S i) w1 _ _ Hq1) as (w2 & new2 & n2 & Hrun2 & Hq2 & Ht2 & Hl2). simpl in Ha1, Ht1. rewrite Ha1 in *.
  exists w2, (new1 ++ new2), n2. cbn [rx_run concat].
  rewrite (proj2 (Nat.ltb_ge _ _)) by exact Hlb. rewrite Hrun. cbn [ebind]. rewrite Hrun2. cbn [ebind].
  rewrite app_assoc, !length_app. split_and!; try done; [by apply Forall_app|lia].
Qed.

(** C39. The receive core is safe on every packet.  Whatever the bytes of the
    buffers and however the ring is drained, while a burst has at most the 32
    packets asked for and each frame lies inside its buffer with the headroom
    the filter reads, the loop never panics, frees
    every buffer it received exactly once and in order, and adds to the ring in
    all at most as many commands as there were packets, each a well-typed
    command of the worker's own account. *)
Theorem rx_run_safe env bursts w pu n :
  consumes env -> Forall (Forall mbuf_ok) bursts -> Forall burst_ok bursts -> fifo_hist (rx_producer w) pu n ->
  exists w' new n', rx_run env 0 bursts w = Val (w', concat bursts) /\ fifo_hist (rx_producer w') (pu ++ new) n'
    /\ Forall (typed_command (rx_account w)) new /\ (length new <= length (concat bursts))%nat.
Proof. apply rx_run_ok. Qed.

(** The filter never looks at the frame: a packet is dropped, whatever its own
    headers say, unless the bytes before it look like the headers of an order. *)
Theorem rx_filter_reads_headroom m w :
  mbuf_ok m -> length (order_port_be w) = 2%nat ->
  headroom_eq m 30 [8; 0] && headroom_eq m 19 [17] && headroom_eq m 6 (order_port_be w) = false ->
  handle_packet m w = Val w.
Proof.
  intros Hm Hp Hf. destruct (Z.leb_spec (data_len m) HEADER_SKIP) as [Hle|Hgt]; [|by apply handle_packet_filter].
  unfold handle_packet. by rewrite (proj2 (Z.leb_le _ _) Hle).
Qed.
End Rx.

(** ** eal.rs and mempool.rs *)

Inductive EalError := InitFailed (rc : Z).

(** [CString::new]: an error when the text holds a NUL byte. *)
Definition c_string (s : list Z) : option (list Z) := if existsb (Z.eqb 0) s then None else Some (s ++ [0]).

Fixpoint c_strings (args : list (list Z)) : Exec (list (list Z)) :=
  match args with
  | [] => Val []
  | a :: args => let! c := expect (c_string a) in let! cs := c_strings args in Val (c :: cs)
  end.

(** [rte_eal_init] is the argument [eal_init]. *)
Definition Eal_init (eal_init : list (list Z) -> Z) (args : list (list Z)) : Exec (Result unit EalError) :=
  let! argv := c_strings args in
  let rc := eal_init argv in
  Val (if rc <? 0 then Err (InitFailed rc) else Ok tt).

Inductive MempoolError := CreateFailed.

(** [pool_create] gives the address of the pool, 0 for null; it stands for
    [rte_pktmbuf_pool_create] on the socket of the calling core, without
    private data. *)
Definition MbufPool_new (pool_create : list Z -> Z -> Z -> Z -> Z) (name : list Z) (n_mbufs cache_size mbuf_data_room : Z) :
    Exec (Result Z MempoolError) :=
  let! c_name := expect (c_string name) in
  let ptr := pool_create c_name n_mbufs cache_size mbuf_data_room in
  Val (if ptr =? 0 then Err CreateFailed else Ok ptr).

(** ** port.rs *)

Inductive PortError := ConfigureFailed (rc : Z) | RxQueueFailed (rc : Z) | TxQueueFailed (rc : Z) | StartFailed (rc : Z).

Record PortConfig := mkPortConfig { port_id : Z; n_rx_queues : Z; n_tx_queues : Z; rx_ring_size : Z; tx_ring_size : Z }.

(** The calls to the device; the configuration is all zeroes, the queues are on
    the socket of the port and without a configuration of their own. *)
Inductive DevCall :=
| DevConfigure (port n_rx n_tx : Z)
| RxQueueSetup (port queue ring pool : Z)
| TxQueueSetup (port queue ring : Z)
| DevStart (port : Z).

Section Port.
(** The code each call returns. *)
Context (rc_of : DevCall -> Z).

(** The loop over the queues: the calls made, and the code of one that fails. *)
Fixpoint setup_queues (calls : list DevCall) : list DevCall * option Z :=
  match calls with
  | [] => ([], None)
  | c :: calls =>
      if negb (rc_of c =? 0) then ([c], Some (rc_of c))
      else let '(made, e) := setup_queues calls in (c :: made, e)
  end.

Definition rx_calls (cfg : PortConfig) (pool : Z) : list DevCall :=
  map (fun q => RxQueueSetup (port_id cfg) q (rx_ring_size cfg) pool) (seqZ 0 (n_rx_queues cfg)).
Definition tx_calls (cfg : PortConfig) : list DevCall :=
  map (fun q => TxQueueSetup (port_id cfg) q (tx_ring_size cfg)) (seqZ 0 (n_tx_queues cfg)).

(** The result and the calls made, in order. *)
Definition init_port (cfg : PortConfig) (pool : Z) : Result unit PortError * list DevCall :=
  let configure := DevConfigure (port_id cfg) (n_rx_queues cfg) (n_tx_queues cfg) in
  let rc := rc_of configure in
  if negb (rc =? 0) then (Err (ConfigureFailed rc), [configure])
  else
    match setup_queues (rx_calls cfg pool) with
    | (made, Some rc) => (Err (RxQueueFailed rc), configure :: made)
    | (made, None) =>
        match setup_queues (tx_calls cfg) with
        | (made', Some rc) => (Err (TxQueueFailed rc), configure :: made ++ made')
        | (made', None) =>
            let start := DevStart (port_id cfg) in
            let rc := rc_of start in
            if negb (rc =? 0) then (Err (StartFailed rc), configure :: made ++ made' ++ [start])
            else (Ok tt, configure :: made ++ made' ++ [start])
        end
    end.

(** The whole sequence, and the error of a failing call. *)
Definition bring_up (cfg : PortConfig) (pool : Z) : list DevCall :=
  DevConfigure (port_id cfg) (n_rx_queues cfg) (n_tx_queues cfg) :: rx_calls cfg pool ++ tx_calls cfg ++ [DevStart (port_id cfg)].
Definition error_of (c : DevCall) : PortError :=
  match c with
  | DevConfigure _ _ _ => ConfigureFailed (rc_of c)
  | RxQueueSetup _ _ _ _ => RxQueueFailed (rc_of c)
  | TxQueueSetup _ _ _ => TxQueueFailed (rc_of c)
  | DevStart _ => StartFailed (rc_of c)
  end.

(** The first failing call of a sequence, with the calls up to it. *)
Fixpoint run_calls (calls : list DevCall) : Result unit PortError * list DevCall :=
  match calls with
  | [] => (Ok tt, [])
  | c :: calls => if negb (rc_of c =? 0) then (Err (error_of c), [c]) else let '(r, made) := run_calls calls in (r, c :: made)
  end.

Lemma run_calls_queues mk (calls rest : list DevCall) :
  (forall c, c ∈ calls -> error_of c = mk (rc_of c)) ->
  run_calls (calls ++ rest) =
    match setup_queues calls with
    | (made, Some rc) => (Err (mk rc), made)
    | (made, None) => ((run_calls rest).1, made ++ (run_calls rest).2)
    end.
Proof.
  induction calls as [|c calls IH]; intros Hmk; simpl; [by destruct (run_calls rest)|].
  destruct (rc_of c =? 0); simpl; [|by rewrite Hmk by (by left)]. rewrite IH by (intros; apply Hmk; by right).
  destruct (setup_queues calls) as [made [rc|]]; done.
Qed.

(** The port comes up by exactly its sequence of calls: configuration, every
    receive queue, every transmit queue, start; the first call that fails ends
    it with its own error and code, and nothing is called after it. *)
Theorem init_port_sequence cfg pool : init_port cfg pool = run_calls (bring_up cfg pool).
Proof.
  unfold init_port, bring_up. cbn [run_calls]. destruct (negb _); [done|].
  rewrite (run_calls_queues RxQueueFailed) by (intros c (q & -> & _)%list_elem_of_fmap; done).
  destruct (setup_queues (rx_calls cfg pool)) as [made [rc|]]; [done|].
  rewrite (run_calls_queues TxQueueFailed) by (intros c (q & -> & _)%list_elem_of_fmap; done).
  destruct (setup_queues (tx_calls cfg)) as [made' [rc|]]; cbn [run_calls]; [done|]. destruct (negb _); done.
Qed.
End Port.

(** ** crates/matching-engine/src/affinity.rs *)

Definition cpu_set (cpu : Z) (bits : list Z) : list Z :=
  let idx := Z.to_nat (cpu / 64) in
  let bit := cpu mod 64 in
  match bits !! idx with Some b => <[idx := Z.lor b (Z.shiftl 1 bit)]> bits | None => bits end.

(** [setaffinity] is the system call with the mask; a code other than 0 is
    the last OS error. *)
Definition pin_to_core (setaffinity : list Z -> Z) (core_id : Z) : Result unit Z :=
  let rc := setaffinity (cpu_set core_id (replicate 16 0)) in
  if negb (rc =? 0) then Err rc else Ok tt.

(** Returns whether a warning was printed. *)
Definition setup_hot_thread (setaffinity : list Z -> Z) (core_id : option Z) : bool :=
  match core_id with
  | None => false
  | Some id => match pin_to_core setaffinity id with Ok _ => false | Err _ => true end
  end.

(** The bit of a CPU in a mask. *)
Definition cpu_in (bits : list Z) (cpu : Z) : bool :=
  match bits !! Z.to_nat (cpu / 64) with Some b => Z.testbit b (cpu mod 64) | None => false end.

(** The mask of [pin_to_core] holds the core asked for and no other; a core
    beyond the 1024 of the mask gives the empty mask. *)
Lemma cpu_set_exact core cpu :
  0 <= core -> 0 <= cpu -> cpu_in (cpu_set core (replicate 16 0)) cpu = (cpu =? core) && (core <? 1024).
Proof.
  intros Hc Hu. unfold cpu_set, cpu_in.
  assert (Hdc : core = 64 * (core / 64) + core mod 64) by (apply Z.div_mod; lia).
  assert (Hdu : cpu = 64 * (cpu / 64) + cpu mod 64) by (apply Z.div_mod; lia).
  pose proof (Z.mod_pos_bound core 64 ltac:(lia)). pose proof (Z.mod_pos_bound cpu 64 ltac:(lia)).
  pose proof (Z.div_pos core 64 ltac:(lia) ltac:(lia)). pose proof (Z.div_pos cpu 64 ltac:(lia) ltac:(lia)).
  assert (Hz : forall i b, replicate 16 0 !! i = Some b -> b = 0) by (intros i b Hb; by apply lookup_replicate in Hb as [-> _]).
  assert (Hout : replicate 16 0 !! Z.to_nat (core / 64) = None <-> 1024 <= core).
  { rewrite lookup_ge_None, length_replicate. lia. }
  destruct (replicate 16 0 !! Z.to_nat (core / 64)) as [b|] eqn:Eb.
  - assert (core < 1024) by (destruct (decide (1024 <= core)); [by apply Hout in l|lia]). rewrite (Hz _ _ Eb), Z.lor_0_l.
    rewrite (proj2 (Z.ltb_lt _ _)), andb_true_r by lia.
    destruct (decide (Z.to_nat (cpu / 64) = Z.to_nat (core / 64))) as [E|E].
    + rewrite E, list_lookup_insert_eq by (by eapply lookup_lt_Some). rewrite Z.shiftl_1_l, Z.pow2_bits_eqb by lia.
      destruct (Z.eqb_spec (core mod 64) (cpu mod 64)), (Z.eqb_spec cpu core); try done; lia.
    + rewrite list_lookup_insert_ne by done. destruct (Z.eqb_spec cpu core) as [-> |]; [done|].
      destruct (replicate 16 0 !! Z.to_nat (cpu / 64)) eqn:E2; [|done]. rewrite (Hz _ _ E2). apply Z.testbit_0_l.
  - rewrite (proj2 (Z.ltb_ge _ _)), andb_false_r by (by apply Hout).
    destruct (replicate 16 0 !! Z.to_nat (cpu / 64)) eqn:E2; [|done]. rewrite (Hz _ _ E2). apply Z.testbit_0_l.
Qed.

(** ** Witnesses *)

Module DpdkDemo.
#[local] Instance cap4_ok : CapOk 4 := Spsc.cap4.

(** The headers of an order for UDP port 7000, and the order of SessionDemo. *)
Definition headers : list Z :=
  replicate 12 0 ++ [8; 0] ++ replicate 9 0 ++ [17] ++ replicate 12 0 ++ [27; 88] ++ replicate 4 0.
Definition payload : list Z := frame_bytes (mkFrame 1 (new_order_payload SessionDemo.order)).
Definition worker : RxWorker := mkRx 42 (fifo_new : Spsc.Queue (T := InboundCommand)) [27; 88].

(** The frame with its headers, after a headroom of [before]. *)
Definition packet (before : list Z) : Mbuf :=
  mkMbuf (before ++ headers ++ payload) (Z.of_nat (length before)) (Z.of_nat (length (headers ++ payload))).
Definition queued (m : Mbuf) : option (option InboundCommand) :=
  match handle_packet m worker with
  | Val w => match fifo_pop (rx_producer w) with Val (c, _) => Some c | _ => None end
  | _ => None
  end.

(** A well-formed order behind an empty headroom is dropped; the same frame is
    taken when the headroom imitates the headers. *)
Lemma clean_headroom_dropped : queued (packet (replicate 128 0)) = Some None.
Proof. vm_compute. reflexivity. Qed.
Lemma forged_headroom_taken :
  queued (packet (replicate 86 0 ++ headers)) = Some (Some (Inbound_NewOrder 42 1 5 Buy (-10000) 3 Limit Gtc)).
Proof. vm_compute. reflexivity. Qed.

Definition demo_mbuf : Mbuf := packet (replicate 86 0 ++ headers).
Lemma demo_mbuf_ok : mbuf_ok demo_mbuf.
Proof. split; [apply CodecDemo.bytes_ok; vm_compute; reflexivity|vm_compute; congruence..]. Qed.

Lemma rx_run_safe_witness :
  exists w' new n', rx_run pop_one 0 [[demo_mbuf]; []; [demo_mbuf; demo_mbuf]] worker = Val (w', [demo_mbuf; demo_mbuf; demo_mbuf])
    /\ fifo_hist (rx_producer w') new n' /\ (length new <= 3)%nat.
Proof.
  destruct (rx_run_safe pop_one [[demo_mbuf]; []; [demo_mbuf; demo_mbuf]] worker [] 0 pop_one_consumes
    ltac:(repeat constructor; apply demo_mbuf_ok) ltac:(repeat constructor; vm_compute; lia) fifo_new_hist) as (w' & new & n' & H1 & H2 & _ & H3).
  exists w', new, n'. exact (conj H1 (conj H2 H3)).
Defined.

Lemma rx_filter_reads_headroom_witness : handle_packet (packet (replicate 128 0)) worker = Val worker.
Proof.
  apply rx_filter_reads_headroom; [|reflexivity|vm_compute; reflexivity].
  split; [apply CodecDemo.bytes_ok; vm_compute; reflexivity|vm_compute; congruence..].
Defined.
End DpdkDemo.
