(* ===== verification/Pmem.v ===== *)
(** * Pmem: the write-ahead log in persistent memory (crates/wal/src/pmem.rs)

    The log is mapped memory made durable by cache-line write-backs and a
    fence.  [PMem] keeps what the processor sees ([pm_vol]), what is certainly
    in the persistent medium ([pm_dur]) and the lines written back since the
    last fence.  A call is the sequence of its stores, write-backs and fences,
    and a crash may come between any two of them: each byte found afterwards
    is the one last made durable or the one last stored, since the cache may
    have written a line back early ([crash_image]).  [base] is the address the
    file is mapped at.  CRC-32 and bincode are those of Wal.v. *)

From S2P Require Import Prelude CoreTypes Bytes Snapshot Engine Wal.
#[local] Open Scope Z_scope.

Module Pmem.

Definition VERSION : Z := 1.
Definition RECORD_HEADER_SIZE : nat := 24.
Definition CACHE_LINE_SIZE : Z := 64.

Inductive PmemError := PE_Wal (e : WalError) | PE_UnsupportedCpu.

Inductive CacheFlush := Clwb | Clflushopt | Clflush.

(** [ebx] is register EBX of CPUID leaf 7. *)
Definition detect (ebx : Z) : CacheFlush :=
  if negb (Z.land ebx (Z.shiftl 1 24) =? 0) then Clwb
  else if negb (Z.land ebx (Z.shiftl 1 23) =? 0) then Clflushopt
  else Clflush.

(** ** Persistent memory *)

Record PMem := mkPMem { pm_vol : list Z; pm_dur : list Z; pm_pending : gset Z }.

(** [addr & !(CACHE_LINE_SIZE - 1)]. *)
Definition line_of (addr : Z) : Z := Z.land addr (Z.lnot (CACHE_LINE_SIZE - 1)).

Inductive PmemOp :=
| Store (off : nat) (bs : list Z)
| FlushLine (kind : CacheFlush) (addr : Z)
| Sfence.

(** The lines of a store. *)
Definition lines_of (base : Z) (off len : nat) : gset Z :=
  list_to_set (map (fun i => line_of (base + Z.of_nat i)) (seq off len)).

Section Mem.
Context (base : Z).

Definition fence_byte (pending : gset Z) (vol dur : list Z) (i : nat) : Z :=
  if bool_decide (line_of (base + Z.of_nat i) ∈ pending)
  then default 0 (vol !! i) else default 0 (dur !! i).

(** A store after a write-back of its line is not covered by it.  The three
    instructions write a line back alike. *)
Definition exec_op (m : PMem) (op : PmemOp) : PMem :=
  match op with
  | Store off bs =>
      mkPMem (splice off bs (pm_vol m)) (pm_dur m) (pm_pending m ∖ lines_of base off (length bs))
  | FlushLine _ addr => mkPMem (pm_vol m) (pm_dur m) ({[line_of addr]} ∪ pm_pending m)
  | Sfence =>
      mkPMem (pm_vol m)
        (map (fence_byte (pm_pending m) (pm_vol m) (pm_dur m)) (seq 0 (length (pm_vol m)))) ∅
  end.

Definition exec_ops (m : PMem) (ops : list PmemOp) : PMem := fold_left exec_op ops m.

Definition crash_image (m : PMem) (d : list Z) : Prop :=
  length d = length (pm_vol m) /\
  forall i x, d !! i = Some x -> pm_vol m !! i = Some x \/ pm_dur m !! i = Some x.

(** ** Flushing a range *)

(** [while addr < end { flush(addr); addr += 64 }]. *)
Fixpoint flush_from (fuel : nat) (kind : CacheFlush) (addr end_ : Z) : Exec (list PmemOp) :=
  match fuel with
  | O => OutOfFuel
  | S fuel' =>
      if addr <? end_ then
        let! rest := flush_from fuel' kind (addr + CACHE_LINE_SIZE) end_ in
        Val (FlushLine kind addr :: rest)
      else Val []
  end.

Definition flush_range (kind : CacheFlush) (ptr len : Z) : Exec (list PmemOp) :=
  flush_from (S (S (Z.to_nat len))) kind (line_of ptr) (ptr + len).

(** ** The writer *)

Record PmemWalWriter := mkPmemWriter {
  p_mem : PMem;
  p_cursor : nat;
  p_last_seq : Z;
  p_flush_kind : CacheFlush
}.

Context `{C : WalCodec}.

Definition pmem_record_bytes (seq ts_ns : Z) (payload : list Z) : list Z :=
  le_bytes 8 seq ++ le_bytes 8 ts_ns ++ le_bytes 4 (Z.of_nat (length payload))
    ++ le_bytes 4 (crc32 payload) ++ payload
    ++ replicate (align8 (RECORD_HEADER_SIZE + length payload) - (RECORD_HEADER_SIZE + length payload)) 0.

(** The stores of [append] in order, then the write-backs and the fence. *)
Definition append_ops (kind : CacheFlush) (offset : nat) (seq ts_ns : Z) (payload : list Z) : Exec (list PmemOp) :=
  let n := length payload in
  let record_size := align8 (RECORD_HEADER_SIZE + n) in
  let! flushes := flush_range kind (base + Z.of_nat offset) (Z.of_nat record_size) in
  Val ([Store offset (le_bytes 8 seq); Store (offset + 8) (le_bytes 8 ts_ns);
        Store (offset + 16) (le_bytes 4 (Z.of_nat n)); Store (offset + 20) (le_bytes 4 (crc32 payload));
        Store (offset + RECORD_HEADER_SIZE) payload;
        Store (offset + RECORD_HEADER_SIZE + n) (replicate (record_size - (RECORD_HEADER_SIZE + n)) 0)]
       ++ flushes ++ [Sfence]).

Definition pmem_append (sc : SequencedCommand) (w : PmemWalWriter) : Exec (Result nat PmemError * PmemWalWriter) :=
  match serialise_command (sc_cmd sc) with
  | Err e => Val (Err (PE_Wal e), w)
  | Ok payload =>
      let record_size := align8 (RECORD_HEADER_SIZE + length payload) in
      let end_ := (p_cursor w + record_size)%nat in
      let cap := length (pm_vol (p_mem w)) in
      if (cap <? end_)%nat then Val (Err (PE_Wal (CapacityExhausted cap end_)), w)
      else
        let offset := p_cursor w in
        let! ops := append_ops (p_flush_kind w) offset (sc_seq sc) (sc_ts_ns sc) payload in
        Val (Ok offset, mkPmemWriter (exec_ops (p_mem w) ops) end_ (sc_seq sc) (p_flush_kind w))
  end.

Definition pmem_flush (w : PmemWalWriter) : Result unit PmemError := Ok tt.

(** One turn of the loop of [scan_to_end]: the sequence number of an intact
    record and where the next one starts. *)
Definition pmem_record_at (data : list Z) (cursor : nat) : option (Z * nat) :=
  if (length data <? cursor + RECORD_HEADER_SIZE)%nat then None
  else
    let seq := le_at cursor 8 data in
    if seq =? 0 then None
    else
      let len := Z.to_nat (le_at (cursor + 16) 4 data) in
      let stored_crc := le_at (cursor + 20) 4 data in
      let payload_start := (cursor + RECORD_HEADER_SIZE)%nat in
      let payload_end := (payload_start + len)%nat in
      if (length data <? payload_end)%nat then None
      else if negb (crc32 (slice payload_start len data) =? stored_crc) then None
      else Some (seq, align8 payload_end).

Fixpoint pmem_scan_from (fuel : nat) (data : list Z) (cursor : nat) (last_seq : Z) : Exec (nat * Z) :=
  match fuel with
  | O => OutOfFuel
  | S fuel' =>
      match pmem_record_at data cursor with
      | Some (seq, next) => pmem_scan_from fuel' data next seq
      | None => Val (cursor, last_seq)
      end
  end.

Definition pmem_scan_to_end (data : list Z) : Exec (nat * Z) :=
  pmem_scan_from (scan_fuel data) data FILE_HEADER_SIZE 0.

Definition header_ops (kind : CacheFlush) : Exec (list PmemOp) :=
  let! flushes := flush_range kind base (Z.of_nat FILE_HEADER_SIZE) in
  Val ([Store 0 MAGIC; Store 8 (le_bytes 4 VERSION); Store 12 (replicate 20 0)] ++ flushes ++ [Sfence]).

(** [open] on a file with the bytes [file], which are durable.  The slices of
    the header panic on a map that is too short. *)
Definition pmem_open (ebx : Z) (file : list Z) (cfg : WalWriterConfig) : Exec (Result PmemWalWriter PmemError) :=
  let flush_kind := detect ebx in
  let bytes := set_len (file_capacity cfg) file in
  let m := mkPMem bytes bytes ∅ in
  if (length bytes <? 8)%nat then Panic
  else if negb (bool_decide (slice 0 8 bytes = MAGIC)) then
    if (length bytes <? FILE_HEADER_SIZE)%nat then Panic
    else
      let! ops := header_ops flush_kind in
      Val (Ok (mkPmemWriter (exec_ops m ops) FILE_HEADER_SIZE 0 flush_kind))
  else
    let! '(cursor, last_seq) := pmem_scan_to_end bytes in
    Val (Ok (mkPmemWriter m cursor last_seq flush_kind)).

(** ** Lines *)

Lemma line_of_eq a : line_of a = a / 64 * 64.
Proof.
  unfold line_of, CACHE_LINE_SIZE. change (64 - 1) with (Z.ones 6). rewrite <- Z.ldiff_land, Z.ldiff_ones_r by lia.
  by rewrite Z.shiftr_div_pow2, Z.shiftl_mul_pow2 by lia.
Qed.

Definition is_flush (op : PmemOp) : Prop := match op with FlushLine _ _ => True | _ => False end.

(** The write-backs of a range terminate and reach the line of every byte. *)
Lemma flush_from_spec fuel kind addr end_ :
  addr mod 64 = 0 -> end_ - addr <= 64 * (Z.of_nat fuel - 1) -> (0 < fuel)%nat ->
  exists ops, flush_from fuel kind addr end_ = Val ops /\ Forall is_flush ops
    /\ forall a, addr <= a < end_ -> FlushLine kind (line_of a) ∈ ops.
Proof.
  revert addr. induction fuel as [|fuel IH]; intros addr Ha Hf H0; [lia|]. cbn [flush_from].
  destruct (Z.ltb_spec addr end_) as [Hlt|Hge]; cycle 1.
  { exists []. split_and!; [done|constructor|lia]. }
  assert (Hm : (addr + 64) mod 64 = 0) by (rewrite <- (Z.mul_1_l 64) at 1; by rewrite Z.mod_add).
  unfold CACHE_LINE_SIZE. destruct (IH (addr + 64) Hm ltac:(lia) ltac:(lia)) as (ops & -> & Hops & Hcov).
  exists (FlushLine kind addr :: ops). split_and!; [done|by constructor|].
  intros a Hr. destruct (Z.lt_ge_cases a (addr + 64)) as [Hl|Hg]; [|right; apply Hcov; lia].
  replace (line_of a) with addr; [left|]. rewrite line_of_eq. pose proof (Z.div_mod addr 64 ltac:(lia)).
  assert (a / 64 = addr / 64); [|lia]. symmetry. apply (Z.div_unique a 64 _ (a - addr)); lia.
Qed.

Lemma flush_range_spec kind ptr len :
  0 <= len ->
  exists ops, flush_range kind ptr len = Val ops /\ Forall is_flush ops
    /\ forall a, ptr <= a < ptr + len -> FlushLine kind (line_of a) ∈ ops.
Proof.
  intros Hl. unfold flush_range. rewrite line_of_eq. pose proof (Z.div_mod ptr 64 ltac:(lia)) as Hd.
  pose proof (Z.mod_pos_bound ptr 64 ltac:(lia)).
  destruct (flush_from_spec (S (S (Z.to_nat len))) kind (ptr / 64 * 64) (ptr + len)) as (ops & Hf & Hops & Hc);
    [by rewrite Z.mod_mul|lia|lia|]. exists ops. split_and!; [done|done|]. intros a Ha. apply Hc. lia.
Qed.

(** ** Memory *)

Definition mem_ok (m : PMem) : Prop := length (pm_dur m) = length (pm_vol m).

(** What is below [lo] is durable. *)
Definition durable_below (lo : nat) (m : PMem) : Prop := take lo (pm_dur m) = take lo (pm_vol m).

Definition op_above (lo : nat) (m : PMem) (op : PmemOp) : Prop :=
  match op with Store off bs => (lo <= off /\ off + length bs <= length (pm_vol m))%nat | _ => True end.

Lemma fence_lookup m i :
  mem_ok m ->
  pm_dur (exec_op m Sfence) !! i =
    if decide (line_of (base + Z.of_nat i) ∈ pm_pending m) then pm_vol m !! i else pm_dur m !! i.
Proof.
  intros Hok. cbn [exec_op pm_dur]. rewrite list_lookup_fmap.
  destruct (decide (i < length (pm_vol m))%nat) as [Hi|Hi].
  - rewrite lookup_seq_lt by done. cbn. unfold fence_byte. case_bool_decide; [rewrite decide_True by done|rewrite decide_False by done].
    + destruct (lookup_lt_is_Some_2 (pm_vol m) i Hi) as [x ->]. done.
    + destruct (lookup_lt_is_Some_2 (pm_dur m) i ltac:(rewrite Hok; lia)) as [x ->]. done.
  - rewrite lookup_seq_ge by lia. cbn. unfold mem_ok in Hok. case_decide; symmetry; apply lookup_ge_None; lia.
Qed.

Lemma take_eq_lookup (l1 l2 : list Z) n :
  length l1 = length l2 -> (take n l1 = take n l2 <-> forall i, (i < n)%nat -> l1 !! i = l2 !! i).
Proof.
  intros Hl. split.
  - intros Ht i Hi. by rewrite <- (lookup_take_lt l1 n i), <- (lookup_take_lt l2 n i), Ht by done.
  - intros H. apply list_eq. intros i. destruct (decide (i < n)%nat).
    + rewrite !lookup_take_lt by done. by apply H.
    + by rewrite !lookup_take_ge by lia.
Qed.

(** An operation above [lo] keeps what is below it, stored and durable. *)
Lemma exec_op_above lo m op :
  mem_ok m -> durable_below lo m -> op_above lo m op -> (lo <= length (pm_vol m))%nat ->
  mem_ok (exec_op m op) /\ durable_below lo (exec_op m op)
  /\ take lo (pm_vol (exec_op m op)) = take lo (pm_vol m) /\ length (pm_vol (exec_op m op)) = length (pm_vol m).
Proof.
  intros Hok Hd Ha Hlo. destruct op as [off bs|k a|]; cbn [op_above] in Ha.
  - cbn [exec_op]. unfold mem_ok, durable_below in *. cbn [pm_vol pm_dur] in *.
    rewrite length_splice by lia. assert (Ht : take lo (splice off bs (pm_vol m)) = take lo (pm_vol m)).
    { unfold splice. rewrite take_app_le, take_take by (rewrite length_take; lia). f_equal. lia. }
    rewrite Ht. done.
  - done.
  - split_and!; [|..|done|done].
    + unfold mem_ok. cbn. by rewrite length_map, length_seq.
    + unfold durable_below in *. change (pm_vol (exec_op m Sfence)) with (pm_vol m).
      rewrite take_eq_lookup in Hd |- * by (done || (cbn; by rewrite length_map, length_seq)).
      intros i Hi. rewrite fence_lookup by done. case_decide; [done|by apply Hd].
Qed.

Lemma exec_ops_above lo ops m :
  mem_ok m -> durable_below lo m -> Forall (op_above lo m) ops -> (lo <= length (pm_vol m))%nat ->
  mem_ok (exec_ops m ops) /\ durable_below lo (exec_ops m ops)
  /\ take lo (pm_vol (exec_ops m ops)) = take lo (pm_vol m)
  /\ length (pm_vol (exec_ops m ops)) = length (pm_vol m).
Proof.
  revert m. induction ops as [|op ops IH]; intros m Hok Hd Ha Hlo; [done|].
  apply Forall_cons in Ha as [Hop Ha]. destruct (exec_op_above lo m op Hok Hd Hop Hlo) as (H1 & H2 & H3 & H4).
  cbn [exec_ops fold_left]. destruct (IH (exec_op m op) H1 H2) as (G1 & G2 & G3 & G4).
  - eapply Forall_impl; [exact Ha|]. intros o. destruct o; [|done..]. cbn [op_above]. by rewrite H4.
  - by rewrite H4.
  - unfold exec_ops in *. split_and!; congruence.
Qed.

(** Whatever a crash leaves, what is below [lo] is intact. *)
Lemma crash_below lo m d :
  mem_ok m -> durable_below lo m -> crash_image m d -> take lo d = take lo (pm_vol m).
Proof.
  intros Hok Hd [Hl Hc]. unfold durable_below in Hd. rewrite take_eq_lookup in Hd |- * by done. intros i Hi.
  destruct (d !! i) as [x|] eqn:Hx.
  - destruct (Hc i x Hx) as [H|H]; [done|]. by rewrite <- H, Hd.
  - symmetry. apply lookup_ge_None. apply lookup_ge_None in Hx. lia.
Qed.

(** Stores, then write-backs of their whole range, then the fence. *)
Lemma exec_flushes m ops :
  Forall is_flush ops ->
  pm_vol (exec_ops m ops) = pm_vol m /\ pm_dur (exec_ops m ops) = pm_dur m
  /\ forall k a, FlushLine k a ∈ ops -> line_of a ∈ pm_pending (exec_ops m ops).
Proof.
  intros Hf. cut (pm_vol (exec_ops m ops) = pm_vol m /\ pm_dur (exec_ops m ops) = pm_dur m
    /\ pm_pending m ⊆ pm_pending (exec_ops m ops)
    /\ forall k a, FlushLine k a ∈ ops -> line_of a ∈ pm_pending (exec_ops m ops)); [naive_solver|].
  revert m. induction Hf as [|op ops Hop _ IH]; intros m; [split_and!; [done..|set_solver]|].
  destruct op as [|k a|]; try done. cbn [exec_ops fold_left].
  destruct (IH (exec_op m (FlushLine k a))) as (H1 & H2 & H3 & H4). unfold exec_ops in *. cbn in H1, H2, H3.
  split_and!; [done|done|set_solver|]. intros k' a' [[= -> ->]|Hin]%elem_of_cons; [set_solver|by eapply H4].
Qed.

Lemma line_of_idem a : line_of (line_of a) = line_of a.
Proof. rewrite !line_of_eq. by rewrite Z.div_mul by lia. Qed.

Lemma exec_ops_app m ops1 ops2 : exec_ops m (ops1 ++ ops2) = exec_ops (exec_ops m ops1) ops2.
Proof. apply fold_left_app. Qed.

Definition is_store (op : PmemOp) : Prop := match op with Store _ _ => True | _ => False end.

Lemma exec_stores_dur m ops : Forall is_store ops -> pm_dur (exec_ops m ops) = pm_dur m.
Proof.
  intros Hs. revert m. induction Hs as [|op ops Hop _ IH]; intros m; [done|]. destruct op; [|done..].
  cbn [exec_ops fold_left]. unfold exec_ops in IH. by rewrite IH.
Qed.

(** After the fence, what was durable below [lo] and everything stored in the
    flushed range from [lo] is durable. *)
Lemma persist_range m stores kind lo len flushes :
  mem_ok m -> durable_below lo m -> (lo + len <= length (pm_vol m))%nat ->
  Forall is_store stores -> Forall (op_above lo m) stores ->
  flush_range kind (base + Z.of_nat lo) (Z.of_nat len) = Val flushes ->
  let m' := exec_ops m (stores ++ flushes ++ [Sfence]) in
  mem_ok m' /\ pm_vol m' = pm_vol (exec_ops m stores) /\ durable_below (lo + len) m'
  /\ forall i, (lo + len <= i)%nat -> pm_dur m' !! i = pm_vol m' !! i \/ pm_dur m' !! i = pm_dur m !! i.
Proof.
  intros Hok Hd Hfit Hst Hab Hfl. cbv zeta. rewrite !exec_ops_app.
  destruct (exec_ops_above lo stores m Hok Hd Hab ltac:(lia)) as (Hok1 & Hd1 & _ & Hlen1).
  set (m1 := exec_ops m stores) in *.
  destruct (flush_range_spec kind (base + Z.of_nat lo) (Z.of_nat len) ltac:(lia)) as (fl & Heq & Hfs & Hcov).
  rewrite Heq in Hfl. injection Hfl as ->.
  destruct (exec_flushes m1 flushes Hfs) as (Hv2 & Hdu2 & Hp2). set (m2 := exec_ops m1 flushes) in *.
  change (exec_ops m2 [Sfence]) with (exec_op m2 Sfence).
  assert (Hok2 : mem_ok m2) by (unfold mem_ok in *; congruence).
  change (pm_vol (exec_op m2 Sfence)) with (pm_vol m2). split_and!.
  - unfold mem_ok. cbn. by rewrite length_map, length_seq.
  - done.
  - unfold durable_below in *. change (pm_vol (exec_op m2 Sfence)) with (pm_vol m2).
    rewrite take_eq_lookup in Hd1 |- * by (done || (cbn; by rewrite length_map, length_seq)).
    intros i Hi. rewrite fence_lookup by done. case_decide as Hin; [done|].
    destruct (decide (i < lo)%nat); [rewrite Hv2, Hdu2; by apply Hd1|]. destruct Hin.
    rewrite <- line_of_idem. eapply Hp2, Hcov. lia.
  - intros i Hi. rewrite fence_lookup by done. case_decide; [by left|right].
    rewrite Hdu2. subst m1. by rewrite exec_stores_dur.
Qed.

(** ** The bytes of a record *)

Lemma splice_splice off (a b data : list Z) :
  (off + length a + length b <= length data)%nat ->
  splice (off + length a) b (splice off a data) = splice off (a ++ b) data.
Proof.
  intros Hl. unfold splice. set (t := take off data).
  assert (Ht : length t = off) by (unfold t; rewrite length_take; lia).
  assert (Hta : length (t ++ a) = (off + length a)%nat) by (rewrite length_app; lia).
  rewrite (app_assoc t a (drop _ data)), take_app_length' by done.
  rewrite drop_app_ge by lia. rewrite drop_drop, Hta, <- !app_assoc, length_app. do 4 f_equal. lia.
Qed.

Lemma length_pmem_record seq ts payload :
  length (pmem_record_bytes seq ts payload) = align8 (RECORD_HEADER_SIZE + length payload).
Proof.
  unfold pmem_record_bytes. rewrite !length_app, !length_le_bytes, length_replicate.
  pose proof (align8_ge (RECORD_HEADER_SIZE + length payload)). unfold RECORD_HEADER_SIZE in *. lia.
Qed.

(** The stores of [append] write the record's bytes and nothing else. *)
Definition append_stores (offset : nat) (seq ts_ns : Z) (payload : list Z) : list PmemOp :=
  let n := length payload in
  [Store offset (le_bytes 8 seq); Store (offset + 8) (le_bytes 8 ts_ns);
   Store (offset + 16) (le_bytes 4 (Z.of_nat n)); Store (offset + 20) (le_bytes 4 (crc32 payload));
   Store (offset + RECORD_HEADER_SIZE) payload;
   Store (offset + RECORD_HEADER_SIZE + n)
     (replicate (align8 (RECORD_HEADER_SIZE + n) - (RECORD_HEADER_SIZE + n)) 0)].

Lemma append_stores_vol m offset seq ts payload :
  (offset + align8 (RECORD_HEADER_SIZE + length payload) <= length (pm_vol m))%nat ->
  pm_vol (exec_ops m (append_stores offset seq ts payload))
  = splice offset (pmem_record_bytes seq ts payload) (pm_vol m).
Proof.
  intros Hf. pose proof (align8_ge (RECORD_HEADER_SIZE + length payload)) as Ha.
  unfold append_stores. cbn [exec_ops fold_left exec_op pm_vol]. set (d := pm_vol m) in *.
  assert (Hs : forall o a b, o = (offset + length a)%nat ->
    (offset + length a + length b <= length d)%nat -> splice o b (splice offset a d) = splice offset (a ++ b) d)
    by (intros o a b ->; apply splice_splice).
  unfold pmem_record_bytes, RECORD_HEADER_SIZE in *.
  rewrite !Hs by (rewrite ?length_app, ?length_le_bytes, ?length_replicate; lia).
  by rewrite <- !app_assoc.
Qed.

Lemma append_stores_above m offset seq ts payload :
  (offset + align8 (RECORD_HEADER_SIZE + length payload) <= length (pm_vol m))%nat ->
  Forall (op_above offset m) (append_stores offset seq ts payload).
Proof.
  intros Hf. pose proof (align8_ge (RECORD_HEADER_SIZE + length payload)) as Ha.
  unfold append_stores, RECORD_HEADER_SIZE in *.
  repeat (apply Forall_cons; split; [cbn [op_above]; rewrite ?length_le_bytes, ?length_replicate; lia|]).
  constructor.
Qed.

(** ** The format as a list of records *)

Record PRec := mkPRec { pr_seq : Z; pr_ts_ns : Z; pr_payload : list Z }.

Definition prec_bytes (r : PRec) : list Z := pmem_record_bytes (pr_seq r) (pr_ts_ns r) (pr_payload r).
Definition precs_bytes (rs : list PRec) : list Z := concat (map prec_bytes rs).
Definition pmem_header : list Z := MAGIC ++ le_bytes 4 VERSION ++ replicate 20 0.

Record prec_ok (r : PRec) : Prop := {
  pro_seq : in_u64 (pr_seq r);
  pro_seq0 : pr_seq r <> 0;
  pro_ts : in_u64 (pr_ts_ns r);
  pro_len : Z.of_nat (length (pr_payload r)) < two32
}.

#[local] Arguments prec_bytes : simpl never.
#[local] Arguments pmem_record_bytes : simpl never.

Definition aligned (n : nat) : Prop := exists k, n = (8 * k)%nat.

Lemma align8_aligned n m : aligned n -> align8 (n + m) = (n + align8 m)%nat.
Proof.
  intros [k ->]. rewrite !align8_eq. replace (8 * k + m + 7)%nat with (k * 8 + (m + 7))%nat by lia.
  rewrite Nat.div_add_l by lia. lia.
Qed.

Lemma aligned_align8 n : aligned (align8 n).
Proof. rewrite align8_eq. exists ((n + 7) / 8)%nat. lia. Qed.

Lemma aligned_add n m : aligned n -> aligned m -> aligned (n + m).
Proof. intros [a ->] [b ->]. exists (a + b)%nat. lia. Qed.

Lemma aligned_precs rs : aligned (length (precs_bytes rs)).
Proof.
  induction rs as [|r rs IH]; [by exists 0%nat|]. unfold precs_bytes in *. cbn [map concat].
  rewrite length_app. unfold prec_bytes at 1. rewrite length_pmem_record. apply aligned_add; [apply aligned_align8|done].
Qed.

Lemma pmem_record_at_mid `{!WalCodecLaws C} pre r post :
  aligned (length pre) -> prec_ok r ->
  pmem_record_at (pre ++ prec_bytes r ++ post) (length pre) = Some (pr_seq r, length (pre ++ prec_bytes r)).
Proof.
  intros Hal [Hs Hs0 Hts Hl]. destruct r as [seq ts payload]. unfold prec_bytes. cbn [pr_seq pr_ts_ns pr_payload] in *.
  pose proof (align8_ge (RECORD_HEADER_SIZE + length payload)) as Ha. pose proof (crc32_u32 payload) as Hc.
  unfold pmem_record_at. rewrite !length_app, length_pmem_record, <- !(Nat.add_assoc (length pre)).
  rewrite (align8_aligned _ _ Hal), slice_app_r, !le_at_app_r, le_at_app_0.
  unfold RECORD_HEADER_SIZE in *. rewrite (proj2 (Nat.ltb_ge _ _)) by lia.
  unfold pmem_record_bytes. rewrite <- !app_assoc. skip_fields.
  unfold in_u64, in_u32, two64, two32 in *.
  rewrite !le_at_here by (simpl Z.of_nat; lia). rewrite (proj2 (Z.eqb_neq _ _)) by done.
  rewrite Nat2Z.id, (proj2 (Nat.ltb_ge _ _)) by lia.
  rewrite slice_here by done. by rewrite Z.eqb_refl.
Qed.

Lemma pmem_scan_records `{!WalCodecLaws C} rs fuel pre post ls :
  aligned (length pre) -> Forall prec_ok rs ->
  pmem_scan_from (length rs + fuel) (pre ++ precs_bytes rs ++ post) (length pre) ls
  = pmem_scan_from fuel (pre ++ precs_bytes rs ++ post) (length (pre ++ precs_bytes rs)) (foldl (fun _ => pr_seq) ls rs).
Proof.
  intros Hal Hrs. revert pre ls Hal. induction Hrs as [|r rs Hr _ IH]; intros pre ls Hal; [by rewrite app_nil_r|].
  change (precs_bytes (r :: rs)) with (prec_bytes r ++ precs_bytes rs). rewrite <- !app_assoc.
  cbn [length Nat.add pmem_scan_from foldl]. rewrite pmem_record_at_mid by done. rewrite (app_assoc pre).
  rewrite IH by (rewrite length_app; apply aligned_add; [done|unfold prec_bytes; rewrite length_pmem_record; apply aligned_align8]).
  by rewrite !app_assoc.
Qed.

(** The scan ends on every file and never moves back. *)
Lemma pmem_scan_total fuel data off ls :
  (length data - off < fuel)%nat ->
  exists c l, pmem_scan_from fuel data off ls = Val (c, l) /\ (off <= c)%nat.
Proof.
  revert off ls. induction fuel as [|fuel IH]; intros off ls Hf; [lia|]. cbn [pmem_scan_from].
  destruct (pmem_record_at data off) as [[seq next]|] eqn:Hr; [|by exists off, ls].
  assert (Hn : (off < next /\ off < length data)%nat).
  { unfold pmem_record_at in Hr. destruct (Nat.ltb_spec (length data) (off + RECORD_HEADER_SIZE)) as [|Hle]; [done|].
    destruct (_ =? 0); [done|]. destruct (_ <? _)%nat; [done|]. destruct (negb _); [done|].
    injection Hr as _ <-. pose proof (align8_ge (off + RECORD_HEADER_SIZE + Z.to_nat (le_at (off + 16) 4 data))).
    unfold RECORD_HEADER_SIZE in *. lia. }
  destruct (IH next seq ltac:(lia)) as (c & l & Hs & Hc). exists c, l. split; [done|lia].
Qed.

(** ** A writer's life *)

Definition zero_from (n : nat) (l : list Z) : Prop := forall i x, (n <= i)%nat -> l !! i = Some x -> x = 0.

Record pmem_inv (w : PmemWalWriter) (rs : list PRec) : Prop := {
  pi_ok : mem_ok (p_mem w);
  pi_vol : take (p_cursor w) (pm_vol (p_mem w)) = pmem_header ++ precs_bytes rs;
  pi_cursor : p_cursor w = length (pmem_header ++ precs_bytes rs);
  pi_fits : (p_cursor w <= length (pm_vol (p_mem w)))%nat;
  pi_dur : durable_below (p_cursor w) (p_mem w);
  pi_clean : zero_from (p_cursor w) (pm_vol (p_mem w)) /\ zero_from (p_cursor w) (pm_dur (p_mem w));
  pi_last : p_last_seq w = foldl (fun _ => pr_seq) 0 rs;
  pi_recs : Forall prec_ok rs
}.

Lemma splice_lookup_ge off bs (l : list Z) i :
  (off + length bs <= length l)%nat -> (off + length bs <= i)%nat -> splice off bs l !! i = l !! i.
Proof.
  intros Hl Hi. unfold splice. rewrite !lookup_app_r by (rewrite ?length_take; lia).
  rewrite lookup_drop, length_take. f_equal. lia.
Qed.

(** Stores of [bs] at the cursor, write-backs and the fence commit [bs]. *)
Lemma commit_bytes m kind lo bs stores flushes pre :
  mem_ok m -> take lo (pm_vol m) = pre -> lo = length pre -> durable_below lo m ->
  zero_from lo (pm_vol m) -> zero_from lo (pm_dur m) ->
  (lo + length bs <= length (pm_vol m))%nat -> Forall is_store stores -> Forall (op_above lo m) stores ->
  pm_vol (exec_ops m stores) = splice lo bs (pm_vol m) ->
  flush_range kind (base + Z.of_nat lo) (Z.of_nat (length bs)) = Val flushes ->
  let m' := exec_ops m (stores ++ flushes ++ [Sfence]) in
  mem_ok m' /\ take (lo + length bs) (pm_vol m') = pre ++ bs /\ length (pm_vol m') = length (pm_vol m)
  /\ durable_below (lo + length bs) m'
  /\ zero_from (lo + length bs) (pm_vol m') /\ zero_from (lo + length bs) (pm_dur m').
Proof.
  intros Hok Hpre Hlo Hd Hzv Hzd Hfit Hst Hab Hvol Hfl m'.
  destruct (persist_range m stores kind lo (length bs) flushes Hok Hd Hfit Hst Hab Hfl) as (H1 & H2 & H3 & H4).
  fold m' in H1, H2, H3, H4. rewrite Hvol in H2.
  assert (Hzv' : zero_from (lo + length bs) (pm_vol m')).
  { intros i x Hi. rewrite H2, splice_lookup_ge by lia. apply Hzv. lia. }
  split_and!; [done| |by rewrite H2, length_splice by lia|done|done|].
  - rewrite H2. unfold splice. rewrite Hpre, app_assoc. apply take_app_length'. rewrite length_app. lia.
  - intros i x Hi Hx. destruct (H4 i Hi) as [H|H]; rewrite H in Hx; [by eapply Hzv'|]. eapply Hzd; [|exact Hx]. lia.
Qed.

Lemma length_pmem_header : length pmem_header = FILE_HEADER_SIZE.
Proof. reflexivity. Qed.

Definition new_ok (cfg : WalWriterConfig) : Prop := (FILE_HEADER_SIZE <= file_capacity cfg)%nat.

(** A new file starts an empty log. *)
Lemma pmem_open_new ebx cfg :
  new_ok cfg ->
  exists w, pmem_open ebx [] cfg = Val (Ok w) /\ pmem_inv w [] /\ length (pm_vol (p_mem w)) = file_capacity cfg.
Proof.
  intros Hcap. unfold pmem_open. set (bytes := set_len (file_capacity cfg) []).
  assert (Hb : bytes = replicate (file_capacity cfg) 0).
  { unfold bytes, set_len. by rewrite take_nil, Nat.sub_0_r. }
  assert (Hl : length bytes = file_capacity cfg) by apply length_set_len.
  unfold new_ok, FILE_HEADER_SIZE in *.
  rewrite (proj2 (Nat.ltb_ge _ _)) by lia. rewrite bool_decide_false; cycle 1.
  { rewrite Hb. replace (file_capacity cfg) with (8 + (file_capacity cfg - 8))%nat by lia.
    rewrite replicate_add. by unfold slice. }
  cbn [negb]. rewrite (proj2 (Nat.ltb_ge _ _)) by lia. unfold header_ops.
  destruct (flush_range_spec (detect ebx) base (Z.of_nat FILE_HEADER_SIZE) ltac:(lia)) as (fl & Hfl & _ & _).
  rewrite Hfl. cbn [ebind]. set (m := mkPMem bytes bytes ∅). set (stores := [_; _; _]).
  assert (Hz : zero_from 0 bytes).
  { intros i x _ Hx. rewrite Hb in Hx. by apply lookup_replicate in Hx as [? _]. }
  assert (Hvol : pm_vol (exec_ops m stores) = splice 0 pmem_header bytes).
  { unfold stores. cbn [exec_ops fold_left exec_op pm_vol m].
    unfold pmem_header. rewrite app_assoc, <- splice_splice, <- splice_splice by (simpl; lia). done. }
  assert (Hz0 : base + Z.of_nat 0 = base) by lia.
  destruct (commit_bytes m (detect ebx) 0 pmem_header stores fl []) as (H1 & H2 & H3 & H4 & H5 & H6); try done.
  - cbn [m pm_vol]. rewrite length_pmem_header. unfold FILE_HEADER_SIZE. lia.
  - by repeat constructor.
  - repeat (apply Forall_cons; split; [cbn [op_above m pm_vol]; rewrite ?length_le_bytes, ?length_replicate; simpl; lia|]).
    constructor.
  - by rewrite Hz0, length_pmem_header.
  - eexists. split; [done|]. split; [|etrans; [exact H3|exact Hl]]. rewrite !Nat.add_0_l in *.
    split; cbn [p_mem p_cursor p_last_seq]; try done. rewrite H3. cbn [m pm_vol]. lia.
Qed.

(** The record of a command. *)
Definition cmd_prec (sc : SequencedCommand) (r : PRec) : Prop :=
  serialise_command (sc_cmd sc) = Ok (pr_payload r) /\ pr_seq r = sc_seq sc /\ pr_ts_ns r = sc_ts_ns sc.

Lemma append_ops_split kind offset seq ts payload :
  exists flushes, append_ops kind offset seq ts payload
      = Val (append_stores offset seq ts payload ++ flushes ++ [Sfence])
    /\ flush_range kind (base + Z.of_nat offset) (Z.of_nat (align8 (RECORD_HEADER_SIZE + length payload))) = Val flushes
    /\ Forall is_flush flushes.
Proof.
  unfold append_ops. destruct (flush_range_spec kind (base + Z.of_nat offset)
    (Z.of_nat (align8 (RECORD_HEADER_SIZE + length payload))) ltac:(lia)) as (fl & -> & Hf & _).
  by exists fl.
Qed.

(** Every operation of an append is above the cursor. *)
Lemma append_ops_above m kind offset seq ts payload ops :
  (offset + align8 (RECORD_HEADER_SIZE + length payload) <= length (pm_vol m))%nat ->
  append_ops kind offset seq ts payload = Val ops -> Forall (op_above offset m) ops.
Proof.
  intros Hf Ho. destruct (append_ops_split kind offset seq ts payload) as (fl & Heq & _ & Hfl).
  assert (ops = append_stores offset seq ts payload ++ fl ++ [Sfence]) as -> by congruence.
  apply Forall_app. split; [by apply append_stores_above|].
  apply Forall_app. split; [|by repeat constructor]. eapply Forall_impl; [exact Hfl|]. by intros [].
Qed.

Lemma pmem_append_inv `{!WalCodecLaws C} sc w rs :
  sc_ok sc -> pmem_inv w rs ->
  exists res w', pmem_append sc w = Val (res, w') /\ length (pm_vol (p_mem w')) = length (pm_vol (p_mem w))
    /\ match res with
       | Ok _ => exists r, cmd_prec sc r /\ pmem_inv w' (rs ++ [r])
       | Err _ => w' = w
       end.
Proof.
  intros Hsc [Hok Hvol Hcur Hfit Hdur [Hzv Hzd] Hlast Hrecs]. unfold pmem_append.
  destruct (serialise_command (sc_cmd sc)) as [payload|e] eqn:Hser; [|by eexists _, w].
  destruct (Nat.ltb_spec (length (pm_vol (p_mem w))) (p_cursor w + align8 (RECORD_HEADER_SIZE + length payload)))
    as [|Hf]; [by eexists _, w|].
  destruct (append_ops_split (p_flush_kind w) (p_cursor w) (sc_seq sc) (sc_ts_ns sc) payload) as (fl & -> & Hfl & _).
  cbn [ebind]. eexists _, _. split; [done|]. set (r := mkPRec (sc_seq sc) (sc_ts_ns sc) payload).
  assert (Hlr : length (prec_bytes r) = align8 (RECORD_HEADER_SIZE + length payload)) by apply length_pmem_record.
  destruct (commit_bytes (p_mem w) (p_flush_kind w) (p_cursor w) (prec_bytes r)
    (append_stores (p_cursor w) (sc_seq sc) (sc_ts_ns sc) payload) fl (pmem_header ++ precs_bytes rs))
    as (H1 & H2 & H3 & H4 & H5 & H6); try done; rewrite ?Hlr; try done.
  - by repeat constructor.
  - by apply append_stores_above.
  - by apply append_stores_vol.
  - cbn [p_mem]. split; [done|]. exists r. split; [done|]. rewrite Hlr in *.
    assert (Hpb : precs_bytes (rs ++ [r]) = precs_bytes rs ++ prec_bytes r).
    { unfold precs_bytes. rewrite map_app, concat_app. cbn [map concat]. by rewrite app_nil_r. }
    split; cbn [p_mem p_cursor p_last_seq]; try done.
    + by rewrite Hpb, app_assoc.
    + rewrite Hpb, app_assoc, length_app, Hlr. lia.
    + rewrite H3. lia.
    + by rewrite foldl_app.
    + apply Forall_app. split; [done|]. apply Forall_singleton. destruct Hsc. split; cbn; try done. by eapply command_len.
Qed.

(** Calls of [append] one after another; the commands it answered [Ok] for. *)
Fixpoint pmem_append_all (calls : list SequencedCommand) (w : PmemWalWriter) :
    Exec (list SequencedCommand * PmemWalWriter) :=
  match calls with
  | [] => Val ([], w)
  | sc :: rest =>
      let! '(res, w) := pmem_append sc w in
      let! '(acc, w) := pmem_append_all rest w in
      Val (match res with Ok _ => sc :: acc | Err _ => acc end, w)
  end.

Lemma pmem_append_all_inv `{!WalCodecLaws C} calls w rs :
  Forall sc_ok calls -> pmem_inv w rs ->
  exists acc w' new, pmem_append_all calls w = Val (acc, w')
    /\ length (pm_vol (p_mem w')) = length (pm_vol (p_mem w))
    /\ pmem_inv w' (rs ++ new) /\ Forall2 cmd_prec acc new.
Proof.
  intros Hc. revert w rs. induction Hc as [|sc calls Hsc _ IH]; intros w rs Hi; cbn [pmem_append_all].
  { exists [], w, []. rewrite app_nil_r. split_and!; try done. }
  destruct (pmem_append_inv sc w rs Hsc Hi) as (res & w1 & -> & Hl & Hres). cbn [ebind]. destruct res as [off|e].
  - destruct Hres as (r & Hr & Hi1). destruct (IH w1 _ Hi1) as (acc & w2 & new & -> & Hl2 & Hi2 & HF). cbn [ebind].
    exists (sc :: acc), w2, (r :: new). rewrite <- app_assoc in Hi2. split_and!; [done|congruence|done|by constructor].
  - subst w1. destruct (IH w _ Hi) as (acc & w2 & new & -> & Hl2 & Hi2 & HF). cbn [ebind]. by exists acc, w2, new.
Qed.

Lemma pmem_record_at_zeros data off : zero_from off data -> pmem_record_at data off = None.
Proof.
  intros Hz. unfold pmem_record_at. destruct (_ <? _)%nat eqn:Hl; [done|].
  assert (H0 : le_at off 8 data = 0); [|by rewrite H0].
  unfold le_at, slice. replace (take 8 (drop off data)) with (replicate (length (take 8 (drop off data))) 0).
  - apply le_value_zeros.
  - apply replicate_as_Forall. split; [done|]. apply Forall_lookup. intros i x Hx.
    apply lookup_take_Some in Hx as [Hx _]. rewrite lookup_drop in Hx. symmetry. eapply Hz; [|exact Hx]. lia.
Qed.

Lemma aligned_header : aligned (length pmem_header).
Proof. by exists 4%nat. Qed.

Lemma length_precs rs : (length rs <= length (precs_bytes rs))%nat.
Proof.
  induction rs as [|r rs IH]; [done|]. unfold precs_bytes in *. cbn [map concat length]. rewrite length_app.
  unfold prec_bytes at 1. rewrite length_pmem_record. pose proof (align8_ge (RECORD_HEADER_SIZE + length (pr_payload r))).
  unfold RECORD_HEADER_SIZE in *. lia.
Qed.

(** Reopening a file that starts with the log of intact records [rs]. *)
Lemma pmem_reopen `{!WalCodecLaws C} ebx d cfg rs :
  let lo := length (pmem_header ++ precs_bytes rs) in
  length d = file_capacity cfg -> (lo <= length d)%nat -> take lo d = pmem_header ++ precs_bytes rs -> Forall prec_ok rs ->
  exists w, pmem_open ebx d cfg = Val (Ok w) /\ (lo <= p_cursor w)%nat
    /\ (zero_from lo d -> p_cursor w = lo /\ p_last_seq w = foldl (fun _ => pr_seq) 0 rs).
Proof.
  intros lo Hlen Hle Htake Hrs. assert (Hd : d = pmem_header ++ precs_bytes rs ++ drop lo d).
  { rewrite app_assoc, <- Htake. by rewrite take_drop. }
  assert (Hh : (32 <= lo)%nat) by (unfold lo; rewrite length_app, length_pmem_header; unfold FILE_HEADER_SIZE; lia).
  unfold pmem_open. replace (set_len (file_capacity cfg) d) with d by (rewrite <- Hlen; symmetry; apply set_len_id).
  rewrite (proj2 (Nat.ltb_ge _ _)) by lia. rewrite bool_decide_true by (rewrite Hd; reflexivity). cbn [negb].
  assert (Hscan : exists fuel, (length d - lo < fuel)%nat /\
    pmem_scan_to_end d = pmem_scan_from fuel d lo (foldl (fun _ => pr_seq) 0 rs)).
  { pose proof (length_precs rs). assert (Hl : lo = (32 + length (precs_bytes rs))%nat).
    { unfold lo. by rewrite length_app, length_pmem_header. }
    exists (scan_fuel d - length rs)%nat. split; [unfold scan_fuel; lia|]. unfold pmem_scan_to_end.
    rewrite <- length_pmem_header. replace (scan_fuel d) with (length rs + (scan_fuel d - length rs))%nat at 1
      by (unfold scan_fuel; lia).
    generalize (scan_fuel d - length rs)%nat as fuel. intros fuel. rewrite Hd at 1.
    rewrite (pmem_scan_records rs fuel pmem_header _ 0 aligned_header Hrs). by rewrite <- Hd. }
  destruct Hscan as (fuel & Hf & ->).
  destruct (pmem_scan_total fuel d lo (foldl (fun _ => pr_seq) 0 rs) Hf) as (c & l & Hs & Hc). rewrite Hs. cbn [ebind].
  eexists. split; [done|]. cbn [p_cursor p_last_seq]. split; [done|]. intros Hz.
  destruct fuel as [|fuel]; [lia|]. cbn [pmem_scan_from] in Hs. rewrite pmem_record_at_zeros in Hs by done. by simplify_eq.
Qed.

(** C38. Persistent-memory durability: after any appends on a new log, at
    whatever address it is mapped, every append returns, and whatever subset of
    the unfenced cache lines a crash leaves behind, the file still holds every
    acknowledged record.  Between calls reopening finds exactly the cursor and
    the last acknowledged sequence number; after any number of the stores,
    write-backs and fences of a further append it opens and never resumes
    before the end of the acknowledged records. *)
Theorem pmem_acknowledged_durable `{!WalCodecLaws C} ebx cfg calls :
  new_ok cfg -> Forall sc_ok calls ->
  exists w0 acc w rs, pmem_open ebx [] cfg = Val (Ok w0) /\ pmem_append_all calls w0 = Val (acc, w)
    /\ Forall2 cmd_prec acc rs
    /\ (forall d, crash_image (p_mem w) d ->
          exists w', pmem_open ebx d cfg = Val (Ok w') /\ p_cursor w' = p_cursor w
            /\ p_last_seq w' = foldl (fun _ => sc_seq) 0 acc)
    /\ (forall kind seq ts payload ops k d,
          (p_cursor w + align8 (RECORD_HEADER_SIZE + length payload) <= file_capacity cfg)%nat ->
          append_ops kind (p_cursor w) seq ts payload = Val ops ->
          crash_image (exec_ops (p_mem w) (take k ops)) d ->
          take (p_cursor w) d = pmem_header ++ precs_bytes rs
          /\ exists w', pmem_open ebx d cfg = Val (Ok w') /\ (p_cursor w <= p_cursor w')%nat).
Proof.
  intros Hnew Hcalls. destruct (pmem_open_new ebx cfg Hnew) as (w0 & Hopen & Hi0 & Hl0).
  destruct (pmem_append_all_inv calls w0 [] Hcalls Hi0) as (acc & w & rs & Hall & Hl & Hi & HF). cbn [app] in Hi.
  exists w0, acc, w, rs. split_and!; [done|done|done| |].
  - intros d Hc. pose proof (crash_below _ _ d (pi_ok _ _ Hi) (pi_dur _ _ Hi) Hc) as Ht. rewrite (pi_vol _ _ Hi) in Ht.
    pose proof Hc as [Hdl Hdv]. pose proof (pi_fits _ _ Hi) as Hfit. rewrite (pi_cursor _ _ Hi) in *.
    destruct (pmem_reopen ebx d cfg rs) as (w' & Hw & _ & Hex); [congruence|lia|done|apply (pi_recs _ _ Hi)|].
    destruct Hex as [Hcur Hlast].
    { destruct (pi_clean _ _ Hi) as [Hzv Hzd]. rewrite (pi_cursor _ _ Hi) in *.
      intros i x Hlo Hx. destruct (Hdv i x Hx); eauto. }
    exists w'. split_and!; [done|done|]. rewrite Hlast. clear - HF. generalize 0.
    induction HF as [|sc r acc rs (_ & Hs & _) _ IH]; intros z; [done|]. cbn [foldl]. by rewrite Hs.
  - intros kind seq ts payload ops k d Hfit Hops Hc.
    assert (Hab : Forall (op_above (p_cursor w) (p_mem w)) (take k ops)).
    { apply Forall_take. eapply append_ops_above; [|exact Hops]. lia. }
    destruct (exec_ops_above _ _ _ (pi_ok _ _ Hi) (pi_dur _ _ Hi) Hab (pi_fits _ _ Hi)) as (H1 & H2 & H3 & H4).
    pose proof (crash_below _ _ d H1 H2 Hc) as Ht. rewrite H3, (pi_vol _ _ Hi) in Ht. split; [done|].
    pose proof (pi_fits _ _ Hi) as Hfits. rewrite (pi_cursor _ _ Hi) in *.
    destruct Hc as [Hdl _]. destruct (pmem_reopen ebx d cfg rs) as (w' & Hw & Hcur & _);
      [congruence|lia|done|apply (pi_recs _ _ Hi)|]. by exists w'.
Qed.
End Mem.
End Pmem.

(** ** Witness: a log mapped at an address that is no multiple of a line *)

Module PmemDemo.
Import Pmem.
#[local] Existing Instance WalDemo.codec.
#[local] Existing Instance WalDemo.codec_laws.

Definition calls : list SequencedCommand := [WalDemo.sc 1 1 5; WalDemo.sc 2 1 6].

(** Both appends are acknowledged, and reopening the durable bytes finds them. *)
Lemma demo_durable :
  match pmem_open 4100 8388608 [] WalDemo.cfg with
  | Val (Ok w0) =>
      match pmem_append_all 4100 calls w0 with
      | Val (acc, w) =>
          match pmem_open 4100 8388608 (pm_dur (p_mem w)) WalDemo.cfg with
          | Val (Ok w') => Some (length acc, p_cursor w', p_last_seq w')
          | _ => None
          end
      | _ => None
      end
  | _ => None
  end = Some (2%nat, 96%nat, 2).
Proof. vm_compute. reflexivity. Qed.

Lemma pmem_acknowledged_durable_witness :
  exists w0 acc w, pmem_open 4100 8388608 [] WalDemo.cfg = Val (Ok w0)
    /\ pmem_append_all 4100 calls w0 = Val (acc, w).
Proof.
  destruct (pmem_acknowledged_durable 4100 8388608 WalDemo.cfg calls) as (w0 & acc & w & rs & H1 & H2 & _).
  - vm_compute. lia.
  - repeat (apply Forall_cons; split; [by split|]). constructor.
  - by exists w0, acc, w.
Defined.
End PmemDemo.
