(* ===== verification/TestKit.v ===== *)
(** * TestKit: the vocabulary of the repository's unit tests

    The Conform*.v files hold the unit tests that the sources carry beside
    their code ([#[cfg(test)] mod tests]), translated assertion by assertion to
    programs over the definitions of the development, and the lemmas that
    every one of them passes: the model agrees with the source wherever the
    authors wrote down what they expect. *)

From S2P Require Import Prelude.
#[local] Open Scope Z_scope.

(** [assert!], [assert_eq!] and [unwrap] / [expect] on a [Result]. *)
Notation "'assert!' b ';;' k" := (if (b : bool) then k else Panic)
  (at level 10, b at level 99, k at level 200, format "'[v' 'assert!'  b ';;' '/' k ']'") : exec_scope.
Notation "x '=!' y" := (bool_decide (x = y)) (at level 70, no associativity) : exec_scope.

Definition unwrap {T E} (r : Result T E) : Exec T := match r with Ok t => Val t | Err _ => Panic end.
Definition unwrap_err {T E} (r : Result T E) : Exec E := match r with Err e => Val e | Ok _ => Panic end.

Definition is_some {A} (o : option A) : bool := match o with Some _ => true | None => false end.
Definition is_none {A} (o : option A) : bool := match o with Some _ => false | None => true end.

(** [for _ in 0..n { body }]. *)
Fixpoint repeat_exec {S} (n : nat) (body : S -> Exec S) (s : S) : Exec S :=
  match n with O => Val s | Datatypes.S n' => let! s' := body s in repeat_exec n' body s' end.

(** [for x in l { body }]. *)
Fixpoint for_each {X S} (l : list X) (body : X -> S -> Exec S) (s : S) : Exec S :=
  match l with [] => Val s | x :: l' => let! s' := body x s in for_each l' body s' end.

(** A test passes when it returns. *)
Definition passes (test : Exec unit) : bool := match test with Val _ => true | _ => false end.
Definition all_pass (tests : list (Exec unit)) : bool := forallb passes tests.
