(* ===== verification/ConformTrading.v ===== *)
(** * ConformTrading: the unit tests of core-types, seqlock, risk-engine,
    matching-engine and sequencer *)

From S2P Require Import Prelude TestKit CoreTypes SlotMap OrderBook Seqlock RingBuffer Fifo Risk Metrics Engine EngineTheorems.
From S2P Require Import Sequencer Prometheus.
#[local] Open Scope Z_scope.

(** ** core-types *)

Module SideTests.
Definition opposite_is_involution : Exec unit :=
  assert! opposite Buy =! Sell ;;
  assert! opposite Sell =! Buy ;;
  assert! opposite (opposite Buy) =! Buy ;;
  Val tt.

Definition sign_convention : Exec unit :=
  assert! sign Buy =? 1 ;;
  assert! sign Sell =? -1 ;;
  Val tt.
End SideTests.

Module PriceTests.
Definition arithmetic : Exec unit :=
  let a := 100 in
  let b := 50 in
  assert! Price.add a b =? 150 ;;
  assert! Price.sub a b =? 50 ;;
  assert! Price.neg a =? -100 ;;
  Val tt.

Definition checked_ops_overflow : Exec unit :=
  assert! Price.checked_add Price.MAX 1 =! None ;;
  assert! Price.checked_sub Price.MIN 1 =! None ;;
  Val tt.

Definition ordering : Exec unit :=
  assert! 10 <? 20 ;;
  assert! Price.ZERO <? 1 ;;
  Val tt.
End PriceTests.

Module QtyTests.
Definition min_and_saturating : Exec unit :=
  let a := 10 in
  let b := 7 in
  assert! Qty.min a b =? b ;;
  assert! Qty.saturating_sub b a =? Qty.ZERO ;;
  assert! Qty.saturating_sub a b =? 3 ;;
  Val tt.

Definition checked_ops : Exec unit :=
  assert! Qty.checked_sub 5 10 =! None ;;
  assert! Qty.checked_add Qty.MAX 1 =! None ;;
  Val tt.

Definition assign_ops : Exec unit :=
  let q := 10 in
  let q := Qty.add_assign q 5 in
  assert! q =? 15 ;;
  let q := Qty.sub_assign q 3 in
  assert! q =? 12 ;;
  Val tt.
End QtyTests.

Module IdsTests.
Definition id_roundtrip : Exec unit :=
  let id := Id.new 42 in
  assert! Id.get id =? 42 ;;
  assert! Id.from 42 =? id ;;
  Val tt.

Definition sequence_no_basic : Exec unit :=
  assert! SequenceNo.new 0 =! None ;;
  let first := SequenceNo.FIRST in
  assert! SequenceNo.get first =? 1 ;;
  let! next := SequenceNo.next first in
  assert! SequenceNo.get next =? 2 ;;
  Val tt.
End IdsTests.

Module StatusTests.
Definition roundtrip_u8 : Exec unit :=
  for_each [Pending; Addressed; Unaddressed; FinallyHandled]
    (fun status _ =>
       let v := status_to_u8 status in
       assert! status_from_u8 v =! Some status ;; Val tt) tt.

Definition invalid_u8_returns_none : Exec unit :=
  assert! status_from_u8 4 =! None ;;
  assert! status_from_u8 255 =! None ;;
  Val tt.

Definition terminal_states : Exec unit :=
  assert! negb (is_terminal Pending) ;;
  assert! is_terminal Addressed ;;
  assert! negb (is_terminal Unaddressed) ;;
  assert! is_terminal FinallyHandled ;;
  Val tt.
End StatusTests.

Module CommandTests.
Definition sample_new_order : NewOrder := mkNewOrder 1 7 100 Buy 10050 Limit 10 Gtc.

Definition command_accessors : Exec unit :=
  let cmd := Command_New sample_new_order in
  assert! command_instrument_id cmd =! Some 7 ;;
  assert! command_account_id cmd =! Some 1 ;;
  let halt := Command_Halt 3 in
  assert! command_instrument_id halt =! Some 3 ;;
  assert! command_account_id halt =! None ;;
  Val tt.

Definition command_is_copy : Exec unit :=
  let cmd := Command_New sample_new_order in
  let cmd2 := cmd in
  assert! cmd =! cmd2 ;;
  Val tt.
End CommandTests.

Module EventTests.
Definition event_seq_accessor : Exec unit :=
  let seq := SequenceNo.FIRST in
  let ev := Event_InstrumentHalted seq 1 in
  assert! event_seq ev =? seq ;;
  Val tt.

Definition fill_event_roundtrip : Exec unit :=
  let seq := SequenceNo.FIRST in
  let fill := mkFill 1 2 10 Buy 3 20 10000 5 0 0 in
  let ev := Event_Filled seq fill in
  assert! event_seq ev =? seq ;;
  match ev with
  | Event_Filled _ f => assert! f_price f =? 10000 ;; Val tt
  | _ => Panic
  end.
End EventTests.

Lemma core_types_tests_pass :
  all_pass [SideTests.opposite_is_involution; SideTests.sign_convention; PriceTests.arithmetic;
    PriceTests.checked_ops_overflow; PriceTests.ordering; QtyTests.min_and_saturating; QtyTests.checked_ops;
    QtyTests.assign_ops; IdsTests.id_roundtrip; IdsTests.sequence_no_basic; StatusTests.roundtrip_u8;
    StatusTests.invalid_u8_returns_none; StatusTests.terminal_states; CommandTests.command_accessors;
    CommandTests.command_is_copy; EventTests.event_seq_accessor; EventTests.fill_event_roundtrip] = true.
Proof. vm_compute. reflexivity. Qed.

(** ** seqlock *)

Module TableTests.
(** [table.get(i).unwrap().update(..)]: the cell is shared, so the update is
    seen by every later [get]. *)
Definition update_at (t : AccountRiskTable) (account : Z) (v : AccountRiskSnapshot) : Exec AccountRiskTable :=
  let! cell := expect (table_get t account) in
  Val (table_put t account (update v cell)).

Definition read_balance (t : AccountRiskTable) (account : Z) : Exec Z :=
  let! cell := expect (table_get t account) in
  let! snap := read cell in
  Val (balance snap).

Definition accounts_are_isolated : Exec unit :=
  let table := Table_new 4 in
  let! table := update_at table 0 (mkSnap 100 0 false false 5 1) in
  let! table := update_at table 1 (mkSnap 200 0 false false (-5) 2) in
  let! b0 := read_balance table 0 in
  assert! b0 =? 100 ;;
  let! b1 := read_balance table 1 in
  assert! b1 =? 200 ;;
  let! b2 := read_balance table 2 in
  assert! b2 =? 0 ;;
  Val tt.

Definition out_of_range_returns_none : Exec unit :=
  assert! is_none (table_get (Table_new 2) 2) ;;
  Val tt.
End TableTests.

(** ** risk-engine *)

Module PositionTests.
Definition open_long_then_close : Exec unit :=
  let pos := Position_default in
  let! pos := apply_fill Buy 5000000000000 100000000 pos in
  assert! net_qty pos =? 100000000 ;;
  assert! avg_entry_price pos =? 5000000000000 ;;
  let! pos := apply_fill Sell 5100000000000 100000000 pos in
  assert! net_qty pos =? 0 ;;
  assert! realised_pnl pos =? 100000000000 ;;
  Val tt.

Definition partial_close_then_flip : Exec unit :=
  let pos := Position_default in
  let! pos := apply_fill Buy 10000000000 300000000 pos in
  let! pos := apply_fill Sell 11000000000 500000000 pos in
  assert! net_qty pos =? -200000000 ;;
  assert! avg_entry_price pos =? 11000000000 ;;
  Val tt.

Definition unrealised_pnl_long : Exec unit :=
  let pos := Position_default in
  let! pos := apply_fill Buy 10000000000 200000000 pos in
  let upnl := unrealised_pnl 12000000000 pos in
  assert! upnl =? 4000000000 ;;
  Val tt.
End PositionTests.

Module ShardTests.
Definition make_shard (n_accounts : nat) : Exec RiskShard :=
  let config := ShardConfig_new n_accounts in
  let states := Table_new n_accounts in
  let shard := RiskShard_new 0 (Z.of_nat n_accounts) config states in
  for_each (List.seq 0 n_accounts) (fun i shard => seed_deposit (Z.of_nat i) 1000000000000 shard) shard.

Definition trade_event (maker taker symbol price qty : Z) : EngineEvent :=
  Trade 1 0 symbol price qty 0 0 0 0 maker taker Buy 0 0.

Definition position_updates_on_fill : Exec unit :=
  let! shard := make_shard 2 in
  let ev := trade_event 0 1 0 5000000000000 100000000 in
  let! '(shard, result) := process_event map_to_list shard ev ∅ in
  assert! is_none (head result) ;;
  let! pos := expect (positions shard !! (0, 0)) in
  assert! net_qty pos =? 100000000 ;;
  let! pos1 := expect (positions shard !! (1, 0)) in
  assert! net_qty pos1 =? -100000000 ;;
  Val tt.

Definition is_liquidate (account : Z) (cmd : InboundCommand) : bool :=
  match cmd with Inbound_Liquidate _ a => a =? account | _ => false end.

Definition liquidation_triggered_on_margin_breach : Exec unit :=
  let config := ShardConfig_new 1 in
  let states := Table_new 1 in
  let shard := RiskShard_new 0 1 config states in
  let! states := TableTests.update_at (rs_states shard) 0 (mkSnap 100000000 0 false false 0 0) in
  let shard := sh_set_states states shard in
  let ev := trade_event 0 0 0 5000000000000 10000000000 in
  let! '(shard, result) := process_event map_to_list shard ev ∅ in
  assert! existsb (is_liquidate 0) result ;;
  let! cell := expect (table_get (rs_states shard) 0) in
  let! snap := read cell in
  assert! frozen snap ;;
  Val tt.
End ShardTests.

(** ** matching-engine *)

#[local] Instance RiskRejectReason_eq_dec : EqDecision RiskRejectReason.
Proof. solve_decision. Defined.

Module RiskCheckTests.
Definition mk_order (side : Side) (qty price : Z) : NewOrder := mkNewOrder 1 1 0 side price Limit qty Gtc.

Definition with_limits (qty notional position bps : Z) : Tier0Limits :=
  mkTier0 qty notional (max_open_orders Tier0Limits_default) position bps.
Definition d := Tier0Limits_default.

Definition rejects_when_halted : Exec unit :=
  let! state := set_halted true AccountRiskState_new in
  let! res := check_new_order (mk_order Buy 10 100) d state None in
  assert! res =! Err AccountHalted ;;
  Val tt.

Definition rejects_when_frozen : Exec unit :=
  let! state := set_frozen true AccountRiskState_new in
  let! res := check_new_order (mk_order Buy 10 100) d state None in
  assert! res =! Err AccountFrozen ;;
  Val tt.

Definition rejects_qty_over_limit : Exec unit :=
  let limits := with_limits 5 (t0_max_order_notional d) (max_position_abs d) (price_band_bps d) in
  let! res := check_new_order (mk_order Buy 10 100) limits AccountRiskState_new None in
  assert! res =! Err MaxOrderQtyExceeded ;;
  Val tt.

Definition rejects_notional_over_limit : Exec unit :=
  let limits := with_limits (max_order_qty d) (500 * 100000000) (max_position_abs d) (price_band_bps d) in
  let order := mk_order Buy (10 * 100000000) (100 * 100000000) in
  let! res := check_new_order order limits AccountRiskState_new None in
  assert! res =! Err MaxOrderNotionalExceeded ;;
  Val tt.

Definition rejects_price_out_of_band : Exec unit :=
  let limits := with_limits (max_order_qty d) (t0_max_order_notional d) (max_position_abs d) 100 in
  let! res := check_new_order (mk_order Buy 1 110) limits AccountRiskState_new (Some 100) in
  assert! res =! Err PriceOutOfBand ;;
  Val tt.

Definition rejects_position_limit : Exec unit :=
  let! state := set_position 95 AccountRiskState_new in
  let limits := with_limits (max_order_qty d) (t0_max_order_notional d) 100 (price_band_bps d) in
  let! res := check_new_order (mk_order Buy 10 100) limits state None in
  assert! res =! Err PositionLimitExceeded ;;
  Val tt.

Definition accepts_within_limits : Exec unit :=
  let! res := check_new_order (mk_order Buy 10 100) d AccountRiskState_new None in
  assert! is_ok res ;;
  Val tt.
End RiskCheckTests.

Lemma risk_tests_pass :
  all_pass [TableTests.accounts_are_isolated; TableTests.out_of_range_returns_none;
    PositionTests.open_long_then_close; PositionTests.partial_close_then_flip; PositionTests.unrealised_pnl_long;
    ShardTests.position_updates_on_fill; ShardTests.liquidation_triggered_on_margin_breach;
    RiskCheckTests.rejects_when_halted; RiskCheckTests.rejects_when_frozen; RiskCheckTests.rejects_qty_over_limit;
    RiskCheckTests.rejects_notional_over_limit; RiskCheckTests.rejects_price_out_of_band;
    RiskCheckTests.rejects_position_limit; RiskCheckTests.accepts_within_limits] = true.
Proof. vm_compute. reflexivity. Qed.

Module EngineTests.
Import GmapSlotMap EngineDemo.

(** [NullWal]: accepts every event; the list is ghost. *)
Definition NullWal : Type := list Event.
#[local] Instance null_wal : WalWriter NullWal := list_wal.

Definition mk_engine : MatchingEngine (W := NullWal) :=
  MatchingEngine_new Tier0Limits_default (OrderBook_new (mkBookConfig 1 Price.ZERO 1024 4096))
    (Spsc.spsc_queue OUT_CAP) (Spmc.spmc_queue RISK_FANOUT_CAP 1) (Table_new 16) [].

Definition handle := handle_command (W := NullWal) out_idle risk_idle instant instant.

Definition accepts_and_books_resting_order : Exec unit :=
  let engine := mk_engine in
  let seq_cmd := mkSC 1 1 0 (Inbound_NewOrder 1 0 1 Buy 100 10 Limit Gtc) in
  let! engine := handle seq_cmd engine in
  let snap := metrics_snapshot (e_metrics engine) in
  assert! ms_orders_processed snap =? 1 ;;
  assert! ms_risk_rejects snap =? 0 ;;
  Val tt.

Definition matches_crossing_orders : Exec unit :=
  let engine := mk_engine in
  let resting := mkSC 1 1 0 (Inbound_NewOrder 1 0 1 Sell 100 10 Limit Gtc) in
  let! engine := handle resting engine in
  let aggressor := mkSC 1 2 0 (Inbound_NewOrder 2 1 1 Buy 100 10 Limit Gtc) in
  let! engine := handle aggressor engine in
  let snap := metrics_snapshot (e_metrics engine) in
  assert! ms_orders_processed snap =? 2 ;;
  assert! 1 <=? ms_fills_generated snap ;;
  Val tt.

Definition risk_state_is_isolated_per_account : Exec unit :=
  let engine := mk_engine in
  let! cell := expect (table_get (e_risk_states engine) 1) in
  let! cell := set_halted true cell in
  let engine := e_set_states (table_put (e_risk_states engine) 1 cell) engine in
  let halted_account_order := mkSC 1 1 0 (Inbound_NewOrder 1 0 1 Buy 100 10 Limit Gtc) in
  let! engine := handle halted_account_order engine in
  let other_account_order := mkSC 1 2 0 (Inbound_NewOrder 2 1 1 Buy 100 10 Limit Gtc) in
  let! engine := handle other_account_order engine in
  let snap := metrics_snapshot (e_metrics engine) in
  assert! ms_risk_rejects snap =? 1 ;;
  assert! ms_orders_processed snap =? 2 ;;
  Val tt.
End EngineTests.

Lemma engine_tests_pass :
  all_pass [EngineTests.accepts_and_books_resting_order; EngineTests.matches_crossing_orders;
    EngineTests.risk_state_is_isolated_per_account] = true.
Proof. vm_compute. reflexivity. Qed.

(** ** metrics of the matching engine *)

Module MetricsTests.
Definition bucket_boundaries_are_monotonic : Exec unit :=
  assert! (bucket_for 0 =? 0)%nat ;;
  assert! (bucket_for 1 =? 1)%nat ;;
  assert! (bucket_for 100 <? bucket_for 1000)%nat ;;
  assert! (bucket_for u64_max =? NUM_BUCKETS - 1)%nat ;;
  Val tt.

Definition record_updates_count_sum_max : Exec unit :=
  let h := LatencyHistogram_new in
  let h := record 100 h in
  let h := record 300 h in
  let h := record 50 h in
  let snap := hist_snapshot h in
  assert! ls_count snap =? 3 ;;
  assert! ls_sum_ns snap =? 450 ;;
  assert! ls_max_ns snap =? 300 ;;
  assert! ls_mean_ns snap =? 150 ;;
  Val tt.

Definition percentiles_are_monotonic_and_bounded_by_max : Exec unit :=
  let h := LatencyHistogram_new in
  let! h := for_each (List.seq 1 1000) (fun ns h => Val (record (Z.of_nat ns) h)) h in
  let snap := hist_snapshot h in
  assert! p50 snap <=? p90 snap ;;
  assert! p90 snap <=? p99 snap ;;
  assert! p99 snap <=? p999 snap ;;
  assert! p999 snap <=? Z.max (ls_max_ns snap) (p999 snap) ;;
  assert! (100 <? p50 snap) && (p50 snap <? 2000) ;;
  Val tt.

Definition empty_histogram_percentiles_are_zero : Exec unit :=
  let snap := hist_snapshot LatencyHistogram_new in
  assert! p50 snap =? 0 ;;
  assert! p99 snap =? 0 ;;
  Val tt.

Definition merge_sums_buckets_count_and_max : Exec unit :=
  let h1 := LatencyHistogram_new in
  let h1 := record 100 h1 in
  let h1 := record 200 h1 in
  let h2 := LatencyHistogram_new in
  let h2 := record 5000 h2 in
  let merged := hist_snapshot h1 in
  let merged := latency_merge (hist_snapshot h2) merged in
  assert! ls_count merged =? 3 ;;
  assert! ls_sum_ns merged =? 5300 ;;
  assert! ls_max_ns merged =? 5000 ;;
  Val tt.

Definition reset_clears_histogram_and_counters : Exec unit :=
  let m := EngineMetrics_new in
  let m := record_order 2 false m in
  let m := record_match_latency 500 m in
  let m := reset_intervals m in
  let snap := metrics_snapshot m in
  assert! ms_orders_processed snap =? 0 ;;
  assert! ms_fills_generated snap =? 0 ;;
  assert! ls_count (ms_match_latency snap) =? 0 ;;
  Val tt.
End MetricsTests.

(** ** The sequencer *)

Module SequencerTests.
Import SequencerDemo.
#[local] Existing Instances gw_fifo me_fifo wal_fifo snap_fifo.
#[local] Abbreviation Seq := (Sequencer (QG := Spsc.Queue (T := InboundCommand))
  (QM := Spsc.Queue (T := SequencedCommand)) (QW := Spsc.Queue (T := SequencedCommand))
  (QS := Spsc.Queue (T := EngineEvent))).

(** [FakeClock(42)]. *)
Definition fake_clock : Z := 42.

(** The test holds the other halves of the rings: [gw_push] is its producer,
    [me_pop] and [wal_pop] are its consumers. *)
Definition make_sequencer (n_symbols : nat) : Exec Seq :=
  let gw := replicate 2 fifo_new in
  let me := replicate n_symbols fifo_new in
  let! config := SequencerConfig_new n_symbols in
  Sequencer_new gw me fifo_new [] GlobalHalt.new for_test_leader config 0.

Definition new_order (symbol : Z) : InboundCommand :=
  Inbound_NewOrder 1 0 symbol Buy 10000000000 100000000 Limit Gtc.

Definition gw_push (g : nat) (cmd : InboundCommand) (s : Seq) : Exec Seq :=
  let! q := index_list (gw_inbound s) g in
  let '(r, q') := fifo_push cmd q in
  let! _ := unwrap r in
  Val (set_gw (<[g := q']> (gw_inbound s)) (gw_cursor s) s).

Definition me_pop (i : nat) (s : Seq) : Exec (option SequencedCommand * Seq) :=
  let! q := index_list (me_inbound s) i in
  let! '(r, q') := fifo_pop q in
  Val (r, set_me (<[i := q']> (me_inbound s)) s).

Definition wal_pop (s : Seq) : Exec (option SequencedCommand * Seq) :=
  let! '(r, q') := fifo_pop (wal_out s) in
  Val (r, set_wal q' s).

(** [if let Some(cmd) = seq.poll_inbound() { seq.dispatch(cmd); }]. *)
Definition drive (s : Seq) : Exec Seq :=
  let! '(polled, s) := poll_inbound s in
  match polled with
  | Some cmd => dispatch (fun _ _ q => q) (fun _ _ q => q) 1 fake_clock cmd s
  | None => Val s
  end.

Definition sequences_and_routes_to_correct_symbol : Exec unit :=
  let! seq := make_sequencer 2 in
  let! seq := gw_push 0 (new_order 0) seq in
  let! seq := gw_push 1 (new_order 1) seq in
  let! seq := repeat_exec 2 drive seq in
  let! '(s0, seq) := me_pop 0 seq in
  let! s0 := expect s0 in
  assert! sc_seq s0 =? 1 ;;
  let! '(none, seq) := me_pop 0 seq in
  assert! is_none none ;;
  let! '(s1, seq) := me_pop 1 seq in
  let! s1 := expect s1 in
  assert! sc_seq s1 =? 2 ;;
  let! '(none, seq) := me_pop 1 seq in
  assert! is_none none ;;
  let! '(w0, seq) := wal_pop seq in
  let! w0 := expect w0 in
  let! '(w1, seq) := wal_pop seq in
  let! w1 := expect w1 in
  assert! sc_seq w0 =? 1 ;;
  assert! sc_seq w1 =? 2 ;;
  Val tt.

Definition round_robin_across_gateway_queues : Exec unit :=
  let! seq := make_sequencer 2 in
  let! seq := gw_push 1 (new_order 1) seq in
  let! seq := gw_push 0 (new_order 0) seq in
  let! '(first, seq) := poll_inbound seq in
  let! _ := expect first in
  let! '(second, seq) := poll_inbound seq in
  let! _ := expect second in
  Val tt.

(** The source builds the sequencer and pushes; the markers it announces are
    not asserted there. *)
Definition snapshot_marker_fires_on_schedule : Exec unit :=
  let! config := SequencerConfig_new 1 in
  let! schedule := SnapshotMarkerSchedule_new 2 in
  let config := mkSequencerConfig (n_symbols config) schedule in
  let! seq := Sequencer_new [fifo_new] [fifo_new] fifo_new [fifo_new] GlobalHalt.new for_test_leader config 0 in
  let! _ := repeat_exec 4 (gw_push 0 (new_order 0)) seq in
  Val tt.

Definition halt_flag_is_checked : Exec unit :=
  let halt := GlobalHalt.new in
  assert! negb (GlobalHalt.is_set halt) ;;
  let halt := GlobalHalt.trigger halt in
  assert! GlobalHalt.is_set halt ;;
  let halt := GlobalHalt.trigger halt in
  assert! GlobalHalt.is_set halt ;;
  Val tt.

(** [while let Some(sc) = me_consumers[0].try_pop() { .. }]. *)
Fixpoint drain_rising (fuel : nat) (last_seq : Z) (s : Seq) : Exec Z :=
  match fuel with
  | O => OutOfFuel
  | S fuel' =>
      let! '(popped, s) := me_pop 0 s in
      match popped with
      | None => Val last_seq
      | Some sc => assert! last_seq <? sc_seq sc ;; drain_rising fuel' (sc_seq sc) s
      end
  end.

Definition monotonic_sequence_numbers : Exec unit :=
  let! seq := make_sequencer 1 in
  let! seq := repeat_exec 5 (gw_push 0 (new_order 0)) seq in
  let! seq := repeat_exec 5 drive seq in
  let! last_seq := drain_rising 6 0 seq in
  assert! last_seq =? 5 ;;
  Val tt.
End SequencerTests.

Lemma sequencer_tests_pass :
  all_pass [MetricsTests.bucket_boundaries_are_monotonic; MetricsTests.record_updates_count_sum_max;
    MetricsTests.percentiles_are_monotonic_and_bounded_by_max; MetricsTests.empty_histogram_percentiles_are_zero;
    MetricsTests.merge_sums_buckets_count_and_max; MetricsTests.reset_clears_histogram_and_counters;
    SequencerTests.sequences_and_routes_to_correct_symbol; SequencerTests.round_robin_across_gateway_queues;
    SequencerTests.snapshot_marker_fires_on_schedule; SequencerTests.halt_flag_is_checked;
    SequencerTests.monotonic_sequence_numbers] = true.
Proof. vm_compute. reflexivity. Qed.
