(* ===== verification/ConformOps.v ===== *)
(** * ConformOps: the unit tests of the metrics aggregator and the logger *)

From stdpp Require Import strings.
From S2P Require Import Prelude TestKit RingBuffer Fifo Metrics Utf8 Prometheus Logger.
#[local] Open Scope list_scope.
#[local] Open Scope Z_scope.

(** [str::contains]. *)
Fixpoint is_prefix (p s : list Z) : bool :=
  match p, s with
  | [], _ => true
  | x :: p', y :: s' => (x =? y) && is_prefix p' s'
  | _ :: _, [] => false
  end.
Fixpoint contains (s p : list Z) : bool :=
  is_prefix p s || match s with [] => false | _ :: s' => contains s' p end.

(** ** metrics *)

Module AggregatorTests.
(** One order in which the hash map lists its shards. *)
Definition values (m : gmap Z EngineMetricsSnapshot) : list EngineMetricsSnapshot := map snd (map_to_list m).
Definition iter (m : gmap Z EngineMetricsSnapshot) : list (Z * EngineMetricsSnapshot) := map_to_list m.
Definition collect := collect_now values.
Definition render := render_prometheus iter.

Definition aggregates_across_shards : Exec unit :=
  let agg := MetricsAggregator_new 0 0 in
  let m1 := EngineMetrics_new in
  let m2 := EngineMetrics_new in
  let m1 := record_order 2 false m1 in
  let m1 := record_order 0 true m1 in
  let m2 := record_order 1 false m2 in
  let agg := register_shard 1 m1 agg in
  let agg := register_shard 2 m2 agg in
  let snap := last_snapshot (collect 1 agg) in
  assert! ms_orders_processed (totals snap) =? 3 ;;
  assert! ms_fills_generated (totals snap) =? 3 ;;
  assert! ms_risk_rejects (totals snap) =? 1 ;;
  assert! (size (per_shard snap) =? 2)%nat ;;
  Val tt.

(** [m1] is shared with the aggregator: its second [record_order] is seen by a
    later collection, which does not take place within the interval. *)
Definition maybe_collect_respects_interval : Exec unit :=
  let agg := MetricsAggregator_new (3600 * 1000000000) 0 in
  let m1 := record_order 5 false EngineMetrics_new in
  let agg := register_shard 1 m1 agg in
  let agg := collect 10 agg in
  let m1 := record_order 10 false m1 in
  let agg := mkAggregator [(1, m1)] (last_snapshot agg) (interval agg) (last_collected agg) in
  let snap := last_snapshot (maybe_collect values 20 agg) in
  assert! ms_fills_generated (totals snap) =? 5 ;;
  Val tt.

Definition labelled (name shard : list Z) : list Z :=
  name ++ text "{shard=" ++ quote ++ shard ++ quote ++ text "}".

Definition prometheus_render_contains_expected_metrics : Exec unit :=
  let agg := MetricsAggregator_new 0 0 in
  let m1 := record_order 3 false EngineMetrics_new in
  let agg := register_shard 7 m1 agg in
  let agg := collect 1 agg in
  let out := render agg in
  assert! contains out (labelled (text "engine_orders_processed_total") (text "7")) ;;
  assert! contains out (labelled (text "engine_fills_generated_total") (text "_total")) ;;
  Val tt.

Definition prometheus_render_contains_percentiles : Exec unit :=
  let agg := MetricsAggregator_new 0 0 in
  let! m1 := for_each (List.seq 1 100) (fun ns m => Val (record_match_latency (Z.of_nat ns) m)) EngineMetrics_new in
  let agg := register_shard 1 m1 agg in
  let agg := collect 1 agg in
  let out := render agg in
  assert! contains out (labelled (text "engine_match_latency_ns_p50") (text "1")) ;;
  assert! contains out (labelled (text "engine_match_latency_ns_p99") (text "_total")) ;;
  Val tt.

Definition cross_shard_percentiles_reflect_merged_population_not_averaged_shard_percentiles : Exec unit :=
  let agg := MetricsAggregator_new 0 0 in
  let! m1 := repeat_exec 1000 (fun m => Val (record_match_latency 100 m)) EngineMetrics_new in
  let! m2 := repeat_exec 1000 (fun m => Val (record_match_latency 1000000 m)) EngineMetrics_new in
  let agg := register_shard 1 m1 agg in
  let agg := register_shard 2 m2 agg in
  let snap := last_snapshot (collect 1 agg) in
  let merged_p50 := p50 (ms_match_latency (totals snap)) in
  assert! merged_p50 <=? 1000000 ;;
  assert! ls_count (ms_match_latency (totals snap)) =? 2000 ;;
  Val tt.
End AggregatorTests.

(** ** logger *)

Module LoggerTests.
Definition CAP : nat := Z.to_nat 1024.
#[local] Instance cap_log : CapOk CAP.
Proof. exists 10. split; [lia|reflexivity]. Qed.
#[local] Abbreviation Sys := (LogSys (Q := Spsc.Queue (T := LogRecord))).

(** A log call of the test's thread, [drop(logger)], and the writer thread up
    to its end, which [join] waits for. *)
Definition call (level : Level) (args : list (list Z)) (s : Sys) : Sys :=
  let '(ok, q) := log_fmt (cap := CAP) (ls_min s) level args 0 (ls_ch s) in
  mkSys (ls_min s) q (ls_dropped s) (ls_pc s) (ls_out s) (ls_calls s ++ [mkCall level args 0 ok]).

Definition drop_logger (s : Sys) : Sys := mkSys (ls_min s) (ls_ch s) true (ls_pc s) (ls_out s) (ls_calls s).

Fixpoint join (fuel : nat) (s : Sys) : Exec Sys :=
  match fuel with
  | O => OutOfFuel
  | S fuel' =>
      let! '(popped, q) := fifo_pop (cap := CAP) (ls_ch s) in
      match popped with
      | Some rec =>
          let o := write_line rec (ls_out s) in
          let o := if is_empty (cap := CAP) q then out_flush o else o in
          join fuel' (mkSys (ls_min s) q (ls_dropped s) WRecv o (ls_calls s))
      | None => Val (mkSys (ls_min s) q (ls_dropped s) WDone (out_flush (ls_out s)) (ls_calls s))
      end
  end.

Definition spawn (min_level : Level) : Sys := log_spawn (cap := CAP) min_level.

(** [data.lock().unwrap().clone()], which [String::from_utf8] accepts. *)
Definition output (s : Sys) : Exec (list Z) := expect (if from_utf8 (bo_sink (ls_out s)) then Some (bo_sink (ls_out s)) else None).

Definition basic_log_roundtrip : Exec unit :=
  let s := spawn Trace in
  let s := call Info [text "order accepted id="; decimal 42; text " px="; decimal 10050] s in
  let s := call Warn [text "risk near limit acct="; decimal 7] s in
  let! s := join 3 (drop_logger s) in
  let! out := output s in
  assert! contains out (text "order accepted id=42 px=10050") ;;
  assert! contains out (text "risk near limit acct=7") ;;
  Val tt.

(** [out.lines().next().unwrap()]. *)
Fixpoint first_line (bs : list Z) : list Z :=
  match bs with [] => [] | b :: r => if b =? 10 then [] else b :: first_line r end.

Definition truncates_long_messages : Exec unit :=
  let s := spawn Trace in
  let long := replicate 1000 120 in
  let s := call Info [long] s in
  let! s := join 2 (drop_logger s) in
  let! out := output s in
  let line := first_line out in
  assert! (length line <? 300)%nat ;;
  Val tt.

Definition min_level_filters : Exec unit :=
  let s := spawn Warn in
  let s := call Info [text "should be filtered"] s in
  let s := call Error [text "should appear"] s in
  let! s := join 2 (drop_logger s) in
  let! out := output s in
  assert! negb (contains out (text "should be filtered")) ;;
  assert! contains out (text "should appear") ;;
  Val tt.
End LoggerTests.

Lemma ops_tests_pass :
  all_pass [AggregatorTests.aggregates_across_shards; AggregatorTests.maybe_collect_respects_interval;
    AggregatorTests.prometheus_render_contains_expected_metrics; AggregatorTests.prometheus_render_contains_percentiles;
    AggregatorTests.cross_shard_percentiles_reflect_merged_population_not_averaged_shard_percentiles;
    LoggerTests.basic_log_roundtrip; LoggerTests.truncates_long_messages; LoggerTests.min_level_filters] = true.
Proof. vm_compute. reflexivity. Qed.
