(* ===== verification/ConformStorage.v ===== *)
(** * ConformStorage: the unit tests of wal, dual-log and the log entry

    The tests run the real checksum and encoding; here the parameter is
    instantiated with CRC-32 (the reflected polynomial 0xEDB88320) and
    with the documented layout of bincode's default configuration: fixed-width
    little-endian integers and 32-bit variant tags.  The files have 2 KiB where
    the tests ask for 1 MiB: the capacity only bounds the cursor. *)

From S2P Require Import Prelude TestKit CoreTypes Bytes Snapshot Engine Wal LogEntry DualLog Pmem.
From S2P Require Import Utf8.
From stdpp Require Import sorting strings.
#[local] Open Scope list_scope.
#[local] Open Scope Z_scope.

(** ** Checksum and encoding *)

Definition crc_bit (c : Z) : Z :=
  if Z.odd c then Z.lxor (Z.shiftr c 1) 3988292384 else Z.shiftr c 1.
Definition crc_byte (c b : Z) : Z := Nat.iter 8 crc_bit (Z.lxor c b).
Definition crc_32 (data : list Z) : Z := Z.lxor (foldl crc_byte u32_max data) u32_max.

(** The check value of the polynomial: the checksum of "123456789". *)
Lemma crc_32_check : crc_32 [49; 50; 51; 52; 53; 54; 55; 56; 57] = 3421780262.
Proof. vm_compute. reflexivity. Qed.

Definition side_tag (s : Side) : Z := match s with Buy => 0 | Sell => 1 end.
Definition ot_tag (t : OrderType) : Z := match t with Limit => 0 | Market => 1 end.
Definition tif_tag (t : TimeInForce) : Z := match t with Gtc => 0 | Ioc => 1 | Fok => 2 end.

Definition bincode_command (cmd : InboundCommand) : Result (list Z) WalError :=
  Ok match cmd with
     | Inbound_NewOrder account coid symbol side price qty ot tif =>
         le_bytes 4 0 ++ le_bytes 8 account ++ le_bytes 8 coid ++ le_bytes 2 symbol ++ le_bytes 4 (side_tag side)
           ++ le_bytes 8 (wrap_u64 price) ++ le_bytes 8 qty ++ le_bytes 4 (ot_tag ot) ++ le_bytes 4 (tif_tag tif)
     | Inbound_Cancel account order_id => le_bytes 4 1 ++ le_bytes 8 account ++ le_bytes 8 order_id
     | Inbound_Liquidate symbol account => le_bytes 4 2 ++ le_bytes 2 symbol ++ le_bytes 8 account
     | Inbound_FreezeAccount account => le_bytes 4 3 ++ le_bytes 8 account
     end.

Definition side_of_tag (t : Z) : option Side := if t =? 0 then Some Buy else if t =? 1 then Some Sell else None.
Definition ot_of_tag (t : Z) : option OrderType := if t =? 0 then Some Limit else if t =? 1 then Some Market else None.
Definition tif_of_tag (t : Z) : option TimeInForce :=
  if t =? 0 then Some Gtc else if t =? 1 then Some Ioc else if t =? 2 then Some Fok else None.

Definition unbincode_command (data : list Z) : option InboundCommand :=
  let tag := le_at 0 4 data in
  if tag =? 0 then
    if (length data <? 50)%nat then None
    else
      match side_of_tag (le_at 22 4 data), ot_of_tag (le_at 42 4 data), tif_of_tag (le_at 46 4 data) with
      | Some side, Some ot, Some tif =>
          Some (Inbound_NewOrder (le_at 4 8 data) (le_at 12 8 data) (le_at 20 2 data) side
                  (wrap_i64 (le_at 26 8 data)) (le_at 34 8 data) ot tif)
      | _, _, _ => None
      end
  else if tag =? 1 then
    if (length data <? 20)%nat then None else Some (Inbound_Cancel (le_at 4 8 data) (le_at 12 8 data))
  else if tag =? 2 then
    if (length data <? 14)%nat then None else Some (Inbound_Liquidate (le_at 4 2 data) (le_at 6 8 data))
  else if tag =? 3 then
    if (length data <? 12)%nat then None else Some (Inbound_FreezeAccount (le_at 4 8 data))
  else None.

#[local] Instance bincode : WalCodec := {|
  crc32 := crc_32;
  serialise_command := bincode_command;
  deserialise_command := unbincode_command;
  serialise_event _ := Err Serialise;
  deserialise_event _ := None;
  page_offset off := Nat.modulo off 4096
|}.

Definition CAPACITY : nat := 2048.

(** ** log.rs *)

Module LogTests.
Definition dummy_sc (seq : Z) : SequencedCommand :=
  mkSC 1 seq (seq * 1000) (Inbound_NewOrder 1 0 0 Buy 10000000000 100000000 Limit Gtc).

(** [writer.append(..).unwrap()]; [sync_on_write] is off. *)
Definition append_ok (sc : SequencedCommand) (w : FileWalWriter) : Exec FileWalWriter :=
  let '(r, w) := append true sc w in
  let! _ := unwrap r in
  Val w.

Definition open_ok (file : list Z) (capacity : nat) : Exec FileWalWriter :=
  let! r := open file (mkWalConfig capacity false) in
  unwrap r.

(** [for i in 1..=n { writer.append(&dummy_sc(i)).unwrap(); }]. *)
Definition append_n (n : nat) (w : FileWalWriter) : Exec FileWalWriter :=
  for_each (List.seq 1 n) (fun i w => append_ok (dummy_sc (Z.of_nat i)) w) w.

Definition write_and_scan : Exec unit :=
  let! writer := open_ok [] CAPACITY in
  let! writer := append_n 5 writer in
  assert! last_seq writer =? 5 ;;
  let! writer2 := open_ok (mmap writer) CAPACITY in
  assert! last_seq writer2 =? 5 ;;
  assert! (FILE_HEADER_SIZE <? cursor writer2)%nat ;;
  Val tt.

Definition capacity_exhausted_error : Exec unit :=
  let! writer := open_ok [] (FILE_HEADER_SIZE + 64) in
  let '(_, writer) := append true (dummy_sc 1) writer in
  let '(result, writer) := append true (dummy_sc 2) writer in
  match result with
  | Err e => assert! match e with CapacityExhausted _ _ => true | _ => false end ;; Val tt
  | Ok _ => Val tt
  end.

Definition align8_correctness : Exec unit :=
  assert! (align8 0 =? 0)%nat ;;
  assert! (align8 1 =? 8)%nat ;;
  assert! (align8 8 =? 8)%nat ;;
  assert! (align8 9 =? 16)%nat ;;
  assert! (align8 24 =? 24)%nat ;;
  assert! (align8 25 =? 32)%nat ;;
  Val tt.
End LogTests.

(** ** snapshot.rs *)

Module SnapshotTests.
Definition write_ok (shard_id seq ts_ns : Z) (bytes : list Z) (d : Dir) : Exec (list Z * Dir) :=
  let '(r, d) := snapshot_write crc_32 CAPACITY IoDone shard_id seq ts_ns bytes d in
  let! path := unwrap r in
  Val (path, d).

(** The bytes of a file of the directory. *)
Definition file_at (path : list Z) (d : Dir) : Exec (list Z) :=
  expect (option_map snd (List.find (fun f => bool_decide (fst f = path)) d)).

Definition hello : list Z := text "hello snapshot world".

Definition write_and_read_snapshot : Exec unit :=
  let! '(path, d) := write_ok 0 42 999 hello [] in
  let! file := file_at path d in
  let! snap := unwrap (read_snapshot crc_32 file) in
  assert! sm_shard_id (meta snap) =? 0 ;;
  assert! sm_seq (meta snap) =? 42 ;;
  assert! sm_ts_ns (meta snap) =? 999 ;;
  assert! payload snap =! hello ;;
  Val tt.

Definition latest_snapshot_finds_newest : Exec unit :=
  let! '(_, d) := write_ok 0 10 0 (text "snap at seq 10") [] in
  let! '(_, d) := write_ok 0 100 0 (text "snap at seq 100") d in
  let! '(_, d) := write_ok 0 50 0 (text "snap at seq 50") d in
  let! found := unwrap (latest_snapshot crc_32 (Some d) 0) in
  let! snap := expect found in
  assert! sm_seq (meta snap) =? 100 ;;
  Val tt.

(** [data[i] ^= 0xFF]: an index out of range panics. *)
Definition flip (i : nat) (data : list Z) : Exec (list Z) :=
  let! b := index_list data i in
  Val (<[i := Z.lxor b 255]> data).

Definition crc_mismatch_detected : Exec unit :=
  let! '(path, d) := write_ok 1 1 0 (text "good payload") [] in
  let! data := file_at path d in
  let! data := flip SNAP_HEADER_SIZE data in
  let! err := unwrap_err (read_snapshot crc_32 data) in
  assert! match err with Crc32Mismatch _ _ => true | _ => false end ;;
  Val tt.

Definition no_snapshot_returns_none : Exec unit :=
  let! result := unwrap (latest_snapshot crc_32 (Some []) 99) in
  assert! is_none result ;;
  Val tt.
End SnapshotTests.

(** ** recovery.rs *)

Module RecoveryTests.
Import LogTests.

Definition recover_ok (file : list Z) (snaps : option Dir) : Exec RecoveryOutput :=
  let! r := recover (Some file) snaps 0 in
  unwrap r.

Definition recover_all_from_wal_no_snapshot : Exec unit :=
  let! writer := open_ok [] CAPACITY in
  let! writer := append_n 5 writer in
  let! out := recover_ok (mmap writer) None in
  assert! ro_snapshot_seq out =? 0 ;;
  assert! (length (ro_commands out) =? 5)%nat ;;
  assert! last_recovered_seq out =? 5 ;;
  assert! (ro_corrupt_records out =? 0)%nat ;;
  assert! (ro_seq_gaps out =? 0)%nat ;;
  Val tt.

Definition recover_skips_commands_before_snapshot : Exec unit :=
  let! writer := open_ok [] CAPACITY in
  let! writer := append_n 10 writer in
  let! '(_, snaps) := SnapshotTests.write_ok 0 7 0 (text "fake shard state") [] in
  let! out := recover_ok (mmap writer) (Some snaps) in
  assert! ro_snapshot_seq out =? 7 ;;
  assert! (length (ro_commands out) =? 3)%nat ;;
  let! first := index_list (ro_commands out) 0 in
  assert! sc_seq first =? 8 ;;
  assert! last_recovered_seq out =? 10 ;;
  Val tt.

Definition corrupt_tail_stops_recovery : Exec unit :=
  let! writer := open_ok [] CAPACITY in
  let! writer := append_n 4 writer in
  let cursor := cursor writer in
  let! data := if (10 <? cursor)%nat then SnapshotTests.flip (cursor - 10) (mmap writer) else Val (mmap writer) in
  let! out := recover_ok data None in
  assert! (length (ro_commands out) <=? 3)%nat ;;
  assert! (1 <=? ro_corrupt_records out)%nat ;;
  Val tt.

Definition wal_not_found_error : Exec unit :=
  let! result := recover None None 0 in
  assert! match result with Err WalNotFound => true | _ => false end ;;
  Val tt.
End RecoveryTests.

(** ** pmem.rs *)

Module PmemTests.
Import Pmem.
(** The page-aligned address of the map and a processor with [clflushopt]. *)
Definition base : Z := 4096.
Definition ebx : Z := 8388608.

Definition sample_cmd (seq : Z) : SequencedCommand :=
  mkSC 1 seq 0 (Inbound_NewOrder 1 seq 0 Buy 10000000000 1000000000 Limit Gtc).

Definition open_ok (file : list Z) : Exec PmemWalWriter :=
  let! r := pmem_open base ebx file (mkWalConfig CAPACITY true) in
  unwrap r.

Definition append_ok (sc : SequencedCommand) (w : PmemWalWriter) : Exec PmemWalWriter :=
  let! '(r, w) := pmem_append base sc w in
  let! _ := unwrap r in
  Val w.

(** Reopening reads what is durable. *)
Definition append_and_reopen_recovers_last_seq : Exec unit :=
  let! w := open_ok [] in
  let! w := append_ok (sample_cmd 1) w in
  let! w := append_ok (sample_cmd 2) w in
  assert! p_last_seq w =? 2 ;;
  let! w2 := open_ok (pm_dur (p_mem w)) in
  assert! p_last_seq w2 =? 2 ;;
  Val tt.

Definition sequence_numbers_must_increase : Exec unit :=
  let! w := open_ok [] in
  let! _ := append_ok (sample_cmd 5) w in
  Val tt.
End PmemTests.

Lemma wal_tests_pass :
  all_pass [LogTests.write_and_scan; LogTests.capacity_exhausted_error; LogTests.align8_correctness;
    SnapshotTests.write_and_read_snapshot; SnapshotTests.latest_snapshot_finds_newest;
    SnapshotTests.crc_mismatch_detected; SnapshotTests.no_snapshot_returns_none;
    RecoveryTests.recover_all_from_wal_no_snapshot; RecoveryTests.recover_skips_commands_before_snapshot;
    RecoveryTests.corrupt_tail_stops_recovery; RecoveryTests.wal_not_found_error;
    PmemTests.append_and_reopen_recovers_last_seq; PmemTests.sequence_numbers_must_increase] = true.
Proof. vm_compute. reflexivity. Qed.

(** ** log_entry.rs *)

(** What [DefaultHasher] computes is not specified; any function will do. *)
Definition hash (cmd : InboundCommand) : Z :=
  match bincode_command cmd with Ok bytes => crc_32 bytes * two32 + crc_32 (0 :: bytes) | Err _ => 0 end.

Module LogEntryTests.
Definition sample_cmd : InboundCommand := Inbound_NewOrder 1 42 0 Buy 10000000000 1000000000 Limit Gtc.
Definition entry : LogEntry := LogEntry_new hash 1 1 1000 sample_cmd.

Definition new_entry_starts_pending : Exec unit :=
  assert! load_status entry =! Pending ;;
  assert! en_handled_by entry =? 0 ;;
  Val tt.

Definition try_claim_pending_to_addressed_succeeds_once : Exec unit :=
  let '(won, entry) := try_claim Pending Addressed entry in
  assert! won ;;
  assert! load_status entry =! Addressed ;;
  let '(won, entry) := try_claim Pending Addressed entry in
  assert! negb won ;;
  Val tt.

Definition try_claim_pending_to_unaddressed_succeeds_once : Exec unit :=
  let '(won, entry) := try_claim Pending Unaddressed entry in
  assert! won ;;
  assert! load_status entry =! Unaddressed ;;
  let '(won, entry) := try_claim Pending Unaddressed entry in
  assert! negb won ;;
  Val tt.

Definition unaddressed_to_finally_handled : Exec unit :=
  let '(won, entry) := try_claim Pending Unaddressed entry in
  assert! won ;;
  let '(won, entry) := try_claim Unaddressed FinallyHandled entry in
  assert! won ;;
  assert! load_status entry =! FinallyHandled ;;
  Val tt.

Definition primary_and_sorter_race_only_one_wins : Exec unit :=
  let '(primary_wins, entry) := try_claim Pending Addressed entry in
  let '(sorter_wins, entry) := try_claim Pending Unaddressed entry in
  assert! xorb primary_wins sorter_wins ;;
  Val tt.

Definition checksum_verification : Exec unit :=
  assert! verify_checksum hash entry ;;
  Val tt.

Definition record_fill_stores_atomically : Exec unit :=
  let entry := record_fill 1 2000 10000000000 1000000000 entry in
  assert! en_handled_by entry =? 1 ;;
  assert! en_timestamp_out entry =? 2000 ;;
  assert! en_fill_price entry =? 10000000000 ;;
  assert! en_filled_qty entry =? 1000000000 ;;
  Val tt.

Definition age_calculation : Exec unit :=
  assert! age_ns 1500 entry =? 500 ;;
  assert! age_ns 500 entry =? 0 ;;
  Val tt.
End LogEntryTests.

(** ** pending_ring.rs *)

Module RingTests.
Import GmapSkipMap.

(** The heap of the test's entries and the ring. *)
Definition St : Type := Heap * PendingRing.
Definition empty : St := ([], PendingRing_new).

Definition sample_entry (seq : Z) : LogEntry :=
  LogEntry_new hash seq 1 (seq * 1000) (Inbound_NewOrder 1 seq 0 Buy 10000000000 1000000000 Limit Gtc).

(** [let e = sample_entry(seq)], [e.try_claim(..)] and [ring.push(e)]. *)
Definition entry (seq : Z) (h : Heap) : Arc * Heap := arc_new (sample_entry seq) h.
Definition push (p : Arc) (s : St) : St := (s.1, ring_push s.1 p s.2).
Definition claim (from to : OrderStatus) (p : Arc) (h : Heap) : Heap := snd (arc_claim from to p h).
Definition push_new (seq : Z) (s : St) : St :=
  let '(p, h) := entry seq s.1 in push p (h, s.2).

Definition push_and_next_pending : Exec unit :=
  assert! ring_is_empty (snd empty) ;;
  let s := push_new 2 (push_new 1 empty) in
  assert! ring_len s.2 =? 2 ;;
  let! next := expect (next_pending s.1 s.2) in
  assert! seq_of s.1 next =? 1 ;;
  Val tt.

Definition next_pending_skips_addressed : Exec unit :=
  let '(e1, h) := entry 1 [] in
  let '(e2, h) := entry 2 h in
  let h := claim Pending Addressed e1 h in
  let s := push e2 (push e1 (h, PendingRing_new)) in
  let! next := expect (next_pending s.1 s.2) in
  assert! seq_of s.1 next =? 2 ;;
  Val tt.

Definition remove_by_seq : Exec unit :=
  let s := push_new 3 (push_new 2 (push_new 1 empty)) in
  let '(removed, ring) := ring_remove 2 s.2 in
  assert! removed ;;
  assert! ring_len ring =? 2 ;;
  let '(removed, ring) := ring_remove 2 ring in
  assert! negb removed ;;
  Val tt.

Definition snapshot_returns_all : Exec unit :=
  let s := foldl (fun s i => push_new (Z.of_nat i) s) empty (List.seq 1 5) in
  let snap := ring_snapshot s.2 in
  assert! (length snap =? 5)%nat ;;
  let! e0 := index_list snap 0 in
  assert! seq_of s.1 e0 =? 1 ;;
  let! e4 := index_list snap 4 in
  assert! seq_of s.1 e4 =? 5 ;;
  Val tt.

Definition gc_terminal_removes_handled : Exec unit :=
  let '(e1, h) := entry 1 [] in
  let '(e2, h) := entry 2 h in
  let '(e3, h) := entry 3 h in
  let h := claim Pending Addressed e1 h in
  let h := claim Pending Unaddressed e3 h in
  let h := claim Unaddressed FinallyHandled e3 h in
  let s := push e3 (push e2 (push e1 (h, PendingRing_new))) in
  let '(removed, ring) := gc_terminal s.1 s.2 in
  assert! removed =? 2 ;;
  assert! ring_len ring =? 1 ;;
  Val tt.

(** The removals of several threads are some sequence of removals: thread [t]
    of eight removes the keys congruent to it.  [order] is the order in which
    the calls took effect, so the test holds for every interleaving. *)
Fixpoint remove_each (order : list Z) (ring : PendingRing) (total_removed : Z) : Z * PendingRing :=
  match order with
  | [] => (total_removed, ring)
  | seq :: order =>
      let '(removed, ring) := ring_remove seq ring in
      remove_each order ring (if removed then total_removed + 1 else total_removed)
  end.

Definition filled (n : nat) : St := foldl (fun s i => push_new (Z.of_nat i) s) empty (List.seq 0 n).

Definition concurrent_removal (n : nat) (order : list Z) : Exec unit :=
  let s := filled n in
  assert! ring_len s.2 =? Z.of_nat n ;;
  let '(total_removed, ring) := remove_each order s.2 0 in
  assert! total_removed =? Z.of_nat n ;;
  assert! ring_len ring =? 0 ;;
  assert! ring_is_empty ring ;;
  Val tt.
End RingTests.

(** ** dual_log.rs *)

Module DualLogTests.
Import GmapSkipMap.
Definition sample_cmd : InboundCommand := LogEntryTests.sample_cmd.

Definition mk_dual_log : Exec DualState :=
  let config := mkDualLogConfig (mkWalConfig CAPACITY false) (mkWalConfig CAPACITY false) in
  let! r := dual_open [] [] config in
  let! dl := unwrap r in
  Val (mkDualState dl [] PendingRing_new).

(** [dl.write(term, seq, cmd).unwrap()]. *)
Definition write_ok (term seq : Z) (s : DualState) : Exec (Arc * DualState) :=
  let '(r, s) := dual_write hash (mkWriteCall true true (seq * 1000) term seq sample_cmd) s in
  let! entry := unwrap r in
  Val (entry, s).

Definition write_populates_both_logs_and_pending_ring : Exec unit :=
  let! dl := mk_dual_log in
  let! '(entry, dl) := write_ok 1 1 dl in
  assert! status_of (ds_heap dl) entry =! Pending ;;
  assert! seq_of (ds_heap dl) entry =? 1 ;;
  assert! ring_len (ds_ring dl) =? 1 ;;
  let '(seq_a, seq_b) := last_seqs (ds_log dl) in
  assert! seq_a =? 1 ;;
  assert! seq_b =? 1 ;;
  Val tt.

Definition sequence_numbers_are_monotonic : Exec unit :=
  let! dl := mk_dual_log in
  let! '(e1, dl) := write_ok 1 1 dl in
  let! '(e2, dl) := write_ok 1 2 dl in
  let! '(e3, dl) := write_ok 1 3 dl in
  assert! seq_of (ds_heap dl) e1 =? 1 ;;
  assert! seq_of (ds_heap dl) e2 =? 2 ;;
  assert! seq_of (ds_heap dl) e3 =? 3 ;;
  assert! ring_len (ds_ring dl) =? 3 ;;
  Val tt.

Definition multiple_writes_produce_correct_cursors : Exec unit :=
  let! dl := mk_dual_log in
  let! dl := for_each (List.seq 1 9) (fun i dl => let! '(_, dl) := write_ok 1 (Z.of_nat i) dl in Val dl) dl in
  let '(ca, cb) := cursors (ds_log dl) in
  assert! (32 <? ca)%nat ;;
  assert! (32 <? cb)%nat ;;
  assert! (ca =? cb)%nat ;;
  Val tt.
End DualLogTests.

Lemma dual_log_tests_pass :
  all_pass [LogEntryTests.new_entry_starts_pending; LogEntryTests.try_claim_pending_to_addressed_succeeds_once;
    LogEntryTests.try_claim_pending_to_unaddressed_succeeds_once; LogEntryTests.unaddressed_to_finally_handled;
    LogEntryTests.primary_and_sorter_race_only_one_wins; LogEntryTests.checksum_verification;
    LogEntryTests.record_fill_stores_atomically; LogEntryTests.age_calculation; RingTests.push_and_next_pending;
    RingTests.next_pending_skips_addressed; RingTests.remove_by_seq; RingTests.snapshot_returns_all;
    RingTests.gc_terminal_removes_handled; DualLogTests.write_populates_both_logs_and_pending_ring;
    DualLogTests.sequence_numbers_are_monotonic; DualLogTests.multiple_writes_produce_correct_cursors] = true.
Proof. vm_compute. reflexivity. Qed.

(** *** The concurrent test holds in every interleaving *)

Module RingConcurrent.
Import GmapSkipMap RingTests.

Lemma remove_each_all order (r : PendingRing) total :
  NoDup order -> (forall k, k ∈ order -> exists p, in_ring r k p) ->
  pr_len r = Z.of_nat (length order) -> Z.of_nat (length order) < two64 ->
  exists r', remove_each order r total = (total + Z.of_nat (length order), r') /\ pr_len r' = 0.
Proof.
  revert r total. induction order as [|k order IH]; intros r total Hnd Hin Hlen Hb; cbn [remove_each length] in *.
  { exists r. split; [f_equal; lia|done]. }
  apply NoDup_cons in Hnd as [Hk Hnd]. destruct (Hin k) as [p Hp]; [left|].
  assert (Hr : ring_remove k r = (true, mkRing (sk_remove k (pr_map r)).2 (Z.of_nat (length order)))).
  { unfold ring_remove. apply sk_remove_found in Hp. destruct (sk_remove k (pr_map r)) as [o m]. simpl in Hp.
    rewrite Hp. f_equal. f_equal. rewrite Hlen, wrap_u64_id; unfold in_u64; lia. }
  destruct (IH (ring_remove k r).2 (total + 1)) as (r' & He & Hl); [done| |by rewrite Hr|lia|].
  - intros k' Hk'. destruct (Hin k') as [q Hq]; [by right|]. exists q. apply in_ring_remove. split; [done|]. congruence.
  - exists r'. rewrite Hr in He |- *. cbn [snd] in He. rewrite He. split; [f_equal; lia|done].
Qed.

Lemma filled_spec n :
  Z.of_nat n < two64 ->
  length (filled n).1 = n /\ pr_len (filled n).2 = Z.of_nat n
  /\ forall k, 0 <= k < Z.of_nat n -> exists p, in_ring (filled n).2 k p.
Proof.
  induction n as [|n IH]; intros Hb; [split_and!; [done..|lia]|].
  destruct IH as (Hl & Hn & Hk); [lia|]. unfold filled in *. rewrite List.seq_S, foldl_app. simpl.
  set (s := foldl _ empty _) in *. unfold push_new, entry, arc_new, push. cbn [fst snd].
  assert (Hseq : seq_of (s.1 ++ [sample_entry (Z.of_nat n)]) (length s.1) = Z.of_nat n).
  { unfold seq_of. by rewrite lookup_app_r, Nat.sub_diag by lia. }
  split_and!.
  - rewrite length_app. simpl. lia.
  - simpl. rewrite Hn, wrap_u64_id; unfold in_u64; lia.
  - intros k Hr. setoid_rewrite in_ring_push. rewrite Hseq. destruct (decide (k = Z.of_nat n)) as [->|Hne].
    + eexists. by left.
    + destruct (Hk k) as [p Hp]; [lia|]. exists p. by right.
Qed.

Lemma concurrent_removal_from_multiple_threads_is_correct n order :
  Z.of_nat n < two64 -> order ≡ₚ map Z.of_nat (List.seq 0 n) -> concurrent_removal n order = Val tt.
Proof.
  intros Hb Hp. destruct (filled_spec n Hb) as (_ & Hlen & Hkeys).
  assert (Hl : length order = n) by (by rewrite Hp, length_map, length_seq).
  destruct (remove_each_all order (filled n).2 0) as (r' & He & Hr').
  - rewrite Hp. apply (NoDup_fmap_2 Z.of_nat), NoDup_ListNoDup, seq_NoDup.
  - intros k Hk. rewrite Hp in Hk. apply list_elem_of_fmap in Hk as (i & -> & Hi%elem_of_seq). apply Hkeys. lia.
  - by rewrite Hlen, Hl.
  - by rewrite Hl.
  - unfold concurrent_removal, ring_is_empty, ring_len. rewrite Hlen, Z.eqb_refl, He, Hl, Hr', Z.add_0_l, Z.eqb_refl. done.
Qed.
End RingConcurrent.
