(* ===== verification/ConformEscalation.v ===== *)
(** * ConformEscalation: the unit tests of sorter and second-engine *)

From S2P Require Import Prelude TestKit CoreTypes SlotMap OrderBook LogEntry Sorter SecondEngine.
#[local] Open Scope Z_scope.
Import GmapSkipMap GmapSlotMap.

(** The checksum plays no part in these tests. *)
Definition no_hash (_ : InboundCommand) : Z := 0.

(** ** load_monitor.rs *)

Module LoadTests.
Definition orders (n : nat) (mon : LoadMonitor) : LoadMonitor := Nat.iter n report_order mon.
Definition idles (n : nat) (mon : LoadMonitor) : LoadMonitor := Nat.iter n report_idle mon.

Definition zero_activity_returns_zero_load : Exec unit :=
  let mon := LoadMonitor_default in
  assert! primary_load_pct mon =? 0 ;;
  Val tt.

Definition all_orders_returns_100 : Exec unit :=
  let mon := orders 100 LoadMonitor_default in
  assert! primary_load_pct mon =? 100 ;;
  Val tt.

Definition half_and_half_returns_50 : Exec unit :=
  let mon := Nat.iter 50 (fun mon => report_idle (report_order mon)) LoadMonitor_default in
  assert! primary_load_pct mon =? 50 ;;
  Val tt.

Definition reset_clears_counters : Exec unit :=
  let mon := orders 100 LoadMonitor_default in
  assert! primary_load_pct mon =? 100 ;;
  let mon := reset_window mon in
  assert! primary_load_pct mon =? 0 ;;
  Val tt.
End LoadTests.

(** ** leader.rs *)

Module LeaderTests.
Import Leader.

(** The token and the two leaders of [SorterLeader::pair]. *)
Definition two : Exec (bool * SorterLeader * SorterLeader) :=
  let '(token, ls) := pair in
  let! a := index_list ls 0 in
  let! b := index_list ls 1 in
  Val (token, a, b).

Definition only_one_leader_wins : Exec unit :=
  let! '(token, a, b) := two in
  let '(a_wins, token, a) := try_become_leader token a in
  let '(b_wins, token, b) := try_become_leader token b in
  assert! xorb a_wins b_wins ;;
  Val tt.

Definition leader_is_idempotent : Exec unit :=
  let! '(token, a, _) := two in
  let '(won, token, a) := try_become_leader token a in
  assert! won ;;
  let '(won, token, a) := try_become_leader token a in
  assert! won ;;
  assert! is_leader a ;;
  Val tt.

Definition resign_allows_other_to_lead : Exec unit :=
  let! '(token, a, b) := two in
  let '(won, token, a) := try_become_leader token a in
  assert! won ;;
  let '(won, token, b) := try_become_leader token b in
  assert! negb won ;;
  let '(token, a) := resign token a in
  assert! negb (is_leader a) ;;
  let '(won, token, b) := try_become_leader token b in
  assert! won ;;
  assert! is_leader b ;;
  Val tt.

(** Dropping a leader resigns. *)
Definition drop_releases_leadership : Exec unit :=
  let token := false in
  let a := new in
  let '(won, token, a) := try_become_leader token a in
  assert! won ;;
  assert! token ;;
  let '(token, _) := resign token a in
  assert! negb token ;;
  Val tt.
End LeaderTests.

(** ** sorter.rs *)

Module SorterTests.
Definition order_cmd (client_order_id : Z) : InboundCommand :=
  Inbound_NewOrder 1 client_order_id 0 Buy 10000000000 1000000000 Limit Gtc.

(** [0_u64.wrapping_sub(age_ns)]. *)
Definition sample_entry (seq age_ns : Z) : LogEntry :=
  LogEntry_new no_hash seq 1 (wrap_u64 (0 - age_ns)) (order_cmd seq).

(** The ring, the channel with its receiver, and the metrics of the sorter. *)
Definition mk_sorter : Shared * SorterMetrics :=
  (mkShared [] PendingRing_new [] 1, s_metrics Sorter_new).

(** [ring.push(entry)], after the claims [claims] on the entry. *)
Definition push (e : LogEntry) (claims : list (OrderStatus * OrderStatus)) (st : Shared * SorterMetrics) :
    Shared * SorterMetrics :=
  let '(p, h) := arc_new e (sh_heap st.1) in
  let h := foldl (fun h '(from, to) => snd (arc_claim from to p h)) h claims in
  (sh_set_ring (ring_push h p (sh_ring st.1)) (sh_set_heap h st.1), st.2).

(** [rx.try_recv()]. *)
Definition try_recv (sh : Shared) : option Arc := head (sh_chan sh).

(** [now_ns]: what the sorter's clock shows in the scan. *)
Definition scan (now_ns : Z) := scan_once now_ns LoadMonitor_default.

Definition addressed_entries_are_gc_removed (now_ns : Z) : Exec unit :=
  let st := push (sample_entry 1 0) [(Pending, Addressed)] mk_sorter in
  let '(sh, m) := scan now_ns st in
  assert! ring_len (sh_ring sh) =? 0 ;;
  assert! primary_handled m =? 1 ;;
  Val tt.

Definition finally_handled_entries_are_gc_removed (now_ns : Z) : Exec unit :=
  let st := push (sample_entry 1 0) [(Pending, Unaddressed); (Unaddressed, FinallyHandled)] mk_sorter in
  let '(sh, m) := scan now_ns st in
  assert! ring_len (sh_ring sh) =? 0 ;;
  assert! secondary_handled m =? 1 ;;
  Val tt.

(** The scan reads the clock after the entry was stamped with it. *)
Definition recent_pending_entries_are_left_alone (stamp_ns now_ns : Z) : Exec unit :=
  let st := push (LogEntry_new no_hash 1 1 stamp_ns (order_cmd 1)) [] mk_sorter in
  let '(sh, m) := scan now_ns st in
  assert! ring_len (sh_ring sh) =? 1 ;;
  assert! is_none (try_recv sh) ;;
  Val tt.

(** The clock's origin lies one second back. *)
Definition timed_out_pending_entries_are_escalated (now_ns : Z) : Exec unit :=
  let st := push (LogEntry_new no_hash 1 1 0 (order_cmd 1)) [] mk_sorter in
  let '(sh, m) := scan now_ns st in
  let! escalated_entry := expect (try_recv sh) in
  assert! seq_of (sh_heap sh) escalated_entry =? 1 ;;
  assert! status_of (sh_heap sh) escalated_entry =! Unaddressed ;;
  assert! escalated m =? 1 ;;
  Val tt.

Definition adaptive_timeout_varies_with_load : Exec unit :=
  let load := LoadMonitor_default in
  assert! adaptive_timeout load =? 200000 ;;
  let load := LoadTests.idles 25 (LoadTests.orders 75 load) in
  assert! adaptive_timeout load =? 500000 ;;
  let load := reset_window load in
  let load := LoadTests.idles 10 (LoadTests.orders 90 load) in
  assert! adaptive_timeout load =? 1000000 ;;
  Val tt.
End SorterTests.

(** ** second-engine/src/engine.rs *)

Module SecondEngineTests.
Definition SYMBOL : Z := 0.
Definition test_book_configs : list BookConfig := [mkBookConfig SYMBOL 0 1024 256].

Definition sample_entry_for_account (seq : Z) (side : Side) (price account : Z) : LogEntry :=
  LogEntry_new no_hash seq 1 0 (Inbound_NewOrder account seq SYMBOL side price 10 Limit Gtc).
Definition sample_entry (seq : Z) (side : Side) (price : Z) : LogEntry :=
  sample_entry_for_account seq side price 1.

Definition empty : Shared := mkShared [] PendingRing_new [] 1.

(** The entry on the heap, claimed [from] [to]. *)
Definition claimed (e : LogEntry) (from to : OrderStatus) (sh : Shared) : Arc * Shared :=
  let '(p, h) := arc_new e (sh_heap sh) in (p, sh_set_heap (snd (arc_claim from to p h)) sh).
Definition pushed (p : Arc) (sh : Shared) : Shared := sh_set_ring (ring_push (sh_heap sh) p (sh_ring sh)) sh.

Definition process_single_matches_and_records_fill : Exec unit :=
  let books := build_books test_book_configs in
  let '(resting, sh) := claimed (sample_entry_for_account 1 Sell 100 1) Pending Unaddressed empty in
  let! '(handled, sh, books) := process_single resting (pushed resting sh) books in
  assert! handled ;;
  let '(aggressor, sh) := claimed (sample_entry_for_account 2 Buy 100 2) Pending Unaddressed sh in
  let! '(handled, sh, books) := process_single aggressor (pushed aggressor sh) books in
  assert! handled ;;
  let! e := expect (sh_heap sh !! aggressor) in
  assert! load_status e =! FinallyHandled ;;
  assert! en_fill_price e =? 100 ;;
  assert! en_filled_qty e =? 10 ;;
  Val tt.

Definition process_single_skips_addressed : Exec unit :=
  let books := build_books test_book_configs in
  let '(p, sh) := claimed (sample_entry 1 Buy 100) Pending Addressed empty in
  let! '(handled, _, _) := process_single p sh books in
  assert! negb handled ;;
  Val tt.

Definition process_single_skips_pending : Exec unit :=
  let books := build_books test_book_configs in
  let '(p, h) := arc_new (sample_entry 1 Buy 100) [] in
  let! '(handled, _, _) := process_single p (sh_set_heap h empty) books in
  assert! negb handled ;;
  Val tt.

(** Two workers with their own books; [first] says for each entry of the
    channel whether the first or the second worker received it. *)
Fixpoint pool (first : list bool) (sh : Shared) (b1 b2 : gmap Z OrderBook) (m : SecondEngineMetrics) : Exec Shared :=
  match sh_chan sh with
  | [] => Val sh
  | p :: chan =>
      match first with
      | [] => OutOfFuel
      | true :: first =>
          let! '(sh, b1, m) := worker_handle 0 p (sh_set_chan chan sh) b1 m in pool first sh b1 b2 m
      | false :: first =>
          let! '(sh, b2, m) := worker_handle 0 p (sh_set_chan chan sh) b2 m in pool first sh b1 b2 m
      end
  end.

Definition escalate (sh : Shared) (i : nat) : Shared :=
  let '(p, sh) := claimed (sample_entry (Z.of_nat i) Buy 100) Pending Unaddressed sh in
  chan_send p (pushed p sh).

Definition worker_pool_processes_escalated_orders (first : list bool) : Exec unit :=
  let config := mkSecondConfig 2 test_book_configs in
  let books := start_books config in
  let! b1 := index_list books 0 in
  let! b2 := index_list books 1 in
  let sh := foldl escalate empty (List.seq 1 10) in
  let! sh := pool first sh b1 b2 SecondEngineMetrics_default in
  assert! ring_is_empty (sh_ring sh) ;;
  Val tt.
End SecondEngineTests.

(** Every way to deal [n] entries to the two workers. *)
Fixpoint deals (n : nat) : list (list bool) :=
  match n with
  | O => [[]]
  | S n' => map (cons true) (deals n') ++ map (cons false) (deals n')
  end.

Lemma escalation_tests_pass :
  all_pass ([LoadTests.zero_activity_returns_zero_load; LoadTests.all_orders_returns_100;
    LoadTests.half_and_half_returns_50; LoadTests.reset_clears_counters; LeaderTests.only_one_leader_wins;
    LeaderTests.leader_is_idempotent; LeaderTests.resign_allows_other_to_lead; LeaderTests.drop_releases_leadership;
    SorterTests.addressed_entries_are_gc_removed 1000; SorterTests.finally_handled_entries_are_gc_removed 1000;
    SorterTests.recent_pending_entries_are_left_alone 1000 2000; SorterTests.timed_out_pending_entries_are_escalated 1000000000;
    SorterTests.adaptive_timeout_varies_with_load; SecondEngineTests.process_single_matches_and_records_fill;
    SecondEngineTests.process_single_skips_addressed; SecondEngineTests.process_single_skips_pending]) = true.
Proof. vm_compute. reflexivity. Qed.

(** All 1024 deals of the ten entries. *)
Lemma worker_pool_tests_pass :
  all_pass (map SecondEngineTests.worker_pool_processes_escalated_orders (deals 10)) = true.
Proof. vm_compute. reflexivity. Qed.

(** The two tests that read a clock hold for every reading the test allows. *)
Lemma recent_left_alone_always stamp_ns now_ns :
  now_ns <= stamp_ns + 200000 -> SorterTests.recent_pending_entries_are_left_alone stamp_ns now_ns = Val tt.
Proof.
  intros H. unfold SorterTests.recent_pending_entries_are_left_alone, SorterTests.scan, scan_once.
  replace (ring_snapshot _) with [0%nat] by (vm_compute; reflexivity).
  replace (adaptive_timeout _) with 200000 by (vm_compute; reflexivity). cbn [foldl]. unfold scan_entry. simpl.
  unfold age_ns, saturating_sub_u64. simpl.
  rewrite (proj2 (Z.ltb_ge _ _)) by lia.
  rewrite (proj2 (Z.ltb_ge _ _)) by (unfold CRITICAL_TIMEOUT_NS; lia). reflexivity.
Qed.

Lemma timed_out_escalated_always now_ns :
  1000000000 <= now_ns -> SorterTests.timed_out_pending_entries_are_escalated now_ns = Val tt.
Proof.
  intros H. unfold SorterTests.timed_out_pending_entries_are_escalated, SorterTests.scan, scan_once.
  replace (ring_snapshot _) with [0%nat] by (vm_compute; reflexivity).
  replace (adaptive_timeout _) with 200000 by (vm_compute; reflexivity). cbn [foldl]. unfold scan_entry. simpl.
  unfold age_ns, saturating_sub_u64. simpl.
  rewrite (proj2 (Z.ltb_lt _ _)) by lia. reflexivity.
Qed.
