(* ===== verification/ConformGateway.v ===== *)
(** * ConformGateway: the unit tests of the gateway

    codec.rs, session.rs, market_data.rs and server.rs.  A [BytesMut] is its
    list of bytes; the capacity a buffer reserves is not observable in the
    model, so the one assertion on [capacity()] is left out. *)

From stdpp Require Import strings.
From S2P Require Import Prelude TestKit CoreTypes Bytes RingBuffer Fifo Codec Session MarketData Server.
#[local] Open Scope list_scope.
#[local] Open Scope Z_scope.
Import SessionDemo.

Definition put_u64_le (x : Z) (b : list Z) : list Z := b ++ le_bytes 8 x.
Definition put_i64_le (x : Z) (b : list Z) : list Z := b ++ le_bytes 8 (wrap_u64 x).
Definition put_u32_le (x : Z) (b : list Z) : list Z := b ++ le_bytes 4 x.
Definition put_u8 (x : Z) (b : list Z) : list Z := b ++ le_bytes 1 x.

(** [codec.encode(ty, payload, &mut out).unwrap()] and
    [codec.decode(&mut buf).unwrap()]. *)
Definition encode_ok (ty : Z) (payload out : list Z) : Exec (list Z) :=
  let '(r, out) := encode ty payload out in let! _ := unwrap r in Val out.
Definition decode_ok (buf : list Z) : Exec (option Frame * list Z) :=
  let '(r, buf) := decode buf in let! f := unwrap r in Val (f, buf).

(** ** codec.rs *)

Module CodecTests.
Definition hello : list Z := [104; 101; 108; 108; 111].

Definition encode_then_decode_roundtrip : Exec unit :=
  let! buf := encode_ok 1 hello [] in
  let! '(frame, buf) := decode_ok buf in
  let! frame := expect frame in
  assert! fr_type frame =? 1 ;;
  assert! fr_payload frame =! hello ;;
  assert! buf =! [] ;;
  Val tt.

Definition decode_incomplete_header_returns_none : Exec unit :=
  let! '(frame, buf) := decode_ok [5; 0] in
  assert! is_none frame ;;
  assert! length buf =! 2%nat ;;
  Val tt.

Definition decode_incomplete_body_returns_none_and_reserves : Exec unit :=
  let! '(frame, buf) := decode_ok (put_u32_le 10 [] ++ [1; 2; 3; 4]) in
  assert! is_none frame ;;
  assert! length buf =! 8%nat ;;
  Val tt.

(** The two [matches!] are statements whose value the tests drop. *)
Definition decode_rejects_oversized_frame : Exec unit :=
  let! _ := unwrap_err (fst (decode (put_u32_le (MAX_FRAME_LEN + 1) []))) in
  Val tt.

Definition decode_rejects_zero_length : Exec unit :=
  let! _ := unwrap_err (fst (decode (put_u32_le 0 []))) in
  Val tt.

Definition multiple_frames_in_one_buffer : Exec unit :=
  let! buf := encode_ok 1 [97] [] in
  let! buf := encode_ok 2 [98; 98] buf in
  let! '(f1, buf) := decode_ok buf in
  let! f1 := expect f1 in
  assert! fr_type f1 =? 1 ;;
  assert! fr_payload f1 =! [97] ;;
  let! '(f2, buf) := decode_ok buf in
  let! f2 := expect f2 in
  assert! fr_type f2 =? 2 ;;
  assert! fr_payload f2 =! [98; 98] ;;
  assert! buf =! [] ;;
  Val tt.
End CodecTests.

(** What the two dropped [matches!] would have checked. *)
Lemma codec_rejections :
  fst (decode (put_u32_le (MAX_FRAME_LEN + 1) [])) = Err (FrameTooLarge (MAX_FRAME_LEN + 1))
  /\ fst (decode (put_u32_le 0 [])) = Err FrameTooShort.
Proof. split; vm_compute; reflexivity. Qed.

(** ** session.rs *)

Module SessionTests.
Definition make_session : Session := Session_new 1 42 fifo_new.

Definition encode_new_order_payload (coid instr side otype price qty tif : Z) : list Z :=
  put_u8 tif (put_u64_le qty (put_i64_le price (put_u8 otype (put_u8 side (put_u64_le instr (put_u64_le coid [])))))).

(** [session.handle_inbound(&mut wire).unwrap()]. *)
Definition inbound_ok (wire : list Z) (s : Session) : Exec (option SessionAction * Session) :=
  let! '(r, s, _) := handle_inbound wire s in let! a := unwrap r in Val (a, s).

Definition new_order_roundtrip_enqueues_command : Exec unit :=
  let payload := encode_new_order_payload 7 1 0 0 10050 5 0 in
  let! wire := encode_ok NEW_ORDER payload [] in
  let! '(action, session) := inbound_ok wire make_session in
  assert! is_none action ;;
  let! '(cmd, _) := fifo_pop (cmd_producer session) in
  let! cmd := expect cmd in
  match cmd with
  | Inbound_NewOrder account client_order_id symbol side price qty order_type _ =>
      assert! account =? 42 ;;
      assert! symbol =? 1 ;;
      assert! client_order_id =? 7 ;;
      assert! side =! Buy ;;
      assert! qty =? 5 ;;
      assert! order_type =! Limit ;;
      assert! price =? 10050 ;;
      Val tt
  | _ => Panic
  end.

Definition rejects_zero_quantity : Exec unit :=
  let payload := encode_new_order_payload 1 1 0 0 100 0 0 in
  let! wire := encode_ok NEW_ORDER payload [] in
  let! '(r, _, _) := handle_inbound wire make_session in
  let! _ := unwrap_err r in
  Val tt.

Definition subscribe_and_unsubscribe : Exec unit :=
  let payload := put_u64_le 99 [] in
  let! wire := encode_ok SUBSCRIBE_MD payload [] in
  let! '(_, session) := inbound_ok wire make_session in
  assert! bool_decide (99 ∈ subscriptions session) ;;
  let! wire2 := encode_ok UNSUBSCRIBE_MD payload [] in
  let! '(_, session) := inbound_ok wire2 session in
  assert! bool_decide (99 ∉ subscriptions session) ;;
  Val tt.

Definition order_mapping_lookup : Exec unit :=
  let session := record_order_mapping 5 1000 make_session in
  assert! client_order_id_for map_to_list 1000 session =! Some 5 ;;
  assert! client_order_id_for map_to_list 9999 session =! None ;;
  Val tt.

Definition accepted_for (account : Z) : Event := Event_Accepted SequenceNo.FIRST 1 55 account 7 Buy 100 5.

Definition encode_accepted_event_for_own_account : Exec unit :=
  let '(r, out) := encode_event (accepted_for 42) [] make_session in
  let! written := unwrap r in
  assert! written ;;
  assert! negb (out =! []) ;;
  Val tt.

Definition does_not_encode_event_for_other_account : Exec unit :=
  let '(r, out) := encode_event (accepted_for 999) [] make_session in
  let! written := unwrap r in
  assert! negb written ;;
  assert! out =! [] ;;
  Val tt.
End SessionTests.

(** ** market_data.rs *)

Module MarketDataTests.
Import ListBroadcast.

Definition hub : gmap Z (Ch (E := MarketDataEvent)) := MarketDataHub_new.

Definition publish_with_no_subscribers_is_noop : Exec unit :=
  let hub := publish (MdTrade 1 100 1 Buy) hub in
  assert! active_instrument_count hub =! 0%nat ;;
  Val tt.

(** No other task holds the lock between the two of [subscribe]. *)
Definition subscribe_then_publish_delivers_event : Exec unit :=
  let '(rx, hub) := hub_subscribe (fun h => h) 1 hub in
  let hub := publish (TopOfBook 1 (Some (99, 10)) (Some (101, 5))) hub in
  match fst (hub_recv 1 rx hub) with
  | Some (RecvOk (TopOfBook _ best_bid best_ask)) =>
      assert! best_bid =! Some (99, 10) ;;
      assert! best_ask =! Some (101, 5) ;;
      Val tt
  | _ => Panic
  end.

Definition subscription_registry_basic : Exec unit :=
  let reg := registry_add 1 2 (registry_add 1 1 ∅) in
  assert! subscriber_count 1 reg =! 2%nat ;;
  let reg := registry_remove 1 1 reg in
  assert! subscriber_count 1 reg =! 1%nat ;;
  let reg := registry_remove 1 2 reg in
  assert! subscriber_count 1 reg =! 0%nat ;;
  Val tt.
End MarketDataTests.

(** ** server.rs *)

Module ServerTests.
(** The client writes [auth_frame] and [order_frame]; the socket hands them to
    the server cut into [reads], and then ends. *)
Definition client_bytes : Exec (list Z) :=
  let! auth_frame := encode_ok 0 (put_u64_le 42 []) [] in
  let order_payload := SessionTests.encode_new_order_payload 1 5 0 0 10000 3 0 in
  let! order_frame := encode_ok NEW_ORDER order_payload [] in
  Val (auth_frame ++ order_frame).

Definition auth_then_new_order_enqueues_command (reads : list SocketRead) : Exec unit :=
  let! r := handle_connection ServerDemo.up (fun _ q => q) reads 1 fifo_new in
  let! '(_, c) := unwrap r in
  let! '(cmd, _) := fifo_pop (cmd_producer (cn_session c)) in
  let! cmd := expect cmd in
  match cmd with
  | Inbound_NewOrder account client_order_id symbol side price qty order_type time_in_force =>
      assert! account =? 42 ;;
      assert! symbol =? 5 ;;
      assert! client_order_id =? 1 ;;
      assert! side =! Buy ;;
      assert! qty =? 3 ;;
      assert! time_in_force =! Gtc ;;
      assert! order_type =! Limit ;;
      assert! price =? 10000 ;;
      Val tt
  | _ => Panic
  end.

(** Every cut of the stream into two reads, and one byte at a time. *)
Definition cuts (bytes : list Z) : list (list SocketRead) :=
  map (fun b => Data [b]) bytes
    :: [Data bytes]
    :: map (fun k => [Data (take k bytes); Data (drop k bytes)]) (seq 1 (length bytes - 1)).

Definition every_cut : Exec unit :=
  let! bytes := client_bytes in
  for_each (cuts bytes) (fun reads _ => auth_then_new_order_enqueues_command reads) tt.
End ServerTests.

Lemma gateway_tests_pass :
  all_pass
    [CodecTests.encode_then_decode_roundtrip; CodecTests.decode_incomplete_header_returns_none;
     CodecTests.decode_incomplete_body_returns_none_and_reserves; CodecTests.decode_rejects_oversized_frame;
     CodecTests.decode_rejects_zero_length; CodecTests.multiple_frames_in_one_buffer;
     SessionTests.new_order_roundtrip_enqueues_command; SessionTests.rejects_zero_quantity;
     SessionTests.subscribe_and_unsubscribe; SessionTests.order_mapping_lookup;
     SessionTests.encode_accepted_event_for_own_account; SessionTests.does_not_encode_event_for_other_account;
     MarketDataTests.publish_with_no_subscribers_is_noop; MarketDataTests.subscribe_then_publish_delivers_event;
     MarketDataTests.subscription_registry_basic] = true.
Proof. vm_compute. reflexivity. Qed.

(** The server test asserts after 50 ms that the command is there: it is,
    however the network cuts the bytes. *)
Lemma server_test_passes : passes ServerTests.every_cut = true.
Proof. vm_compute. reflexivity. Qed.
