(* ===== verification/ConformBook.v ===== *)
(** * ConformBook: the unit tests of order-book, ring-buffer and seqlock

    order-book/src/tests/matching_unit.rs, ring-buffer/src/tests/spsc_basic.rs
    and spmc_basic.rs, seqlock/src/tests/seqlock_basic.rs.  Their loom
    counterparts explore interleavings, which RingBuffer.v, SpmcConc.v and
    Seqlock.v prove for every schedule. *)

From S2P Require Import Prelude TestKit CoreTypes SlotMap Seqlock OrderBook RingBuffer.
#[local] Open Scope Z_scope.

(** ** matching_unit.rs *)

Module BookTests.
Import GmapSlotMap.

Definition SYM : Z := 0.
Definition ACCT_A : Z := 1.
Definition ACCT_B : Z := 2.

Definition make_book : OrderBook := OrderBook_new (mkBookConfig SYM 10000 1000 1024).
Definition seq_cmd (seq : Z) (cmd : InboundCommand) : SequencedCommand := mkSC 1 seq (wrap_u64 (seq * 1000)) cmd.
Definition new_limit (seq account : Z) (side : Side) (price qty : Z) : SequencedCommand :=
  seq_cmd seq (Inbound_NewOrder account 0 SYM side price qty Limit Gtc).
Definition new_ioc (seq account : Z) (side : Side) (price qty : Z) : SequencedCommand :=
  seq_cmd seq (Inbound_NewOrder account 0 SYM side price qty Limit Ioc).
Definition cancel (seq account order_id : Z) : SequencedCommand := seq_cmd seq (Inbound_Cancel account order_id).

Definition is_trade (e : EngineEvent) : bool :=
  match e with Trade _ _ _ _ _ _ _ _ _ _ _ _ _ _ => true | _ => false end.
Definition trades (evs : list EngineEvent) : list EngineEvent := List.filter is_trade evs.
Definition accepted (evs : list EngineEvent) : list EngineEvent :=
  List.filter (fun e => match e with Accepted _ _ _ _ _ _ _ _ _ => true | _ => false end) evs.
Definition rejected (evs : list EngineEvent) : list EngineEvent :=
  List.filter (fun e => match e with Rejected _ _ _ _ _ => true | _ => false end) evs.
Definition cancels (id : Z) (evs : list EngineEvent) : bool :=
  existsb (fun e => match e with Cancelled _ order_id => order_id =? id | _ => false end) evs.

(** [if let EngineEvent::Trade { .. } = e { .. }] and the same for a reject. *)
Definition if_trade (e : EngineEvent) (p : forall price qty maker_order maker_acct taker_acct : Z, bool) : bool :=
  match e with
  | Trade _ _ _ price qty maker_order _ _ _ maker_acct taker_acct _ _ _ => p price qty maker_order maker_acct taker_acct
  | _ => true
  end.
Definition if_rejected (e : EngineEvent) (r : RejectReason) : bool :=
  match e with Rejected _ _ _ _ reason => bool_decide (reason = r) | _ => true end.

(** [book.apply(cmd)] for its effect. *)
Definition feed (cmd : SequencedCommand) (b : OrderBook) : Exec OrderBook := let! '(b, _) := apply b cmd in Val b.
Definition feeds (cmds : list SequencedCommand) : Exec OrderBook := for_each cmds feed make_book.

Definition bid_is (p : option Z) (b : OrderBook) : bool := match best_bid b with Val x => bool_decide (x = p) | _ => false end.
Definition ask_is (p : option Z) (b : OrderBook) : bool := match best_ask b with Val x => bool_decide (x = p) | _ => false end.
Definition opens (n : nat) (b : OrderBook) : bool := (open_order_count b =? n)%nat.
Definition count (l : list EngineEvent) (n : nat) : bool := (length l =? n)%nat.

Definition no_cross_rests_on_book : Exec unit :=
  let! '(book, evs) := apply make_book (new_limit 1 ACCT_A Buy 10000 10) in
  assert! count (accepted evs) 1 ;;
  assert! count (trades evs) 0 ;;
  assert! bid_is (Some 10000) book ;;
  assert! ask_is None book ;;
  assert! opens 1 book ;;
  Val tt.

Definition full_fill_crossing_order : Exec unit :=
  let! book := feeds [new_limit 1 ACCT_A Sell 10010 5] in
  let! '(book, evs) := apply book (new_limit 2 ACCT_B Buy 10010 5) in
  let t := trades evs in
  assert! count t 1 ;;
  let! t0 := index_list t 0 in
  assert! if_trade t0 (fun price qty _ maker taker =>
            (qty =? 5) && (price =? 10010) && (maker =? ACCT_A) && (taker =? ACCT_B)) ;;
  assert! opens 0 book ;;
  assert! ask_is None book ;;
  assert! bid_is None book ;;
  Val tt.

Definition partial_fill_aggressor_rests_remainder : Exec unit :=
  let! book := feeds [new_limit 1 ACCT_A Sell 10010 3] in
  let! '(book, evs) := apply book (new_limit 2 ACCT_B Buy 10010 10) in
  let t := trades evs in
  assert! count t 1 ;;
  let! t0 := index_list t 0 in
  assert! if_trade t0 (fun _ qty _ _ _ => qty =? 3) ;;
  assert! opens 1 book ;;
  assert! bid_is (Some 10010) book ;;
  assert! ask_is None book ;;
  let! q := bid_qty_at book 10010 in
  assert! q =? 7 ;;
  Val tt.

Definition partial_fill_maker_leaves_remainder : Exec unit :=
  let! book := feeds [new_limit 1 ACCT_A Sell 10010 10] in
  let! '(book, evs) := apply book (new_limit 2 ACCT_B Buy 10010 3) in
  let t := trades evs in
  assert! count t 1 ;;
  let! t0 := index_list t 0 in
  assert! if_trade t0 (fun _ qty _ _ _ => qty =? 3) ;;
  assert! opens 1 book ;;
  assert! ask_is (Some 10010) book ;;
  let! q := ask_qty_at book 10010 in
  assert! q =? 7 ;;
  Val tt.

Definition price_time_priority_fifo_within_level : Exec unit :=
  let! book := feeds [new_limit 1 ACCT_A Sell 10010 1; new_limit 2 ACCT_B Sell 10010 1; new_limit 3 3 Sell 10010 1] in
  let! '(book, evs) := apply book (new_limit 4 4 Buy 10010 2) in
  let t := trades evs in
  assert! count t 2 ;;
  let! t0 := index_list t 0 in
  assert! if_trade t0 (fun _ _ maker_order maker _ => (maker_order =? 1) && (maker =? ACCT_A)) ;;
  let! t1 := index_list t 1 in
  assert! if_trade t1 (fun _ _ maker_order maker _ => (maker_order =? 2) && (maker =? ACCT_B)) ;;
  assert! opens 1 book ;;
  Val tt.

Definition best_price_priority_across_levels : Exec unit :=
  let! book := feeds [new_limit 1 ACCT_A Sell 10020 5; new_limit 2 ACCT_A Sell 10010 5; new_limit 3 ACCT_A Sell 10030 5] in
  assert! ask_is (Some 10010) book ;;
  let! '(book, evs) := apply book (new_limit 4 ACCT_B Buy 10050 5) in
  let t := trades evs in
  assert! count t 1 ;;
  let! t0 := index_list t 0 in
  assert! if_trade t0 (fun price qty _ _ _ => (price =? 10010) && (qty =? 5)) ;;
  assert! ask_is (Some 10020) book ;;
  Val tt.

Definition self_trade_cancels_resting_order_instead_of_matching : Exec unit :=
  let! book := feeds [new_limit 1 ACCT_A Sell 10010 5] in
  let! '(book, evs) := apply book (new_limit 2 ACCT_A Buy 10010 5) in
  assert! count (trades evs) 0 ;;
  assert! cancels 1 evs ;;
  assert! ask_is None book ;;
  assert! bid_is (Some 10010) book ;;
  assert! opens 1 book ;;
  Val tt.

Definition self_trade_prevention_skips_only_same_account_then_matches_next : Exec unit :=
  let! book := feeds [new_limit 1 ACCT_A Sell 10010 5; new_limit 2 ACCT_B Sell 10010 5] in
  let! '(book, evs) := apply book (new_limit 3 ACCT_A Buy 10010 5) in
  let t := trades evs in
  assert! count t 1 ;;
  let! t0 := index_list t 0 in
  assert! if_trade t0 (fun _ qty _ maker taker => (maker =? ACCT_B) && (taker =? ACCT_A) && (qty =? 5)) ;;
  assert! cancels 1 evs ;;
  assert! opens 0 book ;;
  Val tt.

Definition cancel_resting_order : Exec unit :=
  let! book := feeds [new_limit 1 ACCT_A Buy 10000 10] in
  assert! opens 1 book ;;
  assert! bid_is (Some 10000) book ;;
  let! '(book, evs) := apply book (cancel 2 ACCT_A 1) in
  assert! cancels 1 evs ;;
  assert! opens 0 book ;;
  assert! bid_is None book ;;
  Val tt.

Definition cancel_wrong_account_rejected : Exec unit :=
  let! book := feeds [new_limit 1 ACCT_A Buy 10000 10] in
  let! '(book, evs) := apply book (cancel 2 ACCT_B 1) in
  let r := rejected evs in
  assert! count r 1 ;;
  let! r0 := index_list r 0 in
  assert! if_rejected r0 RR_WrongAccount ;;
  assert! opens 1 book ;;
  Val tt.

Definition cancel_unknown_order_rejected : Exec unit :=
  let! '(_, evs) := apply make_book (cancel 1 ACCT_A 9999) in
  let r := rejected evs in
  assert! count r 1 ;;
  let! r0 := index_list r 0 in
  assert! if_rejected r0 RR_OrderNotFound ;;
  Val tt.

Definition cancel_updates_best_bid_to_next_level : Exec unit :=
  let! book := feeds [new_limit 1 ACCT_A Buy 10010 5; new_limit 2 ACCT_A Buy 10000 5] in
  assert! bid_is (Some 10010) book ;;
  let! book := feed (cancel 3 ACCT_A 1) book in
  assert! bid_is (Some 10000) book ;;
  Val tt.

Definition ioc_full_fill : Exec unit :=
  let! book := feeds [new_limit 1 ACCT_A Sell 10010 5] in
  let! '(book, evs) := apply book (new_ioc 2 ACCT_B Buy 10010 5) in
  assert! count (trades evs) 1 ;;
  assert! opens 0 book ;;
  Val tt.

Definition ioc_partial_fill_remainder_cancelled : Exec unit :=
  let! book := feeds [new_limit 1 ACCT_A Sell 10010 3] in
  let! '(book, evs) := apply book (new_ioc 2 ACCT_B Buy 10010 10) in
  assert! count (trades evs) 1 ;;
  assert! existsb (fun e => match e with Cancelled _ _ => true | _ => false end) evs ;;
  assert! opens 0 book ;;
  Val tt.

Definition ioc_no_match_rejected : Exec unit :=
  let! '(book, evs) := apply make_book (new_ioc 1 ACCT_A Buy 10010 5) in
  assert! count (trades evs) 0 ;;
  let r := rejected evs in
  assert! count r 1 ;;
  let! r0 := index_list r 0 in
  assert! if_rejected r0 RR_IocNoMatch ;;
  assert! opens 0 book ;;
  Val tt.

Definition invalid_qty_rejected : Exec unit :=
  let! '(_, evs) := apply make_book (new_limit 1 ACCT_A Buy 10000 0) in
  assert! count (rejected evs) 1 ;;
  let! e0 := index_list evs 0 in
  assert! if_rejected e0 RR_InvalidQty ;;
  Val tt.

Definition price_out_of_range_rejected : Exec unit :=
  let! '(_, evs) := apply make_book (new_limit 1 ACCT_A Buy 5000 10) in
  assert! count (rejected evs) 1 ;;
  Val tt.

Definition sweep_multiple_levels : Exec unit :=
  let! book := feeds [new_limit 1 ACCT_A Sell 10010 5; new_limit 2 ACCT_A Sell 10020 5; new_limit 3 ACCT_A Sell 10030 5] in
  let! '(book, evs) := apply book (new_limit 4 ACCT_B Buy 10050 12) in
  let t := trades evs in
  assert! count t 3 ;;
  let total_filled := sumZ (map (fun e => match e with Trade _ _ _ _ qty _ _ _ _ _ _ _ _ _ => qty | _ => 0 end) t) in
  assert! total_filled =? 12 ;;
  assert! ask_is (Some 10030) book ;;
  let! q := ask_qty_at book 10030 in
  assert! q =? 3 ;;
  assert! bid_is None book ;;
  Val tt.

Definition book_top_event_emitted_after_resting : Exec unit :=
  let! '(_, evs) := apply make_book (new_limit 1 ACCT_A Buy 10000 5) in
  assert! existsb (fun e => match e with BookTop _ _ (Some p) None => p =? 10000 | _ => false end) evs ;;
  Val tt.
End BookTests.

Lemma matching_tests_pass :
  all_pass
    [BookTests.no_cross_rests_on_book; BookTests.full_fill_crossing_order;
     BookTests.partial_fill_aggressor_rests_remainder; BookTests.partial_fill_maker_leaves_remainder;
     BookTests.price_time_priority_fifo_within_level; BookTests.best_price_priority_across_levels;
     BookTests.self_trade_cancels_resting_order_instead_of_matching;
     BookTests.self_trade_prevention_skips_only_same_account_then_matches_next;
     BookTests.cancel_resting_order; BookTests.cancel_wrong_account_rejected;
     BookTests.cancel_unknown_order_rejected; BookTests.cancel_updates_best_bid_to_next_level;
     BookTests.ioc_full_fill; BookTests.ioc_partial_fill_remainder_cancelled;
     BookTests.ioc_no_match_rejected; BookTests.invalid_qty_rejected; BookTests.price_out_of_range_rejected;
     BookTests.sweep_multiple_levels; BookTests.book_top_event_emitted_after_resting] = true.
Proof. vm_compute. reflexivity. Qed.

(** ** spsc_basic.rs *)

Module SpscTests.
Import Spsc.

Definition push_ok (cap : nat) (x : Z) (q : Queue) : Exec Queue :=
  let '(r, q) := try_push cap x q in let! _ := unwrap r in Val q.
Definition pop_is (cap : nat) (x : option Z) (q : Queue) : Exec Queue :=
  let! '(v, q) := try_pop cap q in assert! v =! x ;; Val q.
Definition zs (n : nat) : list Z := map Z.of_nat (List.seq 0 n).

Definition push_then_pop_returns_same_value : Exec unit :=
  let '(r, q) := try_push 4 42 (spsc_queue 4) in
  assert! is_ok r ;;
  let! _ := pop_is 4 (Some 42) q in
  Val tt.

Definition pop_on_empty_queue_returns_none : Exec unit :=
  let! _ := pop_is 4 None (spsc_queue 4) in
  Val tt.

Definition push_until_full_then_rejects : Exec unit :=
  let! q := for_each (zs 4) (push_ok 4) (spsc_queue 4) in
  match fst (try_push 4 999 q) with
  | Err returned => assert! returned =? 999 ;; Val tt
  | Ok _ => Panic
  end.

Definition fifo_order_is_preserved : Exec unit :=
  let! q := for_each (zs 5) (push_ok 8) (spsc_queue 8) in
  let! q := for_each (zs 5) (fun i => pop_is 8 (Some i)) q in
  let! _ := pop_is 8 None q in
  Val tt.

Definition wraparound_across_capacity_boundary : Exec unit :=
  let! _ := for_each (zs 10)
              (fun round q => let! q := push_ok 4 round q in pop_is 4 (Some round) q) (spsc_queue 4) in
  Val tt.

(** The queue, [next_push], [next_expected_pop], [in_flight]. *)
Definition Flight : Type := Queue (T := Z) * Z * Z * Z.

Definition flight_step (step : Z) (s : Flight) : Exec Flight :=
  let '(q, next_push, next_expected_pop, in_flight) := s in
  if (in_flight <? 4) && negb (step mod 3 =? 0) then
    let! q := push_ok 4 next_push q in
    Val (q, next_push + 1, next_expected_pop, in_flight + 1)
  else
    let! '(v, q) := try_pop 4 q in
    match v with
    | Some v => assert! v =? next_expected_pop ;; Val (q, next_push, next_expected_pop + 1, in_flight - 1)
    | None => Val (q, next_push, next_expected_pop, in_flight)
    end.

(** [while let Some(v) = c.try_pop()]; at most [fuel] items. *)
Fixpoint drain (fuel : nat) (q : Queue (T := Z)) (next_expected_pop : Z) : Exec Z :=
  match fuel with
  | O => OutOfFuel
  | S fuel' =>
      let! '(v, q) := try_pop 4 q in
      match v with
      | None => Val next_expected_pop
      | Some v => assert! v =? next_expected_pop ;; drain fuel' q (next_expected_pop + 1)
      end
  end.

Definition interleaved_push_pop_never_loses_or_duplicates_items : Exec unit :=
  let! '(q, next_push, next_expected_pop, _) := for_each (zs 100) flight_step (spsc_queue 4, 0, 0, 0) in
  let! next_expected_pop := drain 5 q next_expected_pop in
  assert! next_expected_pop =? next_push ;;
  Val tt.
End SpscTests.

(** ** spmc_basic.rs *)

Module SpmcTests.
Import Spmc.

Definition push_ok (cap : nat) (x : Z) (q : Queue) : Exec Queue :=
  let '(r, q) := try_push cap x q in let! _ := unwrap r in Val q.
Definition pop_is (cap c : nat) (x : option Z) (q : Queue) : Exec Queue :=
  let! '(v, q) := try_pop cap c q in assert! v =! x ;; Val q.

Definition single_consumer_sees_pushed_item : Exec unit :=
  let! q := push_ok 4 7 (spmc_queue 4 1) in
  let! _ := pop_is 4 0 (Some 7) q in
  Val tt.

Definition every_consumer_independently_sees_every_item : Exec unit :=
  let! q := push_ok 4 11 (spmc_queue 4 3) in
  let! q := push_ok 4 22 q in
  let! _ := for_each [0; 1; 2]%nat
              (fun c q => let! q := pop_is 4 c (Some 11) q in
                          let! q := pop_is 4 c (Some 22) q in
                          pop_is 4 c None q) q in
  Val tt.

Definition push_blocked_by_slowest_consumer : Exec unit :=
  let '(r1, q) := try_push 2 1 (spmc_queue 2 2) in
  assert! is_ok r1 ;;
  let '(r2, q) := try_push 2 2 q in
  assert! is_ok r2 ;;
  match try_push 2 3 q with
  | (Err returned, q) =>
      assert! returned =? 3 ;;
      let! '(v, _) := try_pop 2 0 q in
      let! _ := expect v in
      Val tt
  | (Ok _, _) => Panic
  end.

Definition fifo_order_per_consumer : Exec unit :=
  let! q := for_each (SpscTests.zs 5) (push_ok 8) (spmc_queue 8 2) in
  let! q := for_each (SpscTests.zs 5) (fun i => pop_is 8 0 (Some i)) q in
  let! _ := for_each (SpscTests.zs 5) (fun i => pop_is 8 1 (Some i)) q in
  Val tt.
End SpmcTests.

(** ** seqlock_basic.rs *)

Module SeqlockTests.
Import Seqlock.

(** [s.update(balance, used_margin, frozen, halted, position, open_order_count)]. *)
Definition upd (b um : Z) (f h : bool) (p ooc : Z) : AccountRiskState -> AccountRiskState := update (mkSnap b um f h p ooc).

Definition snap_is (snap : AccountRiskSnapshot) (b um : Z) (f h : bool) (p ooc : Z) : bool :=
  (balance snap =? b) && (used_margin snap =? um) && eqb (frozen snap) f && eqb (halted snap) h
  && (position snap =? p) && (open_order_count snap =? ooc).

Definition new_state_defaults_to_zero : Exec unit :=
  let! snap := read AccountRiskState_new in
  assert! snap_is snap 0 0 false false 0 0 ;;
  Val tt.

Definition update_then_read_roundtrips_all_fields : Exec unit :=
  let s := upd 1000000000000 250000000000 true false 500000000 3 AccountRiskState_new in
  let! snap := read s in
  assert! snap_is snap 1000000000000 250000000000 true false 500000000 3 ;;
  Val tt.

Definition repeated_updates_each_fully_overwrite_previous_state : Exec unit :=
  let s := upd 200 20 true true 1 1 (upd 100 10 false false 0 0 AccountRiskState_new) in
  let! snap := read s in
  assert! snap_is snap 200 20 true true 1 1 ;;
  Val tt.

Definition convenience_accessors_agree_with_full_read : Exec unit :=
  let s := upd 0 0 false true 42 7 AccountRiskState_new in
  let! h := is_halted s in
  assert! eqb h true ;;
  let! f := is_frozen s in
  assert! eqb f false ;;
  let! p := get_position s in
  assert! p =? 42 ;;
  let! n := get_open_order_count s in
  assert! n =? 7 ;;
  Val tt.

Definition set_halted_preserves_other_fields : Exec unit :=
  let! s := set_halted true (upd 500 50 true false 3 2 AccountRiskState_new) in
  let! snap := read s in
  assert! snap_is snap 500 50 true true 3 2 ;;
  Val tt.

Definition set_position_preserves_other_fields : Exec unit :=
  let! s := set_position 99 (upd 500 50 false true 3 2 AccountRiskState_new) in
  let! snap := read s in
  assert! snap_is snap 500 50 false true 99 2 ;;
  Val tt.
End SeqlockTests.

Lemma ring_tests_pass :
  all_pass
    [SpscTests.push_then_pop_returns_same_value; SpscTests.pop_on_empty_queue_returns_none;
     SpscTests.push_until_full_then_rejects; SpscTests.fifo_order_is_preserved;
     SpscTests.wraparound_across_capacity_boundary;
     SpscTests.interleaved_push_pop_never_loses_or_duplicates_items;
     SpmcTests.single_consumer_sees_pushed_item; SpmcTests.every_consumer_independently_sees_every_item;
     SpmcTests.push_blocked_by_slowest_consumer; SpmcTests.fifo_order_per_consumer] = true.
Proof. vm_compute. reflexivity. Qed.

Lemma seqlock_tests_pass :
  all_pass
    [SeqlockTests.new_state_defaults_to_zero; SeqlockTests.update_then_read_roundtrips_all_fields;
     SeqlockTests.repeated_updates_each_fully_overwrite_previous_state;
     SeqlockTests.convenience_accessors_agree_with_full_read; SeqlockTests.set_halted_preserves_other_fields;
     SeqlockTests.set_position_preserves_other_fields] = true.
Proof. vm_compute. reflexivity. Qed.
