(* ===== verification/ConformEndToEnd.v ===== *)
(** * ConformEndToEnd: the integration test of crates/sim/tests/end_to_end.rs

    A client authenticates and sends an order over the gateway's wire format;
    its bytes pass the accept loop, the connection, the lane, the sequencer, the
    matching engine and the bridge to the report channel, and come back as a
    frame.  Every thread takes one turn, in the order the order travels.  The
    test asks for a frame of type EXEC_REPORT; the lemmas also say what the
    frame reports. *)

From stdpp Require Import strings.
From S2P Require Import Prelude TestKit CoreTypes SlotMap OrderBook Seqlock RingBuffer Fifo Risk Metrics Engine EngineTheorems.
From S2P Require Import Sequencer RiskLoop Bytes Codec Session MarketData Server Accept ConformTrading ConformGateway.
#[local] Open Scope list_scope.
#[local] Open Scope Z_scope.

Module EndToEnd.
Import GmapSlotMap EngineDemo SessionDemo SequencerDemo.
#[local] Existing Instances gw_fifo me_fifo wal_fifo snap_fifo.

Definition TEST_ACCOUNT : Z := 7.
Definition TEST_SYMBOL : Z := 0.

(** The frames the client writes, for an order at [price]. *)
Definition client_writes (price : Z) : Exec (list SocketRead) :=
  let! auth_frame := encode_ok 0 (put_u64_le TEST_ACCOUNT []) [] in
  let! order_frame := encode_ok NEW_ORDER (SessionTests.encode_new_order_payload 1 TEST_SYMBOL 0 0 price 3 0) [] in
  Val [Data auth_frame; Data order_frame].

(** [server.serve(listener)]: one accept, whose factory hands out the one lane;
    the connection reads until the client stops writing. *)
Definition gateway (reads : list SocketRead) : Exec (Spsc.Queue (T := InboundCommand)) :=
  let server := GatewayServer_new GatewayConfig_default (fun _ => fifo_new) in
  let! '(task, _) := unwrap (serve_turn (Ok (reads, "client"%string)) server) in
  let! r := run_task ServerDemo.up (fun _ q => q) task in
  let! r := expect r in
  let! '(_, c) := unwrap r in
  Val (cmd_producer (cn_session c)).

(** [while let Some(ev) = me_out_consumer.try_pop() { exec_tx.send(ev) }]. *)
Fixpoint bridge (fuel : nat) (q : Spsc.Queue (T := Event)) : Exec (list Event) :=
  match fuel with
  | O => OutOfFuel
  | S fuel' =>
      let! '(ev, q) := Spsc.try_pop OUT_CAP q in
      match ev with None => Val [] | Some ev => let! evs := bridge fuel' q in Val (ev :: evs) end
  end.

(** The bytes the client receives, and the shard after its turn.  [now_ns] is
    the clock of the sequencer. *)
Definition round_trip (num_ticks : nat) (price now_ns : Z) : Exec (list Z * RiskShard) :=
  let shard := RiskShard_new 0 16 (ShardConfig_new 16) (Table_new 16) in
  let! shard := seed_deposit TEST_ACCOUNT 10000000000000 shard in
  let! reads := client_writes price in
  let! gw := gateway reads in
  let! config := SequencerConfig_new 1 in
  let! sequencer := Sequencer_new [gw] [fifo_new] fifo_new [] GlobalHalt.new for_test_leader config 0 in
  let! sequencer := run_iter (fun _ _ q => q) (fun _ _ q => q) 1 now_ns sequencer in
  let! '(_, _) := fifo_pop (wal_out sequencer) in
  let! inbound := index_list (me_inbound sequencer) 0 in
  let engine := MatchingEngine_new (W := EngineTests.NullWal) Tier0Limits_default
                  (OrderBook_new (mkBookConfig TEST_SYMBOL Price.ZERO num_ticks 4096))
                  (Spsc.spsc_queue OUT_CAP) (Spmc.spmc_queue RISK_FANOUT_CAP 1) (rs_states shard) [] in
  let! '(_, engine) := run_turn out_idle risk_idle instant instant inbound engine in
  let! th := shard_iteration map_to_list ∅ RISK_FANOUT_CAP CMD_QUEUE_CAP (fun _ _ q => q) (fun _ q => q) 1 0 0
               (mkThread shard (e_risk_out engine) fifo_new) in
  let! evs := bridge 8 (e_outbound engine) in
  Val (concat (exec_forwarder TEST_ACCOUNT ServerDemo.tx_up 0 (map RecvOk evs)), th_shard th).

Definition order_flows_gateway_to_engine_and_ack_returns (now_ns : Z) : Exec unit :=
  let! '(resp, _) := round_trip 1024 10000 now_ns in
  let! '(frame, _) := decode_ok resp in
  let! frame := expect frame in
  assert! fr_type frame =? EXEC_REPORT ;;
  Val tt.

(** What the client is told. *)
Definition told (num_ticks : nat) (price now_ns : Z) : Exec Report :=
  let! '(resp, _) := round_trip num_ticks price now_ns in
  let! '(frame, _) := decode_ok resp in
  let! frame := expect frame in
  read_report (fr_payload frame).
End EndToEnd.

(** The test passes, whatever the clock says. *)
Lemma end_to_end_test_passes now_ns :
  passes (EndToEnd.order_flows_gateway_to_engine_and_ack_returns now_ns) = true.
Proof. vm_compute. reflexivity. Qed.

(** But the report it receives is a rejection: its price is not on the ladder
    of 1024 ticks. *)
Lemma end_to_end_report_is_a_reject now_ns :
  EndToEnd.told 1024 10000 now_ns = Val (RRejected 1 RR_PriceOutOfRange).
Proof. vm_compute. reflexivity. Qed.

(** With a price on the ladder the same path returns the acceptance, with the
    number of the sequencer as the order id. *)
Lemma end_to_end_accepted now_ns :
  EndToEnd.told 1024 1000 now_ns = Val (RAccepted 1 1 Buy 1000 3).
Proof. vm_compute. reflexivity. Qed.
